(* ===== verification/_CoqProject ===== *)
-Q . S2P
Prelude.v
Os.v
Strings.v
Trace.v
Wire.v
ExecCtrl.v
ExecFacts.v
Icl.v
SegList.v
ShadowPM.v
ShadowFacts.v
Detector.v
Frontend.v
FrontendFacts.v
Scenarios.v
ByteSpec.v
Refinement.v
Campaign.v
Persistency.v
Verdicts.v
Invariants.v
Reports.v
Instances.v
Backtraces.v
TracePrint.v
Pintool.v
Instrument.v
PinRun.v
PinFacts.v
PinControl.v
Interface.v
Pipeline.v
PinInstances.v
Ravl.v
RavlTree.v
RavlFacts.v
Pmem.v
PmemFacts.v
Ulog.v
UlogFacts.v
LogChain.v
Memops.v
MemopsFacts.v
UndoFacts.v
UndoEnd.v
UndoRecovery.v
UndoInstances.v
UndoSpec.v
TxRanges.v
TxRangesFacts.v
Lane.v
LaneFacts.v
LaneHold.v
RedoFacts.v
History.v
Palloc.v
PallocFacts.v
PallocSpec.v
Tx.v
TxOps.v
TxRestore.v
TxFacts.v
TxAbort.v
TxCommit.v
TxSpec.v
TxInstances.v
TxAtomic.v
TxMoves.v
TxLocks.v
TxStage.v
TxNested.v
Critnib.v
CritnibTree.v
CritnibFacts.v
CritnibSpec.v
CritnibMap.v
CritnibFree.v
AllocClass.v
AllocClassFacts.v
AllocClassMap.v
