(* ===== verification/Prelude.v ===== *)
(** * XFDetector: a verification development

    XFDetector finds cross-failure bugs: reads, by the recovery code of a
    program on persistent memory, of data that a failure may have left
    inconsistent.  It runs the program under test twice, under Intel's Pin: the
    pre-failure run stops at each failure point, a post-failure run then starts
    on a copy of the memory image, and a detector process follows both runs
    through FIFOs, keeping a shadow of the persistent memory.

    ** The parts of the program and their models

    - [include/common.hh], [include/trace.hh]: constants, the address window and
      the trace entry are [Trace]; the 56 bytes of an entry in a FIFO are [Wire];
      [str2cmd], [cmd2str] and the string functions the code calls are [Strings].
    - [src/shadow_pm.cc], class [ShadowPM]: record and methods are [ShadowPM].
      Its interval maps and sets are Boost.ICL, which is not part of the
      repository: [Icl] states the operations and laws the code relies on as type
      classes, [SegList] implements them by sorted lists of segments, so that
      everything stated over the classes can be run.
    - [src/xfdetector.cc]: the handler [update_pm_status] of class
      [XFDetectorDetector] is [Detector], its debugging members are [TracePrint];
      class [XFDetectorFIFO] and [main] are [Frontend].
    - [src/exec_ctrl.cc], class [ExeCtrl]: [ExecCtrl].
    - [pintool/]: the state of the Pin tool and its analysis routines
      ([pintool.cpp], [xfdetector_pintool.hh], [xfdetector_pmem.hh],
      [xfdetector_tx.hh]) are [Pintool]; the calls its instrumentation functions
      insert, and its [main], are [Instrument]; the backtrace file, as the tool
      writes it and as the detector searches it, is [Backtraces].
    - [src/xfdetector_interface.c], the annotations that a program under test
      links: [Interface].
    - [pmdk/src/libpmemobj]: the transactions of PMDK, which the tool traces and
      whose recovery it observes, from the bottom up.  [pmemops.h] and the
      checksums of [util.c] are [Pmem]: a memory of bytes and the history of
      stores, flushes and fences.  [ulog.c] is [Ulog], [memops.c] is [Memops],
      [lane.c] is [Lane], [palloc.c] is [Palloc], [ravl.c] is [Ravl], [critnib.c] is
      [Critnib], [alloc_class.c] is [AllocClass], with the layout of a run from
      [heap_layout.h] and [memblock.c] and the handlers of [pmalloc.c] for classes of a
      program.  In [tx.c],
      the ranges of a transaction are [TxRanges], beginning, aborting, committing
      and ending are [Tx], and adding ranges, allocating and freeing are [TxOps];
      the blocks [TX_BEGIN] ... [TX_END] of [tx.h] with their jumps are in [Tx].
      The heap under the allocator, the locks of [sync.c] and the allocator of
      transient memory are classes ([PallocEnv], [TxEnv]) with their laws
      ([PallocLaws], [TxLaws]).  The build is the debug build, which is the one that
      [driver/Makefile] links ([pmdk/src/debug]): assertions of PMDK stop, and the code
      under [#ifdef DEBUG] is there (the check of a log before it is processed, the
      state of a block before its header changes, the check of a new collection of
      classes).

    The code is C and C++ that changes state, so an operation is a function of
    the monad [M] of [Prelude]: it returns a value and a new state, or it stops
    with a reason, which distinguishes a failed assertion, [ERR], an exit,
    undefined behaviour (an array index out of range, signed overflow, a null
    pointer) and a bound of the model.  The system ([Os]) is a list of answers to
    come and the list of calls made; a call without an answer waits for ever.
    Integers are [Z] at the width of their C type, with the wrap-around written
    out where the code can reach it ([u64], [u32], [s32]).

    ** What is shown

    - [ByteSpec], [Refinement]: a reference that says for each byte what the
      tool should know about it, and the theorem that the detector refines it on
      every trace: same stops, same bytes, one report for each read the reference
      objects to.  [Campaign] extends this to the main loop with its FIFOs,
      buffers, copies and processes, for any number of failure points.
    - [Persistency]: the verdict in terms of the program's history alone (what
      was stored, flushed and fenced when), for programs without transactions;
      [Verdicts]: transactions, fences, overwriting, and two cases in which the
      verdict is not what it should be.
    - [Invariants]: the invariant of all reachable detector states and the exact
      set of entries on which the handler stops; [Reports]: what is printed.
    - [FrontendFacts], [ExecFacts]: termination of [main], isolation of the
      post-failure run, error paths, the commands handed to [execvpe];
      [Backtraces]: which of the recorded backtraces the detector finds, and that it
      looks only into the files of execution 0.
    - [PinRun], [PinFacts]: for the functions of a program, except the few that control
      the tool, and every instruction, the entries that the tables, the inserted calls
      and the analysis routines together send; [PinControl]: failure points, the start
      of the tool; [Pipeline]: tool and detector together, from the instructions of a
      program to the verdict.
    - [RavlTree], [RavlFacts]: the trees of ranges are search trees, and insertion,
      removal and search do to the sorted list of their elements what they
      should; [TxRangesFacts]: adding a range covers it, and snapshots exactly what
      was not covered before; a range of the tree has the flags of one of those it was
      merged from.
    - [CritnibTree], [CritnibFacts], [CritnibSpec], [CritnibMap], [CritnibFree]: the
      radix trees that map pools to lanes and sizes to allocation classes answer as
      finite maps do, whatever the order of operations and also when memory runs
      out, and deleting one frees every block once.
    - [AllocClassFacts], [AllocClassMap]: the bitmap and the units of a run fit into it,
      or, without room for the unit that an alignment costs, their number wraps around;
      every size gets a class that takes it, with the least waste, as long as runs
      have enough units, which holds for the classes of a new pool; a class is found
      by its runs.  For classes that a program adds it need not hold, and the choice
      of a class can then fail or divide by zero.
    - [PmemFacts], [UlogFacts], [LogChain], [UndoFacts], [UndoEnd], [UndoRecovery],
      [UndoSpec]: an undo log is a chain of logs with entries; adding a buffer
      appends its bytes, processing restores them, finishing empties the log, and
      recovery after a failure does both.  [MemopsFacts], [RedoFacts]:
      redo logs, and the order of merged entries.  [History]: memory operations
      only add to the history, and end in no error of a lock.
    - [LaneFacts], [LaneHold]: a thread gets a lane as soon as it sees one free, and
      threads that run the code of [lane_hold] and [lane_release], interleaved at every
      access to what they share, never hold the same lane and lose none; [PallocFacts], [PallocSpec]: the locks that the
      allocator takes.
    - [TxRestore], [TxFacts], [TxAbort], [TxCommit], [TxSpec], [TxAtomic]: a transaction
      is aborted without a trace, recovered after a failure to the state before
      it, or committed durably, whatever ranges it adds and whatever it stores
      into them, where a commit need not flush what is merged with a range that was
      added without flushing.  [TxMoves], [TxStage]: every call of the interface, in any
      order and with memory or without, moves the stage and the depth of a transaction
      along a fixed machine, stops, or jumps.  [TxLocks]: an abort leaves held locks alone.  [TxNested]: blocks
      of transactions, the entries that the tool sends for them and the level that
      the detector counts, for a nested transaction that is aborted.
    - [Scenarios], [Instances], [PinInstances], [UndoInstances],
      [TxInstances], [RavlFacts.Examples], the end of [PallocSpec]: concrete runs
      and instances of the classes, to which the properties with hypotheses are
      applied.

    ** Bounds

    Loops that the C code leaves by [break] or a flag take a number of turns as
    fuel.  Each turn of the detector's loops consumes an answer of the system, so
    more fuel than answers is enough ([FrontendFacts]: then the fuel makes no
    difference); the tool's wait for a signal needs one turn per message
    ([PinControl]).  The loops over a chain of logs, over the entries of a log and
    over the nodes of a tree take more fuel than there are logs, entries or nodes;
    a tree of ranges has at most 2^64 nodes, a log fewer entries than bytes, and
    [TxLaws] asks for fuel of 2^66.  A critnib tree has at most 16 levels, four bits
    of a key at each.  The classes of a new pool need 100 steps in a category and 5000
    unit sizes to try for a class, which the run in [AllocClassMap] shows to be
    enough.

    ** Not modelled

    Progress messages and time measurements that are only printed; [addr2line]
    and the C library's [backtrace_symbols] (their output is an argument);
    contents of uninitialised memory (an argument too: padding of an entry, the
    flags that the copy constructor of [ShadowPM] forgets); the concurrency inside
    Pin, whose mutexes make a routine one step; declarations without definition
    ([modify_addr_internal], [check_pm_status], ...) and [signal_recv] of the
    detector, which is never called.  Of PMDK, annotations for Valgrind, remote
    replicas, functions that only free transient memory, and what is not between
    a transaction and its logs: the heap under the allocator ([heap.c],
    [bucket.c], [recycler.c] and the rest of [memblock.c]), opening and checking
    pools, lists, the other libraries and the tools; of [ravl.c], the [errno] of a
    failed insertion and the width of the ranks, which stay far below 2^31.  Pin itself, the workloads
    ([pin-3.13], [memcached-pmem], [driver], [patch]) and the shell scripts are not
    part of the detector. *)
From Stdlib Require Export ZifyBool.
From stdpp Require Import base list strings gmap.

(** ** The abort monad

    The tool is stateful C++ that stops on a failed [assert], on the [ERR]
    macro (print and [abort()]) and, where the standard leaves the behaviour
    open, on nothing we could describe.  A computation over a state [S] either
    returns a value with the new state, or stops with the reason and the state
    it had reached. *)

Inductive abort_reason :=
  | AssertFailed (what : string)
  | ErrAbort (message : string)
  | Exited (code : Z)
  | UndefinedBehaviour (what : string)
  (** [exec] succeeded: the process runs another program from here on. *)
  | ExecImage (argv env : list string)
  (** A system call that never returns. *)
  | Blocked
  (** [longjmp(env, val)]: control goes to the [setjmp] that filled the buffer [env]. *)
  | LongJump (env val : Z)
  (** The bound on a loop of the model was too small. *)
  | OutOfFuel.

Inductive res (S A : Type) :=
  | Ok (a : A) (s : S)
  | Abort (e : abort_reason) (s : S).
Global Arguments Ok {S A} _ _.
Global Arguments Abort {S A} _ _.

Definition returns {S A} (r : res S A) : bool := match r with Ok _ _ => true | Abort _ _ => false end.

Definition M (S A : Type) : Type := S → res S A.

Section monad.
Context {S : Type}.
Implicit Types A B : Type.

Definition ret {A} (a : A) : M S A := λ s, Ok a s.
Definition bind {A B} (c : M S A) (k : A → M S B) : M S B := λ s,
  match c s with
  | Ok a s' => k a s'
  | Abort e s' => Abort e s'
  end.
Definition gets {A} (f : S → A) : M S A := λ s, Ok (f s) s.
Definition modify (f : S → S) : M S unit := λ s, Ok tt (f s).
Definition stop {A} (e : abort_reason) : M S A := λ s, Abort e s.

(** [assert(cond)] of C, compiled without [NDEBUG]. *)
Definition assert_ (cond : bool) (what : string) : M S unit :=
  if cond then ret tt else stop (AssertFailed what).

Definition when (cond : bool) (c : M S unit) : M S unit :=
  if cond then c else ret tt.

(** A range-for loop whose body is a statement. *)
Fixpoint for_each {A} (l : list A) (body : A → M S unit) : M S unit :=
  match l with
  | [] => ret tt
  | x :: l' => bind (body x) (λ _, for_each l' body)
  end.

(** [while (cond) { ... }]; the body says whether to go round again ([false] is
    [break]).  [fuel] bounds the number of turns. *)
Fixpoint while_ (fuel : nat) (cond : M S bool) (body : M S bool) : M S unit :=
  match fuel with
  | O => stop OutOfFuel
  | Datatypes.S fuel' =>
      bind cond (λ b : bool,
        if b then bind body (λ again : bool, if again then while_ fuel' cond body else ret tt)
        else ret tt)
  end.
End monad.

Declare Scope xfd_scope.
Delimit Scope xfd_scope with xfd.
Notation "'let!' x := c 'in' k" := (bind c (λ x, k))
  (at level 10, x name, c at level 100, k at level 200) : xfd_scope.
Notation "c1 ';;' c2" := (bind c1 (λ _, c2))
  (at level 100, right associativity) : xfd_scope.
Open Scope xfd_scope.

(** A field of a larger state: run a computation on a component of it. *)
Definition zoom {S T A} (get : S → T) (put : T → S → S) (c : M T A) : M S A := λ s,
  match c (get s) with
  | Ok a t => Ok a (put t s)
  | Abort e t => Abort e (put t s)
  end.

(** ** Outcomes of computations *)

(** [wpe c Q E s]: from [s], the computation either returns a value and a state
    that satisfy [Q], or stops with a reason and a state that satisfy [E].
    [wp] excludes stopping, [wlp] ignores it. *)
Definition wpe {S A} (c : M S A) (Q : A → S → Prop) (E : abort_reason → S → Prop) (s : S)
    : Prop :=
  match c s with Ok a s' => Q a s' | Abort e s' => E e s' end.
Definition wp {S A} (c : M S A) (Q : A → S → Prop) (s : S) : Prop :=
  wpe c Q (λ _ _, False) s.
Definition wlp {S A} (c : M S A) (Q : A → S → Prop) (s : S) : Prop :=
  wpe c Q (λ _ _, True) s.

Section wpe_rules.
Context {S : Type}.
Implicit Types (s : S) (E : abort_reason → S → Prop).

Lemma wpe_ret {A} (a : A) (Q : A → S → Prop) E s : Q a s → wpe (ret a) Q E s.
Proof. done. Qed.
Lemma wpe_bind {A B} (c : M S A) (k : A → M S B) Q E s :
  wpe c (λ a, wpe (k a) Q E) E s → wpe (bind c k) Q E s.
Proof. unfold wpe, bind. by destruct (c s). Qed.
Lemma bind_Ok {A B} (c : M S A) (k : A → M S B) s a s' :
  c s = Ok a s' → bind c k s = k a s'.
Proof. unfold bind. by intros ->. Qed.
Lemma wpe_assoc {A B C} (c : M S A) (k : A → M S B) (r : B → M S C) Q E s :
  wpe (bind (bind c k) r) Q E s → wpe (bind c (λ a, bind (k a) r)) Q E s.
Proof. unfold wpe, bind. by destruct (c s). Qed.
Lemma wpe_gets {A} (f : S → A) (Q : A → S → Prop) E s : Q (f s) s → wpe (gets f) Q E s.
Proof. done. Qed.
Lemma wpe_modify (f : S → S) (Q : unit → S → Prop) E s : Q tt (f s) → wpe (modify f) Q E s.
Proof. done. Qed.
Lemma wpe_stop {A} e (Q : A → S → Prop) E s : E e s → wpe (stop e) Q E s.
Proof. done. Qed.
Lemma wpe_assert b what (Q : unit → S → Prop) E s :
  (b = true → Q tt s) → (b = false → E (AssertFailed what) s) → wpe (assert_ b what) Q E s.
Proof. unfold wpe, assert_. destruct b; naive_solver. Qed.
Lemma wpe_when b c (Q : unit → S → Prop) E s :
  (b = true → wpe c Q E s) → (b = false → Q tt s) → wpe (when b c) Q E s.
Proof. unfold when. destruct b; naive_solver. Qed.
Lemma wpe_if {A} (b : bool) (c1 c2 : M S A) Q E s :
  (b = true → wpe c1 Q E s) → (b = false → wpe c2 Q E s) →
  wpe (if b then c1 else c2) Q E s.
Proof. destruct b; naive_solver. Qed.
Lemma wpe_mono {A} (c : M S A) (Q Q' : A → S → Prop) E E' s :
  wpe c Q E s → (∀ a s', Q a s' → Q' a s') → (∀ e s', E e s' → E' e s') → wpe c Q' E' s.
Proof. unfold wpe. destruct (c s); naive_solver. Qed.
(** A loop keeps what every turn of it keeps. *)
Lemma wpe_for_each {A} (l : list A) body (I : S → Prop) E s :
  (∀ x s, x ∈ l → I s → wpe (body x) (λ _, I) E s) →
  I s → wpe (for_each l body) (λ _, I) E s.
Proof.
  revert s. induction l as [|x l IH]; intros s Hbody Hs; [done|].
  simpl. apply wpe_bind. eapply wpe_mono; [apply Hbody; [left|done]| |done].
  intros a s' Hs'. apply IH; [|done]. intros y s'' ?. apply Hbody. by right.
Qed.
(** A loop with an invariant: it suffices that every turn keeps it and lowers
    a measure that the fuel bounds. *)
Lemma wpe_while (μ : S → nat) fuel (cond body : M S bool) (I : S → Prop) Q E s :
  (∀ s, I s → wpe cond (λ b s', if b : bool
     then wpe body (λ again s'', if again : bool then I s'' ∧ (μ s'' < μ s)%nat else Q tt s'') E s'
     else Q tt s') E s) →
  I s → (μ s < fuel)%nat → wpe (while_ fuel cond body) Q E s.
Proof.
  intros Hstep. revert s. induction fuel as [|fuel IH]; intros s Hs Hf; [lia|]. simpl.
  apply wpe_bind. eapply wpe_mono; [by apply Hstep| |done].
  intros b s' Hb. destruct b; [|done]. apply wpe_bind. eapply wpe_mono; [apply Hb| |done].
  intros again s'' Ha. destruct again; [|done]. apply IH; [apply Ha|lia].
Qed.
(** More fuel than needed changes nothing. *)
Lemma while_fuel_mono n m (cond body : M S bool) s :
  (n ≤ m)%nat → wpe (while_ n cond body) (λ _ _, True) (λ e _, e ≠ OutOfFuel) s →
  while_ m cond body s = while_ n cond body s.
Proof.
  revert m s. induction n as [|n IH]; intros m s Hm; [unfold wpe; simpl; done|].
  destruct m as [|m]; [lia|]. unfold wpe. simpl. unfold bind.
  destruct (cond s) as [[] s'|]; [|done..].
  destruct (body s') as [[] s''|]; [|done..]. intros H. apply IH; [lia|done].
Qed.
Lemma wpe_zoom {T A} (get : S → T) put (c : M T A) Q E s :
  wpe c (λ a t, Q a (put t s)) (λ e t, E e (put t s)) (get s) → wpe (zoom get put c) Q E s.
Proof. unfold wpe, zoom. by destruct (c (get s)). Qed.
Lemma for_each_app {A} (l1 l2 : list A) (body : A → M S unit) s :
  for_each (l1 ++ l2) body s = (for_each l1 body ;; for_each l2 body) s.
Proof.
  revert s. induction l1 as [|x l1 IH]; intros s; [done|]. simpl. unfold bind in *.
  destruct (body x s); [apply IH|done].
Qed.
End wpe_rules.

(** ** Resources

    [tame μ n c k]: from a state whose measure is below [n], the computation
    never runs out of fuel and, when it returns, has lowered the measure by at
    least [k].  The measure of interest is the number of answers the operating
    system has still to give. *)
Definition tame {S A} (μ : S → nat) (n : nat) (c : M S A) (k : nat) : Prop :=
  ∀ s, (μ s < n)%nat → wpe c (λ _ s', (μ s' + k ≤ μ s)%nat) (λ e _, e ≠ OutOfFuel) s.
(** A computation without loops that need fuel. *)
Definition calm {S A} (c : M S A) : Prop :=
  ∀ s, wpe c (λ _ _, True) (λ e _, e ≠ OutOfFuel) s.

Section tame_rules.
Context {S : Type} (μ : S → nat) (n : nat).

Lemma tame_ret {A} (a : A) : tame μ n (ret a) 0.
Proof. intros s _. apply wpe_ret. lia. Qed.
Lemma tame_gets {A} (f : S → A) : tame μ n (gets f) 0.
Proof. intros s _. apply wpe_gets. lia. Qed.
Lemma tame_modify f : (∀ s, μ (f s) = μ s) → tame μ n (modify f) 0.
Proof. intros H s _. apply wpe_modify. rewrite H. lia. Qed.
Lemma tame_stop {A} e : e ≠ OutOfFuel → tame (A:=A) μ n (stop e) 0.
Proof. intros H s _. by apply wpe_stop. Qed.
Lemma tame_weaken {A} (c : M S A) k k' : tame μ n c k → (k' ≤ k)%nat → tame μ n c k'.
Proof.
  intros H Hk s Hs. eapply wpe_mono; [by apply H| |done]. simpl. intros _ s' ?. lia.
Qed.
Lemma tame_bind {A B} (c : M S A) (f : A → M S B) k1 k2 k :
  tame μ n c k1 → (∀ a, tame μ n (f a) k2) → (k ≤ k1 + k2)%nat → tame μ n (bind c f) k.
Proof.
  intros Hc Hf Hk s Hs. apply wpe_bind. eapply wpe_mono; [by apply Hc| |done].
  simpl. intros a s' Hs'. eapply wpe_mono; [apply Hf; lia| |done]. simpl. intros b s'' ?. lia.
Qed.
Lemma tame_assert b what : tame μ n (assert_ b what) 0.
Proof. destruct b; [apply tame_ret|by apply tame_stop]. Qed.
Lemma tame_when (b : bool) c : tame μ n c 0 → tame μ n (when b c) 0.
Proof. destruct b; [done|]. intros _. apply tame_ret. Qed.
Lemma tame_for_each {A} (l : list A) body :
  (∀ x, tame μ n (body x) 0) → tame μ n (for_each l body) 0.
Proof.
  intros H. induction l; [apply tame_ret|]. simpl. eapply tame_bind; [apply H|done|lia].
Qed.
(** A loop is tame with the measure as fuel when every turn lowers it. *)
Lemma tame_while (c : M S bool) (body : M S bool) :
  tame μ n c 0 → tame μ n body 1 → tame μ n (while_ n c body) 0.
Proof.
  intros Hc Hb s Hs. apply (wpe_while μ _ _ _ (λ s', (μ s' ≤ μ s)%nat)); [|lia|lia].
  intros s' Hs'. eapply wpe_mono; [apply Hc; lia| |done]. simpl. intros [] s2 Hs2; [|lia].
  eapply wpe_mono; [apply Hb; lia| |done]. simpl. intros [] s3 Hs3; lia.
Qed.
Lemma tame_zoom {T A} (get : S → T) put (c : M T A) (ν : T → nat) k :
  (∀ s, μ s = ν (get s)) → (∀ t s, μ (put t s) = ν t) →
  tame ν n c k → tame μ n (zoom get put c) k.
Proof.
  intros Hget Hput Hc s Hs. apply wpe_zoom. eapply wpe_mono; [apply Hc; rewrite <-Hget; lia|..].
  - simpl. intros _ t. rewrite Hput, Hget. done.
  - done.
Qed.
Lemma tame_zoom_other {T A} (get : S → T) put (c : M T A) :
  (∀ t s, μ (put t s) = μ s) → calm c → tame μ n (zoom get put c) 0.
Proof.
  intros Hput Hc s Hs. apply wpe_zoom. eapply wpe_mono; [apply Hc|..].
  - simpl. intros _ t _. rewrite Hput. lia.
  - done.
Qed.

(** Two computations that agree wherever the measure is below both bounds. *)
Definition agree {A} (m : nat) (c1 c2 : M S A) : Prop :=
  ∀ s, (μ s < n)%nat → (μ s < m)%nat → c1 s = c2 s.
Lemma agree_refl {A} m (c : M S A) : agree m c c.
Proof. by intros s. Qed.
Lemma agree_bind {A B} m (c1 c2 : M S A) (f1 f2 : A → M S B) k :
  tame μ n c1 k → agree m c1 c2 → (∀ a, agree m (f1 a) (f2 a)) →
  agree m (bind c1 f1) (bind c2 f2).
Proof.
  intros Ht Hc Hf s Hn Hm. unfold bind. rewrite <-(Hc s Hn Hm).
  specialize (Ht s Hn). unfold wpe in Ht. destruct (c1 s); [|done]. apply Hf; lia.
Qed.
Lemma agree_while m (c : M S bool) b1 b2 :
  tame μ n c 0 → tame μ n b1 1 → agree m b1 b2 → agree m (while_ n c b1) (while_ m c b2).
Proof.
  intros Hc Hb Heq s Hn Hm.
  assert (∀ x y s, (μ s < x)%nat → (μ s < y)%nat → (x ≤ n)%nat → (y ≤ m)%nat →
    while_ x c b1 s = while_ y c b2 s) as H; [|by apply H].
  clear s Hn Hm. induction x as [|x IH]; intros y s Hx Hy Hxn Hym; [lia|].
  destruct y as [|y]; [lia|]. simpl. unfold bind. specialize (Hc s). unfold wpe in Hc.
  destruct (c s) as [[] s'|]; [|done..]. specialize (Hc ltac:(lia)).
  rewrite <-(Heq s') by lia. specialize (Hb s'). unfold wpe in Hb.
  destruct (b1 s') as [[] s''|]; [|done..]. specialize (Hb ltac:(lia)).
  apply IH; lia.
Qed.

Lemma calm_tame {A} (c : M S A) : (∀ m, tame (λ _, O) m c 0) → calm c.
Proof. intros H s. eapply wpe_mono; [apply (H 1%nat); lia|done|done]. Qed.
End tame_rules.

(** ** What a computation that returns has not changed *)

Definition keeps {S A} (R : S → S → Prop) (c : M S A) : Prop :=
  ∀ s, wlp c (λ _ s', R s s') s.

Section keeps_rules.
Context {S : Type} (R : S → S → Prop) `{!PreOrder R}.

Lemma keeps_ret {A} (a : A) : keeps R (ret a).
Proof. intros s. by apply wpe_ret. Qed.
Lemma keeps_gets {A} (f : S → A) : keeps R (gets f).
Proof. intros s. by apply wpe_gets. Qed.
Lemma keeps_stop {A} e : keeps (A:=A) R (stop e).
Proof. intros s. by apply wpe_stop. Qed.
Lemma keeps_modify f : (∀ s, R s (f s)) → keeps R (modify f).
Proof. intros H s. by apply wpe_modify. Qed.
Lemma keeps_bind {A B} (c : M S A) (f : A → M S B) :
  keeps R c → (∀ a, keeps R (f a)) → keeps R (bind c f).
Proof.
  intros Hc Hf s. apply wpe_bind. eapply wpe_mono; [apply Hc| |done]. simpl.
  intros a s' Hs'. eapply wpe_mono; [apply Hf| |done]. simpl. intros b s'' ?. by etrans.
Qed.
Lemma keeps_assert b what : keeps R (assert_ b what).
Proof. destruct b; [apply keeps_ret|apply keeps_stop]. Qed.
Lemma keeps_when (b : bool) c : keeps R c → keeps R (when b c).
Proof. destruct b; [done|]. intros _. apply keeps_ret. Qed.
Lemma keeps_for_each {A} (l : list A) body : (∀ x, keeps R (body x)) → keeps R (for_each l body).
Proof. intros H. induction l; [apply keeps_ret|]. simpl. by apply keeps_bind. Qed.
Lemma keeps_while n c body : keeps R c → keeps R body → keeps R (while_ n c body).
Proof.
  intros Hc Hb. induction n as [|n IH]; simpl; [apply keeps_stop|].
  apply keeps_bind; [done|]. intros []; [|apply keeps_ret].
  apply keeps_bind; [done|]. intros []; [done|apply keeps_ret].
Qed.
Lemma keeps_zoom {T A} (get : S → T) put (c : M T A) (R' : T → T → Prop) :
  (∀ s t, R' (get s) t → R s (put t s)) → keeps R' c → keeps R (zoom get put c).
Proof. intros HR Hc s. apply wpe_zoom. eapply wpe_mono; [apply Hc| |done]. simpl. eauto. Qed.
Lemma keeps_impl {A} (R' : S → S → Prop) (c : M S A) :
  (∀ s s', R' s s' → R s s') → keeps R' c → keeps R c.
Proof. intros HR Hc s. eapply wpe_mono; [apply Hc| |done]. simpl. eauto. Qed.
End keeps_rules.

(** ** Machine integers *)

Definition U64 : Z := 2 ^ 64.
Definition INT_MAX : Z := 2 ^ 31 - 1.

(** Wrap-around of [uint64_t] arithmetic. *)
Definition u64 (x : Z) : Z := x `mod` U64.

Lemma u64_range x : (0 ≤ u64 x < U64)%Z.
Proof. apply Z.mod_pos_bound. done. Qed.
Lemma u64_small x : (0 ≤ x < U64)%Z → u64 x = x.
Proof. apply Z.mod_small. Qed.
Lemma u64_idemp x : u64 (u64 x) = u64 x.
Proof. apply u64_small, u64_range. Qed.

Create HintDb u64 discriminated.
Create Rewrite HintDb u64.
#[export] Hint Rewrite u64_idemp : u64.
#[export] Hint Resolve u64_range u64_small : u64.

(** ** Fixed-size arrays indexed by a C integer

    An access outside the bounds is undefined behaviour in C++. *)

Definition arr_ref {A} (l : list A) (i : Z) : option A :=
  if (0 <=? i)%Z then l !! Z.to_nat i else None.
Definition arr_upd {A} (l : list A) (i : Z) (a : A) : list A :=
  <[Z.to_nat i := a]> l.

Definition load {S A} (f : S → list A) (i : Z) : M S A := λ s,
  match arr_ref (f s) i with
  | Some a => Ok a s
  | None => Abort (UndefinedBehaviour "array index out of bounds") s
  end.

Section arrays.
Context {A : Type}.
Implicit Types (l : list A) (i j : Z) (a : A).

Lemma arr_ref_Some l i : (0 ≤ i < Z.of_nat (length l))%Z → is_Some (arr_ref l i).
Proof.
  intros [??]. unfold arr_ref. rewrite (proj2 (Z.leb_le 0 i)) by done.
  apply lookup_lt_is_Some_2. lia.
Qed.
Lemma arr_ref_bounds l i a :
  arr_ref l i = Some a → (0 ≤ i < Z.of_nat (length l))%Z.
Proof.
  unfold arr_ref. destruct (Z.leb_spec 0 i); [|done].
  intros ?%lookup_lt_Some. lia.
Qed.
Lemma arr_upd_length l i a : length (arr_upd l i a) = length l.
Proof. apply length_insert. Qed.
Lemma arr_ref_upd l i j a b :
  arr_ref l i = Some b → (0 ≤ j)%Z →
  arr_ref (arr_upd l i a) j = if (i =? j)%Z then Some a else arr_ref l j.
Proof.
  intros Hi%arr_ref_bounds Hj. unfold arr_ref, arr_upd.
  rewrite (proj2 (Z.leb_le 0 j)) by done. destruct (Z.eqb_spec i j) as [->|].
  - rewrite list_lookup_insert_eq; [done|lia].
  - rewrite list_lookup_insert_ne; [done|lia].
Qed.
Lemma arr_ref_upd_eq l i a b :
  arr_ref l i = Some b → arr_ref (arr_upd l i a) i = Some a.
Proof.
  intros Hi. rewrite (arr_ref_upd _ _ _ _ b) by (done || apply arr_ref_bounds in Hi; lia).
  by rewrite Z.eqb_refl.
Qed.
Lemma arr_ref_upd_ne l i j a : i ≠ j → (0 ≤ i)%Z → arr_ref (arr_upd l i a) j = arr_ref l j.
Proof.
  intros Hne Hi. unfold arr_ref, arr_upd. destruct (Z.leb_spec 0 j); [|done].
  rewrite list_lookup_insert_ne; [done|lia].
Qed.
(** A predicate on all cells survives an update that satisfies it. *)
Lemma arr_upd_Forall (P : A → Prop) l i a : Forall P l → P a → Forall P (arr_upd l i a).
Proof. intros. by apply Forall_insert. Qed.
Lemma arr_ref_Forall (P : A → Prop) l i a : Forall P l → arr_ref l i = Some a → P a.
Proof.
  unfold arr_ref. destruct (0 <=? i)%Z; [|done]. intros Hl Hi.
  by eapply Forall_lookup_1.
Qed.
End arrays.

Lemma wpe_load {S A} (f : S → list A) i (Q : A → S → Prop) E s :
  (∀ a, arr_ref (f s) i = Some a → Q a s) →
  (arr_ref (f s) i = None → E (UndefinedBehaviour "array index out of bounds") s) →
  wpe (load f i) Q E s.
Proof. unfold wpe, load. destruct (arr_ref (f s) i); naive_solver. Qed.

Lemma keeps_load {S A} (R : S → S → Prop) `{!PreOrder R} (f : S → list A) i : keeps R (load f i).
Proof. intros s. by apply wpe_load. Qed.

(** ** Lists *)

Lemma filter_all {A} (P : A → Prop) `{!∀ a, Decision (P a)} (l : list A) : Forall P l → filter P l = l.
Proof. induction 1 as [|a l Ha _ IH]; [done|]. rewrite filter_cons_True by done. by rewrite IH. Qed.
Lemma filter_none {A} (P : A → Prop) `{!∀ a, Decision (P a)} (l : list A) : Forall (λ a, ¬ P a) l → filter P l = [].
Proof. induction 1 as [|a l Ha _ IH]; [done|]. by rewrite filter_cons_False by done. Qed.

(** ** Automation *)

(** Symbolic execution of a computation, one rule per construct. *)
Ltac wpe_step :=
  match goal with
  | |- wp _ _ _ => unfold wp
  | |- wlp _ _ _ => unfold wlp
  | |- wpe (ret _) _ _ _ => apply wpe_ret
  | |- wpe (bind _ _) _ _ _ => apply wpe_bind
  | |- wpe (gets _) _ _ _ => apply wpe_gets
  | |- wpe (modify _) _ _ _ => apply wpe_modify
  | |- wpe (stop _) _ _ _ => apply wpe_stop
  | |- wpe (assert_ _ _) _ _ _ => apply wpe_assert; intros ?
  | |- wpe (when _ _) _ _ _ => apply wpe_when; intros ?
  | |- wpe (if _ then _ else _) _ _ _ => apply wpe_if; intros ?
  | |- wpe (load _ _) _ _ _ => apply wpe_load; [intros ? ?|intros ?]
  | |- wpe (zoom _ _ _) _ _ _ => apply wpe_zoom
  end; cbn beta.
Ltac wpe_steps := repeat wpe_step.

(** Proves [tame _ _ c 0] along the structure of [c], unfolding definitions. *)
Ltac term_head t := match t with ?f _ => term_head f | _ => t end.
Create HintDb tame discriminated.
Ltac tame_step :=
  match goal with
  | |- tame _ _ (ret _) 0 => apply tame_ret
  | |- tame _ _ (gets _) 0 => apply tame_gets
  | |- tame _ _ (modify _) 0 => apply tame_modify; intros ?; reflexivity
  | |- tame _ _ (stop _) 0 => apply tame_stop; discriminate
  | |- tame _ _ (assert_ _ _) 0 => apply tame_assert
  | |- tame _ _ (when _ _) 0 => apply tame_when
  | |- tame _ _ (bind _ _) 0 =>
      apply (tame_bind _ _ _ _ 0 0 0); [|intros ?|apply Nat.le_refl]
  | |- tame _ _ (for_each _ _) 0 => apply tame_for_each; intros ?
  | |- tame (λ _, O) _ (zoom _ _ _) 0 =>
      apply (tame_zoom _ _ _ _ _ (λ _, O)); [intros ?; reflexivity|intros ? ?; reflexivity|]
  | |- tame _ _ (load _ _) 0 => intros ? ?; apply wpe_load; [intros; lia|discriminate]
  | |- tame _ _ (if ?b then _ else _) 0 => destruct b
  | |- tame _ _ (match ?x with _ => _ end) 0 => destruct x
  | |- tame _ _ _ 0 => solve [auto with tame nocore]
  | |- tame _ _ ?c 0 => let h := term_head c in progress unfold h
  end.
Ltac tame_steps := repeat tame_step.

(** Proves [keeps R c] along the structure of [c], up to what the assignments
    change and the components they are about. *)
Create HintDb keeps discriminated.
Ltac keeps_step :=
  match goal with
  | |- keeps _ (ret _) => apply keeps_ret; exact _
  | |- keeps _ (gets _) => apply keeps_gets; exact _
  | |- keeps _ (stop _) => apply keeps_stop
  | |- keeps _ (assert_ _ _) => apply keeps_assert; exact _
  | |- keeps _ (load _ _) => apply keeps_load; exact _
  | |- keeps _ (when false _) => apply keeps_ret; exact _
  | |- keeps _ (when _ _) => apply keeps_when; [exact _|]
  | |- keeps _ (bind _ _) => apply keeps_bind; [exact _| |intros ?]
  | |- keeps _ (for_each _ _) => apply keeps_for_each; [exact _|intros ?]
  | |- keeps _ (while_ _ _ _) => apply keeps_while; [exact _| |]
  | |- keeps _ (if ?b then _ else _) => destruct b
  | |- keeps _ (match ?x with _ => _ end) => destruct x
  | |- keeps _ _ => solve [auto with keeps nocore]
  | |- keeps _ ?c => let h := term_head c in progress unfold h
  end.
Ltac keeps_steps := repeat keeps_step.
