(* ===== verification/Os.v ===== *)
(** * The operating system as the tool sees it

    The tool talks to pipes, processes and the clock.  A run is determined by
    what the system calls return, so the model consumes a list of answers and
    records the calls it made; when the answers run out, the process waits. *)
From stdpp Require Import base list strings gmap.
From S2P Require Import Prelude.
Open Scope Z_scope.

Inductive call :=
  | CRemove (path : string)
  | CMkfifo (path : string) (mode : Z)
  | COpen (path : string) (writable : bool)
  | CClose (fd : Z)
  | CRead (fd count : Z)
  | CWrite (fd : Z) (message : string) (len : Z)
  | CFork
  | CExec (argv env : list string)
  | CSystem (command : string)
  | CKill (pid signal : Z)
  | CWaitpid (pid : Z)
  | CTime
  | CRand
  (** Calls of the Pin tool: raw writes, C streams, and Pin's own services. *)
  | CWriteBytes (fd : Z) (data : list Z)
  | CFopen (path mode : string)
  | CFprintf (text : string)
  | CFscanf
  | CFclose
  | CStopThreads (tid : Z)
  | CResumeThreads (tid : Z).

#[export] Instance call_eq_dec : EqDecision call.
Proof. solve_decision. Defined.

(** The integer a call returns and the bytes it delivers ([read]). *)
Record answer := Answer { ans_ret : Z; ans_data : list Z }.
Definition int_answer (n : Z) : answer := Answer n [].
Definition data_answer (l : list Z) : answer := Answer (Z.of_nat (length l)) l.

Record os := Os { answers : list answer; calls : list call }.

Definition sys (c : call) : M os answer := λ s,
  match answers s with
  | [] => Abort Blocked (Os [] (calls s ++ [c]))
  | a :: l => Ok a (Os l (calls s ++ [c]))
  end.
(** A call whose result the program ignores. *)
Definition emit (c : call) : M os unit := modify (λ s, Os (answers s) (calls s ++ [c])).

Definition sys_int (c : call) : M os Z := let! a := sys c in ret (ans_ret a).

(** ** Rules *)

Lemma wpe_sys c (Q : answer → os → Prop) E s :
  (∀ a l, answers s = a :: l → Q a (Os l (calls s ++ [c]))) →
  (answers s = [] → E Blocked (Os [] (calls s ++ [c]))) → wpe (sys c) Q E s.
Proof. unfold wpe, sys. destruct (answers s); naive_solver. Qed.
Lemma wpe_emit c (Q : unit → os → Prop) E s :
  Q tt (Os (answers s) (calls s ++ [c])) → wpe (emit c) Q E s.
Proof. done. Qed.
Lemma wpe_sys_int c (Q : Z → os → Prop) E s :
  (∀ a l, answers s = a :: l → Q (ans_ret a) (Os l (calls s ++ [c]))) →
  (answers s = [] → E Blocked (Os [] (calls s ++ [c]))) → wpe (sys_int c) Q E s.
Proof. intros HQ HE. apply wpe_bind, wpe_sys; [|done]. intros a l Ha. by apply wpe_ret, HQ. Qed.
