(* ===== verification/Strings.v ===== *)
(** * Strings as the tool's C++ uses them

    [std::string::find], [std::regex_replace] with a literal pattern, [atoi],
    [strncmp], the splitting and joining of command lines
    ([src/xfdetector/include/common.hh]), with the lemmas on splitting that the
    command lines of [ExecCtrl] and the file names of [Frontend] need. *)
From Stdlib Require Import Ascii.
From stdpp Require Import base list strings gmap pretty.
From S2P Require Import Prelude.
Open Scope Z_scope.

(** [s] without its prefix [p]. *)
Fixpoint strip_prefix (p s : string) : option string :=
  match p, s with
  | EmptyString, _ => Some s
  | String a p', String b s' => if decide (a = b) then strip_prefix p' s' else None
  | String _ _, EmptyString => None
  end.

(** [s.find(pat) != string::npos] *)
Fixpoint contains (pat s : string) : bool :=
  match strip_prefix pat s with
  | Some _ => true
  | None => match s with EmptyString => false | String _ s' => contains pat s' end
  end.

(** [strncmp(a, b, n) == 0], on strings without a null byte. *)
Fixpoint strncmp_eq (n : nat) (a b : string) : bool :=
  match n, a, b with
  | O, _, _ => true
  | S n', String x a', String y b' => bool_decide (x = y) && strncmp_eq n' a' b'
  | S _, EmptyString, EmptyString => true
  | S _, _, _ => false
  end.

(** [s + n] on a [char *]. *)
Fixpoint str_drop (n : nat) (s : string) : string :=
  match n, s with
  | S n', String _ s' => str_drop n' s'
  | _, _ => s
  end.

(** ** [std::regex_replace] for a pattern that is matched literally *)

Definition is_digit (c : Ascii.ascii) : bool :=
  let n := Ascii.nat_of_ascii c in (48 <=? Z.of_nat n) && (Z.of_nat n <=? 57).
Definition digit_value (c : Ascii.ascii) : Z := Z.of_nat (Ascii.nat_of_ascii c) - 48.

(** The replacement: a dollar sign introduces [$$], [$&] (the match), [$`] (what
    precedes it), [$'] (what follows it) and [$n], [$nn] (a submatch, of which
    only number 0, the match, exists). *)
Fixpoint expand (fmt matched pre suf : string) : string :=
  match fmt with
  | EmptyString => EmptyString
  | String "$" (String c rest) =>
      if decide (c = "$"%char) then String "$" (expand rest matched pre suf)
      else if decide (c = "&"%char) then matched +:+ expand rest matched pre suf
      else if decide (c = "`"%char) then pre +:+ expand rest matched pre suf
      else if decide (c = "'"%char) then suf +:+ expand rest matched pre suf
      else if is_digit c then
        match rest with
        | String c2 rest2 =>
            if is_digit c2
            then (if digit_value c * 10 + digit_value c2 =? 0 then matched else EmptyString)
                   +:+ expand rest2 matched pre suf
            else (if digit_value c =? 0 then matched else EmptyString)
                   +:+ expand rest matched pre suf
        | EmptyString => if digit_value c =? 0 then matched else EmptyString
        end
      else String "$" (String c (expand rest matched pre suf))
  | String c rest => String c (expand rest matched pre suf)
  end.

(** The matches from left to right, none overlapping the previous one; [skip]
    characters of the last match are still to be passed over, [pre] is the text
    since then, in reverse. *)
Fixpoint replace_from (pat fmt : string) (skip : nat) (pre s : string) : string :=
  match s with
  | EmptyString => EmptyString
  | String c s' =>
      match skip with
      | S skip' => replace_from pat fmt skip' pre s'
      | O =>
          match strip_prefix pat s with
          | Some suf => expand fmt pat (String.rev pre) suf
                          +:+ replace_from pat fmt (String.length pat - 1) EmptyString s'
          | None => String c (replace_from pat fmt O (String c pre) s')
          end
      end
  end.
Definition regex_replace (s pat fmt : string) : string := replace_from pat fmt O EmptyString s.

(** ** [atoi] *)

Definition is_space (c : Ascii.ascii) : bool :=
  let n := Z.of_nat (Ascii.nat_of_ascii c) in ((9 <=? n) && (n <=? 13)) || (n =? 32).
Fixpoint skip_spaces (s : string) : string :=
  match s with
  | String c s' => if is_space c then skip_spaces s' else s
  | EmptyString => EmptyString
  end.
Fixpoint digits (acc : Z) (s : string) : Z :=
  match s with
  | String c s' => if is_digit c then digits (acc * 10 + digit_value c) s' else acc
  | EmptyString => acc
  end.
Definition atoi (s : string) : Z :=
  match skip_spaces s with
  | String "-" s' => - digits 0 s'
  | String "+" s' => digits 0 s'
  | s' => digits 0 s'
  end.

(** ** Command lines ([common.hh]) *)

(** [alloc_print(s)] without further arguments: [s] is the format of a
    [vsprintf] into 1024 bytes.  [None] when that is undefined: a conversion
    without an argument, or a result that does not fit. *)
Fixpoint printf_plain (s : string) : option string :=
  match s with
  | EmptyString => Some EmptyString
  | String "%" (String "%" s') => String "%" <$> printf_plain s'
  | String "%" _ => None
  | String c s' => String c <$> printf_plain s'
  end.
Definition alloc_print (s : string) : option string :=
  out ← printf_plain s;
  if (String.length out <? 1024)%nat then Some out else None.

(** [str2cmd]: [tmp] is the current word; the words go into an array of 1024
    pointers that a null pointer ends. *)
Fixpoint split_words (tmp s : string) : list string :=
  match s with
  | EmptyString => [tmp]
  | String c s' =>
      if decide (c = " "%char) then tmp :: split_words EmptyString s'
      else split_words (tmp +:+ String c EmptyString) s'
  end.
Definition str2cmd (s : string) : option (list string) :=
  let words := split_words EmptyString s in
  if (1024 <=? length words)%nat then None else mapM alloc_print words.

Definition cmd2str (cmd : list string) : string :=
  foldr (λ w out, w +:+ " " +:+ out) EmptyString cmd.

(** [string(s.begin(), s.end()-1)]: without the last character, which an empty
    string does not have. *)
Fixpoint str_init (s : string) : option string :=
  match s with
  | EmptyString => None
  | String c EmptyString => Some EmptyString
  | String c s' => String c <$> str_init s'
  end.

(** Words joined by single spaces. *)
Fixpoint join_words (l : list string) : string :=
  match l with
  | [] => EmptyString
  | [w] => w
  | w :: l' => w +:+ " " +:+ join_words l'
  end.

(** ** Lemmas *)

Lemma str_app_cons c (s t : string) : String c s +:+ t = String c (s +:+ t).
Proof. done. Qed.
Lemma str_app_nil_l (s : string) : EmptyString +:+ s = s.
Proof. done. Qed.
Lemma str_app_assoc (s1 s2 s3 : string) : s1 +:+ (s2 +:+ s3) = (s1 +:+ s2) +:+ s3.
Proof.
  induction s1 as [|c s1 IH]; [done|]. by rewrite !str_app_cons, IH.
Qed.
Lemma str_app_nil_r (s : string) : s +:+ EmptyString = s.
Proof. induction s as [|c s IH]; [done|]. by rewrite str_app_cons, IH. Qed.

(** Characters of a string. *)
Fixpoint str_forall (p : ascii → bool) (s : string) : bool :=
  match s with EmptyString => true | String c s' => p c && str_forall p s' end.
Lemma str_forall_app p s t : str_forall p (s +:+ t) = str_forall p s && str_forall p t.
Proof.
  induction s as [|c s IH]; [done|]. rewrite str_app_cons. simpl. rewrite IH.
  by rewrite andb_assoc.
Qed.

(** A word [str2cmd] hands on unchanged: no space to cut it, no conversion for
    [vsprintf] to interpret, and short enough for the buffer. *)
Definition word_char (c : ascii) : bool :=
  negb (bool_decide (c = " "%char)) && negb (bool_decide (c = "%"%char)).
Definition word_ok (w : string) : bool :=
  str_forall word_char w && (String.length w <? 1024)%nat.

Lemma printf_plain_word s : str_forall word_char s = true → printf_plain s = Some s.
Proof.
  induction s as [|c s IH]; [done|]. simpl. unfold word_char at 1.
  rewrite !andb_true_iff, !negb_true_iff, !bool_decide_eq_false. intros [[_ Hc] Hs].
  rewrite IH by done. destruct c as [[] [] [] [] [] [] [] []]; done || by destruct Hc.
Qed.
Lemma alloc_print_word w : word_ok w = true → alloc_print w = Some w.
Proof.
  unfold word_ok, alloc_print. rewrite andb_true_iff. intros [Hw Hl].
  rewrite printf_plain_word by done. simpl. by rewrite Hl.
Qed.

Lemma split_words_word tmp w s :
  str_forall word_char w = true →
  split_words tmp (w +:+ String " " s) = (tmp +:+ w) :: split_words EmptyString s.
Proof.
  revert tmp. induction w as [|c w IH]; intros tmp Hw; [by rewrite str_app_nil_r|].
  simpl in Hw. apply andb_true_iff in Hw as [Hc Hw]. rewrite str_app_cons. simpl.
  rewrite decide_False.
  - rewrite IH by done. by rewrite <-str_app_assoc.
  - intros ->. done.
Qed.
Lemma split_words_last tmp w :
  str_forall word_char w = true → split_words tmp w = [tmp +:+ w].
Proof.
  revert tmp. induction w as [|c w IH]; intros tmp Hw; [by rewrite str_app_nil_r|].
  simpl in *. apply andb_true_iff in Hw as [Hc Hw]. rewrite decide_False.
  - rewrite IH by done. by rewrite <-str_app_assoc.
  - intros ->. done.
Qed.
Lemma split_join l :
  l ≠ [] → Forall (λ w, str_forall word_char w = true) l →
  split_words EmptyString (join_words l) = l.
Proof.
  induction l as [|w l IH]; intros Hne Hl; [done|]. apply Forall_cons in Hl as [Hw Hl].
  destruct l as [|w2 l]; [by apply split_words_last|].
  change (join_words (w :: w2 :: l)) with (w +:+ String " " (join_words (w2 :: l))).
  rewrite split_words_word by done. by rewrite IH.
Qed.
(** Words that were joined are found again. *)
Lemma str2cmd_join l :
  l ≠ [] → (length l < 1024)%nat → Forall (λ w, word_ok w = true) l →
  str2cmd (join_words l) = Some l.
Proof.
  intros Hne Hlen Hl. unfold str2cmd. rewrite split_join; [|done|].
  - destruct (Nat.leb_spec 1024 (length l)); [lia|].
    clear Hne Hlen. induction Hl as [|w l Hw _ IH]; [done|]. simpl in *.
    rewrite alloc_print_word by done. simpl. rewrite IH by lia. done.
  - eapply Forall_impl; [done|]. intros w Hw. by apply andb_true_iff in Hw as [? _].
Qed.
Lemma join_words_app l1 l2 :
  l1 ≠ [] → l2 ≠ [] →
  join_words (l1 ++ l2) = join_words l1 +:+ String " " (join_words l2).
Proof.
  intros H1 H2. induction l1 as [|w l1 IH]; [done|]. destruct l1 as [|w' l1].
  - destruct l2; [done|]. done.
  - change (join_words ((w :: w' :: l1) ++ l2))
      with (w +:+ String " " (join_words ((w' :: l1) ++ l2))).
    rewrite IH by done.
    change (join_words (w :: w' :: l1)) with (w +:+ String " " (join_words (w' :: l1))).
    by rewrite <-str_app_assoc, str_app_cons.
Qed.

Lemma str_init_snoc s c : str_init (s +:+ String c EmptyString) = Some s.
Proof.
  induction s as [|d s IH]; [done|]. rewrite str_app_cons.
  destruct s as [|e s]; [done|]. rewrite str_app_cons in *. simpl in *. by rewrite IH.
Qed.
Lemma cmd2str_join l : l ≠ [] → cmd2str l = join_words l +:+ " ".
Proof.
  induction l as [|w l IH]; [done|]. intros _. destruct l as [|w2 l].
  - simpl. by rewrite str_app_nil_r.
  - change (cmd2str (w :: w2 :: l)) with (w +:+ " " +:+ cmd2str (w2 :: l)).
    rewrite IH by done.
    change (join_words (w :: w2 :: l)) with (w +:+ " " +:+ join_words (w2 :: l)).
    by rewrite !str_app_assoc.
Qed.
(** The parameters with a space after each, without the last space. *)
Lemma str_init_cmd2str l :
  str_init (cmd2str l) = match l with [] => None | _ => Some (join_words l) end.
Proof. destruct l; [done|]. by rewrite cmd2str_join, str_init_snoc. Qed.

(** [contains] finds the pattern wherever it is. *)
Lemma strip_prefix_app p s : strip_prefix p (p +:+ s) = Some s.
Proof.
  induction p as [|c p IH]; [done|]. rewrite str_app_cons. simpl. by rewrite decide_True.
Qed.
Lemma strip_prefix_Some p s t : strip_prefix p s = Some t → s = p +:+ t.
Proof.
  revert s. induction p as [|c p IH]; intros s; simpl; [by intros [= ->]|].
  destruct s as [|b s]; [done|]. case_decide as Hc; [|done]. intros Ht%IH. by subst.
Qed.
(** A comparison over the length of a prefix of one string looks for it in the
    other. *)
Lemma strncmp_eq_prefix p a s :
  strncmp_eq (String.length p) (p +:+ a) s
  = match strip_prefix p s with Some _ => true | None => false end.
Proof.
  revert s. induction p as [|c p IH]; intros s; [done|]. rewrite str_app_cons.
  destruct s as [|b s]; [done|]. simpl. rewrite IH.
  case_decide as Hc; [by rewrite bool_decide_true|by rewrite bool_decide_false].
Qed.
Lemma contains_spec pat s : contains pat s = true ↔ ∃ a b, s = a +:+ pat +:+ b.
Proof.
  induction s as [|c s IH]; split.
  - simpl. destruct (strip_prefix pat "") eqn:E; [|done]. intros _.
    apply strip_prefix_Some in E. by exists EmptyString, s.
  - intros (a&b&H). destruct a; [|done]. destruct pat as [|d pat]; [done|].
    rewrite str_app_nil_l, str_app_cons in H. done.
  - simpl. destruct (strip_prefix pat (String c s)) eqn:E.
    + intros _. apply strip_prefix_Some in E. by exists EmptyString, s0.
    + intros (a&b&->)%IH. by exists (String c a), b.
  - intros (a&b&H). destruct a as [|c' a].
    + rewrite str_app_nil_l in H. destruct pat as [|d pat]; [done|].
      rewrite str_app_cons in H. injection H as -> ->. simpl. rewrite decide_True by done. by rewrite strip_prefix_app.
    + rewrite str_app_cons in H. injection H as -> ->. simpl.
      case_match; [done|]. apply IH. eauto.
Qed.

(** The decimal notation of a number is read back. *)
Lemma digits_pretty_N_char acc n s :
  (n < 10)%N → digits acc (String (pretty_N_char n) s) = digits (acc * 10 + Z.of_N n) s.
Proof.
  intros Hn. assert (n ∈ [0; 1; 2; 3; 4; 5; 6; 7; 8; 9]%N) as Hin.
  { rewrite !elem_of_cons. lia. }
  rewrite !elem_of_cons in Hin. destruct_or! Hin; subst; try done. by apply not_elem_of_nil in Hin.
Qed.
Lemma digits_pretty_N_go x s : digits 0 (pretty_N_go x s) = digits (Z.of_N x) s.
Proof.
  revert s. induction (N.lt_wf_0 x) as [x _ IH]; intros s.
  destruct (decide (0 < x)%N) as [Hx|].
  - rewrite pretty_N_go_step by done. rewrite IH by (apply N.div_lt; lia).
    rewrite digits_pretty_N_char by (apply N.mod_lt; lia).
    f_equal. pose proof (N.div_mod x 10). lia.
  - replace x with 0%N by lia. by rewrite pretty_N_go_0.
Qed.
Lemma is_digit_pretty_N_char n : (n < 10)%N → is_digit (pretty_N_char n) = true.
Proof.
  intros Hn. assert (n ∈ [0; 1; 2; 3; 4; 5; 6; 7; 8; 9]%N) as Hin.
  { rewrite !elem_of_cons. lia. }
  rewrite !elem_of_cons in Hin. destruct_or! Hin; subst; try done. by apply not_elem_of_nil in Hin.
Qed.
Lemma pretty_N_go_digits x s :
  str_forall is_digit s = true → str_forall is_digit (pretty_N_go x s) = true.
Proof.
  revert s. induction (N.lt_wf_0 x) as [x _ IH]; intros s Hs.
  destruct (decide (0 < x)%N) as [Hx|].
  - rewrite pretty_N_go_step by done. apply IH; [apply N.div_lt; lia|]. simpl.
    rewrite is_digit_pretty_N_char by (apply N.mod_lt; lia). done.
  - replace x with 0%N by lia. by rewrite pretty_N_go_0.
Qed.
Lemma atoi_digits s : str_forall is_digit s = true → atoi s = digits 0 s.
Proof.
  destruct s as [|c s]; [done|]. simpl. rewrite andb_true_iff. intros [Hc _].
  unfold atoi. simpl. assert (is_space c = false) as ->.
  { unfold is_digit, is_space in *. lia. }
  destruct c as [[] [] [] [] [] [] [] []]; done.
Qed.
(** [to_string] of a non-negative number, in digits. *)
Lemma pretty_Z_digits n : 0 ≤ n → str_forall is_digit (pretty n) = true.
Proof.
  intros Hn. destruct n as [|p|p]; [done| |lia]. change (pretty (Zpos p)) with (pretty_N_go (Npos p) "").
  by apply pretty_N_go_digits.
Qed.
Lemma atoi_pretty n : 0 ≤ n → atoi (pretty n) = n.
Proof.
  intros Hn. rewrite atoi_digits by (by apply pretty_Z_digits).
  destruct n as [|p|p]; [done| |lia]. change (pretty (Zpos p)) with (pretty_N_go (Npos p) "").
  by rewrite digits_pretty_N_go.
Qed.
(** Digits are no obstacle to [str2cmd]. *)
Lemma str_forall_impl (p q : ascii → bool) s :
  (∀ c, p c = true → q c = true) → str_forall p s = true → str_forall q s = true.
Proof.
  intros Hpq. induction s as [|c s IH]; [done|]. simpl. rewrite !andb_true_iff. naive_solver.
Qed.
Lemma is_digit_word_char c : is_digit c = true → word_char c = true.
Proof. destruct c as [[] [] [] [] [] [] [] []]; done. Qed.

(** A number below [10 ^ k] has at most [k] digits, and one at least. *)
Lemma pretty_N_go_length k x s :
  (x < 10 ^ N.of_nat k)%N → (String.length (pretty_N_go x s) ≤ k + String.length s)%nat.
Proof.
  revert x s. induction k as [|k IH]; intros x s Hx.
  - simpl in Hx. replace x with 0%N by lia. by rewrite pretty_N_go_0.
  - destruct (decide (0 < x)%N) as [Hpos|].
    + rewrite pretty_N_go_step by done. etrans; [apply IH|simpl; lia].
      apply N.Div0.div_lt_upper_bound. by rewrite Nat2N.inj_succ, N.pow_succ_r' in Hx.
    + replace x with 0%N by lia. rewrite pretty_N_go_0. lia.
Qed.
Lemma pretty_Z_length k n :
  (0 < k)%nat → 0 ≤ n < 10 ^ Z.of_nat k → (String.length (pretty n) ≤ k)%nat.
Proof.
  intros Hk [Hn Hlt]. destruct n as [|q|q]; [simpl; lia| |lia].
  change (pretty (Zpos q)) with (pretty_N_go (Npos q) "").
  pose proof (pretty_N_go_length k (Npos q) "") as H. simpl String.length in H.
  assert (N.pos q < 10 ^ N.of_nat k)%N as Hq; [|specialize (H Hq); lia].
  apply N2Z.inj_lt. rewrite N2Z.inj_pow, nat_N_Z. exact Hlt.
Qed.
Lemma pretty_word n : 0 ≤ n → str_forall word_char (pretty n) = true.
Proof.
  intros Hn. eapply str_forall_impl; [apply is_digit_word_char|by apply pretty_Z_digits].
Qed.
Lemma pretty_word_ok n : 0 ≤ n < 10 ^ 1000 → word_ok (pretty n) = true.
Proof.
  intros Hn. unfold word_ok. rewrite pretty_word by lia. apply Nat.ltb_lt.
  pose proof (pretty_Z_length 1000 n). simpl. lia.
Qed.
Lemma word_ok_app a b :
  str_forall word_char a = true → str_forall word_char b = true →
  (String.length a + String.length b < 1024)%nat → word_ok (a +:+ b) = true.
Proof.
  intros Ha Hb Hl. unfold word_ok. rewrite str_forall_app, Ha, Hb, andb_true_iff. split; [done|].
  apply Nat.ltb_lt. assert (String.length (a +:+ b) = String.length a + String.length b)%nat as ->;
    [|done].
  clear. induction a as [|c a IH]; [done|]. rewrite str_app_cons. simpl. by rewrite IH.
Qed.
