(* ===== verification/Trace.v ===== *)
(** * The trace entries exchanged between the Pin tool and the detector

    [src/xfdetector/include/common.hh] and [src/xfdetector/include/trace.hh]:
    the address range of persistent memory, the stages, the operation codes
    and the record that travels through the FIFOs. *)
From stdpp Require Import base list strings gmap.
From S2P Require Import Prelude.
Open Scope Z_scope.

(** ** Constants of [common.hh] *)

Definition PM_ADDR_BASE : Z := 0x10000000000.
Definition PM_ADDR_SIZE : Z := 0x10000000000.
Definition COMPLETE : bool := true.
Definition INCOMPLETE : bool := false.
Definition PRE_FAILURE : Z := 1.
Definition POST_FAILURE : Z := 2.
Definition MAX_THREADS : nat := 32.

(** The macro [isPmemAddr]: the sum is a [uint64_t] and may wrap. *)
Definition isPmemAddr (addr size : Z) : bool :=
  (u64 (addr + size) <? PM_ADDR_BASE + PM_ADDR_SIZE) && (PM_ADDR_BASE <=? addr).

(** ** Operations *)

(** [enum pm_op_t].  An object of the enumeration read from a pipe can hold any
    other integer too: [PM_OP_OTHER]. *)
Inductive pm_op_t :=
  | INVALID
  | TRACE_BEGIN | TRACE_END | TESTING_END
  | READ | WRITE | CLWB | SFENCE
  | PMEM_MAP_FILE | PMEM_UNMAP
  | PM_TRACE_PM_ADDR_ADD | PM_TRACE_PM_ADDR_REMOVE
  | PM_TRACE_TX_BEGIN | PM_TRACE_TX_END
  | PM_TRACE_TX_ADDR_ADD | PM_TRACE_TX_ALLOC
  | PMDK_INTERNAL_CALL | PMDK_INTERNAL_RET
  | ADD_COMMIT_VAR
  | PM_TRACE_DETECTION_SKIP_BEGIN | PM_TRACE_DETECTION_SKIP_END
  | PM_OP_OTHER (n : Z).

#[export] Instance pm_op_t_eq_dec : EqDecision pm_op_t.
Proof. solve_decision. Defined.

(** The enumerators in the order of their declaration, hence of their values. *)
Definition pm_op_enum : list pm_op_t :=
  [ INVALID; TRACE_BEGIN; TRACE_END; TESTING_END; READ; WRITE; CLWB; SFENCE;
    PMEM_MAP_FILE; PMEM_UNMAP; PM_TRACE_PM_ADDR_ADD; PM_TRACE_PM_ADDR_REMOVE;
    PM_TRACE_TX_BEGIN; PM_TRACE_TX_END; PM_TRACE_TX_ADDR_ADD; PM_TRACE_TX_ALLOC;
    PMDK_INTERNAL_CALL; PMDK_INTERNAL_RET; ADD_COMMIT_VAR;
    PM_TRACE_DETECTION_SKIP_BEGIN; PM_TRACE_DETECTION_SKIP_END ].

Definition pm_op_value (op : pm_op_t) : Z :=
  match op with
  | INVALID => 0 | TRACE_BEGIN => 1 | TRACE_END => 2 | TESTING_END => 3
  | READ => 4 | WRITE => 5 | CLWB => 6 | SFENCE => 7
  | PMEM_MAP_FILE => 8 | PMEM_UNMAP => 9
  | PM_TRACE_PM_ADDR_ADD => 10 | PM_TRACE_PM_ADDR_REMOVE => 11
  | PM_TRACE_TX_BEGIN => 12 | PM_TRACE_TX_END => 13
  | PM_TRACE_TX_ADDR_ADD => 14 | PM_TRACE_TX_ALLOC => 15
  | PMDK_INTERNAL_CALL => 16 | PMDK_INTERNAL_RET => 17
  | ADD_COMMIT_VAR => 18
  | PM_TRACE_DETECTION_SKIP_BEGIN => 19 | PM_TRACE_DETECTION_SKIP_END => 20
  | PM_OP_OTHER n => n
  end.

Definition pm_op_of_value (n : Z) : pm_op_t :=
  default (PM_OP_OTHER n) (arr_ref pm_op_enum n).

(** ** Trace entries *)

(** [struct trace_entry_t]; [addr_t] and [size_t] are 64-bit unsigned. *)
Record trace_entry_t := TraceEntry {
  operation : pm_op_t;
  func_ret : bool;
  tid : Z;
  src_addr : Z;
  dst_addr : Z;
  size : Z;
  instr_ptr : Z;
  non_temporal : Z;
}.

#[export] Instance trace_entry_t_eq_dec : EqDecision trace_entry_t.
Proof. solve_decision. Defined.

(** ** Names of the operations for print-out ([xfdetector.hh]) *)

Definition pm_op_name : list string :=
  [ "invalid"; "trace_begin"; "trace_end"; "testing_end";
    "read"; "write"; "clwb"; "sfence";
    "pmem_map_file"; "pmem_unmap";
    "pm_trace_pm_addr_add"; "pm_trace_pm_addr_remove";
    "pm_trace_tx_begin"; "pm_trace_tx_end"; "pm_trace_tx_addr_add";
    "pmdk_internal_call"; "pmdk_internal_ret";
    "_add_commit_var"; "_skipDetectionBegin"; "_skipDetectionEnd" ]%string.

(** ** Lemmas *)

Definition is_addr (a : Z) : Prop := 0 ≤ a < U64.

(** The range of an access [\[addr, addr + size)] lies in the PM window and does
    not end on its last byte, unless the sum wraps. *)
Lemma isPmemAddr_spec addr size :
  is_addr addr → 0 ≤ size → addr + size < U64 →
  isPmemAddr addr size = true ↔
  PM_ADDR_BASE ≤ addr ∧ addr + size < PM_ADDR_BASE + PM_ADDR_SIZE.
Proof.
  unfold is_addr, isPmemAddr. intros. rewrite u64_small by lia.
  rewrite andb_true_iff, Z.ltb_lt, Z.leb_le. lia.
Qed.

Lemma pm_op_of_value_inv op :
  (∀ n, op ≠ PM_OP_OTHER n) → pm_op_of_value (pm_op_value op) = op.
Proof. destruct op; try done. by intros []%(λ H, H n). Qed.
