(* ===== verification/Wire.v ===== *)
(** * Trace entries in a FIFO

    The Pin tool writes [struct trace_entry_t] objects to a FIFO and the detector
    reads them back into a buffer of such objects: their layout in memory on
    x86-64 (little endian, natural alignment), 56 bytes an entry of which 11 are
    padding. *)
From stdpp Require Import base list strings gmap.
From S2P Require Import Prelude Trace.
Open Scope Z_scope.

(** ** Little-endian integers *)

Fixpoint le_encode (n : nat) (x : Z) : list Z :=
  match n with O => [] | S n' => x `mod` 256 :: le_encode n' (x `div` 256) end.
Fixpoint le_decode (l : list Z) : Z :=
  match l with [] => 0 | b :: l' => b + 256 * le_decode l' end.

(** An [int] as its two's complement in 32 bits. *)
Definition int_encode (x : Z) : list Z := le_encode 4 (x `mod` 2 ^ 32).
Definition int_decode (l : list Z) : Z :=
  let x := le_decode l in if x <? 2 ^ 31 then x else x - 2 ^ 32.

(** ** Entries *)

Definition entry_size : nat := 56.   (** [sizeof(trace_entry_t)] *)
Definition BUF_ENTRIES : nat := 1024.
Definition PIN_FIFO_BUF_SIZE : nat := BUF_ENTRIES * entry_size.

(** [pad1] are the bytes between [func_ret] and [tid], [pad2] those between [tid]
    and [src_addr], [pad3] those after [non_temporal]: whatever the writer's
    memory held. *)
Definition encode_entry (pad1 pad2 pad3 : list Z) (op : trace_entry_t) : list Z :=
  int_encode (pm_op_value (operation op)) ++ [if func_ret op then 1 else 0] ++ pad1 ++
  int_encode (tid op) ++ pad2 ++ le_encode 8 (src_addr op) ++ le_encode 8 (dst_addr op) ++
  le_encode 8 (size op) ++ le_encode 8 (instr_ptr op) ++
  int_encode (non_temporal op) ++ pad3.

Definition slice (from len : nat) (l : list Z) : list Z := take len (drop from l).

Definition decode_entry (l : list Z) : trace_entry_t := TraceEntry
  (pm_op_of_value (int_decode (slice 0 4 l)))
  (negb (le_decode (slice 4 1 l) =? 0))
  (int_decode (slice 8 4 l))
  (le_decode (slice 16 8 l)) (le_decode (slice 24 8 l))
  (le_decode (slice 32 8 l)) (le_decode (slice 40 8 l))
  (int_decode (slice 48 4 l)).

(** The integers of an entry are in the range of their C types. *)
Definition is_int (x : Z) : Prop := - 2 ^ 31 ≤ x < 2 ^ 31.
Definition entry_wf (op : trace_entry_t) : Prop :=
  pm_op_of_value (pm_op_value (operation op)) = operation op ∧
  is_int (pm_op_value (operation op)) ∧ is_int (tid op) ∧ is_int (non_temporal op) ∧
  is_addr (src_addr op) ∧ is_addr (dst_addr op) ∧ is_addr (size op) ∧ is_addr (instr_ptr op).

Definition is_intb (x : Z) : bool := (- 2 ^ 31 <=? x) && (x <? 2 ^ 31).
Definition is_addrb (x : Z) : bool := (0 <=? x) && (x <? U64).
Definition entry_wfb (op : trace_entry_t) : bool :=
  bool_decide (pm_op_of_value (pm_op_value (operation op)) = operation op) &&
  is_intb (pm_op_value (operation op)) && is_intb (tid op) && is_intb (non_temporal op) &&
  is_addrb (src_addr op) && is_addrb (dst_addr op) && is_addrb (size op) &&
  is_addrb (instr_ptr op).
Lemma entry_wfb_true op : entry_wfb op = true → entry_wf op.
Proof.
  unfold entry_wfb, entry_wf, is_intb, is_int, is_addrb, is_addr.
  rewrite !andb_true_iff, bool_decide_eq_true. intuition lia.
Qed.
Lemma entries_wfb_true ops : forallb entry_wfb ops = true → Forall entry_wf ops.
Proof.
  rewrite forallb_forall, Forall_forall. intros H op Hop. apply entry_wfb_true, H.
  by apply list_elem_of_In.
Qed.

(** ** Round trips *)

Lemma le_encode_length n x : length (le_encode n x) = n.
Proof. revert x. induction n; intros x; simpl; [done|]. by rewrite IHn. Qed.
Lemma le_decode_encode n x : 0 ≤ x < 256 ^ Z.of_nat n → le_decode (le_encode n x) = x.
Proof.
  revert x. induction n as [|n IH]; intros x Hx; [simpl in *; lia|].
  rewrite Nat2Z.inj_succ, Z.pow_succ_r in Hx by lia. cbn [le_encode le_decode].
  rewrite IH.
  - pose proof (Z.div_mod x 256). lia.
  - split; [apply Z.div_pos; lia|apply Z.div_lt_upper_bound; lia].
Qed.
Lemma int_decode_encode x : is_int x → int_decode (int_encode x) = x.
Proof.
  unfold is_int, int_decode, int_encode. intros Hx.
  rewrite le_decode_encode by (apply Z.mod_pos_bound; lia). cbv zeta.
  destruct (Z.lt_ge_cases x 0).
  - rewrite <-(Z_mod_plus_full x 1), Z.mod_small by lia. case_match; lia.
  - rewrite Z.mod_small by lia. case_match; lia.
Qed.
Lemma int_encode_length x : length (int_encode x) = 4%nat.
Proof. apply le_encode_length. Qed.

(** The part of a concatenation that is one of its pieces. *)
Lemma slice_here n l1 l2 : length l1 = n → slice 0 n (l1 ++ l2) = l1.
Proof. intros <-. unfold slice. rewrite drop_0. apply take_app_length. Qed.
Lemma slice_there m n l1 l2 :
  (length l1 ≤ m)%nat → slice m n (l1 ++ l2) = slice (m - length l1) n l2.
Proof. intros H. unfold slice. by rewrite drop_app_ge. Qed.
Lemma slice_last n l : length l = n → slice 0 n l = l.
Proof. intros <-. unfold slice. by rewrite drop_0, firstn_all. Qed.

Lemma encode_entry_length pad1 pad2 pad3 op :
  length pad1 = 3%nat → length pad2 = 4%nat → length pad3 = 4%nat →
  length (encode_entry pad1 pad2 pad3 op) = entry_size.
Proof.
  intros H1 H2 H3. unfold encode_entry.
  rewrite !length_app, !int_encode_length, !le_encode_length, H1, H2, H3. done.
Qed.

(** Finds the field of an encoded entry that a slice is. *)
Ltac find_field H1 H2 :=
  cbn [operation func_ret tid src_addr dst_addr size instr_ptr non_temporal];
  repeat (rewrite slice_there
            by (rewrite ?int_encode_length, ?le_encode_length, ?H1, ?H2; cbn; lia);
          rewrite ?int_encode_length, ?le_encode_length, ?H1, ?H2; cbn [Nat.sub length]);
  rewrite slice_here by (rewrite ?int_encode_length, ?le_encode_length; done).

Lemma decode_encode pad1 pad2 pad3 op rest :
  length pad1 = 3%nat → length pad2 = 4%nat → length pad3 = 4%nat → entry_wf op →
  decode_entry (encode_entry pad1 pad2 pad3 op ++ rest) = op.
Proof.
  intros H1 H2 H3 (Hop&Hov&Ht&Hnt&Hs&Hd&Hn&Hi). unfold encode_entry, decode_entry.
  rewrite <-!app_assoc. unfold is_addr, U64 in *. destruct op as [o r t s d n i nt]. f_equal.
  - find_field H1 H2. by rewrite int_decode_encode.
  - find_field H1 H2. by destruct r.
  - find_field H1 H2. by apply int_decode_encode.
  - find_field H1 H2. by apply le_decode_encode.
  - find_field H1 H2. by apply le_decode_encode.
  - find_field H1 H2. by apply le_decode_encode.
  - find_field H1 H2. by apply le_decode_encode.
  - find_field H1 H2. by apply int_decode_encode.
Qed.

(** C21. An entry that travels through a FIFO arrives as it was sent: it takes 56
    bytes, and reading them back gives the operation, the thread, the addresses
    and the sizes that were written, whatever the padding held. *)
Theorem entry_roundtrip pad1 pad2 pad3 op rest :
  length pad1 = 3%nat → length pad2 = 4%nat → length pad3 = 4%nat → entry_wf op →
  length (encode_entry pad1 pad2 pad3 op) = 56%nat ∧
  decode_entry (encode_entry pad1 pad2 pad3 op ++ rest) = op.
Proof.
  intros. split; [by apply encode_entry_length|by apply decode_encode].
Qed.

(** A thread number and a count that are negative, to exercise the signs. *)
Definition demo_entry : trace_entry_t :=
  TraceEntry WRITE true (-3) 0 (PM_ADDR_BASE + 17) 8 0x401234 (-1).
Lemma entry_roundtrip_witness :
  length (encode_entry [1; 2; 3] [4; 5; 6; 7] [8; 9; 10; 11] demo_entry) = 56%nat ∧
  decode_entry (encode_entry [1; 2; 3] [4; 5; 6; 7] [8; 9; 10; 11] demo_entry ++ [255]) = demo_entry.
Proof.
  apply (entry_roundtrip [1; 2; 3] [4; 5; 6; 7] [8; 9; 10; 11] demo_entry [255]);
    [done..|]. by apply entry_wfb_true.
Defined.
