(* ===== verification/ExecCtrl.v ===== *)
(** * The execution controller

    [ExeCtrl] of [src/xfdetector/src/exec_ctrl.cc]: the command line of the tool,
    the commands that run the program before and after the failure under Pin,
    and the processes they start. *)
From Stdlib Require Import Ascii.
From stdpp Require Import base list strings gmap pretty.
From S2P Require Import Prelude Os Strings Trace.
Open Scope Z_scope.

Definition POOL_IMAGE_IDENTIFIER : string := "__POOL_IMAGE__".
Definition PIN_TRACK_READ : string := "-r 1 ".
Definition PIN_ENABLE_FIFO : string := "-t 1 ".
Definition PIN_ENABLE_FAILURE : string := "-f 1 ".
Definition PIN_REDIRECT_OUT : string := "-o out ".
Definition PIN_SET_EXECID (val : Z) : string := "-i " +:+ pretty val.
Definition PIN_SET_FAILURE_FILE (val : string) : string := "-l " +:+ val.

(** ** State: the class, and the globals its methods use *)

Record ExeCtrl := MkExeCtrl {
  failure_point_file : string;
  pintool_path : string;
  pm_image_name : string;
  pre_failure_exec_command : string;
  pin_pre_failure_option : string;
  pin_post_failure_option : string;
  target_cmd : list string;
  exec_id : Z;
  pre_failure_pid : Z;
  post_failure_pid : Z;
}.

Definition new_ExeCtrl : ExeCtrl := MkExeCtrl EmptyString EmptyString EmptyString EmptyString
  (PIN_ENABLE_FAILURE +:+ PIN_ENABLE_FIFO)
  (PIN_TRACK_READ +:+ PIN_ENABLE_FIFO +:+ PIN_REDIRECT_OUT) [] 0 0 0.

Definition set_options (f g : string → string) (id : Z) (c : ExeCtrl) : ExeCtrl := MkExeCtrl
  (failure_point_file c) (pintool_path c) (pm_image_name c) (pre_failure_exec_command c)
  (f (pin_pre_failure_option c)) (g (pin_post_failure_option c)) (target_cmd c) id
  (pre_failure_pid c) (post_failure_pid c).
Definition set_failure_points (v : string) (c : ExeCtrl) : ExeCtrl := MkExeCtrl
  v (pintool_path c) (pm_image_name c) (pre_failure_exec_command c)
  (pin_pre_failure_option c) (pin_post_failure_option c) (target_cmd c) (exec_id c)
  (pre_failure_pid c) (post_failure_pid c).
Definition set_pintool_path (v : string) (c : ExeCtrl) : ExeCtrl := MkExeCtrl
  (failure_point_file c) v (pm_image_name c) (pre_failure_exec_command c)
  (pin_pre_failure_option c) (pin_post_failure_option c) (target_cmd c) (exec_id c)
  (pre_failure_pid c) (post_failure_pid c).
Definition set_pm_image_name (v : string) (c : ExeCtrl) : ExeCtrl := MkExeCtrl
  (failure_point_file c) (pintool_path c) v (pre_failure_exec_command c)
  (pin_pre_failure_option c) (pin_post_failure_option c) (target_cmd c) (exec_id c)
  (pre_failure_pid c) (post_failure_pid c).
Definition set_pre_command (v : string) (c : ExeCtrl) : ExeCtrl := MkExeCtrl
  (failure_point_file c) (pintool_path c) (pm_image_name c) v
  (pin_pre_failure_option c) (pin_post_failure_option c) (target_cmd c) (exec_id c)
  (pre_failure_pid c) (post_failure_pid c).
Definition set_target_cmd (v : list string) (c : ExeCtrl) : ExeCtrl := MkExeCtrl
  (failure_point_file c) (pintool_path c) (pm_image_name c) (pre_failure_exec_command c)
  (pin_pre_failure_option c) (pin_post_failure_option c) v (exec_id c)
  (pre_failure_pid c) (post_failure_pid c).
Definition set_pids (pre post : Z) (c : ExeCtrl) : ExeCtrl := MkExeCtrl
  (failure_point_file c) (pintool_path c) (pm_image_name c) (pre_failure_exec_command c)
  (pin_pre_failure_option c) (pin_post_failure_option c) (target_cmd c) (exec_id c) pre post.

(** The controller, the environment of the process and the system. *)
Record proc := Proc { ctl : ExeCtrl; environ : list string; osys : os }.

Definition on_os {A} (c : M os A) : M proc A :=
  zoom osys (λ o p, Proc (ctl p) (environ p) o) c.
Definition upd_ctl (f : ExeCtrl → ExeCtrl) : M proc unit :=
  modify (λ p, Proc (f (ctl p)) (environ p) (osys p)).
Definition get_ctl {A} (f : ExeCtrl → A) : M proc A := gets (λ p, f (ctl p)).

Definition err {A} (message : string) : M proc A := stop (ErrAbort message).
(** A value that undefined behaviour may keep from being one. *)
Definition defined {A} (what : string) (o : option A) : M proc A :=
  match o with Some a => ret a | None => stop (UndefinedBehaviour what) end.

(** ** Command lines *)

(** [rename_pool_img]: every parameter that mentions the pool image becomes the
    new name; the space after the last parameter is dropped, which a result
    without any parameter does not have. *)
Definition pool_param (new_pool_name cmd_param : string) : string :=
  if contains POOL_IMAGE_IDENTIFIER cmd_param then new_pool_name else cmd_param.
Definition rename_pool_img (new_pool_name : string) : M proc string :=
  let! cmd := get_ctl target_cmd in
  defined "string(result.begin(), result.end()-1)"
    (str_init (cmd2str (pool_param new_pool_name <$> cmd))).

(** [err_and_exit] prints and exits. *)
Definition err_and_exit {A} (msg : string) : M proc A := stop (Exited 1).

(** The loop over the arguments, from the one at [arg_iter] on; its result is
    [loc_pool_image_name]. *)
Fixpoint parse_args (arg_iter : nat) (args : list string) (loc : string) : M proc string :=
  match args with
  | [] => ret loc
  | arg :: rest =>
      if Nat.eqb arg_iter 1 then
        upd_ctl (set_pintool_path arg) ;; parse_args (S arg_iter) rest loc
      else if Nat.eqb arg_iter 2 then parse_args (S arg_iter) rest arg
      else
        match strip_prefix "--failure-points=" arg with
        | Some file => upd_ctl (set_failure_points file)
        | None => ret tt
        end ;;
        if decide (arg = "--") then
          match rest with
          | [] => err_and_exit "No command target supplied."
          | _ => upd_ctl (set_target_cmd rest) ;; ret loc
          end
        else parse_args (S arg_iter) rest loc
  end.

(** The position of the first [--]. *)
Fixpoint find_dashes (args : list string) : option Z :=
  match args with
  | [] => None
  | arg :: rest => if decide (arg = "--") then Some 0 else Z.succ <$> find_dashes rest
  end.

Definition parse_exec_command (args : list string) : M proc unit :=
  when (u64 (Z.of_nat (length args) - 1) <? 3) (err_and_exit "Required arguments missing.") ;;
  when (match find_dashes args with Some idx => u64 (idx - 1) <? 2 | None => false end)
    (err_and_exit "Required arguments missing.") ;;
  let! loc_pool_image_name := parse_args 0 args EmptyString in
  let! cmd := get_ctl target_cmd in
  for_each cmd (λ cmd_param,
    when (contains POOL_IMAGE_IDENTIFIER cmd_param)
      (upd_ctl (set_pm_image_name
        (regex_replace cmd_param POOL_IMAGE_IDENTIFIER loc_pool_image_name)))) ;;
  let! image := get_ctl pm_image_name in
  let! command := rename_pool_img image in
  upd_ctl (set_pre_command command).

(** [ExeCtrl::init]; the failure-point file is looked at before the arguments
    are parsed. *)
Definition init (id : Z) (args : list string) : M proc unit :=
  let extra := if 0 <=? id then PIN_SET_EXECID id else EmptyString in
  upd_ctl (set_options (λ o, o +:+ extra) (λ o, o +:+ extra) id) ;;
  let! file := get_ctl failure_point_file in
  when (negb (bool_decide (file = EmptyString)))
    (upd_ctl (set_options (λ o, o +:+ PIN_SET_FAILURE_FILE file) (λ o, o) id)) ;;
  parse_exec_command args.

(** ** The commands that run under Pin *)

(** [std::getenv] *)
Fixpoint getenv (name : string) (env : list string) : option string :=
  match env with
  | [] => None
  | kv :: env' =>
      match strip_prefix (name +:+ "=") kv with
      | Some v => Some v
      | None => getenv name env'
      end
  end.
Definition get_env_var (name : string) (env : list string) : string :=
  default EmptyString (getenv name env).

(** The command as one string. *)
Definition pin_command (stage : Z) (pin_root image : string) (c : ExeCtrl) : M proc string :=
  if stage =? PRE_FAILURE then
    ret (pin_root +:+ "/pin -t " +:+ pintool_path c +:+ " " +:+ pin_pre_failure_option c
           +:+ " -- " +:+ pre_failure_exec_command c)
  else
    let! target := rename_pool_img image in
    ret (pin_root +:+ "/pin -t " +:+ pintool_path c +:+ " " +:+ pin_post_failure_option c
           +:+ " -- " +:+ target).

(** [genPinCommand]; [None] is the null pointer it returns for another stage. *)
Definition genPinCommand (stage : Z) (image : string) : M proc (option (list string)) :=
  let! env := gets environ in
  let! pin_root := defined "strcmp(pin_root, ...) on a null pointer" (getenv "PIN_ROOT" env) in
  assert_ (negb (bool_decide (pin_root = EmptyString))) "Environment PIN_ROOT not set." ;;
  if (stage =? PRE_FAILURE) || (stage =? POST_FAILURE) then
    let! c := get_ctl id in
    let! str := pin_command stage pin_root image c in
    let! cmd := defined "str2cmd" (str2cmd str) in
    ret (Some cmd)
  else ret None.

(** ** Processes *)

(** [change_env]: the comparison is over [sizeof] a pointer, 8 characters. *)
Definition change_env (kv : string) : string :=
  if strncmp_eq 8 "XFD_LD_PRELOAD" kv then str_drop 4 kv else kv.

(** [fork] and, in the child, [execvpe] with the environment in an array of 1024
    pointers; [set_pid] is what the parent does. *)
Definition spawn (argv env : list string) (what : string) (set_pid : Z → M proc unit)
    : M proc unit :=
  let! cpid := on_os (sys_int CFork) in
  if cpid <? 0 then err "Fork failed."
  else if cpid =? 0 then
    when (1024 <? Z.of_nat (length env) + 1) (stop (UndefinedBehaviour "env[idx++]")) ;;
    let! r := on_os (sys_int (CExec argv env)) in
    if r <? 0 then err what else stop (ExecImage argv env)
  else set_pid cpid.

Definition execute_pre_failure : M proc unit :=
  let! image := get_ctl pm_image_name in
  let! cmd := genPinCommand PRE_FAILURE image in
  let! argv := defined "pre_failure_command[0]" cmd in
  let! env := gets (λ p, change_env <$> environ p) in
  spawn argv env "Execution of pre-failure command failed."
    (λ cpid, upd_ctl (λ c, set_pids cpid (post_failure_pid c) c)).

Definition copy_pm_image : M proc string :=
  let! image := get_ctl pm_image_name in
  let! r := on_os (sys_int CRand) in
  let copy_name := image +:+ "_xfdetector_" +:+ pretty r in
  let! status := on_os (sys_int (CSystem ("cp " +:+ image +:+ " " +:+ copy_name))) in
  if status <? 0 then err ("Cannot copy image: " +:+ image) else ret copy_name.

Definition execute_post_failure : M proc string :=
  let! image_copy_name := copy_pm_image in
  let! cmd := genPinCommand POST_FAILURE image_copy_name in
  let! argv := defined "post_failure_command[0]" cmd in
  let! env := gets (λ p, (change_env <$> environ p) ++ ["POST_FAILURE=1"]) in
  spawn argv env "Execution of post-failure command failed."
    (λ cpid, upd_ctl (λ c, set_pids (pre_failure_pid c) cpid c)) ;;
  ret image_copy_name.

(** [WIFEXITED], [WEXITSTATUS] *)
Definition WIFEXITED (status : Z) : bool := Z.land status 127 =? 0.
Definition WEXITSTATUS (status : Z) : Z := Z.shiftr (Z.land status 65280) 8.

(** [waitpid] answers with the pid, or -1, and the status in its data. *)
Definition post_failure_status : M proc Z :=
  let! pid := get_ctl post_failure_pid in
  let! a := on_os (sys (CWaitpid pid)) in
  if ans_ret a =? -1 then ret (-1)
  else
    let status := hd 0 (ans_data a) in
    if WIFEXITED status && (WEXITSTATUS status <? 0) then ret (-1) else ret 0.

Definition kill_or_err (pid : Z) : M proc unit :=
  let! r := on_os (sys_int (CKill pid 9)) in
  when (r <? 0) (err ("Cannot kill process: " +:+ pretty pid)).
Definition term_pre_failure : M proc unit :=
  let! pid := get_ctl pre_failure_pid in kill_or_err pid.
Definition term_post_failure : M proc unit :=
  let! pid := get_ctl post_failure_pid in kill_or_err pid.
