(* ===== verification/ExecFacts.v ===== *)
(** * What the execution controller runs

    The state the command line leaves, the words of the commands handed to
    [execvpe], and the answers of [waitpid] that stop the tool. *)
From Stdlib Require Import Ascii.
From stdpp Require Import base list strings gmap pretty.
From S2P Require Import Prelude Os Strings Trace ExecCtrl.
Open Scope Z_scope.

(** ** The command line *)

(** The last argument of the form [--failure-points=file]. *)
Definition failure_file (file arg : string) : string :=
  default file (strip_prefix "--failure-points=" arg).
(** The image: the last parameter of the command that mentions it, with the name
    given on the command line in the place of the identifier. *)
Definition pool_image (loc : string) (target : list string) : string :=
  foldl (λ image w, if contains POOL_IMAGE_IDENTIFIER w
                    then regex_replace w POOL_IMAGE_IDENTIFIER loc else image)
    EmptyString target.

Lemma parse_opt i arg rest loc c env o :
  (2 < i)%nat ∨ i = O → arg ≠ "--" →
  parse_args i (arg :: rest) loc (Proc c env o)
  = parse_args (S i) rest loc
      (Proc (set_failure_points (failure_file (failure_point_file c) arg) c) env o).
Proof.
  intros Hi Harg. cbn [parse_args]. destruct (Nat.eqb_spec i 1); [lia|].
  destruct (Nat.eqb_spec i 2); [lia|]. unfold bind at 1, failure_file.
  destruct (strip_prefix "--failure-points=" arg); simpl;
    rewrite decide_False by done; [done|]. by destruct c.
Qed.
Lemma parse_opts i opts rest loc c env o :
  (2 < i)%nat → Forall (λ a, a ≠ "--") opts →
  parse_args i (opts ++ rest) loc (Proc c env o)
  = parse_args (i + length opts) rest loc
      (Proc (set_failure_points (foldl failure_file (failure_point_file c) opts) c) env o).
Proof.
  intros Hi Hopts. revert i c Hi. induction Hopts as [|a opts Ha _ IH]; intros i c Hi.
  - simpl. rewrite Nat.add_0_r. by destruct c.
  - cbn [app]. rewrite parse_opt by auto. rewrite IH by lia. simpl. f_equal. lia.
Qed.
Lemma parse_dashes i target loc c env o :
  (2 < i)%nat → target ≠ [] →
  parse_args i ("--" :: target) loc (Proc c env o)
  = Ok loc (Proc (set_target_cmd target c) env o).
Proof.
  intros Hi Ht. cbn [parse_args]. destruct (Nat.eqb_spec i 1); [lia|].
  destruct (Nat.eqb_spec i 2); [lia|]. by destruct target.
Qed.
Lemma find_dashes_app l rest :
  Forall (λ a, a ≠ "--") l → find_dashes (l ++ "--" :: rest) = Some (Z.of_nat (length l)).
Proof.
  induction 1 as [|a l Ha _ IH]; [done|]. simpl. rewrite decide_False by done.
  rewrite IH. simpl. f_equal. lia.
Qed.
Lemma image_loop loc target c env o :
  for_each target (λ w, when (contains POOL_IMAGE_IDENTIFIER w)
    (upd_ctl (set_pm_image_name (regex_replace w POOL_IMAGE_IDENTIFIER loc)))) (Proc c env o)
  = Ok tt (Proc (set_pm_image_name
      (foldl (λ image w, if contains POOL_IMAGE_IDENTIFIER w
                         then regex_replace w POOL_IMAGE_IDENTIFIER loc else image)
         (pm_image_name c) target) c) env o).
Proof.
  revert c. induction target as [|w target IH]; intros c; [by destruct c|].
  cbn [for_each]. unfold bind, when. cbn [foldl]. destruct (contains _ w); simpl; by rewrite IH.
Qed.

(** The controller after [init]. *)
Definition init_ctl (id : Z) (file tool loc : string) (target : list string) : ExeCtrl :=
  let extra := if 0 <=? id then PIN_SET_EXECID id else EmptyString in
  MkExeCtrl file tool (pool_image loc target)
    (join_words (pool_param (pool_image loc target) <$> target))
    ("-f 1 -t 1 " +:+ extra) ("-r 1 -t 1 -o out " +:+ extra) target id 0 0.

Lemma init_run id prog tool loc opts target env o :
  prog ≠ "--" → tool ≠ "--" → loc ≠ "--" → Forall (λ a, a ≠ "--") opts → target ≠ [] →
  Z.of_nat (length opts + length target) < 2 ^ 62 →
  init id (prog :: tool :: loc :: opts ++ "--" :: target) (Proc new_ExeCtrl env o)
  = Ok tt (Proc (init_ctl id (foldl failure_file EmptyString (prog :: opts)) tool loc target) env o).
Proof.
  intros Hp Ht Hl Hopts Hne Hlen. unfold init. unfold bind at 1 2. simpl.
  unfold parse_exec_command.
  assert ((u64 (Z.of_nat (length (prog :: tool :: loc :: opts ++ "--" :: target)) - 1) <? 3)
    = false) as ->.
  { simpl length. rewrite length_app. simpl length. rewrite u64_small by (unfold U64; lia).
    destruct target; [done|]. simpl length. lia. }
  pose proof (find_dashes_app (prog :: tool :: loc :: opts) target) as Hfd.
  cbn [app] in Hfd. rewrite Hfd by (by repeat constructor). clear Hfd.
  assert ((u64 (Z.of_nat (length (prog :: tool :: loc :: opts)) - 1) <? 2) = false) as ->.
  { simpl length. rewrite u64_small by (unfold U64; lia). lia. }
  unfold bind at 1 2. simpl when. cbv beta iota delta [ret]. unfold bind at 1.
  erewrite (bind_Ok (parse_args _ _ _)); last first.
  { rewrite parse_opt by auto. cbn [parse_args Nat.eqb].
    erewrite (bind_Ok (upd_ctl _)) by reflexivity.
    rewrite (parse_opts 3), parse_dashes by (done || lia). reflexivity. }
  erewrite (bind_Ok (get_ctl target_cmd)) by reflexivity.
  erewrite (bind_Ok (for_each _ _)) by (apply image_loop).
  erewrite (bind_Ok (get_ctl pm_image_name)) by reflexivity. unfold rename_pool_img, bind. simpl.
  rewrite str_init_cmd2str. destruct target; [done|]. simpl. unfold init_ctl.
  by destruct (0 <=? id).
Qed.

(** ** The commands as functions of the controller *)

Definition pin_argv (c : ExeCtrl) (env : list string) (image : string) : option (list string) :=
  root ← getenv "PIN_ROOT" env;
  if bool_decide (root = EmptyString) then None
  else
    target ← str_init (cmd2str (pool_param image <$> target_cmd c));
    str2cmd (root +:+ "/pin -t " +:+ pintool_path c +:+ " " +:+ pin_post_failure_option c
               +:+ " -- " +:+ target).
Lemma genPinCommand_post c env o image argv :
  pin_argv c env image = Some argv →
  genPinCommand POST_FAILURE image (Proc c env o) = Ok (Some argv) (Proc c env o).
Proof.
  unfold pin_argv, genPinCommand, pin_command, rename_pool_img. unfold bind, gets, get_ctl. simpl.
  destruct (getenv "PIN_ROOT" env) as [root|]; [|done]. simpl.
  unfold assert_. case_bool_decide; [done|]. simpl.
  destruct (str_init _) as [target|]; [|done]. simpl. by intros ->.
Qed.

Lemma genPinCommand_pre c env o image root argv :
  getenv "PIN_ROOT" env = Some root → root ≠ EmptyString →
  str2cmd (root +:+ "/pin -t " +:+ pintool_path c +:+ " " +:+ pin_pre_failure_option c
             +:+ " -- " +:+ pre_failure_exec_command c) = Some argv →
  genPinCommand PRE_FAILURE image (Proc c env o) = Ok (Some argv) (Proc c env o).
Proof.
  intros Hroot Hne Hcmd. unfold genPinCommand, pin_command, bind, gets, get_ctl. simpl.
  rewrite Hroot. simpl. unfold assert_. rewrite bool_decide_false by done. simpl.
  by rewrite Hcmd.
Qed.

Definition copy_name (c : ExeCtrl) (r : Z) : string :=
  pm_image_name c +:+ "_xfdetector_" +:+ pretty r.
(** The post-failure command can be built whatever number names the image. *)
Definition launchable (c : ExeCtrl) (env : list string) : Prop :=
  ∀ r, 0 ≤ r ≤ INT_MAX → is_Some (pin_argv c env (copy_name c r)).

(** ** The words of the commands *)

Definition pre_words (root tool : string) (id : Z) : list string :=
  [root +:+ "/pin"; "-t"; tool; "-f"; "1"; "-t"; "1"; "-i"; pretty id; "--"].
Definition post_words (root tool : string) (id : Z) : list string :=
  [root +:+ "/pin"; "-t"; tool; "-r"; "1"; "-t"; "1"; "-o"; "out"; "-i"; pretty id; "--"].

(** What [str2cmd] and [execvpe] can take. *)
Definition command_ok (words : list string) : Prop :=
  Forall (λ w, word_ok w = true) words ∧ (length words < 1000)%nat.

Lemma command_words (fixed params : list string) :
  fixed ≠ [] → (length fixed < 20)%nat → Forall (λ w, word_ok w = true) fixed →
  params ≠ [] → command_ok params →
  str2cmd (join_words fixed +:+ String " " (join_words params)) = Some (fixed ++ params).
Proof.
  intros Hf Hlf Hwf Hp [Hwp Hlp]. rewrite <-join_words_app by done. apply str2cmd_join.
  - by destruct fixed.
  - rewrite length_app. lia.
  - by apply Forall_app.
Qed.
Lemma options_ok id : 0 ≤ id < 10 ^ 1000 → Forall (λ w, word_ok w = true)
  ["-t"; "-f"; "1"; "-r"; "-o"; "out"; "-i"; pretty id; "--"].
Proof. intros Hid. repeat constructor; try done. by apply pretty_word_ok. Qed.

Section commands.
Context (id : Z) (file tool loc root : string) (target env : list string) (o : os).
Hypothesis id_range : 0 ≤ id < 10 ^ 1000.
Hypothesis root_env : getenv "PIN_ROOT" env = Some root.
Hypothesis root_ok : root ≠ EmptyString ∧ word_ok (root +:+ "/pin") = true.
Hypothesis tool_ok : word_ok tool = true.
Hypothesis target_ne : target ≠ [].

Lemma fmap_ne image : pool_param image <$> target ≠ [].
Proof. by destruct target. Qed.

Lemma pre_command image :
  command_ok (pool_param (pool_image loc target) <$> target) →
  genPinCommand PRE_FAILURE image (Proc (init_ctl id file tool loc target) env o)
  = Ok (Some (pre_words root tool id ++ (pool_param (pool_image loc target) <$> target)))
       (Proc (init_ctl id file tool loc target) env o).
Proof.
  intros Hcmd. destruct root_ok as [Hr Hrw]. apply (genPinCommand_pre _ _ _ _ root); [done..|].
  rewrite <-(command_words (pre_words root tool id)); [|done|simpl; lia| |apply fmap_ne|done].
  - f_equal. unfold init_ctl. cbn [pintool_path pin_pre_failure_option pre_failure_exec_command].
    rewrite (proj2 (Z.leb_le 0 id)) by apply id_range. unfold pre_words, PIN_SET_EXECID.
    cbn [join_words]. rewrite <-!str_app_assoc. reflexivity.
  - pose proof (options_ok id id_range) as H. rewrite !Forall_cons in H.
    unfold pre_words. rewrite !Forall_cons. intuition.
Qed.
Lemma post_argv image :
  command_ok (pool_param image <$> target) →
  pin_argv (init_ctl id file tool loc target) env image
  = Some (post_words root tool id ++ (pool_param image <$> target)).
Proof.
  intros Hcmd. destruct root_ok as [Hr Hrw]. unfold pin_argv. rewrite root_env.
  cbn [mbind option_bind]. rewrite bool_decide_false by done. rewrite str_init_cmd2str.
  rewrite <-(command_words (post_words root tool id)); [|done|simpl; lia| |apply fmap_ne|done].
  - unfold init_ctl. cbn [pintool_path pin_post_failure_option target_cmd].
    rewrite (proj2 (Z.leb_le 0 id)) by apply id_range. pose proof (fmap_ne image) as Hne.
    destruct (pool_param image <$> target) as [|w ws]; [done|]. cbn [mbind option_bind].
    f_equal. unfold post_words, PIN_SET_EXECID. cbn [join_words].
    rewrite <-!str_app_assoc. reflexivity.
  - pose proof (options_ok id id_range) as H. rewrite !Forall_cons in H.
    unfold post_words. rewrite !Forall_cons. intuition.
Qed.
End commands.

(** ** Properties *)

Lemma post_status_nonneg status : (WEXITSTATUS status <? 0) = false.
Proof.
  unfold WEXITSTATUS. apply Z.ltb_ge, Z.shiftr_nonneg, Z.land_nonneg. by right.
Qed.

(** The options of the controller. *)
Definition same_options (p p' : proc) : Prop :=
  pin_pre_failure_option (ctl p') = pin_pre_failure_option (ctl p) ∧
  pin_post_failure_option (ctl p') = pin_post_failure_option (ctl p).
#[local] Instance same_options_preorder : PreOrder same_options.
Proof.
  unfold same_options. split; [done|]. intros p1 p2 p3 [??] [??]. split; congruence.
Qed.
#[local] Hint Extern 1 (keeps same_options (upd_ctl _)) => apply keeps_modify; by intros ? : keeps.
Lemma keeps_parse_args i args loc : keeps same_options (parse_args i args loc).
Proof.
  revert i loc. induction args as [|a args IH]; intros i loc; cbn [parse_args]; keeps_steps; auto.
Qed.
#[local] Hint Resolve keeps_parse_args : keeps.
Lemma keeps_parse_exec args : keeps same_options (parse_exec_command args).
Proof. keeps_steps. Qed.

(** C23. The commands handed to [execvpe].  A command line
    [prog tool image options -- target...] in which only the separator is [--]
    leaves a controller that runs, before the failure,
    [PIN_ROOT/pin -t tool -f 1 -t 1 -i id -- target...] with the image's name in
    the place of every parameter that mentions it, and after the failure the
    same target on the given copy under [-r 1 -t 1 -o out -i id]; every word
    arrives as one argument.  This is for a number [id] that is not negative, with
    [PIN_ROOT] set and not empty, and a target of 1 to 999 words, all words shorter
    than 1024 characters and without blanks and percent signs, which [str2cmd] and
    [alloc_print] would take apart or interpret. *)
Theorem pin_commands id prog tool loc image root opts target env o :
  prog ≠ "--" → tool ≠ "--" → loc ≠ "--" → Forall (λ a, a ≠ "--") opts → target ≠ [] →
  Z.of_nat (length opts + length target) < 2 ^ 62 → 0 ≤ id < 10 ^ 1000 →
  getenv "PIN_ROOT" env = Some root → root ≠ EmptyString →
  word_ok (root +:+ "/pin") = true → word_ok tool = true →
  command_ok (pool_param (pool_image loc target) <$> target) →
  command_ok (pool_param image <$> target) →
  ∃ p, init id (prog :: tool :: loc :: opts ++ "--" :: target) (Proc new_ExeCtrl env o) = Ok tt p ∧
    genPinCommand PRE_FAILURE (pm_image_name (ctl p)) p
    = Ok (Some ([root +:+ "/pin"; "-t"; tool; "-f"; "1"; "-t"; "1"; "-i"; pretty id; "--"]
                ++ (pool_param (pool_image loc target) <$> target))) p ∧
    genPinCommand POST_FAILURE image p
    = Ok (Some ([root +:+ "/pin"; "-t"; tool; "-r"; "1"; "-t"; "1"; "-o"; "out"; "-i";
                 pretty id; "--"] ++ (pool_param image <$> target))) p.
Proof.
  intros. eexists. split; [by apply init_run|]. split.
  - by apply pre_command.
  - by apply genPinCommand_post, post_argv.
Qed.

(** The failure-point file never reaches Pin: whatever the arguments, when
    [init] of a new controller returns, the options are those of the execution
    id alone, also when [--failure-points=] was parsed. *)
Theorem failure_points_ignored id args env o p :
  init id args (Proc new_ExeCtrl env o) = Ok tt p →
  pin_pre_failure_option (ctl p)
  = "-f 1 -t 1 " +:+ (if 0 <=? id then PIN_SET_EXECID id else EmptyString).
Proof.
  intros H. unfold init in H. unfold bind at 1 2 in H. simpl in H.
  pose proof (keeps_parse_exec args (Proc
    (set_options (λ o, o +:+ (if 0 <=? id then PIN_SET_EXECID id else EmptyString))
       (λ o, o +:+ (if 0 <=? id then PIN_SET_EXECID id else EmptyString)) id new_ExeCtrl)
    env o)) as Hk.
  unfold bind in H. simpl in H. unfold wlp, wpe in Hk. rewrite H in Hk. destruct Hk as [Hk _].
  rewrite Hk. done.
Qed.

Lemma parse_no_dashes i args loc c env o :
  Forall (λ a, a ≠ "--") args →
  ∃ loc' c', parse_args i args loc (Proc c env o) = Ok loc' (Proc c' env o) ∧
    target_cmd c' = target_cmd c.
Proof.
  intros Hargs. revert i loc c. induction Hargs as [|a args Ha _ IH]; intros i loc c.
  - by exists loc, c.
  - cbn [parse_args]. destruct (Nat.eqb i 1); [|destruct (Nat.eqb i 2)].
    + unfold bind. simpl. destruct (IH (S i) loc (set_pintool_path a c)) as (loc'&c'&->&Hc).
      by exists loc', c'.
    + apply IH.
    + unfold bind. destruct (strip_prefix _ a) as [f|]; simpl; rewrite decide_False by done.
      * destruct (IH (S i) loc (set_failure_points f c)) as (loc'&c'&->&Hc). by exists loc', c'.
      * apply IH.
Qed.
Lemma find_no_dashes l : Forall (λ a, a ≠ "--") l → find_dashes l = None.
Proof. induction 1 as [|a l Ha _ IH]; [done|]. simpl. by rewrite decide_False, IH. Qed.

(** Without a [--] the target command is empty, and the string of it without
    its last character is undefined: the controller does not report the missing
    command. *)
Theorem missing_separator_undefined id args env o :
  (4 ≤ length args)%nat → Z.of_nat (length args) < 2 ^ 62 → Forall (λ a, a ≠ "--") args →
  ∃ what p, init id args (Proc new_ExeCtrl env o) = Abort (UndefinedBehaviour what) p.
Proof.
  intros Hlen Hmax Hargs. unfold init. unfold bind at 1 2. simpl.
  unfold parse_exec_command. rewrite find_no_dashes by done.
  assert ((u64 (Z.of_nat (length args) - 1) <? 3) = false) as ->.
  { rewrite u64_small by (unfold U64; lia). lia. }
  unfold bind at 1 2. simpl when. cbv beta iota delta [ret]. unfold bind at 1.
  match goal with |- context [bind (parse_args _ _ _) _ (Proc ?c _ _)] =>
    destruct (parse_no_dashes 0 args "" c env o Hargs) as (loc&c'&Hp&Hc) end.
  erewrite (bind_Ok (parse_args _ _ _)) by exact Hp. unfold bind, get_ctl, gets. simpl.
  rewrite Hc. simpl. unfold rename_pool_img, bind, get_ctl, gets. simpl. rewrite Hc. simpl.
  by eexists _, _.
Qed.

(** A pre-failure run is ended after a post-failure run only when [waitpid]
    itself fails: no exit code and no signal of the post-failure process counts
    as an error, because an exit status is never negative. *)
Theorem post_failure_status_spec q a l r q' :
  answers (osys q) = a :: l → post_failure_status q = Ok r q' →
  (r < 0 ↔ ans_ret a = -1) ∧ (r = 0 ∨ r = -1) ∧ answers (osys q') = l.
Proof.
  intros Ha. unfold post_failure_status, bind, get_ctl, gets, on_os, zoom, sys. simpl.
  rewrite Ha. simpl. rewrite post_status_nonneg, andb_false_r.
  destruct (Z.eqb_spec (ans_ret a) (-1)); intros [= <- <-]; simpl; intuition lia.
Qed.

(** The renaming of environment variables: the first 8 characters decide, so
    that every variable whose name begins with [XFD_LD_P] reaches the program
    without its [XFD_], and nothing else is changed. *)
Theorem change_env_spec kv :
  change_env kv = match strip_prefix "XFD_LD_P" kv with
                  | Some rest => "LD_P" +:+ rest
                  | None => kv
                  end.
Proof.
  unfold change_env. rewrite (strncmp_eq_prefix "XFD_LD_P" "RELOAD").
  destruct (strip_prefix "XFD_LD_P" kv) as [rest|] eqn:H; [|done].
  apply strip_prefix_Some in H as ->. done.
Qed.

(** ** Concrete instances *)

Definition demo_env : list string := ["HOME=/root"; "PIN_ROOT=/opt/pin"].
Definition demo_target : list string := ["./btree"; "__POOL_IMAGE__"; "5"].

Lemma demo_command_ok image :
  word_ok image = true → command_ok (pool_param image <$> demo_target).
Proof. intros H. split; [repeat constructor; done|simpl; lia]. Qed.

Lemma pin_commands_witness : ∃ p,
  init 7 (["xfdetector"; "tool.so"; "/mnt/pool"; "--failure-points=fp"] ++ "--" :: demo_target)
    (Proc new_ExeCtrl demo_env (Os [] [])) = Ok tt p ∧
  genPinCommand PRE_FAILURE (pm_image_name (ctl p)) p
  = Ok (Some ["/opt/pin/pin"; "-t"; "tool.so"; "-f"; "1"; "-t"; "1"; "-i"; "7"; "--";
              "./btree"; "/mnt/pool"; "5"]) p ∧
  genPinCommand POST_FAILURE "/mnt/copy" p
  = Ok (Some ["/opt/pin/pin"; "-t"; "tool.so"; "-r"; "1"; "-t"; "1"; "-o"; "out"; "-i"; "7"; "--";
              "./btree"; "/mnt/copy"; "5"]) p.
Proof.
  apply (pin_commands 7 "xfdetector" "tool.so" "/mnt/pool" "/mnt/copy" "/opt/pin"
           ["--failure-points=fp"] demo_target demo_env (Os [] []));
    (done || lia || (by apply demo_command_ok) || by repeat constructor).
Defined.

Lemma failure_points_ignored_witness : ∃ p,
  init 7 (["xfdetector"; "tool.so"; "/mnt/pool"; "--failure-points=fp"] ++ "--" :: demo_target)
    (Proc new_ExeCtrl demo_env (Os [] [])) = Ok tt p ∧
  failure_point_file (ctl p) = "fp" ∧ pin_pre_failure_option (ctl p) = "-f 1 -t 1 -i 7".
Proof.
  eexists. split; [reflexivity|]. split; [reflexivity|].
  apply (failure_points_ignored 7
    (["xfdetector"; "tool.so"; "/mnt/pool"; "--failure-points=fp"] ++ "--" :: demo_target)
    demo_env (Os [] [])). reflexivity.
Defined.

Lemma missing_separator_undefined_witness : ∃ what p,
  init 7 ["xfdetector"; "tool.so"; "/mnt/pool"; "./btree"] (Proc new_ExeCtrl demo_env (Os [] []))
  = Abort (UndefinedBehaviour what) p.
Proof.
  apply (missing_separator_undefined 7 ["xfdetector"; "tool.so"; "/mnt/pool"; "./btree"]
           demo_env (Os [] [])); [simpl; lia|simpl; lia|by repeat constructor].
Defined.

(** The process was killed by SIGSEGV: status 11. *)
Lemma post_failure_status_spec_witness :
  (0 < 0 ↔ 42 = -1) ∧ (0 = 0 ∨ 0 = -1) ∧ @nil answer = [].
Proof.
  apply (post_failure_status_spec (Proc new_ExeCtrl demo_env (Os [Answer 42 [11]] []))
           (Answer 42 [11]) [] 0 (Proc new_ExeCtrl demo_env (Os [] [CWaitpid 0]))); reflexivity.
Defined.
