(* ===== verification/Icl.v ===== *)
(** * Interval containers

    The shadow memory keeps its state in Boost.ICL's [interval_map] and
    [interval_set], a library the repository only calls.  This file states what
    the tool relies on, as two type classes: the operations the macros of
    [xfdetector.hh] expand to, and the documented element-wise ("fundamental")
    reading of them.  It then gives one implementation of each class, by sorted
    lists of segments, so that the theorems proved against the classes can be
    run on concrete traces. *)
From stdpp Require Import base list strings gmap.
From S2P Require Import Prelude Trace.
Open Scope Z_scope.

(** ** Intervals *)

(** [discrete_interval<addr_t>] in its closed form [\[lower, upper\]]; it is empty
    when the bounds cross. *)
Record ival := Ival { lower : Z; upper : Z }.

#[export] Instance ival_eq_dec : EqDecision ival.
Proof. solve_decision. Defined.

#[export] Instance ival_elem_of : ElemOf Z ival := λ x i, lower i ≤ x ∧ x ≤ upper i.

Definition ival_memb (x : Z) (i : ival) : bool := (lower i <=? x) && (x <=? upper i).

(** [ival::closed(addr, size+addr-1)], in 64-bit arithmetic. *)
Definition closed (addr size : Z) : ival := Ival addr (u64 (size + addr - 1)).

Lemma ival_memb_spec x i : ival_memb x i = true ↔ x ∈ i.
Proof. unfold ival_memb. rewrite andb_true_iff, !Z.leb_le. done. Qed.

#[export] Instance ival_elem_of_dec x (i : ival) : Decision (x ∈ i).
Proof.
  refine (cast_if (decide (ival_memb x i = true))); by rewrite <-ival_memb_spec.
Defined.

(** An access range that does not run past the end of the address space. *)
Definition fits (addr size : Z) : Prop := 0 ≤ addr ∧ 0 < size ∧ addr + size ≤ U64.

Lemma elem_of_closed x addr size :
  fits addr size → x ∈ closed addr size ↔ addr ≤ x < addr + size.
Proof.
  unfold fits, elem_of, ival_elem_of, closed. simpl. intros.
  rewrite u64_small by lia. lia.
Qed.
Lemma closed_nonempty addr size : fits addr size → addr ∈ closed addr size.
Proof. intros H. apply elem_of_closed; [done|]. unfold fits in H. lia. Qed.
Lemma elem_of_closed_addr x addr size : 0 ≤ addr → x ∈ closed addr size → is_addr x.
Proof.
  unfold elem_of, ival_elem_of, closed, is_addr. simpl. intros.
  pose proof (u64_range (size + addr - 1)). lia.
Qed.

(** ** The interfaces *)

(** [interval_map<addr_t, V, partial_enricher, std::less, inplace_assign>].
    [im_at m x] is the value the map associates with the element [x].
    [im_values m i] are the associated values of the segments of the
    intersection [m & i], in iteration order; [im_all m] those of [m].
    [im_assign f m] is the loop that assigns through the iterators of [m]. *)
Class IntervalMap (imap : Type → Type) := {
  im_empty : ∀ {V}, imap V;
  im_at : ∀ {V}, imap V → Z → option V;
  im_add : ∀ {V}, imap V → ival → V → imap V;
  im_erase : ∀ {V}, imap V → ival → imap V;
  im_values : ∀ {V}, imap V → ival → list V;
  im_all : ∀ {V}, imap V → list V;
  im_intersects : ∀ {V}, imap V → ival → bool;
  im_assign : ∀ {V}, (V → V) → imap V → imap V;
}.

Class IntervalMapLaws (imap : Type → Type) `{!IntervalMap imap} : Prop := {
  im_at_empty V x : im_at (V:=V) im_empty x = None;
  im_at_add V (m : imap V) i v x :
    im_at (im_add m i v) x = if ival_memb x i then Some v else im_at m x;
  im_at_erase V (m : imap V) i x :
    im_at (im_erase m i) x = if ival_memb x i then None else im_at m x;
  im_values_spec V (m : imap V) i v :
    v ∈ im_values m i ↔ ∃ x, x ∈ i ∧ im_at m x = Some v;
  im_all_spec V (m : imap V) v : v ∈ im_all m ↔ ∃ x, im_at m x = Some v;
  im_intersects_spec V (m : imap V) i :
    im_intersects m i = true ↔ ∃ x, x ∈ i ∧ is_Some (im_at m x);
  im_at_assign V f (m : imap V) x : im_at (im_assign f m) x = f <$> im_at m x;
}.

(** [interval_set<addr_t>], the joining set: its segments are the maximal
    runs of consecutive elements, in increasing order. *)
Class IntervalSet (iset : Type) := {
  is_empty : iset;
  is_mem : iset → Z → bool;
  is_add : iset → ival → iset;
  is_erase : iset → ival → iset;
  is_within : ival → iset → bool;
  is_segments : iset → list ival;
}.

(** Consecutive segments leave a gap between them. *)
Fixpoint separated (l : list ival) : Prop :=
  match l with
  | i :: ((j :: _) as l') => upper i + 1 < lower j ∧ separated l'
  | _ => True
  end.

Class IntervalSetLaws (iset : Type) `{!IntervalSet iset} : Prop := {
  is_mem_empty x : is_mem is_empty x = false;
  is_mem_add s i x : is_mem (is_add s i) x = ival_memb x i || is_mem s x;
  is_mem_erase s i x : is_mem (is_erase s i) x = negb (ival_memb x i) && is_mem s x;
  is_within_spec i s : is_within i s = true ↔ ∀ x, x ∈ i → is_mem s x = true;
  is_segments_spec s x : is_mem s x = true ↔ ∃ i, i ∈ is_segments s ∧ x ∈ i;
  is_segments_nonempty s i : i ∈ is_segments s → lower i ≤ upper i;
  is_segments_separated s : separated (is_segments s);
}.

(** ** The macros of [xfdetector.hh] *)

Section macros.
Context {imap : Type → Type} `{!IntervalMap imap} {iset : Type} `{!IntervalSet iset}.

Definition SET_INSERT (s : iset) (addr size : Z) : iset := is_add s (closed addr size).
Definition SET_LOOKUP (s : iset) (addr size : Z) : bool := is_within (closed addr size) s.
Definition MAP_UPDATE {V} (m : imap V) (addr size : Z) (new_val : V) : imap V :=
  im_add m (closed addr size) new_val.
Definition MAP_UPDATE_INTERVAL {V} (m : imap V) (i : ival) (new_val : V) : imap V :=
  im_add m i new_val.
Definition MAP_REMOVE {V} (m : imap V) (addr size : Z) : imap V :=
  im_erase m (closed addr size).
Definition MAP_LOOKUP {V} (m : imap V) (addr size : Z) : list V :=
  im_values m (closed addr size).
Definition MAP_INTERSECT {V} (m : imap V) (addr size : Z) : bool :=
  im_intersects m (closed addr size).

Context `{!IntervalMapLaws imap, !IntervalSetLaws iset}.

Lemma MAP_UPDATE_at {V} (m : imap V) addr size v x :
  im_at (MAP_UPDATE m addr size v) x
  = if ival_memb x (closed addr size) then Some v else im_at m x.
Proof. apply im_at_add. Qed.
Lemma MAP_REMOVE_at {V} (m : imap V) addr size x :
  im_at (MAP_REMOVE m addr size) x
  = if ival_memb x (closed addr size) then None else im_at m x.
Proof. apply im_at_erase. Qed.
Lemma SET_INSERT_mem s addr size x :
  is_mem (SET_INSERT s addr size) x = ival_memb x (closed addr size) || is_mem s x.
Proof. apply is_mem_add. Qed.

(** A test on all the segments of a lookup is a test on all the mapped bytes. *)
Lemma MAP_LOOKUP_forallb {V} (p : V → bool) (m : imap V) addr size :
  forallb p (MAP_LOOKUP m addr size) = true ↔
  ∀ x v, x ∈ closed addr size → im_at m x = Some v → p v = true.
Proof.
  unfold MAP_LOOKUP. rewrite forallb_forall. split.
  - intros H x v Hx Hv. apply H, list_elem_of_In, im_values_spec. eauto.
  - intros H v Hv%list_elem_of_In%im_values_spec. destruct Hv as (x&?&?). eauto.
Qed.
End macros.

Create Rewrite HintDb icl.
#[export] Hint Rewrite @im_at_empty @im_at_add @im_at_erase @im_at_assign @is_mem_empty
  @is_mem_add @is_mem_erase @MAP_UPDATE_at @MAP_REMOVE_at @SET_INSERT_mem
  using typeclasses eauto : icl.

(** Maps and sets are observed element by element. *)
#[export] Instance imap_equiv {imap} `{!IntervalMap imap} {V} : Equiv (imap V) :=
  λ m1 m2, ∀ x, im_at m1 x = im_at m2 x.
#[export] Instance iset_equiv {iset} `{!IntervalSet iset} : Equiv iset :=
  λ s1 s2, ∀ x, is_mem s1 x = is_mem s2 x.

#[export] Instance imap_equivalence {imap} `{!IntervalMap imap} {V} :
  Equivalence (≡@{imap V}).
Proof.
  split; [by intros m x|intros m1 m2 H x; by rewrite (H x)|].
  intros m1 m2 m3 H1 H2 x. by rewrite (H1 x), (H2 x).
Qed.
#[export] Instance iset_equivalence {iset} `{!IntervalSet iset} : Equivalence (≡@{iset}).
Proof.
  split; [by intros m x|intros m1 m2 H x; by rewrite (H x)|].
  intros m1 m2 m3 H1 H2 x. by rewrite (H1 x), (H2 x).
Qed.
