(* ===== verification/SegList.v ===== *)
(** * Interval containers as sorted lists of segments

    An implementation of the interfaces of [Icl]: a map is a list of disjoint
    segments in increasing order, a set a list of segments no two of which
    touch.  The invariant travels with the list, as a boolean, so the
    representations compute. *)
From stdpp Require Import base list strings gmap.
From S2P Require Import Prelude Trace Icl.
Open Scope Z_scope.

(** ** Maps *)

Section seg_map.
Context {V : Type}.
Implicit Types (l : list (ival * V)) (i : ival) (v : V) (x : Z).

(** Every segment is non-empty and ends before the next one begins; [b] is
    a bound below the first. *)
Fixpoint segs_okb (b : Z) (l : list (ival * V)) : bool :=
  match l with
  | [] => true
  | (i, _) :: l' => (b <? lower i) && (lower i <=? upper i) && segs_okb (upper i) l'
  end.
Definition segs_ok (l : list (ival * V)) : bool :=
  match l with
  | [] => true
  | (i, _) :: _ => segs_okb (lower i - 1) l
  end.

Fixpoint segs_at (l : list (ival * V)) (x : Z) : option V :=
  match l with
  | [] => None
  | (i, v) :: l' => if ival_memb x i then Some v else segs_at l' x
  end.

(** What is left of the segment [(a, v)] once [i] is cut out, followed by [l]. *)
Definition seg_cut (i a : ival) (v : V) (l : list (ival * V)) : list (ival * V) :=
  let l' := if upper i <? upper a
            then (Ival (Z.max (lower a) (upper i + 1)) (upper a), v) :: l else l in
  if lower a <? lower i
  then (Ival (lower a) (Z.min (upper a) (lower i - 1)), v) :: l' else l'.
Fixpoint segs_cut (i : ival) (l : list (ival * V)) : list (ival * V) :=
  match l with
  | [] => []
  | (a, v) :: l' => seg_cut i a v (segs_cut i l')
  end.
Definition segs_erase (i : ival) (l : list (ival * V)) : list (ival * V) :=
  if lower i <=? upper i then segs_cut i l else l.

Fixpoint segs_insert (i : ival) (v : V) (l : list (ival * V)) : list (ival * V) :=
  match l with
  | [] => [(i, v)]
  | (a, w) :: l' =>
      if upper i <? lower a then (i, v) :: l else (a, w) :: segs_insert i v l'
  end.
Definition segs_add (i : ival) (v : V) (l : list (ival * V)) : list (ival * V) :=
  if lower i <=? upper i then segs_insert i v (segs_cut i l) else l.

Definition overlaps (i a : ival) : bool :=
  (lower i <=? upper i) && (lower a <=? upper i) && (lower i <=? upper a).
Definition segs_in (i : ival) (l : list (ival * V)) : list (ival * V) :=
  filter (λ p, overlaps i p.1 = true) l.

(** *** Order *)

Lemma segs_okb_weaken b b' l : b' ≤ b → segs_okb b l = true → segs_okb b' l = true.
Proof. destruct l as [|[i v] l]; simpl; [done|]. rewrite !andb_true_iff. lia. Qed.
Lemma segs_ok_bound l : segs_ok l = true ↔ ∃ b, segs_okb b l = true.
Proof.
  destruct l as [|[i v] l]; simpl; [split; [by exists 0|done]|].
  split; [eauto|]. intros [b H]. rewrite !andb_true_iff in *. lia.
Qed.
Lemma segs_okb_at b l x v : segs_okb b l = true → segs_at l x = Some v → b < x.
Proof.
  revert b. induction l as [|[i w] l IH]; simpl; [done|]. intros b.
  rewrite !andb_true_iff. intros [[? ?] Hl].
  destruct (ival_memb x i) eqn:E; [|intros ?%(IH (upper i)); [lia|done]].
  apply ival_memb_spec in E. unfold elem_of, ival_elem_of in E. lia.
Qed.

Lemma segs_okb_cut b i l :
  lower i ≤ upper i → segs_okb b l = true → segs_okb b (segs_cut i l) = true.
Proof.
  intros Hi. revert b. induction l as [|[a v] l IH]; [done|]. intros b.
  simpl. rewrite !andb_true_iff. intros [[??] Hl%(IH (upper a))]. unfold seg_cut.
  repeat case_match; simpl; rewrite ?andb_true_iff;
    repeat match goal with |- _ ∧ _ => split end; try lia;
    (eapply segs_okb_weaken; [|eassumption]); lia.
Qed.
Lemma segs_at_cut i l x :
  lower i ≤ upper i →
  segs_at (segs_cut i l) x = if ival_memb x i then None else segs_at l x.
Proof.
  intros Hi. induction l as [|[a v] l IH]; simpl; [by case_match|].
  unfold seg_cut, ival_memb in *.
  repeat (case_match; unfold ival_memb in *; simpl in *; rewrite ?IH;
          try done; try (exfalso; lia)).
Qed.

Lemma segs_insert_head i a v l :
  lower i ≤ upper i → lower a ≤ upper a → (upper i <? lower a) = false →
  (∀ x, x ∈ i → segs_at ((a, v) :: l) x = None) → upper a < lower i.
Proof.
  intros ??? H. specialize (H (Z.max (lower i) (lower a))).
  destruct (Z.lt_ge_cases (upper a) (lower i)); [done|]. exfalso.
  simpl in H. unfold ival_memb, elem_of, ival_elem_of in H. case_match; [|lia].
  assert (Some v = None); [apply H; lia|done].
Qed.
Lemma segs_okb_insert b i v l :
  lower i ≤ upper i → b < lower i → segs_okb b l = true →
  (∀ x, x ∈ i → segs_at l x = None) → segs_okb b (segs_insert i v l) = true.
Proof.
  intros Hi. revert b. induction l as [|[a w] l IH]; intros b Hb Hl Hat; simpl in *; [lia|].
  rewrite !andb_true_iff in Hl. destruct Hl as [[??] Hl].
  destruct (upper i <? lower a) eqn:E; simpl; rewrite ?andb_true_iff.
  - repeat split; lia.
  - repeat split; try lia. apply IH; [apply (segs_insert_head i a w l); (done || lia)|done|].
    intros x Hx. specialize (Hat x Hx). by case_match.
Qed.
Lemma segs_at_insert i v l x :
  (∀ x, x ∈ i → segs_at l x = None) →
  segs_at (segs_insert i v l) x = if ival_memb x i then Some v else segs_at l x.
Proof.
  induction l as [|[a w] l IH]; intros Hat; simpl; [done|].
  destruct (upper i <? lower a); simpl; [done|]. rewrite IH.
  - destruct (ival_memb x i) eqn:E; [|done]. apply ival_memb_spec, Hat in E.
    simpl in E. by case_match.
  - intros y Hy%Hat. simpl in Hy. by case_match.
Qed.

Lemma segs_ok_erase i l : segs_ok l = true → segs_ok (segs_erase i l) = true.
Proof.
  unfold segs_erase. destruct (lower i <=? upper i) eqn:?; [|done].
  rewrite !segs_ok_bound. intros [b Hl]. exists b. apply segs_okb_cut; [lia|done].
Qed.
Lemma segs_ok_add i v l : segs_ok l = true → segs_ok (segs_add i v l) = true.
Proof.
  unfold segs_add. destruct (lower i <=? upper i) eqn:?; [|done].
  rewrite !segs_ok_bound. intros [b Hl]. exists (Z.min b (lower i - 1)).
  apply segs_okb_insert; [lia|lia| |].
  - eapply segs_okb_weaken, segs_okb_cut; [|lia|done]. lia.
  - intros x Hx%ival_memb_spec. rewrite segs_at_cut by lia. by rewrite Hx.
Qed.
Lemma segs_at_erase i l x :
  segs_at (segs_erase i l) x = if ival_memb x i then None else segs_at l x.
Proof.
  unfold segs_erase. destruct (lower i <=? upper i) eqn:?; [apply segs_at_cut; lia|].
  unfold ival_memb. case_match; [lia|done].
Qed.
Lemma segs_at_add i v l x :
  segs_at (segs_add i v l) x = if ival_memb x i then Some v else segs_at l x.
Proof.
  unfold segs_add. destruct (lower i <=? upper i) eqn:?.
  - rewrite segs_at_insert, segs_at_cut by lia || (intros y Hy%ival_memb_spec;
      rewrite segs_at_cut by lia; by rewrite Hy). by case_match.
  - unfold ival_memb. case_match; [lia|done].
Qed.

(** *** Iteration *)

Lemma segs_elem_at b l i v x :
  segs_okb b l = true → (i, v) ∈ l → x ∈ i → segs_at l x = Some v.
Proof.
  revert b. induction l as [|[a w] l IH]; intros b; [by intros _ ?%not_elem_of_nil|].
  simpl. rewrite !andb_true_iff. intros [[??] Hl] [[= -> ->]|Hin]%elem_of_cons Hx.
  - apply ival_memb_spec in Hx. by rewrite Hx.
  - assert (segs_at l x = Some v) as Hat by eauto. rewrite Hat.
    apply segs_okb_at with (b := upper a) in Hat; [|done].
    destruct (ival_memb x a) eqn:E; [|done]. apply ival_memb_spec in E.
    unfold elem_of, ival_elem_of in E. lia.
Qed.
Lemma segs_at_elem l x v : segs_at l x = Some v → ∃ i, (i, v) ∈ l ∧ x ∈ i.
Proof.
  induction l as [|[a w] l IH]; simpl; [done|]. destruct (ival_memb x a) eqn:E.
  - intros [= ->]. exists a. split; [left|by apply ival_memb_spec].
  - intros (i&?&?)%IH. exists i. split; [by right|done].
Qed.
Lemma segs_okb_elem b l i v : segs_okb b l = true → (i, v) ∈ l → lower i ≤ upper i.
Proof.
  revert b. induction l as [|[a w] l IH]; intros b; [by intros _ ?%not_elem_of_nil|].
  simpl. rewrite !andb_true_iff. intros [[??] Hl] [[= -> ->]|Hin]%elem_of_cons; [lia|eauto].
Qed.

Lemma segs_in_spec i l v :
  segs_ok l = true → v ∈ (segs_in i l).*2 ↔ ∃ x, x ∈ i ∧ segs_at l x = Some v.
Proof.
  intros [b Hl]%segs_ok_bound. rewrite list_elem_of_fmap. split.
  - intros ([a w]&->&[Hov Ha]%list_elem_of_filter). simpl in *.
    pose proof (segs_okb_elem _ _ _ _ Hl Ha). exists (Z.max (lower i) (lower a)).
    unfold overlaps in Hov. split; [unfold elem_of, ival_elem_of; lia|].
    eapply segs_elem_at; [done..|]. unfold elem_of, ival_elem_of. lia.
  - intros (x&Hx&(a&Ha&Hxa)%segs_at_elem). exists (a, v). split; [done|].
    apply list_elem_of_filter. split; [|done]. simpl. unfold overlaps, elem_of, ival_elem_of in *.
    lia.
Qed.
Lemma segs_all_spec l v :
  segs_ok l = true → v ∈ l.*2 ↔ ∃ x, segs_at l x = Some v.
Proof.
  intros [b Hl]%segs_ok_bound. rewrite list_elem_of_fmap. split.
  - intros ([a w]&->&Ha). exists (lower a). eapply segs_elem_at; [done..|].
    pose proof (segs_okb_elem _ _ _ _ Hl Ha). unfold elem_of, ival_elem_of. lia.
  - intros (x&(a&Ha&_)%segs_at_elem). by exists (a, v).
Qed.

(** *** Assignment through the iterators *)

Definition segs_assign (f : V → V) (l : list (ival * V)) : list (ival * V) :=
  map (λ p, (p.1, f p.2)) l.
Lemma segs_okb_assign f b l : segs_okb b (segs_assign f l) = segs_okb b l.
Proof. revert b. induction l as [|[a v] l IH]; intros b; simpl; [done|]. by rewrite IH. Qed.
Lemma segs_ok_assign f l : segs_ok l = true → segs_ok (segs_assign f l) = true.
Proof. rewrite !segs_ok_bound. by setoid_rewrite segs_okb_assign. Qed.
Lemma segs_at_assign f l x : segs_at (segs_assign f l) x = f <$> segs_at l x.
Proof. induction l as [|[a v] l IH]; simpl; [done|]. by case_match. Qed.
End seg_map.

Record seg_map (V : Type) := SegMap { segs : list (ival * V); segs_wf : segs_ok segs = true }.
Global Arguments SegMap {V} _ _.
Global Arguments segs {V} _.
Global Arguments segs_wf {V} _.

#[export] Instance seg_map_IntervalMap : IntervalMap seg_map := {|
  im_empty V := SegMap [] eq_refl;
  im_at V m := segs_at (segs m);
  im_add V m i v := SegMap (segs_add i v (segs m)) (segs_ok_add i v _ (segs_wf m));
  im_erase V m i := SegMap (segs_erase i (segs m)) (segs_ok_erase i _ (segs_wf m));
  im_values V m i := (segs_in i (segs m)).*2;
  im_all V m := (segs m).*2;
  im_intersects V m i := existsb (λ p, overlaps i p.1) (segs m);
  im_assign V f m := SegMap (segs_assign f (segs m)) (segs_ok_assign f _ (segs_wf m));
|}.

#[export] Instance seg_map_laws : IntervalMapLaws seg_map.
Proof.
  split; simpl; intros.
  - done.
  - apply segs_at_add.
  - apply segs_at_erase.
  - apply segs_in_spec, segs_wf.
  - apply segs_all_spec, segs_wf.
  - rewrite existsb_exists. split.
    + intros ([a v]&Ha&Hov). destruct (proj1 (segs_in_spec i (segs m) v (segs_wf m)))
        as (x&?&?); [|eauto].
      apply list_elem_of_fmap. exists (a, v). split; [done|].
      apply list_elem_of_filter. split; [done|by apply list_elem_of_In].
    + intros (x&Hx&v&Hv). assert (v ∈ (segs_in i (segs m)).*2) as Hin.
      { apply segs_in_spec; [apply segs_wf|eauto]. }
      apply list_elem_of_fmap in Hin as (p&_&[??]%list_elem_of_filter).
      exists p. by rewrite <-list_elem_of_In.
  - apply segs_at_assign.
Qed.

(** ** Sets *)

Fixpoint runs_okb (b : Z) (l : list ival) : bool :=
  match l with
  | [] => true
  | i :: l' => (b + 1 <? lower i) && (lower i <=? upper i) && runs_okb (upper i) l'
  end.
Definition runs_ok (l : list ival) : bool :=
  match l with
  | [] => true
  | i :: _ => runs_okb (lower i - 2) l
  end.

Definition runs_mem (l : list ival) (x : Z) : bool := existsb (ival_memb x) l.

(** Joins the interval with every run it overlaps or touches. *)
Fixpoint runs_join (i : ival) (l : list ival) : list ival :=
  match l with
  | [] => [i]
  | a :: l' =>
      if upper i + 1 <? lower a then i :: l
      else if upper a + 1 <? lower i then a :: runs_join i l'
      else runs_join (Ival (Z.min (lower i) (lower a)) (Z.max (upper i) (upper a))) l'
  end.
Definition runs_add (i : ival) (l : list ival) : list ival :=
  if lower i <=? upper i then runs_join i l else l.
Definition runs_within (i : ival) (l : list ival) : bool :=
  (upper i <? lower i)
  || existsb (λ a, (lower a <=? lower i) && (upper i <=? upper a)) l.

(** What is left of the run [a] once [i] is cut out, followed by [l]. *)
Definition run_cut (i a : ival) (l : list ival) : list ival :=
  let l' := if upper i <? upper a then Ival (Z.max (lower a) (upper i + 1)) (upper a) :: l else l in
  if lower a <? lower i then Ival (lower a) (Z.min (upper a) (lower i - 1)) :: l' else l'.
Fixpoint runs_cut (i : ival) (l : list ival) : list ival :=
  match l with [] => [] | a :: l' => run_cut i a (runs_cut i l') end.
Definition runs_erase (i : ival) (l : list ival) : list ival :=
  if lower i <=? upper i then runs_cut i l else l.

Lemma runs_okb_weaken b b' l : b' ≤ b → runs_okb b l = true → runs_okb b' l = true.
Proof. destruct l as [|i l]; simpl; [done|]. lia. Qed.
Lemma runs_ok_bound l : runs_ok l = true ↔ ∃ b, runs_okb b l = true.
Proof.
  destruct l as [|i l]; simpl; [split; [by exists 0|done]|].
  split; [eauto|]. intros [b H]. lia.
Qed.
Lemma runs_okb_join b i l :
  lower i ≤ upper i → b + 1 < lower i → runs_okb b l = true →
  runs_okb b (runs_join i l) = true.
Proof.
  revert b i. induction l as [|a l IH]; intros b i Hi Hb Hl; simpl in *; [lia|].
  repeat case_match; simpl; [lia|..].
  - rewrite IH; lia.
  - apply IH; simpl; [lia..|]. eapply (runs_okb_weaken (upper a)); lia.
Qed.
Lemma runs_mem_join i l x :
  lower i ≤ upper i → runs_mem (runs_join i l) x = true ↔ x ∈ i ∨ runs_mem l x = true.
Proof.
  unfold runs_mem. revert i. induction l as [|a l IH]; intros i Hi; simpl.
  { rewrite orb_false_r, ival_memb_spec. split; [by left|by intros [?|?]]. }
  destruct (upper i + 1 <? lower a) eqn:?, (upper a + 1 <? lower i) eqn:?;
    simpl; rewrite ?orb_true_iff, ?IH, ?ival_memb_spec by (simpl; lia); try tauto.
  unfold elem_of, ival_elem_of. simpl.
  destruct (existsb (ival_memb x) l); [tauto|]. lia.
Qed.
Lemma runs_okb_gt b l x : runs_okb b l = true → runs_mem l x = true → b + 1 < x.
Proof.
  unfold runs_mem. revert b. induction l as [|a l IH]; intros b; simpl; [done|].
  rewrite orb_true_iff. intros Hl [Hx|Hx].
  - unfold ival_memb in Hx. lia.
  - apply (IH (upper a)) in Hx; lia.
Qed.
Lemma runs_okb_elem b l a : runs_okb b l = true → a ∈ l → b + 1 < lower a ∧ lower a ≤ upper a.
Proof.
  revert b. induction l as [|c l IH]; intros b; [by intros _ ?%not_elem_of_nil|]. simpl.
  intros Hl [->|Ha]%elem_of_cons; [lia|]. apply (IH (upper c)) in Ha; lia.
Qed.
(** A run is followed by a gap. *)
Lemma runs_okb_gap b l a : runs_okb b l = true → a ∈ l → runs_mem l (upper a + 1) = false.
Proof.
  revert b. induction l as [|c l IH]; intros b; [by intros _ ?%not_elem_of_nil|]. simpl.
  intros Hl Ha. unfold runs_mem. simpl. apply orb_false_iff.
  assert (runs_okb (upper c) l = true) as Hl' by lia.
  apply elem_of_cons in Ha as [->|Ha].
  - split; [unfold ival_memb; lia|]. apply not_true_iff_false. intros H.
    apply (runs_okb_gt (upper c)) in H; [lia|done].
  - split; [|by eapply IH]. apply (runs_okb_elem (upper c)) in Ha; [|done].
    unfold ival_memb. lia.
Qed.
Lemma runs_mem_elem l x : runs_mem l x = true ↔ ∃ a, a ∈ l ∧ x ∈ a.
Proof.
  unfold runs_mem. rewrite existsb_exists. split; intros (a&Ha&Hx); exists a.
  - by rewrite list_elem_of_In, <-ival_memb_spec.
  - by rewrite <-list_elem_of_In, ival_memb_spec.
Qed.
Lemma runs_within_spec i l :
  runs_ok l = true → runs_within i l = true ↔ ∀ x, x ∈ i → runs_mem l x = true.
Proof.
  intros [b Hl]%runs_ok_bound. unfold runs_within. rewrite orb_true_iff, existsb_exists.
  split.
  - intros [Hi|(a&Ha&Hia)] x Hx; unfold elem_of, ival_elem_of in Hx; [lia|].
    apply runs_mem_elem. exists a. rewrite list_elem_of_In. split; [done|].
    unfold elem_of, ival_elem_of. lia.
  - intros H. destruct (Z.lt_ge_cases (upper i) (lower i)); [left; lia|right].
    destruct (proj1 (runs_mem_elem l (lower i))) as (a&Ha&Hx).
    { apply H. unfold elem_of, ival_elem_of. lia. }
    exists a. rewrite <-list_elem_of_In. split; [done|].
    unfold elem_of, ival_elem_of in Hx.
    destruct (Z.le_gt_cases (upper i) (upper a)); [lia|].
    apply (runs_okb_gap b) in Ha; [|done]. rewrite H in Ha; [done|].
    unfold elem_of, ival_elem_of. lia.
Qed.
Lemma runs_okb_separated b l : runs_okb b l = true → separated l.
Proof.
  revert b. induction l as [|a [|c l] IH]; intros b; [done..|]. simpl in *. intros Hl.
  split; [lia|]. apply (IH (upper a)). lia.
Qed.

Record seg_set := SegSet { runs : list ival; runs_wf : runs_ok runs = true }.

Lemma runs_ok_add i l : runs_ok l = true → runs_ok (runs_add i l) = true.
Proof.
  unfold runs_add. destruct (lower i <=? upper i) eqn:?; [|done].
  rewrite !runs_ok_bound. intros [b Hl]. exists (Z.min b (lower i - 2)).
  apply runs_okb_join; [lia..|]. eapply runs_okb_weaken; [|done]. lia.
Qed.

Lemma runs_okb_cut b i l :
  lower i ≤ upper i → runs_okb b l = true → runs_okb b (runs_cut i l) = true.
Proof.
  intros Hi. revert b. induction l as [|a l IH]; [done|]. intros b.
  simpl. rewrite !andb_true_iff. intros [[??] Hl%(IH (upper a))]. unfold run_cut.
  repeat case_match; simpl; rewrite ?andb_true_iff;
    repeat match goal with |- _ ∧ _ => split end; try lia;
    (eapply runs_okb_weaken; [|eassumption]); lia.
Qed.
Lemma runs_ok_erase i l : runs_ok l = true → runs_ok (runs_erase i l) = true.
Proof.
  unfold runs_erase. destruct (lower i <=? upper i) eqn:?; [|done].
  rewrite !runs_ok_bound. intros [b Hl]. exists b. apply runs_okb_cut; [lia|done].
Qed.
Lemma runs_mem_erase i l x :
  runs_mem (runs_erase i l) x = negb (ival_memb x i) && runs_mem l x.
Proof.
  unfold runs_erase, runs_mem. destruct (lower i <=? upper i) eqn:Hi.
  - induction l as [|a l IH]; simpl; [by rewrite andb_false_r|].
    unfold run_cut, ival_memb in *. repeat case_match; simpl; rewrite IH; lia.
  - assert (ival_memb x i = false) as -> by (unfold ival_memb; lia). done.
Qed.

#[export] Instance seg_set_IntervalSet : IntervalSet seg_set := {|
  is_empty := SegSet [] eq_refl;
  is_mem s := runs_mem (runs s);
  is_add s i := SegSet (runs_add i (runs s)) (runs_ok_add i _ (runs_wf s));
  is_erase s i := SegSet (runs_erase i (runs s)) (runs_ok_erase i _ (runs_wf s));
  is_within i s := runs_within i (runs s);
  is_segments := runs;
|}.

#[export] Instance seg_set_laws : IntervalSetLaws seg_set.
Proof.
  split; simpl.
  - done.
  - intros s i x. apply eq_true_iff_eq. unfold runs_add. destruct (lower i <=? upper i) eqn:E.
    + rewrite runs_mem_join, orb_true_iff, ival_memb_spec by lia. done.
    + unfold ival_memb. rewrite orb_true_iff. lia.
  - intros s i x. apply runs_mem_erase.
  - intros i s. apply runs_within_spec, runs_wf.
  - intros s x. apply runs_mem_elem.
  - intros s i Hi. destruct (proj1 (runs_ok_bound _) (runs_wf s)) as [b Hb].
    by apply (runs_okb_elem b _ _ Hb).
  - intros s. destruct (proj1 (runs_ok_bound _) (runs_wf s)) as [b Hb].
    by eapply runs_okb_separated.
Qed.
