(* ===== verification/ShadowPM.v ===== *)
(** * The shadow memory

    [src/xfdetector/src/shadow_pm.cc] and the class [ShadowPM] of
    [src/xfdetector/include/xfdetector.hh]: for every byte of persistent
    memory its status, the time of its last modification, the instruction that
    wrote it, and per thread the bytes added to the running transaction.  The
    methods are computations over a [world]: the shadow memory and what the
    program has reported so far. *)
From stdpp Require Import base list strings gmap.
From S2P Require Import Prelude Trace Icl.
Open Scope Z_scope.

(** [enum PMStatus]. *)
Inductive PMStatus := CLEAN | MODIFIED | WRITEBACK_PENDING | WRITTEN_BACK | CONSISTENT.

#[export] Instance PMStatus_eq_dec : EqDecision PMStatus.
Proof. solve_decision. Defined.

Definition status_eqb (a b : PMStatus) : bool := bool_decide (a = b).

(** [it.second == CONSISTENT || it.second == CLEAN] *)
Definition clean_or_consistent (st : PMStatus) : bool :=
  status_eqb st CONSISTENT || status_eqb st CLEAN.

(** What the program tells its user: the entries pushed on [error_vec] and
    [warn_vec] ([Bug_t]), and the messages printed on [cerr], one constructor
    per message.  [Backtrace ip stage] is a call of
    [print_IP_linenumber_mapping(ip, stage)]. *)
Inductive report :=
  | ErrorVec (op : trace_entry_t) (description : string)
  | WarnVec (op : trace_entry_t) (description : string)
  | Backtrace (ip : Z) (stage : Z)
  | UnnecessaryFlush (addr size ip : Z)
  | TxAddNeverModified (addr size : Z)
  | PreviouslyAddedByTxAdd (ip : Z)
  | PreviouslyAddedByTxAlloc (ip : Z)
  | TxAddAfterModification (ip addr : Z)
  | TxAddAlreadyAdded (ip addr size : Z)
  | AddedByTxAdd (ip : Z)
  | AddedByTxAlloc (ip : Z)
  | UpdatingCommitVar (timestamp : Z)
  | ConsistencyBug
  | WriteIP (ip : Z)
  | InconsistentReadAt (addr size : Z)
  | ReadIP (ip : Z)
  | NotPersistedBeforeFailure
  | NotPersistedBeforeCommitVar
  | OtherInconsistency
  | ModifyBeforeTxAdd (ip addr : Z)
  | FailurePointIP (ip : Z)
  | InvalidOps.

#[export] Instance report_eq_dec : EqDecision report.
Proof. solve_decision. Defined.

Section ShadowPM.
Context {imap : Type → Type} {IM : IntervalMap imap} {iset : Type} {IS : IntervalSet iset}.

(** ** State *)

Record ShadowPM := MkShadowPM {
  commit_var_set_addr : iset;
  write_addr_IP_mapping : imap Z;
  global_timestamp : Z;
  pm_status : imap PMStatus;
  pm_modify_timestamps : imap Z;
  pre_InternalFunctLevel : list Z;
  tx_added_addr : list iset;
  tx_alloc_addr_IP_mapping : list (imap Z);
  tx_added_addr_IP_mapping : list (imap Z);
  tx_non_added_write_addr : list iset;
  tx_level : list Z;
  checked_addr_set : gset Z;
  skipDetectionStatus : list Z;
  commit_timestamp : Z;
}.

Definition set_commit_var_set_addr (f : iset → iset) (s : ShadowPM) : ShadowPM :=
  MkShadowPM
    (f (commit_var_set_addr s)) (write_addr_IP_mapping s) (global_timestamp s)
    (pm_status s) (pm_modify_timestamps s) (pre_InternalFunctLevel s)
    (tx_added_addr s) (tx_alloc_addr_IP_mapping s) (tx_added_addr_IP_mapping s)
    (tx_non_added_write_addr s) (tx_level s) (checked_addr_set s)
    (skipDetectionStatus s) (commit_timestamp s).
Definition set_write_addr_IP_mapping (f : imap Z → imap Z) (s : ShadowPM) : ShadowPM :=
  MkShadowPM
    (commit_var_set_addr s) (f (write_addr_IP_mapping s)) (global_timestamp s)
    (pm_status s) (pm_modify_timestamps s) (pre_InternalFunctLevel s)
    (tx_added_addr s) (tx_alloc_addr_IP_mapping s) (tx_added_addr_IP_mapping s)
    (tx_non_added_write_addr s) (tx_level s) (checked_addr_set s)
    (skipDetectionStatus s) (commit_timestamp s).
Definition set_global_timestamp (f : Z → Z) (s : ShadowPM) : ShadowPM :=
  MkShadowPM
    (commit_var_set_addr s) (write_addr_IP_mapping s) (f (global_timestamp s))
    (pm_status s) (pm_modify_timestamps s) (pre_InternalFunctLevel s)
    (tx_added_addr s) (tx_alloc_addr_IP_mapping s) (tx_added_addr_IP_mapping s)
    (tx_non_added_write_addr s) (tx_level s) (checked_addr_set s)
    (skipDetectionStatus s) (commit_timestamp s).
Definition set_pm_status (f : imap PMStatus → imap PMStatus) (s : ShadowPM) : ShadowPM :=
  MkShadowPM
    (commit_var_set_addr s) (write_addr_IP_mapping s) (global_timestamp s)
    (f (pm_status s)) (pm_modify_timestamps s) (pre_InternalFunctLevel s)
    (tx_added_addr s) (tx_alloc_addr_IP_mapping s) (tx_added_addr_IP_mapping s)
    (tx_non_added_write_addr s) (tx_level s) (checked_addr_set s)
    (skipDetectionStatus s) (commit_timestamp s).
Definition set_pm_modify_timestamps (f : imap Z → imap Z) (s : ShadowPM) : ShadowPM :=
  MkShadowPM
    (commit_var_set_addr s) (write_addr_IP_mapping s) (global_timestamp s)
    (pm_status s) (f (pm_modify_timestamps s)) (pre_InternalFunctLevel s)
    (tx_added_addr s) (tx_alloc_addr_IP_mapping s) (tx_added_addr_IP_mapping s)
    (tx_non_added_write_addr s) (tx_level s) (checked_addr_set s)
    (skipDetectionStatus s) (commit_timestamp s).
Definition set_pre_InternalFunctLevel (f : list Z → list Z) (s : ShadowPM) : ShadowPM :=
  MkShadowPM
    (commit_var_set_addr s) (write_addr_IP_mapping s) (global_timestamp s)
    (pm_status s) (pm_modify_timestamps s) (f (pre_InternalFunctLevel s))
    (tx_added_addr s) (tx_alloc_addr_IP_mapping s) (tx_added_addr_IP_mapping s)
    (tx_non_added_write_addr s) (tx_level s) (checked_addr_set s)
    (skipDetectionStatus s) (commit_timestamp s).
Definition set_tx_added_addr (f : list iset → list iset) (s : ShadowPM) : ShadowPM :=
  MkShadowPM
    (commit_var_set_addr s) (write_addr_IP_mapping s) (global_timestamp s)
    (pm_status s) (pm_modify_timestamps s) (pre_InternalFunctLevel s)
    (f (tx_added_addr s)) (tx_alloc_addr_IP_mapping s)
    (tx_added_addr_IP_mapping s) (tx_non_added_write_addr s) (tx_level s)
    (checked_addr_set s) (skipDetectionStatus s) (commit_timestamp s).
Definition set_tx_alloc_addr_IP_mapping (f : list (imap Z) → list (imap Z)) (s : ShadowPM) : ShadowPM :=
  MkShadowPM
    (commit_var_set_addr s) (write_addr_IP_mapping s) (global_timestamp s)
    (pm_status s) (pm_modify_timestamps s) (pre_InternalFunctLevel s)
    (tx_added_addr s) (f (tx_alloc_addr_IP_mapping s))
    (tx_added_addr_IP_mapping s) (tx_non_added_write_addr s) (tx_level s)
    (checked_addr_set s) (skipDetectionStatus s) (commit_timestamp s).
Definition set_tx_added_addr_IP_mapping (f : list (imap Z) → list (imap Z)) (s : ShadowPM) : ShadowPM :=
  MkShadowPM
    (commit_var_set_addr s) (write_addr_IP_mapping s) (global_timestamp s)
    (pm_status s) (pm_modify_timestamps s) (pre_InternalFunctLevel s)
    (tx_added_addr s) (tx_alloc_addr_IP_mapping s)
    (f (tx_added_addr_IP_mapping s)) (tx_non_added_write_addr s) (tx_level s)
    (checked_addr_set s) (skipDetectionStatus s) (commit_timestamp s).
Definition set_tx_non_added_write_addr (f : list iset → list iset) (s : ShadowPM) : ShadowPM :=
  MkShadowPM
    (commit_var_set_addr s) (write_addr_IP_mapping s) (global_timestamp s)
    (pm_status s) (pm_modify_timestamps s) (pre_InternalFunctLevel s)
    (tx_added_addr s) (tx_alloc_addr_IP_mapping s) (tx_added_addr_IP_mapping s)
    (f (tx_non_added_write_addr s)) (tx_level s) (checked_addr_set s)
    (skipDetectionStatus s) (commit_timestamp s).
Definition set_tx_level (f : list Z → list Z) (s : ShadowPM) : ShadowPM :=
  MkShadowPM
    (commit_var_set_addr s) (write_addr_IP_mapping s) (global_timestamp s)
    (pm_status s) (pm_modify_timestamps s) (pre_InternalFunctLevel s)
    (tx_added_addr s) (tx_alloc_addr_IP_mapping s) (tx_added_addr_IP_mapping s)
    (tx_non_added_write_addr s) (f (tx_level s)) (checked_addr_set s)
    (skipDetectionStatus s) (commit_timestamp s).
Definition set_checked_addr_set (f : gset Z → gset Z) (s : ShadowPM) : ShadowPM :=
  MkShadowPM
    (commit_var_set_addr s) (write_addr_IP_mapping s) (global_timestamp s)
    (pm_status s) (pm_modify_timestamps s) (pre_InternalFunctLevel s)
    (tx_added_addr s) (tx_alloc_addr_IP_mapping s) (tx_added_addr_IP_mapping s)
    (tx_non_added_write_addr s) (tx_level s) (f (checked_addr_set s))
    (skipDetectionStatus s) (commit_timestamp s).
Definition set_skipDetectionStatus (f : list Z → list Z) (s : ShadowPM) : ShadowPM :=
  MkShadowPM
    (commit_var_set_addr s) (write_addr_IP_mapping s) (global_timestamp s)
    (pm_status s) (pm_modify_timestamps s) (pre_InternalFunctLevel s)
    (tx_added_addr s) (tx_alloc_addr_IP_mapping s) (tx_added_addr_IP_mapping s)
    (tx_non_added_write_addr s) (tx_level s) (checked_addr_set s)
    (f (skipDetectionStatus s)) (commit_timestamp s).
Definition set_commit_timestamp (f : Z → Z) (s : ShadowPM) : ShadowPM :=
  MkShadowPM
    (commit_var_set_addr s) (write_addr_IP_mapping s) (global_timestamp s)
    (pm_status s) (pm_modify_timestamps s) (pre_InternalFunctLevel s)
    (tx_added_addr s) (tx_alloc_addr_IP_mapping s) (tx_added_addr_IP_mapping s)
    (tx_non_added_write_addr s) (tx_level s) (checked_addr_set s)
    (skipDetectionStatus s) (f (commit_timestamp s)).

(** The default constructor. *)
Definition new_ShadowPM : ShadowPM := MkShadowPM
  is_empty im_empty 0 im_empty im_empty (replicate MAX_THREADS 0)
  (replicate MAX_THREADS is_empty) (replicate MAX_THREADS im_empty)
  (replicate MAX_THREADS im_empty) (replicate MAX_THREADS is_empty)
  (replicate MAX_THREADS 0) ∅ (replicate MAX_THREADS 0) (-1).

(** The copy constructor.  [skipDetectionStatus] has no initializer and is not
    assigned, so the copy holds whatever the memory held: [garbage].  The map
    of TX_ALLOC instructions is filled from the map of TX_ADD instructions. *)
Definition copy_ShadowPM (garbage : list Z) (s : ShadowPM) : ShadowPM := MkShadowPM
  (commit_var_set_addr s) (write_addr_IP_mapping s) (global_timestamp s)
  (pm_status s) (pm_modify_timestamps s) (replicate MAX_THREADS 0)
  (tx_added_addr s) (tx_added_addr_IP_mapping s)
  (tx_added_addr_IP_mapping s) (tx_non_added_write_addr s)
  (replicate MAX_THREADS 0) ∅ garbage (commit_timestamp s).

Record world := World { shadow : ShadowPM; reports : list report }.

Definition say (r : report) : M world unit :=
  modify (λ w, World (shadow w) (reports w ++ [r])).
Definition upd (f : ShadowPM → ShadowPM) : M world unit :=
  modify (λ w, World (f (shadow w)) (reports w)).
Definition look {A} (f : ShadowPM → A) : M world A := gets (λ w, f (shadow w)).
Definition load_sh {A} (f : ShadowPM → list A) (i : Z) : M world A :=
  load (λ w, f (shadow w)) i.
(** [array\[i\] = a] *)
Definition store_sh {A} (f : ShadowPM → list A)
    (set : (list A → list A) → ShadowPM → ShadowPM) (i : Z) (a : A) : M world unit :=
  load_sh f i ;; upd (set (λ l, arr_upd l i a)).

Definition nonzero (x : Z) : bool := negb (x =? 0).

(** [XFD_ASSERT(size && addr)] *)
Definition assert_range (addr size : Z) : M world unit :=
  assert_ (nonzero size && nonzero addr) "size && addr".

(** ** Checking methods *)

Definition is_pm_addr (addr size : Z) : bool :=
  (u64 (addr + size) <? PM_ADDR_SIZE + PM_ADDR_BASE) && (PM_ADDR_BASE <=? addr).

(** [if (!is_pm_addr(...)) ERROR(op_ptr, message)] *)
Definition error_unless_pm (op : trace_entry_t) (addr size : Z) (message : string)
    : M world unit :=
  when (negb (is_pm_addr addr size)) (say (ErrorVec op message)).

Definition is_consistent (op : trace_entry_t) (addr size : Z) : M world bool :=
  assert_range addr size ;;
  error_unless_pm op addr size "Check non-PM address" ;;
  let! m := look pm_status in
  ret (forallb clean_or_consistent (MAP_LOOKUP m addr size)).

Definition is_writtenback (op : trace_entry_t) (addr size : Z) : M world bool :=
  assert_range addr size ;;
  error_unless_pm op addr size "Check non-PM address" ;;
  let! m := look pm_status in
  ret (forallb (λ st, status_eqb st WRITTEN_BACK) (MAP_LOOKUP m addr size)).

(** ** Update methods *)

Definition add_pm_addr (op : trace_entry_t) (addr size : Z) : M world unit :=
  assert_range addr size ;;
  let! m := look pm_status in
  when (MAP_INTERSECT m addr size)
    (say (ErrorVec op "Allocate on existing PM locations")) ;;
  upd (set_pm_status (λ m, MAP_UPDATE m addr size CLEAN)).

Definition add_pm_addr_post (op : trace_entry_t) (addr size : Z) : M world unit :=
  assert_range addr size.

Definition remove_pm_addr (op : trace_entry_t) (addr size : Z) : M world unit :=
  assert_range addr size ;;
  error_unless_pm op addr size "Deallocating unallocated memory" ;;
  upd (set_pm_status (λ m, MAP_REMOVE m addr size)).

Definition writeback_addr (op : trace_entry_t) (addr size : Z) : M world unit :=
  let! m := look pm_status in
  for_each (MAP_LOOKUP m addr size) (λ st,
    when (status_eqb st WRITEBACK_PENDING)
      (say (WarnVec op "Unnecessary writeback") ;;
       say (UnnecessaryFlush addr size (instr_ptr op)) ;;
       say (Backtrace (instr_ptr op) PRE_FAILURE))) ;;
  upd (set_pm_status (λ m, MAP_UPDATE m addr size WRITEBACK_PENDING)).

(** [WRITEBACK_PENDING] becomes [WRITTEN_BACK]; [drain_count] has no effect. *)
Definition drain (st : PMStatus) : PMStatus :=
  if status_eqb st WRITEBACK_PENDING then WRITTEN_BACK else st.
Definition drain_writeback (op : trace_entry_t) : M world unit :=
  upd (set_pm_status (im_assign drain)).

Definition modify_addr (op : trace_entry_t) (addr size : Z) : M world unit :=
  assert_range addr size ;;
  error_unless_pm op addr size "Modify non-PM address" ;;
  upd (set_pm_status (λ m, MAP_UPDATE m addr size MODIFIED)) ;;
  let! t := look global_timestamp in
  upd (set_pm_modify_timestamps (λ m, MAP_UPDATE m addr size t)).

Definition set_consistent_addr (op : trace_entry_t) (addr size : Z) : M world unit :=
  assert_range addr size ;;
  error_unless_pm op addr size "Non-PM address is never consistent" ;;
  upd (set_pm_status (λ m, MAP_UPDATE m addr size CONSISTENT)).

(** [++] on an [int]. *)
Definition incr_int (x : Z) : M world Z :=
  if x =? INT_MAX then stop (UndefinedBehaviour "signed integer overflow")
  else ret (x + 1).

Definition increment_global_time : M world unit :=
  let! t := look global_timestamp in
  let! t' := incr_int t in
  upd (set_global_timestamp (λ _, t')).

(** ** Levels of library calls and of transactions *)

Definition reset_internal_funct_level (tid : Z) : M world unit :=
  store_sh pre_InternalFunctLevel set_pre_InternalFunctLevel tid 0.

Definition increment_pre_internal_funct_level (tid : Z) : M world unit :=
  let! n := load_sh pre_InternalFunctLevel tid in
  let! n' := incr_int n in
  store_sh pre_InternalFunctLevel set_pre_InternalFunctLevel tid n'.

Definition decrement_pre_internal_funct_level (tid : Z) : M world unit :=
  let! n := load_sh pre_InternalFunctLevel tid in
  assert_ (0 <? n) "internal funct level < 0" ;;
  store_sh pre_InternalFunctLevel set_pre_InternalFunctLevel tid (n - 1).

Definition is_in_pre_internal_funct (tid : Z) : M world bool :=
  let! n := load_sh pre_InternalFunctLevel tid in ret (0 <? n).

Definition increment_tx_level (tid stage : Z) : M world unit :=
  let! n := load_sh tx_level tid in
  let! n' := incr_int n in
  store_sh tx_level set_tx_level tid n'.

Definition is_in_tx (tid : Z) : M world bool :=
  let! n := load_sh tx_level tid in ret (0 <? n).

(** A [for] over the segments of a lookup that stops after the first one. *)
Definition say_first (l : list Z) (message : Z → report) : M world unit :=
  match l with
  | [] => ret tt
  | ip :: _ => say (message ip) ;; say (Backtrace ip PRE_FAILURE)
  end.

(** The body of the commit loop of [decrement_tx_level] for one interval. *)
Definition commit_interval (tid stage : Z) (i : ival) : M world unit :=
  when (stage =? PRE_FAILURE)
    (let size := u64 (upper i - lower i + 1) in
     let addr := lower i in
     let! m := look pm_status in
     when (forallb clean_or_consistent (MAP_LOOKUP m addr size))
       (say (TxAddNeverModified addr size) ;;
        let! added := load_sh tx_added_addr_IP_mapping tid in
        say_first (MAP_LOOKUP added addr size) PreviouslyAddedByTxAdd ;;
        let! alloced := load_sh tx_alloc_addr_IP_mapping tid in
        say_first (MAP_LOOKUP alloced addr size) PreviouslyAddedByTxAlloc)) ;;
  upd (set_pm_status (λ m, MAP_UPDATE_INTERVAL m i CONSISTENT)).

Definition decrement_tx_level (tid stage : Z) : M world unit :=
  let! n := load_sh tx_level tid in
  assert_ (0 <? n) "tx_level[tid]>0" ;;
  store_sh tx_level set_tx_level tid (n - 1) ;;
  when (n - 1 =? 0)
    (let! added := load_sh tx_added_addr tid in
     for_each (is_segments added) (commit_interval tid stage) ;;
     store_sh tx_added_addr set_tx_added_addr tid is_empty ;;
     store_sh tx_added_addr_IP_mapping set_tx_added_addr_IP_mapping tid im_empty ;;
     store_sh tx_alloc_addr_IP_mapping set_tx_alloc_addr_IP_mapping tid im_empty ;;
     store_sh tx_non_added_write_addr set_tx_non_added_write_addr tid is_empty).

(** ** Addresses of the running transaction *)

Definition is_added_addr (op : trace_entry_t) (addr size : Z) : M world bool :=
  let! s := load_sh tx_added_addr (tid op) in ret (SET_LOOKUP s addr size).

Definition is_non_added_write_addr (op : trace_entry_t) (addr size : Z) : M world bool :=
  let! s := load_sh tx_non_added_write_addr (tid op) in ret (SET_LOOKUP s addr size).

Definition add_tx_add_addr (op : trace_entry_t) (addr size stage : Z) (alloc : bool)
    : M world unit :=
  let! late := is_non_added_write_addr op addr size in
  when late
    (say (TxAddAfterModification (instr_ptr op) addr) ;;
     say (Backtrace (instr_ptr op) PRE_FAILURE)) ;;
  let! again := is_added_addr op addr size in
  when again (when (stage =? PRE_FAILURE)
    (say (TxAddAlreadyAdded (instr_ptr op) addr size) ;;
     say (Backtrace (instr_ptr op) PRE_FAILURE) ;;
     let! added := load_sh tx_added_addr_IP_mapping (tid op) in
     say_first (MAP_LOOKUP added addr size) AddedByTxAdd ;;
     let! alloced := load_sh tx_alloc_addr_IP_mapping (tid op) in
     say_first (MAP_LOOKUP alloced addr size) AddedByTxAlloc)) ;;
  assert_ (nonzero addr && nonzero size) "TX_ADD-ed address/size should not be zero" ;;
  let! s := load_sh tx_added_addr (tid op) in
  store_sh tx_added_addr set_tx_added_addr (tid op) (SET_INSERT s addr size) ;;
  if negb alloc then
    let! m := load_sh tx_added_addr_IP_mapping (tid op) in
    store_sh tx_added_addr_IP_mapping set_tx_added_addr_IP_mapping (tid op)
      (MAP_UPDATE m addr size (instr_ptr op))
  else
    let! m := load_sh tx_alloc_addr_IP_mapping (tid op) in
    store_sh tx_alloc_addr_IP_mapping set_tx_alloc_addr_IP_mapping (tid op)
      (MAP_UPDATE m addr size (instr_ptr op)).

Definition add_non_tx_add_addr (op : trace_entry_t) (addr size : Z) : M world unit :=
  let! s := load_sh tx_non_added_write_addr (tid op) in
  store_sh tx_non_added_write_addr set_tx_non_added_write_addr (tid op)
    (SET_INSERT s addr size).

Definition get_tx_added_addr (tid : Z) : M world iset := load_sh tx_added_addr tid.

(** ** Commit variables *)

Definition add_commit_var_addr (op : trace_entry_t) (addr size : Z) : M world unit :=
  upd (set_commit_var_set_addr (λ s, SET_INSERT s addr size)).

Definition is_commit_var_addr (op : trace_entry_t) (addr size : Z) : M world bool :=
  look (λ s, SET_LOOKUP (commit_var_set_addr s) addr size).

(** [maxTimeStamp], the loop over the modification times of a range. *)
Definition max_timestamp (l : list Z) : Z :=
  fold_left (λ m t, if m >? t then m else t) l (-2).

Definition is_recent_commit_update (op : trace_entry_t) (addr size : Z) : M world bool :=
  let! m := look pm_modify_timestamps in
  let! c := look commit_timestamp in
  if c <? 0 then ret true
  else ret (c >? max_timestamp (MAP_LOOKUP m addr size)).

Definition update_commitVar_timestamp : M world unit :=
  let! t := look global_timestamp in
  say (UpdatingCommitVar t) ;;
  upd (set_commit_timestamp (λ _, t)).

(** ** Origins of writes *)

Definition add_write_addr_IP_mapping (op : trace_entry_t) : M world unit :=
  assert_ (bool_decide (operation op = WRITE)) "op_ptr->operation == WRITE" ;;
  assert_ (nonzero (dst_addr op) && nonzero (size op)) "addr && size" ;;
  upd (set_write_addr_IP_mapping
    (λ m, MAP_UPDATE m (dst_addr op) (size op) (instr_ptr op))).

Definition print_look_up_write_addr_IP_mapping (op : trace_entry_t) (addr size : Z)
    : M world bool :=
  assert_ (bool_decide (operation op = READ)) "op_ptr->operation == READ" ;;
  assert_ (nonzero addr && nonzero size) "addr && size" ;;
  say ConsistencyBug ;;
  let! m := look write_addr_IP_mapping in
  for_each (MAP_LOOKUP m addr size)
    (λ ip, say (WriteIP ip) ;; say (Backtrace ip PRE_FAILURE)) ;;
  ret (negb (Nat.eqb (length (MAP_LOOKUP m addr size)) 0)).

Definition printInconsistentReadDebug (cur_trace : trace_entry_t) : M world bool :=
  let! isAddrFound :=
    print_look_up_write_addr_IP_mapping cur_trace (src_addr cur_trace) (size cur_trace) in
  when isAddrFound
    (say (InconsistentReadAt (src_addr cur_trace) (size cur_trace)) ;;
     say (ReadIP (instr_ptr cur_trace)) ;;
     say (Backtrace (instr_ptr cur_trace) POST_FAILURE)) ;;
  ret isAddrFound.

(** ** The filter of checked reads *)

Definition checked_key (addr size : Z) : Z := Z.lor (u64 (Z.shiftl addr 16)) size.

Definition lookup_checked_addr (addr size : Z) : M world bool :=
  assert_ (nonzero addr && nonzero size) "addr && size" ;;
  assert_ (size <? Z.shiftl 1 16) "size<(1<<16)" ;;
  look (λ s, bool_decide (checked_key addr size ∈ checked_addr_set s)).

Definition insert_checked_addr (addr size : Z) : M world unit :=
  assert_ (nonzero addr && nonzero size) "addr && size" ;;
  upd (set_checked_addr_set (λ c, {[checked_key addr size]} ∪ c)).

(** ** Skipping the detection *)

Definition disable_detection (tid : Z) : M world unit :=
  store_sh skipDetectionStatus set_skipDetectionStatus tid 1.
Definition enable_detection (tid : Z) : M world unit :=
  store_sh skipDetectionStatus set_skipDetectionStatus tid 0.
Definition is_detection_disabled (tid : Z) : M world bool :=
  let! n := load_sh skipDetectionStatus tid in ret (n =? 1).
End ShadowPM.

Global Arguments ShadowPM imap iset : clear implicits.
Global Arguments world imap iset : clear implicits.
