(* ===== verification/ShadowFacts.v ===== *)
(** * What the methods of the shadow memory do

    One rule per method of [ShadowPM]: when it returns, the shadow memory it
    leaves, and that what it reported on the way is no cross-failure bug; when
    it stops, why.  The rules are in continuation style and drive the tactic
    [shadow_steps], which executes a handler symbolically. *)
From stdpp Require Import base list strings gmap.
From S2P Require Import Prelude Trace Icl ShadowPM.
Open Scope Z_scope.

(** [rs'] extends [rs] by reports that are not cross-failure bugs. *)
Definition quiet_ext (rs rs' : list report) : Prop :=
  ∃ l, rs' = rs ++ l ∧ ConsistencyBug ∉ l.

#[export] Instance quiet_ext_preorder : PreOrder quiet_ext.
Proof.
  split.
  - intros rs. exists []. rewrite app_nil_r. split; [done|apply not_elem_of_nil].
  - intros rs1 rs2 rs3 (l1&->&H1) (l2&->&H2). exists (l1 ++ l2).
    rewrite app_assoc. split; [done|]. by rewrite elem_of_app; intros [?|?].
Qed.
Lemma quiet_ext_snoc rs rs' r : r ≠ ConsistencyBug → quiet_ext rs rs' → quiet_ext rs (rs' ++ [r]).
Proof.
  intros Hr H. etrans; [done|]. exists [r]. split; [done|]. by rewrite list_elem_of_singleton.
Qed.

(** The number of cross-failure bugs among the reports. *)
Definition bugs (rs : list report) : nat := length (filter (λ r, r = ConsistencyBug) rs).

Lemma bugs_app rs l : bugs (rs ++ l) = (bugs rs + bugs l)%nat.
Proof. unfold bugs. by rewrite filter_app, length_app. Qed.
Lemma bugs_none l : ConsistencyBug ∉ l → bugs l = 0%nat.
Proof.
  intros Hl. unfold bugs. induction l as [|r l IH]; [done|].
  apply not_elem_of_cons in Hl as [Hr Hl]. rewrite filter_cons_False by congruence. by apply IH.
Qed.
Lemma bugs_here l : bugs (ConsistencyBug :: l) = S (bugs l).
Proof. done. Qed.
Lemma quiet_ext_bugs rs rs' : quiet_ext rs rs' → bugs rs' = bugs rs.
Proof. intros (l&->&Hl). rewrite bugs_app, (bugs_none l) by done. lia. Qed.

Create HintDb quiet discriminated.
#[export] Hint Resolve quiet_ext_snoc : quiet.
#[export] Hint Extern 1 (_ ≠ ConsistencyBug) => discriminate : quiet.
#[export] Hint Extern 1 (quiet_ext ?a ?a) => reflexivity : quiet.
#[export] Hint Extern 3 (quiet_ext _ _) => eassumption : quiet.

(** Chains of extensions, read from the last one back. *)
Ltac quiet_chain :=
  simpl in *;
  match goal with
  | |- quiet_ext ?a ?a => reflexivity
  | |- quiet_ext _ (_ ++ [_]) => apply quiet_ext_snoc; [discriminate|quiet_chain]
  | H : quiet_ext ?b ?c |- quiet_ext ?a ?c =>
      first [exact H | transitivity b; [clear H; quiet_chain|exact H]]
  end.

Section facts.
Context {imap : Type → Type} {IM : IntervalMap imap} {iset : Type} {IS : IntervalSet iset}.
Implicit Types (w : world imap iset) (s : ShadowPM imap iset) (op : trace_entry_t).
Implicit Types (rs : list report) (E : abort_reason → world imap iset → Prop).

Lemma nonzero_true x : nonzero x = true ↔ x ≠ 0.
Proof. unfold nonzero. rewrite negb_true_iff, Z.eqb_neq. done. Qed.

(** ** Reporting *)

Lemma wpe_say r (Q : unit → world imap iset → Prop) E w :
  Q tt (World (shadow w) (reports w ++ [r])) → wpe (say r) Q E w.
Proof. done. Qed.
Lemma wpe_upd f (Q : unit → world imap iset → Prop) E w :
  Q tt (World (f (shadow w)) (reports w)) → wpe (upd f) Q E w.
Proof. done. Qed.
Lemma wpe_look {A} (f : ShadowPM imap iset → A) Q E w : Q (f (shadow w)) w → wpe (look f) Q E w.
Proof. done. Qed.
Lemma wpe_load_sh {A} (f : ShadowPM imap iset → list A) i Q E w :
  (∀ a, arr_ref (f (shadow w)) i = Some a → Q a w) →
  (arr_ref (f (shadow w)) i = None → ∀ e, E e w) → wpe (load_sh f i) Q E w.
Proof. intros. apply wpe_load; eauto. Qed.
Lemma wpe_store_sh {A} (f : ShadowPM imap iset → list A) set i a (Q : unit → _ → Prop) E w :
  (∀ b, arr_ref (f (shadow w)) i = Some b →
     Q tt (World (set (λ l, arr_upd l i a) (shadow w)) (reports w))) →
  (arr_ref (f (shadow w)) i = None → ∀ e, E e w) → wpe (store_sh f set i a) Q E w.
Proof. intros. apply wpe_bind, wpe_load_sh; [|done]. intros b Hb. apply wpe_upd. eauto. Qed.

(** Computations that only report. *)
Definition only_reports (c : M (world imap iset) unit) : Prop :=
  ∀ w, wpe c (λ _ w', shadow w' = shadow w ∧ quiet_ext (reports w) (reports w'))
    (λ _ _, False) w.

Lemma wpe_only_reports c (Q : unit → world imap iset → Prop) E w :
  only_reports c → (∀ rs, quiet_ext (reports w) rs → Q tt (World (shadow w) rs)) → wpe c Q E w.
Proof.
  intros Hc HQ. eapply wpe_mono; [apply Hc| |done]. intros [] [s rs]; simpl; intros [-> Hrs]. auto.
Qed.
Lemma only_reports_ret : only_reports (ret tt).
Proof. intros w. apply wpe_ret. by split. Qed.
Lemma only_reports_say r : r ≠ ConsistencyBug → only_reports (say r).
Proof. intros Hr w. apply wpe_say. simpl. eauto with quiet. Qed.
Lemma only_reports_seq c1 c2 : only_reports c1 → only_reports c2 → only_reports (c1 ;; c2).
Proof.
  intros H1 H2 w. apply wpe_bind, wpe_only_reports; [done|]. intros rs Hrs.
  apply wpe_only_reports; [done|]. simpl. intros rs' Hrs'. split; [done|]. by etrans.
Qed.
Lemma only_reports_when b c : only_reports c → only_reports (when b c).
Proof. destruct b; [done|]. intros _. apply only_reports_ret. Qed.
Lemma only_reports_for_each {A} (l : list A) body :
  (∀ x, only_reports (body x)) → only_reports (for_each l body).
Proof. intros H. induction l; [apply only_reports_ret|by apply only_reports_seq]. Qed.
Lemma only_reports_say_first l message :
  (∀ ip, message ip ≠ ConsistencyBug) → only_reports (say_first l message).
Proof.
  intros H. destruct l; [apply only_reports_ret|].
  apply only_reports_seq; by apply only_reports_say.
Qed.
Lemma only_reports_error_unless_pm op addr size message :
  only_reports (error_unless_pm op addr size message).
Proof. by apply only_reports_when, only_reports_say. Qed.
End facts.

#[export] Hint Resolve only_reports_ret only_reports_say only_reports_seq only_reports_when
  only_reports_for_each only_reports_say_first only_reports_error_unless_pm : quiet.
#[export] Hint Extern 1 (∀ _, _ ≠ ConsistencyBug) => intros ?; discriminate : quiet.
#[export] Hint Extern 1 (∀ _, only_reports _) => intros ? : quiet.

(** ** The effect of each method on the shadow memory *)

Section effects.
Context {imap : Type → Type} {IM : IntervalMap imap} {iset : Type} {IS : IntervalSet iset}.
Implicit Types (s : ShadowPM imap iset).

Definition eff_status (addr size : Z) (st : PMStatus) s : ShadowPM imap iset :=
  set_pm_status (λ m, MAP_UPDATE m addr size st) s.
Definition eff_modify (addr size : Z) s : ShadowPM imap iset :=
  set_pm_modify_timestamps (λ m, MAP_UPDATE m addr size (global_timestamp s))
    (eff_status addr size MODIFIED s).
Definition eff_writer (addr size ip : Z) s : ShadowPM imap iset :=
  set_write_addr_IP_mapping (λ m, MAP_UPDATE m addr size ip) s.
Definition eff_commit_time s : ShadowPM imap iset :=
  set_commit_timestamp (λ _, global_timestamp s) s.
Definition eff_commit_intervals (l : list ival) s : ShadowPM imap iset :=
  set_pm_status (λ m, fold_left (λ m i, MAP_UPDATE_INTERVAL m i CONSISTENT) l m) s.
End effects.

Section methods.
Context {imap : Type → Type} {IM : IntervalMap imap} {iset : Type} {IS : IntervalSet iset}.
Implicit Types (w : world imap iset) (s : ShadowPM imap iset) (op : trace_entry_t).
Implicit Types (rs : list report) (E : abort_reason → world imap iset → Prop).
Implicit Types (Q : unit → world imap iset → Prop) (P : bool → world imap iset → Prop).

Lemma wpe_assert_range addr size Q E w :
  (addr ≠ 0 → size ≠ 0 → Q tt w) → (addr = 0 ∨ size = 0 → ∀ e, E e w) →
  wpe (assert_range addr size) Q E w.
Proof.
  intros HQ HE. apply wpe_assert; unfold nonzero; intros H; [apply HQ|apply HE]; lia.
Qed.

Lemma wpe_is_consistent op addr size P E w :
  (addr ≠ 0 → size ≠ 0 → ∀ rs, quiet_ext (reports w) rs →
     P (forallb clean_or_consistent (MAP_LOOKUP (pm_status (shadow w)) addr size))
       (World (shadow w) rs)) →
  (addr = 0 ∨ size = 0 → ∀ e, E e w) → wpe (is_consistent op addr size) P E w.
Proof.
  intros HP HE. apply wpe_bind, wpe_assert_range; [|done]. intros ??.
  apply wpe_bind, wpe_only_reports; [auto with quiet|]. intros rs ?. by apply HP.
Qed.
Lemma wpe_is_writtenback op addr size P E w :
  (addr ≠ 0 → size ≠ 0 → ∀ rs, quiet_ext (reports w) rs →
     P (forallb (λ st, status_eqb st WRITTEN_BACK)
          (MAP_LOOKUP (pm_status (shadow w)) addr size)) (World (shadow w) rs)) →
  (addr = 0 ∨ size = 0 → ∀ e, E e w) → wpe (is_writtenback op addr size) P E w.
Proof.
  intros HP HE. apply wpe_bind, wpe_assert_range; [|done]. intros ??.
  apply wpe_bind, wpe_only_reports; [auto with quiet|]. intros rs ?. by apply HP.
Qed.

Lemma wpe_add_pm_addr op addr size Q E w :
  (addr ≠ 0 → size ≠ 0 → ∀ rs, quiet_ext (reports w) rs →
     Q tt (World (eff_status addr size CLEAN (shadow w)) rs)) →
  (addr = 0 ∨ size = 0 → ∀ e, E e w) → wpe (add_pm_addr op addr size) Q E w.
Proof.
  intros HQ HE. apply wpe_bind, wpe_assert_range; [|done]. intros ??.
  apply wpe_bind, wpe_look, wpe_bind, wpe_only_reports; [auto with quiet|].
  intros rs ?. by apply HQ.
Qed.
Lemma wpe_remove_pm_addr op addr size Q E w :
  (addr ≠ 0 → size ≠ 0 → ∀ rs, quiet_ext (reports w) rs →
     Q tt (World (set_pm_status (λ m, MAP_REMOVE m addr size) (shadow w)) rs)) →
  (addr = 0 ∨ size = 0 → ∀ e, E e w) → wpe (remove_pm_addr op addr size) Q E w.
Proof.
  intros HQ HE. apply wpe_bind, wpe_assert_range; [|done]. intros ??.
  apply wpe_bind, wpe_only_reports; [auto with quiet|]. intros rs ?. by apply HQ.
Qed.
Lemma wpe_writeback_addr op addr size Q E w :
  (∀ rs, quiet_ext (reports w) rs →
     Q tt (World (eff_status addr size WRITEBACK_PENDING (shadow w)) rs)) →
  wpe (writeback_addr op addr size) Q E w.
Proof.
  intros HQ. apply wpe_bind, wpe_look, wpe_bind, wpe_only_reports; [auto 10 with quiet|].
  intros rs ?. by apply HQ.
Qed.
Lemma wpe_modify_addr op addr size Q E w :
  (addr ≠ 0 → size ≠ 0 → ∀ rs, quiet_ext (reports w) rs →
     Q tt (World (eff_modify addr size (shadow w)) rs)) →
  (addr = 0 ∨ size = 0 → ∀ e, E e w) → wpe (modify_addr op addr size) Q E w.
Proof.
  intros HQ HE. apply wpe_bind, wpe_assert_range; [|done]. intros ??.
  apply wpe_bind, wpe_only_reports; [auto with quiet|]. intros rs ?. by apply HQ.
Qed.
Lemma wpe_set_consistent_addr op addr size Q E w :
  (addr ≠ 0 → size ≠ 0 → ∀ rs, quiet_ext (reports w) rs →
     Q tt (World (eff_status addr size CONSISTENT (shadow w)) rs)) →
  (addr = 0 ∨ size = 0 → ∀ e, E e w) → wpe (set_consistent_addr op addr size) Q E w.
Proof.
  intros HQ HE. apply wpe_bind, wpe_assert_range; [|done]. intros ??.
  apply wpe_bind, wpe_only_reports; [auto with quiet|]. intros rs ?. by apply HQ.
Qed.
Lemma wpe_add_write_addr_IP_mapping op Q E w :
  operation op = WRITE →
  (dst_addr op ≠ 0 → size op ≠ 0 →
     Q tt (World (eff_writer (dst_addr op) (size op) (instr_ptr op) (shadow w)) (reports w))) →
  (dst_addr op = 0 ∨ size op = 0 → ∀ e, E e w) → wpe (add_write_addr_IP_mapping op) Q E w.
Proof.
  intros Hop HQ HE. apply wpe_bind. unfold assert_. rewrite bool_decide_true by done.
  apply wpe_ret, wpe_bind, wpe_assert; unfold nonzero; intros H; [apply HQ|apply HE]; lia.
Qed.
Lemma wpe_update_commitVar_timestamp Q E w :
  (∀ rs, quiet_ext (reports w) rs → Q tt (World (eff_commit_time (shadow w)) rs)) →
  wpe update_commitVar_timestamp Q E w.
Proof.
  intros HQ. apply wpe_bind, wpe_look, wpe_bind, wpe_say. apply HQ. simpl. eauto with quiet.
Qed.

(** *** Transactions *)

Lemma wpe_commit_interval tid stage i Q E w :
  is_Some (arr_ref (tx_added_addr_IP_mapping (shadow w)) tid) →
  is_Some (arr_ref (tx_alloc_addr_IP_mapping (shadow w)) tid) →
  (∀ rs, quiet_ext (reports w) rs → Q tt (World (eff_commit_intervals [i] (shadow w)) rs)) →
  wpe (commit_interval tid stage i) Q E w.
Proof.
  intros [a Ha] [b Hb] HQ. apply wpe_bind.
  apply wpe_when; intros _; [|apply wpe_upd, HQ; eauto with quiet].
  apply wpe_bind, wpe_look, wpe_when; intros _; [|apply wpe_upd, HQ; eauto with quiet].
  apply wpe_bind, wpe_say, wpe_bind, wpe_load_sh; simpl; [|congruence]. intros a' _.
  apply wpe_bind, wpe_only_reports; [auto with quiet|]. simpl. intros rs Hrs.
  apply wpe_bind, wpe_load_sh; simpl; [|congruence]. intros b' _.
  apply wpe_only_reports; [auto with quiet|]. simpl. intros rs' Hrs'.
  apply wpe_upd, HQ. etrans; [|done]. etrans; [|done]. eauto with quiet.
Qed.
Lemma wpe_commit_loop tid stage l Q E w :
  is_Some (arr_ref (tx_added_addr_IP_mapping (shadow w)) tid) →
  is_Some (arr_ref (tx_alloc_addr_IP_mapping (shadow w)) tid) →
  (∀ rs, quiet_ext (reports w) rs → Q tt (World (eff_commit_intervals l (shadow w)) rs)) →
  wpe (for_each l (commit_interval tid stage)) Q E w.
Proof.
  revert w. induction l as [|i l IH]; intros w Ha Hb HQ; simpl.
  - apply wpe_ret. destruct w as [[] rs]. apply HQ. reflexivity.
  - apply wpe_bind, wpe_commit_interval; [done..|]. intros rs Hrs.
    apply IH; [done..|]. simpl. intros rs' Hrs'. apply HQ. by etrans.
Qed.

(** The memory after the outermost transaction of [tid], which had added the
    intervals [l], has ended. *)
Definition eff_tx_commit (tid : Z) (l : list ival) s : ShadowPM imap iset :=
  set_tx_non_added_write_addr (λ a, arr_upd a tid is_empty)
    (set_tx_alloc_addr_IP_mapping (λ a, arr_upd a tid im_empty)
      (set_tx_added_addr_IP_mapping (λ a, arr_upd a tid im_empty)
        (set_tx_added_addr (λ a, arr_upd a tid is_empty) (eff_commit_intervals l s)))).
Definition eff_tx_level (tid n : Z) s : ShadowPM imap iset :=
  set_tx_level (λ a, arr_upd a tid n) s.

(** The per-thread arrays have one cell per thread. *)
Definition arrays_ok s : Prop :=
  length (pre_InternalFunctLevel s) = MAX_THREADS ∧
  length (tx_added_addr s) = MAX_THREADS ∧
  length (tx_alloc_addr_IP_mapping s) = MAX_THREADS ∧
  length (tx_added_addr_IP_mapping s) = MAX_THREADS ∧
  length (tx_non_added_write_addr s) = MAX_THREADS ∧
  length (tx_level s) = MAX_THREADS ∧
  length (skipDetectionStatus s) = MAX_THREADS.

Lemma arr_ref_transfer {A B} (l1 : list A) (l2 : list B) i a :
  arr_ref l1 i = Some a → length l1 = length l2 → is_Some (arr_ref l2 i).
Proof. intros Ha%arr_ref_bounds Hl. apply arr_ref_Some. lia. Qed.
Lemma arr_ref_absurd {A B} (l1 : list A) (l2 : list B) i a :
  arr_ref l1 i = Some a → arr_ref l2 i = None → length l1 = length l2 → False.
Proof. intros Ha Hb Hl. destruct (arr_ref_transfer _ _ _ _ Ha Hl). congruence. Qed.

Lemma wpe_decrement_tx_level tid stage Q E w :
  arrays_ok (shadow w) →
  (∀ n, arr_ref (tx_level (shadow w)) tid = Some n → 1 < n → ∀ rs,
     quiet_ext (reports w) rs → Q tt (World (eff_tx_level tid (n - 1) (shadow w)) rs)) →
  (∀ added, arr_ref (tx_level (shadow w)) tid = Some 1 →
     arr_ref (tx_added_addr (shadow w)) tid = Some added →
     ∀ rs, quiet_ext (reports w) rs →
     Q tt (World (eff_tx_commit tid (is_segments added)
             (eff_tx_level tid 0 (shadow w))) rs)) →
  (∀ e, arr_ref (tx_level (shadow w)) tid = None → E e w) →
  (∀ n e, arr_ref (tx_level (shadow w)) tid = Some n → n ≤ 0 → E e w) →
  wpe (decrement_tx_level tid stage) Q E w.
Proof.
  intros (?&?&?&?&?&?&?) HQ1 HQ2 HE1 HE2. unfold decrement_tx_level.
  apply wpe_bind, wpe_load_sh; [|eauto]. intros n Hn.
  apply wpe_bind, wpe_assert; intros Hpos; [|apply (HE2 n); [done|lia]].
  apply wpe_bind, wpe_store_sh; [|congruence]. intros _ _.
  apply wpe_when; intros Hz; [|apply HQ1; [done|lia|reflexivity]].
  assert (n = 1) as -> by lia.
  apply wpe_bind, wpe_load_sh; simpl; [intros added Hadded|
    intros; exfalso; eapply arr_ref_absurd; eauto; congruence].
  apply wpe_bind, wpe_commit_loop; simpl;
    [eapply arr_ref_transfer; [done|congruence]..|].
  intros rs Hrs.
  do 3 (apply wpe_bind, wpe_store_sh; simpl; [intros _ _|
    intros; exfalso; eapply arr_ref_absurd; eauto; congruence]).
  apply wpe_store_sh; simpl; [intros _ _|
    intros; exfalso; eapply arr_ref_absurd; eauto; congruence].
  by apply HQ2.
Qed.

(** The memory after [\[addr, addr+size)] has joined the transaction of [tid]. *)
Definition eff_tx_add (tid : Z) (added : iset) (addr size : Z) s : ShadowPM imap iset :=
  set_tx_added_addr (λ a, arr_upd a tid (SET_INSERT added addr size)) s.
Definition eff_tx_origin (tid addr size ip : Z) (alloc : bool) (m : imap Z) s
    : ShadowPM imap iset :=
  if alloc
  then set_tx_alloc_addr_IP_mapping (λ a, arr_upd a tid (MAP_UPDATE m addr size ip)) s
  else set_tx_added_addr_IP_mapping (λ a, arr_upd a tid (MAP_UPDATE m addr size ip)) s.
Definition eff_late_write (tid : Z) (late : iset) (addr size : Z) s : ShadowPM imap iset :=
  set_tx_non_added_write_addr (λ a, arr_upd a tid (SET_INSERT late addr size)) s.

Lemma wpe_add_tx_add_addr op addr size stage alloc Q E w :
  arrays_ok (shadow w) →
  (∀ added m, arr_ref (tx_added_addr (shadow w)) (tid op) = Some added →
     addr ≠ 0 → size ≠ 0 → ∀ rs, quiet_ext (reports w) rs →
     Q tt (World (eff_tx_origin (tid op) addr size (instr_ptr op) alloc m
             (eff_tx_add (tid op) added addr size (shadow w))) rs)) →
  (∀ e w', arr_ref (tx_added_addr (shadow w)) (tid op) = None ∨ addr = 0 ∨ size = 0 → E e w') →
  wpe (add_tx_add_addr op addr size stage alloc) Q E w.
Proof.
  intros (?&?&?&?&?&?&?) HQ HE. unfold add_tx_add_addr, is_non_added_write_addr, is_added_addr.
  apply wpe_bind, wpe_bind, wpe_load_sh.
  2: { intros Hn e. apply HE. left. destruct (arr_ref (tx_added_addr _) _) eqn:Ha; [|done].
       exfalso. eapply arr_ref_absurd; eauto. congruence. }
  intros late Hlate. apply wpe_ret, wpe_bind, wpe_only_reports; [auto with quiet|].
  intros rs1 Hrs1. apply wpe_bind, wpe_bind, wpe_load_sh; simpl;
    [|intros; exfalso; eapply arr_ref_absurd; eauto; congruence].
  intros added Hadded. apply wpe_ret, wpe_bind.
  apply (wpe_mono _ (λ _ w', shadow w' = shadow w ∧ quiet_ext (reports w) (reports w'))
           _ (λ _ _, False)); [|intros _ [s' rs2]; simpl; intros [-> Hrs2]|done].
  - apply wpe_when; intros _; [|by split].
    apply wpe_when; intros _; [|by split].
    apply wpe_bind, wpe_say, wpe_bind, wpe_say, wpe_bind, wpe_load_sh; simpl;
      [|intros; exfalso; eapply arr_ref_absurd; eauto; congruence].
    intros ma Hma. apply wpe_bind, wpe_only_reports; [auto with quiet|].
    simpl. intros rs2 Hrs2. apply wpe_bind, wpe_load_sh; simpl;
      [|intros; exfalso; eapply arr_ref_absurd; eauto; congruence].
    intros mb Hmb. apply wpe_only_reports; [auto with quiet|]. simpl. intros rs3 Hrs3.
    split; [done|]. etrans; [|done]. etrans; [|done]. eauto with quiet.
  - apply wpe_bind, wpe_assert; unfold nonzero; intros Hnz; [|apply HE; lia].
    apply wpe_bind, wpe_load_sh; simpl; [|congruence]. intros added' Hadded'. simplify_eq.
    apply wpe_bind, wpe_store_sh; simpl; [intros _ _|congruence].
    destruct alloc; simpl; apply wpe_bind, wpe_load_sh; simpl; try
      (intros; exfalso; eapply arr_ref_absurd; eauto; congruence); intros m Hm;
      (apply wpe_store_sh; simpl; [intros _ _|congruence]);
      (apply (HQ added m); [done|lia|lia|done]).
Qed.

Lemma wpe_add_non_tx_add_addr op addr size Q E w :
  (∀ late, arr_ref (tx_non_added_write_addr (shadow w)) (tid op) = Some late →
     Q tt (World (eff_late_write (tid op) late addr size (shadow w)) (reports w))) →
  (arr_ref (tx_non_added_write_addr (shadow w)) (tid op) = None → ∀ e, E e w) →
  wpe (add_non_tx_add_addr op addr size) Q E w.
Proof.
  intros HQ HE. apply wpe_bind, wpe_load_sh; [|done]. intros late Hlate.
  apply wpe_store_sh; [|congruence]. intros _ _. by apply HQ.
Qed.

(** *** The report on an inconsistent read *)

(** It leaves the memory alone and says that there is a cross-failure bug. *)
Lemma wpe_printInconsistentReadDebug op P E w :
  operation op = READ → src_addr op ≠ 0 → size op ≠ 0 →
  (∀ rs l, rs = reports w ++ ConsistencyBug :: l → ConsistencyBug ∉ l →
     P (negb (Nat.eqb (length (MAP_LOOKUP (write_addr_IP_mapping (shadow w))
                                (src_addr op) (size op))) 0)) (World (shadow w) rs)) →
  wpe (printInconsistentReadDebug op) P E w.
Proof.
  intros Hop Ha Hn HP. unfold printInconsistentReadDebug, print_look_up_write_addr_IP_mapping.
  apply wpe_bind, wpe_bind. unfold assert_. rewrite bool_decide_true by done.
  apply wpe_ret, wpe_bind. unfold nonzero.
  rewrite (proj2 (Z.eqb_neq _ _) Ha), (proj2 (Z.eqb_neq _ _) Hn). simpl.
  apply wpe_ret, wpe_bind, wpe_say, wpe_bind, wpe_look, wpe_bind.
  apply wpe_only_reports; [auto with quiet|]. simpl. intros rs (l&->&Hl).
  apply wpe_ret, wpe_bind, wpe_only_reports; [auto with quiet|]. simpl.
  intros rs' (l'&->&Hl'). apply wpe_ret, (HP _ (l ++ l')).
  - by rewrite <-!app_assoc.
  - rewrite elem_of_app. by intros [?|?].
Qed.
End methods.
