(* ===== verification/Detector.v ===== *)
(** * The detector

    [XFDetectorDetector] of [src/xfdetector/src/xfdetector.cc]: the handler that
    feeds one trace entry, of the pre-failure or of the post-failure execution,
    to a shadow memory and checks the reads of the post-failure execution. *)
From stdpp Require Import base list strings gmap.
From S2P Require Import Prelude Trace Icl ShadowPM.
Open Scope Z_scope.

Section detector.
Context {imap : Type → Type} {IM : IntervalMap imap} {iset : Type} {IS : IntervalSet iset}.
Abbreviation world := (world imap iset).
Implicit Types (stage : Z) (op : trace_entry_t).

(** The members of the class, next to the shadow memory the handler is given. *)
Record dstate := DState {
  mem : world;
  pre_testing_complete : bool;
  pre_failure_point_complete : bool;
  post_testing_complete : bool;
}.

Definition on_mem {A} (c : M world A) : M dstate A :=
  zoom mem (λ w d, DState w (pre_testing_complete d) (pre_failure_point_complete d)
                     (post_testing_complete d)) c.
Definition complete_pre_testing : M dstate unit := modify (λ d,
  DState (mem d) COMPLETE (pre_failure_point_complete d) (post_testing_complete d)).
Definition complete_pre_failure_point : M dstate unit := modify (λ d,
  DState (mem d) (pre_testing_complete d) COMPLETE (post_testing_complete d)).
Definition complete_post_testing : M dstate unit := modify (λ d,
  DState (mem d) (pre_testing_complete d) (pre_failure_point_complete d) COMPLETE).

(** The report on a read that no rule excuses. *)
Definition report_inconsistent_read (op : trace_entry_t) : M world unit :=
  let! addrFound := printInconsistentReadDebug op in
  when addrFound
    (let! wb := is_writtenback op (src_addr op) (size op) in
     if negb wb then say NotPersistedBeforeFailure
     else
       let! recent := is_recent_commit_update op (src_addr op) (size op) in
       if negb recent then say NotPersistedBeforeCommitVar else say OtherInconsistency).

(** [case READ] *)
Definition handle_read (stage : Z) (op : trace_entry_t) : M world unit :=
  when (stage =? POST_FAILURE)
    (let! disabled := is_detection_disabled (tid op) in
     when (negb disabled)
       (let! checked := lookup_checked_addr (src_addr op) (size op) in
        if checked then ret tt
        else
          let! consistent := is_consistent op (src_addr op) (size op) in
          let! writtenback := is_writtenback op (src_addr op) (size op) in
          let! persisted :=
            (if writtenback : bool then is_recent_commit_update op (src_addr op) (size op)
             else ret false) in
          let! commit_var := is_commit_var_addr op (src_addr op) (size op) in
          let! added := is_added_addr op (src_addr op) (size op) in
          when (negb (consistent || persisted || commit_var || added))
            (report_inconsistent_read op))).

(** [case WRITE]: a write to a commit variable sets the time of the commit. *)
Definition note_commit_var (stage : Z) (op : trace_entry_t) : M world unit :=
  let! commit_var :=
    (if stage =? PRE_FAILURE then is_commit_var_addr op (dst_addr op) (size op)
     else ret false) in
  when commit_var (update_commitVar_timestamp ;; add_write_addr_IP_mapping op).

(** The write itself: consistent at once after the failure, in a skipped region
    or in the library, else modified until it is flushed and fenced. *)
Definition track_write (stage : Z) (op : trace_entry_t) : M world unit :=
  let! untracked :=
    (if stage =? POST_FAILURE then ret true else is_detection_disabled (tid op)) in
  if untracked : bool then
    modify_addr op (dst_addr op) (size op) ;;
    set_consistent_addr op (dst_addr op) (size op) ;;
    add_write_addr_IP_mapping op
  else
    let! internal := is_in_pre_internal_funct (tid op) in
    if internal : bool then
      modify_addr op (dst_addr op) (size op) ;;
      set_consistent_addr op (dst_addr op) (size op)
    else
      let! in_tx := is_in_tx (tid op) in
      when in_tx
        (let! added := is_added_addr op (dst_addr op) (size op) in
         when (negb added)
           (add_non_tx_add_addr op (dst_addr op) (size op) ;;
            say (ModifyBeforeTxAdd (instr_ptr op) (dst_addr op)) ;;
            say (Backtrace (instr_ptr op) PRE_FAILURE))) ;;
      modify_addr op (dst_addr op) (size op) ;;
      when (nonzero (non_temporal op)) (writeback_addr op (dst_addr op) (size op)) ;;
      add_write_addr_IP_mapping op.

Definition handle_write (stage : Z) (op : trace_entry_t) : M world unit :=
  note_commit_var stage op ;; track_write stage op.

Definition handle_pm_addr_add (stage : Z) (op : trace_entry_t) : M world unit :=
  if stage =? PRE_FAILURE then add_pm_addr op (dst_addr op) (size op)
  else add_pm_addr_post op (dst_addr op) (size op).

(** [XFDetectorDetector::update_pm_status] *)
Definition update_pm_status (stage : Z) (op : trace_entry_t) : M dstate unit :=
  if func_ret op then
    match operation op with
    | PMEM_MAP_FILE => on_mem (handle_pm_addr_add stage op)
    | _ => ret tt
    end
  else
    match operation op with
    | TRACE_END =>
        on_mem (say (FailurePointIP (instr_ptr op))) ;;
        when (stage =? PRE_FAILURE) complete_pre_failure_point
    | TRACE_BEGIN => ret tt
    | TESTING_END =>
        if stage =? PRE_FAILURE then complete_pre_testing
        else when (stage =? POST_FAILURE) complete_post_testing
    | READ => on_mem (handle_read stage op)
    | WRITE => on_mem (handle_write stage op)
    | CLWB =>
        when (stage =? PRE_FAILURE) (on_mem (writeback_addr op (src_addr op) (size op)))
    | SFENCE =>
        on_mem (drain_writeback op) ;;
        when (stage =? PRE_FAILURE) (on_mem increment_global_time)
    | PMEM_MAP_FILE => ret tt
    | PM_TRACE_PM_ADDR_ADD => on_mem (handle_pm_addr_add stage op)
    | PMEM_UNMAP | PM_TRACE_PM_ADDR_REMOVE =>
        on_mem (remove_pm_addr op (src_addr op) (size op))
    | PM_TRACE_TX_ADDR_ADD =>
        on_mem (add_tx_add_addr op (dst_addr op) (size op) stage false)
    | PM_TRACE_TX_ALLOC =>
        on_mem (add_tx_add_addr op (dst_addr op) (size op) stage true)
    | PM_TRACE_TX_BEGIN => on_mem (increment_tx_level (tid op) stage)
    | PM_TRACE_TX_END => on_mem (decrement_tx_level (tid op) stage)
    | PMDK_INTERNAL_CALL => on_mem (increment_pre_internal_funct_level (tid op))
    | PMDK_INTERNAL_RET => on_mem (decrement_pre_internal_funct_level (tid op))
    | ADD_COMMIT_VAR =>
        when (stage =? PRE_FAILURE)
          (on_mem (add_commit_var_addr op (src_addr op) (size op)))
    | PM_TRACE_DETECTION_SKIP_BEGIN =>
        let! disabled := on_mem (is_detection_disabled (tid op)) in
        assert_ (negb disabled) "Trace skip already enabled." ;;
        on_mem (disable_detection (tid op))
    | PM_TRACE_DETECTION_SKIP_END =>
        let! disabled := on_mem (is_detection_disabled (tid op)) in
        assert_ disabled "Trace skip is not enabled." ;;
        on_mem (enable_detection (tid op))
    | INVALID => on_mem (say InvalidOps)
    | PM_OP_OTHER _ => stop (ErrAbort "Unknown operation in trace")
    end.

(** The [for] loop over the entries of a FIFO buffer. *)
Definition update_all (stage : Z) (ops : list trace_entry_t) : M dstate unit :=
  for_each ops (update_pm_status stage).
End detector.

Global Arguments dstate imap iset : clear implicits.
