(* ===== verification/Frontend.v ===== *)
(** * The FIFOs and the main loop

    [XFDetectorFIFO] and [main] of [src/xfdetector/src/xfdetector.cc]: the pipes
    through which the Pin tool sends its trace, and the loop that, for every
    failure point, feeds the pre-failure trace to the shadow memory, runs the
    program again on a copy of the image and checks its reads against a copy of
    the shadow memory. *)
From stdpp Require Import base list strings gmap pretty.
From S2P Require Import Prelude Os Strings Trace Wire ExecCtrl Icl ShadowPM Detector.
Open Scope Z_scope.

Definition PRE_FAILURE_FIFO : string := "pre_fifo".
Definition POST_FAILURE_FIFO : string := "post_fifo".
Definition SIGNAL_FIFO : string := "signal_fifo".
Definition PIN_CONTINUE_SIGNAL : string := "PIN_CONTINUE".
Definition POST_FAILURE_EXEC_TIMEOUT : Z := 15.
Definition PRE_FAILURE_FIFO_TIMEOUT : Z := 15.

(** [exec_id] is a [static] variable of a header: the file that holds [main] has
    its own, which nothing assigns. *)
Definition main_exec_id : Z := 0.

Record fifo := Fifo {
  pre_failure_fifo_str : string;
  post_failure_fifo_str : string;
  signal_fifo_str : string;
  pre_fifo_fd : Z;
  post_fifo_fd : Z;
  signal_fifo_fd : Z;
  pre_fifo_buf : list Z;
  post_fifo_buf : list Z;
}.

Definition set_fds (pre post sig : Z) (f : fifo) : fifo := Fifo
  (pre_failure_fifo_str f) (post_failure_fifo_str f) (signal_fifo_str f) pre post sig
  (pre_fifo_buf f) (post_fifo_buf f).
Definition set_bufs (pre post : list Z) (f : fifo) : fifo := Fifo
  (pre_failure_fifo_str f) (post_failure_fifo_str f) (signal_fifo_str f)
  (pre_fifo_fd f) (post_fifo_fd f) (signal_fifo_fd f) pre post.

Section frontend.
Context {imap : Type → Type} {IM : IntervalMap imap} {iset : Type} {IS : IntervalSet iset}.

(** ** The program state

    [det] holds the detector's flags, the global shadow memory and the reports;
    [post_mem] is the local [post_shadow_mem] of the current failure point. *)
Record prog := Prog {
  det : dstate imap iset;
  post_mem : ShadowPM imap iset;
  proc_ : proc;
  fifo_ : fifo;
  fifo_read_start : Z;
  post_start : Z;
  timeout_ : bool;
  failed : bool;
}.

Definition set_det (d : dstate imap iset) (p : prog) : prog := Prog d (post_mem p)
  (proc_ p) (fifo_ p) (fifo_read_start p) (post_start p) (timeout_ p) (failed p).
Definition set_post_mem (s : ShadowPM imap iset) (p : prog) : prog := Prog (det p) s
  (proc_ p) (fifo_ p) (fifo_read_start p) (post_start p) (timeout_ p) (failed p).
Definition set_proc (x : proc) (p : prog) : prog := Prog (det p) (post_mem p)
  x (fifo_ p) (fifo_read_start p) (post_start p) (timeout_ p) (failed p).
Definition set_fifo (f : fifo) (p : prog) : prog := Prog (det p) (post_mem p)
  (proc_ p) f (fifo_read_start p) (post_start p) (timeout_ p) (failed p).
Definition set_read_start (t : Z) (p : prog) : prog := Prog (det p) (post_mem p)
  (proc_ p) (fifo_ p) t (post_start p) (timeout_ p) (failed p).
Definition set_post_start (t : Z) (p : prog) : prog := Prog (det p) (post_mem p)
  (proc_ p) (fifo_ p) (fifo_read_start p) t (timeout_ p) (failed p).
Definition set_timeout (b : bool) (p : prog) : prog := Prog (det p) (post_mem p)
  (proc_ p) (fifo_ p) (fifo_read_start p) (post_start p) b (failed p).
Definition set_failed (b : bool) (p : prog) : prog := Prog (det p) (post_mem p)
  (proc_ p) (fifo_ p) (fifo_read_start p) (post_start p) (timeout_ p) b.

Definition on_proc {A} (c : M proc A) : M prog A := zoom proc_ set_proc c.
Definition do_sys (c : call) : M prog answer := on_proc (on_os (sys c)).
Definition do_int (c : call) : M prog Z := on_proc (on_os (sys_int c)).
Definition do_emit (c : call) : M prog unit := on_proc (on_os (emit c)).

(** The detector on the global shadow memory, and on the copy: the reports and
    the flags are the same objects. *)
Definition on_pre {A} (c : M (dstate imap iset) A) : M prog A := zoom det set_det c.
Definition post_det (p : prog) : dstate imap iset := DState
  (World (post_mem p) (reports (mem (det p)))) (pre_testing_complete (det p))
  (pre_failure_point_complete (det p)) (post_testing_complete (det p)).
Definition put_post_det (d : dstate imap iset) (p : prog) : prog :=
  set_post_mem (shadow (mem d))
    (set_det (DState (World (shadow (mem (det p))) (reports (mem d))) (pre_testing_complete d)
                (pre_failure_point_complete d) (post_testing_complete d)) p).
Definition on_post {A} (c : M (dstate imap iset) A) : M prog A := zoom post_det put_post_det c.

Definition reset_pre_testing : M prog unit := on_pre (modify (λ d,
  DState (mem d) INCOMPLETE (pre_failure_point_complete d) (post_testing_complete d))).
Definition reset_pre_failure_point : M prog unit := on_pre (modify (λ d,
  DState (mem d) (pre_testing_complete d) INCOMPLETE (post_testing_complete d))).
Definition reset_post_testing : M prog unit := on_pre (modify (λ d,
  DState (mem d) (pre_testing_complete d) (pre_failure_point_complete d) INCOMPLETE)).

(** ** [XFDetectorFIFO] *)

Definition fifo_name (name : string) (id : Z) : string :=
  if 0 <=? id then "/tmp/" +:+ name +:+ "." +:+ pretty id else "/tmp/" +:+ name.

Definition fifo_create (id : Z) : M prog unit :=
  let pre := fifo_name PRE_FAILURE_FIFO id in
  let post := fifo_name POST_FAILURE_FIFO id in
  let sig := fifo_name SIGNAL_FIFO id in
  modify (λ p, set_fifo (Fifo pre post sig (pre_fifo_fd (fifo_ p)) (post_fifo_fd (fifo_ p))
    (signal_fifo_fd (fifo_ p)) (pre_fifo_buf (fifo_ p)) (post_fifo_buf (fifo_ p))) p) ;;
  do_emit (CRemove pre) ;; do_emit (CRemove post) ;; do_emit (CRemove sig) ;;
  let! r1 := do_int (CMkfifo pre 438) in
  when (r1 <? 0) (stop (ErrAbort "Pre-failure FIFO create failed.")) ;;
  let! r2 := do_int (CMkfifo post 438) in
  when (r2 <? 0) (stop (ErrAbort "Post-failure FIFO create failed.")) ;;
  let! r3 := do_int (CMkfifo sig 438) in
  when (r3 <? 0) (stop (ErrAbort "Signal FIFO create failed.")).

Definition fifo_open (name : string) : M prog unit :=
  let! f := gets fifo_ in
  if decide (name = PRE_FAILURE_FIFO) then
    let! fd := do_int (COpen (pre_failure_fifo_str f) false) in
    modify (λ p, set_fifo (set_fds fd (post_fifo_fd f) (signal_fifo_fd f) f) p) ;;
    when (fd <? 0) (stop (ErrAbort "Pre-failure FIFO open failed."))
  else if decide (name = POST_FAILURE_FIFO) then
    let! fd := do_int (COpen (post_failure_fifo_str f) false) in
    modify (λ p, set_fifo (set_fds (pre_fifo_fd f) fd (signal_fifo_fd f) f) p) ;;
    when (fd <? 0) (stop (ErrAbort "Post-failure FIFO open failed."))
  else if decide (name = SIGNAL_FIFO) then
    let! fd := do_int (COpen (signal_fifo_str f) true) in
    modify (λ p, set_fifo (set_fds (pre_fifo_fd f) (post_fifo_fd f) fd f) p) ;;
    when (fd <? 0) (stop (ErrAbort "Signal FIFO open failed."))
  else stop (ErrAbort "Open unknown FIFO").

Definition fifo_close (name : string) : M prog unit :=
  let! f := gets fifo_ in
  if decide (name = PRE_FAILURE_FIFO) then do_emit (CClose (pre_fifo_fd f))
  else if decide (name = POST_FAILURE_FIFO) then do_emit (CClose (post_fifo_fd f))
  else if decide (name = SIGNAL_FIFO) then do_emit (CClose (signal_fifo_fd f))
  else stop (ErrAbort "Close unknown FIFO").

(** What [read] does to a buffer. *)
Definition fill (data buf : list Z) : list Z :=
  let data' := take PIN_FIFO_BUF_SIZE data in data' ++ drop (length data') buf.

Definition pre_fifo_read : M prog Z :=
  let! f := gets fifo_ in
  let! a := do_sys (CRead (pre_fifo_fd f) (Z.of_nat PIN_FIFO_BUF_SIZE)) in
  modify (λ p, set_fifo (set_bufs (fill (ans_data a) (pre_fifo_buf f)) (post_fifo_buf f) f) p) ;;
  ret (ans_ret a).
Definition post_fifo_read : M prog Z :=
  let! f := gets fifo_ in
  let! a := do_sys (CRead (post_fifo_fd f) (Z.of_nat PIN_FIFO_BUF_SIZE)) in
  modify (λ p, set_fifo (set_bufs (pre_fifo_buf f) (fill (ans_data a) (post_fifo_buf f)) f) p) ;;
  ret (ans_ret a).
Definition zeros : list Z := replicate PIN_FIFO_BUF_SIZE 0.
Definition clear_pre_fifo_buf : M prog unit :=
  modify (λ p, set_fifo (set_bufs zeros (post_fifo_buf (fifo_ p)) (fifo_ p)) p).
Definition clear_post_fifo_buf : M prog unit :=
  modify (λ p, set_fifo (set_bufs (pre_fifo_buf (fifo_ p)) zeros (fifo_ p)) p).

Definition pin_continue_send : M prog unit :=
  let! f := gets fifo_ in
  let! r := do_int (CWrite (signal_fifo_fd f) PIN_CONTINUE_SIGNAL 13) in
  when (r <? 0) (stop (ErrAbort "PIN_CONTINUE_SIGNAL send failure.")).

(** [get_trace]: the entry at an index of a buffer. *)
Definition get_trace (buf : list Z) (index : nat) : trace_entry_t :=
  decode_entry (drop (index * entry_size) buf).

(** [for (i = 0; i < read_size / sizeof(trace_entry_t); ++i)]: the [int] is
    converted to 64 bits unsigned before the division; an index past the end of
    the buffer is undefined. *)
Definition entry_count (read_size : Z) : Z := u64 read_size `div` Z.of_nat entry_size.
Definition process_buffer (stage : Z) (read_size : Z) (buf : list Z) : M (dstate imap iset) unit :=
  let n := entry_count read_size in
  for_each (seq 0 (Z.to_nat (Z.min n (Z.of_nat BUF_ENTRIES))))
    (λ i, update_pm_status stage (get_trace buf i)) ;;
  when (Z.of_nat BUF_ENTRIES <? n) (stop (UndefinedBehaviour "read past the FIFO buffer")).

(** The constructor allocates the buffers ([garbage] is what they hold); the
    destructor closes and removes. *)
Definition new_fifo (id : Z) (garbage : list Z) : M prog unit :=
  fifo_create id ;;
  modify (λ p, set_fifo (set_bufs garbage garbage (fifo_ p)) p).
Definition delete_fifo : M prog unit :=
  fifo_close PRE_FAILURE_FIFO ;; fifo_close POST_FAILURE_FIFO ;;
  let! f := gets fifo_ in
  do_emit (CRemove (pre_failure_fifo_str f)) ;; do_emit (CRemove (post_failure_fifo_str f)) ;;
  do_emit (CRemove (signal_fifo_str f)).

(** ** [main] *)

(** One turn of the loop that reads the pre-failure trace. *)
Definition pre_turn : M prog bool :=
  let! read_size := pre_fifo_read in
  when (negb (read_size =? 0))
    (let! now := do_int CTime in modify (set_read_start now)) ;;
  let! now := do_int CTime in
  let! start := gets fifo_read_start in
  when (PRE_FAILURE_FIFO_TIMEOUT <? now - start) (stop (ErrAbort "Pre-failure FIFO timeout")) ;;
  let! f := gets fifo_ in
  on_pre (process_buffer PRE_FAILURE read_size (pre_fifo_buf f)) ;;
  clear_pre_fifo_buf ;;
  ret true.
Definition pre_unfinished (p : prog) : bool :=
  negb (pre_failure_point_complete (det p)) && negb (pre_testing_complete (det p)).
Definition pre_phase (fuel : nat) : M prog unit :=
  reset_pre_failure_point ;;
  let! now := do_int CTime in
  modify (set_read_start now) ;;
  while_ fuel (gets pre_unfinished) pre_turn.

(** One turn of the loop that reads the post-failure trace. *)
Definition post_turn : M prog bool :=
  let! read_size := post_fifo_read in
  let! f := gets fifo_ in
  on_post (process_buffer POST_FAILURE read_size (post_fifo_buf f)) ;;
  clear_post_fifo_buf ;;
  let! now := do_int CTime in
  let! start := gets post_start in
  if POST_FAILURE_EXEC_TIMEOUT <? now - start then
    on_proc term_post_failure ;; modify (set_timeout true) ;; ret false
  else ret true.
Definition post_unfinished (p : prog) : bool := negb (post_testing_complete (det p)).

(** The rest of a failure point: [garbage] is what the memory of the local
    [post_shadow_mem] held before.  It answers whether the program goes on. *)
Definition post_phase (fuel : nat) (garbage : prog → list Z) : M prog bool :=
  modify (λ p, set_post_mem (copy_ShadowPM (garbage p) (shadow (mem (det p)))) p) ;;
  let! now := do_int CTime in
  modify (set_post_start now) ;;
  let! image_copy_name := on_proc execute_post_failure in
  modify (set_timeout false) ;;
  fifo_open POST_FAILURE_FIFO ;;
  while_ fuel (gets post_unfinished) post_turn ;;
  do_int CTime ;;
  do_emit (CRemove image_copy_name) ;;
  fifo_close POST_FAILURE_FIFO ;;
  reset_post_testing ;;
  pin_continue_send ;;
  let! status := on_proc post_failure_status in
  let! timeout := gets timeout_ in
  if (status <? 0) && negb timeout then on_proc term_pre_failure ;; modify (set_failed true) ;; ret false
  else ret true.

Definition main_loop (fuel : nat) (garbage : prog → list Z) : M prog unit :=
  while_ fuel (gets (λ p, negb (pre_testing_complete (det p))))
    (pre_phase fuel ;; post_phase fuel garbage).

Definition main (fuel : nat) (garbage : prog → list Z) (heap : list Z) (argv : list string) : M prog Z :=
  let arg2 := argv !! 2%nat in
  on_proc (init (match arg2 with Some s => atoi s | None => -1 end) argv) ;;
  let! id := match arg2 with
             | Some s => ret (atoi s)
             | None => stop (UndefinedBehaviour "atoi(argv[2])")
             end in
  new_fifo id heap ;;
  reset_pre_testing ;;
  on_proc execute_pre_failure ;;
  fifo_open PRE_FAILURE_FIFO ;;
  fifo_open SIGNAL_FIFO ;;
  do_int CTime ;;
  main_loop fuel garbage ;;
  let! failed := gets failed in
  if failed then ret 1
  else
    do_int CTime ;;
    delete_fifo ;;
    do_emit (CRemove ("/tmp/backtrace_pre." +:+ pretty main_exec_id)) ;;
    do_emit (CRemove ("/tmp/backtrace_post." +:+ pretty main_exec_id)) ;;
    ret 0.
End frontend.

Global Arguments prog imap iset : clear implicits.
