(* ===== verification/FrontendFacts.v ===== *)
(** * The main loop: termination, isolation of the post-failure runs, protocol *)
From stdpp Require Import base list strings gmap pretty.
From S2P Require Import Prelude Os Strings Trace Wire ExecCtrl Icl ShadowPM Detector Frontend.
Open Scope Z_scope.

Section facts.
Context {imap : Type → Type} {IM : IntervalMap imap} {iset : Type} {IS : IntervalSet iset}.
Implicit Types (p : prog imap iset) (d : dstate imap iset).

(** ** The answers of the system bound the loops *)

Definition left_os (o : os) : nat := length (answers o).
Definition left_proc (p : proc) : nat := left_os (osys p).
Definition left p : nat := left_proc (proc_ p).

Lemma tame_update_pm_status stage op m :
  tame (λ _ : dstate imap iset, O) m (update_pm_status stage op) 0.
Proof. tame_steps. Qed.
Lemma calm_process_buffer stage n buf : calm (process_buffer (imap:=imap) (iset:=iset) stage n buf).
Proof.
  apply calm_tame. intros m. unfold process_buffer. tame_steps.
Qed.

Section bound.
Variable n : nat.

Lemma tame_sys c : tame left_os n (sys c) 1.
Proof.
  intros s _. apply wpe_sys; [|done]. intros a l Ha. unfold left_os. simpl. rewrite Ha. simpl. lia.
Qed.
Lemma tame_on_os {A} (c : M os A) k : tame left_os n c k → tame left_proc n (on_os c) k.
Proof. by apply tame_zoom. Qed.
Lemma tame_on_proc {A} (c : M proc A) k : tame left_proc n c k → tame left n (on_proc c) k.
Proof. by apply tame_zoom. Qed.
Lemma tame_do_sys c : tame left n (do_sys c) 1.
Proof. apply tame_on_proc, tame_on_os, tame_sys. Qed.
Lemma tame_do_sys_0 c : tame left n (do_sys c) 0.
Proof. eapply tame_weaken; [apply tame_do_sys|lia]. Qed.
Lemma tame_sys_0 c : tame left_os n (sys c) 0.
Proof. eapply tame_weaken; [apply tame_sys|lia]. Qed.
Lemma tame_do_int c : tame left n (do_int c) 1.
Proof.
  apply tame_on_proc, tame_on_os. unfold sys_int.
  eapply tame_bind; [apply tame_sys|intros; apply tame_ret|lia].
Qed.
Lemma tame_on_pre {A} (c : M (dstate imap iset) A) : calm c → tame left n (on_pre c) 0.
Proof. by apply tame_zoom_other. Qed.
Lemma tame_on_post {A} (c : M (dstate imap iset) A) : calm c → tame left n (on_post c) 0.
Proof. by apply tame_zoom_other. Qed.
Lemma tame_on_pre_modify f : tame left n (on_pre (modify f)) 0.
Proof. by apply tame_on_pre. Qed.
Lemma tame_on_os_0 {A} (c : M os A) : tame left_os n c 0 → tame left_proc n (on_os c) 0.
Proof. apply tame_on_os. Qed.
Lemma tame_on_proc_0 {A} (c : M proc A) : tame left_proc n c 0 → tame left n (on_proc c) 0.
Proof. apply tame_on_proc. Qed.
Lemma tame_parse_args i args loc : tame left_proc n (parse_args i args loc) 0.
Proof.
  revert i loc. induction args as [|a args IH]; intros i loc; simpl; tame_steps; auto.
Qed.
End bound.

#[local] Hint Resolve tame_sys_0 tame_do_sys_0 tame_on_pre_modify tame_parse_args : tame.
#[local] Hint Extern 1 (tame left_proc _ (on_os _) 0) => apply tame_on_os_0; tame_steps : tame.
#[local] Hint Extern 1 (tame left _ (on_proc _) 0) => apply tame_on_proc_0; tame_steps : tame.
#[local] Hint Extern 1 (tame left _ (on_pre (process_buffer _ _ _)) 0) =>
  apply tame_on_pre, calm_process_buffer : tame.
#[local] Hint Extern 1 (tame left _ (on_post (process_buffer _ _ _)) 0) =>
  apply tame_on_post, calm_process_buffer : tame.

(** A turn of either loop consumes an answer, the one to its [read]. *)
Lemma tame_pre_turn n : tame left n pre_turn 1.
Proof.
  unfold pre_turn. eapply (tame_bind _ _ _ _ 1 0); [|intros; tame_steps|lia].
  unfold pre_fifo_read. eapply (tame_bind _ _ _ _ 0 1); [apply tame_gets|intros f|lia].
  eapply (tame_bind _ _ _ _ 1 0); [apply tame_do_sys|intros; tame_steps|lia].
Qed.
Lemma tame_post_turn n : tame left n post_turn 1.
Proof.
  unfold post_turn. eapply (tame_bind _ _ _ _ 1 0); [|intros; tame_steps|lia].
  unfold post_fifo_read. eapply (tame_bind _ _ _ _ 0 1); [apply tame_gets|intros f|lia].
  eapply (tame_bind _ _ _ _ 1 0); [apply tame_do_sys|intros; tame_steps|lia].
Qed.
Lemma tame_pre_phase n : tame left n (pre_phase n) 1.
Proof.
  unfold pre_phase. eapply (tame_bind _ _ _ _ 0 1); [tame_steps|intros _|lia].
  eapply (tame_bind _ _ _ _ 1 0); [apply tame_do_int|intros t|lia].
  eapply (tame_bind _ _ _ _ 0 0); [tame_steps|intros _|lia].
  apply tame_while; [apply tame_gets|apply tame_pre_turn].
Qed.
#[local] Hint Extern 1 (tame left _ (while_ _ _ post_turn) 0) =>
  apply tame_while; [apply tame_gets|apply tame_post_turn] : tame.
Lemma tame_post_phase n garbage : tame left n (post_phase n garbage) 0.
Proof. tame_steps. Qed.
Lemma tame_main_loop n garbage : tame left n (main_loop n garbage) 0.
Proof.
  apply tame_while; [apply tame_gets|].
  eapply (tame_bind _ _ _ _ 1 0); [apply tame_pre_phase|intros; apply tame_post_phase|lia].
Qed.
#[local] Hint Resolve tame_main_loop : tame.
Lemma tame_main n garbage heap argv : tame left n (main n garbage heap argv) 0.
Proof. unfold main. tame_steps. Qed.

(** Any two sufficient amounts of fuel give the same run. *)
Ltac agree_steps :=
  repeat match goal with
  | |- agree _ _ _ ?c ?c => apply agree_refl
  | |- agree _ _ _ (bind _ _) (bind _ _) =>
      apply (agree_bind _ _ _ _ _ _ _ 0); [by tame_steps| |intros ?]
  | |- agree _ _ _ (if ?b then _ else _) _ => destruct b
  | |- agree _ _ _ (match ?b with _ => _ end) _ => destruct b
  end.
Lemma agree_pre_phase n m : agree left n m (pre_phase n) (pre_phase m).
Proof.
  unfold pre_phase. do 3 (apply (agree_bind _ _ _ _ _ _ _ 0); [by tame_steps|apply agree_refl|intros ?]).
  apply agree_while; [apply tame_gets|apply tame_pre_turn|apply agree_refl].
Qed.
Lemma agree_post_phase n m garbage : agree left n m (post_phase n garbage) (post_phase m garbage).
Proof.
  unfold post_phase. agree_steps.
  apply agree_while; [apply tame_gets|apply tame_post_turn|apply agree_refl].
Qed.
Lemma agree_main_loop n m garbage : agree left n m (main_loop n garbage) (main_loop m garbage).
Proof.
  apply agree_while; [apply tame_gets| |].
  - eapply (tame_bind _ _ _ _ 1 0); [apply tame_pre_phase|intros; apply tame_post_phase|lia].
  - eapply agree_bind; [apply tame_pre_phase|apply agree_pre_phase|].
    intros _. apply agree_post_phase.
Qed.
Lemma agree_main n m garbage heap argv :
  agree left n m (main n garbage heap argv) (main m garbage heap argv).
Proof. unfold main. agree_steps. apply agree_main_loop. Qed.

(** ** What the phases leave alone *)

(** The detector at the post-failure stage: the reports only grow, and of the
    flags only [post_testing_complete] is set. *)
Definition same_pre d d' : Prop :=
  reports (mem d) `prefix_of` reports (mem d') ∧
  pre_testing_complete d' = pre_testing_complete d ∧
  pre_failure_point_complete d' = pre_failure_point_complete d.
#[local] Instance same_pre_preorder : PreOrder same_pre.
Proof.
  split; [by intros d; split|]. intros d1 d2 d3 (H1&?&?) (H2&?&?).
  split; [by etrans|]. split; congruence.
Qed.
Definition more_reports (w w' : world imap iset) : Prop := reports w `prefix_of` reports w'.
#[local] Instance more_reports_preorder : PreOrder more_reports.
Proof. unfold more_reports. split; [by intros w|]. intros w1 w2 w3. by etrans. Qed.
Lemma keeps_say r : keeps more_reports (say r).
Proof. apply keeps_modify. intros w. unfold more_reports. simpl. by apply prefix_app_r. Qed.
Lemma keeps_upd f : keeps more_reports (upd f).
Proof. apply keeps_modify. intros w. by unfold more_reports. Qed.
#[local] Hint Resolve keeps_say keeps_upd : keeps.
Lemma keeps_on_mem {A} (c : M (world imap iset) A) : keeps more_reports c → keeps same_pre (on_mem c).
Proof. apply keeps_zoom. intros d w Hw. by split. Qed.
#[local] Hint Extern 1 (keeps same_pre (on_mem _)) => apply keeps_on_mem; keeps_steps : keeps.
Lemma keeps_update_post op : keeps same_pre (update_pm_status POST_FAILURE op).
Proof.
  unfold update_pm_status. change (POST_FAILURE =? PRE_FAILURE) with false.
  destruct (func_ret op); destruct (operation op); keeps_steps.
  by apply keeps_modify.
Qed.

(** The whole program at the post-failure stage: the global shadow memory stays
    as it was, and the flags and reports as above. *)
Definition isolated p p' : Prop :=
  shadow (mem (det p')) = shadow (mem (det p)) ∧ same_pre (det p) (det p').
#[local] Instance isolated_preorder : PreOrder isolated.
Proof.
  split; [by intros p; split|]. intros p1 p2 p3 [H1 ?] [H2 ?]. split; [congruence|by etrans].
Qed.
Lemma keeps_anything {S A} (c : M S A) : keeps (λ _ _, True) c.
Proof. intros s. unfold wlp, wpe. by destruct (c s). Qed.
Lemma keeps_on_proc {A} (c : M proc A) : keeps isolated (on_proc c).
Proof. eapply keeps_zoom; [|apply keeps_anything]. by intros p t _. Qed.
Lemma keeps_on_post {A} (c : M (dstate imap iset) A) :
  keeps same_pre c → keeps isolated (on_post c).
Proof. apply keeps_zoom. intros p d Hd. by split. Qed.
#[local] Hint Resolve keeps_update_post : keeps.
Lemma keeps_process_post n buf : keeps same_pre (process_buffer POST_FAILURE n buf).
Proof. unfold process_buffer. keeps_steps. Qed.
#[local] Hint Resolve keeps_on_proc keeps_on_post keeps_process_post : keeps.
#[local] Hint Extern 2 (keeps isolated (modify _)) => apply keeps_modify; intros ?; by split : keeps.
Lemma keeps_post_phase n garbage : keeps isolated (post_phase n garbage).
Proof.
  keeps_steps. intros p. by apply wpe_zoom, wpe_modify.
Qed.

(** ** The flags *)

(** The entry is the call [o], not the return from it. *)
Definition is_call (o : pm_op_t) (op : trace_entry_t) : bool :=
  negb (func_ret op) && bool_decide (operation op = o).

Definition same_flags d d' : Prop :=
  pre_testing_complete d' = pre_testing_complete d ∧
  pre_failure_point_complete d' = pre_failure_point_complete d ∧
  post_testing_complete d' = post_testing_complete d.
#[local] Instance same_flags_preorder : PreOrder same_flags.
Proof.
  unfold same_flags. split; [done|]. intros d1 d2 d3 (?&?&?) (?&?&?). intuition congruence.
Qed.
Lemma keeps_flags_on_mem {A} (c : M (world imap iset) A) : keeps same_flags (on_mem c).
Proof. eapply keeps_zoom; [|apply keeps_anything]. by intros d w _. Qed.
#[local] Hint Resolve keeps_flags_on_mem : keeps.

(** A flag is set by its operation at its stage and by nothing else. *)
Definition flags_after stage (op : trace_entry_t) d d' : Prop :=
  pre_testing_complete d'
    = pre_testing_complete d || (stage =? PRE_FAILURE) && is_call TESTING_END op ∧
  pre_failure_point_complete d'
    = pre_failure_point_complete d || (stage =? PRE_FAILURE) && is_call TRACE_END op ∧
  post_testing_complete d'
    = post_testing_complete d || (stage =? POST_FAILURE) && is_call TESTING_END op.

Lemma keeps_flags_other stage op :
  is_call TESTING_END op = false → is_call TRACE_END op = false →
  keeps same_flags (update_pm_status stage op).
Proof.
  unfold is_call, update_pm_status. intros H1 H2.
  destruct (func_ret op), (operation op); try done; keeps_steps.
Qed.
Lemma flags_step stage op : keeps (flags_after stage op) (update_pm_status stage op).
Proof.
  destruct (is_call TESTING_END op) eqn:H1; [|destruct (is_call TRACE_END op) eqn:H2].
  - unfold is_call in H1. apply andb_true_iff in H1 as [Hr%negb_true_iff Ho%bool_decide_eq_true].
    intros d. unfold flags_after, is_call, update_pm_status. rewrite Hr, Ho. simpl.
    rewrite !andb_false_r, !orb_false_r. unfold when.
    destruct (Z.eqb_spec stage PRE_FAILURE) as [->|]; [|destruct (stage =? POST_FAILURE)];
      repeat split; simpl; by rewrite ?orb_true_r, ?orb_false_r.
  - unfold is_call in H2. apply andb_true_iff in H2 as [Hr%negb_true_iff Ho%bool_decide_eq_true].
    intros d. unfold flags_after, is_call, update_pm_status. rewrite Hr, Ho. simpl.
    rewrite !andb_false_r, !orb_false_r. unfold when.
    apply wpe_bind, wpe_zoom, wpe_modify. simpl.
    destruct (stage =? PRE_FAILURE); repeat split; simpl; by rewrite ?orb_true_r, ?orb_false_r.
  - eapply keeps_impl; [|by apply keeps_flags_other]. intros d d' (?&?&?). unfold flags_after.
    by rewrite H1, H2, !andb_false_r, !orb_false_r.
Qed.
Lemma flags_run stage ops d :
  wlp (update_all stage ops) (λ _ d',
    pre_testing_complete d'
      = pre_testing_complete d || (stage =? PRE_FAILURE) && existsb (is_call TESTING_END) ops ∧
    pre_failure_point_complete d'
      = pre_failure_point_complete d || (stage =? PRE_FAILURE) && existsb (is_call TRACE_END) ops ∧
    post_testing_complete d'
      = post_testing_complete d || (stage =? POST_FAILURE) && existsb (is_call TESTING_END) ops) d.
Proof.
  revert d. induction ops as [|op ops IH]; intros d; simpl.
  { apply wpe_ret. by rewrite !andb_false_r, !orb_false_r. }
  apply wpe_bind. eapply wpe_mono; [apply flags_step| |done].
  intros _ d' (H1&H2&H3). eapply wpe_mono; [apply IH| |done]. simpl.
  intros _ d'' (->&->&->). rewrite H1, H2, H3. by rewrite !andb_orb_distrib_r, !orb_assoc.
Qed.

(** ** The FIFO buffer *)

(** An entry in the FIFO, its padding zero. *)
Definition wire (op : trace_entry_t) : list Z :=
  encode_entry [0; 0; 0] [0; 0; 0; 0] [0; 0; 0; 0] op.
Definition wires (ops : list trace_entry_t) : list Z := concat (map wire ops).

Lemma wire_length op : length (wire op) = entry_size.
Proof. by apply encode_entry_length. Qed.
Lemma wires_cons op ops : wires (op :: ops) = wire op ++ wires ops.
Proof. done. Qed.
Lemma wires_length ops : length (wires ops) = (length ops * entry_size)%nat.
Proof.
  induction ops as [|op ops IH]; [done|]. by rewrite wires_cons, length_app, wire_length, IH.
Qed.
Lemma get_trace_wires ops rest i op :
  Forall entry_wf ops → ops !! i = Some op → get_trace (wires ops ++ rest) i = op.
Proof.
  intros Hops. revert i. induction Hops as [|o ops Ho Hops IH]; intros i Hi; [done|].
  unfold get_trace in *. rewrite wires_cons, <-app_assoc. destruct i as [|i]; simpl in Hi.
  - simplify_eq. rewrite drop_0. by apply decode_encode.
  - rewrite Nat.mul_succ_l, Nat.add_comm. rewrite <-(wire_length o) at 1.
    rewrite drop_app_add' by done. by apply IH.
Qed.
Lemma for_each_seq {S A} (l : list A) k (f : nat → M S unit) (body : A → M S unit) s :
  (∀ i x, l !! i = Some x → f (k + i)%nat = body x) →
  for_each (seq k (length l)) f s = for_each l body s.
Proof.
  revert k s. induction l as [|x l IH]; intros k s Hf; [done|]. simpl. unfold bind.
  rewrite <-(Hf 0%nat x), Nat.add_0_r by done. destruct (f k s); [|done]. apply IH.
  intros i y Hi. rewrite <-(Hf (Datatypes.S i) y) by done. f_equal. lia.
Qed.
Lemma fill_wires ops buf :
  (length ops ≤ BUF_ENTRIES)%nat → fill (wires ops) buf = wires ops ++ drop (length (wires ops)) buf.
Proof.
  intros Hl. unfold fill. rewrite take_ge; [done|]. rewrite wires_length. unfold PIN_FIFO_BUF_SIZE.
  by apply Nat.mul_le_mono_r.
Qed.
(** A buffer that was filled with whole entries is worked through entry by entry. *)
Lemma process_wires stage ops buf d :
  Forall entry_wf ops → (length ops ≤ BUF_ENTRIES)%nat →
  process_buffer stage (Z.of_nat (length (wires ops))) (fill (wires ops) buf) d
  = update_all stage ops d.
Proof.
  intros Hops Hl. unfold process_buffer.
  assert (entry_count (Z.of_nat (length (wires ops))) = Z.of_nat (length ops)) as ->.
  { unfold entry_count. rewrite wires_length. unfold BUF_ENTRIES in Hl.
    rewrite u64_small by (unfold U64, entry_size; lia).
    rewrite Nat2Z.inj_mul. apply Z.div_mul. done. }
  rewrite Z.min_l, Nat2Z.id by (unfold BUF_ENTRIES in *; lia).
  rewrite (proj2 (Z.ltb_ge _ _)) by lia. unfold bind, update_all.
  rewrite (for_each_seq ops 0 _ (update_pm_status stage)).
  - by destruct (for_each ops (update_pm_status stage) d) as [[] |].
  - intros i op Hi. rewrite fill_wires by done. simpl. by erewrite get_trace_wires.
Qed.

(** ** Properties *)

(** The program needs no more turns of its loops than the system gives it
    answers: with any bound above that number, [main] does not run into the
    bound, and the bound makes no difference to what it does. *)
Theorem main_terminates n m garbage heap argv p :
  (left p < n)%nat → (left p < m)%nat →
  main n garbage heap argv p = main m garbage heap argv p ∧
  ∀ p', main n garbage heap argv p ≠ Abort OutOfFuel p'.
Proof.
  intros Hn Hm. split; [by apply agree_main|]. intros p' H.
  pose proof (tame_main n garbage heap argv p Hn) as Ht. unfold wpe in Ht. by rewrite H in Ht.
Qed.

(** C18. A post-failure run cannot disturb the pre-failure one: when the second
    half of a failure point returns, the global shadow memory and the flags of
    the pre-failure run are what they were, and no report has been lost,
    whatever the post-failure trace contained. *)
Theorem post_phase_isolated fuel garbage p again p' :
  post_phase fuel garbage p = Ok again p' →
  shadow (mem (det p')) = shadow (mem (det p)) ∧
  pre_testing_complete (det p') = pre_testing_complete (det p) ∧
  pre_failure_point_complete (det p') = pre_failure_point_complete (det p) ∧
  reports (mem (det p)) `prefix_of` reports (mem (det p')).
Proof.
  intros H. pose proof (keeps_post_phase fuel garbage p) as Hk. unfold wlp, wpe in Hk.
  rewrite H in Hk. destruct Hk as (?&?&?&?). done.
Qed.

(** Called with fewer than three arguments, the program exits with code 1
    before it touches the system: no FIFO is made and no process started. *)
Theorem main_usage fuel garbage heap argv p :
  argv ≠ [] → (length argv < 4)%nat →
  ∃ p', main fuel garbage heap argv p = Abort (Exited 1) p' ∧
    calls (osys (proc_ p')) = calls (osys (proc_ p)).
Proof.
  intros Hne Hlen. unfold main, on_proc. unfold bind at 1. unfold zoom, init.
  destruct (proc_ p) as [c e o] eqn:Hp. unfold bind. simpl. unfold when at 1.
  assert ((u64 (Z.of_nat (length argv) - 1) <? 3) = true) as Hu.
  { destruct argv; [done|]. simpl length in *. rewrite u64_small by (unfold U64; lia). lia. }
  destruct (negb _); simpl; unfold parse_exec_command, bind; rewrite Hu; simpl;
    (eexists; split; [reflexivity|done]).
Qed.

(** A [read] that fails is not noticed: the size -1, taken as unsigned, sends
    the loop over the buffer past its end, whatever the buffer holds. *)
Theorem failed_read_never_returns stage buf d :
  ∃ e d', process_buffer stage (-1) buf d = Abort e d'.
Proof.
  unfold process_buffer. unfold bind.
  destruct (for_each _ _ d) as [[] d'|e d']; [|by eexists _, _].
  change (Z.of_nat BUF_ENTRIES <? entry_count (-1)) with true. by eexists _, _.
Qed.
End facts.
