(* ===== verification/Scenarios.v ===== *)
(** * Concrete runs

    Small traces on the segment-list containers of [SegList], the inputs at
    which the theorems of the other files are instantiated: a program that
    stores a value, flushes and fences it, another that forgets to, and the
    reads of the program that runs after the failure. *)
From stdpp Require Import base list strings gmap.
From S2P Require Import Prelude Trace Icl SegList ShadowPM Detector.
Open Scope Z_scope.

(** The first byte of persistent memory that the runs use. *)
Definition pm0 : Z := PM_ADDR_BASE + 4096.

Definition entry (o : pm_op_t) (t src dst n ip : Z) : trace_entry_t :=
  TraceEntry o false t src dst n ip 0.
Definition st (t a n : Z) : trace_entry_t := entry WRITE t 0 a n 77.
Definition ld (t a n : Z) : trace_entry_t := entry READ t a 0 n 88.
Definition clwb (t a n : Z) : trace_entry_t := entry CLWB t a 0 n 99.
Definition sfence (t : Z) : trace_entry_t := entry SFENCE t 0 0 0 100.
Definition bare (o : pm_op_t) (t : Z) : trace_entry_t := entry o t 0 0 0 0.
Definition alloc (t a n : Z) : trace_entry_t := entry PM_TRACE_PM_ADDR_ADD t 0 a n 0.
Definition txadd (t a n : Z) : trace_entry_t := entry PM_TRACE_TX_ADDR_ADD t 0 a n 55.
Definition commitvar (t a n : Z) : trace_entry_t := entry ADD_COMMIT_VAR t a 0 n 0.

Definition shadow0 : ShadowPM seg_map seg_set := new_ShadowPM.
Definition world0 : world seg_map seg_set := World shadow0 [].
Definition dstate0 : dstate seg_map seg_set := DState world0 false false false.

(** The state a computation ends in, returned or not. *)
Definition end_state {S A} (r : res S A) : S :=
  match r with Ok _ s => s | Abort _ s => s end.

(** Two stores, of which only the first is made persistent. *)
Definition half_persisted : list trace_entry_t :=
  [alloc 0 pm0 128; st 0 pm0 8; clwb 0 pm0 8; sfence 0; st 0 (pm0 + 64) 8].
Definition dstate_half : dstate seg_map seg_set :=
  end_state (update_all PRE_FAILURE half_persisted dstate0).
