(* ===== verification/ByteSpec.v ===== *)
(** * The byte-wise reference detector

    What the interval-based shadow memory promises, stated without intervals:
    every byte of persistent memory carries a status, the time of its last
    modification and the instruction that wrote it, and an entry of the trace
    repaints the bytes of its range.  [ref_step] is an executable specification
    of [update_pm_status]; the file ends with the correspondence of the two
    representations, the simulation itself is in [Refinement]. *)
From stdpp Require Import base list strings gmap.
From S2P Require Import Prelude Trace Icl ShadowPM ShadowFacts Detector.
Open Scope Z_scope.

(** ** Bytes of a range *)

Definition in_range (addr size x : Z) : bool := (addr <=? x) && (x <? addr + size).
Definition paint {A} (addr size : Z) (v : A) (f : Z → A) : Z → A :=
  λ x, if in_range addr size x then v else f x.
Definition covers (addr size : Z) (p : Z → bool) : bool := forallb p (seqZ addr size).

(** ** State *)

Record bytes := Bytes {
  b_status : Z → option PMStatus;    (** status of a byte *)
  b_time : Z → option Z;             (** epoch of its last modification *)
  b_writer : Z → option Z;           (** instruction that wrote it *)
  b_commit_var : Z → bool;           (** is it part of a commit variable *)
  b_now : Z;                         (** current epoch *)
  b_commit : Z;                      (** epoch of the last commit, or -1 *)
  b_lib : Z → option Z;              (** thread: depth of PMDK calls *)
  b_tx : Z → option Z;               (** thread: depth of transactions *)
  b_skip : Z → option Z;             (** thread: 1 when detection is off *)
  b_added : Z → Z → bool;            (** thread, byte: added to its transaction *)
  b_late : Z → Z → bool;             (** thread, byte: written before being added *)
}.

Definition with_status (f : Z → option PMStatus) (b : bytes) : bytes :=
  Bytes f (b_time b) (b_writer b) (b_commit_var b) (b_now b) (b_commit b)
    (b_lib b) (b_tx b) (b_skip b) (b_added b) (b_late b).
Definition with_time (f : Z → option Z) (b : bytes) : bytes :=
  Bytes (b_status b) f (b_writer b) (b_commit_var b) (b_now b) (b_commit b)
    (b_lib b) (b_tx b) (b_skip b) (b_added b) (b_late b).
Definition with_writer (f : Z → option Z) (b : bytes) : bytes :=
  Bytes (b_status b) (b_time b) f (b_commit_var b) (b_now b) (b_commit b)
    (b_lib b) (b_tx b) (b_skip b) (b_added b) (b_late b).
Definition with_commit_var (f : Z → bool) (b : bytes) : bytes :=
  Bytes (b_status b) (b_time b) (b_writer b) f (b_now b) (b_commit b)
    (b_lib b) (b_tx b) (b_skip b) (b_added b) (b_late b).
Definition with_now (t : Z) (b : bytes) : bytes :=
  Bytes (b_status b) (b_time b) (b_writer b) (b_commit_var b) t (b_commit b)
    (b_lib b) (b_tx b) (b_skip b) (b_added b) (b_late b).
Definition with_commit (t : Z) (b : bytes) : bytes :=
  Bytes (b_status b) (b_time b) (b_writer b) (b_commit_var b) (b_now b) t
    (b_lib b) (b_tx b) (b_skip b) (b_added b) (b_late b).
Definition with_lib (f : Z → option Z) (b : bytes) : bytes :=
  Bytes (b_status b) (b_time b) (b_writer b) (b_commit_var b) (b_now b) (b_commit b)
    f (b_tx b) (b_skip b) (b_added b) (b_late b).
Definition with_tx (f : Z → option Z) (b : bytes) : bytes :=
  Bytes (b_status b) (b_time b) (b_writer b) (b_commit_var b) (b_now b) (b_commit b)
    (b_lib b) f (b_skip b) (b_added b) (b_late b).
Definition with_skip (f : Z → option Z) (b : bytes) : bytes :=
  Bytes (b_status b) (b_time b) (b_writer b) (b_commit_var b) (b_now b) (b_commit b)
    (b_lib b) (b_tx b) f (b_added b) (b_late b).
Definition with_added (f : Z → Z → bool) (b : bytes) : bytes :=
  Bytes (b_status b) (b_time b) (b_writer b) (b_commit_var b) (b_now b) (b_commit b)
    (b_lib b) (b_tx b) (b_skip b) f (b_late b).
Definition with_late (f : Z → Z → bool) (b : bytes) : bytes :=
  Bytes (b_status b) (b_time b) (b_writer b) (b_commit_var b) (b_now b) (b_commit b)
    (b_lib b) (b_tx b) (b_skip b) (b_added b) f.

(** One cell of a function. *)
Definition fupd {A} (i : Z) (v : A) (f : Z → A) : Z → A := λ j, if i =? j then v else f j.

(** Two states are the same when no observation tells them apart. *)
#[export] Instance bytes_equiv : Equiv bytes := λ b1 b2,
  (∀ x, b_status b1 x = b_status b2 x) ∧ (∀ x, b_time b1 x = b_time b2 x) ∧
  (∀ x, b_writer b1 x = b_writer b2 x) ∧ (∀ x, b_commit_var b1 x = b_commit_var b2 x) ∧
  b_now b1 = b_now b2 ∧ b_commit b1 = b_commit b2 ∧
  (∀ t, b_lib b1 t = b_lib b2 t) ∧ (∀ t, b_tx b1 t = b_tx b2 t) ∧
  (∀ t, b_skip b1 t = b_skip b2 t) ∧
  (∀ t x, b_added b1 t x = b_added b2 t x) ∧ (∀ t x, b_late b1 t x = b_late b2 t x).

(** ** Steps *)

Definition bad_range (addr size : Z) : bool := (addr =? 0) || (size =? 0).

(** A store of the program paints its range with a status and the epoch. *)
Definition ref_paint (addr size : Z) (st : PMStatus) (b : bytes) : bytes :=
  with_time (paint addr size (Some (b_now b)) (b_time b))
    (with_status (paint addr size (Some st) (b_status b)) b).
Definition ref_origin (addr size ip : Z) (b : bytes) : bytes :=
  with_writer (paint addr size (Some ip) (b_writer b)) b.

(** A store to a commit variable is a commit at the current epoch. *)
Definition ref_commit_var (stage : Z) (op : trace_entry_t) (b : bytes) : bytes :=
  if (stage =? PRE_FAILURE) && covers (dst_addr op) (size op) (b_commit_var b)
  then ref_origin (dst_addr op) (size op) (instr_ptr op) (with_commit (b_now b) b)
  else b.

(** Inside a transaction, a store to bytes that have not been added is late. *)
Definition ref_late (op : trace_entry_t) (tx : Z) (b : bytes) : bytes :=
  if (0 <? tx) && negb (covers (dst_addr op) (size op) (b_added b (tid op)))
  then with_late (fupd (tid op) (paint (dst_addr op) (size op) true
                                   (b_late b (tid op))) (b_late b)) b
  else b.

Definition ref_store (stage : Z) (op : trace_entry_t) (b : bytes) : option bytes :=
  let a := dst_addr op in
  let n := size op in
  untracked ← (if stage =? POST_FAILURE then Some true
               else (λ k, k =? 1) <$> b_skip b (tid op));
  if untracked : bool then Some (ref_origin a n (instr_ptr op) (ref_paint a n CONSISTENT b))
  else
    lib ← b_lib b (tid op);
    if 0 <? lib then Some (ref_paint a n CONSISTENT b)
    else
      tx ← b_tx b (tid op);
      let st := if non_temporal op =? 0 then MODIFIED else WRITEBACK_PENDING in
      Some (ref_origin a n (instr_ptr op) (ref_paint a n st (ref_late op tx b))).

Definition ref_write (stage : Z) (op : trace_entry_t) (b : bytes) : option bytes :=
  if bad_range (dst_addr op) (size op) then None
  else ref_store stage op (ref_commit_var stage op b).

(** Which post-failure reads are excused. *)
Definition ref_read_ok (b : bytes) (t addr size : Z) : bool :=
  covers addr size (λ x, match b_status b x with
                         | None | Some CLEAN | Some CONSISTENT => true
                         | _ => false end)
  || (covers addr size (λ x, match b_status b x with
                             | None | Some WRITTEN_BACK => true
                             | _ => false end)
      && ((b_commit b <? 0)
          || covers addr size (λ x, match b_time b x with
                                    | None => true
                                    | Some u => u <? b_commit b end)))
  || covers addr size (b_commit_var b)
  || covers addr size (b_added b t).

Definition ref_read (stage : Z) (op : trace_entry_t) (b : bytes) : option bool :=
  if negb (stage =? POST_FAILURE) then Some false else
  skip ← b_skip b (tid op);
  if skip =? 1 then Some false
  else if bad_range (src_addr op) (size op) || (65536 <=? size op) then None
  else Some (negb (ref_read_ok b (tid op) (src_addr op) (size op))).

Definition ref_tx_add (op : trace_entry_t) (b : bytes) : option bytes :=
  _ ← b_tx b (tid op);
  if bad_range (dst_addr op) (size op) then None
  else Some (with_added (fupd (tid op) (paint (dst_addr op) (size op) true
                                          (b_added b (tid op))) (b_added b)) b).

(** The end of a transaction: the outermost one makes its bytes consistent. *)
Definition ref_tx_end (t : Z) (b : bytes) : option bytes :=
  n ← b_tx b t;
  if n <=? 0 then None
  else if n =? 1 then
    Some (with_late (fupd t (λ _, false) (b_late b))
           (with_added (fupd t (λ _, false) (b_added b))
             (with_status (λ x, if b_added b t x then Some CONSISTENT else b_status b x)
               (with_tx (fupd t (Some 0) (b_tx b)) b))))
  else Some (with_tx (fupd t (Some (n - 1)) (b_tx b)) b).

Definition ref_alloc (stage : Z) (op : trace_entry_t) (b : bytes) : option bytes :=
  if bad_range (dst_addr op) (size op) then None
  else if stage =? PRE_FAILURE
  then Some (with_status (paint (dst_addr op) (size op) (Some CLEAN) (b_status b)) b)
  else Some b.

(** One step: the state after the entry and whether it is a cross-failure bug;
    [None] when the detector stops. *)
Definition ref_step (stage : Z) (op : trace_entry_t) (b : bytes) : option (bytes * bool) :=
  let plain (o : option bytes) := (λ b', (b', false)) <$> o in
  let pre (b' : bytes) := Some (if stage =? PRE_FAILURE then b' else b, false) in
  if func_ret op then
    match operation op with
    | PMEM_MAP_FILE => plain (ref_alloc stage op b)
    | _ => Some (b, false)
    end
  else
    match operation op with
    | TRACE_END | TRACE_BEGIN | TESTING_END | PMEM_MAP_FILE | INVALID => Some (b, false)
    | READ => (λ bug, (b, bug)) <$> ref_read stage op b
    | WRITE => plain (ref_write stage op b)
    | CLWB =>
        pre (with_status (paint (src_addr op) (size op) (Some WRITEBACK_PENDING)
                            (b_status b)) b)
    | SFENCE =>
        let b' := with_status (λ x, drain <$> b_status b x) b in
        if stage =? PRE_FAILURE
        then if b_now b =? INT_MAX then None else Some (with_now (b_now b + 1) b', false)
        else Some (b', false)
    | PM_TRACE_PM_ADDR_ADD => plain (ref_alloc stage op b)
    | PMEM_UNMAP | PM_TRACE_PM_ADDR_REMOVE =>
        if bad_range (src_addr op) (size op) then None
        else Some (with_status (paint (src_addr op) (size op) None (b_status b)) b, false)
    | PM_TRACE_TX_ADDR_ADD | PM_TRACE_TX_ALLOC => plain (ref_tx_add op b)
    | PM_TRACE_TX_BEGIN =>
        n ← b_tx b (tid op);
        if n =? INT_MAX then None
        else Some (with_tx (fupd (tid op) (Some (n + 1)) (b_tx b)) b, false)
    | PM_TRACE_TX_END => plain (ref_tx_end (tid op) b)
    | PMDK_INTERNAL_CALL =>
        n ← b_lib b (tid op);
        if n =? INT_MAX then None
        else Some (with_lib (fupd (tid op) (Some (n + 1)) (b_lib b)) b, false)
    | PMDK_INTERNAL_RET =>
        n ← b_lib b (tid op);
        if n <=? 0 then None
        else Some (with_lib (fupd (tid op) (Some (n - 1)) (b_lib b)) b, false)
    | ADD_COMMIT_VAR =>
        pre (with_commit_var (paint (src_addr op) (size op) true (b_commit_var b)) b)
    | PM_TRACE_DETECTION_SKIP_BEGIN =>
        k ← b_skip b (tid op);
        if k =? 1 then None
        else Some (with_skip (fupd (tid op) (Some 1) (b_skip b)) b, false)
    | PM_TRACE_DETECTION_SKIP_END =>
        k ← b_skip b (tid op);
        if k =? 1 then Some (with_skip (fupd (tid op) (Some 0) (b_skip b)) b, false)
        else None
    | PM_OP_OTHER _ => None
    end.

(** A trace: the state after it and the reads that are cross-failure bugs. *)
Fixpoint ref_run (stage : Z) (ops : list trace_entry_t) (b : bytes)
    : option (bytes * list trace_entry_t) :=
  match ops with
  | [] => Some (b, [])
  | op :: ops' =>
      '(b', bug) ← ref_step stage op b;
      '(b'', bad) ← ref_run stage ops' b';
      Some (b'', if bug : bool then op :: bad else bad)
  end.

(** ** From interval containers to bytes *)

(** The access [\[addr, addr+size)] stays in the address space. *)
Definition wf_range (addr size : Z) : Prop :=
  0 ≤ addr ∧ 0 ≤ size ∧ addr + size ≤ U64 ∧ ¬ (addr = 0 ∧ size = 0).

(** The range the handler of an operation uses. *)
Definition op_range (op : trace_entry_t) : option (Z * Z) :=
  match operation op with
  | READ | CLWB | PMEM_UNMAP | PM_TRACE_PM_ADDR_REMOVE | ADD_COMMIT_VAR =>
      Some (src_addr op, size op)
  | WRITE | PM_TRACE_PM_ADDR_ADD | PM_TRACE_TX_ADDR_ADD | PM_TRACE_TX_ALLOC
  | PMEM_MAP_FILE => Some (dst_addr op, size op)
  | _ => None
  end.
Definition entry_ok (op : trace_entry_t) : Prop :=
  match op_range op with Some (addr, size) => wf_range addr size | None => True end.

(** The same, to be computed. *)
Definition wf_rangeb (addr size : Z) : bool :=
  (0 <=? addr) && (0 <=? size) && (addr + size <=? U64) && negb ((addr =? 0) && (size =? 0)).
Definition entry_okb (op : trace_entry_t) : bool :=
  match op_range op with Some (addr, size) => wf_rangeb addr size | None => true end.
Lemma entry_okb_true op : entry_okb op = true → entry_ok op.
Proof.
  unfold entry_okb, entry_ok, wf_rangeb, wf_range. destruct (op_range op) as [[]|]; [lia|done].
Qed.
Lemma entries_okb_true ops : forallb entry_okb ops = true → Forall entry_ok ops.
Proof.
  rewrite forallb_forall, Forall_forall. intros H op Hop. apply entry_okb_true, H.
  by apply list_elem_of_In.
Qed.

Section abs.
Context {imap : Type → Type} {IM : IntervalMap imap} {iset : Type} {IS : IntervalSet iset}.
Context `{!IntervalMapLaws imap, !IntervalSetLaws iset}.

Definition mem_at (l : list iset) (t x : Z) : bool :=
  match arr_ref l t with Some s => is_mem s x | None => false end.

(** The bytes a shadow memory describes. *)
Definition abs (s : ShadowPM imap iset) : bytes :=
  Bytes (im_at (pm_status s)) (im_at (pm_modify_timestamps s))
    (im_at (write_addr_IP_mapping s)) (is_mem (commit_var_set_addr s))
    (global_timestamp s) (commit_timestamp s)
    (arr_ref (pre_InternalFunctLevel s)) (arr_ref (tx_level s))
    (arr_ref (skipDetectionStatus s))
    (mem_at (tx_added_addr s)) (mem_at (tx_non_added_write_addr s)).

(** The well-formed shadow memories: one cell per thread in every array, and
    the filter of checked reads empty. *)
Definition sh_wf (s : ShadowPM imap iset) : Prop :=
  arrays_ok s ∧ checked_addr_set s = ∅.

Lemma closed_in_range addr size x :
  wf_range addr size → ival_memb x (closed addr size) = in_range addr size x.
Proof.
  unfold wf_range, ival_memb, in_range, closed. simpl. intros. rewrite u64_small by lia. lia.
Qed.
Lemma in_range_closed addr size x :
  wf_range addr size → x ∈ closed addr size ↔ in_range addr size x = true.
Proof. intros H. by rewrite <-closed_in_range, ival_memb_spec. Qed.

Lemma covers_spec addr size p :
  covers addr size p = true ↔ ∀ x, in_range addr size x = true → p x = true.
Proof.
  unfold covers, in_range. rewrite forallb_forall. split.
  - intros H x Hx. apply H, list_elem_of_In, elem_of_seqZ. lia.
  - intros H x Hx%list_elem_of_In%elem_of_seqZ. apply H. lia.
Qed.
Lemma covers_ext addr size p q :
  (∀ x, p x = q x) → covers addr size p = covers addr size q.
Proof. intros H. apply eq_true_iff_eq. rewrite !covers_spec. by setoid_rewrite H. Qed.

Lemma SET_LOOKUP_covers (s : iset) addr size :
  wf_range addr size → SET_LOOKUP s addr size = covers addr size (is_mem s).
Proof.
  intros Hr. apply eq_true_iff_eq. rewrite covers_spec. unfold SET_LOOKUP.
  rewrite is_within_spec. by setoid_rewrite in_range_closed.
Qed.
Lemma MAP_LOOKUP_covers {V} (p : V → bool) (m : imap V) addr size :
  wf_range addr size →
  forallb p (MAP_LOOKUP m addr size)
  = covers addr size (λ x, match im_at m x with None => true | Some v => p v end).
Proof.
  intros Hr. apply eq_true_iff_eq. rewrite MAP_LOOKUP_forallb, covers_spec.
  setoid_rewrite in_range_closed; [|done]. split.
  - intros H x Hx. specialize (H x). case_match; naive_solver.
  - intros H x v Hx Hv. specialize (H x Hx). by rewrite Hv in H.
Qed.

(** The modification times of a range are all before [c] when their maximum is. *)
Lemma max_timestamp_lt c l : 0 ≤ c → (c >? max_timestamp l) = forallb (λ t, t <? c) l.
Proof.
  intros Hc. unfold max_timestamp.
  assert (∀ m, (c >? fold_left (λ m t, if m >? t then m else t) l m)
               = (m <? c) && forallb (λ t, t <? c) l) as ->; [|lia].
  induction l as [|t l IH]; intros m; simpl; [lia|]. rewrite IH.
  destruct (forallb _ l); case_match; lia.
Qed.

Lemma mem_at_upd l i b s t x :
  arr_ref l i = Some b →
  mem_at (arr_upd l i s) t x = fupd i (is_mem s) (mem_at l) t x.
Proof.
  intros Hi. unfold mem_at, fupd. destruct (Z.eqb_spec i t) as [<-|].
  - by rewrite (arr_ref_upd_eq _ _ _ b).
  - rewrite arr_ref_upd_ne; [done|done|]. apply arr_ref_bounds in Hi. lia.
Qed.
Lemma mem_at_insert l i b addr size t x :
  wf_range addr size → arr_ref l i = Some b →
  mem_at (arr_upd l i (SET_INSERT b addr size)) t x
  = fupd i (paint addr size true (mem_at l i)) (mem_at l) t x.
Proof.
  intros Hr Hi. erewrite mem_at_upd by eassumption. unfold fupd, paint.
  case_match; [|done]. rewrite SET_INSERT_mem, closed_in_range by done.
  unfold mem_at. rewrite Hi. by destruct (in_range addr size x).
Qed.
Lemma arr_ref_fupd {A} (l : list A) i a b t :
  arr_ref l i = Some b → arr_ref (arr_upd l i a) t = fupd i (Some a) (arr_ref l) t.
Proof.
  intros Hi. unfold fupd. destruct (Z.eqb_spec i t) as [<-|].
  - by rewrite (arr_ref_upd_eq _ _ _ b).
  - rewrite arr_ref_upd_ne; [done|done|]. apply arr_ref_bounds in Hi. lia.
Qed.

(** The commit loop makes consistent exactly the bytes of its intervals. *)
Lemma commit_intervals_at l (m : imap PMStatus) x :
  im_at (fold_left (λ m i, MAP_UPDATE_INTERVAL m i CONSISTENT) l m) x
  = if existsb (ival_memb x) l then Some CONSISTENT else im_at m x.
Proof.
  revert m. induction l as [|i l IH]; intros m; simpl; [done|]. rewrite IH.
  unfold MAP_UPDATE_INTERVAL. rewrite im_at_add.
  by destruct (ival_memb x i), (existsb (ival_memb x) l).
Qed.
Lemma segments_mem (s : iset) x : existsb (ival_memb x) (is_segments s) = is_mem s x.
Proof.
  apply eq_true_iff_eq. rewrite existsb_exists, is_segments_spec.
  split; intros (i&Hi&Hx); exists i; rewrite ?list_elem_of_In, <-?list_elem_of_In in *;
    by rewrite <-ival_memb_spec in * || rewrite ival_memb_spec in *.
Qed.
End abs.

(** ** The reference respects observational equality *)

#[export] Instance bytes_equivalence : Equivalence (≡@{bytes}).
Proof.
  split; unfold equiv, bytes_equiv; repeat intro; repeat split; intros;
    destruct_and?; by (done || congruence || etrans; eauto).
Qed.

(** Results of a step, up to observation. *)
Definition same_result (r1 r2 : option (bytes * bool)) : Prop :=
  match r1, r2 with
  | Some (b1, u1), Some (b2, u2) => b1 ≡ b2 ∧ u1 = u2
  | None, None => True
  | _, _ => False
  end.

Ltac bytes_ext :=
  unfold equiv, bytes_equiv in *; destruct_and?; simpl in *;
  repeat match goal with |- _ ∧ _ => split end; intros; unfold paint, fupd; simpl;
  repeat match goal with |- context [?i =? ?j] => destruct (i =? j) end;
  repeat match goal with
         | H : ∀ x, _ = _ |- _ => rewrite ?H; clear H
         | H : ∀ x y, _ = _ |- _ => rewrite ?H; clear H
         | H : _ = _ :> Z |- _ => rewrite ?H; clear H
         end; done.

#[export] Instance ref_paint_proper addr size st : Proper ((≡) ==> (≡)) (ref_paint addr size st).
Proof. intros b1 b2 Hb. bytes_ext. Qed.
#[export] Instance ref_origin_proper addr size ip : Proper ((≡) ==> (≡)) (ref_origin addr size ip).
Proof. intros b1 b2 Hb. bytes_ext. Qed.
#[export] Instance with_commit_proper : Proper ((=) ==> (≡) ==> (≡)) with_commit.
Proof. intros t ? <- b1 b2 Hb. bytes_ext. Qed.
#[export] Instance ref_commit_var_proper stage op : Proper ((≡) ==> (≡)) (ref_commit_var stage op).
Proof.
  intros b1 b2 Hb. unfold ref_commit_var.
  rewrite (covers_ext _ _ (b_commit_var b1) (b_commit_var b2)) by apply Hb.
  assert (b_now b1 = b_now b2) as -> by apply Hb. case_match; [by rewrite Hb|done].
Qed.
#[export] Instance ref_late_proper op tx : Proper ((≡) ==> (≡)) (ref_late op tx).
Proof.
  intros b1 b2 Hb. unfold ref_late.
  rewrite (covers_ext _ _ (b_added b1 (tid op)) (b_added b2 (tid op))) by (intros; apply Hb).
  case_match; [bytes_ext|done].
Qed.
Lemma ref_store_proper stage op b1 b2 :
  b1 ≡ b2 → option_Forall2 (≡) (ref_store stage op b1) (ref_store stage op b2).
Proof.
  intros Hb. unfold ref_store. pose proof Hb as (_&_&_&_&_&_&Hlib&Htx&Hskip&_).
  rewrite Hskip, Hlib, Htx.
  destruct (if stage =? POST_FAILURE then _ else _) as [[]|]; simpl;
    [apply Some_Forall2; by rewrite Hb| |apply None_Forall2].
  destruct (b_lib b2 (tid op)) as [lib|]; simpl; [|apply None_Forall2].
  destruct (0 <? lib); [apply Some_Forall2; by rewrite Hb|].
  destruct (b_tx b2 (tid op)) as [tx|]; simpl; [|apply None_Forall2].
  apply Some_Forall2. by rewrite Hb.
Qed.
Lemma ref_read_ok_proper t addr size b1 b2 :
  b1 ≡ b2 → ref_read_ok b1 t addr size = ref_read_ok b2 t addr size.
Proof.
  intros (Hst&Ht&_&Hc&_&Hcm&_&_&_&Ha&_). unfold ref_read_ok. rewrite Hcm.
  f_equal; [f_equal; [f_equal; [|f_equal; [|f_equal]]|]|]; apply covers_ext; intros x; by rewrite ?Hst, ?Ht, ?Hc, ?Ha.
Qed.
(** Closes a comparison of two results that branch in the same way. *)
Ltac same_solve :=
  repeat (case_match; simplify_eq/=); try done; (split; [bytes_ext|done]).

Lemma same_fmap (o1 o2 : option bytes) :
  option_Forall2 (≡) o1 o2 →
  same_result ((λ b', (b', false)) <$> o1) ((λ b', (b', false)) <$> o2).
Proof. by destruct 1. Qed.
Lemma ref_read_proper stage op b1 b2 :
  b1 ≡ b2 → ref_read stage op b1 = ref_read stage op b2.
Proof.
  intros Hb. unfold ref_read. pose proof Hb as (_&_&_&_&_&_&_&_&Hskip&_).
  rewrite Hskip. destruct (b_skip b2 (tid op)); [|done]. simpl.
  by rewrite (ref_read_ok_proper _ _ _ _ _ Hb).
Qed.
Lemma ref_write_proper stage op b1 b2 :
  b1 ≡ b2 →
  same_result ((λ b', (b', false)) <$> ref_write stage op b1)
              ((λ b', (b', false)) <$> ref_write stage op b2).
Proof.
  intros Hb. unfold ref_write. case_match; [done|].
  apply same_fmap, ref_store_proper. by rewrite Hb.
Qed.
Lemma ref_tx_end_proper t b1 b2 :
  b1 ≡ b2 →
  same_result ((λ b', (b', false)) <$> ref_tx_end t b1) ((λ b', (b', false)) <$> ref_tx_end t b2).
Proof.
  intros Hb. unfold ref_tx_end. pose proof Hb as (_&_&_&_&_&_&_&Htx&_).
  rewrite Htx. destruct (b_tx b2 t) as [n|]; [|done]. simpl. same_solve.
Qed.
Lemma ref_tx_add_proper op b1 b2 :
  b1 ≡ b2 →
  same_result ((λ b', (b', false)) <$> ref_tx_add op b1) ((λ b', (b', false)) <$> ref_tx_add op b2).
Proof.
  intros Hb. unfold ref_tx_add. pose proof Hb as (_&_&_&_&_&_&_&Htx&_).
  rewrite Htx. destruct (b_tx b2 (tid op)) as [n|]; [|done]. simpl. same_solve.
Qed.
Lemma ref_step_proper stage op b1 b2 :
  b1 ≡ b2 → same_result (ref_step stage op b1) (ref_step stage op b2).
Proof.
  intros Hb. unfold ref_step.
  pose proof Hb as (_&_&_&_&Hnow&_&Hlib&Htx&Hskip&_).
  assert (same_result ((λ b', (b', false)) <$> ref_alloc stage op b1)
                      ((λ b', (b', false)) <$> ref_alloc stage op b2)) as Halloc.
  { unfold ref_alloc. repeat case_match; simpl; try done. split; [bytes_ext|done]. }
  destruct (func_ret op); [destruct (operation op); done|].
  destruct (operation op); try done; simpl; rewrite ?Hnow, ?Hlib, ?Htx, ?Hskip;
    auto using ref_write_proper, ref_tx_end_proper, ref_tx_add_proper.
  1: { rewrite (ref_read_proper _ _ _ _ Hb). by destruct (ref_read stage op b2). }
  all: try destruct (b_tx b2 (tid op)); try destruct (b_lib b2 (tid op));
    try destruct (b_skip b2 (tid op)); simpl; same_solve.
Qed.

(** Results of a run, up to observation. *)
Definition same_run (r1 r2 : option (bytes * list trace_entry_t)) : Prop :=
  match r1, r2 with
  | Some (b1, l1), Some (b2, l2) => b1 ≡ b2 ∧ l1 = l2
  | None, None => True
  | _, _ => False
  end.
Lemma ref_run_proper stage ops b1 b2 :
  b1 ≡ b2 → same_run (ref_run stage ops b1) (ref_run stage ops b2).
Proof.
  revert b1 b2. induction ops as [|op ops IH]; intros b1 b2 Hb; [done|]. simpl.
  pose proof (ref_step_proper stage op _ _ Hb) as Hs. unfold same_result in Hs.
  destruct (ref_step stage op b1) as [[b1' u]|], (ref_step stage op b2) as [[b2' u2]|];
    simpl; try done. destruct Hs as [Hb' <-].
  specialize (IH _ _ Hb'). unfold same_run in IH.
  destruct (ref_run stage ops b1') as [[]|], (ref_run stage ops b2') as [[]|]; simpl; try done.
  destruct IH as [? ->]. done.
Qed.
