(* ===== verification/Refinement.v ===== *)
(** * The interval-based detector refines the byte-wise one

    The simulation of [update_pm_status] by [ref_step], operation by operation,
    and its consequences for whole traces. *)
From stdpp Require Import base list strings gmap.
From S2P Require Import Prelude Trace Icl ShadowPM ShadowFacts Detector ByteSpec.
From S2P Require Import SegList Scenarios.
Open Scope Z_scope.

Section refinement.
Context {imap : Type → Type} {IM : IntervalMap imap} {iset : Type} {IS : IntervalSet iset}.
Context {IML : IntervalMapLaws imap} {ISL : IntervalSetLaws iset}.
Implicit Types (w : world imap iset) (s : ShadowPM imap iset) (d : dstate imap iset).
Implicit Types (op : trace_entry_t) (stage : Z) (b : bytes).

(** The reports grew, by one cross-failure bug or by none. *)
Definition grew (rs rs' : list report) (bug : bool) : Prop :=
  rs `prefix_of` rs' ∧ bugs rs' = (bugs rs + Nat.b2n bug)%nat.

Lemma quiet_prefix rs rs' : quiet_ext rs rs' → rs `prefix_of` rs'.
Proof. intros (l&->&_). by exists l. Qed.
Lemma quiet_grew rs rs' : quiet_ext rs rs' → grew rs rs' false.
Proof.
  intros H. split; [by apply quiet_prefix|]. rewrite (quiet_ext_bugs _ _ H). simpl. lia.
Qed.
Lemma quiet_grew_trans rs1 rs2 rs3 bug : quiet_ext rs1 rs2 → grew rs2 rs3 bug → grew rs1 rs3 bug.
Proof.
  intros H [Hp Hb]. split; [etrans; [by apply quiet_prefix|done]|].
  by rewrite Hb, (quiet_ext_bugs _ _ H).
Qed.
Lemma grew_trans rs1 rs2 rs3 bug : grew rs1 rs2 bug → quiet_ext rs2 rs3 → grew rs1 rs3 bug.
Proof.
  intros [Hp Hb] H. split; [etrans; [done|by apply quiet_prefix]|].
  by rewrite (quiet_ext_bugs _ _ H).
Qed.

(** [c], run on [w], does what the reference result [r] says. *)
Definition sim {A} (c : M (world imap iset) A) w (r : option (bytes * bool)) : Prop :=
  wpe c (λ _ w', ∃ b' bug, r = Some (b', bug) ∧ abs (shadow w') ≡ b' ∧
           sh_wf (shadow w') ∧ grew (reports w) (reports w') bug)
        (λ _ _, r = None) w.

(** ** Automation *)

(** [abs] of an updated memory against the repainted bytes. *)
Ltac bytes_solve :=
  unfold equiv, bytes_equiv; repeat match goal with |- _ ∧ _ => split end; simpl; intros;
  try (by erewrite mem_at_insert by eassumption); unfold paint; autorewrite with icl; rewrite ?closed_in_range by assumption;
  repeat (case_match; try done); try done;
  try (by erewrite mem_at_upd by eassumption);
  try (by erewrite arr_ref_fupd by eassumption).
(** The arrays and the filter are unchanged, or updated in place. *)
Ltac wf_solve :=
  unfold sh_wf, arrays_ok in *; simpl in *; rewrite ?arr_upd_length; tauto.

Lemma bytes_equiv_refl b : b ≡ b.
Proof. by repeat split. Qed.

Lemma sim_same w (r : option (bytes * bool)) rs :
  sh_wf (shadow w) → quiet_ext (reports w) rs → r = Some (abs (shadow w), false) →
  ∃ b' bug, r = Some (b', bug) ∧ abs (shadow (World (shadow w) rs)) ≡ b' ∧
    sh_wf (shadow (World (shadow w) rs)) ∧ grew (reports w) (reports (World (shadow w) rs)) bug.
Proof.
  intros. eexists _, _. split; [done|]. split; [apply bytes_equiv_refl|].
  split; [done|]. by apply quiet_grew.
Qed.

Lemma bad_range_spec addr size : bad_range addr size = true ↔ addr = 0 ∨ size = 0.
Proof. unfold bad_range. lia. Qed.
Lemma bad_range_false addr size : addr ≠ 0 → size ≠ 0 → bad_range addr size = false.
Proof. unfold bad_range. lia. Qed.

(** ** Allocation, flushes and fences *)

Lemma sim_alloc stage op w :
  sh_wf (shadow w) → wf_range (dst_addr op) (size op) →
  sim (handle_pm_addr_add stage op) w
    ((λ b', (b', false)) <$> ref_alloc stage op (abs (shadow w))).
Proof.
  intros Hwf Hr. unfold handle_pm_addr_add, ref_alloc, sim.
  apply wpe_if; intros Hst; rewrite Hst.
  - apply wpe_add_pm_addr; [|intros H%bad_range_spec _; by rewrite H].
    intros Ha Hn rs Hrs. rewrite bad_range_false by done. eexists _, _. split; [done|].
    split; [bytes_solve|]. split; [wf_solve|]. by apply quiet_grew.
  - apply wpe_assert_range; [|intros H%bad_range_spec _; by rewrite H].
    intros Ha Hn. rewrite bad_range_false by done. destruct w as [s rs].
    apply (sim_same (World s rs)); [done|reflexivity|done].
Qed.

Lemma sim_remove op w :
  sh_wf (shadow w) → wf_range (src_addr op) (size op) →
  sim (remove_pm_addr op (src_addr op) (size op)) w
    (if bad_range (src_addr op) (size op) then None
     else Some (with_status (paint (src_addr op) (size op) None
                              (b_status (abs (shadow w)))) (abs (shadow w)), false)).
Proof.
  intros Hwf Hr. apply wpe_remove_pm_addr; [|intros H%bad_range_spec _; by rewrite H].
  intros Ha Hn rs Hrs. rewrite bad_range_false by done. eexists _, _. split; [done|].
  split; [bytes_solve|]. split; [wf_solve|]. by apply quiet_grew.
Qed.

Lemma sim_writeback op w :
  sh_wf (shadow w) → wf_range (src_addr op) (size op) →
  sim (writeback_addr op (src_addr op) (size op)) w
    (Some (with_status (paint (src_addr op) (size op) (Some WRITEBACK_PENDING)
                          (b_status (abs (shadow w)))) (abs (shadow w)), false)).
Proof.
  intros Hwf Hr. apply wpe_writeback_addr. intros rs Hrs. eexists _, _. split; [done|].
  split; [bytes_solve|]. split; [wf_solve|]. by apply quiet_grew.
Qed.

Lemma sim_commit_var op w :
  sh_wf (shadow w) → wf_range (src_addr op) (size op) →
  sim (add_commit_var_addr op (src_addr op) (size op)) w
    (Some (with_commit_var (paint (src_addr op) (size op) true
                              (b_commit_var (abs (shadow w)))) (abs (shadow w)), false)).
Proof.
  intros Hwf Hr. apply wpe_upd. eexists _, _. split; [done|].
  split; [bytes_solve|]. split; [wf_solve|]. by apply quiet_grew.
Qed.

(** ** Levels *)

Lemma wpe_incr_int x (Q : Z → world imap iset → Prop) E w :
  (x ≠ INT_MAX → Q (x + 1) w) → (x = INT_MAX → ∀ e, E e w) → wpe (incr_int x) Q E w.
Proof.
  intros HQ HE. apply wpe_if; intros H; [apply wpe_stop, HE|apply wpe_ret, HQ]; lia.
Qed.

Lemma sim_time w b :
  sh_wf (shadow w) → abs (shadow w) ≡ b →
  sim increment_global_time w
    (if b_now b =? INT_MAX then None else Some (with_now (b_now b + 1) b, false)).
Proof.
  intros Hwf (?&?&?&?&Hnow&?). apply wpe_bind, wpe_look, wpe_bind, wpe_incr_int;
    intros Ht; rewrite <-Hnow.
  - apply wpe_upd. rewrite (proj2 (Z.eqb_neq _ _)) by done. eexists _, _. split; [done|].
    split; [unfold equiv, bytes_equiv; simpl in *; intuition|].
    split; [wf_solve|]. by apply quiet_grew.
  - intros e. simpl. by rewrite Ht.
Qed.

Lemma sim_lib_call t w :
  sh_wf (shadow w) →
  sim (increment_pre_internal_funct_level t) w
    (n ← b_lib (abs (shadow w)) t;
     if n =? INT_MAX then None
     else Some (with_lib (fupd t (Some (n + 1)) (b_lib (abs (shadow w)))) (abs (shadow w)), false)).
Proof.
  intros Hwf. apply wpe_bind, wpe_load_sh; [|intros Hn _; simpl; by rewrite Hn].
  intros n Hn. apply wpe_bind, wpe_incr_int; intros Hmax; simpl; rewrite Hn; simpl.
  - apply wpe_store_sh; [intros _ _|congruence]. rewrite (proj2 (Z.eqb_neq _ _)) by done.
    eexists _, _. split; [done|]. split; [bytes_solve|]. split; [wf_solve|]. by apply quiet_grew.
  - intros _. by rewrite Hmax.
Qed.
Lemma sim_lib_ret t w :
  sh_wf (shadow w) →
  sim (decrement_pre_internal_funct_level t) w
    (n ← b_lib (abs (shadow w)) t;
     if n <=? 0 then None
     else Some (with_lib (fupd t (Some (n - 1)) (b_lib (abs (shadow w)))) (abs (shadow w)), false)).
Proof.
  intros Hwf. apply wpe_bind, wpe_load_sh; [|intros Hn _; simpl; by rewrite Hn].
  intros n Hn. apply wpe_bind, wpe_assert; intros Hpos; simpl; rewrite Hn; simpl;
    destruct (n <=? 0) eqn:?; try lia; [|done].
  apply wpe_store_sh; [intros _ _|congruence].
  eexists _, _. split; [done|]. split; [bytes_solve|]. split; [wf_solve|]. by apply quiet_grew.
Qed.

(** ** Transactions *)

Lemma sim_tx_begin t stage w :
  sh_wf (shadow w) →
  sim (increment_tx_level t stage) w
    (n ← b_tx (abs (shadow w)) t;
     if n =? INT_MAX then None
     else Some (with_tx (fupd t (Some (n + 1)) (b_tx (abs (shadow w)))) (abs (shadow w)), false)).
Proof.
  intros Hwf. apply wpe_bind, wpe_load_sh; [|intros Hn _; simpl; by rewrite Hn].
  intros n Hn. apply wpe_bind, wpe_incr_int; intros Hmax; simpl; rewrite Hn; simpl.
  - apply wpe_store_sh; [intros _ _|congruence]. rewrite (proj2 (Z.eqb_neq _ _)) by done.
    eexists _, _. split; [done|]. split; [bytes_solve|]. split; [wf_solve|]. by apply quiet_grew.
  - intros _. by rewrite Hmax.
Qed.

Lemma sim_tx_add op stage alloc w :
  sh_wf (shadow w) → wf_range (dst_addr op) (size op) →
  sim (add_tx_add_addr op (dst_addr op) (size op) stage alloc) w
    ((λ b', (b', false)) <$> ref_tx_add op (abs (shadow w))).
Proof.
  intros Hwf Hr. apply wpe_add_tx_add_addr; [apply Hwf|..].
  - intros added m Hadd Ha Hn rs Hrs. unfold ref_tx_add. simpl.
    destruct (arr_ref_transfer _ (tx_level (shadow w)) _ _ Hadd) as [k Hk].
    { destruct Hwf as [(?&?&?&?&?&?&?) _]. congruence. }
    rewrite Hk. simpl. rewrite bad_range_false by done. eexists _, _. split; [done|].
    split; [|split; [destruct alloc; wf_solve|by apply quiet_grew]].
    destruct alloc; bytes_solve.
  - intros e w' Hbad. unfold ref_tx_add. simpl.
    destruct (arr_ref (tx_level (shadow w)) (tid op)) as [k|] eqn:Hk; [|done]. simpl.
    destruct Hbad as [Hnone|Hbad%bad_range_spec]; [|by rewrite Hbad].
    exfalso. eapply arr_ref_absurd; [exact Hk|exact Hnone|].
    destruct Hwf as [(?&?&?&?&?&?&?) _]. congruence.
Qed.

Lemma sim_tx_end t stage w :
  sh_wf (shadow w) →
  sim (decrement_tx_level t stage) w
    ((λ b', (b', false)) <$> ref_tx_end t (abs (shadow w))).
Proof.
  intros Hwf. unfold ref_tx_end, sim. simpl. apply wpe_decrement_tx_level; [apply Hwf|..].
  - intros n Hn Hpos rs Hrs. rewrite Hn. simpl.
    destruct (n <=? 0) eqn:?; [lia|]. destruct (n =? 1) eqn:?; [lia|].
    eexists _, _. split; [done|]. split; [bytes_solve|]. split; [wf_solve|]. by apply quiet_grew.
  - intros added Hn Hadd rs Hrs. rewrite Hn. simpl. eexists _, _. split; [done|].
    split; [|split; [wf_solve|by apply quiet_grew]].
    destruct (arr_ref_transfer _ (tx_non_added_write_addr (shadow w)) _ _ Hn) as [late Hl].
    { destruct Hwf as [(?&?&?&?&?&?&?) _]. congruence. }
    assert (∀ x, mem_at (tx_added_addr (shadow w)) t x = is_mem added x) as Hm.
    { intros x. unfold mem_at. by rewrite Hadd. }
    repeat split; simpl; intros; try done;
      rewrite ?commit_intervals_at, ?segments_mem, ?Hm; try done;
      try (by erewrite arr_ref_fupd by eassumption);
      erewrite mem_at_upd by eassumption; unfold fupd; case_match; by autorewrite with icl.
  - intros e Hn. by rewrite Hn.
  - intros n e Hn Hneg. rewrite Hn. simpl. by destruct (n <=? 0) eqn:?; [|lia].
Qed.

(** ** Writes *)

(** The memory a write finds once the commit variables have been looked at. *)
Definition eff_hit (hit : bool) op s : ShadowPM imap iset :=
  if hit then eff_writer (dst_addr op) (size op) (instr_ptr op) (eff_commit_time s) else s.

Lemma wpe_note_commit_var stage op (Q : unit → world imap iset → Prop) E w :
  operation op = WRITE → wf_range (dst_addr op) (size op) →
  (∀ rs, quiet_ext (reports w) rs →
     Q tt (World (eff_hit ((stage =? PRE_FAILURE) && covers (dst_addr op) (size op)
                             (is_mem (commit_var_set_addr (shadow w)))) op (shadow w)) rs)) →
  (∀ e w', bad_range (dst_addr op) (size op) = true → E e w') →
  wpe (note_commit_var stage op) Q E w.
Proof.
  intros Hop Hr HQ HE. apply wpe_bind, wpe_if; intros Hst; rewrite Hst in HQ.
  - apply wpe_look. rewrite SET_LOOKUP_covers by done. apply wpe_when; intros Hc;
      rewrite Hc in HQ.
    + apply wpe_bind, wpe_update_commitVar_timestamp. intros rs Hrs.
      apply wpe_add_write_addr_IP_mapping; [done|intros _ _; by apply HQ|].
      intros ?%bad_range_spec e. by apply HE.
    + destruct w as [s rs]. apply HQ. reflexivity.
  - apply wpe_ret, wpe_ret. destruct w as [s rs]. apply HQ. reflexivity.
Qed.

(** A store outside the library and outside the skipped regions. *)
Lemma wpe_write_late op (Q : unit → world imap iset → Prop) E w tx :
  sh_wf (shadow w) → wf_range (dst_addr op) (size op) →
  arr_ref (tx_level (shadow w)) (tid op) = Some tx →
  (∀ late l rs, late = (0 <? tx) && negb (covers (dst_addr op) (size op)
                                            (mem_at (tx_added_addr (shadow w)) (tid op))) →
     arr_ref (tx_non_added_write_addr (shadow w)) (tid op) = Some l →
     quiet_ext (reports w) rs →
     Q tt (World (if late then eff_late_write (tid op) l (dst_addr op) (size op) (shadow w)
                  else shadow w) rs)) →
  wpe (when (0 <? tx)
        (let! added := is_added_addr op (dst_addr op) (size op) in
         when (negb added)
           (add_non_tx_add_addr op (dst_addr op) (size op) ;;
            say (ModifyBeforeTxAdd (instr_ptr op) (dst_addr op)) ;;
            say (Backtrace (instr_ptr op) PRE_FAILURE)))) Q E w.
Proof.
  intros [(?&?&?&?&?&?&?) ?] Hr Htx HQ.
  destruct (arr_ref_transfer _ (tx_non_added_write_addr (shadow w)) _ _ Htx) as [l Hl];
    [congruence|].
  destruct (arr_ref_transfer _ (tx_added_addr (shadow w)) _ _ Htx) as [a Ha]; [congruence|].
  assert (covers (dst_addr op) (size op) (mem_at (tx_added_addr (shadow w)) (tid op))
          = SET_LOOKUP a (dst_addr op) (size op)) as Hcov.
  { rewrite SET_LOOKUP_covers by done. apply covers_ext. intros x. unfold mem_at. by rewrite Ha. }
  apply wpe_when; intros Hpos.
  - apply wpe_bind, wpe_bind, wpe_load_sh; [|congruence]. intros a' Ha'. simplify_eq.
    apply wpe_ret, wpe_when; intros Hneg.
    + apply wpe_bind, wpe_add_non_tx_add_addr; [|congruence]. intros l' Hl'. simplify_eq.
      apply wpe_bind, wpe_say, wpe_say. simpl. apply (HQ true l); [by rewrite Hcov, Hpos, Hneg|done|].
      eauto with quiet.
    + destruct w as [s rs]. apply (HQ false l); [by rewrite Hcov, Hneg, andb_false_r|done|reflexivity].
  - destruct w as [s rs]. apply (HQ false l); [by rewrite Hpos|done|reflexivity].
Qed.

Ltac sim_done :=
  eexists _, _; split; [reflexivity|]; split;
  [bytes_solve|split; [wf_solve|apply quiet_grew; quiet_chain]].

Lemma sim_track_write stage op w :
  sh_wf (shadow w) → operation op = WRITE → wf_range (dst_addr op) (size op) →
  sim (track_write stage op) w
    (if bad_range (dst_addr op) (size op) then None
     else (λ b', (b', false)) <$> ref_store stage op (abs (shadow w))).
Proof.
  intros Hwf Hop Hr. unfold sim, track_write, ref_store, is_detection_disabled,
    is_in_pre_internal_funct, is_in_tx. simpl.
  assert (∀ (e : abort_reason) (w' : world imap iset) (r : option (bytes * bool)),
    dst_addr op = 0 ∨ size op = 0 →
    (if bad_range (dst_addr op) (size op) then None else r) = None) as HE.
  { intros _ _ r Hbad%bad_range_spec. by rewrite Hbad. }
  apply wpe_bind, (wpe_mono _ (λ u w', w' = w ∧
    (if stage =? POST_FAILURE then Some true
     else (λ k, k =? 1) <$> arr_ref (skipDetectionStatus (shadow w)) (tid op)) = Some u) _
    (λ _ w', (if stage =? POST_FAILURE then Some true
     else (λ k, k =? 1) <$> arr_ref (skipDetectionStatus (shadow w)) (tid op)) = None)).
  { apply wpe_if; intros Hst; rewrite Hst; [by apply wpe_ret|].
    apply wpe_bind, wpe_load_sh; [intros k Hk; by rewrite Hk|intros Hk _; by rewrite Hk]. }
  2: { intros _ _ Hnone. rewrite Hnone. simpl. by repeat case_match. }
  intros u w' [-> Hu]. rewrite Hu. clear Hu. simpl. apply wpe_if; intros ->.
  - apply wpe_bind, wpe_modify_addr; [|eauto]. intros Ha Hn rs1 Hrs1.
    apply wpe_bind, wpe_set_consistent_addr; [|done || (intros [?|?]; congruence)].
    intros _ _ rs2 Hrs2.
    apply wpe_add_write_addr_IP_mapping; [done| |intros [?|?]; congruence].
    intros _ _. rewrite bad_range_false by done. sim_done.
  - apply wpe_bind, wpe_bind, wpe_load_sh;
      [|intros Hl _; rewrite Hl; simpl; by repeat case_match].
    intros lib Hlib. rewrite Hlib. simpl. apply wpe_ret, wpe_if; intros Hpos; rewrite Hpos.
    + apply wpe_bind, wpe_modify_addr; [|eauto]. intros Ha Hn rs1 Hrs1.
      apply wpe_set_consistent_addr; [|intros [?|?]; congruence].
      intros _ _ rs2 Hrs2. rewrite bad_range_false by done. sim_done.
    + apply wpe_bind, wpe_bind, wpe_load_sh;
        [|intros Hl _; rewrite Hl; simpl; by repeat case_match].
      intros tx Htx. rewrite Htx. simpl. apply wpe_ret, wpe_bind.
      apply wpe_write_late; [done..|]. intros late l rs1 Hlate Hl Hrs1.
      apply wpe_bind, wpe_modify_addr; [|eauto]. intros Ha Hn rs2 Hrs2.
      rewrite bad_range_false by done. unfold ref_late. simpl. rewrite <-Hlate.
      apply wpe_bind, wpe_when; unfold nonzero; intros Hnt; destruct (non_temporal op =? 0);
        try done.
      * apply wpe_writeback_addr. intros rs3 Hrs3.
        apply wpe_add_write_addr_IP_mapping; [done| |intros [?|?]; congruence].
        intros _ _. destruct late; sim_done.
      * apply wpe_add_write_addr_IP_mapping; [done| |intros [?|?]; congruence].
        intros _ _. destruct late; sim_done.
Qed.

(** A computation that continues after quiet reports, against an equivalent
    reference result. *)
Lemma sim_after {A} (c : M (world imap iset) A) w s' rs r r' :
  quiet_ext (reports w) rs → same_result r r' → sim c (World s' rs) r →
  wpe c (λ _ w', ∃ b' bug, r' = Some (b', bug) ∧ abs (shadow w') ≡ b' ∧
           sh_wf (shadow w') ∧ grew (reports w) (reports w') bug) (λ _ _, r' = None) (World s' rs).
Proof.
  intros Hq Hr Hc. eapply wpe_mono; [exact Hc|..]; simpl.
  - intros _ w' (b'&bug&->&Hb&Hwf&Hg). destruct r' as [[b2 u2]|]; [|done].
    destruct Hr as [Hb2 <-]. exists b2, bug. split; [done|]. split; [by rewrite Hb|].
    split; [done|]. by eapply quiet_grew_trans.
  - intros _ _ ->. by destruct r'.
Qed.

Lemma sim_write stage op w :
  sh_wf (shadow w) → operation op = WRITE → wf_range (dst_addr op) (size op) →
  sim (handle_write stage op) w
    ((λ b', (b', false)) <$> ref_write stage op (abs (shadow w))).
Proof.
  intros Hwf Hop Hr. apply wpe_bind, wpe_note_commit_var; [done..| |].
  2: { intros e w' Hbad. unfold ref_write. by rewrite Hbad. }
  intros rs Hrs. eapply sim_after; [done| |apply sim_track_write; [|done..]].
  - unfold ref_write. case_match; [done|].
    apply same_fmap, ref_store_proper. unfold eff_hit, ref_commit_var. simpl.
    case_match; [bytes_solve|done].
  - unfold eff_hit; simpl. case_match; wf_solve.
Qed.

(** ** Reads *)

Lemma forallb_ext_true {A} (p q : A → bool) l : (∀ x, p x = q x) → forallb p l = forallb q l.
Proof. intros H. induction l; simpl; [done|]. by rewrite H, IHl. Qed.

Lemma read_ok_spec op w added :
  wf_range (src_addr op) (size op) →
  arr_ref (tx_added_addr (shadow w)) (tid op) = Some added →
  ref_read_ok (abs (shadow w)) (tid op) (src_addr op) (size op)
  = forallb clean_or_consistent (MAP_LOOKUP (pm_status (shadow w)) (src_addr op) (size op))
    || (forallb (λ st, status_eqb st WRITTEN_BACK)
          (MAP_LOOKUP (pm_status (shadow w)) (src_addr op) (size op))
        && (if commit_timestamp (shadow w) <? 0 then true
            else commit_timestamp (shadow w) >? max_timestamp
                   (MAP_LOOKUP (pm_modify_timestamps (shadow w)) (src_addr op) (size op))))
    || SET_LOOKUP (commit_var_set_addr (shadow w)) (src_addr op) (size op)
    || SET_LOOKUP added (src_addr op) (size op).
Proof.
  intros Hr Hadd. unfold ref_read_ok. simpl. rewrite !SET_LOOKUP_covers by done.
  rewrite (MAP_LOOKUP_covers clean_or_consistent), (MAP_LOOKUP_covers (λ st, _)) by done.
  apply (f_equal2 orb); [apply (f_equal2 orb); [apply (f_equal2 orb);
    [|apply (f_equal2 andb)]|done]|].
  - apply covers_ext. intros x. by destruct (im_at _ x) as [[]|].
  - apply covers_ext. intros x. by destruct (im_at _ x) as [[]|].
  - destruct (Z.ltb_spec (commit_timestamp (shadow w)) 0); [done|]. simpl.
    rewrite max_timestamp_lt, (MAP_LOOKUP_covers (λ t, _)) by done. done.
  - apply covers_ext. intros x. unfold mem_at. by rewrite Hadd.
Qed.

Lemma wpe_is_recent_commit_update op addr size (P : bool → world imap iset → Prop) E w :
  P (if commit_timestamp (shadow w) <? 0 then true
     else commit_timestamp (shadow w) >? max_timestamp
            (MAP_LOOKUP (pm_modify_timestamps (shadow w)) addr size)) w →
  wpe (is_recent_commit_update op addr size) P E w.
Proof.
  intros HP. apply wpe_bind, wpe_look, wpe_bind, wpe_look.
  apply wpe_if; intros Hc; apply wpe_ret; by rewrite Hc in HP.
Qed.

(** A report on a read says once that there is a bug, and changes nothing. *)
Lemma wpe_report_inconsistent_read op (Q : unit → world imap iset → Prop) E w :
  operation op = READ → src_addr op ≠ 0 → size op ≠ 0 →
  (∀ rs, grew (reports w) rs true → Q tt (World (shadow w) rs)) →
  wpe (report_inconsistent_read op) Q E w.
Proof.
  intros Hop Ha Hn HQ. apply wpe_bind, wpe_printInconsistentReadDebug; [done..|].
  intros rs l -> Hl.
  assert (∀ rs', quiet_ext (reports w ++ ConsistencyBug :: l) rs' → Q tt (World (shadow w) rs'))
    as HQ'.
  { intros rs' Hq. apply HQ. eapply grew_trans; [|exact Hq]. split; [by eexists|].
    rewrite bugs_app, bugs_here, (bugs_none l Hl). done. }
  apply wpe_when; intros _; [|by apply HQ'].
  apply wpe_bind, wpe_is_writtenback; [|intros [?|?]; congruence]. simpl. intros _ _ rs Hrs.
  apply wpe_if; intros _; [apply wpe_say, HQ'; simpl; eauto with quiet|].
  apply wpe_bind, wpe_is_recent_commit_update.
  apply wpe_if; intros _; apply wpe_say, HQ'; simpl; eauto with quiet.
Qed.

Lemma wpe_lookup_checked_addr addr size (P : bool → world imap iset → Prop) E w :
  checked_addr_set (shadow w) = ∅ →
  (bad_range addr size || (65536 <=? size) = false → P false w) →
  (bad_range addr size || (65536 <=? size) = true → ∀ e, E e w) →
  wpe (lookup_checked_addr addr size) P E w.
Proof.
  intros Hc HP HE. unfold bad_range in *.
  apply wpe_bind, wpe_assert; unfold nonzero; intros H1; [|apply HE; lia].
  apply wpe_bind, wpe_assert; change (Z.shiftl 1 16) with 65536; intros H2; [|apply HE; lia].
  apply wpe_look. rewrite Hc, bool_decide_false by set_solver. apply HP. lia.
Qed.

Lemma sim_read stage op w :
  sh_wf (shadow w) → operation op = READ → wf_range (src_addr op) (size op) →
  sim (handle_read stage op) w
    ((λ bug, (abs (shadow w), bug)) <$> ref_read stage op (abs (shadow w))).
Proof.
  intros Hwf Hop Hr. unfold ref_read. simpl. apply wpe_when; intros Hst; rewrite Hst; simpl.
  2: { destruct w. by apply (sim_same (World _ _)). }
  apply wpe_bind, wpe_bind, wpe_load_sh; [|intros Hk _; by rewrite Hk].
  intros k Hk. rewrite Hk. simpl. apply wpe_ret, wpe_when; intros Hd; destruct (k =? 1); try done.
  2: { destruct w. by apply (sim_same (World _ _)). }
  apply wpe_bind, wpe_lookup_checked_addr; [apply Hwf| |intros Hb _; by rewrite Hb].
  intros Hb. rewrite Hb. simpl. unfold bad_range in Hb.
  apply wpe_bind, wpe_is_consistent; [intros Ha Hn rs1 Hrs1|lia].
  apply wpe_bind, wpe_is_writtenback; [simpl; intros _ _ rs2 Hrs2|lia].
  destruct (arr_ref_transfer _ (tx_added_addr (shadow w)) _ _ Hk) as [added Hadd].
  { destruct Hwf as [(?&?&?&?&?&?&?) _]. congruence. }
  rewrite (read_ok_spec _ _ added) by done.
  assert (∀ P : bool → world imap iset → Prop, ∀ E (v : bool),
    P (v && (if commit_timestamp (shadow w) <? 0 then true
             else commit_timestamp (shadow w) >? max_timestamp
                    (MAP_LOOKUP (pm_modify_timestamps (shadow w)) (src_addr op) (size op))))
      (World (shadow w) rs2) →
    wpe (if v then is_recent_commit_update op (src_addr op) (size op) else ret false)
      P E (World (shadow w) rs2)) as Hpers.
  { intros P E [] HP; [by apply wpe_is_recent_commit_update|by apply wpe_ret]. }
  apply wpe_bind, Hpers, wpe_bind, wpe_look, wpe_bind, wpe_bind, wpe_load_sh;
    simpl; [|congruence].
  intros added' Hadd'. simplify_eq. apply wpe_ret, wpe_when; intros Hok.
  - apply negb_true_iff in Hok. rewrite Hok. apply wpe_report_inconsistent_read; [done..|].
    intros rs Hg. eexists _, _. split; [done|]. split; [done|]. split; [done|].
    eapply quiet_grew_trans; [|exact Hg]. quiet_chain.
  - apply negb_false_iff in Hok. rewrite Hok. apply (sim_same w); [done| |done]. quiet_chain.
Qed.

(** ** The handler *)

(** [sim] for computations on the state of the detector. *)
Definition dsim {A} (c : M (dstate imap iset) A) d (r : option (bytes * bool)) : Prop :=
  wpe c (λ _ d', ∃ b' bug, r = Some (b', bug) ∧ abs (shadow (mem d')) ≡ b' ∧
           sh_wf (shadow (mem d')) ∧ grew (reports (mem d)) (reports (mem d')) bug)
        (λ _ _, r = None) d.

Lemma dsim_on_mem {A} (c : M (world imap iset) A) d r : sim c (mem d) r → dsim (on_mem c) d r.
Proof. intros Hc. apply wpe_zoom. exact Hc. Qed.
Lemma dsim_same d d' :
  sh_wf (shadow (mem d)) → quiet_ext (reports (mem d)) (reports (mem d')) →
  shadow (mem d') = shadow (mem d) →
  ∃ b' bug, Some (abs (shadow (mem d)), false) = Some (b', bug) ∧ abs (shadow (mem d')) ≡ b' ∧
    sh_wf (shadow (mem d')) ∧ grew (reports (mem d)) (reports (mem d')) bug.
Proof.
  intros Hwf Hq Hs. rewrite Hs. eexists _, _. split; [done|]. split; [done|].
  split; [done|]. by apply quiet_grew.
Qed.
Lemma dsim_ret d : sh_wf (shadow (mem d)) → dsim (ret tt) d (Some (abs (shadow (mem d)), false)).
Proof. intros. by apply wpe_ret, dsim_same. Qed.
Lemma dsim_when stage (c : M (world imap iset) unit) d b' :
  sh_wf (shadow (mem d)) → sim c (mem d) (Some (b', false)) →
  dsim (when (stage =? PRE_FAILURE) (on_mem c)) d
    (Some (if stage =? PRE_FAILURE then b' else abs (shadow (mem d)), false)).
Proof.
  intros Hwf Hc. unfold when. destruct (stage =? PRE_FAILURE);
    [by apply dsim_on_mem|by apply dsim_ret].
Qed.

Lemma sim_drain op w :
  sh_wf (shadow w) →
  sim (drain_writeback op) w
    (Some (with_status (λ x, drain <$> b_status (abs (shadow w)) x) (abs (shadow w)), false)).
Proof. intros Hwf. apply wpe_upd. sim_done. Qed.

Lemma dsim_sfence stage op d :
  sh_wf (shadow (mem d)) →
  dsim (on_mem (drain_writeback op) ;;
        when (stage =? PRE_FAILURE) (on_mem increment_global_time)) d
    (let b := abs (shadow (mem d)) in
     let b' := with_status (λ x, drain <$> b_status b x) b in
     if stage =? PRE_FAILURE
     then if b_now b =? INT_MAX then None else Some (with_now (b_now b + 1) b', false)
     else Some (b', false)).
Proof.
  intros Hwf. apply wpe_bind. eapply wpe_mono; [by apply dsim_on_mem, sim_drain| |done].
  intros _ d' (b'&bug&[= <- <-]&Hb&Hwf'&Hg). unfold when. destruct (stage =? PRE_FAILURE).
  - eapply wpe_mono; [apply dsim_on_mem, (sim_time _ _ Hwf' Hb)| |done].
    intros _ d'' (b'&bug&Hr&Hb'&Hwf''&Hg'). exists b', bug.
    split; [done|]. split; [done|]. split; [done|]. destruct Hg as [Hp Hn], Hg' as [Hp' Hn'].
    split; [by etrans|]. rewrite Hn', Hn. simpl. lia.
  - apply wpe_ret. by eexists _, _.
Qed.

Lemma dsim_skip (v : Z) (disabled : bool) what d t :
  sh_wf (shadow (mem d)) →
  dsim (let! dis := on_mem (is_detection_disabled t) in
        assert_ (if disabled then dis else negb dis) what ;;
        on_mem (store_sh skipDetectionStatus set_skipDetectionStatus t v)) d
    (k ← b_skip (abs (shadow (mem d))) t;
     if eqb (k =? 1) disabled
     then Some (with_skip (fupd t (Some v) (b_skip (abs (shadow (mem d)))))
                  (abs (shadow (mem d))), false)
     else None).
Proof.
  intros Hwf. apply wpe_bind, wpe_zoom, wpe_bind, wpe_load_sh; [|intros Hk _; simpl; by rewrite Hk].
  intros k Hk. simpl. rewrite Hk. simpl. apply wpe_ret, wpe_bind, wpe_assert; intros Hd.
  - apply wpe_zoom, wpe_store_sh; simpl; [intros _ _|congruence].
    assert (eqb (k =? 1) disabled = true) as -> by (destruct disabled, (k =? 1); done).
    eexists _, _. split; [done|]. split; [bytes_solve|]. split; [wf_solve|].
    by apply quiet_grew.
  - by destruct disabled, (k =? 1).
Qed.

Lemma dsim_step stage op d :
  sh_wf (shadow (mem d)) → entry_ok op →
  dsim (update_pm_status stage op) d (ref_step stage op (abs (shadow (mem d)))).
Proof.
  intros Hwf Hok. unfold update_pm_status, ref_step, entry_ok, op_range in *.
  destruct (func_ret op).
  { destruct (operation op); try (by apply dsim_ret). by apply dsim_on_mem, sim_alloc. }
  destruct (operation op) eqn:Hop;
    try (by apply dsim_ret); try (by apply dsim_on_mem, sim_alloc);
    try (by apply dsim_on_mem, sim_remove); try (by apply dsim_on_mem, sim_tx_add).
  - by apply wpe_zoom, wpe_say, dsim_same; simpl; [|eauto with quiet|].
  - apply wpe_bind, wpe_zoom, wpe_say, wpe_when; intros _;
      [apply wpe_modify|]; (apply dsim_same; simpl; [done|eauto with quiet|done]).
  - apply wpe_if; intros _; [|apply wpe_when; intros _];
      try apply wpe_modify; by apply dsim_same.
  - by apply dsim_on_mem, sim_read.
  - by apply dsim_on_mem, sim_write.
  - by apply dsim_when, sim_writeback.
  - by apply dsim_sfence.
  - by apply dsim_on_mem, sim_tx_begin.
  - by apply dsim_on_mem, sim_tx_end.
  - by apply dsim_on_mem, sim_lib_call.
  - by apply dsim_on_mem, sim_lib_ret.
  - by apply dsim_when, sim_commit_var.
  - pose proof (dsim_skip 1 false "Trace skip already enabled." d (tid op) Hwf) as H.
    simpl in *. destruct (arr_ref _ _) as [k|]; [|done]. simpl in *. by destruct (k =? 1).
  - pose proof (dsim_skip 0 true "Trace skip is not enabled." d (tid op) Hwf) as H.
    simpl in *. destruct (arr_ref _ _) as [k|]; [|done]. simpl in *. by destruct (k =? 1).
  - by apply wpe_stop.
Qed.

Lemma run_refines stage ops d :
  sh_wf (shadow (mem d)) → Forall entry_ok ops →
  wpe (update_all stage ops)
    (λ _ d', ∃ b' bad, ref_run stage ops (abs (shadow (mem d))) = Some (b', bad) ∧
       abs (shadow (mem d')) ≡ b' ∧ sh_wf (shadow (mem d')) ∧
       reports (mem d) `prefix_of` reports (mem d') ∧
       bugs (reports (mem d')) = (bugs (reports (mem d)) + length bad)%nat)
    (λ _ _, ref_run stage ops (abs (shadow (mem d))) = None) d.
Proof.
  revert d. induction ops as [|op ops IH]; intros d Hwf Hok; simpl.
  { apply wpe_ret. eexists _, _. split; [done|]. split; [done|]. split; [done|].
    split; [done|]. simpl. lia. }
  apply Forall_cons in Hok as [Hop Hok]. apply wpe_bind.
  eapply wpe_mono; [by apply dsim_step| |by intros _ _ ->].
  intros _ d' (b'&bug&->&Hb&Hwf'&Hp&Hn). simpl.
  pose proof (ref_run_proper stage ops _ _ Hb) as Hs. unfold same_run in Hs.
  eapply wpe_mono; [by apply (IH d')|..].
  - intros _ d'' (b''&bad&Hr&Hb'&Hwf''&Hp'&Hn'). rewrite Hr in Hs.
    destruct (ref_run stage ops b') as [[b3 bad']|]; [|done]. destruct Hs as [Hb3 <-].
    eexists _, _. split; [done|]. split; [by rewrite Hb'|]. split; [done|].
    split; [by etrans|]. rewrite Hn', Hn. destruct bug; simpl; lia.
  - intros e s3 Hr. rewrite Hr in Hs. by destruct (ref_run stage ops b').
Qed.

(** ** Properties *)

(** C1. The handler refines the byte-wise reference on every trace whose ranges
    stay in the address space: it returns exactly when the reference does, the
    shadow memory it leaves describes the bytes of the reference, and it reports
    one cross-failure bug per read the reference objects to, keeping what had
    been reported before. *)
Theorem update_all_refines stage ops d :
  sh_wf (shadow (mem d)) → Forall entry_ok ops →
  match update_all stage ops d, ref_run stage ops (abs (shadow (mem d))) with
  | Ok _ d', Some (b', bad) =>
      abs (shadow (mem d')) ≡ b' ∧ sh_wf (shadow (mem d')) ∧
      reports (mem d) `prefix_of` reports (mem d') ∧
      bugs (reports (mem d')) = (bugs (reports (mem d)) + length bad)%nat
  | Abort _ _, None => True
  | _, _ => False
  end.
Proof.
  intros Hwf Hok. pose proof (run_refines stage ops d Hwf Hok) as H. unfold wpe in H.
  destruct (update_all stage ops d).
  - destruct H as (b'&bad&->&?). done.
  - by rewrite H.
Qed.
End refinement.

(** ** Concrete instances *)

Lemma dstate_half_wf : sh_wf (shadow (mem dstate_half)).
Proof. vm_compute. tauto. Qed.

Definition half_reads : list trace_entry_t := [ld 0 pm0 8; ld 0 (pm0 + 64) 8; ld 0 (pm0 + 68) 2].

Lemma half_reads_ok : Forall entry_ok half_reads.
Proof. by apply entries_okb_true. Qed.

Lemma update_all_refines_witness :
  sh_wf (shadow (mem dstate_half)) ∧ Forall entry_ok half_reads ∧
  match update_all POST_FAILURE half_reads dstate_half,
        ref_run POST_FAILURE half_reads (abs (shadow (mem dstate_half))) with
  | Ok _ d', Some (b', bad) =>
      abs (shadow (mem d')) ≡ b' ∧ sh_wf (shadow (mem d')) ∧
      reports (mem dstate_half) `prefix_of` reports (mem d') ∧
      bugs (reports (mem d')) = (bugs (reports (mem dstate_half)) + length bad)%nat
  | Abort _ _, None => True
  | _, _ => False
  end.
Proof.
  split; [apply dstate_half_wf|]. split; [apply half_reads_ok|].
  apply (update_all_refines POST_FAILURE half_reads dstate_half
           dstate_half_wf half_reads_ok).
Defined.
