(* ===== verification/Campaign.v ===== *)
(** * A whole run of the tool against its specification

    The specification of a testing campaign: for every failure point the bytes
    the pre-failure trace has produced so far, seen through a crash, and the
    reads of the post-failure trace that the reference objects to.  The main
    loop, fed with those traces through its FIFOs in pieces of any size, reports
    exactly that many cross-failure bugs. *)
From stdpp Require Import base list strings gmap pretty.
From S2P Require Import Prelude Os Strings Trace Wire ExecCtrl ExecFacts Icl ShadowPM.
From S2P Require Import ShadowFacts.
From S2P Require Import Detector Frontend FrontendFacts ByteSpec Refinement SegList Scenarios.
Open Scope Z_scope.

(** ** Failure points *)

Record round := Round {
  r_pre : list (list trace_entry_t);    (** what each [read] of the first FIFO gets *)
  r_post : list (list trace_entry_t);   (** what each [read] of the second FIFO gets *)
  r_rand : Z;                           (** the random number that names the copy *)
  r_pid : Z;                            (** the pid of the post-failure process *)
  r_fd : Z;
  r_status : Z;                         (** how it ended *)
}.

(** The failure point is reached, or the testing is over. *)
Definition pre_end (op : trace_entry_t) : bool := is_call TRACE_END op || is_call TESTING_END op.

(** The last piece, and no earlier one, contains an entry that satisfies [e]. *)
Fixpoint stops_at (e : trace_entry_t → bool) (cs : list (list trace_entry_t)) : Prop :=
  match cs with
  | [] => False
  | [c] => existsb e c = true
  | c :: cs' => existsb e c = false ∧ stops_at e cs'
  end.

(** A piece a [read] can deliver. *)
Definition chunk_ok (c : list trace_entry_t) : Prop :=
  c ≠ [] ∧ (length c ≤ BUF_ENTRIES)%nat ∧ Forall entry_wf c ∧ Forall entry_ok c.

Definition round_ok (r : round) : Prop :=
  Forall chunk_ok (r_pre r) ∧ Forall chunk_ok (r_post r) ∧
  stops_at pre_end (r_pre r) ∧ stops_at (is_call TESTING_END) (r_post r) ∧
  0 ≤ r_rand r ≤ INT_MAX ∧ 0 < r_pid r ∧ 0 ≤ r_fd r.

(** ** The specification *)

(** What is left of the bytes after a crash: no library call and no transaction
    is in progress; which threads skip the detection is given. *)
Definition crash (skip : list Z) (b : bytes) : bytes :=
  with_skip (arr_ref skip)
    (with_tx (arr_ref (replicate MAX_THREADS 0))
      (with_lib (arr_ref (replicate MAX_THREADS 0)) b)).

Fixpoint campaign (skip : list Z) (rs : list round) (b : bytes) : option (bytes * nat) :=
  match rs with
  | [] => Some (b, O)
  | r :: rs' =>
      '(b', _) ← ref_run PRE_FAILURE (concat (r_pre r)) b;
      '(_, bad) ← ref_run POST_FAILURE (concat (r_post r)) (crash skip b');
      '(b'', k) ← campaign skip rs' b';
      Some (b'', (length bad + k)%nat)
  end.

(** ** The answers of the system in such a run *)

Definition pre_turn_answers (t : Z) (c : list trace_entry_t) : list answer :=
  [data_answer (wires c); int_answer t; int_answer t].
Definition post_turn_answers (t : Z) (c : list trace_entry_t) : list answer :=
  [data_answer (wires c); int_answer t].
Definition round_answers (t : Z) (r : round) : list answer :=
  [int_answer t] ++ concat (map (pre_turn_answers t) (r_pre r)) ++
  [int_answer t; int_answer (r_rand r); int_answer 0; int_answer (r_pid r); int_answer (r_fd r)] ++
  concat (map (post_turn_answers t) (r_post r)) ++
  [int_answer t; int_answer 13; Answer (r_pid r) [r_status r]].

Section campaign.
Context {imap : Type → Type} {IM : IntervalMap imap} {iset : Type} {IS : IntervalSet iset}.
Context {IML : IntervalMapLaws imap} {ISL : IntervalSetLaws iset}.
Implicit Types (p : prog imap iset) (d : dstate imap iset) (c : list trace_entry_t).

Definition pending p : list answer := answers (osys (proc_ p)).

(** The controller is as before, up to the pids, and the answers left are [l]. *)
Definition env_after p p' (l : list answer) : Prop :=
  pending p' = l ∧ failed p' = failed p ∧ environ (proc_ p') = environ (proc_ p) ∧
  ∃ a b, ctl (proc_ p') = set_pids a b (ctl (proc_ p)).

Lemma set_pids_id (c : ExeCtrl) : c = set_pids (pre_failure_pid c) (post_failure_pid c) c.
Proof. by destruct c. Qed.
Lemma env_after_refl p l : pending p = l → env_after p p l.
Proof. intros H. split; [done|]. split; [done|]. split; [done|]. eexists _, _. apply set_pids_id. Qed.
Lemma env_after_trans p1 p2 p3 l2 l3 : env_after p1 p2 l2 → env_after p2 p3 l3 → env_after p1 p3 l3.
Proof.
  intros (?&?&?&a&b&Hc) (?&?&?&a'&b'&Hc'). split; [done|]. split; [congruence|].
  split; [congruence|]. exists a', b'. by rewrite Hc', Hc.
Qed.
Lemma launchable_env p p' l :
  env_after p p' l → launchable (ctl (proc_ p)) (environ (proc_ p)) →
  launchable (ctl (proc_ p')) (environ (proc_ p')).
Proof. intros (_&_&He&a&b&Hc) H r Hr. rewrite He, Hc. by apply H. Qed.

(** *** System calls with a known answer *)

Definition answered (x : call) (l : list answer) p : prog imap iset :=
  set_proc (Proc (ctl (proc_ p)) (environ (proc_ p)) (Os l (calls (osys (proc_ p)) ++ [x]))) p.
Lemma env_answered p x l : env_after p (answered x l p) l.
Proof. split; [done|]. split; [done|]. split; [done|]. eexists _, _. apply set_pids_id. Qed.
Lemma wp_do_sys x a l (Q : answer → prog imap iset → Prop) p :
  pending p = a :: l → Q a (answered x l p) → wp (do_sys x) Q p.
Proof.
  intros Ha HQ. apply wpe_zoom, wpe_zoom, wpe_sys; unfold pending in *; rewrite Ha.
  - by intros a' l' [= <- <-].
  - done.
Qed.
Lemma wp_do_int x a l (Q : Z → prog imap iset → Prop) p :
  pending p = a :: l → Q (ans_ret a) (answered x l p) → wp (do_int x) Q p.
Proof.
  intros Ha HQ. apply wpe_zoom, wpe_zoom, wpe_sys_int; unfold pending in *; rewrite Ha.
  - by intros a' l' [= <- <-].
  - done.
Qed.

(** *** One turn of each loop *)

Lemma wires_nonzero c : c ≠ [] → (Z.of_nat (length (wires c)) =? 0) = false.
Proof. intros Hc. rewrite wires_length. destruct c; [done|]. simpl. lia. Qed.

Lemma pre_turn_ok t c p d' l :
  chunk_ok c → pending p = pre_turn_answers t c ++ l →
  update_all PRE_FAILURE c (det p) = Ok tt d' →
  wp pre_turn (λ again p', again = true ∧ det p' = d' ∧ env_after p p' l) p.
Proof.
  intros (Hne&Hlen&Hwf&_) Hl Hd.
  apply wpe_bind, wpe_bind, wpe_gets, wpe_bind. eapply wp_do_sys; [exact Hl|].
  apply wpe_bind, wpe_modify, wpe_ret. apply wpe_bind. simpl ans_ret.
  rewrite wires_nonzero by done. apply wpe_bind. eapply wp_do_int; [done|].
  apply wpe_modify. apply wpe_bind. eapply wp_do_int; [done|].
  apply wpe_bind, wpe_gets, wpe_bind. simpl. rewrite Z.sub_diag.
  apply wpe_ret, wpe_bind, wpe_gets, wpe_bind, wpe_zoom. unfold wpe at 1. simpl.
  rewrite process_wires by done. rewrite Hd. apply wpe_bind, wpe_modify, wpe_ret.
  split; [done|]. split; [done|]. split; [done|]. split; [done|]. split; [done|].
  eexists _, _. apply set_pids_id.
Qed.

Lemma post_turn_ok t c p d' l :
  chunk_ok c → pending p = post_turn_answers t c ++ l → post_start p = t →
  update_all POST_FAILURE c (post_det p) = Ok tt d' →
  wp post_turn (λ again p', again = true ∧ p' = put_post_det d' p' ∧ post_det p' = d' ∧
    shadow (mem (det p')) = shadow (mem (det p)) ∧ timeout_ p' = timeout_ p ∧
    post_start p' = t ∧ env_after p p' l) p.
Proof.
  intros (Hne&Hlen&Hwf&_) Hl Ht Hd.
  apply wpe_bind, wpe_bind, wpe_gets, wpe_bind. eapply wp_do_sys; [exact Hl|].
  apply wpe_bind, wpe_modify, wpe_ret. apply wpe_bind, wpe_gets, wpe_bind, wpe_zoom.
  unfold wpe at 1. simpl. rewrite process_wires by done.
  replace (post_det _) with (post_det p) by done. rewrite Hd.
  apply wpe_bind, wpe_modify, wpe_bind. eapply wp_do_int; [done|].
  apply wpe_bind, wpe_gets. simpl. rewrite Ht, Z.sub_diag. apply wpe_ret.
  destruct d' as [[s rs] f1 f2 f3].
  repeat (split; [done|]). eexists _, _. apply set_pids_id.
Qed.

(** *** The loops *)

Lemma update_all_app stage ops1 ops2 d d' :
  update_all stage (ops1 ++ ops2) d = Ok tt d' →
  ∃ d1, update_all stage ops1 d = Ok tt d1 ∧ update_all stage ops2 d1 = Ok tt d'.
Proof.
  unfold update_all. rewrite for_each_app. unfold bind.
  destruct (for_each ops1 _ d) as [[] d1|]; [|done]. intros H. by exists d1.
Qed.
Lemma existsb_or {A} (f g : A → bool) l :
  existsb (λ x, f x || g x) l = existsb f l || existsb g l.
Proof.
  induction l as [|x l IH]; simpl; [done|]. rewrite IH.
  by destruct (f x), (g x), (existsb f l), (existsb g l).
Qed.

(** Whether the first loop goes on after a piece of the trace. *)
Lemma pre_unfinished_run c d d' :
  update_all PRE_FAILURE c d = Ok tt d' →
  negb (pre_failure_point_complete d) && negb (pre_testing_complete d) = true →
  negb (pre_failure_point_complete d') && negb (pre_testing_complete d')
  = negb (existsb pre_end c).
Proof.
  intros Hd Hf. pose proof (flags_run PRE_FAILURE c d) as H. unfold wlp, wpe in H.
  rewrite Hd in H. destruct H as (->&->&_). unfold pre_end. rewrite existsb_or. simpl.
  destruct (pre_failure_point_complete d), (pre_testing_complete d); try done.
  simpl. by rewrite negb_orb.
Qed.

Lemma pre_loop_ok t cs p d' l fuel :
  Forall chunk_ok cs → stops_at pre_end cs → pre_unfinished p = true →
  pending p = concat (map (pre_turn_answers t) cs) ++ l →
  update_all PRE_FAILURE (concat cs) (det p) = Ok tt d' → (length cs < fuel)%nat →
  wp (while_ fuel (gets pre_unfinished) pre_turn) (λ _ p', det p' = d' ∧ env_after p p' l) p.
Proof.
  revert p fuel. induction cs as [|c cs IH]; intros p fuel Hcs Hst Hun Hl Hd Hf; [done|].
  destruct fuel as [|fuel]; [simpl in Hf; lia|]. apply Forall_cons in Hcs as [Hc Hcs].
  simpl in Hd. apply update_all_app in Hd as (d1&Hd1&Hd).
  simpl. apply wpe_bind, wpe_gets. rewrite Hun. apply wpe_bind.
  change (pending p = pre_turn_answers t c ++ concat (map (pre_turn_answers t) cs) ++ l) in Hl.
  eapply wpe_mono; [by apply (pre_turn_ok t c p d1)| |done].
  intros again p1 (->&Hdet&Henv). pose proof (pre_unfinished_run _ _ _ Hd1 Hun) as Hun1.
  destruct cs as [|c' cs].
  - simpl in Hst, Hd. injection Hd as <-. rewrite Hst in Hun1.
    destruct fuel as [|fuel]; [simpl in Hf; lia|]. simpl. apply wpe_bind, wpe_gets.
    unfold pre_unfinished. rewrite Hdet, Hun1. simpl. apply wpe_ret. done.
  - destruct Hst as [Hno Hst]. rewrite Hno in Hun1.
    eapply wpe_mono; [apply (IH p1 fuel); try done|..].
    + unfold pre_unfinished. by rewrite Hdet.
    + apply Henv.
    + by rewrite Hdet.
    + simpl in *. lia.
    + intros _ p2 [? Henv2]. split; [done|]. by eapply env_after_trans.
    + done.
Qed.

Lemma post_loop_ok t cs p d' l fuel :
  Forall chunk_ok cs → stops_at (is_call TESTING_END) cs → post_testing_complete (det p) = false →
  pending p = concat (map (post_turn_answers t) cs) ++ l → post_start p = t →
  update_all POST_FAILURE (concat cs) (post_det p) = Ok tt d' → (length cs < fuel)%nat →
  wp (while_ fuel (gets post_unfinished) post_turn) (λ _ p', post_det p' = d' ∧
    shadow (mem (det p')) = shadow (mem (det p)) ∧ timeout_ p' = timeout_ p ∧ env_after p p' l) p.
Proof.
  revert p fuel. induction cs as [|c cs IH]; intros p fuel Hcs Hst Hun Hl Ht Hd Hf; [done|].
  destruct fuel as [|fuel]; [simpl in Hf; lia|]. apply Forall_cons in Hcs as [Hc Hcs].
  simpl in Hd. apply update_all_app in Hd as (d1&Hd1&Hd).
  simpl. apply wpe_bind, wpe_gets. unfold post_unfinished at 1. rewrite Hun. apply wpe_bind.
  change (pending p = post_turn_answers t c ++ concat (map (post_turn_answers t) cs) ++ l) in Hl.
  eapply wpe_mono; [by apply (post_turn_ok t c p d1)| |done].
  intros again p1 (->&_&Hdet&Hsh&Hto&Hps&Henv).
  pose proof (flags_run POST_FAILURE c (post_det p)) as H. unfold wlp, wpe in H.
  rewrite Hd1 in H. destruct H as (_&_&Hfl).
  assert (post_testing_complete (det p1) = existsb (is_call TESTING_END) c) as Hfl1.
  { change (post_testing_complete (det p1)) with (post_testing_complete (post_det p1)).
    rewrite Hdet, Hfl. simpl. by rewrite Hun. }
  destruct cs as [|c' cs].
  - simpl in Hst, Hd. injection Hd as <-. rewrite Hst in Hfl1.
    destruct fuel as [|fuel]; [simpl in Hf; lia|]. simpl. apply wpe_bind, wpe_gets.
    unfold post_unfinished. rewrite Hfl1. simpl. apply wpe_ret. done.
  - destruct Hst as [Hno Hst]. rewrite Hno in Hfl1.
    eapply wpe_mono; [apply (IH p1 fuel); try done|..].
    + apply Henv.
    + by rewrite Hdet.
    + simpl in *. lia.
    + intros _ p2 (?&Hsh2&Hto2&Henv2). split; [done|]. split; [congruence|].
      split; [congruence|]. by eapply env_after_trans.
    + done.
Qed.

(** *** The phases *)

Lemma wp_sys_int x a l (Q : Z → proc → Prop) (q : proc) :
  answers (osys q) = a :: l →
  Q (ans_ret a) (Proc (ctl q) (environ q) (Os l (calls (osys q) ++ [x]))) →
  wp (on_os (sys_int x)) Q q.
Proof.
  intros Ha HQ. apply wpe_zoom, wpe_sys_int; rewrite Ha; [by intros a' l' [= <- <-]|done].
Qed.
Lemma execute_post_ok (q : proc) r pid l :
  answers (osys q) = [int_answer r; int_answer 0; int_answer pid] ++ l →
  0 ≤ r ≤ INT_MAX → 0 < pid → launchable (ctl q) (environ q) →
  wp execute_post_failure (λ name q', answers (osys q') = l ∧ environ q' = environ q ∧
    ctl q' = set_pids (pre_failure_pid (ctl q)) pid (ctl q)) q.
Proof.
  intros Hl Hr Hpid Hla. destruct (Hla r Hr) as [argv Hargv].
  apply wpe_bind, wpe_bind, wpe_gets, wpe_bind. eapply wp_sys_int; [exact Hl|].
  apply wpe_bind. eapply wp_sys_int; [done|]. simpl. apply wpe_ret, wpe_bind.
  unfold wpe at 1. rewrite (genPinCommand_post _ _ _ _ argv) by done.
  apply wpe_bind, wpe_ret, wpe_bind, wpe_gets, wpe_bind, wpe_bind.
  eapply wp_sys_int; [done|]. simpl.
  rewrite (proj2 (Z.ltb_ge pid 0)), (proj2 (Z.eqb_neq pid 0)) by lia.
  apply wpe_modify, wpe_ret. done.
Qed.

Definition fresh_round d : dstate imap iset :=
  DState (mem d) (pre_testing_complete d) INCOMPLETE (post_testing_complete d).
Lemma pre_phase_ok t cs p d' l fuel :
  Forall chunk_ok cs → stops_at pre_end cs → pre_testing_complete (det p) = false →
  pending p = int_answer t :: concat (map (pre_turn_answers t) cs) ++ l →
  update_all PRE_FAILURE (concat cs) (fresh_round (det p)) = Ok tt d' → (length cs < fuel)%nat →
  wp (pre_phase fuel) (λ _ p', det p' = d' ∧ env_after p p' l) p.
Proof.
  intros Hcs Hst Hpt Hl Hd Hf.
  apply wpe_bind, wpe_zoom, wpe_modify, wpe_bind. eapply wp_do_int; [exact Hl|].
  apply wpe_bind, wpe_modify. eapply wpe_mono; [apply (pre_loop_ok t cs _ d' l fuel); try done|..].
  - unfold pre_unfinished. simpl. by rewrite Hpt.
  - done.
  - done.
Qed.

(** The detector at the beginning of the post-failure trace. *)
Definition crashed (g : list Z) d : dstate imap iset :=
  DState (World (copy_ShadowPM g (shadow (mem d))) (reports (mem d))) (pre_testing_complete d)
    (pre_failure_point_complete d) (post_testing_complete d).
Lemma post_phase_ok t g r p d' l fuel :
  Forall chunk_ok (r_post r) → stops_at (is_call TESTING_END) (r_post r) →
  0 ≤ r_rand r ≤ INT_MAX → 0 < r_pid r → 0 ≤ r_fd r →
  post_testing_complete (det p) = false →
  launchable (ctl (proc_ p)) (environ (proc_ p)) →
  pending p = [int_answer t; int_answer (r_rand r); int_answer 0; int_answer (r_pid r);
               int_answer (r_fd r)] ++ concat (map (post_turn_answers t) (r_post r)) ++
              [int_answer t; int_answer 13; Answer (r_pid r) [r_status r]] ++ l →
  update_all POST_FAILURE (concat (r_post r)) (crashed g (det p)) = Ok tt d' →
  (length (r_post r) < fuel)%nat →
  wp (post_phase fuel (λ _, g)) (λ again p', again = true ∧
    det p' = DState (World (shadow (mem (det p))) (reports (mem d'))) (pre_testing_complete d')
               (pre_failure_point_complete d') INCOMPLETE ∧ env_after p p' l) p.
Proof.
  intros Hcs Hst Hr Hpid Hfd Hpt Hla Hl Hd Hf.
  apply wpe_bind, wpe_modify, wpe_bind. eapply wp_do_int; [exact Hl|].
  apply wpe_bind, wpe_modify, wpe_bind, wpe_zoom.
  eapply wpe_mono; [eapply (execute_post_ok _ (r_rand r) (r_pid r)); [reflexivity|done..]| |done].
  intros name q' (Hq&Henv&Hctl). apply wpe_bind, wpe_modify, wpe_bind.
  unfold fifo_open. apply wpe_bind, wpe_gets.
  rewrite decide_False, decide_True by done. apply wpe_bind. eapply wp_do_int; [exact Hq|].
  apply wpe_bind, wpe_modify. simpl ans_ret.
  rewrite (proj2 (Z.ltb_ge (r_fd r) 0)) by done. apply wpe_ret, wpe_bind.
  eapply wpe_mono; [eapply (post_loop_ok t (r_post r) _ d' _ fuel);
    [done|done|done|reflexivity|done|exact Hd|done]| |done].
  intros _ p1 (Hdet&Hsh&Hto&Hp1&Hf1&He1&a&b&Hc1). simpl in Hsh, Hto, Hf1, He1, Hc1.
  apply wpe_bind. eapply wp_do_int; [exact Hp1|].
  apply wpe_bind, wpe_zoom, wpe_zoom, wpe_modify. apply wpe_bind, wpe_bind, wpe_gets.
  rewrite decide_False, decide_True by done. apply wpe_zoom, wpe_zoom, wpe_modify.
  apply wpe_bind, wpe_zoom, wpe_modify. apply wpe_bind, wpe_bind, wpe_gets, wpe_bind.
  eapply wp_do_int; [done|]. simpl. apply wpe_ret, wpe_bind, wpe_zoom, wpe_bind, wpe_gets.
  apply wpe_bind, wpe_zoom, wpe_sys; simpl; [|done]. intros x l' [= <- <-]. simpl.
  rewrite (proj2 (Z.eqb_neq (r_pid r) (-1))) by lia. rewrite post_status_nonneg, andb_false_r.
  apply wpe_ret. simpl. apply wpe_bind, wpe_gets. simpl. apply wpe_ret.
  split; [done|]. split.
  - simpl. rewrite <-Hdet, <-Hsh. unfold post_det. simpl. by destruct (mem (det p1)).
  - split; [done|]. simpl. split; [done|]. rewrite He1, Henv. split; [done|].
    exists a, b. by rewrite Hc1, Hctl.
Qed.

(** *** Against the specification *)

Lemma fmap_clean (o : option bytes) b bug :
  (λ b', (b', false)) <$> o = Some (b, bug) → bug = false.
Proof. destruct o; simpl; by intros [= _ <-]. Qed.
Lemma ref_step_pre_clean op b b' bug : ref_step PRE_FAILURE op b = Some (b', bug) → bug = false.
Proof.
  unfold ref_step. destruct (func_ret op), (operation op); simpl;
    try (by apply fmap_clean); try (by intros [= _ <-]);
    repeat match goal with
    | |- (?o ≫= _) = _ → _ => destruct o; simpl
    | |- (if ?c then _ else _) = _ → _ => destruct c
    end; by intros [= _ <-] || done.
Qed.
Lemma ref_run_pre_clean ops b b' bad : ref_run PRE_FAILURE ops b = Some (b', bad) → bad = [].
Proof.
  revert b bad. induction ops as [|op ops IH]; intros b bad; simpl; [by intros [= _ <-]|].
  destruct (ref_step PRE_FAILURE op b) as [[b1 bug]|] eqn:Hs; [|done]. simpl.
  destruct (ref_run PRE_FAILURE ops b1) as [[b2 bad2]|] eqn:Hr; [|done]. simpl.
  apply ref_step_pre_clean in Hs as ->. intros [= <- <-]. eauto.
Qed.

Lemma run_ok stage ops d b b' bad :
  sh_wf (shadow (mem d)) → Forall entry_ok ops → abs (shadow (mem d)) ≡ b →
  ref_run stage ops b = Some (b', bad) →
  ∃ d', update_all stage ops d = Ok tt d' ∧ abs (shadow (mem d')) ≡ b' ∧
    sh_wf (shadow (mem d')) ∧ bugs (reports (mem d')) = (bugs (reports (mem d)) + length bad)%nat.
Proof.
  intros Hwf Hok Hb Hr. pose proof (run_refines stage ops d Hwf Hok) as H.
  pose proof (ref_run_proper stage ops _ _ Hb) as Hs. rewrite Hr in Hs. unfold same_run in Hs.
  unfold wpe in H. destruct (update_all stage ops d) as [[] d'|].
  - destruct H as (b2&bad2&Hr2&?&?&?&?). rewrite Hr2 in Hs. destruct Hs as [? <-].
    exists d'. split; [done|]. split; [by etrans|]. done.
  - by rewrite H in Hs.
Qed.

Lemma abs_copy g (s : ShadowPM imap iset) : abs (copy_ShadowPM g s) ≡ crash g (abs s).
Proof. by repeat split. Qed.
Lemma copy_wf g (s : ShadowPM imap iset) :
  length g = MAX_THREADS → sh_wf s → sh_wf (copy_ShadowPM g s).
Proof. unfold sh_wf, arrays_ok. simpl. tauto. Qed.
#[export] Instance crash_proper g : Proper ((≡) ==> (≡)) (crash g).
Proof. intros b1 b2 Hb. bytes_ext. Qed.

Definition round_fits (fuel : nat) (r : round) : Prop :=
  (length (r_pre r) < fuel)%nat ∧ (length (r_post r) < fuel)%nat.

Lemma concat_chunks cs : Forall chunk_ok cs → Forall entry_ok (concat cs).
Proof. induction 1 as [|c cs (_&_&_&Hc) _ IH]; simpl; [done|]. by apply Forall_app. Qed.

(** One failure point. *)
Lemma round_ok_run t g r p b b' pre_bad b2 bad l fuel :
  round_ok r → round_fits fuel r → length g = MAX_THREADS →
  sh_wf (shadow (mem (det p))) → abs (shadow (mem (det p))) ≡ b →
  pre_testing_complete (det p) = false → post_testing_complete (det p) = false →
  launchable (ctl (proc_ p)) (environ (proc_ p)) →
  pending p = round_answers t r ++ l →
  ref_run PRE_FAILURE (concat (r_pre r)) b = Some (b', pre_bad) →
  ref_run POST_FAILURE (concat (r_post r)) (crash g b') = Some (b2, bad) →
  wp (pre_phase fuel ;; post_phase fuel (λ _, g)) (λ again p', again = true ∧
    abs (shadow (mem (det p'))) ≡ b' ∧ sh_wf (shadow (mem (det p'))) ∧
    bugs (reports (mem (det p'))) = (bugs (reports (mem (det p))) + length bad)%nat ∧
    pre_testing_complete (det p') = existsb (is_call TESTING_END) (concat (r_pre r)) ∧
    post_testing_complete (det p') = false ∧ env_after p p' l) p.
Proof.
  intros (Hc1&Hc2&Hst1&Hst2&Hr&Hpid&Hfd) [Hf1 Hf2] Hg Hwf Hb Hpt Hqt Hla Hl Hpre Hpost.
  pose proof (ref_run_pre_clean _ _ _ _ Hpre) as ->.
  destruct (run_ok PRE_FAILURE (concat (r_pre r)) (fresh_round (det p)) b b' []) as
    (d1&Hd1&Hb1&Hwf1&Hn1); [done|by apply concat_chunks|done|done|].
  pose proof (flags_run PRE_FAILURE (concat (r_pre r)) (fresh_round (det p))) as Hfl.
  unfold wlp, wpe in Hfl. rewrite Hd1 in Hfl. destruct Hfl as (Hfl1&_&Hfl2).
  simpl in Hfl1, Hfl2, Hn1. rewrite Hpt in Hfl1. rewrite Hqt in Hfl2. simpl in Hfl1, Hfl2.
  destruct (run_ok POST_FAILURE (concat (r_post r)) (crashed g d1) (crash g b') b2 bad) as
    (d2&Hd2&_&_&Hn2); [by apply copy_wf|by apply concat_chunks| |done|].
  { simpl. by rewrite abs_copy, Hb1. }
  pose proof (flags_run POST_FAILURE (concat (r_post r)) (crashed g d1)) as Hfl.
  unfold wlp, wpe in Hfl. rewrite Hd2 in Hfl. destruct Hfl as (Hfl3&_&_). simpl in Hfl3, Hn2.
  rewrite Hfl1, orb_false_r in Hfl3.
  apply wpe_bind. eapply wpe_mono; [eapply (pre_phase_ok t (r_pre r) p d1)|..]; try done.
  { rewrite Hl. unfold round_answers. rewrite <-!app_assoc. reflexivity. }
  intros _ p1 [Hdet1 Henv1]. subst d1.
  eapply wpe_mono; [eapply (post_phase_ok t g r p1 d2 l fuel)|..]; try done.
  { by eapply launchable_env. }
  { apply Henv1. }
  intros again p2 (->&Hdet2&Henv2). rewrite Hdet2. simpl.
  split; [done|]. split; [done|]. split; [done|]. split; [lia|]. split; [done|].
  split; [done|]. by eapply env_after_trans.
Qed.

(** The trace of the last failure point, and of no earlier one, says that the
    testing is over. *)
Definition last_round_ends (rs : list round) : Prop :=
  stops_at (is_call TESTING_END) (map (λ r, concat (r_pre r)) rs).

Lemma rounds_run t g rs p b b' k l n fuel :
  Forall round_ok rs → Forall (round_fits fuel) rs → last_round_ends rs →
  length g = MAX_THREADS → (length rs < n)%nat →
  sh_wf (shadow (mem (det p))) → abs (shadow (mem (det p))) ≡ b →
  pre_testing_complete (det p) = false → post_testing_complete (det p) = false →
  launchable (ctl (proc_ p)) (environ (proc_ p)) →
  pending p = concat (map (round_answers t) rs) ++ l →
  campaign g rs b = Some (b', k) →
  wp (while_ n (gets (λ p, negb (pre_testing_complete (det p))))
        (pre_phase fuel ;; post_phase fuel (λ _, g)))
    (λ _ p', abs (shadow (mem (det p'))) ≡ b' ∧
       bugs (reports (mem (det p'))) = (bugs (reports (mem (det p))) + k)%nat ∧
       env_after p p' l) p.
Proof.
  revert p b k n. induction rs as [|r rs IH];
    intros p b k n Hok Hfit Hend Hg Hn Hwf Hb Hpt Hqt Hla Hl Hc; [done|].
  apply Forall_cons in Hok as [Hr Hok]. apply Forall_cons in Hfit as [Hfr Hfit].
  simpl in Hc. destruct (ref_run PRE_FAILURE (concat (r_pre r)) b) as [[b1 bad1]|] eqn:H1; [|done].
  simpl in Hc. destruct (ref_run POST_FAILURE _ (crash g b1)) as [[b2 bad2]|] eqn:H2; [|done].
  simpl in Hc. destruct (campaign g rs b1) as [[b3 k3]|] eqn:H3; [|done]. injection Hc as -> <-.
  simpl map in Hl. cbn [concat] in Hl. rewrite <-app_assoc in Hl.
  destruct n as [|n]; [simpl in Hn; lia|]. cbn [while_].
  apply wpe_bind, wpe_gets. rewrite Hpt. simpl. apply wpe_bind.
  eapply wpe_mono; [eapply (round_ok_run t g r p b b1 bad1 b2 bad2); done| |done].
  intros again p1 (->&Hb1&Hwf1&Hn1&Hpt1&Hqt1&Henv1). destruct rs as [|r' rs].
  - simpl in H3. injection H3 as -> <-. unfold last_round_ends in Hend. simpl in Hend.
    rewrite Hend in Hpt1. destruct n as [|n]; [simpl in Hn; lia|]. cbn [while_].
    apply wpe_bind, wpe_gets. rewrite Hpt1. simpl. apply wpe_ret. split; [done|]. split; [lia|done].
  - destruct Hend as [Hno Hend]. rewrite Hno in Hpt1.
    eapply wpe_mono; [apply (IH p1 b1 k3 n); try done|..].
    + simpl in *. lia.
    + by eapply launchable_env.
    + apply Henv1.
    + intros _ p2 (?&?&Henv2). split; [done|]. split; [lia|]. by eapply env_after_trans.
    + done.
Qed.

Lemma round_answers_length t r :
  (length (r_pre r) + length (r_post r) + 1 < length (round_answers t r))%nat.
Proof.
  unfold round_answers. rewrite !length_app. simpl.
  assert (∀ A (f : A → list answer) (l : list A), (∀ x, (1 ≤ length (f x))%nat) →
    (length l ≤ length (concat (map f l)))%nat) as Hle.
  { intros A f l Hf. induction l as [|x l IHl]; simpl; [lia|].
    rewrite length_app. specialize (Hf x). lia. }
  pose proof (Hle _ (pre_turn_answers t) (r_pre r) ltac:(simpl; lia)).
  pose proof (Hle _ (post_turn_answers t) (r_post r) ltac:(simpl; lia)). lia.
Qed.
Lemma rounds_fit t rs l fuel :
  (length (concat (map (round_answers t) rs) ++ l) < fuel)%nat →
  Forall (round_fits fuel) rs ∧ (length rs < fuel)%nat.
Proof.
  rewrite length_app. revert fuel. induction rs as [|r rs IH]; intros fuel Hf.
  { simpl in *. split; [done|lia]. }
  cbn [map concat length] in *. rewrite length_app in Hf. pose proof (round_answers_length t r).
  destruct (IH (fuel - 1)%nat) as [Hr Hl]; [lia|]. split; [|lia].
  constructor; [unfold round_fits; lia|]. eapply Forall_impl; [exact Hr|].
  intros x. unfold round_fits. lia.
Qed.

(** ** Properties *)

(** C2. A whole testing campaign.  Let the system deliver, for each of the failure
    points, a pre-failure trace and a post-failure trace in any pieces, the
    clock standing still; let the reference accept them.  Then, from any state
    in which the post-failure command can be built, the main loop returns with
    the shadow memory that the pre-failure traces alone produce, having reported
    exactly the reads of the post-failure traces that the reference objects to,
    each against the bytes left by a crash at its failure point; it has used up
    the answers of the campaign and no others. *)
Theorem main_loop_refines t g rs p b' k l fuel :
  Forall round_ok rs → last_round_ends rs → length g = MAX_THREADS →
  sh_wf (shadow (mem (det p))) →
  pre_testing_complete (det p) = false → post_testing_complete (det p) = false →
  launchable (ctl (proc_ p)) (environ (proc_ p)) →
  pending p = concat (map (round_answers t) rs) ++ l → (length (pending p) < fuel)%nat →
  campaign g rs (abs (shadow (mem (det p)))) = Some (b', k) →
  ∃ p', main_loop fuel (λ _, g) p = Ok tt p' ∧
    abs (shadow (mem (det p'))) ≡ b' ∧
    bugs (reports (mem (det p'))) = (bugs (reports (mem (det p))) + k)%nat ∧
    pending p' = l.
Proof.
  intros Hok Hend Hg Hwf Hpt Hqt Hla Hl Hf Hc. rewrite Hl in Hf.
  destruct (rounds_fit t rs l fuel Hf) as [Hfit Hn].
  pose proof (rounds_run t g rs p _ b' k l fuel fuel Hok Hfit Hend Hg Hn Hwf
    (bytes_equiv_refl _) Hpt Hqt Hla Hl Hc) as H.
  unfold main_loop. unfold wp, wpe in H.
  destruct (while_ _ _ _ p) as [[] p'|]; [|done]. exists p'. split; [done|].
  destruct H as (?&?&?&_). done.
Qed.
End campaign.

(** ** A concrete campaign *)

(** Two failure points: the program stores a value and fails; it flushes and
    fences the value and ends.  The program that runs after the failure reads
    the value, and is wrong to do so the first time. *)
Definition demo_rounds : list round :=
  [ Round [[alloc 0 pm0 128; st 0 pm0 8]; [bare TRACE_END 0]]
          [[ld 0 pm0 8]; [bare TESTING_END 0]] 12345 4000 9 0;
    Round [[clwb 0 pm0 8; sfence 0; bare TESTING_END 0]]
          [[ld 0 pm0 8; bare TESTING_END 0]] 67890 4001 9 256 ].
Definition demo_ctl : ExeCtrl := init_ctl 7 EmptyString "tool.so" "/mnt/pool" demo_target.
Definition demo_prog : prog seg_map seg_set :=
  Prog dstate0 shadow0
    (Proc demo_ctl demo_env (Os (concat (map (round_answers 1000) demo_rounds)) []))
    (Fifo "/tmp/pre_fifo.7" "/tmp/post_fifo.7" "/tmp/signal_fifo.7" 3 4 5 [] []) 0 0 false false.
Definition no_skip : list Z := replicate MAX_THREADS 0.
Definition demo_bytes : bytes :=
  match campaign no_skip demo_rounds (abs (shadow (mem (det demo_prog)))) with
  | Some (b, _) => b
  | None => abs (shadow (mem (det demo_prog)))
  end.

Lemma demo_campaign :
  campaign no_skip demo_rounds (abs (shadow (mem (det demo_prog)))) = Some (demo_bytes, 1%nat).
Proof.
  assert (snd <$> campaign no_skip demo_rounds (abs (shadow (mem (det demo_prog)))) = Some 1%nat)
    as H by (vm_compute; reflexivity).
  unfold demo_bytes. destruct (campaign _ _ _) as [[b k]|]; [|done]. by injection H as ->.
Qed.
Definition chunk_okb (c : list trace_entry_t) : bool :=
  negb (Nat.eqb (length c) 0) && (length c <=? BUF_ENTRIES)%nat &&
  forallb entry_wfb c && forallb entry_okb c.
Lemma chunks_okb_true cs : forallb chunk_okb cs = true → Forall chunk_ok cs.
Proof.
  rewrite forallb_forall, Forall_forall. intros H c Hc%list_elem_of_In%H. unfold chunk_okb in Hc.
  rewrite !andb_true_iff, negb_true_iff in Hc. destruct Hc as [[[H1 H2] H3] H4].
  split; [by intros ->|]. split; [by apply Nat.leb_le|].
  split; [by apply entries_wfb_true|by apply entries_okb_true].
Qed.
Lemma demo_rounds_ok : Forall round_ok demo_rounds.
Proof.
  apply Forall_cons; split; [|apply Forall_cons; split; [|done]];
    (split; [by apply chunks_okb_true|]; split; [by apply chunks_okb_true|]);
    vm_compute; repeat split; done.
Qed.
Lemma demo_launchable : launchable demo_ctl demo_env.
Proof.
  intros r Hr. eexists. apply (post_argv 7 EmptyString "tool.so" "/mnt/pool" "/opt/pin");
    [lia|done|done|done|done|].
  apply demo_command_ok. change (copy_name demo_ctl r) with ("/mnt/pool_xfdetector_" +:+ pretty r).
  apply word_ok_app; [done|apply pretty_word; lia|].
  pose proof (pretty_Z_length 10 r ltac:(lia)) as Hlen. unfold INT_MAX in Hr.
  specialize (Hlen ltac:(simpl; lia)). simpl. lia.
Qed.

Lemma main_loop_refines_witness : ∃ p',
  main_loop 100 (λ _, no_skip) demo_prog = Ok tt p' ∧
  abs (shadow (mem (det p'))) ≡ demo_bytes ∧
  bugs (reports (mem (det p'))) = 1%nat ∧ pending p' = [].
Proof.
  apply (main_loop_refines 1000 no_skip demo_rounds demo_prog demo_bytes 1 [] 100).
  - apply demo_rounds_ok.
  - vm_compute. done.
  - done.
  - vm_compute. tauto.
  - done.
  - done.
  - apply demo_launchable.
  - by rewrite app_nil_r.
  - vm_compute. lia.
  - apply demo_campaign.
Defined.

(** Instances of the properties of the main loop. *)
Lemma main_terminates_witness :
  let argv := ["xfdetector"; "tool.so"; "7"; "--"; "./btree"; "__POOL_IMAGE__"] in
  main 100 (λ _, no_skip) [] argv demo_prog = main 200 (λ _, no_skip) [] argv demo_prog ∧
  ∀ p', main 100 (λ _, no_skip) [] argv demo_prog ≠ Abort OutOfFuel p'.
Proof. apply main_terminates; vm_compute; lia. Defined.

Definition demo_post : prog seg_map seg_set :=
  set_proc (Proc demo_ctl demo_env (Os
    [int_answer 1000; int_answer 12345; int_answer 0; int_answer 4000; int_answer 9;
     data_answer (wires [st 0 pm0 8; ld 0 pm0 8; bare TESTING_END 0]); int_answer 1001;
     int_answer 1001; int_answer 13; Answer 4000 [0]] [])) demo_prog.
Lemma demo_post_returns : returns (post_phase 10 (λ _, no_skip) demo_post) = true.
Proof. vm_compute. reflexivity. Qed.

Lemma post_phase_isolated_witness : ∃ again p',
  post_phase 10 (λ _, no_skip) demo_post = Ok again p' ∧
  shadow (mem (det p')) = shadow (mem (det demo_post)) ∧
  pre_testing_complete (det p') = false ∧ pre_failure_point_complete (det p') = false ∧
  [] `prefix_of` reports (mem (det p')).
Proof.
  pose proof demo_post_returns as H.
  destruct (post_phase 10 (λ _, no_skip) demo_post) as [again p'|] eqn:E; [|discriminate].
  exists again, p'. split; [reflexivity|].
  apply (post_phase_isolated 10 (λ _, no_skip) demo_post again p' E).
Defined.

Lemma main_usage_witness : ∃ p',
  main 100 (λ _, no_skip) [] ["xfdetector"; "tool.so"] demo_prog = Abort (Exited 1) p' ∧
  calls (osys (proc_ p')) = [].
Proof. apply (main_usage 100 (λ _, no_skip) [] ["xfdetector"; "tool.so"] demo_prog); [done|simpl; lia]. Defined.
