(* ===== verification/Persistency.v ===== *)
(** * What the verdicts mean

    The detector decides on statuses and epochs; here its verdicts are related
    to the history of the trace: which stores were flushed, which flushes were
    fenced, which stores preceded the last commit.  The lemmas are about the
    byte-wise reference; the theorems, through the refinement, about
    [update_pm_status] and the shadow memory. *)
From stdpp Require Import base list strings gmap.
From S2P Require Import Prelude Trace Icl ShadowPM ShadowFacts Detector ByteSpec Refinement.
From S2P Require Import SegList Scenarios Os Frontend FrontendFacts Campaign.
Open Scope Z_scope.

(** ** Events on a byte *)

Definition writes (x : Z) (op : trace_entry_t) : bool :=
  bool_decide (operation op = WRITE) && in_range (dst_addr op) (size op) x.
Definition flushes (x : Z) (op : trace_entry_t) : bool :=
  (bool_decide (operation op = CLWB) && in_range (src_addr op) (size op) x)
  || (writes x op && nonzero (non_temporal op)).
Definition touches (x : Z) (op : trace_entry_t) : bool := writes x op || flushes x op.
Definition is_fence (op : trace_entry_t) : bool := bool_decide (operation op = SFENCE).
(** A store that lies in the commit variables [cv]. *)
Definition commits (cv : Z → bool) (op : trace_entry_t) : bool :=
  bool_decide (operation op = WRITE) && covers (dst_addr op) (size op) cv.

Fixpoint fences (ops : list trace_entry_t) : Z :=
  match ops with [] => 0 | op :: ops' => (if is_fence op then 1 else 0) + fences ops' end.

(** The byte was flushed, not touched again, and a fence followed. *)
Definition persisted (x : Z) (ops : list trace_entry_t) : Prop :=
  ∃ l1 op l2, ops = l1 ++ op :: l2 ∧ flushes x op = true ∧
    Forall (λ o, touches x o = false) l2 ∧ existsb is_fence l2 = true.

(** The number of fences before the last entry that satisfies [p]; [now] fences
    came before the trace. *)
Fixpoint last_epoch (p : trace_entry_t → bool) (now : Z) (ops : list trace_entry_t)
    (e : option Z) : option Z :=
  match ops with
  | [] => e
  | op :: ops' =>
      last_epoch p (now + if is_fence op then 1 else 0) ops' (if p op then Some now else e)
  end.

(** Entries of programs without transactions, library calls and allocations. *)
Definition plain_op (o : pm_op_t) : bool :=
  match o with
  | READ | WRITE | CLWB | SFENCE | TRACE_BEGIN | TRACE_END | TESTING_END => true
  | _ => false
  end.
Definition plain (op : trace_entry_t) : bool :=
  negb (func_ret op) && plain_op (operation op) && entry_okb op &&
  (0 <=? tid op) && (tid op <? Z.of_nat MAX_THREADS) &&
  negb (bool_decide (operation op = WRITE) && bad_range (dst_addr op) (size op)).

(** ** The reference on plain traces *)

(** No thread is in the library or in a region without detection. *)
Definition calm_threads (b : bytes) : Prop := ∀ t, 0 ≤ t < Z.of_nat MAX_THREADS →
  b_skip b t = Some 0 ∧ b_lib b t = Some 0 ∧ is_Some (b_tx b t).

Definition step_byte (x : Z) (s : option PMStatus) (op : trace_entry_t) : option PMStatus :=
  if flushes x op then Some WRITEBACK_PENDING
  else if writes x op then Some MODIFIED
  else if is_fence op then drain <$> s else s.

(** What one plain entry does to the bytes. *)
Record plain_effect (op : trace_entry_t) (b b' : bytes) : Prop := {
  pe_status x : b_status b' x = step_byte x (b_status b x) op;
  pe_time x : b_time b' x = if writes x op then Some (b_now b) else b_time b x;
  pe_now : b_now b' = b_now b + if is_fence op then 1 else 0;
  pe_commit : b_commit b' = if commits (b_commit_var b) op then b_now b else b_commit b;
  pe_commit_var x : b_commit_var b' x = b_commit_var b x;
  pe_added t x : b_added b' t x = b_added b t x;
  pe_tx t : b_tx b' t = b_tx b t;
  pe_calm : calm_threads b';
}.

Lemma plain_write op b :
  calm_threads b → plain op = true → operation op = WRITE →
  ∃ b', ref_step PRE_FAILURE op b = Some (b', false) ∧ plain_effect op b b'.
Proof.
  intros Hc Hp Hop. unfold plain in Hp. rewrite Hop, !andb_true_iff in Hp. simpl in Hp.
  destruct Hp as [[[[[Hr _] _] Ht1] Ht2] Hb]. rewrite negb_true_iff in Hr, Hb.
  destruct (Hc (tid op)) as (Hs&Hl&tx&Htx); [lia|].
  unfold ref_step, ref_write, ref_store. rewrite Hr, Hop, Hb. simpl.
  assert (∀ t, b_skip (ref_commit_var PRE_FAILURE op b) t = b_skip b t ∧
    b_lib (ref_commit_var PRE_FAILURE op b) t = b_lib b t ∧
    b_tx (ref_commit_var PRE_FAILURE op b) t = b_tx b t) as Hcv.
  { intros t. unfold ref_commit_var. by case_match. }
  destruct (Hcv (tid op)) as (->&->&->). rewrite Hs, Hl, Htx. simpl.
  eexists. split; [done|].
  split; unfold ref_late, ref_commit_var, step_byte, commits, flushes, writes, is_fence, calm_threads;
    rewrite ?Hop; simpl; intros; unfold paint, nonzero; rewrite ?bool_decide_true by done; simpl.
  - repeat (case_match; simpl in *); try done.
  - by repeat (case_match; simpl in *).
  - repeat (case_match; simpl in *); lia.
  - by repeat (case_match; simpl in *).
  - by repeat (case_match; simpl in *).
  - by repeat (case_match; simpl in *).
  - by repeat (case_match; simpl in *).
  - destruct (Hc t) as (?&?&?); [done|]. by repeat (case_match; simpl in *).
Qed.

Lemma plain_step op b :
  calm_threads b → plain op = true → b_now b + (if is_fence op then 1 else 0) ≤ INT_MAX →
  ∃ b', ref_step PRE_FAILURE op b = Some (b', false) ∧ plain_effect op b b'.
Proof.
  intros Hc Hp Hnow. destruct (decide (operation op = WRITE)) as [|Hw]; [by apply plain_write|].
  unfold plain in Hp. rewrite !andb_true_iff in Hp.
  destruct Hp as [[[[[Hr Hpl] _] _] _] _]. rewrite negb_true_iff in Hr.
  unfold ref_step, is_fence in *. rewrite Hr.
  destruct (operation op) eqn:Hop; try done; simpl in *;
    try (rewrite (proj2 (Z.eqb_neq (b_now b) INT_MAX)) by lia);
    (eexists; split; [reflexivity|]);
    (split; unfold step_byte, commits, flushes, writes, is_fence; rewrite ?Hop; simpl; intros;
     rewrite ?andb_false_r, ?orb_false_r, ?Z.add_0_r; unfold paint;
     repeat (case_match; simpl in *); done).
Qed.

(** The bytes after a plain trace. *)
Record plain_effects (ops : list trace_entry_t) (b b' : bytes) : Prop := {
  pes_status x : b_status b' x = fold_left (step_byte x) ops (b_status b x);
  pes_time x : b_time b' x = last_epoch (writes x) (b_now b) ops (b_time b x);
  pes_now : b_now b' = b_now b + fences ops;
  pes_commit : Some (b_commit b') = last_epoch (commits (b_commit_var b)) (b_now b) ops (Some (b_commit b));
  pes_commit_var x : b_commit_var b' x = b_commit_var b x;
  pes_added t x : b_added b' t x = b_added b t x;
  pes_tx t : b_tx b' t = b_tx b t;
}.
Lemma fences_nonneg ops : 0 ≤ fences ops.
Proof. induction ops as [|op ops IH]; simpl; [lia|]. destruct (is_fence op); lia. Qed.
Lemma last_epoch_ext p q now ops e :
  (∀ op, p op = q op) → last_epoch p now ops e = last_epoch q now ops e.
Proof.
  intros Hpq. revert now e. induction ops as [|op ops IH]; intros now e; simpl; [done|].
  by rewrite Hpq, IH.
Qed.

Lemma plain_run ops b :
  calm_threads b → forallb plain ops = true → b_now b + fences ops ≤ INT_MAX →
  ∃ b', ref_run PRE_FAILURE ops b = Some (b', []) ∧ plain_effects ops b b'.
Proof.
  revert b. induction ops as [|op ops IH]; intros b Hc Hp Hnow; simpl in *.
  { exists b. split; [done|]. split; simpl; try done. lia. }
  apply andb_true_iff in Hp as [Hop Hp]. pose proof (fences_nonneg ops).
  destruct (plain_step op b) as (b1&Hs&[E1 E2 E3 E4 E5 E6 E8 E7]); [done|done|lia|].
  destruct (IH b1) as (b2&Hr&[F1 F2 F3 F4 F5 F6 F7]); [done|done|lia|].
  exists b2. rewrite Hs. simpl. rewrite Hr. simpl. split; [done|].
  split; intros; simpl.
  - by rewrite F1, E1.
  - by rewrite F2, E2, E3.
  - rewrite F3, E3. lia.
  - rewrite F4, E3, E4. erewrite (last_epoch_ext (commits (b_commit_var b1))
      (commits (b_commit_var b))); [by case_match|].
    intros o. unfold commits. f_equal. apply covers_ext. intros x. apply E5.
  - by rewrite F5, E5.
  - by rewrite F6, E6.
  - by rewrite F7, E8.
Qed.

(** ** The status of a byte and its history *)

Lemma fold_untouched x ops s :
  Forall (λ o, touches x o = false) ops →
  fold_left (step_byte x) ops s = if existsb is_fence ops then drain <$> s else s.
Proof.
  intros Hops. revert s. induction Hops as [|op ops Hop _ IH]; intros s; simpl; [done|].
  rewrite IH. unfold touches in Hop. apply orb_false_iff in Hop as [Hw Hf].
  unfold step_byte. rewrite Hw, Hf. destruct (is_fence op); simpl; [|done].
  case_match; [|done]. by destruct s as [[]|].
Qed.
(** Every trace has a last entry that touches the byte, or none does. *)
Lemma last_touch (p : trace_entry_t → bool) ops :
  Forall (λ o, p o = false) ops ∨
  ∃ l1 op l2, ops = l1 ++ op :: l2 ∧ p op = true ∧ Forall (λ o, p o = false) l2.
Proof.
  induction ops as [|op ops IH]; [by left|]. destruct IH as [IH|(l1&o&l2&->&?&?)].
  - destruct (p op) eqn:Hp; [right; by exists [], op, ops|left; by constructor].
  - right. by exists (op :: l1), o, l2.
Qed.
Lemma persisted_unique x l1 op l2 :
  touches x op = true → Forall (λ o, touches x o = false) l2 →
  persisted x (l1 ++ op :: l2) ↔ flushes x op = true ∧ existsb is_fence l2 = true.
Proof.
  intros Ht Hl2. split; [|intros [??]; by exists l1, op, l2].
  intros (m1&o&m2&Heq&Hf&Hm2&He).
  assert (∀ a b y z : list trace_entry_t, ∀ u v, a ++ u :: y = b ++ v :: z →
    Forall (λ o, touches x o = false) y → Forall (λ o, touches x o = false) z →
    touches x u = true → touches x v = true → u = v ∧ y = z) as Huniq.
  { clear. intros a. induction a as [|a0 a IH]; intros [|b0 b] y z u v H Hy Hz Hu Hv;
      simplify_eq/=; try done.
    - rewrite Forall_app, Forall_cons in Hy. destruct Hy as (_&Hy&_). congruence.
    - rewrite Forall_app, Forall_cons in Hz. destruct Hz as (_&Hz&_). congruence.
    - eauto. }
  assert (touches x o = true) by (unfold touches; by rewrite Hf, orb_true_r).
  destruct (Huniq _ _ _ _ _ _ Heq Hl2 Hm2 Ht) as [-> ->]; done.
Qed.

(** From an untouched byte: [WRITTEN_BACK] is being persisted, and a byte that was
    touched and is not persisted is [MODIFIED] or [WRITEBACK_PENDING]. *)
Lemma status_history x ops :
  match fold_left (step_byte x) ops None with
  | None => Forall (λ o, touches x o = false) ops
  | Some WRITTEN_BACK => persisted x ops
  | Some MODIFIED | Some WRITEBACK_PENDING => existsb (touches x) ops = true ∧ ¬ persisted x ops
  | _ => False
  end.
Proof.
  destruct (last_touch (touches x) ops) as [Hno|(l1&op&l2&->&Ht&Hl2)].
  - rewrite fold_untouched by done. by destruct (existsb is_fence ops).
  - rewrite fold_left_app. simpl. rewrite fold_untouched by done.
    pose proof (persisted_unique x l1 op l2 Ht Hl2) as Hp.
    assert (existsb (touches x) (l1 ++ op :: l2) = true) as Hex.
    { rewrite existsb_app. simpl. by rewrite Ht, orb_true_r. }
    unfold touches, step_byte in *. destruct (flushes x op) eqn:Hf.
    + destruct (existsb is_fence l2) eqn:He; simpl; [by apply Hp|].
      split; [done|]. rewrite Hp. by intros [_ ?].
    + rewrite orb_false_r in Ht. rewrite Ht.
      assert (¬ persisted x (l1 ++ op :: l2)) by (rewrite Hp; by intros [? _]).
      by destruct (existsb is_fence l2).
Qed.

(** ** The verdict on a read *)

Lemma last_epoch_default p now ops e :
  last_epoch p now ops e
  = match last_epoch p now ops None with Some c => Some c | None => e end.
Proof.
  revert now e. induction ops as [|op ops IH]; intros now e; simpl; [done|].
  rewrite IH. rewrite (IH _ (if p op then Some now else None)).
  destruct (last_epoch p _ ops None); [done|]. by destruct (p op).
Qed.
Lemma last_epoch_ge p now ops c : last_epoch p now ops None = Some c → now ≤ c.
Proof.
  revert now. induction ops as [|op ops IH]; intros now; simpl; [done|].
  rewrite last_epoch_default. destruct (last_epoch p _ ops None) eqn:E.
  - intros [= <-]. apply IH in E. destruct (is_fence op); lia.
  - destruct (p op); [intros [= <-]; lia|done].
Qed.

(** Nothing has happened to the memory; commit variables may be registered. *)
Definition fresh_bytes (b : bytes) : Prop :=
  (∀ x, b_status b x = None) ∧ (∀ x, b_time b x = None) ∧ (∀ t x, b_added b t x = false) ∧
  b_commit b = -1 ∧ b_now b = 0.

(** When a read after the failure is safe: every byte of it that was touched has
    been persisted, and if the program has committed, every byte that was stored
    to was so before the fence that precedes the last commit; or the read is of
    commit variables. *)
Definition read_safe (cv : Z → bool) (ops : list trace_entry_t) (a n : Z) : Prop :=
  ((∀ x, in_range a n x = true → existsb (touches x) ops = true → persisted x ops) ∧
   (∀ c x e, last_epoch (commits cv) 0 ops None = Some c → in_range a n x = true →
      last_epoch (writes x) 0 ops None = Some e → e < c))
  ∨ (∀ x, in_range a n x = true → cv x = true).

Lemma all_written_back x ops :
  match fold_left (step_byte x) ops None with None | Some WRITTEN_BACK => true | _ => false end
  = true ↔ (existsb (touches x) ops = true → persisted x ops).
Proof.
  pose proof (status_history x ops) as H.
  destruct (fold_left (step_byte x) ops None) as [[]|]; try tauto.
  - split; [done|]. intros Hp. exfalso. apply H, Hp, H.
  - split; [done|]. intros Hp. exfalso. apply H, Hp, H.
  - split; [|done]. intros _ Hex. apply existsb_exists in Hex as (o&Ho&Hex).
    rewrite Forall_forall in H. rewrite H in Hex; [done|by apply list_elem_of_In].
Qed.
Lemma never_clean x ops :
  match fold_left (step_byte x) ops None with
  | None | Some CLEAN | Some CONSISTENT => true | _ => false end = true →
  Forall (λ o, touches x o = false) ops.
Proof.
  pose proof (status_history x ops) as H. by destruct (fold_left (step_byte x) ops None) as [[]|].
Qed.
Lemma untouched_epoch x now ops :
  Forall (λ o, touches x o = false) ops → last_epoch (writes x) now ops None = None.
Proof.
  intros H. revert now. induction H as [|op ops Hop _ IH]; intros now; simpl; [done|].
  unfold touches in Hop. apply orb_false_iff in Hop as [-> _]. apply IH.
Qed.
Lemma untouched_existsb x ops :
  Forall (λ o, touches x o = false) ops → existsb (touches x) ops = false.
Proof. induction 1 as [|op ops Hop _ IH]; simpl; [done|]. by rewrite Hop. Qed.

(** The times against the last commit, as the reference compares them. *)
Lemma commit_times a n ops cv c' :
  Some c' = last_epoch (commits cv) 0 ops (Some (-1)) →
  (c' <? 0) = true ∨ (∀ x, in_range a n x = true →
    match last_epoch (writes x) 0 ops None with None => true | Some u => u <? c' end = true) ↔
  (∀ c x e, last_epoch (commits cv) 0 ops None = Some c → in_range a n x = true →
     last_epoch (writes x) 0 ops None = Some e → e < c).
Proof.
  rewrite last_epoch_default. intros Hc'. split.
  - intros H c x e Hc Hx He. rewrite Hc in Hc'. injection Hc' as ->.
    pose proof (last_epoch_ge _ _ _ _ Hc). destruct H as [H|H]; [lia|].
    specialize (H x Hx). rewrite He in H. lia.
  - intros H. destruct (last_epoch (commits cv) 0 ops None) as [c|]; injection Hc' as ->; [right|by left].
    intros x Hx. destruct (last_epoch (writes x) 0 ops None) as [e|] eqn:He; [|done].
    specialize (H c x e eq_refl Hx He). lia.
Qed.

Lemma read_ok_plain ops b b' g t a n :
  fresh_bytes b → plain_effects ops b b' → 0 < n →
  ref_read_ok (crash g b') t a n = true ↔ read_safe (b_commit_var b) ops a n.
Proof.
  intros (Hst&Htm&Had&Hcm&Hnow) [F1 F2 F3 F4 F5 F6 _] Hn. unfold ref_read_ok, read_safe. simpl.
  rewrite Hnow, Hcm in F4. apply (commit_times a n) in F4.
  rewrite !orb_true_iff, andb_true_iff, orb_true_iff, !covers_spec.
  setoid_rewrite F1. setoid_rewrite F2. setoid_rewrite Hst. setoid_rewrite Htm.
  setoid_rewrite F5. setoid_rewrite F6. setoid_rewrite Had. rewrite Hnow, F4.
  setoid_rewrite all_written_back. split.
  - intros [[[H|H]|H]|H]; [|by left|by right|].
    + left. split.
      * intros x Hx Hex. apply H, never_clean, untouched_existsb in Hx. congruence.
      * intros c x e _ Hx He. apply H, never_clean in Hx. rewrite untouched_epoch in He; done.
    + specialize (H a). unfold in_range in H. lia.
  - intros [H|H]; [left; left; by right|left; by right].
Qed.

Section code.
Context {imap : Type → Type} {IM : IntervalMap imap} {iset : Type} {IS : IntervalSet iset}.
Context {IML : IntervalMapLaws imap} {ISL : IntervalSetLaws iset}.
Implicit Types (d : dstate imap iset) (op : trace_entry_t).

(** ** From the reference to the code, for one entry *)

Lemma step_ok stage op d b b' bug :
  sh_wf (shadow (mem d)) → entry_ok op → abs (shadow (mem d)) ≡ b →
  ref_step stage op b = Some (b', bug) →
  ∃ d', update_pm_status stage op d = Ok tt d' ∧ abs (shadow (mem d')) ≡ b' ∧
    sh_wf (shadow (mem d')) ∧
    bugs (reports (mem d')) = (bugs (reports (mem d)) + Nat.b2n bug)%nat.
Proof.
  intros Hwf Hok Hb Hs. pose proof (dsim_step stage op d Hwf Hok) as H.
  pose proof (ref_step_proper stage op _ _ Hb) as Hp. rewrite Hs in Hp. unfold same_result in Hp.
  unfold dsim, wpe in H. destruct (update_pm_status stage op d) as [[] d'|].
  - destruct H as (b2&u&Hr&?&?&?&?). rewrite Hr in Hp. destruct Hp as [? <-].
    exists d'. split; [done|]. split; [by etrans|done].
  - by rewrite H in Hp.
Qed.

(** A read that is checked: of a sane range, by a thread with the detection on. *)
Record checked_read op (skip : Z → option Z) : Prop := {
  cr_read : operation op = READ;
  cr_call : func_ret op = false;
  cr_entry : entry_ok op;
  cr_addr : src_addr op ≠ 0;
  cr_size : 0 < size op < 65536;
  cr_on : ∃ k, skip (tid op) = Some k ∧ k ≠ 1;
}.
Lemma checked_read_step op b :
  checked_read op (b_skip b) →
  ref_step POST_FAILURE op b
  = Some (b, negb (ref_read_ok b (tid op) (src_addr op) (size op))).
Proof.
  intros [Hop Hr _ Ha Hn (k&Hk&Hk1)]. unfold ref_step, ref_read. rewrite Hr, Hop, Hk. simpl.
  rewrite (proj2 (Z.eqb_neq k 1)) by done. unfold bad_range.
  rewrite (proj2 (Z.eqb_neq (src_addr op) 0)), (proj2 (Z.eqb_neq (size op) 0)) by lia.
  by rewrite (proj2 (Z.leb_gt 65536 (size op))) by lia.
Qed.
(** The verdict of the code on a checked read. *)
Lemma checked_read_ok op d :
  sh_wf (shadow (mem d)) → checked_read op (b_skip (abs (shadow (mem d)))) →
  ∃ d', update_pm_status POST_FAILURE op d = Ok tt d' ∧ abs (shadow (mem d')) ≡ abs (shadow (mem d)) ∧
    bugs (reports (mem d')) = (bugs (reports (mem d)) +
      Nat.b2n (negb (ref_read_ok (abs (shadow (mem d))) (tid op) (src_addr op) (size op))))%nat.
Proof.
  intros Hwf Hc. destruct (step_ok POST_FAILURE op d _ _ _ Hwf (cr_entry _ _ Hc)
    (reflexivity _) (checked_read_step _ _ Hc)) as (d'&?&?&_&?). by exists d'.
Qed.

(** A plain trace, a failure, and any checked read. *)
Lemma plain_crash d ops :
  sh_wf (shadow (mem d)) → fresh_bytes (abs (shadow (mem d))) →
  calm_threads (abs (shadow (mem d))) → forallb plain ops = true → fences ops ≤ INT_MAX →
  ∃ d1, update_all PRE_FAILURE ops d = Ok tt d1 ∧ bugs (reports (mem d1)) = bugs (reports (mem d)) ∧
    ∀ g op, length g = MAX_THREADS → checked_read op (arr_ref g) →
    ∃ d2 ok, update_pm_status POST_FAILURE op (crashed g d1) = Ok tt d2 ∧
      bugs (reports (mem d2)) = (bugs (reports (mem d1)) + Nat.b2n (negb ok))%nat ∧
      (ok = true ↔
       read_safe (is_mem (commit_var_set_addr (shadow (mem d)))) ops (src_addr op) (size op)).
Proof.
  intros Hwf Hf Hc Hp Hn.
  destruct (plain_run ops (abs (shadow (mem d)))) as (b1&Hr1&He); [done|done| |].
  { destruct Hf as (_&_&_&_&->). lia. }
  destruct (run_ok PRE_FAILURE ops d (abs (shadow (mem d))) b1 [] Hwf) as (d1&Hd1&Hb1&Hwf1&Hn1);
    [|reflexivity|done|].
  { apply entries_okb_true. rewrite forallb_forall in *. intros o Ho%Hp. unfold plain in Ho.
    rewrite !andb_true_iff in Ho. tauto. }
  exists d1. split; [done|]. split; [simpl in Hn1; lia|]. intros g op Hg Hr.
  destruct (checked_read_ok op (crashed g d1)) as (d2&Hd2&_&Hn2); [by apply copy_wf|by apply Hr|].
  eexists d2, _. split; [done|]. split; [exact Hn2|].
  rewrite (ref_read_ok_proper _ _ _ _ (crash g b1)).
  - apply (read_ok_plain ops _ b1 g (tid op) _ _ Hf He), Hr.
  - simpl. rewrite abs_copy. by apply crash_proper.
Qed.

(** ** Property *)

(** C4. The verdict of the tool, in terms of the program's history.  Take a
    program without transactions, starting on memory the tool knows nothing
    about, with any commit variables registered, let it run any sequence of
    loads, stores, flushes and fences, and fail.  A read after the failure is
    reported exactly when it is unsafe: when some byte of it was stored or
    flushed and its last store or flush is not a flush with a fence behind it,
    or was stored in the epoch of the last commit or later; reads of commit
    variables are never reported. *)
Theorem crash_read_verdict d g ops op :
  sh_wf (shadow (mem d)) → fresh_bytes (abs (shadow (mem d))) →
  calm_threads (abs (shadow (mem d))) → forallb plain ops = true → fences ops ≤ INT_MAX →
  length g = MAX_THREADS → checked_read op (arr_ref g) →
  ∃ d1 d2, update_all PRE_FAILURE ops d = Ok tt d1 ∧
    update_pm_status POST_FAILURE op (crashed g d1) = Ok tt d2 ∧
    bugs (reports (mem d1)) = bugs (reports (mem d)) ∧
    (read_safe (is_mem (commit_var_set_addr (shadow (mem d)))) ops (src_addr op) (size op) →
       bugs (reports (mem d2)) = bugs (reports (mem d1))) ∧
    (¬ read_safe (is_mem (commit_var_set_addr (shadow (mem d)))) ops (src_addr op) (size op) →
       bugs (reports (mem d2)) = S (bugs (reports (mem d1)))).
Proof.
  intros Hwf Hf Hc Hp Hn Hg Hr. destruct (plain_crash d ops) as (d1&Hd1&Hn1&Hread); [done..|].
  destruct (Hread g op Hg Hr) as (d2&ok&Hd2&Hn2&Hok).
  exists d1, d2. split; [done|]. split; [done|]. split; [done|]. split; intros Hs.
  - apply Hok in Hs. rewrite Hs in Hn2. simpl in Hn2. lia.
  - destruct ok; [by destruct Hs; apply Hok|]. simpl in Hn2. lia.
Qed.
End code.
