(* ===== verification/Verdicts.v ===== *)
(** * Transactions, fences and the rules of the checker

    What single operations do to the shadow memory, and which reads the rules
    excuse or miss. *)
From stdpp Require Import base list strings gmap.
From S2P Require Import Prelude Trace Icl ShadowPM ShadowFacts Detector ByteSpec Refinement.
From S2P Require Import SegList Scenarios Os Frontend FrontendFacts Campaign Persistency.
Open Scope Z_scope.

Section verdicts.
Context {imap : Type → Type} {IM : IntervalMap imap} {iset : Type} {IS : IntervalSet iset}.
Context {IML : IntervalMapLaws imap} {ISL : IntervalSetLaws iset}.
Implicit Types (d : dstate imap iset) (op : trace_entry_t).

Definition status d (x : Z) : option PMStatus := im_at (pm_status (shadow (mem d))) x.
Definition added d (t x : Z) : bool := mem_at (tx_added_addr (shadow (mem d))) t x.

Lemma reads_status d b x : abs (shadow (mem d)) ≡ b → status d x = b_status b x.
Proof. intros H. apply H. Qed.
Lemma reads_added d b t x : abs (shadow (mem d)) ≡ b → added d t x = b_added b t x.
Proof. intros H. apply H. Qed.

(** C14. The end of a transaction.  The outermost one makes consistent exactly the
    bytes its thread has added, and empties the thread's set; the end of an inner
    one changes neither statuses nor sets.  No other thread's set changes. *)
Theorem tx_end_spec stage op d n :
  sh_wf (shadow (mem d)) → operation op = PM_TRACE_TX_END → func_ret op = false →
  arr_ref (tx_level (shadow (mem d))) (tid op) = Some n → 0 < n →
  ∃ d', update_pm_status stage op d = Ok tt d' ∧
    arr_ref (tx_level (shadow (mem d'))) (tid op) = Some (n - 1) ∧
    (∀ x, status d' x = if (n =? 1) && added d (tid op) x then Some CONSISTENT else status d x) ∧
    (∀ t x, added d' t x = if (n =? 1) && (tid op =? t) then false else added d t x).
Proof.
  intros Hwf Hop Hr Hn Hpos.
  assert (∃ b', ref_step stage op (abs (shadow (mem d))) = Some (b', false) ∧
    b_tx b' (tid op) = Some (n - 1) ∧
    (∀ x, b_status b' x = if (n =? 1) && added d (tid op) x then Some CONSISTENT else status d x) ∧
    (∀ t x, b_added b' t x = if (n =? 1) && (tid op =? t) then false else added d t x))
    as (b'&Hs&H1&H2&H3).
  { unfold ref_step. rewrite Hr, Hop. unfold ref_tx_end. simpl. rewrite Hn. simpl.
    destruct (n <=? 0) eqn:?; [lia|]. destruct (Z.eqb_spec n 1) as [->|]; (eexists; split; [done|]);
      simpl; unfold fupd; rewrite Z.eqb_refl; (split; [done|]); (split; [done|]);
      intros t x; [|done]. by destruct (tid op =? t). }
  destruct (step_ok stage op d (abs (shadow (mem d))) b' false Hwf) as (d'&Hd&Hb&_); [|reflexivity|done|].
  { unfold entry_ok, op_range. by rewrite Hop. }
  exists d'. split; [done|]. split; [|split].
  - rewrite <-H1. apply Hb.
  - intros x. by rewrite (reads_status _ _ _ Hb).
  - intros t x. by rewrite (reads_added _ _ _ _ Hb).
Qed.

(** A fence leaves no byte waiting for one: pending bytes are written back,
    all others keep their status, and the epoch advances in the pre-failure run
    only. *)
Theorem sfence_spec stage op d :
  sh_wf (shadow (mem d)) → operation op = SFENCE → func_ret op = false →
  global_timestamp (shadow (mem d)) < INT_MAX →
  ∃ d', update_pm_status stage op d = Ok tt d' ∧
    (∀ x, status d' x ≠ Some WRITEBACK_PENDING) ∧
    (∀ x, status d x = Some WRITEBACK_PENDING → status d' x = Some WRITTEN_BACK) ∧
    (∀ x, status d x ≠ Some WRITEBACK_PENDING → status d' x = status d x) ∧
    global_timestamp (shadow (mem d'))
      = global_timestamp (shadow (mem d)) + if stage =? PRE_FAILURE then 1 else 0.
Proof.
  intros Hwf Hop Hr Hnow.
  assert (∃ b', ref_step stage op (abs (shadow (mem d))) = Some (b', false) ∧
    (∀ x, b_status b' x = drain <$> status d x) ∧
    b_now b' = global_timestamp (shadow (mem d)) + if stage =? PRE_FAILURE then 1 else 0)
    as (b'&Hs&H1&H2).
  { unfold ref_step. rewrite Hr, Hop. simpl.
    rewrite (proj2 (Z.eqb_neq (global_timestamp (shadow (mem d))) INT_MAX)) by lia.
    destruct (stage =? PRE_FAILURE); (eexists; split; [done|]); (split; [done|]); simpl; lia. }
  destruct (step_ok stage op d (abs (shadow (mem d))) b' false Hwf) as (d'&Hd&Hb&_); [|reflexivity|done|].
  { unfold entry_ok, op_range. by rewrite Hop. }
  exists d'. split; [done|]. setoid_rewrite (λ x, reads_status _ _ x Hb). setoid_rewrite H1.
  split; [intros x; by destruct (status d x) as [[]|]|].
  split; [by intros x ->|]. split; [intros x; by destruct (status d x) as [[]|]|].
  rewrite <-H2. apply Hb.
Qed.

(** The verdict on a checked read of a crashed memory. *)
Lemma crashed_read op g d b :
  sh_wf (shadow (mem d)) → abs (shadow (mem d)) ≡ b → length g = MAX_THREADS →
  checked_read op (arr_ref g) →
  ∃ d', update_pm_status POST_FAILURE op (crashed g d) = Ok tt d' ∧
    bugs (reports (mem d')) = (bugs (reports (mem d)) +
      Nat.b2n (negb (ref_read_ok b (tid op) (src_addr op) (size op))))%nat.
Proof.
  intros Hwf Hb Hg Hr. destruct (checked_read_ok op (crashed g d)) as (d'&Hd&_&Hn).
  { by apply copy_wf. }
  { done. }
  exists d'. split; [done|]. rewrite Hn. simpl. do 3 f_equal.
  rewrite (ref_read_ok_proper _ _ _ (abs (copy_ShadowPM g (shadow (mem d)))) (crash g b));
    [done|]. rewrite abs_copy. by apply crash_proper.
Qed.
Lemma crashed_read_clean op g d b :
  sh_wf (shadow (mem d)) → abs (shadow (mem d)) ≡ b → length g = MAX_THREADS →
  checked_read op (arr_ref g) → ref_read_ok b (tid op) (src_addr op) (size op) = true →
  ∃ d', update_pm_status POST_FAILURE op (crashed g d) = Ok tt d' ∧
    bugs (reports (mem d')) = bugs (reports (mem d)).
Proof.
  intros Hwf Hb Hg Hr Hok. destruct (crashed_read op g d b) as (d'&Hd&Hn); [done..|].
  exists d'. rewrite Hok in Hn. simpl in Hn. split; [done|lia].
Qed.

(** *** Transactions protect what they add *)

(** The bytes after a thread has begun a transaction and added a range to it. *)
Definition in_tx (t a n : Z) (b : bytes) : bytes :=
  with_added (fupd t (paint a n true (b_added b t)) (b_added b))
    (with_tx (fupd t (Some 1) (b_tx b)) b).
Definition tx_prefix (t a n : Z) : list trace_entry_t := [bare PM_TRACE_TX_BEGIN t; txadd t a n].

Lemma tx_prefix_run t a n b :
  b_tx b t = Some 0 → a ≠ 0 → n ≠ 0 →
  ref_run PRE_FAILURE (tx_prefix t a n) b = Some (in_tx t a n b, []).
Proof.
  intros Ht Ha Hn. unfold ref_run, tx_prefix, ref_step. simpl. rewrite Ht. simpl.
  unfold ref_tx_add, fupd, bad_range. simpl. rewrite Z.eqb_refl. simpl.
  rewrite (proj2 (Z.eqb_neq a 0)), (proj2 (Z.eqb_neq n 0)) by done. done.
Qed.
Lemma ref_run_app stage ops1 ops2 b b1 b2 :
  ref_run stage ops1 b = Some (b1, []) → ref_run stage ops2 b1 = Some (b2, []) →
  ref_run stage (ops1 ++ ops2) b = Some (b2, []).
Proof.
  revert b. induction ops1 as [|op ops1 IH]; intros b; simpl; [by intros [= ->]|].
  destruct (ref_step stage op b) as [[b' bug]|]; [|done]. simpl.
  destruct (ref_run stage ops1 b') as [[b'' bad]|] eqn:E; [|done]. simpl.
  intros [= -> Hbad] H2. destruct bug; [done|]. subst bad. rewrite (IH b') by done. done.
Qed.
Lemma in_tx_calm t a n b : calm_threads b → calm_threads (in_tx t a n b).
Proof.
  intros Hc u Hu. destruct (Hc u Hu) as (?&?&?). unfold in_tx, fupd. simpl.
  split; [done|]. split; [done|]. by case_match.
Qed.
(** The trace up to a point inside the transaction, and through its end. *)
Lemma tx_run t a n ops b :
  calm_threads b → b_tx b t = Some 0 → a ≠ 0 → n ≠ 0 →
  forallb plain ops = true → b_now b + fences ops ≤ INT_MAX →
  ∃ b1 b2, ref_run PRE_FAILURE (tx_prefix t a n ++ ops) b = Some (b1, []) ∧
    ref_run PRE_FAILURE ((tx_prefix t a n ++ ops) ++ [bare PM_TRACE_TX_END t]) b = Some (b2, []) ∧
    (∀ x, in_range a n x = true → b_added b1 t x = true) ∧
    (∀ x, in_range a n x = true → b_status b2 x = Some CONSISTENT).
Proof.
  intros Hc Ht Ha Hn Hp Hnow.
  destruct (plain_run ops (in_tx t a n b)) as (b1&Hr1&He); [by apply in_tx_calm|done|done|].
  assert (∀ x, in_range a n x = true → b_added b1 t x = true) as Hadd.
  { intros x Hx. rewrite (pes_added _ _ _ He). unfold in_tx, fupd, paint. simpl.
    by rewrite Z.eqb_refl, Hx. }
  assert (ref_run PRE_FAILURE (tx_prefix t a n ++ ops) b = Some (b1, [])) as H1.
  { eapply ref_run_app; [by apply tx_prefix_run|done]. }
  eexists b1, _. split; [done|]. split; [|split; [done|]].
  - eapply ref_run_app; [done|]. simpl. unfold ref_step, ref_tx_end. simpl.
    rewrite (pes_tx _ _ _ He).
    assert (b_tx (in_tx t a n b) t = Some 1) as -> by (simpl; unfold fupd; by rewrite Z.eqb_refl).
    reflexivity.
  - intros x Hx. simpl. by rewrite Hadd.
Qed.
Lemma tx_entries_ok t a n ops :
  wf_range a n → forallb plain ops = true →
  Forall entry_ok ((tx_prefix t a n ++ ops) ++ [bare PM_TRACE_TX_END t]).
Proof.
  intros Hr Hp. rewrite !Forall_app. split; [split|].
  - repeat constructor; done || apply Hr.
  - apply entries_okb_true. rewrite forallb_forall in *. intros o Ho%Hp. unfold plain in Ho.
    rewrite !andb_true_iff in Ho. tauto.
  - by repeat constructor.
Qed.

(** C13. The checker trusts the ranges of a transaction.  A thread outside of
    transactions begins one, adds a range and executes any loads, stores, flushes and
    fences.  Whether the program fails inside the transaction, so that its stores are
    not committed, or after its end, the thread's reads of the range after the failure
    are not reported, if they are checked at all: 1 to 65535 bytes, with the detection
    on.  No thread is in the library or skips the detection before, and the timestamp
    does not overflow. *)
Theorem tx_atomic d g t a n ops op :
  sh_wf (shadow (mem d)) → calm_threads (abs (shadow (mem d))) →
  arr_ref (tx_level (shadow (mem d))) t = Some 0 → wf_range a n → a ≠ 0 → n ≠ 0 →
  forallb plain ops = true → global_timestamp (shadow (mem d)) + fences ops ≤ INT_MAX →
  length g = MAX_THREADS → checked_read op (arr_ref g) → tid op = t →
  a ≤ src_addr op → src_addr op + size op ≤ a + n →
  ∀ trace, trace = tx_prefix t a n ++ ops ∨
           trace = (tx_prefix t a n ++ ops) ++ [bare PM_TRACE_TX_END t] →
  ∃ d1 d2, update_all PRE_FAILURE trace d = Ok tt d1 ∧
    update_pm_status POST_FAILURE op (crashed g d1) = Ok tt d2 ∧
    bugs (reports (mem d2)) = bugs (reports (mem d)).
Proof.
  intros Hwf Hc Htx Hr Ha Hn Hp Hnow Hg Hrd Ht Hlo Hhi trace Htr.
  destruct (tx_run t a n ops (abs (shadow (mem d)))) as (b1&b2&H1&H2&Hadd&Hst); [done..|].
  pose proof (tx_entries_ok t a n ops Hr Hp) as Hok.
  assert (∃ b, ref_run PRE_FAILURE trace (abs (shadow (mem d))) = Some (b, []) ∧
    Forall entry_ok trace ∧ ref_read_ok b (tid op) (src_addr op) (size op) = true)
    as (b&Hb&Hok'&Hrok).
  { assert (∀ x, in_range (src_addr op) (size op) x = true → in_range a n x = true) as Hin.
    { unfold in_range. lia. }
    unfold ref_read_ok. destruct Htr as [-> | ->]; [exists b1|exists b2];
      (split; [done|]); (split; [first [exact Hok|apply Forall_app in Hok; apply Hok]|]);
      rewrite !orb_true_iff, !covers_spec; [right|left; left; left]; intros x Hx%Hin.
    - rewrite Ht. by apply Hadd.
    - by rewrite Hst. }
  destruct (run_ok PRE_FAILURE trace d (abs (shadow (mem d))) b [] Hwf Hok') as
    (d1&Hd1&Hb1&Hwf1&Hn1); [done|done|].
  destruct (crashed_read_clean op g d1 b) as (d2&Hd2&Hn2); [done..|].
  exists d1, d2. split; [done|]. split; [done|]. simpl in Hn1. lia.
Qed.

(** *** Rules that excuse a read, or miss it *)

(** What the post-failure program has overwritten it may read: after a store
    of it, its reads inside the stored range are not reported. *)
Theorem overwritten_read_clean d wr rd :
  sh_wf (shadow (mem d)) → operation wr = WRITE → func_ret wr = false → entry_ok wr →
  dst_addr wr ≠ 0 → size wr ≠ 0 → checked_read rd (arr_ref (skipDetectionStatus (shadow (mem d)))) →
  dst_addr wr ≤ src_addr rd → src_addr rd + size rd ≤ dst_addr wr + size wr →
  ∃ d1 d2, update_pm_status POST_FAILURE wr d = Ok tt d1 ∧
    update_pm_status POST_FAILURE rd d1 = Ok tt d2 ∧
    bugs (reports (mem d2)) = bugs (reports (mem d)).
Proof.
  intros Hwf Hw Hr Hok Ha Hn Hrd Hlo Hhi.
  set (b1 := ref_origin (dst_addr wr) (size wr) (instr_ptr wr)
               (ref_paint (dst_addr wr) (size wr) CONSISTENT (abs (shadow (mem d))))).
  assert (ref_step POST_FAILURE wr (abs (shadow (mem d))) = Some (b1, false)) as Hs.
  { unfold ref_step. rewrite Hr, Hw. unfold ref_write. rewrite bad_range_false by done. done. }
  destruct (step_ok POST_FAILURE wr d (abs (shadow (mem d))) b1 false Hwf) as (d1&Hd1&Hb1&Hwf1&Hn1);
    [done|reflexivity|done|].
  assert (checked_read rd (b_skip (abs (shadow (mem d1))))) as Hrd1.
  { destruct Hrd as [? ? ? ? ? (k&Hk&?)]. split; [done..|]. exists k. split; [|done].
    transitivity (b_skip b1 (tid rd)); [apply Hb1|done]. }
  destruct (checked_read_ok rd d1) as (d2&Hd2&_&Hn2); [done..|].
  exists d1, d2. split; [done|]. split; [done|]. rewrite Hn2, Hn1.
  rewrite (ref_read_ok_proper _ _ _ _ b1 Hb1).
  assert (ref_read_ok b1 (tid rd) (src_addr rd) (size rd) = true) as ->; [|simpl; lia].
  unfold ref_read_ok. rewrite !orb_true_iff, !covers_spec. left. left. left.
  intros x Hx. unfold b1, ref_origin, ref_paint, paint. simpl.
  assert (in_range (dst_addr wr) (size wr) x = true) as ->; [|done]. unfold in_range in *. lia.
Qed.

(** The copy constructor does not initialise the flags that switch the
    detection off: when the memory of the copy happens to hold a one for a
    thread, no read of this thread is checked in the post-failure run, whatever
    the state of the bytes it reads. *)
Theorem uninitialised_skip_hides_reads d g op :
  operation op = READ → func_ret op = false → arr_ref g (tid op) = Some 1 →
  update_pm_status POST_FAILURE op (crashed g d) = Ok tt (crashed g d).
Proof.
  intros Hop Hr Hg. unfold update_pm_status. rewrite Hr, Hop. simpl.
  unfold on_mem, zoom, handle_read, is_detection_disabled, load_sh, load. simpl.
  unfold bind. simpl. rewrite Hg. done.
Qed.

(** A read is judged as a whole: one that spans a byte written back and a byte
    that is consistent is reported, although every byte of it is safe to read,
    unless the whole range is commit variables or added to a transaction. *)
Theorem mixed_read_reported d g op x y u v :
  sh_wf (shadow (mem d)) → length g = MAX_THREADS → checked_read op (arr_ref g) →
  Forall (λ z, in_range (src_addr op) (size op) z = true) [x; y; u; v] →
  status d x = Some WRITTEN_BACK → status d y = Some CONSISTENT ∨ status d y = Some CLEAN →
  is_mem (commit_var_set_addr (shadow (mem d))) u = false → added d (tid op) v = false →
  ∃ d', update_pm_status POST_FAILURE op (crashed g d) = Ok tt d' ∧
    bugs (reports (mem d')) = S (bugs (reports (mem d))).
Proof.
  intros Hwf Hg Hrd Hin Hx Hy Hu Hv. rewrite !Forall_cons in Hin.
  destruct Hin as (Ix&Iy&Iu&Iv&_).
  destruct (crashed_read op g d (abs (shadow (mem d)))) as (d'&Hd&Hn); [done..|].
  exists d'. split; [done|]. rewrite Hn.
  assert (ref_read_ok (abs (shadow (mem d))) (tid op) (src_addr op) (size op) = false) as ->;
    [|simpl; lia].
  apply not_true_iff_false. unfold ref_read_ok.
  rewrite !orb_true_iff, andb_true_iff, !covers_spec. unfold status, added in *. simpl.
  intros [[[H|[H _]]|H]|H].
  - specialize (H x Ix). by rewrite Hx in H.
  - specialize (H y Iy). by destruct Hy as [Hy|Hy]; rewrite Hy in H.
  - specialize (H u Iu). congruence.
  - specialize (H v Iv). congruence.
Qed.
End verdicts.
