(* ===== verification/Invariants.v ===== *)
(** * Invariants, and when the handler stops

    The states the detector can reach, what always holds of them, exactly which
    entries make the handler stop, and which reports it can make. *)
From stdpp Require Import base list strings gmap.
From S2P Require Import Prelude Trace Icl ShadowPM ShadowFacts Detector ByteSpec Refinement.
From S2P Require Import SegList Scenarios Os Frontend FrontendFacts Campaign Persistency.
Open Scope Z_scope.

(** ** Sane bytes *)

(** Times lie between the start and now, the last commit is not in the future,
    nesting depths are [int]s that count, and, if they were initialised, the
    detection flags are 0 or 1. *)
Record sane (clean : bool) (b : bytes) : Prop := {
  sane_now : 0 ≤ b_now b ≤ INT_MAX;
  sane_time x u : b_time b x = Some u → 0 ≤ u ≤ b_now b;
  sane_commit : -1 ≤ b_commit b ≤ b_now b;
  sane_lib t n : b_lib b t = Some n → 0 ≤ n ≤ INT_MAX;
  sane_tx t n : b_tx b t = Some n → 0 ≤ n ≤ INT_MAX;
  sane_skip t n : clean = true → b_skip b t = Some n → n = 0 ∨ n = 1;
}.

#[export] Instance sane_proper clean : Proper ((≡) ==> iff) (sane clean).
Proof.
  assert (∀ b1 b2, b1 ≡ b2 → sane clean b1 → sane clean b2) as H.
  { intros b1 b2 (?&Ht&?&?&Hn&Hc&Hl&Htx&Hs&?) [S1 S2 S3 S4 S5 S6].
    rewrite Hn in *. rewrite Hc in *. split; [done| |done|..].
    - intros x u Hu. apply (S2 x). by rewrite Ht.
    - intros t n Hu. apply (S4 t). by rewrite Hl.
    - intros t n Hu. apply (S5 t). by rewrite Htx.
    - intros t n Hi Hu. apply (S6 t); [done|]. by rewrite Hs. }
  intros b1 b2 Hb. split; apply H; [done|by symmetry].
Qed.

(** Repainting statuses, writers, sets or commit variables keeps bytes sane. *)
Ltac sane_frame :=
  match goal with H : sane _ ?b |- sane _ _ => destruct H; split; simpl; eauto end.

Lemma sane_status clean f b : sane clean b → sane clean (with_status f b).
Proof. intros H. sane_frame. Qed.
Lemma sane_writer clean f b : sane clean b → sane clean (with_writer f b).
Proof. intros H. sane_frame. Qed.
Lemma sane_commit_var clean f b : sane clean b → sane clean (with_commit_var f b).
Proof. intros H. sane_frame. Qed.
Lemma sane_added clean f b : sane clean b → sane clean (with_added f b).
Proof. intros H. sane_frame. Qed.
Lemma sane_late clean f b : sane clean b → sane clean (with_late f b).
Proof. intros H. sane_frame. Qed.
Lemma sane_ref_commit clean b : sane clean b → sane clean (with_commit (b_now b) b).
Proof. intros H. destruct H; split; simpl; eauto. lia. Qed.
Lemma sane_tick clean b : b_now b ≠ INT_MAX → sane clean b → sane clean (with_now (b_now b + 1) b).
Proof.
  intros Hn H. destruct H; split; simpl; eauto; try lia.
  intros x u Hu%sane_time0. lia.
Qed.
Lemma sane_ref_paint clean a n st b : sane clean b → sane clean (ref_paint a n st b).
Proof.
  intros H. destruct H; split; simpl; eauto. intros x u. unfold paint.
  case_match; [intros [= <-]; lia|eauto].
Qed.
Lemma sane_set_lib clean t n b : 0 ≤ n ≤ INT_MAX → sane clean b → sane clean (with_lib (fupd t (Some n) (b_lib b)) b).
Proof.
  intros Hn H. destruct H; split; simpl; eauto. intros u m. unfold fupd.
  case_match; [intros [= <-]; lia|eauto].
Qed.
Lemma sane_set_tx clean t n b : 0 ≤ n ≤ INT_MAX → sane clean b → sane clean (with_tx (fupd t (Some n) (b_tx b)) b).
Proof.
  intros Hn H. destruct H; split; simpl; eauto. intros u m. unfold fupd.
  case_match; [intros [= <-]; lia|eauto].
Qed.
Lemma sane_set_skip clean t n b : n = 0 ∨ n = 1 → sane clean b → sane clean (with_skip (fupd t (Some n) (b_skip b)) b).
Proof.
  intros Hn H. destruct H; split; simpl; eauto. intros u m Hi. unfold fupd.
  case_match; [intros [= <-]; lia|eauto].
Qed.

Create HintDb sane discriminated.
#[export] Hint Resolve sane_status sane_writer sane_commit_var sane_added sane_late sane_ref_commit
  sane_tick sane_ref_paint sane_set_lib sane_set_tx sane_set_skip : sane.

Lemma sane_ref_write clean stage op b b' : sane clean b → ref_write stage op b = Some b' → sane clean b'.
Proof.
  intros Hb. unfold ref_write. case_match; [done|].
  assert (sane clean (ref_commit_var stage op b)) as Hc.
  { unfold ref_commit_var, ref_origin. case_match; auto with sane. }
  revert Hc. generalize (ref_commit_var stage op b). clear b Hb. intros b Hb. unfold ref_store.
  destruct (if stage =? POST_FAILURE then _ else _) as [[]|]; simpl; [|..|done].
  { intros [= <-]. unfold ref_origin. auto with sane. }
  destruct (b_lib b (tid op)); simpl; [|done].
  case_match; [intros [= <-]; auto with sane|].
  destruct (b_tx b (tid op)); simpl; [|done]. intros [= <-].
  unfold ref_origin, ref_late. repeat case_match; auto with sane.
Qed.
Lemma sane_ref_tx_end clean t b b' : sane clean b → ref_tx_end t b = Some b' → sane clean b'.
Proof.
  intros Hb. unfold ref_tx_end. destruct (b_tx b t) as [n|] eqn:Hn; simpl; [|done].
  apply (sane_tx _ _ Hb) in Hn. repeat case_match; try done; intros [= <-]; [|auto with sane zarith].
  apply sane_late, sane_added, sane_status, sane_set_tx; [unfold INT_MAX; lia|done].
Qed.

Lemma sane_step clean stage op b b' bug :
  sane clean b → ref_step stage op b = Some (b', bug) → sane clean b'.
Proof.
  intros Hb. unfold ref_step.
  assert (∀ o : option bytes, (∀ b1, o = Some b1 → sane clean b1) →
    ((λ b', (b', false)) <$> o = Some (b', bug)) → sane clean b') as Hplain.
  { intros o Ho H. apply fmap_Some in H as (b1&H1&H2). simplify_eq. by apply Ho. }
  assert (∀ b1, ref_alloc stage op b = Some b1 → sane clean b1) as Halloc.
  { intros b1. unfold ref_alloc. repeat case_match; try done; intros [= <-]; auto with sane. }
  assert (∀ b1, ref_tx_add op b = Some b1 → sane clean b1) as Hadd.
  { intros b1. unfold ref_tx_add. destruct (b_tx b (tid op)); simpl; [|done].
    case_match; [done|]. intros [= <-]. auto with sane. }
  destruct (func_ret op).
  { destruct (operation op); try (by intros [= <- _]). by apply Hplain. }
  destruct (operation op); try (by intros [= <- _]); try (by apply Hplain);
    try (by repeat case_match; try done; intros [= <- _]; auto with sane).
  - intros H. apply fmap_Some in H as (u&_&H2). by simplify_eq.
  - apply Hplain. intros b1. by apply sane_ref_write.
  - repeat case_match; try done; intros [= <- _]; [|auto with sane].
    apply (sane_tick _ (with_status _ b)); [simpl; lia|auto with sane].
  - destruct (b_tx b (tid op)) as [n|] eqn:Hn; simpl; [|done]. apply (sane_tx _ _ Hb) in Hn.
    case_match; [done|]. intros [= <- _]. apply sane_set_tx; [lia|done].
  - apply Hplain. intros b1. by apply sane_ref_tx_end.
  - destruct (b_lib b (tid op)) as [n|] eqn:Hn; simpl; [|done]. apply (sane_lib _ _ Hb) in Hn.
    case_match; [done|]. intros [= <- _]. apply sane_set_lib; [lia|done].
  - destruct (b_lib b (tid op)) as [n|] eqn:Hn; simpl; [|done]. apply (sane_lib _ _ Hb) in Hn.
    case_match; [done|]. intros [= <- _]. apply sane_set_lib; [lia|done].
  - destruct (b_skip b (tid op)) as [n|] eqn:Hn; simpl; [|done].
    case_match; [done|]. intros [= <- _]. apply sane_set_skip; [by right|done].
  - destruct (b_skip b (tid op)) as [n|] eqn:Hn; simpl; [|done].
    case_match; [|done]. intros [= <- _]. apply sane_set_skip; [by left|done].
Qed.

Section invariants.
Context {imap : Type → Type} {IM : IntervalMap imap} {iset : Type} {IS : IntervalSet iset}.
Context {IML : IntervalMapLaws imap} {ISL : IntervalSetLaws iset}.
Implicit Types (d : dstate imap iset) (op : trace_entry_t).

(** ** Reachable states *)

(** The states of the detector: it starts with a new shadow memory, handles
    entries at either stage, and a failure goes on with a copy, whose detection
    flags [g] are what the memory of the copy held.  The index is whether there was
    no failure yet. *)
Inductive reachable : bool → dstate imap iset → Prop :=
  | reach_new d : shadow (mem d) = new_ShadowPM → reachable true d
  | reach_step clean stage op d d' :
      reachable clean d → entry_ok op → update_pm_status stage op d = Ok tt d' → reachable clean d'
  | reach_crash clean g d : reachable clean d → length g = MAX_THREADS → reachable false (crashed g d).

Lemma arr_ref_replicate {A} n (v : A) i k : arr_ref (replicate n v) i = Some k → k = v.
Proof.
  unfold arr_ref. case_match; [|done].
  intros Hk%list_elem_of_lookup_2. by apply elem_of_replicate in Hk as [-> _].
Qed.
Lemma new_sane : sane true (abs (imap:=imap) (iset:=iset) new_ShadowPM).
Proof.
  split; simpl; try (unfold INT_MAX; lia).
  - intros x u. by rewrite im_at_empty.
  - intros t n ->%(arr_ref_replicate MAX_THREADS 0). unfold INT_MAX. lia.
  - intros t n ->%(arr_ref_replicate MAX_THREADS 0). unfold INT_MAX. lia.
  - intros t n _ ->%(arr_ref_replicate MAX_THREADS 0). by left.
Qed.
Lemma crash_sane clean g b : sane clean b → sane false (crash g b).
Proof.
  intros [S1 S2 S3 S4 S5 S6]. split; simpl; eauto.
  - intros t n ->%(arr_ref_replicate MAX_THREADS 0). unfold INT_MAX. lia.
  - intros t n ->%(arr_ref_replicate MAX_THREADS 0). unfold INT_MAX. lia.
  - done.
Qed.

(** C15. The invariant of the detector.  In every state it can reach, however the
    entries of both runs and the failures follow each other, each per-thread
    array has one cell per thread and the filter of checked reads is empty; the
    modification times of all bytes and the time of the last commit are not in
    the future; the depths of library calls and transactions have not gone
    negative or overflowed; and before the first failure the detection flags are 0
    or 1.  The flags of a copy are arbitrary, since the copy constructor does not
    initialise them.  The ranges of the entries do not wrap around at [2^64] and are
    not the empty range at address 0 ([entry_ok]). *)
Theorem reachable_sane clean d :
  reachable clean d → sh_wf (shadow (mem d)) ∧ sane clean (abs (shadow (mem d))).
Proof.
  induction 1 as [d Hd|clean stage op d d' _ [Hwf Hs] Hok Hu|clean g d _ [Hwf Hs] Hg].
  - rewrite Hd. split; [by repeat split|apply new_sane].
  - pose proof (dsim_step stage op d Hwf Hok) as H. unfold dsim, wpe in H. rewrite Hu in H.
    destruct H as (b'&bug&Hr&Hb&Hwf'&_). split; [done|]. rewrite Hb. by eapply sane_step.
  - split; [by apply copy_wf|]. simpl. rewrite abs_copy. by eapply crash_sane.
Qed.

(** ** When the handler stops *)

(** A test on a thread's cell; a thread that has none fails it. *)
Definition cell {A} (l : list A) (t : Z) (p : A → bool) : bool :=
  match arr_ref l t with Some k => p k | None => false end.

(** The entry is handled: its thread exists, its range is not empty, no counter
    leaves its range and the flags are as the operation expects. *)
Definition handled stage op (s : ShadowPM imap iset) : bool :=
  let no_src := bad_range (src_addr op) (size op) in
  let no_dst := bad_range (dst_addr op) (size op) in
  if func_ret op then
    match operation op with PMEM_MAP_FILE => negb no_dst | _ => true end
  else
    match operation op with
    | READ => negb (stage =? POST_FAILURE)
              || cell (skipDetectionStatus s) (tid op)
                   (λ k, (k =? 1) || (negb no_src && (size op <? 65536)))
    | WRITE => negb no_dst
               && ((stage =? POST_FAILURE) || cell (skipDetectionStatus s) (tid op) (λ _, true))
    | SFENCE => negb (stage =? PRE_FAILURE) || negb (global_timestamp s =? INT_MAX)
    | PM_TRACE_PM_ADDR_ADD => negb no_dst
    | PMEM_UNMAP | PM_TRACE_PM_ADDR_REMOVE => negb no_src
    | PM_TRACE_TX_ADDR_ADD | PM_TRACE_TX_ALLOC =>
        cell (tx_level s) (tid op) (λ _, true) && negb no_dst
    | PM_TRACE_TX_BEGIN => cell (tx_level s) (tid op) (λ n, negb (n =? INT_MAX))
    | PM_TRACE_TX_END => cell (tx_level s) (tid op) (λ n, 0 <? n)
    | PMDK_INTERNAL_CALL => cell (pre_InternalFunctLevel s) (tid op) (λ n, negb (n =? INT_MAX))
    | PMDK_INTERNAL_RET => cell (pre_InternalFunctLevel s) (tid op) (λ n, 0 <? n)
    | PM_TRACE_DETECTION_SKIP_BEGIN => cell (skipDetectionStatus s) (tid op) (λ k, negb (k =? 1))
    | PM_TRACE_DETECTION_SKIP_END => cell (skipDetectionStatus s) (tid op) (λ k, k =? 1)
    | PM_OP_OTHER _ => false
    | _ => true
    end.

Definition is_some {A} (o : option A) : bool := match o with Some _ => true | None => false end.
Lemma is_some_fmap {A B} (f : A → B) o : is_some (f <$> o) = is_some o.
Proof. by destruct o. Qed.

Lemma handled_write stage op (s : ShadowPM imap iset) :
  sh_wf s →
  is_some (ref_write stage op (abs s))
  = negb (bad_range (dst_addr op) (size op))
    && ((stage =? POST_FAILURE) || cell (skipDetectionStatus s) (tid op) (λ _, true)).
Proof.
  intros [(?&?&?&?&?&?&?) _]. unfold ref_write, ref_store, cell. case_match; [done|]. simpl.
  assert (∀ t, b_skip (ref_commit_var stage op (abs s)) t = arr_ref (skipDetectionStatus s) t ∧
    b_lib (ref_commit_var stage op (abs s)) t = arr_ref (pre_InternalFunctLevel s) t ∧
    b_tx (ref_commit_var stage op (abs s)) t = arr_ref (tx_level s) t) as Hcv.
  { intros t. unfold ref_commit_var. by case_match. }
  destruct (Hcv (tid op)) as (->&->&->). destruct (stage =? POST_FAILURE); [done|].
  destruct (arr_ref (skipDetectionStatus s) (tid op)) as [k|] eqn:Hk; [|done]. simpl.
  destruct (arr_ref_transfer _ (pre_InternalFunctLevel s) _ _ Hk) as [lib ->]; [congruence|].
  destruct (arr_ref_transfer _ (tx_level s) _ _ Hk) as [tx ->]; [congruence|].
  simpl. by repeat (case_match; simpl).
Qed.
Lemma handled_step stage op (s : ShadowPM imap iset) :
  sh_wf s → is_some (ref_step stage op (abs s)) = handled stage op s.
Proof.
  intros Hwf. unfold ref_step, handled, ref_alloc, ref_tx_add, ref_tx_end, ref_read, cell.
  destruct (func_ret op), (operation op); try done; rewrite ?is_some_fmap; simpl;
    try (by apply handled_write); try (by repeat case_match).
  1: destruct (stage =? POST_FAILURE); simpl; [|done].
  all: destruct (arr_ref _ _) as [k|]; simpl; [|done];
    repeat (case_match; simpl in *; try done); lia.
Qed.

(** C16. When the handler stops.  For a shadow memory with one cell per thread in each
    array and an empty filter of checked reads, and an entry whose range does not
    wrap around at [2^64] and is not the empty range at address 0, the handler
    returns exactly if [handled] holds.  It stops on an unknown operation; on an
    allocation, a release, a write, an added range or the return of
    [pmem_map_file] whose address or size is 0; on a read after the failure whose
    address or size is 0 or whose size is 64 KiB or more, unless the thread skips
    the detection; on the entries that use a per-thread array (reads after the
    failure, writes before it, transactions, library calls and skipped regions), if
    the thread has no cell; on the end of a transaction, a library call or a skipped
    region that was not begun, on a skipped region begun twice; and where the depth
    of transactions or library calls, or at a fence before the failure the
    timestamp, would pass [INT_MAX]. *)
Theorem handler_returns_iff stage op d :
  sh_wf (shadow (mem d)) → entry_ok op →
  returns (update_pm_status stage op d) = handled stage op (shadow (mem d)).
Proof.
  intros Hwf Hok. rewrite <-handled_step by done.
  pose proof (dsim_step stage op d Hwf Hok) as H. unfold dsim, wpe in H.
  destruct (update_pm_status stage op d); simpl.
  - by destruct H as (?&?&->&_).
  - by rewrite H.
Qed.
End invariants.
