(* ===== verification/Reports.v ===== *)
(** * What the tool prints

    The reports of the checker, exactly: the text that accompanies a
    cross-failure bug, the unnecessary flushes, and the ranges a transaction
    added without modifying them. *)
From stdpp Require Import base list strings gmap.
From S2P Require Import Prelude Trace Icl ShadowPM ShadowFacts Detector ByteSpec Refinement.
From S2P Require Import SegList Scenarios Os Frontend FrontendFacts Campaign Persistency.
Open Scope Z_scope.

Section reports.
Context {imap : Type → Type} {IM : IntervalMap imap} {iset : Type} {IS : IntervalSet iset}.
Context {IML : IntervalMapLaws imap} {ISL : IntervalSetLaws iset}.
Implicit Types (w : world imap iset) (op : trace_entry_t).

(** Statements that only print. *)
Definition prints (c : M (world imap iset) unit) (l : list report) : Prop :=
  ∀ w, c w = Ok tt (World (shadow w) (reports w ++ l)).
Lemma prints_ret : prints (ret tt) [].
Proof. intros [s rs]. unfold ret. simpl. by rewrite app_nil_r. Qed.
Lemma prints_say r : prints (say r) [r].
Proof. done. Qed.
Lemma prints_seq c1 c2 l1 l2 : prints c1 l1 → prints c2 l2 → prints (c1 ;; c2) (l1 ++ l2).
Proof. intros H1 H2 w. unfold bind. rewrite H1, H2. simpl. by rewrite <-app_assoc. Qed.
Lemma prints_when (b : bool) c l : prints c l → prints (when b c) (if b then l else []).
Proof. destruct b; [done|]. intros _. apply prints_ret. Qed.
Lemma prints_for_each {A} (l : list A) body out :
  (∀ x, prints (body x) (out x)) → prints (for_each l body) (concat (map out l)).
Proof. intros H. induction l; [apply prints_ret|]. by apply prints_seq. Qed.

(** ** The text of a cross-failure bug *)

(** The writers of the range that was read, with their backtraces. *)
Definition writer_lines (ips : list Z) : list report :=
  concat (map (λ ip, [WriteIP ip; Backtrace ip PRE_FAILURE]) ips).
(** The read, its backtrace and the reason, when a writer is known. *)
Definition read_lines op (why : report) (ips : list Z) : list report :=
  match ips with
  | [] => []
  | _ => [InconsistentReadAt (src_addr op) (size op); ReadIP (instr_ptr op);
          Backtrace (instr_ptr op) POST_FAILURE; why]
  end.

Definition all_back w op : bool :=
  forallb (λ st, status_eqb st WRITTEN_BACK) (MAP_LOOKUP (pm_status (shadow w)) (src_addr op) (size op)).
Definition recent w op : bool :=
  if commit_timestamp (shadow w) <? 0 then true
  else commit_timestamp (shadow w) >? max_timestamp
         (MAP_LOOKUP (pm_modify_timestamps (shadow w)) (src_addr op) (size op)).

Lemma error_unless_pm_ok op addr size what w :
  is_pm_addr addr size = true → error_unless_pm op addr size what w = Ok tt w.
Proof. unfold error_unless_pm. by intros ->. Qed.
Lemma is_writtenback_ok op w :
  src_addr op ≠ 0 → size op ≠ 0 → is_pm_addr (src_addr op) (size op) = true →
  is_writtenback op (src_addr op) (size op) w = Ok (all_back w op) w.
Proof.
  intros Ha Hn Hpm. unfold is_writtenback, bind, assert_range, assert_, nonzero.
  rewrite (proj2 (Z.eqb_neq _ _) Ha), (proj2 (Z.eqb_neq _ _) Hn). simpl.
  by rewrite error_unless_pm_ok.
Qed.
Lemma is_consistent_ok op w :
  src_addr op ≠ 0 → size op ≠ 0 → is_pm_addr (src_addr op) (size op) = true →
  is_consistent op (src_addr op) (size op) w
  = Ok (forallb clean_or_consistent (MAP_LOOKUP (pm_status (shadow w)) (src_addr op) (size op))) w.
Proof.
  intros Ha Hn Hpm. unfold is_consistent, bind, assert_range, assert_, nonzero.
  rewrite (proj2 (Z.eqb_neq _ _) Ha), (proj2 (Z.eqb_neq _ _) Hn). simpl.
  by rewrite error_unless_pm_ok.
Qed.
Lemma is_recent_ok op w :
  is_recent_commit_update op (src_addr op) (size op) w = Ok (recent w op) w.
Proof. unfold is_recent_commit_update, bind, recent. simpl. by case_match. Qed.

Lemma print_writers op w :
  operation op = READ → src_addr op ≠ 0 → size op ≠ 0 →
  let ips := MAP_LOOKUP (write_addr_IP_mapping (shadow w)) (src_addr op) (size op) in
  print_look_up_write_addr_IP_mapping op (src_addr op) (size op) w
  = Ok (negb (Nat.eqb (length ips) 0))
      (World (shadow w) (reports w ++ ConsistencyBug :: writer_lines ips)).
Proof.
  intros Hop Ha Hn ips. unfold print_look_up_write_addr_IP_mapping, bind, assert_, nonzero.
  rewrite bool_decide_true by done.
  rewrite (proj2 (Z.eqb_neq _ _) Ha), (proj2 (Z.eqb_neq _ _) Hn). simpl.
  rewrite (prints_for_each _ _ (λ ip, [WriteIP ip; Backtrace ip PRE_FAILURE])).
  - simpl. by rewrite <-app_assoc.
  - intros ip w0. unfold say, modify. simpl. by rewrite <-app_assoc.
Qed.

Lemma print_debug op w :
  operation op = READ → src_addr op ≠ 0 → size op ≠ 0 →
  let ips := MAP_LOOKUP (write_addr_IP_mapping (shadow w)) (src_addr op) (size op) in
  printInconsistentReadDebug op w
  = Ok (negb (Nat.eqb (length ips) 0))
      (World (shadow w) (reports w ++ ConsistencyBug :: writer_lines ips ++
         match ips with
         | [] => []
         | _ => [InconsistentReadAt (src_addr op) (size op); ReadIP (instr_ptr op);
                 Backtrace (instr_ptr op) POST_FAILURE]
         end)).
Proof.
  intros Hop Ha Hn ips. unfold printInconsistentReadDebug.
  erewrite bind_Ok by (apply print_writers; done). fold ips. clearbody ips.
  destruct ips as [|ip ips]; unfold bind, when, say, modify, ret; simpl.
  - done.
  - by rewrite <-!app_assoc.
Qed.
Lemma report_text op w :
  operation op = READ → src_addr op ≠ 0 → size op ≠ 0 →
  is_pm_addr (src_addr op) (size op) = true → all_back w op && recent w op = false →
  let ips := MAP_LOOKUP (write_addr_IP_mapping (shadow w)) (src_addr op) (size op) in
  report_inconsistent_read op w
  = Ok tt (World (shadow w) (reports w ++ ConsistencyBug :: writer_lines ips ++
      read_lines op (if all_back w op then NotPersistedBeforeCommitVar
                     else NotPersistedBeforeFailure) ips)).
Proof.
  intros Hop Ha Hn Hpm Hbad ips. unfold report_inconsistent_read.
  erewrite bind_Ok by (apply print_debug; done). fold ips. clearbody ips.
  destruct ips as [|ip ips]; simpl negb; unfold when; [done|].
  set (w1 := World (shadow w) _).
  rewrite (bind_Ok _ _ w1 (all_back w op) w1) by exact (is_writtenback_ok op w1 Ha Hn Hpm).
  destruct (all_back w op) eqn:Hb; cbv beta iota delta [negb].
  - rewrite (bind_Ok _ _ w1 (recent w op) w1) by exact (is_recent_ok op w1). simpl in Hbad. rewrite Hbad.
    unfold say, modify. simpl. rewrite <-app_assoc. simpl. by rewrite <-app_assoc.
  - unfold say, modify. simpl. rewrite <-app_assoc. simpl. by rewrite <-app_assoc.
Qed.

Lemma lookup_checked_ok addr size w :
  checked_addr_set (shadow w) = ∅ → addr ≠ 0 → 0 < size < 65536 →
  lookup_checked_addr addr size w = Ok false w.
Proof.
  intros Hc Ha Hn. pose proof (wpe_lookup_checked_addr addr size
    (λ b w', b = false ∧ w' = w) (λ _ _, False) w Hc) as H.
  unfold wpe in H. unfold bad_range in H.
  destruct (lookup_checked_addr addr size w).
  - destruct H as [-> ->]; [done|lia|done].
  - exfalso. apply H; [done|lia].
Qed.
Lemma handle_read_text op w :
  sh_wf (shadow w) → checked_read op (arr_ref (skipDetectionStatus (shadow w))) →
  is_pm_addr (src_addr op) (size op) = true →
  let ips := MAP_LOOKUP (write_addr_IP_mapping (shadow w)) (src_addr op) (size op) in
  handle_read POST_FAILURE op w
  = Ok tt (World (shadow w) (reports w ++
      if ref_read_ok (abs (shadow w)) (tid op) (src_addr op) (size op) then []
      else ConsistencyBug :: writer_lines ips ++
        read_lines op (if all_back w op then NotPersistedBeforeCommitVar
                       else NotPersistedBeforeFailure) ips)).
Proof.
  intros Hwf [Hop Hr Hok Ha Hn (k&Hk&Hk1)] Hpm ips.
  assert (wf_range (src_addr op) (size op)) as Hrange.
  { unfold entry_ok, op_range in Hok. by rewrite Hop in Hok. }
  destruct (arr_ref_transfer _ (tx_added_addr (shadow w)) _ _ Hk) as [added Hadd].
  { destruct Hwf as [(?&?&?&?&?&?&?) _]. congruence. }
  rewrite (read_ok_spec op w added) by done. fold (all_back w op) (recent w op).
  unfold handle_read. simpl when.
  assert (∀ A (f : ShadowPM imap iset → list A) i a, arr_ref (f (shadow w)) i = Some a →
    load_sh f i w = Ok a w) as Hload.
  { intros A f i a H. unfold load_sh, load. by rewrite H. }
  rewrite (bind_Ok _ _ w false w).
  2: { unfold is_detection_disabled. rewrite (bind_Ok _ _ w k w) by auto. unfold ret.
       by rewrite (proj2 (Z.eqb_neq k 1)). }
  simpl when. rewrite (bind_Ok _ _ w false w) by (apply lookup_checked_ok; [apply Hwf|done..]).
  erewrite bind_Ok by (apply is_consistent_ok; (done || lia)).
  erewrite bind_Ok by (apply is_writtenback_ok; (done || lia)).
  rewrite (bind_Ok _ _ w (all_back w op && recent w op) w).
  2: { destruct (all_back w op); [apply is_recent_ok|done]. }
  erewrite (bind_Ok (is_commit_var_addr _ _ _)) by reflexivity.
  rewrite (bind_Ok _ _ w (SET_LOOKUP added (src_addr op) (size op)) w).
  2: { unfold is_added_addr. by rewrite (bind_Ok _ _ w added w) by auto. }
  destruct (_ || _ || _ || _) eqn:Hv.
  - simpl. rewrite app_nil_r. by destruct w.
  - simpl when. apply report_text; [done|done|lia|done|].
    rewrite !orb_false_iff in Hv. tauto.
Qed.

(** C20. The report on an unsafe read, word for word.  A checked read of
    persistent memory changes nothing; if the rules excuse it, nothing is
    printed; if not, the tool prints that there is a bug, every instruction that
    wrote a byte of the range with its backtrace and, if there is one, the read
    with its backtrace and the reason: the range was not all written back before
    the failure or, if it was, not before the last commit.  The message that
    neither reason applies is never printed. *)
Theorem read_report op d :
  sh_wf (shadow (mem d)) → checked_read op (arr_ref (skipDetectionStatus (shadow (mem d)))) →
  is_pm_addr (src_addr op) (size op) = true →
  let w := mem d in
  let ips := MAP_LOOKUP (write_addr_IP_mapping (shadow w)) (src_addr op) (size op) in
  update_pm_status POST_FAILURE op d
  = Ok tt (DState (World (shadow w) (reports w ++
      if ref_read_ok (abs (shadow w)) (tid op) (src_addr op) (size op) then []
      else ConsistencyBug :: writer_lines ips ++
        read_lines op (if all_back w op then NotPersistedBeforeCommitVar
                       else NotPersistedBeforeFailure) ips))
      (pre_testing_complete d) (pre_failure_point_complete d) (post_testing_complete d)).
Proof.
  intros Hwf Hrd Hpm w ips. pose proof (handle_read_text op w Hwf Hrd Hpm) as Ht.
  destruct Hrd as [Hop Hr _ _ _ _]. unfold update_pm_status. rewrite Hr, Hop.
  unfold on_mem, zoom. fold w. by rewrite Ht.
Qed.

(** ** Unnecessary flushes *)

Lemma elem_of_concat_map {A} (r : report) (f : A → list report) l :
  r ∈ concat (map f l) ↔ ∃ x, x ∈ l ∧ r ∈ f x.
Proof.
  induction l as [|y l IH]; simpl.
  - rewrite elem_of_nil. split; [done|]. by intros (x&H%elem_of_nil&_).
  - rewrite elem_of_app, IH. setoid_rewrite elem_of_cons. split.
    + intros [?|(x&?&?)]; eauto.
    + intros (x&[->|?]&?); eauto.
Qed.

(** A flush is reported as unnecessary exactly when some byte of its range
    has been flushed already and not yet fenced; flushed or not, every byte of
    the range then waits for a fence, and no other byte changes. *)
Theorem flush_report op d :
  entry_ok op → operation op = CLWB → func_ret op = false →
  ∃ d' rs, update_pm_status PRE_FAILURE op d = Ok tt d' ∧
    reports (mem d') = reports (mem d) ++ rs ∧
    (UnnecessaryFlush (src_addr op) (size op) (instr_ptr op) ∈ rs ↔
       ∃ x, in_range (src_addr op) (size op) x = true ∧
            im_at (pm_status (shadow (mem d))) x = Some WRITEBACK_PENDING) ∧
    ∀ x, im_at (pm_status (shadow (mem d'))) x
         = if in_range (src_addr op) (size op) x then Some WRITEBACK_PENDING
           else im_at (pm_status (shadow (mem d))) x.
Proof.
  intros Hok Hop Hr. unfold entry_ok, op_range in Hok. rewrite Hop in Hok.
  unfold update_pm_status. rewrite Hr, Hop. simpl when. unfold on_mem, zoom, writeback_addr.
  erewrite bind_Ok by reflexivity. set (l := MAP_LOOKUP _ _ _).
  set (out := λ st, if status_eqb st WRITEBACK_PENDING then
    [WarnVec op "Unnecessary writeback"; UnnecessaryFlush (src_addr op) (size op) (instr_ptr op);
     Backtrace (instr_ptr op) PRE_FAILURE] else []).
  rewrite (bind_Ok _ _ _ tt (World (shadow (mem d)) (reports (mem d) ++ concat (map out l)))).
  2: { apply prints_for_each. intros st. apply prints_when.
       apply (prints_seq _ _ [_] [_; _]), (prints_seq _ _ [_] [_]); apply prints_say. }
  eexists _, _. split; [reflexivity|]. split; [reflexivity|]. split; simpl.
  - rewrite elem_of_concat_map. unfold l, MAP_LOOKUP. setoid_rewrite im_values_spec. split.
    + intros (st&(x&Hx&Hst)&Hin). exists x. rewrite in_range_closed in Hx by done.
      split; [done|]. unfold out in Hin. case_match; [|by apply elem_of_nil in Hin].
      rewrite Hst. by destruct st.
    + intros (x&Hx&Hst). exists WRITEBACK_PENDING. split.
      * exists x. by rewrite in_range_closed.
      * unfold out. simpl. right. left.
  - intros x. by rewrite MAP_UPDATE_at, closed_in_range.
Qed.

(** ** Ranges a transaction added in vain *)

(** A run of bytes above address 0, in the address space. *)
Definition run_in_space (i : ival) : Prop := 0 < lower i ∧ lower i ≤ upper i ∧ upper i < U64.
Lemma run_closed i : run_in_space i → closed (lower i) (u64 (upper i - lower i + 1)) = i.
Proof.
  intros (?&?&?). unfold closed. rewrite (u64_small (upper i - lower i + 1)) by lia.
  rewrite u64_small by lia. destruct i. simpl. f_equal. lia.
Qed.

(** No byte of the run is modified, pending or written back. *)
Definition unmodified (s : ShadowPM imap iset) (i : ival) : Prop :=
  ∀ x st, x ∈ i → im_at (pm_status s) x = Some st → clean_or_consistent st = true.

Definition first_lines (l : list Z) (m : Z → report) : list report :=
  match l with [] => [] | ip :: _ => [m ip; Backtrace ip PRE_FAILURE] end.
Lemma prints_say_first l m : prints (say_first l m) (first_lines l m).
Proof.
  destruct l; [apply prints_ret|]. apply (prints_seq _ _ [_] [_]); apply prints_say.
Qed.
(** What is printed about a run that was added in vain; the maps say who added it. *)
Definition vain_lines (added alloced : imap Z) (i : ival) : list report :=
  let size := u64 (upper i - lower i + 1) in
  TxAddNeverModified (lower i) size ::
  first_lines (MAP_LOOKUP added (lower i) size) PreviouslyAddedByTxAdd ++
  first_lines (MAP_LOOKUP alloced (lower i) size) PreviouslyAddedByTxAlloc.
Lemma vain_lines_spec added alloced i a n :
  run_in_space i →
  TxAddNeverModified a n ∈ vain_lines added alloced i ↔ a = lower i ∧ n = upper i - lower i + 1.
Proof.
  intros Hi. unfold vain_lines, first_lines. rewrite u64_small by (unfold run_in_space in Hi; lia).
  rewrite elem_of_cons, elem_of_app.
  destruct (MAP_LOOKUP added _ _), (MAP_LOOKUP alloced _ _); rewrite ?elem_of_cons, ?elem_of_nil;
    intuition congruence.
Qed.

Lemma commit_interval_report t i w m1 m2 :
  arr_ref (tx_added_addr_IP_mapping (shadow w)) t = Some m1 →
  arr_ref (tx_alloc_addr_IP_mapping (shadow w)) t = Some m2 →
  commit_interval t PRE_FAILURE i w
  = Ok tt (World (eff_commit_intervals [i] (shadow w)) (reports w ++
      if forallb clean_or_consistent (MAP_LOOKUP (pm_status (shadow w)) (lower i)
           (u64 (upper i - lower i + 1))) then vain_lines m1 m2 i else [])).
Proof.
  intros Hm1 Hm2. unfold commit_interval. simpl when. set (size := u64 _).
  set (clean := forallb _ _).
  rewrite (bind_Ok _ _ w tt (World (shadow w)
    (reports w ++ if clean then vain_lines m1 m2 i else []))); [done|].
  erewrite (bind_Ok (look pm_status)) by reflexivity. fold clean. destruct clean.
  - unfold when. erewrite (bind_Ok (say _)) by reflexivity.
    rewrite (bind_Ok _ _ _ m1 (World (shadow w) (reports w ++ [TxAddNeverModified (lower i) size])))
      by (unfold load_sh, load; simpl; by rewrite Hm1).
    erewrite bind_Ok by apply prints_say_first.
    erewrite (bind_Ok (load_sh _ _)) by (unfold load_sh, load; simpl; by rewrite Hm2).
    rewrite prints_say_first. simpl. by rewrite <-!app_assoc.
  - simpl. rewrite app_nil_r. by destruct w.
Qed.

(** The runs of a set follow each other without touching. *)
Lemma separated_after i l :
  separated (i :: l) → Forall run_in_space (i :: l) → Forall (λ j, upper i < lower j) l.
Proof.
  revert i. induction l as [|j l IH]; intros i Hs Hr; [done|].
  destruct Hs as [Hij Hs]. apply Forall_cons in Hr as [_ Hr].
  constructor; [lia|]. apply IH in Hs; [|done].
  eapply Forall_impl; [exact Hs|]. apply Forall_cons in Hr as [(?&?&?) _]. simpl. lia.
Qed.
Lemma unmodified_after i j w rs :
  run_in_space i → run_in_space j → upper i < lower j →
  unmodified (shadow (World (eff_commit_intervals [i] (shadow w)) rs)) j ↔ unmodified (shadow w) j.
Proof.
  intros Hi Hj Hlt. unfold unmodified. simpl.
  assert (∀ x, x ∈ j → im_at (MAP_UPDATE_INTERVAL (pm_status (shadow w)) i CONSISTENT) x
                       = im_at (pm_status (shadow w)) x) as Heq.
  { intros x Hx. unfold MAP_UPDATE_INTERVAL. rewrite im_at_add.
    destruct (ival_memb x i) eqn:E; [|done]. apply ival_memb_spec in E.
    unfold elem_of, ival_elem_of in *. lia. }
  split; intros H x st Hx Hst; apply (H x st Hx); by rewrite ?Heq in *.
Qed.

Lemma commit_loop_report t l w :
  separated l → Forall run_in_space l →
  is_Some (arr_ref (tx_added_addr_IP_mapping (shadow w)) t) →
  is_Some (arr_ref (tx_alloc_addr_IP_mapping (shadow w)) t) →
  ∃ rs, for_each l (commit_interval t PRE_FAILURE) w
        = Ok tt (World (eff_commit_intervals l (shadow w)) (reports w ++ rs)) ∧
    ∀ a n, TxAddNeverModified a n ∈ rs ↔
      ∃ i, i ∈ l ∧ a = lower i ∧ n = upper i - lower i + 1 ∧ unmodified (shadow w) i.
Proof.
  revert w. induction l as [|i l IH]; intros w Hsep Hok [m1 Hm1] [m2 Hm2].
  { exists []. split; [simpl; rewrite app_nil_r; by destruct w as [[]]|].
    intros a n. rewrite elem_of_nil. split; [done|]. by intros (i&Hi%elem_of_nil&_). }
  pose proof (separated_after _ _ Hsep Hok) as Haft.
  apply Forall_cons in Hok as [Hi Hok].
  cbn [for_each]. erewrite bind_Ok by (by apply commit_interval_report).
  destruct (IH (World (eff_commit_intervals [i] (shadow w)) (reports w ++
      if forallb clean_or_consistent (MAP_LOOKUP (pm_status (shadow w)) (lower i)
           (u64 (upper i - lower i + 1))) then vain_lines m1 m2 i else []))) as (rs&Hrun&Hrs);
    [by destruct l; [|apply Hsep]|done|done|done|].
  eexists. split; [rewrite Hrun; simpl; rewrite <-app_assoc; reflexivity|].
  intros a n. rewrite elem_of_app, Hrs. setoid_rewrite elem_of_cons.
  assert (forallb clean_or_consistent (MAP_LOOKUP (pm_status (shadow w)) (lower i)
    (u64 (upper i - lower i + 1))) = true ↔ unmodified (shadow w) i) as Hc.
  { rewrite MAP_LOOKUP_forallb. by rewrite run_closed. }
  rewrite Forall_forall in Haft. rewrite Forall_forall in Hok. split.
  - intros [Hin|(j&Hj&->&->&Hu)].
    + case_match; [|by apply elem_of_nil in Hin]. apply vain_lines_spec in Hin as [-> ->]; [|done].
      exists i. by rewrite <-Hc; auto.
    + exists j. apply unmodified_after in Hu; auto.
  - intros (j&[->|Hj]&->&->&Hu).
    + left. apply Hc in Hu. rewrite Hu. by apply vain_lines_spec.
    + right. exists j. split; [done|]. split; [done|]. split; [done|]. apply unmodified_after; auto.
Qed.

Lemma segments_ok (s : iset) :
  (∀ x, is_mem s x = true → 0 < x < U64) → Forall run_in_space (is_segments s).
Proof.
  intros Hs. apply Forall_forall. intros i Hi. pose proof (is_segments_nonempty _ _ Hi).
  assert (∀ x, x ∈ i → 0 < x < U64) as Hx.
  { intros x Hx. apply Hs, is_segments_spec. by exists i. }
  unfold run_in_space. unfold elem_of, ival_elem_of in Hx.
  pose proof (Hx (lower i)). pose proof (Hx (upper i)). lia.
Qed.

(** At the end of the outermost transaction the tool reports exactly those
    maximal runs of added bytes that hold no byte modified since: none of the
    run is modified, waiting for a fence or written back.  Making the earlier
    runs consistent does not hide or create a report on a later one. *)
Theorem tx_vain_report op d added :
  sh_wf (shadow (mem d)) → operation op = PM_TRACE_TX_END → func_ret op = false →
  arr_ref (tx_level (shadow (mem d))) (tid op) = Some 1 →
  arr_ref (tx_added_addr (shadow (mem d))) (tid op) = Some added →
  (∀ x, is_mem added x = true → 0 < x < U64) →
  ∃ d' rs, update_pm_status PRE_FAILURE op d = Ok tt d' ∧
    reports (mem d') = reports (mem d) ++ rs ∧
    ∀ a n, TxAddNeverModified a n ∈ rs ↔
      ∃ i, i ∈ is_segments added ∧ a = lower i ∧ n = upper i - lower i + 1 ∧
        unmodified (shadow (mem d)) i.
Proof.
  intros [(?&?&?&?&?&?&?) _] Hop Hr Hlev Hadd Hb.
  unfold update_pm_status. rewrite Hr, Hop. unfold on_mem, zoom, decrement_tx_level.
  assert (∀ A (f : ShadowPM imap iset → list A) i a w, arr_ref (f (shadow w)) i = Some a →
    load_sh f i w = Ok a w) as Hload.
  { intros A f i a w H'. unfold load_sh, load. by rewrite H'. }
  assert (∀ A (f : ShadowPM imap iset → list A) set i v (w : world imap iset),
    is_Some (arr_ref (f (shadow w)) i) →
    store_sh f set i v w = Ok tt (World (set (λ l, arr_upd l i v) (shadow w)) (reports w))) as Hstore.
  { intros A f set i v w [a Ha]. unfold store_sh. by rewrite (bind_Ok _ _ w a w) by auto. }
  erewrite bind_Ok by (by apply Hload). simpl assert_. erewrite bind_Ok by reflexivity.
  erewrite bind_Ok by (apply Hstore; by rewrite Hlev). simpl when.
  erewrite bind_Ok by (apply Hload; exact Hadd).
  destruct (commit_loop_report (tid op) (is_segments added)
    (World (set_tx_level (λ l, arr_upd l (tid op) 0) (shadow (mem d))) (reports (mem d))))
    as (rs&Hrun&Hrs); [apply is_segments_separated|by apply segments_ok|..];
    try (simpl; eapply arr_ref_transfer; [exact Hlev|congruence]).
  erewrite bind_Ok by exact Hrun.
  do 3 erewrite bind_Ok by (apply Hstore; simpl; eapply arr_ref_transfer; [exact Hlev|congruence]).
  rewrite Hstore by (simpl; eapply arr_ref_transfer; [exact Hlev|congruence]).
  by eexists _, rs.
Qed.
End reports.
