(* ===== verification/Instances.v ===== *)
(** * The theorems at work

    Each property with hypotheses, applied to a concrete run on the containers of
    [SegList]: the hypotheses hold there, and the conclusion is spelled out. *)
From stdpp Require Import base list strings gmap.
From S2P Require Import Prelude Trace Icl ShadowPM ShadowFacts Detector ByteSpec Refinement.
From S2P Require Import SegList Scenarios Os Frontend FrontendFacts Campaign Persistency.
From S2P Require Import Verdicts Invariants Reports.
Open Scope Z_scope.

(** ** States *)

Lemma new_calm : calm_threads (abs (imap:=seg_map) (iset:=seg_set) new_ShadowPM).
Proof.
  intros t Ht. assert (arr_ref (replicate MAX_THREADS 0) t = Some 0) as H.
  { unfold arr_ref. rewrite (proj2 (Z.leb_le 0 t)) by lia. apply lookup_replicate_2. lia. }
  split; [exact H|]. split; [exact H|]. by exists 0.
Qed.
Lemma new_fresh : fresh_bytes (abs (imap:=seg_map) (iset:=seg_set) new_ShadowPM).
Proof.
  split; [done|]. split; [done|]. split; [|done]. intros t x.
  change (mem_at (replicate MAX_THREADS (is_empty (iset:=seg_set))) t x = false). unfold mem_at.
  destruct (arr_ref _ t) as [s|] eqn:E; [|done]. by apply arr_ref_replicate in E as ->.
Qed.
Lemma plain_checked_read t a n g :
  entry_okb (ld t a n) = true → a ≠ 0 → 0 < n < 65536 → arr_ref g t = Some 0 →
  checked_read (ld t a n) (arr_ref g).
Proof. intros Hok%entry_okb_true ? ? ?. split; try done. by exists 0. Qed.

(** Inside a transaction of thread 0 that has added 16 bytes and stored to none of
    them, but to 8 others. *)
Definition in_tx_trace : list trace_entry_t :=
  [bare PM_TRACE_TX_BEGIN 0; txadd 0 pm0 16; st 0 (pm0 + 64) 8].
Definition dstate_tx : dstate seg_map seg_set :=
  end_state (update_all PRE_FAILURE in_tx_trace dstate0).
Lemma dstate_tx_wf : sh_wf (shadow (mem dstate_tx)).
Proof. vm_compute. tauto. Qed.

(** One word committed by a transaction, its neighbour flushed and fenced. *)
Definition mixed_trace : list trace_entry_t :=
  [bare PM_TRACE_TX_BEGIN 0; txadd 0 pm0 8; st 0 pm0 8; bare PM_TRACE_TX_END 0;
   st 0 (pm0 + 8) 8; clwb 0 (pm0 + 8) 8; sfence 0].
Definition dstate_mixed : dstate seg_map seg_set :=
  end_state (update_all PRE_FAILURE mixed_trace dstate0).

(** ** Verdicts *)

Definition two_words : list trace_entry_t :=
  [st 0 pm0 8; clwb 0 pm0 8; sfence 0; st 0 (pm0 + 64) 8].

Lemma crash_read_verdict_witness : ∃ d1 d2,
  update_all PRE_FAILURE two_words dstate0 = Ok tt d1 ∧
  update_pm_status POST_FAILURE (ld 0 (pm0 + 60) 8) (crashed no_skip d1) = Ok tt d2 ∧
  bugs (reports (mem d1)) = 0%nat ∧
  (read_safe (is_mem (commit_var_set_addr shadow0)) two_words (pm0 + 60) 8 →
     bugs (reports (mem d2)) = bugs (reports (mem d1))) ∧
  (¬ read_safe (is_mem (commit_var_set_addr shadow0)) two_words (pm0 + 60) 8 →
     bugs (reports (mem d2)) = S (bugs (reports (mem d1)))).
Proof.
  apply (crash_read_verdict dstate0 no_skip two_words (ld 0 (pm0 + 60) 8)).
  - vm_compute. tauto.
  - apply new_fresh.
  - apply new_calm.
  - vm_compute. reflexivity.
  - vm_compute. discriminate.
  - reflexivity.
  - apply plain_checked_read; done.
Defined.

Lemma tx_end_spec_witness : ∃ d',
  update_pm_status PRE_FAILURE (bare PM_TRACE_TX_END 0) dstate_tx = Ok tt d' ∧
  arr_ref (tx_level (shadow (mem d'))) 0 = Some 0 ∧
  (∀ x, status d' x = if added dstate_tx 0 x then Some CONSISTENT else status dstate_tx x) ∧
  (∀ t x, added d' t x = if 0 =? t then false else added dstate_tx t x).
Proof.
  apply (tx_end_spec PRE_FAILURE (bare PM_TRACE_TX_END 0) dstate_tx 1).
  - apply dstate_tx_wf.
  - reflexivity.
  - reflexivity.
  - vm_compute. reflexivity.
  - lia.
Defined.

Lemma sfence_spec_witness : ∃ d',
  update_pm_status PRE_FAILURE (sfence 0) dstate_half = Ok tt d' ∧
  (∀ x, status d' x ≠ Some WRITEBACK_PENDING) ∧
  (∀ x, status dstate_half x = Some WRITEBACK_PENDING → status d' x = Some WRITTEN_BACK) ∧
  (∀ x, status dstate_half x ≠ Some WRITEBACK_PENDING → status d' x = status dstate_half x) ∧
  global_timestamp (shadow (mem d')) = 2.
Proof.
  apply (sfence_spec PRE_FAILURE (sfence 0) dstate_half).
  - apply dstate_half_wf.
  - reflexivity.
  - reflexivity.
  - vm_compute. reflexivity.
Defined.

Lemma tx_atomic_witness : ∃ d1 d2,
  update_all PRE_FAILURE (tx_prefix 0 pm0 16 ++ [st 0 pm0 8]) dstate0 = Ok tt d1 ∧
  update_pm_status POST_FAILURE (ld 0 pm0 8) (crashed no_skip d1) = Ok tt d2 ∧
  bugs (reports (mem d2)) = 0%nat.
Proof.
  apply (tx_atomic dstate0 no_skip 0 pm0 16 [st 0 pm0 8] (ld 0 pm0 8)).
  - vm_compute. tauto.
  - apply new_calm.
  - reflexivity.
  - unfold wf_range, pm0, PM_ADDR_BASE, U64. lia.
  - discriminate.
  - discriminate.
  - vm_compute. reflexivity.
  - vm_compute. discriminate.
  - reflexivity.
  - apply plain_checked_read; done.
  - reflexivity.
  - simpl. lia.
  - simpl. lia.
  - left. reflexivity.
Defined.

Lemma overwritten_read_clean_witness : ∃ d1 d2,
  update_pm_status POST_FAILURE (st 0 (pm0 + 64) 8) (crashed no_skip dstate_half) = Ok tt d1 ∧
  update_pm_status POST_FAILURE (ld 0 (pm0 + 66) 4) d1 = Ok tt d2 ∧
  bugs (reports (mem d2)) = bugs (reports (mem (crashed no_skip dstate_half))).
Proof.
  apply (overwritten_read_clean (crashed no_skip dstate_half) (st 0 (pm0 + 64) 8)
           (ld 0 (pm0 + 66) 4)).
  - apply copy_wf; [reflexivity|apply dstate_half_wf].
  - reflexivity.
  - reflexivity.
  - apply entry_okb_true. reflexivity.
  - discriminate.
  - discriminate.
  - apply plain_checked_read; done.
  - simpl. lia.
  - simpl. lia.
Defined.

Lemma uninitialised_skip_hides_reads_witness :
  let d := crashed (replicate MAX_THREADS 1) dstate_half in
  update_pm_status POST_FAILURE (ld 0 (pm0 + 64) 8) d = Ok tt d.
Proof.
  apply (uninitialised_skip_hides_reads dstate_half (replicate MAX_THREADS 1) (ld 0 (pm0 + 64) 8));
    reflexivity.
Defined.

Lemma mixed_read_reported_witness : ∃ d',
  update_pm_status POST_FAILURE (ld 0 (pm0 + 4) 8) (crashed no_skip dstate_mixed) = Ok tt d' ∧
  bugs (reports (mem d')) = S (bugs (reports (mem dstate_mixed))).
Proof.
  apply (mixed_read_reported dstate_mixed no_skip (ld 0 (pm0 + 4) 8)
           (pm0 + 8) (pm0 + 4) (pm0 + 4) (pm0 + 4)).
  - vm_compute. tauto.
  - reflexivity.
  - apply plain_checked_read; done.
  - repeat constructor.
  - vm_compute. reflexivity.
  - left. vm_compute. reflexivity.
  - vm_compute. reflexivity.
  - vm_compute. reflexivity.
Defined.

(** ** Invariants *)

Lemma reachable_sane_witness :
  let d := crashed no_skip (end_state (update_pm_status PRE_FAILURE (st 0 pm0 8) dstate0)) in
  sh_wf (shadow (mem d)) ∧ sane false (abs (shadow (mem d))).
Proof.
  apply reachable_sane, (reach_crash true); [|reflexivity].
  apply (reach_step true PRE_FAILURE (st 0 pm0 8) dstate0).
  - apply reach_new. reflexivity.
  - apply entry_okb_true. reflexivity.
  - vm_compute. reflexivity.
Defined.

Lemma handler_returns_iff_witness :
  returns (update_pm_status PRE_FAILURE (bare PM_TRACE_TX_END 1) dstate_tx) = false.
Proof.
  rewrite (handler_returns_iff PRE_FAILURE (bare PM_TRACE_TX_END 1) dstate_tx).
  - vm_compute. reflexivity.
  - apply dstate_tx_wf.
  - exact I.
Defined.

(** ** Reports *)

Lemma read_report_witness :
  let d := crashed no_skip dstate_half in
  update_pm_status POST_FAILURE (ld 0 (pm0 + 64) 4) d
  = Ok tt (DState (World (shadow (mem d)) (reports (mem d) ++
      [ConsistencyBug; WriteIP 77; Backtrace 77 PRE_FAILURE;
       InconsistentReadAt (pm0 + 64) 4; ReadIP 88; Backtrace 88 POST_FAILURE;
       NotPersistedBeforeFailure])) false false false).
Proof.
  intros d. rewrite (read_report (ld 0 (pm0 + 64) 4) d).
  - vm_compute. reflexivity.
  - apply copy_wf; [reflexivity|apply dstate_half_wf].
  - apply plain_checked_read; done.
  - reflexivity.
Defined.

Lemma flush_report_witness : ∃ d' rs,
  update_pm_status PRE_FAILURE (clwb 0 pm0 16) dstate_half = Ok tt d' ∧
  reports (mem d') = reports (mem dstate_half) ++ rs ∧
  (UnnecessaryFlush pm0 16 99 ∈ rs ↔
     ∃ x, in_range pm0 16 x = true ∧
          im_at (pm_status (shadow (mem dstate_half))) x = Some WRITEBACK_PENDING) ∧
  ∀ x, im_at (pm_status (shadow (mem d'))) x
       = if in_range pm0 16 x then Some WRITEBACK_PENDING
         else im_at (pm_status (shadow (mem dstate_half))) x.
Proof.
  apply (flush_report (clwb 0 pm0 16) dstate_half).
  - apply entry_okb_true. reflexivity.
  - reflexivity.
  - reflexivity.
Defined.

(** The 16 bytes thread 0 has added to its transaction. *)
Definition tx_added0 : seg_set := is_add is_empty (closed pm0 16).
Lemma tx_vain_report_witness : ∃ d' rs,
  update_pm_status PRE_FAILURE (bare PM_TRACE_TX_END 0) dstate_tx = Ok tt d' ∧
  reports (mem d') = reports (mem dstate_tx) ++ rs ∧
  ∀ a n, TxAddNeverModified a n ∈ rs ↔
    ∃ i, i ∈ is_segments tx_added0 ∧ a = lower i ∧ n = upper i - lower i + 1 ∧
      unmodified (shadow (mem dstate_tx)) i.
Proof.
  apply (tx_vain_report (bare PM_TRACE_TX_END 0) dstate_tx tx_added0).
  - apply dstate_tx_wf.
  - reflexivity.
  - reflexivity.
  - vm_compute. reflexivity.
  - vm_compute. reflexivity.
  - intros x Hx. unfold tx_added0 in Hx. rewrite is_mem_add, is_mem_empty, orb_false_r in Hx.
    rewrite closed_in_range in Hx by (unfold wf_range, pm0, PM_ADDR_BASE, U64; lia).
    unfold in_range, pm0, PM_ADDR_BASE in Hx. unfold U64. lia.
Defined.
