(* ===== verification/Backtraces.v ===== *)
(** * The backtrace files

    The Pin tool dumps the backtrace of every tracked instruction to a text file
    ([record*Backtrace] of [xfdetector_pintool.hh]); the detector looks an
    instruction up in it when it reports ([print_IP_linenumber_mapping] of
    [shadow_pm.cc]).  A file is the list of its lines, each of which the tool
    ends with a newline. *)
From Stdlib Require Import Ascii.
From stdpp Require Import base list strings gmap pretty.
From S2P Require Import Prelude Strings Trace.
Open Scope Z_scope.

(** ** Hexadecimal numbers *)

Definition hex_char (d : Z) : ascii :=
  ascii_of_nat (Z.to_nat (if d <? 10 then 48 + d else 87 + d)).
Definition hex_value (c : ascii) : option Z :=
  let n := Z.of_nat (nat_of_ascii c) in
  if (48 <=? n) && (n <=? 57) then Some (n - 48)
  else if (97 <=? n) && (n <=? 102) then Some (n - 87)
  else if (65 <=? n) && (n <=? 70) then Some (n - 55)
  else None.
Fixpoint to_hex (digits : nat) (x : Z) (acc : string) : string :=
  match digits with
  | O => acc
  | S d => if x =? 0 then acc else to_hex d (x `div` 16) (String (hex_char (x `mod` 16)) acc)
  end.
(** [printf("%p", x)] for a 64-bit pointer. *)
Definition print_ptr (x : Z) : string :=
  if x =? 0 then "(nil)" else "0x" +:+ to_hex 16 x EmptyString.

(** [stoull(s, NULL, 16)]; [None] is the exception it throws when there is no
    number or it does not fit. *)
Fixpoint hex_digits (acc : Z) (s : string) : Z :=
  match s with
  | EmptyString => acc
  | String c s' => match hex_value c with Some d => hex_digits (16 * acc + d) s' | None => acc end
  end.
Definition starts_hex (s : string) : bool :=
  match s with String c _ => match hex_value c with Some _ => true | None => false end | _ => false end.
Definition skip_0x (s : string) : string :=
  match s with
  | String "0" (String x s') =>
      if (bool_decide (x = "x"%char) || bool_decide (x = "X"%char)) && starts_hex s' then s' else s
  | _ => s
  end.
Definition stoull16 (s : string) : option Z :=
  let s1 := skip_spaces s in
  let '(neg, s2) := match s1 with
                    | String "-" s' => (true, s')
                    | String "+" s' => (false, s')
                    | _ => (false, s1)
                    end in
  let s3 := skip_0x s2 in
  if starts_hex s3 then
    let v := hex_digits 0 s3 in
    if v <? U64 then Some (if neg : bool then u64 (- v) else v) else None
  else None.

(** ** The dump *)

(** The position of a character, or -1 ([int] of [string::npos]). *)
Fixpoint find_char (c : ascii) (s : string) : Z :=
  match s with
  | EmptyString => -1
  | String x s' => if decide (x = c) then 0
                   else let i := find_char c s' in if i <? 0 then -1 else 1 + i
  end.
Fixpoint str_take (n : nat) (s : string) : string :=
  match n, s with
  | S n', String c s' => String c (str_take n' s')
  | _, _ => EmptyString
  end.
(** [s.substr(pos, len)] for [pos] inside the string; a negative [len] becomes a
    large [size_t]. *)
Definition substr (pos len : Z) (s : string) : string :=
  let rest := str_drop (Z.to_nat pos) s in
  if len <? 0 then rest else str_take (Z.to_nat len) rest.

(** The text between the parentheses of a symbol, if it has them. *)
Definition frame_text (symbol : string) : option string :=
  let start := find_char "(" symbol in
  let end_ := find_char ")" symbol in
  if (0 <=? start) && (0 <=? end_) then Some (substr (start + 1) (end_ - start - 1) symbol)
  else None.
Definition frames (symbols : list string) : list string := omap frame_text symbols.
Definition dump_backtrace (ip : Z) (symbols : list string) : list string :=
  (">> " +:+ print_ptr ip) :: frames symbols.

(** The three recording routines; [file] is the file so far and [symbols] what
    [backtrace_symbols] makes of the stack, at most 128 frames and at least one
    ([ASSERTX]).  [None] is a failed assertion. *)
Definition recordFuncBacktrace (symbols : list string) (ip : Z) (file : list string)
    : option (list string) :=
  if (0 <? length symbols)%nat then Some (file ++ dump_backtrace ip (take 128 symbols)) else None.
Definition recordWriteInstBacktrace (symbols : list string) (ip addr size tid : Z)
    (file : list string) : option (list string) :=
  if isPmemAddr addr size then recordFuncBacktrace symbols ip file else Some file.
Definition recordReadInstBacktrace (symbols : list string) (ip addr size tid : Z)
    (file : list string) : option (list string) :=
  if isPmemAddr addr size then recordFuncBacktrace symbols ip file else Some file.

(** ** The lookup *)

Definition MAX_BACKTRACE : nat := 10.

(** The end of the program by an exception, or what is printed on [stderr]. *)
Inductive lookup_result :=
  | Throws
  | NotFound
  | Found (position : Z) (printed : list string).

Definition begins (p s : string) : bool :=
  match strip_prefix p s with Some _ => true | None => false end.
(** The lines of a backtrace, up to the next one, to a line without a position or
    to the limit; [getline] past the end leaves an empty line. *)
Fixpoint useful_lines (count : nat) (lines : list string) : list string :=
  match count, lines with
  | S c, l :: lines' => if begins ">>" l || negb (contains ":" l) then []
                        else l :: useful_lines c lines'
  | _, _ => []
  end.
(** [line.substr(3, 14)]: out of range when the line is shorter than 3. *)
Definition line_ip (line : string) : option Z :=
  if (String.length line <? 3)%nat then None else stoull16 (substr 3 14 line).
(** The loop over the lines of the file. *)
Fixpoint find_backtrace (bt_pos ip : Z) (lines : list string) : lookup_result :=
  match lines with
  | [] => NotFound
  | line :: lines' =>
      if begins ">>" line then
        match line_ip line with
        | None => Throws
        | Some n => if n =? ip then Found (bt_pos + 1) (useful_lines MAX_BACKTRACE lines')
                    else find_backtrace (bt_pos + 1) ip lines'
        end
      else find_backtrace (bt_pos + 1) ip lines'
  end.

(** The files by their names.  The Pin tool names its file by its stage and its
    argument [execIDStr], and opens it for writing from the start. *)
Definition backtrace_name (stage : Z) (id : string) : string :=
  if stage =? PRE_FAILURE then "/tmp/backtrace_pre." +:+ id
  else if stage =? POST_FAILURE then "/tmp/backtrace_post." +:+ id
  else EmptyString.
Definition open_backtrace (stage : Z) (execIDStr : string) (files : gmap string (list string)) : gmap string (list string) :=
  <[backtrace_name stage execIDStr := []]> files.
(** [exec_id] is [static] in a header: [shadow_pm.cc] has its own, which nothing
    assigns.  A file that does not exist has no lines. *)
Definition shadow_exec_id : Z := 0.
Definition print_IP_linenumber_mapping (ip stage : Z) (files : gmap string (list string)) : lookup_result :=
  find_backtrace 0 ip (default [] (files !! backtrace_name stage (pretty shadow_exec_id))).

(** ** Hexadecimal round trip *)

Lemma hex_value_char d : 0 ≤ d < 16 → hex_value (hex_char d) = Some d.
Proof.
  intros [Hlo Hhi]. rewrite <-(Z2Nat.id d) by lia.
  assert (Z.to_nat d < 16)%nat as Hd by lia. revert Hd. generalize (Z.to_nat d). clear.
  intros n Hn. do 16 (destruct n as [|n]; [reflexivity|]). lia.
Qed.
Lemma to_hex_app k x acc : to_hex k x acc = to_hex k x EmptyString +:+ acc.
Proof.
  revert x acc. induction k as [|k IH]; intros x acc; simpl; [done|].
  destruct (x =? 0); [done|]. rewrite IH, (IH _ (String _ EmptyString)). rewrite <-str_app_assoc.
  done.
Qed.
Lemma to_hex_0 k acc : to_hex k 0 acc = acc.
Proof. by destruct k. Qed.
Lemma to_hex_more k m x acc :
  0 ≤ x < 16 ^ Z.of_nat k → (k ≤ m)%nat → to_hex m x acc = to_hex k x acc.
Proof.
  revert m x acc. induction k as [|k IH]; intros m x acc Hx Hm.
  { replace x with 0 by (simpl in Hx; lia). by rewrite !to_hex_0. }
  destruct m as [|m]; [lia|]. simpl. case_match; [done|]. apply IH; [|lia].
  rewrite Nat2Z.inj_succ, Z.pow_succ_r in Hx by lia.
  split; [apply Z.div_pos; lia|]. apply Z.div_lt_upper_bound; lia.
Qed.
Lemma to_hex_length k x acc :
  (String.length (to_hex k x acc) ≤ k + String.length acc)%nat.
Proof.
  revert x acc. induction k as [|k IH]; intros x acc; simpl; [lia|].
  case_match; [lia|]. specialize (IH (x `div` 16) (String (hex_char (x `mod` 16)) acc)).
  simpl in IH. lia.
Qed.
Lemma hex_digits_to_hex k x acc :
  0 ≤ x < 16 ^ Z.of_nat k → hex_digits 0 (to_hex k x acc) = hex_digits x acc.
Proof.
  revert x acc. induction k as [|k IH]; intros x acc Hx.
  { replace x with 0 by (simpl in Hx; lia). done. }
  simpl. destruct (Z.eqb_spec x 0) as [->|Hne]; [done|].
  rewrite Nat2Z.inj_succ, Z.pow_succ_r in Hx by lia. rewrite IH.
  - cbn [hex_digits]. rewrite hex_value_char by (apply Z.mod_pos_bound; lia).
    f_equal. pose proof (Z.div_mod x 16). lia.
  - split; [apply Z.div_pos; lia|]. apply Z.div_lt_upper_bound; lia.
Qed.
Lemma starts_hex_to_hex k x acc :
  0 < x < 16 ^ Z.of_nat k → starts_hex (to_hex k x acc) = true.
Proof.
  revert x acc. induction k as [|k IH]; intros x acc Hx; [simpl in Hx; lia|].
  simpl. destruct (Z.eqb_spec x 0) as [->|Hne]; [lia|].
  rewrite Nat2Z.inj_succ, Z.pow_succ_r in Hx by lia.
  destruct (decide (x `div` 16 = 0)) as [->|Hd].
  - rewrite to_hex_0. simpl. by rewrite hex_value_char by (apply Z.mod_pos_bound; lia).
  - apply IH. split; [|apply Z.div_lt_upper_bound; lia].
    pose proof (Z.div_pos x 16). lia.
Qed.
Lemma str_take_all n s : (String.length s ≤ n)%nat → str_take n s = s.
Proof.
  revert n. induction s as [|c s IH]; intros [|n] Hn; simpl in *; try done; [lia|].
  rewrite IH; [done|lia].
Qed.

(** An address below 2^48 is read back from its line: the 14 characters the
    lookup takes hold the prefix and 12 digits. *)
Lemma line_ip_print ip : 0 < ip < 2 ^ 48 → line_ip (">> " +:+ print_ptr ip) = Some ip.
Proof.
  intros Hip. unfold print_ptr. rewrite (proj2 (Z.eqb_neq ip 0)) by lia.
  rewrite (to_hex_more 12 16) by (simpl; lia).
  pose proof (to_hex_length 12 ip EmptyString) as Hlen.
  pose proof (starts_hex_to_hex 12 ip EmptyString ltac:(simpl; lia)) as Hst.
  pose proof (hex_digits_to_hex 12 ip EmptyString ltac:(simpl; lia)) as Hd.
  revert Hlen Hst Hd. generalize (to_hex 12 ip EmptyString). intros h Hlen Hst Hd.
  unfold line_ip. rewrite !str_app_cons, !str_app_nil_l.
  set (l := String _ _). assert (substr 3 14 l = String "0" (String "x" h)) as ->.
  { apply (str_take_all 14). simpl in *. lia. }
  unfold stoull16. simpl. rewrite Hst. simpl. rewrite Hst, Hd. simpl.
  rewrite (proj2 (Z.ltb_lt ip U64)) by (unfold U64; lia). done.
Qed.

(** ** The lookup in a dump *)

(** A recorded backtrace: the instruction, and the symbols of its stack. *)
Definition record : Type := Z * list string.
Fixpoint record_all (recs : list record) (file : list string) : option (list string) :=
  match recs with
  | [] => Some file
  | (ip, symbols) :: recs' => recordFuncBacktrace symbols ip file ≫= record_all recs'
  end.
(** Addresses of user space, a stack that is not empty, and symbols that do not
    imitate the first line of a record. *)
Definition record_ok (r : record) : Prop :=
  0 < r.1 < 2 ^ 48 ∧ r.2 ≠ [] ∧ Forall (λ l, begins ">>" l = false) (frames (take 128 r.2)).
Definition record_lines (r : record) : list string := dump_backtrace r.1 (take 128 r.2).

Lemma record_all_lines recs file :
  Forall record_ok recs → record_all recs file = Some (file ++ concat (map record_lines recs)).
Proof.
  intros Hok. revert file. induction Hok as [|[ip syms] recs (_&Hne&_) _ IH]; intros file; simpl.
  - by rewrite app_nil_r.
  - unfold recordFuncBacktrace. destruct syms as [|s syms]; [done|]. simpl.
    rewrite IH, <-app_assoc. done.
Qed.
Lemma begins_record ip : begins ">>" (">> " +:+ print_ptr ip) = true.
Proof. done. Qed.
Lemma skip_frames pos ip fs rest :
  Forall (λ l, begins ">>" l = false) fs →
  find_backtrace pos ip (fs ++ rest)
  = find_backtrace (pos + Z.of_nat (length fs)) ip rest.
Proof.
  intros H. revert pos. induction H as [|l fs Hl _ IH]; intros pos; simpl.
  - f_equal. lia.
  - rewrite Hl, IH. f_equal. lia.
Qed.
Lemma skip_record pos ip r rest :
  record_ok r → r.1 ≠ ip →
  find_backtrace pos ip (record_lines r ++ rest)
  = find_backtrace (pos + Z.of_nat (length (record_lines r))) ip rest.
Proof.
  intros (Hip&_&Hfr) Hne. unfold record_lines, dump_backtrace.
  cbn [app find_backtrace]. rewrite begins_record, line_ip_print by done.
  rewrite (proj2 (Z.eqb_neq _ _) Hne), skip_frames by done. f_equal. simpl. lia.
Qed.
Lemma skip_records pos ip recs rest :
  Forall record_ok recs → Forall (λ r, r.1 ≠ ip) recs →
  find_backtrace pos ip (concat (map record_lines recs) ++ rest)
  = find_backtrace (pos + Z.of_nat (length (concat (map record_lines recs)))) ip rest.
Proof.
  intros Hok Hne. revert pos. induction recs as [|r recs IH]; intros pos; cbn [map concat app length].
  - f_equal. lia.
  - apply Forall_cons in Hok as [? Hok], Hne as [? Hne].
    rewrite <-app_assoc, skip_record, IH by done. f_equal. rewrite length_app. lia.
Qed.
Lemma useful_lines_app c fs recs :
  useful_lines c (fs ++ concat (map record_lines recs)) = useful_lines c fs.
Proof.
  revert c. induction fs as [|l fs IH]; intros [|c]; simpl; try done.
  - by destruct recs.
  - case_match; [done|]. by rewrite IH.
Qed.

Lemma find_in_records recs ip :
  Forall record_ok recs →
  (∀ l1 symbols l2, recs = l1 ++ (ip, symbols) :: l2 → Forall (λ r, r.1 ≠ ip) l1 →
     find_backtrace 0 ip (concat (map record_lines recs))
     = Found (Z.of_nat (length (concat (map record_lines l1))) + 1)
         (useful_lines MAX_BACKTRACE (frames (take 128 symbols)))) ∧
  (Forall (λ r, r.1 ≠ ip) recs → find_backtrace 0 ip (concat (map record_lines recs)) = NotFound).
Proof.
  intros Hok. split.
  - intros l1 symbols l2 -> Hne. apply Forall_app in Hok as [Hok1 Hok2].
    apply Forall_cons in Hok2 as [(Hip&_) _]. rewrite map_app, concat_app, skip_records by done.
    cbn [map concat]. unfold record_lines at 2. unfold dump_backtrace.
    cbn [app find_backtrace fst snd]. rewrite begins_record, line_ip_print by done.
    rewrite Z.eqb_refl. f_equal. apply useful_lines_app.
  - intros Hne. rewrite <-(app_nil_r (concat _)), skip_records by done. done.
Qed.
(** A run of the tool: it opens its file and records into it. *)
Definition tool_run (stage : Z) (execIDStr : string) (recs : list record) (files : gmap string (list string))
    : option (gmap string (list string)) :=
  let name := backtrace_name stage execIDStr in
  let opened := open_backtrace stage execIDStr files in
  file ← record_all recs (default [] (opened !! name));
  Some (<[name := file]> opened).
Lemma backtrace_name_inj stage id id' :
  stage = PRE_FAILURE ∨ stage = POST_FAILURE → backtrace_name stage id = backtrace_name stage id' → id = id'.
Proof. intros [-> | ->]; cbn; by intros [= Hid]. Qed.

(** ** Property *)

(** C22. What the detector finds of what the Pin tool has recorded.  Let the tool run
    at either stage and record any sequence of backtraces, of instructions in user
    space whose stacks are not empty and whose symbols do not begin with [>>].  If
    its argument [execIDStr] is 0: looking up an instruction that was recorded
    finds its first record, at the line where the record begins, and prints the
    positions of that stack, innermost first, up to the first frame without one and
    at most ten; an instruction that was not recorded is not found; and the lookup
    does not end the program by an exception.  With any other [execIDStr] the
    detector does not look into the file of the tool: its result is the one it had
    without that run. *)
Theorem backtrace_lookup stage execIDStr recs ip files :
  stage = PRE_FAILURE ∨ stage = POST_FAILURE → Forall record_ok recs →
  ∃ files', tool_run stage execIDStr recs files = Some files' ∧
  (execIDStr = "0" →
    (∀ l1 symbols l2, recs = l1 ++ (ip, symbols) :: l2 → Forall (λ r, r.1 ≠ ip) l1 →
       print_IP_linenumber_mapping ip stage files'
       = Found (Z.of_nat (length (concat (map record_lines l1))) + 1)
           (useful_lines MAX_BACKTRACE (frames (take 128 symbols)))) ∧
    (Forall (λ r, r.1 ≠ ip) recs → print_IP_linenumber_mapping ip stage files' = NotFound)) ∧
  (execIDStr ≠ "0" → print_IP_linenumber_mapping ip stage files' = print_IP_linenumber_mapping ip stage files).
Proof.
  intros Hst Hok. unfold tool_run, open_backtrace. rewrite lookup_insert_eq. cbn [default from_option id].
  rewrite record_all_lines by done. cbn [app mbind option_bind]. eexists. split; [done|].
  unfold print_IP_linenumber_mapping. change (pretty shadow_exec_id) with "0". split.
  - intros ->. rewrite lookup_insert_eq. cbn [default from_option id]. by apply find_in_records.
  - intros Hne. by rewrite !lookup_insert_ne by (intros Heq; by apply Hne, (backtrace_name_inj stage)).
Qed.

Definition demo_records : list record :=
  [(4198400, ["prog(put btree.c:12)"; "prog(main btree.c:80)"; "libc(start)"]);
   (140737488355327, ["prog(get btree.c:30)"])]%string.
Lemma demo_records_ok : Forall record_ok demo_records.
Proof.
  apply Forall_cons; split; [|apply Forall_cons; split; [|constructor]];
    (split; [simpl; lia|]); (split; [discriminate|]); vm_compute; repeat constructor.
Qed.
Lemma backtrace_lookup_witness : ∃ files files',
  tool_run PRE_FAILURE "0" demo_records ∅ = Some files ∧
  print_IP_linenumber_mapping 4198400 PRE_FAILURE files = Found 1 ["put btree.c:12"; "main btree.c:80"]%string ∧
  tool_run PRE_FAILURE "1" demo_records ∅ = Some files' ∧ print_IP_linenumber_mapping 4198400 PRE_FAILURE files' = NotFound.
Proof.
  destruct (backtrace_lookup PRE_FAILURE "0" demo_records 4198400 ∅ (or_introl eq_refl) demo_records_ok) as (files&Hrun&Hfound&_).
  destruct (backtrace_lookup PRE_FAILURE "1" demo_records 4198400 ∅ (or_introl eq_refl) demo_records_ok) as (files'&Hrun'&_&Hsame).
  exists files, files'. split; [exact Hrun|]. split; [apply (proj1 (Hfound eq_refl) [] _ _ eq_refl); constructor|].
  split; [exact Hrun'|]. by rewrite Hsame.
Defined.
