(* ===== verification/TracePrint.v ===== *)
(** * Printing the trace, locating a bug

    The two members of [XFDetectorDetector] that are for debugging:
    [print_pm_trace], which prints an entry instead of checking it, and
    [locate_bug], which runs [addr2line]. *)
From stdpp Require Import base list strings gmap pretty.
From S2P Require Import Prelude Os Trace Icl ShadowPM Detector SegList FrontendFacts Backtraces.
From S2P Require Import Scenarios.
Open Scope Z_scope.

(** [cout << (void* )x] *)
Definition ostream_ptr (x : Z) : string :=
  if x =? 0 then "0" else "0x" +:+ to_hex 16 x EmptyString.
(** [pm_op_name\[operation\]]; the array has no more elements than names. *)
Definition op_text (op : pm_op_t) : option string := arr_ref pm_op_name (pm_op_value op).
Definition entry_text (name : string) (op : trace_entry_t) : string :=
  "OP: " +:+ name +:+ (if func_ret op then " (Return)" else EmptyString) +:+
  " TID: " +:+ pretty (tid op) +:+ " SRC_ADDR: " +:+ ostream_ptr (src_addr op) +:+
  " DST_ADDR: " +:+ ostream_ptr (dst_addr op) +:+ " SIZE: " +:+ pretty (size op) +:+
  " INSTR_PTR: " +:+ ostream_ptr (instr_ptr op).

Section print.
Context {imap : Type → Type} {IM : IntervalMap imap} {iset : Type} {IS : IntervalSet iset}.

(** The detector and the lines on its standard output. *)
Record printer := Printer { pdet : dstate imap iset; cout : list string }.
Definition on_det {A} (c : M (dstate imap iset) A) : M printer A :=
  zoom pdet (λ d p, Printer d (cout p)) c.
Definition print_line (l : string) : M printer unit :=
  modify (λ p, Printer (pdet p) (cout p ++ [l])).

Definition print_pm_trace (stage : Z) (op : trace_entry_t) : M printer unit :=
  match op_text (operation op) with
  | None => stop (UndefinedBehaviour "pm_op_name")
  | Some name => print_line (entry_text name op)
  end ;;
  if stage =? PRE_FAILURE then
    if bool_decide (operation op = TRACE_END) then on_det complete_pre_failure_point
    else when (bool_decide (operation op = TESTING_END)) (on_det complete_pre_testing)
  else when (stage =? POST_FAILURE)
    (assert_ (negb (bool_decide (operation op = TRACE_END))) "cur_trace->operation != TRACE_END" ;;
     when (bool_decide (operation op = TESTING_END)) (on_det complete_post_testing)).
End print.
Global Arguments printer imap iset : clear implicits.

Definition locate_bug (bug_trace : trace_entry_t) (executable : string) : M os unit :=
  assert_ (negb (bool_decide (operation bug_trace = INVALID))) "Invalid trace operation" ;;
  let! r := sys_int (CSystem ("addr2line -e " +:+ executable +:+ " " +:+
                              pretty (instr_ptr bug_trace))) in
  when (r <? 0) (stop (ErrAbort "Locate bug fail")).

(** ** Properties *)

(** The name that an operation is declared with. *)
Definition declared_name (op : pm_op_t) : option string :=
  match op with
  | INVALID => Some "invalid" | TRACE_BEGIN => Some "trace_begin" | TRACE_END => Some "trace_end"
  | TESTING_END => Some "testing_end" | READ => Some "read" | WRITE => Some "write"
  | CLWB => Some "clwb" | SFENCE => Some "sfence" | PMEM_MAP_FILE => Some "pmem_map_file"
  | PMEM_UNMAP => Some "pmem_unmap" | PM_TRACE_PM_ADDR_ADD => Some "pm_trace_pm_addr_add"
  | PM_TRACE_PM_ADDR_REMOVE => Some "pm_trace_pm_addr_remove"
  | PM_TRACE_TX_BEGIN => Some "pm_trace_tx_begin" | PM_TRACE_TX_END => Some "pm_trace_tx_end"
  | PM_TRACE_TX_ADDR_ADD => Some "pm_trace_tx_addr_add"
  | PM_TRACE_TX_ALLOC => Some "pm_trace_tx_alloc"
  | PMDK_INTERNAL_CALL => Some "pmdk_internal_call"
  | PMDK_INTERNAL_RET => Some "pmdk_internal_ret" | ADD_COMMIT_VAR => Some "_add_commit_var"
  | PM_TRACE_DETECTION_SKIP_BEGIN => Some "_skipDetectionBegin"
  | PM_TRACE_DETECTION_SKIP_END => Some "_skipDetectionEnd"
  | PM_OP_OTHER _ => None
  end%string.

Section facts.
Context {imap : Type → Type} {IM : IntervalMap imap} {iset : Type} {IS : IntervalSet iset}.
Implicit Types (p : printer imap iset).

(** C40. Printing an entry in place of checking it keeps the detector's loop
    going: whenever both return, the flags that end the loops are those that
    [update_pm_status] would have set, for every entry but the return of a
    call; and the shadow memory is left alone. *)
Theorem print_sets_flags stage op p p' d d' :
  pdet p = d → func_ret op = false →
  print_pm_trace stage op p = Ok tt p' → update_pm_status stage op d = Ok tt d' →
  same_flags d' (pdet p') ∧ mem (pdet p') = mem d.
Proof.
  intros <- Hr Hp Hd. pose proof (flags_step stage op (pdet p)) as Hf. unfold wlp, wpe in Hf.
  rewrite Hd in Hf. destruct Hf as (F1&F2&F3). unfold same_flags. rewrite F1, F2, F3.
  unfold is_call. rewrite Hr. cbn [negb andb]. unfold print_pm_trace, bind in Hp.
  destruct (op_text (operation op)) as [name|]; [|done]. unfold print_line, modify in Hp.
  destruct (Z.eqb_spec stage PRE_FAILURE) as [->|Hpre].
  - do 2 case_bool_decide; simplify_eq; simpl in Hp; injection Hp as <-; simpl;
      rewrite ?orb_true_r, ?orb_false_r; try congruence; by repeat split.
  - unfold when, assert_ in Hp. destruct (Z.eqb_spec stage POST_FAILURE) as [->|Hpost].
    + do 2 case_bool_decide; simpl in Hp; try discriminate; injection Hp as <-; simpl;
        rewrite ?orb_true_r, ?orb_false_r; by repeat split.
    + injection Hp as <-. simpl. rewrite !orb_false_r. by repeat split.
Qed.

(** The names in the print-out: the array lacks the name of a transactional
    allocation, so the operations declared after it are printed under the name
    of the next one, and the last reads past the end of the array. *)
Theorem printed_names stage r t src dst n ip nt p :
  Forall (λ op, op_text op =
    if pm_op_value op <? 15 then declared_name op
    else if pm_op_value op <? 20 then declared_name (pm_op_of_value (pm_op_value op + 1))
    else None) pm_op_enum ∧
  print_pm_trace stage (TraceEntry PM_TRACE_DETECTION_SKIP_END r t src dst n ip nt) p
  = Abort (UndefinedBehaviour "pm_op_name") p.
Proof. split; [|reflexivity]. repeat constructor. Qed.
End facts.

(** The end of the test after the failure. *)
Definition end_entry : trace_entry_t := bare TESTING_END 0.
Lemma print_sets_flags_witness : ∃ p' d',
  print_pm_trace POST_FAILURE end_entry (Printer dstate0 []) = Ok tt p' ∧
  update_pm_status POST_FAILURE end_entry dstate0 = Ok tt d' ∧
  cout p' = ["OP: testing_end TID: 0 SRC_ADDR: 0 DST_ADDR: 0 SIZE: 0 INSTR_PTR: 0"]%string ∧
  same_flags d' (pdet p') ∧ mem (pdet p') = mem dstate0.
Proof.
  eexists _, _. split; [reflexivity|]. split; [reflexivity|]. split; [vm_compute; reflexivity|].
  eapply (print_sets_flags POST_FAILURE end_entry (Printer dstate0 []));
    [reflexivity|reflexivity|reflexivity|reflexivity].
Defined.
