(* ===== verification/Pintool.v ===== *)
(** * The Pin tool

    [src/xfdetector/pintool]: the tool that Pin loads into the program under
    test.  Its analysis routines run before and after the instructions and
    functions of interest and send trace entries to the detector.  Pin's mutexes
    serialise the routines; here a routine is one step of the tool's state. *)
From stdpp Require Import base list strings gmap pretty.
From S2P Require Import Prelude Os Strings Trace Wire Icl Frontend.
Open Scope Z_scope.

(** ** Tables of [xfdetector_pintool.hh] *)

Inductive pm_op_type :=
  | PM_ALLOCATION_FUNC | PM_WRITEBACK_FUNC | PM_LIBRARY_FUNC | PM_LOW_LEVEL_FUNC.
#[export] Instance pm_op_type_eq_dec : EqDecision pm_op_type.
Proof. solve_decision. Defined.

Record pm_func_t := PmFunc {
  enum_name : pm_op_t;
  func_type : pm_op_type;
  num_args : Z;
  arg_src : Z;
  arg_dst : Z;
  arg_size : Z;
}.

Definition pm_function_entries : list (string * pm_func_t) :=
  [ ("pmem_map_file", PmFunc PMEM_MAP_FILE PM_ALLOCATION_FUNC 6 (-1) 6 4);
    ("pmem_unmap", PmFunc PMEM_UNMAP PM_ALLOCATION_FUNC 2 0 (-1) 1);
    ("pm_trace_pm_addr_add", PmFunc PM_TRACE_PM_ADDR_ADD PM_LIBRARY_FUNC 2 (-1) 0 1);
    ("pm_trace_pm_addr_remove", PmFunc PM_TRACE_PM_ADDR_REMOVE PM_LIBRARY_FUNC 2 0 (-1) 1);
    ("pm_trace_tx_begin", PmFunc PM_TRACE_TX_BEGIN PM_LIBRARY_FUNC 0 (-1) (-1) (-1));
    ("pm_trace_tx_end", PmFunc PM_TRACE_TX_END PM_LIBRARY_FUNC 0 (-1) (-1) (-1));
    ("pm_trace_tx_addr_add", PmFunc PM_TRACE_TX_ADDR_ADD PM_LIBRARY_FUNC 2 (-1) 0 1);
    ("pm_trace_tx_alloc", PmFunc PM_TRACE_TX_ALLOC PM_LIBRARY_FUNC 2 (-1) 0 1);
    ("clwb", PmFunc CLWB PM_WRITEBACK_FUNC 2 0 (-1) 1);
    ("flush_clwb_nolog", PmFunc CLWB PM_WRITEBACK_FUNC 2 0 (-1) 1);
    ("flush_clflush_nolog", PmFunc CLWB PM_WRITEBACK_FUNC 2 0 (-1) 1);
    ("flush_clflushopt_nolog", PmFunc CLWB PM_WRITEBACK_FUNC 2 0 (-1) 1);
    ("sfence", PmFunc SFENCE PM_WRITEBACK_FUNC 0 (-1) (-1) (-1));
    ("predrain_memory_barrier", PmFunc SFENCE PM_WRITEBACK_FUNC 0 (-1) (-1) (-1));
    ("_add_commit_var", PmFunc ADD_COMMIT_VAR PM_LOW_LEVEL_FUNC 2 0 (-1) 1) ]%string.
Definition failure_point_funcs_array : list string := ["pmfuzz_inject_failure"%string].

(** What [operator\[\]] inserts for a missing key: all members zero. *)
Definition zero_func : pm_func_t := PmFunc INVALID PM_ALLOCATION_FUNC 0 0 0 0.

(** ** State *)

Record settings := Settings {
  read_enable : bool;
  failure_enable : bool;
  failure_list_enable : bool;
  fifo_enable : bool;
  execIDStr : string;
  stage : Z;
}.
Record failures := Failures {
  failure_map : gset Z;
  cur_failure_id : Z;
  skip_failure : bool;
  failure_point_count : Z;
}.
Record RoITracker := RoI { roi_tid : Z; roi_tid_set : bool }.
Record ThreadCounter := Threads { count : Z; active_thread : list bool }.

Definition MAX_FAILURE_COUNT : nat := Z.to_nat 100000.
Definition MAX_SIGNAL_LEN : Z := 100.

(** Conversions to the narrower integer types. *)
Definition u32 (x : Z) : Z := x `mod` 2 ^ 32.
Definition s32 (x : Z) : Z := (x + 2 ^ 31) `mod` 2 ^ 32 - 2 ^ 31.

Section pintool.
Context {iset : Type} {IS : IntervalSet iset}.

Record tool := Tool {
  sett : settings;
  pm_functions : gmap string pm_func_t;
  failure_point_funcs : gset string;
  fails : failures;
  roi_tracker : RoITracker;
  thread_counter : ThreadCounter;
  pm_addr_set : iset;
  pm_alloc_size_ptr : Z;
  trace_fd : Z;
  signal_fd : Z;
  backtrace_out : Z;
  tsys : os;
}.

Definition set_sett (x : settings) (t : tool) : tool := Tool x (pm_functions t)
  (failure_point_funcs t) (fails t) (roi_tracker t) (thread_counter t) (pm_addr_set t)
  (pm_alloc_size_ptr t) (trace_fd t) (signal_fd t) (backtrace_out t) (tsys t).
Definition set_tables (x : gmap string pm_func_t) (y : gset string) (t : tool) : tool := Tool
  (sett t) x y (fails t) (roi_tracker t) (thread_counter t) (pm_addr_set t)
  (pm_alloc_size_ptr t) (trace_fd t) (signal_fd t) (backtrace_out t) (tsys t).
Definition set_fails (x : failures) (t : tool) : tool := Tool (sett t) (pm_functions t)
  (failure_point_funcs t) x (roi_tracker t) (thread_counter t) (pm_addr_set t)
  (pm_alloc_size_ptr t) (trace_fd t) (signal_fd t) (backtrace_out t) (tsys t).
Definition set_roi (x : RoITracker) (t : tool) : tool := Tool (sett t) (pm_functions t)
  (failure_point_funcs t) (fails t) x (thread_counter t) (pm_addr_set t)
  (pm_alloc_size_ptr t) (trace_fd t) (signal_fd t) (backtrace_out t) (tsys t).
Definition set_threads (x : ThreadCounter) (t : tool) : tool := Tool (sett t) (pm_functions t)
  (failure_point_funcs t) (fails t) (roi_tracker t) x (pm_addr_set t)
  (pm_alloc_size_ptr t) (trace_fd t) (signal_fd t) (backtrace_out t) (tsys t).
Definition set_pm_addrs (x : iset) (t : tool) : tool := Tool (sett t) (pm_functions t)
  (failure_point_funcs t) (fails t) (roi_tracker t) (thread_counter t) x
  (pm_alloc_size_ptr t) (trace_fd t) (signal_fd t) (backtrace_out t) (tsys t).
Definition set_size_ptr (x : Z) (t : tool) : tool := Tool (sett t) (pm_functions t)
  (failure_point_funcs t) (fails t) (roi_tracker t) (thread_counter t) (pm_addr_set t)
  x (trace_fd t) (signal_fd t) (backtrace_out t) (tsys t).
Definition set_tool_fds (x y : Z) (t : tool) : tool := Tool (sett t) (pm_functions t)
  (failure_point_funcs t) (fails t) (roi_tracker t) (thread_counter t) (pm_addr_set t)
  (pm_alloc_size_ptr t) x y (backtrace_out t) (tsys t).
Definition set_backtrace_out (x : Z) (t : tool) : tool := Tool (sett t) (pm_functions t)
  (failure_point_funcs t) (fails t) (roi_tracker t) (thread_counter t) (pm_addr_set t)
  (pm_alloc_size_ptr t) (trace_fd t) (signal_fd t) x (tsys t).
Definition set_tsys (x : os) (t : tool) : tool := Tool (sett t) (pm_functions t)
  (failure_point_funcs t) (fails t) (roi_tracker t) (thread_counter t) (pm_addr_set t)
  (pm_alloc_size_ptr t) (trace_fd t) (signal_fd t) (backtrace_out t) x.

(** The globals before [main]: static storage is zero, the failure id starts at
    -1.  [Os] is what the system is going to answer. *)
Definition tool0 (s : os) : tool := Tool (Settings false false false false EmptyString 0) ∅ ∅
  (Failures ∅ (-1) false 0) (RoI 0 false) (Threads 0 (replicate MAX_THREADS false)) is_empty
  0 0 0 0 s.

Definition on_tsys {A} (c : M os A) : M tool A := zoom tsys set_tsys c.

(** [pm_functions\[name\]] *)
Definition func_entry (name : string) : M tool pm_func_t :=
  let! m := gets pm_functions in
  match m !! name with
  | Some f => ret f
  | None => modify (λ t, set_tables (<[name := zero_func]> m) (failure_point_funcs t) t) ;;
            ret zero_func
  end.
Definition pm_func_init : M tool unit :=
  for_each pm_function_entries (λ e,
    modify (λ t, set_tables (<[e.1 := e.2]> (pm_functions t)) (failure_point_funcs t) t)) ;;
  for_each failure_point_funcs_array (λ f,
    modify (λ t, set_tables (pm_functions t) ({[f]} ∪ failure_point_funcs t) t)).

(** ** [PINFifo] and [SignalFifo]

    [pads] are the padding bytes of the entry on the stack, which travel with it. *)
Context (pads : tool → list Z * list Z * list Z).

Definition pinfifo_open (fifo_name : string) : M tool Z :=
  let! fd := on_tsys (sys_int (COpen fifo_name true)) in
  modify (λ t, set_tool_fds fd (signal_fd t) t) ;;
  when (fd <? 0) (stop (ErrAbort "PINFifo open failed.")) ;;
  ret fd.
Definition pinfifo_close : M tool unit :=
  let! fd := gets trace_fd in on_tsys (emit (CClose fd)).
Definition pinfifo_write (trace : trace_entry_t) : M tool Z :=
  let! s := gets sett in
  if fifo_enable s then
    let! fd := gets trace_fd in
    let! pad := gets pads in
    let! write_rtn := on_tsys (sys_int (CWriteBytes fd
      (encode_entry pad.1.1 pad.1.2 pad.2 trace))) in
    when (u32 write_rtn <? Z.of_nat entry_size) (stop (Exited 0)) ;;
    ret write_rtn
  else ret 0.
Definition send (trace : trace_entry_t) : M tool unit :=
  pinfifo_write trace ;; ret tt.

Definition tool_fifo_name (name id : string) : string := "/tmp/" +:+ name +:+ "." +:+ id.
Definition pinfifo_init (stage : Z) : M tool unit :=
  let! s := gets sett in
  let path := if stage =? PRE_FAILURE then tool_fifo_name PRE_FAILURE_FIFO (execIDStr s)
              else if stage =? POST_FAILURE then tool_fifo_name POST_FAILURE_FIFO (execIDStr s)
              else EmptyString in
  let! fd := pinfifo_open path in
  when (fd <? 0) (stop (ErrAbort "PINFifo open failed.")).

Definition signalfifo_open : M tool Z :=
  let! s := gets sett in
  let! fd := on_tsys (sys_int (COpen (tool_fifo_name SIGNAL_FIFO (execIDStr s)) true)) in
  modify (λ t, set_tool_fds (trace_fd t) fd t) ;;
  when (fd <? 0) (stop (ErrAbort "SignalFifo open failed.")) ;;
  ret fd.
Definition signalfifo_init : M tool unit :=
  let! fd := signalfifo_open in
  when (fd <? 0) (stop (ErrAbort "PINFifo open failed.")).
Definition signalfifo_close : M tool unit :=
  let! fd := gets signal_fd in on_tsys (emit (CClose fd)).
Definition tool_signal_send (message : string) (len : Z) : M tool Z :=
  let! fd := gets signal_fd in
  let! num_written := on_tsys (sys_int (CWrite fd message len)) in
  when (num_written <? 0) (stop (ErrAbort "SignalFifo write failed.")) ;;
  ret num_written.
Definition tool_signal_recv (len : Z) : M tool answer :=
  let! fd := gets signal_fd in
  let! a := on_tsys (sys (CRead fd len)) in
  when (ans_ret a <? 0) (stop (ErrAbort "SignalFifo read failed.")) ;;
  ret a.

(** The bytes of a C string, its terminator included. *)
Fixpoint cstring (s : string) : list Z :=
  match s with
  | EmptyString => [0]
  | String c s' => Z.of_nat (Ascii.nat_of_ascii c) :: cstring s'
  end.
(** [!strncmp(a, b, n)] *)
Fixpoint strncmp_bytes (n : nat) (a b : list Z) : bool :=
  match n, a, b with
  | O, _, _ => true
  | S n', x :: a', y :: b' => (x =? y) && ((x =? 0) || strncmp_bytes n' a' b')
  | _, _, _ => false
  end.
(** One turn of the loop; [true] means another one. *)
Definition wait_turn (signal : string) : M tool bool :=
  let! a := tool_signal_recv MAX_SIGNAL_LEN in
  ret (negb ((0 <? ans_ret a) &&
             strncmp_bytes (Z.to_nat (ans_ret a - 1)) (ans_data a) (cstring signal))).
Definition waitOnSignal (fuel : nat) (signal : string) : M tool unit :=
  while_ fuel (ret true) (wait_turn signal).

(** ** [ThreadCounter] and [RoITracker] *)

Definition store_active (tid : Z) (b : bool) : M tool unit :=
  let! th := gets thread_counter in
  match arr_ref (active_thread th) tid with
  | Some _ => modify (set_threads (Threads (count th) (arr_upd (active_thread th) tid b)))
  | None => stop (UndefinedBehaviour "active_thread")
  end.
Definition increment (tid : Z) : M tool unit :=
  let! th := gets thread_counter in
  when (count th =? INT_MAX) (stop (UndefinedBehaviour "int overflow")) ;;
  modify (set_threads (Threads (count th + 1) (active_thread th))) ;;
  store_active tid true.
Definition decrement (tid : Z) : M tool unit :=
  let! th := gets thread_counter in
  assert_ (0 <? count th) "count > 0" ;;
  modify (set_threads (Threads (count th - 1) (active_thread th))) ;;
  store_active tid false.
Definition ThreadStart (tid : Z) : M tool unit := increment tid.
Definition ThreadFini (tid : Z) : M tool unit := decrement tid.

Definition trySetRoIThread (tid : Z) : M tool bool :=
  let! r := gets roi_tracker in
  if negb (roi_tid_set r) then modify (set_roi (RoI tid true)) ;; ret true else ret false.
Definition unsetRoIThread (tid : Z) : M tool unit :=
  let! r := gets roi_tracker in
  when (roi_tid r =? tid)
    (assert_ (roi_tid_set r) "RoI has not been pinned to one thread" ;;
     modify (set_roi (RoI (roi_tid r) false))).
Definition isInRoI (tid : Z) : M tool bool :=
  let! r := gets roi_tracker in ret ((tid =? roi_tid r) && roi_tid_set r).

(** ** Analysis routines of [xfdetector_pmem.hh] *)

Definition assert_tid (tid : Z) : M tool unit :=
  assert_ (tid <? Z.of_nat MAX_THREADS) "tid < MAX_THREADS".
(** [assert(0!=trace_entry.operation)] and the write. *)
Definition send_valid (e : trace_entry_t) : M tool unit :=
  assert_ (negb (bool_decide (operation e = INVALID))) "0!=trace_entry.operation" ;; send e.

Definition recordPmemRead (ip addr size tid : Z) : M tool unit :=
  let! roi := isInRoI tid in
  when roi
    (assert_tid tid ;;
     when (isPmemAddr addr size) (send_valid (TraceEntry READ false (s32 tid) addr 0 size ip 0))).

Definition recordPmemWrite (ip addr size tid : Z) (is_non_temporal_write : bool) : M tool unit :=
  assert_tid tid ;;
  when (isPmemAddr addr size)
    (assert_ (negb (addr =? 0)) "Cannot write address=0" ;;
     send_valid (TraceEntry WRITE false (s32 tid) 0 addr size ip
       (if is_non_temporal_write then 1 else 0))).

Definition recordPmemWriteback (rtnName : string) (return_ip tid arg1 arg2 : Z) : M tool unit :=
  when (negb (arg2 =? 0))
    (assert_tid tid ;;
     assert_ (negb (arg1 =? 0)) "Cannot flush address=0" ;;
     send_valid (TraceEntry CLWB false (s32 tid) arg1 0 arg2 return_ip 0)).

(** A wrong name is only printed. *)
Definition recordPmemFence (rtnName : string) (return_ip tid : Z) : M tool unit :=
  when (negb (bool_decide (rtnName = "predrain_memory_barrier"%string)))
    (on_tsys (emit (CFprintf ("Wrong sfence function. Funct name: " +:+ rtnName)))) ;;
  assert_tid tid ;;
  send_valid (TraceEntry SFENCE false (s32 tid) 0 0 0 return_ip 0).

Definition recordPmemAllocation (rtnName : string) (return_ip tid size_ptr : Z) : M tool unit :=
  let! f := func_entry rtnName in
  assert_ (bool_decide (func_type f = PM_ALLOCATION_FUNC)) "type == PM_ALLOCATION_FUNC" ;;
  assert_tid tid ;;
  modify (set_size_ptr size_ptr) ;;
  let! f := func_entry rtnName in
  send_valid (TraceEntry (enum_name f) false (s32 tid) 0 0 0 return_ip 0).

(** [deref] reads a word of the program's memory. *)
Definition recordPmemRetAllocation (deref : Z → Z) (rtnName : string) (return_ip tid addr : Z)
    : M tool unit :=
  assert_tid tid ;;
  let! p := gets pm_alloc_size_ptr in
  assert_ (negb (p =? 0)) "size pointer is invalid" ;;
  let interval_size := deref p in
  modify (set_size_ptr 0) ;;
  modify (λ t, set_pm_addrs (is_add (pm_addr_set t) (closed addr interval_size)) t) ;;
  let! f := func_entry rtnName in
  send_valid (TraceEntry (enum_name f) true (s32 tid) 0 addr interval_size return_ip 0).

Definition recordPmemDeallocation (rtnName : string) (return_ip tid addr size : Z) : M tool unit :=
  assert_tid tid ;;
  modify (λ t, set_pm_addrs (is_erase (pm_addr_set t) (closed addr size)) t) ;;
  let! f := func_entry rtnName in
  send_valid (TraceEntry (enum_name f) false (s32 tid) addr 0 size return_ip 0).

Definition recordPmemRetCommon (rtnName : string) (return_ip tid addr : Z) : M tool unit :=
  let! roi := isInRoI tid in
  when roi
    (assert_tid tid ;;
     let! f := func_entry rtnName in
     send_valid (TraceEntry (enum_name f) true (s32 tid) 0 addr 0 return_ip 0)).

Definition recordCommitVar (rtnName : string) (return_ip tid addr size : Z) : M tool unit :=
  assert_tid tid ;;
  let! f := func_entry rtnName in
  send_valid (TraceEntry (enum_name f) false (s32 tid) addr 0 size return_ip 0).

(** ** Analysis routines of [xfdetector_tx.hh] *)

Definition recordTXBound (rtnName : string) (return_ip tid : Z) : M tool unit :=
  assert_tid tid ;;
  let! f := func_entry rtnName in
  send_valid (TraceEntry (enum_name f) false (s32 tid) 0 0 0 return_ip 0).

Definition recordPmemAllocationTX (rtnName : string) (return_ip tid addr size : Z) : M tool unit :=
  assert_tid tid ;;
  modify (λ t, set_pm_addrs (is_add (pm_addr_set t) (closed addr size)) t) ;;
  let! f := func_entry rtnName in
  send_valid (TraceEntry (enum_name f) false (s32 tid) 0 addr size return_ip 0).

Definition PMDKInternalFunctHandler (func_name : string) (tid type : Z) : M tool unit :=
  send_valid (TraceEntry (if type =? pm_op_value PMDK_INTERNAL_CALL then PMDK_INTERNAL_CALL
                          else PMDK_INTERNAL_RET) false (s32 tid) 0 0 0 0 0).

(** ** [RoIHandler] and [addFailurePoint] of [pintool.cpp] *)

Definition flag_entry (op : pm_op_t) (tid : Z) : trace_entry_t :=
  TraceEntry op false (s32 tid) 0 0 0 0 0.

Definition RoIHandler (func_name : string) (tid : Z) : M tool unit :=
  let! s := gets sett in
  let named (name : string) := bool_decide (func_name = name) in
  if stage s =? PRE_FAILURE then
    if named "_roi_pre_begin"%string then trySetRoIThread tid ;; ret tt
    else if named "_roi_pre_end"%string then unsetRoIThread tid
    else if named "_skipDetectionBegin"%string then send (flag_entry PM_TRACE_DETECTION_SKIP_BEGIN tid)
    else if named "_skipDetectionEnd"%string then send (flag_entry PM_TRACE_DETECTION_SKIP_END tid)
    else when (named "_testing_pre_complete"%string) (send (flag_entry TESTING_END tid))
  else
    if named "_roi_post_begin"%string then trySetRoIThread tid ;; ret tt
    else if named "_roi_post_end"%string then unsetRoIThread tid
    else if named "_skipDetectionBegin"%string then send (flag_entry PM_TRACE_DETECTION_SKIP_BEGIN tid)
    else if named "_skipDetectionEnd"%string then send (flag_entry PM_TRACE_DETECTION_SKIP_END tid)
    else when (named "_testing_post_complete"%string)
           (send (flag_entry TESTING_END tid) ;; stop (Exited 1)).

Definition upd_fails (f : failures → failures) : M tool unit :=
  modify (λ t, set_fails (f (fails t)) t).
Definition set_skip (b : bool) (f : failures) : failures :=
  Failures (failure_map f) (cur_failure_id f) b (failure_point_count f).
Definition bump_id (f : failures) : failures :=
  Failures (failure_map f) (cur_failure_id f + 1) (skip_failure f) (failure_point_count f).
Definition bump_points (f : failures) : failures :=
  Failures (failure_map f) (cur_failure_id f) (skip_failure f) (failure_point_count f + 1).

(** [skip_failure] set by one of the two functions that pass through here. *)
Definition switch_skip (b : bool) (tid : Z) : M tool unit :=
  upd_fails (set_skip b) ;;
  let! r := gets roi_tracker in
  assert_ (roi_tid r =? tid) "roi_tracker.roi_tid == tid".
(** The failure point itself: the threads wait until the detector has finished. *)
Definition inject (fuel : nat) (writeIP tid : Z) : M tool unit :=
  on_tsys (emit (CStopThreads tid)) ;;
  let! f := gets fails in
  when (failure_point_count f =? INT_MAX) (stop (UndefinedBehaviour "int overflow")) ;;
  upd_fails bump_points ;;
  send (TraceEntry TRACE_END false (s32 tid) 0 0 0 writeIP 0) ;;
  waitOnSignal fuel PIN_CONTINUE_SIGNAL ;;
  on_tsys (emit (CResumeThreads tid)).
Definition addFailurePoint (fuel : nat) (writeIP : Z) (func_name : string) (tid : Z)
    : M tool unit :=
  let! f := gets fails in
  when (cur_failure_id f =? INT_MAX) (stop (UndefinedBehaviour "int overflow")) ;;
  upd_fails bump_id ;;
  let! roi := isInRoI tid in
  when roi
    (let! s := gets sett in
     let! f := gets fails in
     when (negb (failure_list_enable s
                 && negb (bool_decide (cur_failure_id f ∈ failure_map f))))
       (if bool_decide (func_name = "_skip_failure_point_begin"%string) then switch_skip true tid
        else if bool_decide (func_name = "_skip_failure_point_end"%string)
        then switch_skip false tid
        else inject fuel writeIP tid)).

(** ** [parseFailureList]

    [fscanf] answers the number of conversions and the value. *)
Definition parse_turn : M tool bool :=
  let! a := on_tsys (sys CFscanf) in
  if ans_ret a =? -1 then ret false
  else
    when (ans_ret a =? 0) (stop (ErrAbort "Failure file incorret format")) ;;
    let! f := gets fails in
    if (base.size (failure_map f) <? MAX_FAILURE_COUNT)%nat then
      upd_fails (λ f, Failures ({[s32 (hd 0 (ans_data a))]} ∪ failure_map f) (cur_failure_id f)
                        (skip_failure f) (failure_point_count f)) ;;
      ret true
    else ret false.
Definition parseFailureList (fuel : nat) (failureListFileName : string) : M tool unit :=
  let! infile := on_tsys (sys_int (CFopen failureListFileName "r")) in
  when (infile =? 0) (stop (UndefinedBehaviour "fscanf on a null stream")) ;;
  while_ fuel (ret true) parse_turn ;;
  on_tsys (emit CFclose).
End pintool.

Global Arguments tool iset : clear implicits.
