(* ===== verification/Instrument.v ===== *)
(** * Instrumentation

    Which analysis routines the Pin tool attaches to which functions and
    instructions, with which arguments ([PMOpTraceInstPmem], [PMOpTraceInstTX],
    [PMDKInternalFunct], [FailurePointInst], [RoISelection],
    [PMReadAndWriteInst], [Backtrace], [ImageLoad]), and the [main] that
    registers them.

    Pin itself is outside: an instrumentation routine here returns the calls it
    inserts, and [run_call] passes a routine the arguments that the [IARG]s of
    the call stand for, as Pin's manual describes them. *)
From stdpp Require Import base list strings gmap pretty.
From S2P Require Import Prelude Os Strings Trace Wire Icl Frontend Pintool.
Open Scope Z_scope.

(** ** Inserted calls *)

Inductive ipoint := IPOINT_BEFORE | IPOINT_AFTER.
#[export] Instance ipoint_eq_dec : EqDecision ipoint.
Proof. solve_decision. Defined.

(** The [AFUNPTR]s. *)
Inductive afunptr :=
  | F_recordPmemRead | F_recordPmemWrite | F_recordPmemWriteback | F_recordPmemFence
  | F_recordPmemAllocation | F_recordPmemRetAllocation | F_recordPmemDeallocation
  | F_recordPmemRetCommon | F_recordCommitVar
  | F_recordTXBound | F_recordPmemAllocationTX | F_PMDKInternalFunctHandler
  | F_RoIHandler | F_addFailurePoint
  | F_recordWriteInstBacktrace | F_recordReadInstBacktrace | F_recordFuncBacktrace.

#[export] Instance afunptr_eq_dec : EqDecision afunptr.
Proof. solve_decision. Defined.

Inductive iarg :=
  | IARG_RTN_NAME                       (** [IARG_ADDRINT, RTN_Name(rtn).c_str()] *)
  | IARG_RETURN_IP
  | IARG_THREAD_ID
  | IARG_FUNCARG_ENTRYPOINT_VALUE (n : Z)
  | IARG_FUNCRET_EXITPOINT_VALUE
  | IARG_UINT32 (n : Z)
  | IARG_BOOL (b : bool)
  | IARG_INST_PTR
  | IARG_MEMORYOP_EA (memOp : nat)
  | IARG_MEMORYREAD_SIZE
  | IARG_MEMORYWRITE_SIZE
  | IARG_MULTI_MEMORYACCESS_EA
  | IARG_CONST_CONTEXT.

#[export] Instance iarg_eq_dec : EqDecision iarg.
Proof. solve_decision. Defined.

Record inserted := Insert { where_ : ipoint; funptr : afunptr; iargs : list iarg }.
#[export] Instance inserted_eq_dec : EqDecision inserted.
Proof. solve_decision. Defined.

(** ** Instructions, as far as the tool looks at them *)

Record memory_operand := MemOp { is_read : bool; is_written : bool }.
Record instruction := Ins {
  ins_address : Z;
  disassembly : string;
  operands : list memory_operand;
  known_size : bool;
  source_line : Z;
  source_path : string;
}.
Record routine := Rtn { rtn_name : string; rtn_ins : list instruction }.
Record image := Img { main_executable : bool; routines : list routine }.

Section instrument.
Context {iset : Type} {IS : IntervalSet iset}.

(** ** Routines *)

Definition insert_common_return : inserted :=
  Insert IPOINT_AFTER F_recordPmemRetCommon
    [IARG_RTN_NAME; IARG_RETURN_IP; IARG_THREAD_ID; IARG_FUNCRET_EXITPOINT_VALUE].

Definition PMOpTraceInstPmem (func_name : string) : M (tool iset) (list inserted) :=
  let named (name : string) := bool_decide (func_name = name) in
  if named "pmem_map_file"%string then
    let! f := func_entry "pmem_map_file" in
    ret [Insert IPOINT_BEFORE F_recordPmemAllocation
           [IARG_RTN_NAME; IARG_RETURN_IP; IARG_THREAD_ID;
            IARG_FUNCARG_ENTRYPOINT_VALUE (arg_size f)];
         Insert IPOINT_AFTER F_recordPmemRetAllocation
           [IARG_RTN_NAME; IARG_RETURN_IP; IARG_THREAD_ID; IARG_FUNCRET_EXITPOINT_VALUE]]
  else if named "pmem_unmap"%string then
    let! f := func_entry "pmem_unmap" in
    ret [Insert IPOINT_BEFORE F_recordPmemDeallocation
           [IARG_RTN_NAME; IARG_RETURN_IP; IARG_THREAD_ID;
            IARG_FUNCARG_ENTRYPOINT_VALUE (arg_src f); IARG_FUNCARG_ENTRYPOINT_VALUE (arg_size f)];
         insert_common_return]
  else if named "predrain_memory_barrier"%string then
    ret [Insert IPOINT_BEFORE F_recordPmemFence [IARG_RTN_NAME; IARG_RETURN_IP; IARG_THREAD_ID]]
  else if named "flush_clwb_nolog"%string || named "flush_clflushopt_nolog"%string
          || named "flush_clflush_nolog"%string then
    let! f := func_entry "clwb" in
    ret [Insert IPOINT_BEFORE F_recordPmemWriteback
           [IARG_RTN_NAME; IARG_RETURN_IP; IARG_THREAD_ID;
            IARG_FUNCARG_ENTRYPOINT_VALUE (arg_src f); IARG_FUNCARG_ENTRYPOINT_VALUE (arg_size f)]]
  else if named "_add_commit_var"%string then
    let! f := func_entry "_add_commit_var" in
    ret [Insert IPOINT_BEFORE F_recordCommitVar
           [IARG_RTN_NAME; IARG_RETURN_IP; IARG_THREAD_ID;
            IARG_FUNCARG_ENTRYPOINT_VALUE (arg_src f); IARG_FUNCARG_ENTRYPOINT_VALUE (arg_size f)]]
  else ret [].

(** The calls around a function that names a range in its arguments, and around
    one that has none. *)
Definition insert_range (fn : afunptr) (addr size : Z) : list inserted :=
  [Insert IPOINT_BEFORE fn
     [IARG_RTN_NAME; IARG_RETURN_IP; IARG_THREAD_ID;
      IARG_FUNCARG_ENTRYPOINT_VALUE addr; IARG_FUNCARG_ENTRYPOINT_VALUE size];
   insert_common_return].
Definition insert_bound : list inserted :=
  [Insert IPOINT_BEFORE F_recordTXBound [IARG_RTN_NAME; IARG_RETURN_IP; IARG_THREAD_ID];
   insert_common_return].

Definition PMOpTraceInstTX (func_name : string) : M (tool iset) (list inserted) :=
  let named (name : string) := bool_decide (func_name = name) in
  if named "pm_trace_pm_addr_add"%string then
    let! f := func_entry "pm_trace_pm_addr_add" in
    ret (insert_range F_recordPmemAllocationTX (arg_dst f) (arg_size f))
  else if named "pm_trace_pm_addr_remove"%string then
    let! f := func_entry "pm_trace_pm_addr_remove" in
    ret (insert_range F_recordPmemDeallocation (arg_src f) (arg_size f))
  else if named "pm_trace_tx_begin"%string then ret insert_bound
  else if named "pm_trace_tx_end"%string then ret insert_bound
  else if named "pm_trace_tx_addr_add"%string then
    let! f := func_entry "pm_trace_tx_addr_add" in
    ret (insert_range F_recordPmemAllocationTX (arg_dst f) (arg_size f))
  else if named "pm_trace_tx_alloc"%string then
    let! f := func_entry "pm_trace_tx_alloc" in
    ret (insert_range F_recordPmemAllocationTX (arg_dst f) (arg_size f))
  else ret [].

Definition pmdk_internal_functions : list string :=
  [ "pmemobj_tx_begin"; "pmemobj_tx_stage"; "pmemobj_tx_process"; "pmemobj_tx_lock";
    "pmemobj_tx_abort"; "pmemobj_tx_commit"; "pmemobj_tx_end"; "pmemobj_tx_alloc";
    "pmemobj_tx_add_range_direct"; "pmemobj_tx_xadd_range_direct"; "pmemobj_tx_add_range";
    "pmemobj_tx_xadd_range"; "pmemobj_tx_alloc"; "pmemobj_tx_zalloc"; "pmemobj_tx_xalloc";
    "pmemobj_tx_realloc"; "pmemobj_tx_zrealloc"; "pmemobj_tx_strdup"; "pmemobj_tx_wcsdup";
    "pmemobj_tx_free"; "pmemobj_tx_publish";
    "pmemobj_create"; "pmemobj_open"; "pmemobj_close"; "pmemobj_check"; "pmemobj_alloc";
    "pmemobj_xalloc"; "pmemobj_zalloc"; "pmemobj_realloc"; "pmemobj_zrealloc"; "pmemobj_strdup";
    "pmemobj_wcsdup"; "pmemobj_free"; "pmemobj_root_construct"; "pmemobj_root"; "pmemobj_reserve";
    "pmemobj_xreserve"; "pmemobj_publish"; "pmemobj_cancel"; "pmemobj_list_insert";
    "pmemobj_list_insert_new"; "pmemobj_list_remove"; "pmemobj_list_move"; "pmemobj_ctl_set";
    "pmemobj_ctl_exec" ]%string.
Definition PMDKInternalFunct (func_name : string) : M (tool iset) (list inserted) :=
  if bool_decide (func_name ∈ pmdk_internal_functions) then
    ret [Insert IPOINT_BEFORE F_PMDKInternalFunctHandler
           [IARG_RTN_NAME; IARG_THREAD_ID; IARG_UINT32 (pm_op_value PMDK_INTERNAL_CALL)];
         Insert IPOINT_AFTER F_PMDKInternalFunctHandler
           [IARG_RTN_NAME; IARG_THREAD_ID; IARG_UINT32 (pm_op_value PMDK_INTERNAL_RET)]]
  else ret [].

Definition FailurePointInst (func_name : string) : M (tool iset) (list inserted) :=
  let! funcs := gets failure_point_funcs in
  if bool_decide (func_name ∈ funcs) then
    ret [Insert IPOINT_BEFORE F_addFailurePoint [IARG_RETURN_IP; IARG_RTN_NAME; IARG_THREAD_ID]]
  else if bool_decide (func_name = "_skip_failure_point_begin"%string)
          || bool_decide (func_name = "_skip_failure_point_end"%string) then
    ret [Insert IPOINT_AFTER F_addFailurePoint [IARG_RETURN_IP; IARG_RTN_NAME; IARG_THREAD_ID]]
  else ret [].

Definition roi_functions : list string :=
  [ "_roi_pre_begin"; "_roi_pre_end"; "_roi_post_begin"; "_roi_post_end";
    "_testing_pre_complete"; "_testing_post_complete" ]%string.
Definition RoISelection (func_name : string) : M (tool iset) (list inserted) :=
  if bool_decide (func_name ∈ roi_functions) then
    ret [Insert IPOINT_BEFORE F_RoIHandler [IARG_RTN_NAME; IARG_THREAD_ID]]
  else ret [].

(** ** Instructions *)

Definition PMReadAndWriteInst (ins : instruction) : M (tool iset) (list inserted) :=
  let! s := gets sett in
  if contains "clwb" (disassembly ins) then ret []
  else ret (concat (imap (λ memOp op,
    (if read_enable s && is_read op then
       [Insert IPOINT_BEFORE F_recordPmemRead
          [IARG_INST_PTR; IARG_MEMORYOP_EA memOp; IARG_MEMORYREAD_SIZE; IARG_THREAD_ID]]
     else []) ++
    (if is_written op then
       [Insert IPOINT_BEFORE F_recordPmemWrite
          [IARG_INST_PTR; IARG_MEMORYOP_EA memOp; IARG_MEMORYWRITE_SIZE; IARG_THREAD_ID;
           IARG_BOOL (contains "movnt" (disassembly ins))]]
     else [])) (operands ins))).

(** [Backtrace] on one instruction of an image; an operand of unknown size is
    given the pointer to Pin's description of the access where the routine
    expects a size. *)
Definition backtrace_ins (stage : Z) (ins : instruction) : list inserted :=
  concat (imap (λ memOp op,
    (if (stage =? PRE_FAILURE) && is_written op then
       [Insert IPOINT_BEFORE F_recordWriteInstBacktrace
          [IARG_CONST_CONTEXT; IARG_INST_PTR; IARG_MEMORYOP_EA memOp;
           (if known_size ins then IARG_MEMORYWRITE_SIZE else IARG_MULTI_MEMORYACCESS_EA);
           IARG_THREAD_ID]]
     else []) ++
    (if (stage =? POST_FAILURE) && is_read op then
       [Insert IPOINT_BEFORE F_recordReadInstBacktrace
          [IARG_CONST_CONTEXT; IARG_INST_PTR; IARG_MEMORYOP_EA memOp; IARG_MEMORYREAD_SIZE;
           IARG_THREAD_ID]]
     else [])) (operands ins)).
(** The calls for the functions of an image, and for its instructions. *)
Definition Backtrace (img : image) :
    M (tool iset) (list (string * list inserted) * list (Z * list inserted)) :=
  let! t := gets (λ t, t) in
  let st := stage (sett t) in
  let fns := if st =? PRE_FAILURE then
      map (λ r, (rtn_name r, [Insert IPOINT_BEFORE F_recordFuncBacktrace
                                [IARG_CONST_CONTEXT; IARG_RETURN_IP]]))
        (filter (λ r, is_Some (pm_functions t !! rtn_name r)) (routines img))
    else [] in
  ret (fns, map (λ i, (ins_address i, backtrace_ins st i)) (concat (map rtn_ins (routines img)))).

(** The lines of [/tmp/func_map]; [%p] is a parameter. *)
Definition ImageLoad (print_ptr : Z → string) (img : image) : list string :=
  if main_executable img then
    map (λ i, print_ptr (ins_address i) +:+ " " +:+ source_path i +:+ " : " +:+ pretty (source_line i))
      (filter (λ i, source_line i ≠ 0) (concat (map rtn_ins (routines img))))
  else [].

(** ** [main] of the tool *)

Record knobs := Knobs {
  KnobOutputFile : string;
  KnobEnableRead : string;
  KnobEnableFailure : string;
  KnobFailureListFile : string;
  KnobEnableFIFO : string;
  KnobSetExecID : string;
}.
Definition nonempty (s : string) : bool := negb (bool_decide (s = EmptyString)).

(** What Pin is told to call, in the order of registration. *)
Inductive registration :=
  | R_ImageLoad | R_Backtrace | R_FailurePointInst | R_PMDKInternalFunct
  | R_PMOpTraceInstPmem | R_PMOpTraceInstTX | R_RoISelection | R_PMReadAndWriteInst
  | R_ThreadStart | R_ThreadFini.

Definition apply_knobs (k : knobs) : settings :=
  let read := nonempty (KnobEnableRead k) in
  let failure := nonempty (KnobEnableFailure k) in
  Settings read failure (nonempty (KnobFailureListFile k)) (nonempty (KnobEnableFIFO k))
    (KnobSetExecID k) (if read && negb failure then POST_FAILURE else PRE_FAILURE).

(** [init_ok] says whether [PIN_Init] accepted the command line.  The program
    starts afterwards; [PIN_StartProgram] does not return. *)
Definition tool_main (fuel : nat) (init_ok : bool) (k : knobs)
    : M (tool iset) (option (list registration)) :=
  pm_func_init ;;
  if negb init_ok then ret None
  else
    modify (set_sett (apply_knobs k)) ;;
    let! s := gets sett in
    pinfifo_init (stage s) ;;
    signalfifo_init ;;
    when (failure_enable s && failure_list_enable s)
      (parseFailureList fuel (KnobFailureListFile k)) ;;
    on_tsys (emit (CFopen "/tmp/func_map" "w+")) ;;
    let! out := on_tsys (sys_int (CFopen
      ((if stage s =? POST_FAILURE then "/tmp/backtrace_post." else "/tmp/backtrace_pre.")
         +:+ execIDStr s) "w+")) in
    modify (set_backtrace_out out) ;;
    ret (Some ([R_ImageLoad] ++ (if out =? 0 then [] else [R_Backtrace]) ++
               (if failure_enable s then [R_FailurePointInst] else []) ++
               [R_PMDKInternalFunct; R_PMOpTraceInstPmem; R_PMOpTraceInstTX; R_RoISelection;
                R_PMReadAndWriteInst; R_ThreadStart; R_ThreadFini])).
End instrument.
