(* ===== verification/PinRun.v ===== *)
(** * The program under the Pin tool

    What happens when the instrumented program executes an instruction, enters a
    function or leaves it: the calls that the instrumentation of [Instrument]
    inserted run with the arguments they asked for.  [call_entries] and
    [access_entries] say, without reference to the tables and the argument
    lists, which trace entries must result; the theorems of [PinFacts] show that
    they do. *)
From stdpp Require Import base list strings gmap pretty.
From S2P Require Import Prelude Os Strings Trace Wire Icl Frontend Pintool Instrument.
Open Scope Z_scope.

(** ** Arguments *)

(** What Pin knows when an inserted call runs. *)
Record event := Event {
  ev_rtn : string;          (** the function that is called or returns *)
  ev_return_ip : Z;
  ev_tid : Z;
  ev_args : list Z;         (** its arguments *)
  ev_result : Z;            (** its result, on return *)
  ev_ip : Z;                (** the instruction *)
  ev_ea : nat → Z;          (** the address of its memory operands *)
  ev_read_size : Z;
  ev_write_size : Z;
  ev_deref : Z → Z;         (** the program's memory *)
}.

Inductive value := VStr (s : string) | VInt (n : Z) | VBool (b : bool) | VPtr.

Definition eval_iarg (ev : event) (a : iarg) : option value :=
  match a with
  | IARG_RTN_NAME => Some (VStr (ev_rtn ev))
  | IARG_RETURN_IP => Some (VInt (ev_return_ip ev))
  | IARG_THREAD_ID => Some (VInt (ev_tid ev))
  | IARG_FUNCARG_ENTRYPOINT_VALUE n => VInt <$> arr_ref (ev_args ev) n
  | IARG_FUNCRET_EXITPOINT_VALUE => Some (VInt (ev_result ev))
  | IARG_UINT32 n => Some (VInt n)
  | IARG_BOOL b => Some (VBool b)
  | IARG_INST_PTR => Some (VInt (ev_ip ev))
  | IARG_MEMORYOP_EA k => Some (VInt (ev_ea ev k))
  | IARG_MEMORYREAD_SIZE => Some (VInt (ev_read_size ev))
  | IARG_MEMORYWRITE_SIZE => Some (VInt (ev_write_size ev))
  | IARG_MULTI_MEMORYACCESS_EA | IARG_CONST_CONTEXT => Some VPtr
  end.

Section run.
Context {iset : Type} {IS : IntervalSet iset}.
Context (fuel : nat) (pads : tool iset → list Z * list Z * list Z).

(** The routine with its arguments; other arguments than it takes would be
    undefined.  The routines that dump backtraces touch only their file. *)
Definition run_call (ev : event) (c : inserted) : M (tool iset) unit :=
  match funptr c, mapM (eval_iarg ev) (iargs c) with
  | F_recordPmemRead, Some [VInt ip; VInt addr; VInt n; VInt t] => recordPmemRead pads ip addr n t
  | F_recordPmemWrite, Some [VInt ip; VInt addr; VInt n; VInt t; VBool nt] =>
      recordPmemWrite pads ip addr n t nt
  | F_recordPmemWriteback, Some [VStr f; VInt ip; VInt t; VInt a1; VInt a2] =>
      recordPmemWriteback pads f ip t a1 a2
  | F_recordPmemFence, Some [VStr f; VInt ip; VInt t] => recordPmemFence pads f ip t
  | F_recordPmemAllocation, Some [VStr f; VInt ip; VInt t; VInt p] =>
      recordPmemAllocation pads f ip t p
  | F_recordPmemRetAllocation, Some [VStr f; VInt ip; VInt t; VInt addr] =>
      recordPmemRetAllocation pads (ev_deref ev) f ip t addr
  | F_recordPmemDeallocation, Some [VStr f; VInt ip; VInt t; VInt addr; VInt n] =>
      recordPmemDeallocation pads f ip t addr n
  | F_recordPmemRetCommon, Some [VStr f; VInt ip; VInt t; VInt addr] =>
      recordPmemRetCommon pads f ip t addr
  | F_recordCommitVar, Some [VStr f; VInt ip; VInt t; VInt addr; VInt n] =>
      recordCommitVar pads f ip t addr n
  | F_recordTXBound, Some [VStr f; VInt ip; VInt t] => recordTXBound pads f ip t
  | F_recordPmemAllocationTX, Some [VStr f; VInt ip; VInt t; VInt addr; VInt n] =>
      recordPmemAllocationTX pads f ip t addr n
  | F_PMDKInternalFunctHandler, Some [VStr f; VInt t; VInt type] =>
      PMDKInternalFunctHandler pads f t type
  | F_RoIHandler, Some [VStr f; VInt t] => RoIHandler pads f t
  | F_addFailurePoint, Some [VInt ip; VStr f; VInt t] => addFailurePoint pads fuel ip f t
  | (F_recordWriteInstBacktrace | F_recordReadInstBacktrace | F_recordFuncBacktrace), _ => ret tt
  | _, _ => stop (UndefinedBehaviour "arguments of an analysis routine")
  end.

Definition rtn_instrument (r : registration) (name : string) : M (tool iset) (list inserted) :=
  match r with
  | R_FailurePointInst => FailurePointInst name
  | R_PMDKInternalFunct => PMDKInternalFunct name
  | R_PMOpTraceInstPmem => PMOpTraceInstPmem name
  | R_PMOpTraceInstTX => PMOpTraceInstTX name
  | R_RoISelection => RoISelection name
  | _ => ret []
  end.
Definition ins_instrument (r : registration) (ins : instruction) : M (tool iset) (list inserted) :=
  match r with R_PMReadAndWriteInst => PMReadAndWriteInst ins | _ => ret [] end.
(** All the calls, in the order of registration. *)
Fixpoint collect (instrument : registration → M (tool iset) (list inserted))
    (regs : list registration) : M (tool iset) (list inserted) :=
  match regs with
  | [] => ret []
  | r :: regs' => let! l := instrument r in let! l' := collect instrument regs' in ret (l ++ l')
  end.

(** A function is entered ([IPOINT_BEFORE]) or left ([IPOINT_AFTER]). *)
Definition on_routine (regs : list registration) (p : ipoint) (ev : event) : M (tool iset) unit :=
  let! l := collect (λ r, rtn_instrument r (ev_rtn ev)) regs in
  for_each (filter (λ c, where_ c = p) l) (run_call ev).
Definition on_instruction (regs : list registration) (ins : instruction) (ev : event)
    : M (tool iset) unit :=
  let! l := collect (λ r, ins_instrument r ins) regs in for_each l (run_call ev).

(** What a program does, as far as the tool can see it. *)
Inductive action :=
  | Access (ins : instruction) (ev : event)
  | Enter (ev : event)
  | Leave (ev : event).
Definition act (regs : list registration) (a : action) : M (tool iset) unit :=
  match a with
  | Access ins ev => on_instruction regs ins ev
  | Enter ev => on_routine regs IPOINT_BEFORE ev
  | Leave ev => on_routine regs IPOINT_AFTER ev
  end.
End run.

(** The registrations of the two runs. *)
Definition regs_common : list registration :=
  [R_PMDKInternalFunct; R_PMOpTraceInstPmem; R_PMOpTraceInstTX; R_RoISelection;
   R_PMReadAndWriteInst; R_ThreadStart; R_ThreadFini].
Definition regs_pre : list registration :=
  [R_ImageLoad; R_Backtrace; R_FailurePointInst] ++ regs_common.
Definition regs_post : list registration := [R_ImageLoad; R_Backtrace] ++ regs_common.

(** ** Which entries must result *)

Definition arg (ev : event) (n : nat) : Z := nth n (ev_args ev) 0.

(** On entering a function. *)
Definition call_entries (ev : event) : list trace_entry_t :=
  let name := ev_rtn ev in
  let e op src dst n := TraceEntry op false (ev_tid ev) src dst n (ev_return_ip ev) 0 in
  if bool_decide (name ∈ pmdk_internal_functions)
  then [TraceEntry PMDK_INTERNAL_CALL false (ev_tid ev) 0 0 0 0 0]
  else if bool_decide (name = "pmem_map_file"%string) then [e PMEM_MAP_FILE 0 0 0]
  else if bool_decide (name = "pmem_unmap"%string) then [e PMEM_UNMAP (arg ev 0) 0 (arg ev 1)]
  else if bool_decide (name = "predrain_memory_barrier"%string) then [e SFENCE 0 0 0]
  else if bool_decide (name ∈ ["flush_clwb_nolog"; "flush_clflushopt_nolog";
                               "flush_clflush_nolog"]%string)
  then if arg ev 1 =? 0 then [] else [e CLWB (arg ev 0) 0 (arg ev 1)]
  else if bool_decide (name = "_add_commit_var"%string)
  then [e ADD_COMMIT_VAR (arg ev 0) 0 (arg ev 1)]
  else if bool_decide (name = "pm_trace_pm_addr_add"%string)
  then [e PM_TRACE_PM_ADDR_ADD 0 (arg ev 0) (arg ev 1)]
  else if bool_decide (name = "pm_trace_pm_addr_remove"%string)
  then [e PM_TRACE_PM_ADDR_REMOVE (arg ev 0) 0 (arg ev 1)]
  else if bool_decide (name = "pm_trace_tx_begin"%string) then [e PM_TRACE_TX_BEGIN 0 0 0]
  else if bool_decide (name = "pm_trace_tx_end"%string) then [e PM_TRACE_TX_END 0 0 0]
  else if bool_decide (name = "pm_trace_tx_addr_add"%string)
  then [e PM_TRACE_TX_ADDR_ADD 0 (arg ev 0) (arg ev 1)]
  else if bool_decide (name = "pm_trace_tx_alloc"%string)
  then [e PM_TRACE_TX_ALLOC 0 (arg ev 0) (arg ev 1)]
  else [].

(** On executing an instruction: loads count inside the region of interest and
    when they are tracked at all, stores always. *)
Definition access_entries (loads : bool) (ins : instruction) (ev : event) : list trace_entry_t :=
  if contains "clwb" (disassembly ins) then []
  else concat (imap (λ k op,
    (if loads && is_read op && isPmemAddr (ev_ea ev k) (ev_read_size ev)
     then [TraceEntry READ false (ev_tid ev) (ev_ea ev k) 0 (ev_read_size ev) (ev_ip ev) 0] else []) ++
    (if is_written op && isPmemAddr (ev_ea ev k) (ev_write_size ev)
     then [TraceEntry WRITE false (ev_tid ev) 0 (ev_ea ev k) (ev_write_size ev) (ev_ip ev)
             (if contains "movnt" (disassembly ins) then 1 else 0)] else [])) (operands ins)).
