(* ===== verification/PinFacts.v ===== *)
(** * What the Pin tool sends

    The analysis routines, the tables, the argument lists and the registration
    order together: which entries the detector receives when the program under
    test enters a function or executes an instruction, and what happens at a
    failure point. *)
From stdpp Require Import base list strings gmap pretty.
From S2P Require Import Prelude Os Strings Trace Wire Icl ShadowPM SegList Frontend.
From S2P Require Import Detector ByteSpec Pintool Instrument PinRun.
Open Scope Z_scope.

(** ** Entries received *)

(** The entries among the writes to a descriptor. *)
Definition received (fd : Z) (cs : list call) : list trace_entry_t :=
  omap (λ c, match c with
             | CWriteBytes fd' l => if fd' =? fd then Some (decode_entry l) else None
             | _ => None
             end) cs.
Lemma received_app fd l1 l2 : received fd (l1 ++ l2) = received fd l1 ++ received fd l2.
Proof. apply omap_app. Qed.

(** The answer of a [write] that took the entry. *)
Definition ack : answer := int_answer (Z.of_nat entry_size).

(** The table of functions that [pm_func_init] builds. *)
Definition pm_table : gmap string pm_func_t :=
  foldl (λ m e, <[e.1 := e.2]> m) ∅ pm_function_entries.

(** An event whose integers are those of a 64-bit program with at most 32 threads. *)
Record event_ok (ev : event) : Prop := {
  ok_tid : 0 ≤ ev_tid ev < Z.of_nat MAX_THREADS;
  ok_return_ip : is_addr (ev_return_ip ev);
  ok_ip : is_addr (ev_ip ev);
  ok_args : Forall is_addr (ev_args ev);
  ok_ea k : is_addr (ev_ea ev k);
  ok_read : is_addr (ev_read_size ev);
  ok_write : is_addr (ev_write_size ev);
}.

Lemma s32_small x : - 2 ^ 31 ≤ x < 2 ^ 31 → s32 x = x.
Proof. intros H. unfold s32. rewrite Z.mod_small; lia. Qed.
Lemma tid_small ev : event_ok ev → s32 (ev_tid ev) = ev_tid ev.
Proof. intros [H]. apply s32_small. change (Z.of_nat MAX_THREADS) with 32 in H. lia. Qed.

Section facts.
Context {iset : Type} {IS : IntervalSet iset}.
Context (fuel : nat) (pads : tool iset → list Z * list Z * list Z).
Context (pads_ok : ∀ t, length (pads t).1.1 = 3%nat ∧ length (pads t).1.2 = 4%nat ∧
                        length (pads t).2 = 4%nat).
Implicit Types (t : tool iset) (ev : event) (e : trace_entry_t).

(** The tool after its [main], with the FIFO enabled. *)
Definition ready t : Prop :=
  pm_functions t = pm_table ∧
  failure_point_funcs t = list_to_set failure_point_funcs_array ∧ fifo_enable (sett t) = true.

(** What the routines that only send leave alone. *)
Definition quiet t t' : Prop :=
  sett t' = sett t ∧ pm_functions t' = pm_functions t ∧
  failure_point_funcs t' = failure_point_funcs t ∧ fails t' = fails t ∧
  roi_tracker t' = roi_tracker t ∧ thread_counter t' = thread_counter t ∧
  trace_fd t' = trace_fd t ∧ signal_fd t' = signal_fd t.
#[local] Instance quiet_preorder : PreOrder quiet.
Proof.
  split; [done|]. intros t1 t2 t3 (?&?&?&?&?&?&?&?) (?&?&?&?&?&?&?&?).
  repeat split; congruence.
Qed.
Lemma quiet_ready t t' : quiet t t' → ready t → ready t'.
Proof. intros (H1&H2&H3&_) (?&?&?). unfold ready. by rewrite H1, H2, H3. Qed.

(** The computation returns having sent [es], provided the FIFO takes them. *)
Definition sends (c : M (tool iset) unit) (es : list trace_entry_t) t : Prop :=
  ∀ l, answers (tsys t) = replicate (length es) ack ++ l →
  ∃ t', c t = Ok tt t' ∧ quiet t t' ∧ answers (tsys t') = l ∧
    received (trace_fd t) (calls (tsys t')) = received (trace_fd t) (calls (tsys t)) ++ es.

Lemma sends_ret t : sends (ret tt) [] t.
Proof. intros l Hl. exists t. repeat split; try done. by rewrite app_nil_r. Qed.
Lemma sends_seq c1 c2 es1 es2 t :
  sends c1 es1 t → (∀ t', quiet t t' → sends c2 es2 t') → sends (c1 ;; c2) (es1 ++ es2) t.
Proof.
  intros H1 H2 l Hl. rewrite length_app, replicate_add, <-app_assoc in Hl.
  destruct (H1 _ Hl) as (t1&E1&Q1&A1&R1).
  destruct (H2 t1 Q1 l A1) as (t2&E2&Q2&A2&R2).
  exists t2. rewrite (bind_Ok _ _ _ tt t1) by done. split; [done|]. split; [by etrans|].
  split; [done|]. assert (trace_fd t1 = trace_fd t) as Hfd by apply Q1.
  rewrite Hfd in R2. by rewrite R2, R1, app_assoc.
Qed.
Lemma sends_modify f c es t :
  quiet t (f t) → tsys (f t) = tsys t → sends c es (f t) → sends (modify f ;; c) es t.
Proof.
  intros Q Hs H l Hl. rewrite <-Hs in Hl. destruct (H l Hl) as (t'&E&Q'&A&R).
  exists t'. split; [done|]. split; [by etrans|]. split; [done|].
  assert (trace_fd (f t) = trace_fd t) as Hfd by apply Q. by rewrite <-Hfd, <-Hs.
Qed.
Lemma sends_assert b what c es t : b = true → sends c es t → sends (assert_ b what ;; c) es t.
Proof. intros ->. done. Qed.
Lemma sends_when (b : bool) c es t :
  (b = true → sends c es t) → sends (when b c) (if b then es else []) t.
Proof. destruct b; [auto|]. intros _. apply sends_ret. Qed.
Lemma sends_for_each {A} (l : list A) body out t :
  (∀ x t', quiet t t' → sends (body x) (out x) t') →
  sends (for_each l body) (concat (map out l)) t.
Proof.
  intros H. revert t H. induction l as [|x l IH]; intros t H; [apply sends_ret|].
  simpl. apply sends_seq; [by apply H|]. intros t' Q. apply IH. intros y t'' Q'.
  apply H. by etrans.
Qed.

Lemma sends_one {A} (x : A) body es t : sends (body x) es t → sends (for_each [x] body) es t.
Proof.
  intros H. rewrite <-(app_nil_r es). apply sends_seq; [done|]. intros t' _. apply sends_ret.
Qed.

Lemma send_run e t l :
  fifo_enable (sett t) = true → answers (tsys t) = ack :: l →
  send pads e t = Ok tt (set_tsys (Os l (calls (tsys t) ++
    [CWriteBytes (trace_fd t) (encode_entry (pads t).1.1 (pads t).1.2 (pads t).2 e)])) t).
Proof.
  intros Hf Hl. unfold send, pinfifo_write.
  erewrite bind_Ok; [reflexivity|].
  erewrite (bind_Ok (gets sett)) by done. rewrite Hf.
  erewrite (bind_Ok (gets trace_fd)), (bind_Ok (gets pads)) by done.
  erewrite bind_Ok.
  2: { unfold on_tsys, zoom, sys_int, sys. unfold bind at 1. rewrite Hl. reflexivity. }
  reflexivity.
Qed.
Lemma send_ok e t : fifo_enable (sett t) = true → entry_wf e → sends (send pads e) [e] t.
Proof.
  intros Hf Hwf l Hl. eexists. split; [apply send_run; [done|exact Hl]|]. split; [done|]. split; [done|]. simpl.
  rewrite received_app. simpl. rewrite Z.eqb_refl. do 3 f_equal.
  destruct (pads_ok t) as (?&?&?). rewrite <-(app_nil_r (encode_entry _ _ _ _)).
  by apply decode_encode.
Qed.
Lemma send_valid_ok e t :
  fifo_enable (sett t) = true → entry_wf e → operation e ≠ INVALID → sends (send_valid pads e) [e] t.
Proof.
  intros Hf Hwf Hop. apply sends_assert; [|by apply send_ok].
  by rewrite bool_decide_false.
Qed.

(** The entries of a good event fit in their C types. *)
Lemma plain_entry_wf op r tid src dst n ip nt :
  pm_op_of_value (pm_op_value op) = op → 0 ≤ pm_op_value op < 32 →
  0 ≤ tid < Z.of_nat MAX_THREADS → is_addr src → is_addr dst → is_addr n → is_addr ip →
  nt = 0 ∨ nt = 1 → entry_wf (TraceEntry op r tid src dst n ip nt).
Proof.
  intros Hop Hv Ht ???? Hnt. change (Z.of_nat MAX_THREADS) with 32 in Ht.
  unfold entry_wf, is_int. cbn [operation func_ret Trace.tid src_addr dst_addr size instr_ptr non_temporal].
  split; [done|]. split; [lia|]. split; [lia|]. split; [lia|]. done.
Qed.
Lemma addr0 : is_addr 0.
Proof. done. Qed.
Hint Resolve addr0 : core.

(** ** Instrumentation does not depend on the run *)

Definition tool_ready : tool iset :=
  set_tables pm_table (list_to_set failure_point_funcs_array)
    (set_sett (Settings true true false true EmptyString PRE_FAILURE) (tool0 (Os [] []))).
Definition instr (r : registration) (name : string) : list inserted :=
  match rtn_instrument r name tool_ready with Ok l _ => l | Abort _ _ => [] end.

Lemma func_entry_ready name f t :
  pm_table !! name = Some f → ready t → func_entry name t = Ok f t.
Proof. intros Hf (Ht&_). unfold func_entry, bind, gets. by rewrite Ht, Hf. Qed.
(** Evaluates a look-up in the table. *)
Ltac table_entry Hr :=
  match goal with
  | |- context [func_entry ?key] =>
      let v := eval vm_compute in (pm_table !! key) in
      match v with
      | Some ?f => rewrite !(bind_Ok (func_entry key) _ _ f _)
                     by (apply func_entry_ready; [vm_compute; reflexivity|exact Hr || done])
      end
  end.
(** Every function the instrumentation asks the table for is in it. *)
Lemma rtn_instrument_ready r name t :
  ready t → rtn_instrument r name t = Ok (instr r name) t.
Proof.
  intros Hr. assert (ready tool_ready) as Hr0 by done. unfold instr. destruct r; cbn [rtn_instrument]; try done.
  - unfold FailurePointInst, bind, gets. destruct Hr as (_&->&_).
    change (failure_point_funcs tool_ready) with (list_to_set (C:=gset string) failure_point_funcs_array).
    by repeat (destruct (bool_decide _); cbn [orb]).
  - unfold PMDKInternalFunct. by case_match.
  - unfold PMOpTraceInstPmem. repeat (destruct (bool_decide _); cbn [orb]); try done; by table_entry Hr.
  - unfold PMOpTraceInstTX. repeat (destruct (bool_decide _); cbn [orb]); try done; by table_entry Hr.
  - unfold RoISelection. by case_match.
Qed.
Lemma collect_ready regs name t :
  ready t → collect (λ r, rtn_instrument r name) regs t
            = Ok (concat (map (λ r, instr r name) regs)) t.
Proof.
  intros Hr. induction regs as [|r regs IH]; [done|]. cbn [collect map concat].
  erewrite bind_Ok by (by apply rtn_instrument_ready). by erewrite bind_Ok by done.
Qed.
(** Every entry of the table has an operation. *)
Lemma table_op_ok name f :
  pm_table !! name = Some f →
  enum_name f ≠ INVALID ∧ pm_op_of_value (pm_op_value (enum_name f)) = enum_name f ∧
  0 ≤ pm_op_value (enum_name f) < 32.
Proof.
  assert (map_Forall (λ _ f, enum_name f ≠ INVALID ∧
    pm_op_of_value (pm_op_value (enum_name f)) = enum_name f ∧
    0 ≤ pm_op_value (enum_name f) < 32) pm_table) as H; [|apply H].
  apply (bool_decide_unpack _). vm_compute. exact I.
Qed.

(** The calls at a point of a function. *)
Definition calls_at (regs : list registration) (p : ipoint) (name : string) : list inserted :=
  filter (λ c, where_ c = p) (concat (map (λ r, instr r name) regs)).
Lemma on_routine_ready regs p ev t :
  ready t → on_routine fuel pads regs p ev t
            = for_each (calls_at regs p (ev_rtn ev)) (run_call fuel pads ev) t.
Proof. intros Hr. unfold on_routine. by erewrite bind_Ok by (by apply collect_ready). Qed.
Lemma sends_routine regs p ev es t :
  ready t → sends (for_each (calls_at regs p (ev_rtn ev)) (run_call fuel pads ev)) es t →
  sends (on_routine fuel pads regs p ev) es t.
Proof. intros Hr H l Hl. rewrite on_routine_ready by done. by apply H. Qed.

(** ** The analysis routines *)

Section routines.
Context (tid ip : Z) (Htid : 0 ≤ tid < Z.of_nat MAX_THREADS) (Hip : is_addr ip).

Lemma tid32 : s32 tid = tid.
Proof using Htid. apply s32_small. change (Z.of_nat MAX_THREADS) with 32 in Htid. lia. Qed.
Lemma sends_tid c es t : sends c es t → sends (assert_tid tid ;; c) es t.
Proof using Htid. apply sends_assert. lia. Qed.
Lemma sends_entry op r src dst n nt t :
  ready t → op ≠ INVALID → pm_op_of_value (pm_op_value op) = op → 0 ≤ pm_op_value op < 32 →
  is_addr src → is_addr dst → is_addr n → nt = 0 ∨ nt = 1 →
  sends (send_valid pads (TraceEntry op r (s32 tid) src dst n ip nt))
    [TraceEntry op r tid src dst n ip nt] t.
Proof using pads_ok Htid Hip.
  intros (_&_&Hf) Hop ? ? ? ? ? ?. rewrite tid32.
  apply send_valid_ok; [done|by apply plain_entry_wf|done].
Qed.

Lemma recordPmemWrite_sends addr n nt t :
  ready t → is_addr addr → is_addr n →
  sends (recordPmemWrite pads ip addr n tid nt)
    (if isPmemAddr addr n
     then [TraceEntry WRITE false tid 0 addr n ip (if nt then 1 else 0)] else []) t.
Proof using pads_ok Htid Hip.
  intros Hr Ha Hn. apply sends_tid, sends_when. intros Hpm. apply sends_assert.
  - unfold isPmemAddr, PM_ADDR_BASE in Hpm. lia.
  - apply sends_entry; try done. destruct nt; auto.
Qed.
Lemma recordPmemRead_sends addr n t :
  ready t → is_addr addr → is_addr n →
  sends (recordPmemRead pads ip addr n tid)
    (if (tid =? roi_tid (roi_tracker t)) && roi_tid_set (roi_tracker t) && isPmemAddr addr n
     then [TraceEntry READ false tid addr 0 n ip 0] else []) t.
Proof using pads_ok Htid Hip.
  intros Hr Ha Hn. unfold recordPmemRead, isInRoI.
  intros l. unfold bind at 1. unfold bind at 1, gets, ret. destruct (_ && roi_tid_set _); simpl.
  - intros Hl. revert l Hl. apply sends_tid, sends_when. intros _. apply sends_entry; auto; done.
  - apply sends_ret.
Qed.
Lemma recordPmemWriteback_sends f a1 a2 t :
  ready t → is_addr a1 → is_addr a2 → (a2 ≠ 0 → a1 ≠ 0) →
  sends (recordPmemWriteback pads f ip tid a1 a2)
    (if a2 =? 0 then [] else [TraceEntry CLWB false tid a1 0 a2 ip 0]) t.
Proof using pads_ok Htid Hip.
  intros Hr H1 H2 Hne. unfold recordPmemWriteback.
  replace (if a2 =? 0 then [] else _) with
    (if negb (a2 =? 0) then [TraceEntry CLWB false tid a1 0 a2 ip 0] else []) by (by destruct (a2 =? 0)).
  apply sends_when. intros Ha2. apply sends_tid, sends_assert; [lia|].
  apply sends_entry; auto; done.
Qed.
Lemma recordPmemFence_sends t :
  ready t →
  sends (recordPmemFence pads "predrain_memory_barrier" ip tid)
    [TraceEntry SFENCE false tid 0 0 0 ip 0] t.
Proof using pads_ok Htid Hip.
  intros Hr. unfold recordPmemFence. rewrite bool_decide_true by done.
  apply (sends_seq _ _ [] [_]); [apply sends_ret|]. intros t' Q.
  apply sends_tid, sends_entry; auto; try done. by eapply quiet_ready.
Qed.

(** A routine that looks its function up in the table. *)
Lemma sends_lookup name f (k : pm_func_t → M (tool iset) unit) es t :
  ready t → pm_table !! name = Some f → sends (k f) es t → sends (bind (func_entry name) k) es t.
Proof using Type.
  intros Hr Hf H l Hl. erewrite bind_Ok by (by apply func_entry_ready). by apply H.
Qed.
Lemma recordTXBound_sends name f t :
  ready t → pm_table !! name = Some f →
  sends (recordTXBound pads name ip tid) [TraceEntry (enum_name f) false tid 0 0 0 ip 0] t.
Proof using pads_ok Htid Hip.
  intros Hr Hf. destruct (table_op_ok _ _ Hf) as (?&?&?).
  apply sends_tid. eapply sends_lookup; [done|done|]. apply sends_entry; auto; done.
Qed.
Lemma recordCommitVar_sends name f addr n t :
  ready t → pm_table !! name = Some f → is_addr addr → is_addr n →
  sends (recordCommitVar pads name ip tid addr n)
    [TraceEntry (enum_name f) false tid addr 0 n ip 0] t.
Proof using pads_ok Htid Hip.
  intros Hr Hf ? ?. destruct (table_op_ok _ _ Hf) as (?&?&?).
  apply sends_tid. eapply sends_lookup; [done|done|]. apply sends_entry; auto; done.
Qed.
Lemma recordPmemAllocationTX_sends name f addr n t :
  ready t → pm_table !! name = Some f → is_addr addr → is_addr n →
  sends (recordPmemAllocationTX pads name ip tid addr n)
    [TraceEntry (enum_name f) false tid 0 addr n ip 0] t.
Proof using pads_ok Htid Hip.
  intros Hr Hf ? ?. destruct (table_op_ok _ _ Hf) as (?&?&?).
  apply sends_tid, sends_modify; [repeat split|reflexivity|]. eapply sends_lookup; [done|done|].
  apply sends_entry; auto; done.
Qed.
Lemma recordPmemDeallocation_sends name f addr n t :
  ready t → pm_table !! name = Some f → is_addr addr → is_addr n →
  sends (recordPmemDeallocation pads name ip tid addr n)
    [TraceEntry (enum_name f) false tid addr 0 n ip 0] t.
Proof using pads_ok Htid Hip.
  intros Hr Hf ? ?. destruct (table_op_ok _ _ Hf) as (?&?&?).
  apply sends_tid, sends_modify; [repeat split|reflexivity|]. eapply sends_lookup; [done|done|].
  apply sends_entry; auto; done.
Qed.
Lemma recordPmemAllocation_sends name f p t :
  ready t → pm_table !! name = Some f → func_type f = PM_ALLOCATION_FUNC →
  sends (recordPmemAllocation pads name ip tid p)
    [TraceEntry (enum_name f) false tid 0 0 0 ip 0] t.
Proof using pads_ok Htid Hip.
  intros Hr Hf Hty. destruct (table_op_ok _ _ Hf) as (?&?&?).
  eapply sends_lookup; [done|done|]. apply sends_assert; [by rewrite bool_decide_true|].
  apply sends_tid, sends_modify; [repeat split|reflexivity|]. eapply sends_lookup; [done|done|].
  apply sends_entry; auto; done.
Qed.
End routines.

(** ** Entering a function *)

(** The functions that announce themselves by an entry. *)
Definition traced_functions : list string :=
  [ "pmem_map_file"; "pmem_unmap"; "predrain_memory_barrier"; "flush_clwb_nolog";
    "flush_clflushopt_nolog"; "flush_clflush_nolog"; "_add_commit_var"; "pm_trace_pm_addr_add";
    "pm_trace_pm_addr_remove"; "pm_trace_tx_begin"; "pm_trace_tx_end"; "pm_trace_tx_addr_add";
    "pm_trace_tx_alloc" ]%string.

Lemma calls_internal regs :
  regs = regs_pre ∨ regs = regs_post →
  Forall (λ name, calls_at regs IPOINT_BEFORE name
    = [Insert IPOINT_BEFORE F_PMDKInternalFunctHandler
         [IARG_RTN_NAME; IARG_THREAD_ID; IARG_UINT32 (pm_op_value PMDK_INTERNAL_CALL)]])
    pmdk_internal_functions.
Proof.
  intros [-> | ->]; apply (bool_decide_unpack _); vm_compute; exact I.
Qed.
(** Nothing is attached to any other function. *)
Lemma calls_other regs p name :
  regs = regs_pre ∨ regs = regs_post →
  name ∉ pmdk_internal_functions → name ∉ traced_functions → name ∉ roi_functions →
  name ∉ failure_point_funcs_array → name ≠ "_skip_failure_point_begin"%string →
  name ≠ "_skip_failure_point_end"%string → calls_at regs p name = [].
Proof.
  intros Hregs Hi Ht Hroi Hf Hs1 Hs2.
  assert (∀ r, instr r name = []) as H.
  { unfold traced_functions in Ht. rewrite !not_elem_of_cons in Ht.
    intros r. unfold instr. destruct r; cbn [rtn_instrument]; try done.
    - unfold FailurePointInst, bind, gets. 
      change (failure_point_funcs tool_ready) with (list_to_set (C:=gset string) failure_point_funcs_array).
      rewrite (bool_decide_false (_ ∈ _)) by (by rewrite elem_of_list_to_set).
      by rewrite !bool_decide_false.
    - unfold PMDKInternalFunct. by rewrite bool_decide_false.
    - unfold PMOpTraceInstPmem. rewrite !bool_decide_false by tauto. done.
    - unfold PMOpTraceInstTX. rewrite !bool_decide_false by tauto. done.
    - unfold RoISelection. by rewrite bool_decide_false. }
  unfold calls_at. replace (concat _) with (@nil inserted); [done|].
  symmetry. clear Hregs. induction regs as [|r regs IH]; [done|]. simpl. by rewrite H, IH.
Qed.

(** The program calls the functions of the table with their arguments, and does
    not flush the null address. *)
Definition call_ok ev : Prop :=
  (∀ f, pm_table !! ev_rtn ev = Some f → num_args f ≤ Z.of_nat (length (ev_args ev))) ∧
  (ev_rtn ev ∈ ["flush_clwb_nolog"; "flush_clflushopt_nolog"; "flush_clflush_nolog"]%string →
   arg ev 1 ≠ 0 → arg ev 0 ≠ 0).

(** The argument lists of the functions of the table. *)
Definition bound_iargs : list iarg := [IARG_RTN_NAME; IARG_RETURN_IP; IARG_THREAD_ID].
Definition range_iargs : list iarg :=
  bound_iargs ++ [IARG_FUNCARG_ENTRYPOINT_VALUE 0; IARG_FUNCARG_ENTRYPOINT_VALUE 1].
Lemma eval_funcarg ev n k :
  k = Z.of_nat n → (n < length (ev_args ev))%nat →
  eval_iarg ev (IARG_FUNCARG_ENTRYPOINT_VALUE k) = Some (VInt (arg ev n)).
Proof.
  intros -> Hn. unfold eval_iarg, arr_ref, arg. rewrite (proj2 (Z.leb_le 0 _)), Nat2Z.id by lia.
  destruct (nth_lookup_or_length (ev_args ev) n 0) as [->|]; [done|lia].
Qed.
Lemma arg_addr ev n : event_ok ev → is_addr (arg ev n).
Proof.
  intros Hok. unfold arg. destruct (nth_in_or_default n (ev_args ev) 0) as [H| ->]; [|done].
  apply list_elem_of_In in H. pose proof (ok_args _ Hok) as Ha. rewrite Forall_forall in Ha. auto.
Qed.

Lemma internal_sends regs ev t :
  regs = regs_pre ∨ regs = regs_post → ready t → event_ok ev → ev_rtn ev ∈ pmdk_internal_functions →
  sends (on_routine fuel pads regs IPOINT_BEFORE ev)
    [TraceEntry PMDK_INTERNAL_CALL false (ev_tid ev) 0 0 0 0 0] t.
Proof.
  intros Hregs Hr Hok Hin. apply sends_routine; [done|].
  pose proof (calls_internal regs Hregs) as Hc. rewrite Forall_forall in Hc.
  rewrite Hc by done. apply sends_one. unfold run_call. simpl.
  unfold PMDKInternalFunctHandler. apply sends_entry; auto; try done; apply Hok.
Qed.
Lemma eval_range ev :
  (2 ≤ length (ev_args ev))%nat → mapM (eval_iarg ev) range_iargs
  = Some [VStr (ev_rtn ev); VInt (ev_return_ip ev); VInt (ev_tid ev); VInt (arg ev 0); VInt (arg ev 1)].
Proof.
  intros Hn. unfold range_iargs, bound_iargs. cbn [app mapM].
  rewrite (eval_funcarg ev 0 0), (eval_funcarg ev 1 1) by lia. done.
Qed.
Lemma eval_map_file ev :
  (5 ≤ length (ev_args ev))%nat →
  mapM (eval_iarg ev) (bound_iargs ++ [IARG_FUNCARG_ENTRYPOINT_VALUE 4])
  = Some [VStr (ev_rtn ev); VInt (ev_return_ip ev); VInt (ev_tid ev); VInt (arg ev 4)].
Proof.
  intros Hn. unfold bound_iargs. cbn [app mapM].
  rewrite (eval_funcarg ev 4 4) by lia. done.
Qed.

Lemma sends_eq c es es' t : sends c es t → es = es' → sends c es' t.
Proof. by intros ? <-. Qed.
(** A function with one call attached before it. *)
Lemma sends_call regs ev name fn l es t :
  ready t → ev_rtn ev = name → calls_at regs IPOINT_BEFORE name = [Insert IPOINT_BEFORE fn l] →
  sends (run_call fuel pads ev (Insert IPOINT_BEFORE fn l)) es t → es = call_entries ev →
  sends (on_routine fuel pads regs IPOINT_BEFORE ev) (call_entries ev) t.
Proof.
  intros Hr Hn Hc Hs <-. apply sends_routine; [done|]. rewrite Hn, Hc. by apply sends_one.
Qed.

(** What is attached to the functions with a range, and which routine it is. *)
Definition range_functions : list (string * afunptr) :=
  [ ("pmem_unmap", F_recordPmemDeallocation); ("flush_clwb_nolog", F_recordPmemWriteback);
    ("flush_clflushopt_nolog", F_recordPmemWriteback);
    ("flush_clflush_nolog", F_recordPmemWriteback); ("_add_commit_var", F_recordCommitVar);
    ("pm_trace_pm_addr_add", F_recordPmemAllocationTX);
    ("pm_trace_pm_addr_remove", F_recordPmemDeallocation);
    ("pm_trace_tx_addr_add", F_recordPmemAllocationTX);
    ("pm_trace_tx_alloc", F_recordPmemAllocationTX) ]%string.
Lemma range_sends regs ev fn t :
  regs = regs_pre ∨ regs = regs_post → ready t → event_ok ev → call_ok ev →
  (ev_rtn ev, fn) ∈ range_functions →
  sends (on_routine fuel pads regs IPOINT_BEFORE ev) (call_entries ev) t.
Proof.
  intros Hregs Hr Hok [Har Hfl] Hin.
  assert (Forall (λ p, calls_at regs IPOINT_BEFORE p.1 = [Insert IPOINT_BEFORE p.2 range_iargs] ∧
    2 ≤ default 0 (num_args <$> pm_table !! p.1)) range_functions) as Hall.
  { destruct Hregs as [-> | ->]; apply (bool_decide_unpack _); vm_compute; exact I. }
  rewrite Forall_forall in Hall. destruct (Hall _ Hin) as [Hc Hn]. cbn [fst snd] in Hc, Hn.
  destruct (pm_table !! ev_rtn ev) as [f|] eqn:Hf; [|simpl in Hn; lia].
  specialize (Har f eq_refl). simpl in Hn.
  pose proof (arg_addr ev 0 Hok). pose proof (arg_addr ev 1 Hok).
  pose proof (ok_tid _ Hok). pose proof (ok_return_ip _ Hok).
  eapply sends_call; [done|done|exact Hc| |reflexivity]. unfold run_call. cbn [funptr iargs].
  rewrite eval_range by lia.
  unfold range_functions in Hin. rewrite !elem_of_cons, elem_of_nil in Hin.
  destruct Hin as [E|[E|[E|[E|[E|[E|[E|[E|[E|[]]]]]]]]]]; injection E as Hname ->;
    (eapply sends_eq;
      [match goal with
       | |- sends (recordPmemDeallocation _ _ _ _ _ _) _ _ => eapply recordPmemDeallocation_sends; done
       | |- sends (recordCommitVar _ _ _ _ _ _) _ _ => eapply recordCommitVar_sends; done
       | |- sends (recordPmemAllocationTX _ _ _ _ _ _) _ _ =>
           eapply recordPmemAllocationTX_sends; done
       | |- sends (recordPmemWriteback _ _ _ _ _ _) _ _ =>
           apply recordPmemWriteback_sends; try done; apply Hfl; rewrite Hname, !elem_of_cons; tauto
       end|]).
  all: unfold call_entries; rewrite Hname in *; vm_compute in Hf; injection Hf as <-; reflexivity.
Qed.
Lemma bound_sends regs ev t :
  regs = regs_pre ∨ regs = regs_post → ready t → event_ok ev → call_ok ev →
  ev_rtn ev ∈ ["predrain_memory_barrier"; "pm_trace_tx_begin"; "pm_trace_tx_end"]%string →
  sends (on_routine fuel pads regs IPOINT_BEFORE ev) (call_entries ev) t.
Proof.
  intros Hregs Hr Hok Hcall Hin. pose proof (ok_tid _ Hok). pose proof (ok_return_ip _ Hok).
  rewrite !elem_of_cons, elem_of_nil in Hin.
  destruct Hin as [Hname|[Hname|[Hname|[]]]];
    (eapply sends_call;
       [done|exact Hname|destruct Hregs as [-> | ->]; vm_compute; reflexivity| |reflexivity]);
    (unfold call_entries; rewrite Hname; unfold run_call; cbn [funptr iargs mapM eval_iarg];
     cbn -[sends recordPmemFence recordTXBound bool_decide]; rewrite Hname).
  - apply recordPmemFence_sends; done.
  - eapply sends_eq; [eapply recordTXBound_sends; try done; vm_compute; reflexivity|reflexivity].
  - eapply sends_eq; [eapply recordTXBound_sends; try done; vm_compute; reflexivity|reflexivity].
Qed.
Lemma map_file_sends regs ev t :
  regs = regs_pre ∨ regs = regs_post → ready t → event_ok ev → call_ok ev →
  ev_rtn ev = "pmem_map_file"%string →
  sends (on_routine fuel pads regs IPOINT_BEFORE ev) (call_entries ev) t.
Proof.
  intros Hregs Hr Hok [Har _] Hname. pose proof (ok_tid _ Hok). pose proof (ok_return_ip _ Hok).
  rewrite Hname in Har. specialize (Har _ ltac:(vm_compute; reflexivity)). cbn [num_args] in Har.
  eapply (sends_call _ _ _ F_recordPmemAllocation (bound_iargs ++ [IARG_FUNCARG_ENTRYPOINT_VALUE 4]));
    [done|exact Hname|destruct Hregs as [-> | ->]; vm_compute; reflexivity| |reflexivity].
  unfold run_call. cbn [funptr iargs]. rewrite eval_map_file by lia.
  unfold call_entries. rewrite Hname.
  eapply sends_eq; [|].
  - eapply recordPmemAllocation_sends; try done; vm_compute; reflexivity.
  - reflexivity.
Qed.

Lemma call_sends regs ev t :
  regs = regs_pre ∨ regs = regs_post → ready t → event_ok ev → call_ok ev →
  ev_rtn ev ∉ roi_functions → ev_rtn ev ∉ failure_point_funcs_array →
  ev_rtn ev ≠ "_skip_failure_point_begin"%string → ev_rtn ev ≠ "_skip_failure_point_end"%string →
  sends (on_routine fuel pads regs IPOINT_BEFORE ev) (call_entries ev) t.
Proof.
  intros Hregs Hr Hok Hcall Hroi Hf Hs1 Hs2.
  destruct (decide (ev_rtn ev ∈ pmdk_internal_functions)) as [Hi|Hi].
  { eapply sends_eq; [by apply internal_sends|]. unfold call_entries. by rewrite bool_decide_true. }
  destruct (decide (ev_rtn ev ∈ traced_functions)) as [Ht|Ht].
  - unfold traced_functions in Ht. rewrite !elem_of_cons, elem_of_nil in Ht.
    destruct (decide (ev_rtn ev = "pmem_map_file"%string)); [by apply map_file_sends|].
    destruct (decide (ev_rtn ev ∈ ["predrain_memory_barrier"; "pm_trace_tx_begin";
      "pm_trace_tx_end"]%string)) as [|Hb]; [by apply bound_sends|].
    assert (ev_rtn ev ∈ range_functions.*1) as Hrange.
    { cbn. rewrite !elem_of_cons in *. tauto. }
    apply list_elem_of_fmap in Hrange as ([name fn]&Hname&Hin). cbn in Hname.
    apply (range_sends _ _ fn); try done. by rewrite Hname.
  - apply sends_routine; [done|]. rewrite calls_other by done.
    assert (call_entries ev = []) as ->; [|apply sends_ret].
    unfold traced_functions in Ht. rewrite !not_elem_of_cons in Ht.
    unfold call_entries. rewrite !bool_decide_false; try tauto. rewrite !not_elem_of_cons.
    pose proof (not_elem_of_nil (ev_rtn ev)). tauto.
Qed.
(** ** Executing an instruction *)

Lemma sends_concat_imap {A B} (f : nat → A → list B) (g : nat → A → list trace_entry_t) l body t :
  (∀ k x t', quiet t t' → sends (for_each (f k x) body) (g k x) t') →
  sends (for_each (concat (imap f l)) body) (concat (imap g l)) t.
Proof.
  revert f g t. induction l as [|x l IH]; intros f g t H; [apply sends_ret|].
  rewrite !imap_cons. cbn [concat]. intros ans Hans. rewrite for_each_app. revert ans Hans.
  apply sends_seq; [by apply H|]. intros t' Q. apply IH. intros k y t'' Q'. apply H. by etrans.
Qed.
(** Loads are tracked in the post-failure run, by the thread of the region. *)
Definition tracks_loads t ev : bool :=
  read_enable (sett t) && ((ev_tid ev =? roi_tid (roi_tracker t)) && roi_tid_set (roi_tracker t)).

Lemma operand_sends ins ev k op t t0 :
  ready t → event_ok ev → quiet t0 t →
  sends (for_each
    ((if read_enable (sett t0) && is_read op then
        [Insert IPOINT_BEFORE F_recordPmemRead
           [IARG_INST_PTR; IARG_MEMORYOP_EA k; IARG_MEMORYREAD_SIZE; IARG_THREAD_ID]] else []) ++
     (if is_written op then
        [Insert IPOINT_BEFORE F_recordPmemWrite
           [IARG_INST_PTR; IARG_MEMORYOP_EA k; IARG_MEMORYWRITE_SIZE; IARG_THREAD_ID;
            IARG_BOOL (contains "movnt" (disassembly ins))]] else [])) (run_call fuel pads ev))
    ((if tracks_loads t0 ev && is_read op && isPmemAddr (ev_ea ev k) (ev_read_size ev)
      then [TraceEntry READ false (ev_tid ev) (ev_ea ev k) 0 (ev_read_size ev) (ev_ip ev) 0] else []) ++
     (if is_written op && isPmemAddr (ev_ea ev k) (ev_write_size ev)
      then [TraceEntry WRITE false (ev_tid ev) 0 (ev_ea ev k) (ev_write_size ev) (ev_ip ev)
              (if contains "movnt" (disassembly ins) then 1 else 0)] else [])) t.
Proof.
  intros Hr [? ? ? ? ? ? ?] Q. intros ans Hans. rewrite for_each_app. revert ans Hans.
  unfold tracks_loads. destruct Q as (_&_&_&_&Hroi&_). apply sends_seq.
  - destruct (read_enable (sett t0)), (is_read op); simpl andb; try apply sends_ret.
    + apply sends_one. unfold run_call. simpl. rewrite <-Hroi, andb_true_r.
      by apply recordPmemRead_sends.
    + rewrite andb_false_r. apply sends_ret.
  - intros t' Q'. destruct (is_written op); simpl andb; [|apply sends_ret].
    apply sends_one. unfold run_call. simpl. apply recordPmemWrite_sends; try done.
    by eapply quiet_ready.
Qed.

Lemma access_sends regs ins ev t :
  regs = regs_pre ∨ regs = regs_post → ready t → event_ok ev →
  sends (on_instruction fuel pads regs ins ev) (access_entries (tracks_loads t ev) ins ev) t.
Proof.
  intros Hregs Hr Hok. unfold on_instruction.
  assert (∃ cs, PMReadAndWriteInst ins t = Ok cs t ∧
    collect (λ r, ins_instrument r ins) regs t = Ok cs t) as (cs&Hins&Hcol).
  { assert (∃ cs, PMReadAndWriteInst ins t = Ok cs t) as [cs Hins].
    { unfold PMReadAndWriteInst, bind, gets. case_match; eauto. }
    exists cs. split; [done|]. destruct Hregs as [-> | ->]; simpl; unfold bind, ret;
      rewrite Hins; simpl; by rewrite app_nil_r. }
  intros ans Hans. erewrite bind_Ok by done. revert ans Hans.
  unfold PMReadAndWriteInst, bind, gets in Hins. unfold access_entries.
  destruct (contains "clwb" (disassembly ins)); injection Hins as <-; [apply sends_ret|].
  apply sends_concat_imap. intros k op t' Q. apply operand_sends; try done. by eapply quiet_ready.
Qed.

(** ** Properties *)

(** C11. What the detector learns when the program enters a function, in the
    pre-failure or the post-failure run.  The function is any other than those that
    control the tool: the six that begin and end the regions of interest and the
    tests ([roi_functions]), [pmfuzz_inject_failure] and the two
    [_skip_failure_point] annotations.  It gets at least as many arguments as the
    table of the tool says, and a flush of a range that is not empty has an address
    other than 0 ([call_ok]); the thread is one of the 32 ([event_ok]).  The tables,
    the order of the registrations, the argument lists and the analysis routines
    together send the entries of [call_entries] and nothing else: a library function
    announces itself, a flush names its range unless it is empty, a fence, a
    transaction and its ranges are passed on, and functions the tool does not know
    send nothing.  The tool's region of interest, failure points and settings stay as
    they are. *)
Theorem call_trace regs ev t l :
  regs = regs_pre ∨ regs = regs_post → ready t → event_ok ev → call_ok ev →
  ev_rtn ev ∉ roi_functions → ev_rtn ev ∉ failure_point_funcs_array →
  ev_rtn ev ≠ "_skip_failure_point_begin"%string → ev_rtn ev ≠ "_skip_failure_point_end"%string →
  answers (tsys t) = replicate (length (call_entries ev)) ack ++ l →
  ∃ t', on_routine fuel pads regs IPOINT_BEFORE ev t = Ok tt t' ∧ quiet t t' ∧
    answers (tsys t') = l ∧
    received (trace_fd t) (calls (tsys t')) = received (trace_fd t) (calls (tsys t)) ++ call_entries ev.
Proof. intros ? ? ? ? ? ? ? ?. by apply call_sends. Qed.

(** C12. What the detector learns when the program executes an instruction, in
    either run: for each memory operand in persistent memory a store, marked
    non-temporal if the instruction is, and before it a load, if the run tracks
    loads and the thread is inside its region of interest; nothing for [clwb]
    and for operands elsewhere.  The tool's state stays as it is. *)
Theorem access_trace regs ins ev t l :
  regs = regs_pre ∨ regs = regs_post → ready t → event_ok ev →
  let es := access_entries (tracks_loads t ev) ins ev in
  answers (tsys t) = replicate (length es) ack ++ l →
  ∃ t', on_instruction fuel pads regs ins ev t = Ok tt t' ∧ quiet t t' ∧ answers (tsys t') = l ∧
    received (trace_fd t) (calls (tsys t')) = received (trace_fd t) (calls (tsys t)) ++ es.
Proof. intros ? ? ?. by apply access_sends. Qed.
End facts.
