(* ===== verification/PinControl.v ===== *)
(** * Failure points, the region of interest and the start of the Pin tool

    How the tool and the detector synchronise at a failure point, which FIFOs the
    tool opens, and which of the annotations never reach it. *)
From stdpp Require Import base list strings gmap pretty.
From S2P Require Import Prelude Os Strings Trace Wire Icl ShadowPM SegList Frontend.
From S2P Require Import Pintool Instrument PinRun PinFacts.
Open Scope Z_scope.

(** ** Signals *)

(** The message that ends the wait. *)
Definition matches (signal : string) (a : answer) : bool :=
  (0 <? ans_ret a) && strncmp_bytes (Z.to_nat (ans_ret a - 1)) (ans_data a) (cstring signal).
(** What the detector's [pin_continue_send] writes: the text with its terminator. *)
Definition continue_message : answer := Answer 13 (cstring PIN_CONTINUE_SIGNAL).

Section control.
Context {iset : Type} {IS : IntervalSet iset}.
Context (pads : tool iset → list Z * list Z * list Z).
Context (pads_ok : ∀ t, length (pads t).1.1 = 3%nat ∧ length (pads t).1.2 = 4%nat ∧
                        length (pads t).2 = 4%nat).
Implicit Types (t : tool iset).

(** The state with the answers [l] left and the calls [cs] made. *)
Definition after t (cs : list call) (l : list answer) : tool iset :=
  set_tsys (Os l (calls (tsys t) ++ cs)) t.

Lemma wait_turn_run signal a l t :
  answers (tsys t) = a :: l → 0 ≤ ans_ret a →
  wait_turn signal t
  = Ok (negb (matches signal a)) (after t [CRead (signal_fd t) MAX_SIGNAL_LEN] l).
Proof.
  intros Ha Hpos. unfold wait_turn. erewrite bind_Ok; [done|].
  unfold tool_signal_recv. erewrite (bind_Ok (gets signal_fd)) by done.
  erewrite bind_Ok by (unfold on_tsys, zoom, sys; rewrite Ha; reflexivity).
  by rewrite (proj2 (Z.ltb_ge (ans_ret a) 0)).
Qed.
(** The wait reads messages until one matches, and consumes no more. *)
Lemma waitOnSignal_run fuel signal noise a l t :
  answers (tsys t) = noise ++ a :: l →
  Forall (λ m, 0 ≤ ans_ret m ∧ matches signal m = false) noise →
  0 ≤ ans_ret a → matches signal a = true → (length noise < fuel)%nat →
  waitOnSignal fuel signal t
  = Ok tt (after t (replicate (S (length noise)) (CRead (signal_fd t) MAX_SIGNAL_LEN)) l).
Proof.
  unfold waitOnSignal. revert fuel t.
  induction noise as [|m noise IH]; intros fuel t Hans Hn Ha Hm Hf;
    (destruct fuel as [|fuel]; [simpl in Hf; lia|]); cbn [while_].
  - erewrite (bind_Ok (ret true)) by done. cbv beta iota.
    erewrite bind_Ok by (apply wait_turn_run; done). by rewrite Hm.
  - apply Forall_cons in Hn as [[Hpos Hno] Hn].
    erewrite (bind_Ok (ret true)) by done. cbv beta iota.
    erewrite bind_Ok by (apply wait_turn_run; [exact Hans|done]). rewrite Hno. cbn [negb].
    rewrite IH; [|done..|simpl in Hf; lia].
    unfold after. destruct t as [? ? ? ? ? ? ? ? ? ? ? []]. simpl. by rewrite <-app_assoc.
Qed.

(** The state after a failure id has been given out. *)
Definition with_fails (f : failures → failures) t : tool iset := set_fails (f (fails t)) t.
(** The id that the next failure point gets is wanted. *)
Definition wanted t : bool :=
  negb (failure_list_enable (sett t)
        && negb (bool_decide (cur_failure_id (fails t) + 1 ∈ failure_map (fails t)))).
Definition in_roi t (tid : Z) : bool :=
  (tid =? roi_tid (roi_tracker t)) && roi_tid_set (roi_tracker t).

Lemma addFailurePoint_unfold fuel ip name tid t :
  cur_failure_id (fails t) < INT_MAX →
  addFailurePoint pads fuel ip name tid t
  = when (in_roi t tid && wanted t)
      (if bool_decide (name = "_skip_failure_point_begin"%string) then switch_skip true tid
       else if bool_decide (name = "_skip_failure_point_end"%string) then switch_skip false tid
       else inject pads fuel ip tid) (with_fails bump_id t).
Proof.
  intros Hid. unfold addFailurePoint. erewrite (bind_Ok (gets fails)) by done.
  rewrite (proj2 (Z.eqb_neq (cur_failure_id (fails t)) INT_MAX)) by lia.
  erewrite (bind_Ok (when false _)) by done.
  erewrite (bind_Ok (upd_fails _)) by done.
  erewrite (bind_Ok (isInRoI tid)) by done.
  change ((tid =? roi_tid (roi_tracker (set_fails (bump_id (fails t)) t))) &&
          roi_tid_set (roi_tracker (set_fails (bump_id (fails t)) t))) with (in_roi t tid).
  destruct (in_roi t tid); [|done]. unfold when at 1. cbn [andb].
  erewrite (bind_Ok (gets sett)), (bind_Ok (gets fails)) by done. done.
Qed.

(** A failure point outside the region of interest, or whose number is not on
    the list when there is one, does nothing but count: nothing is sent and no
    thread is stopped. *)
Theorem failure_point_ignored fuel ip name tid t :
  cur_failure_id (fails t) < INT_MAX → in_roi t tid && wanted t = false →
  addFailurePoint pads fuel ip name tid t = Ok tt (with_fails bump_id t).
Proof using Type. intros Hid Hno. rewrite addFailurePoint_unfold by done. by rewrite Hno. Qed.

(** C19. A failure point in the region of interest whose number is wanted, at a function
    that is not one of the two [_skip_failure_point] annotations: the tool stops the
    threads, sends the end of the trace with the place of the failure, reads messages
    until the first one that [matches] and lets the threads go, with the messages
    after it left.  A message matches if it is not empty and, without its last byte,
    compares equal to the signal up to its length.  So the message that
    [pin_continue_send] writes does, and so does every message of one byte.  Whether
    the program has asked to skip failure points makes no difference. *)
Theorem failure_point_injected fuel ip name tid t noise msg l :
  cur_failure_id (fails t) < INT_MAX → failure_point_count (fails t) < INT_MAX →
  in_roi t tid = true → wanted t = true → fifo_enable (sett t) = true →
  0 ≤ tid < Z.of_nat MAX_THREADS → is_addr ip →
  name ≠ "_skip_failure_point_begin"%string → name ≠ "_skip_failure_point_end"%string →
  answers (tsys t) = ack :: noise ++ msg :: l → matches PIN_CONTINUE_SIGNAL msg = true →
  Forall (λ m, 0 ≤ ans_ret m ∧ matches PIN_CONTINUE_SIGNAL m = false) noise →
  (length noise < fuel)%nat →
  ∃ bytes, decode_entry bytes = TraceEntry TRACE_END false tid 0 0 0 ip 0 ∧
    addFailurePoint pads fuel ip name tid t
    = Ok tt (after (with_fails (bump_points ∘ bump_id) t)
               ([CStopThreads tid; CWriteBytes (trace_fd t) bytes] ++
                replicate (S (length noise)) (CRead (signal_fd t) MAX_SIGNAL_LEN) ++
                [CResumeThreads tid]) l) ∧
    matches PIN_CONTINUE_SIGNAL continue_message = true ∧
    ∀ m, ans_ret m = 1 → matches PIN_CONTINUE_SIGNAL m = true.
Proof using pads_ok.
  intros Hid Hcnt Hroi Hw Hf Ht Hip Hn1 Hn2 Hans Hmsg Hnoise Hfuel.
  assert (0 ≤ ans_ret msg) as Hret by (unfold matches in Hmsg; apply andb_true_iff in Hmsg; lia).
  rewrite addFailurePoint_unfold, Hroi, Hw by done. cbn [andb when].
  rewrite !bool_decide_false by done. unfold inject.
  set (t1 := with_fails bump_id t). set (t2 := after t1 [CStopThreads tid] (answers (tsys t))).
  erewrite (bind_Ok _ _ t1 tt t2) by done. erewrite (bind_Ok (gets fails)) by done.
  rewrite (proj2 (Z.eqb_neq (failure_point_count (fails t2)) INT_MAX)) by (simpl; lia).
  erewrite (bind_Ok (when false _)) by done.
  set (t3 := with_fails bump_points t2). erewrite (bind_Ok _ _ t2 tt t3) by done.
  set (e := TraceEntry TRACE_END false (s32 tid) 0 0 0 ip 0).
  set (bytes := encode_entry (pads t3).1.1 (pads t3).1.2 (pads t3).2 e).
  exists bytes. split.
  { rewrite <-(app_nil_r bytes). destruct (pads_ok t3) as (?&?&?). unfold bytes.
    change (Z.of_nat MAX_THREADS) with 32 in Ht.
    rewrite decode_encode; [|done..|unfold e; rewrite s32_small by lia; by apply plain_entry_wf; auto].
    unfold e. by rewrite s32_small by lia. }
  split; [|split; [done|intros m Hm; unfold matches; by rewrite Hm]].
  set (t4 := after t3 [CWriteBytes (trace_fd t) bytes] (noise ++ msg :: l)).
  rewrite (bind_Ok (send pads e) _ t3 tt t4).
  2: { by rewrite (send_run _ e t3 (noise ++ msg :: l)). }
  erewrite bind_Ok by (apply (waitOnSignal_run _ _ noise msg l); done).
  unfold on_tsys, zoom, emit, modify, after, t4, t3, t2, t1, with_fails. simpl.
  by rewrite <-!app_assoc.
Qed.

(** ** Annotations that are not instrumented *)

(** A region without detection is never announced: neither run attaches a
    call to [_skipDetectionBegin] or [_skipDetectionEnd], although [RoIHandler]
    would send the entry for them and the detector would act on it. *)
Theorem skip_detection_never_sent fuel regs p ev t :
  regs = regs_pre ∨ regs = regs_post → ready t →
  ev_rtn ev = "_skipDetectionBegin"%string ∨ ev_rtn ev = "_skipDetectionEnd"%string →
  on_routine fuel pads regs p ev t = Ok tt t.
Proof using Type.
  intros Hregs Hr Hn. rewrite on_routine_ready by done.
  rewrite calls_other; [done|done|..]; destruct Hn as [-> | ->]; try done;
    apply (bool_decide_unpack _); vm_compute; exact I.
Qed.

(** ** The start of the tool *)

(** The knobs that the detector's command lines set. *)
Definition pre_knobs (id : string) : knobs := Knobs EmptyString EmptyString "1" EmptyString "1" id.
Definition post_knobs (id : string) : knobs := Knobs "out" "1" EmptyString EmptyString "1" id.

Lemma pm_func_init_run t :
  pm_functions t = ∅ → failure_point_funcs t = ∅ →
  pm_func_init t = Ok tt (set_tables pm_table (list_to_set failure_point_funcs_array) t).
Proof.
  intros H1 H2. destruct t as [a m f b c d e g h i j k]. simpl in H1, H2. subst. reflexivity.
Qed.

Lemma pinfifo_init_run (post : bool) t fd l :
  answers (tsys t) = int_answer fd :: l → 0 ≤ fd →
  pinfifo_init (if post then POST_FAILURE else PRE_FAILURE) t
  = Ok tt (set_tool_fds fd (signal_fd t) (after t
      [COpen (tool_fifo_name (if post then POST_FAILURE_FIFO else PRE_FAILURE_FIFO)
                (execIDStr (sett t))) true] l)).
Proof.
  intros Ha Hfd. unfold pinfifo_init, pinfifo_open. unfold bind at 1, gets at 1.
  rewrite (bind_Ok _ _ t fd (set_tool_fds fd (signal_fd t) (after t
      [COpen (tool_fifo_name (if post then POST_FAILURE_FIFO else PRE_FAILURE_FIFO)
                (execIDStr (sett t))) true] l))).
  - by rewrite (proj2 (Z.ltb_ge fd 0)).
  - unfold bind, on_tsys, zoom, sys_int, sys, bind. rewrite Ha. simpl.
    rewrite (proj2 (Z.ltb_ge fd 0)) by done. by destruct post.
Qed.
Lemma signalfifo_init_run t fd l :
  answers (tsys t) = int_answer fd :: l → 0 ≤ fd →
  signalfifo_init t
  = Ok tt (set_tool_fds (trace_fd t) fd (after t
      [COpen (tool_fifo_name SIGNAL_FIFO (execIDStr (sett t))) true] l)).
Proof.
  intros Ha Hfd. unfold signalfifo_init, signalfifo_open.
  unfold bind, gets, on_tsys, zoom, sys_int, sys, bind. rewrite Ha. simpl.
  rewrite (proj2 (Z.ltb_ge fd 0)) by done. simpl. by rewrite (proj2 (Z.ltb_ge fd 0)).
Qed.

(** C17. The two programs meet.  The detector makes the FIFOs of an execution with
    [fifo_create], and starts the tool with the knobs of its command lines.  For a number
    that is not negative, and when Pin starts, both FIFOs open and the backtrace file
    opens: both runs of the tool open, for reading and writing, the very FIFOs that
    [fifo_create] made for the number; the pre-failure run injects failure points and
    does not track loads, the post-failure run tracks loads and injects none; and both
    have their tables and instrumentation in place ([ready]). *)
Theorem tool_starts fuel id (post : bool) fd1 fd2 out l :
  0 ≤ id → 0 ≤ fd1 → 0 ≤ fd2 → out ≠ 0 →
  let k := (if post then post_knobs else pre_knobs) (pretty id) in
  ∃ t, tool_main fuel true k (tool0 (Os (int_answer fd1 :: int_answer fd2 :: int_answer out :: l) []))
       = Ok (Some (if post then regs_post else regs_pre)) t ∧
    ready (iset:=iset) t ∧ trace_fd t = fd1 ∧ signal_fd t = fd2 ∧
    read_enable (sett t) = post ∧ failure_enable (sett t) = negb post ∧
    stage (sett t) = (if post then POST_FAILURE else PRE_FAILURE) ∧
    take 2 (calls (tsys t))
    = [COpen (fifo_name (if post then POST_FAILURE_FIFO else PRE_FAILURE_FIFO) id) true;
       COpen (fifo_name SIGNAL_FIFO id) true] ∧
    answers (tsys t) = l.
Proof using Type.
  intros Hid H1 H2 Hout k. unfold tool_main.
  erewrite bind_Ok by (by apply pm_func_init_run). cbn [negb].
  assert (∀ name, tool_fifo_name name (pretty id) = fifo_name name id) as Hname.
  { intros name. unfold fifo_name. by rewrite (proj2 (Z.leb_le 0 id)). }
  erewrite (bind_Ok (modify _)), (bind_Ok (gets sett)) by done.
  assert (stage (apply_knobs k) = if post then POST_FAILURE else PRE_FAILURE) as Hst
    by (by destruct post).
  cbn [sett set_sett]. rewrite Hst.
  erewrite bind_Ok by (by apply pinfifo_init_run).
  erewrite bind_Ok by (by apply signalfifo_init_run).
  cbn [sett set_sett set_tool_fds after set_tsys].
  replace (failure_enable (apply_knobs k) && failure_list_enable (apply_knobs k)) with false
    by (by destruct post). erewrite (bind_Ok (when false _)) by done.
  erewrite (bind_Ok (on_tsys (emit _))) by done.
  unfold bind, on_tsys, zoom, sys_int, sys, bind. simpl.
  rewrite (proj2 (Z.eqb_neq out 0)) by done. destruct post; eexists; (split; [reflexivity|]);
    (split; [split; [reflexivity|]; split; reflexivity|]);
    do 5 (split; [reflexivity|]); (split; [|reflexivity]);
    rewrite <-!Hname; reflexivity.
Qed.
End control.
