(* ===== verification/Interface.v ===== *)
(** * The annotations of the program under test

    [src/xfdetector/src/xfdetector_interface.c]: the library a program links to
    mark its regions of interest, commit variables and the end of the test.  Its
    functions do little themselves: they call empty functions whose names the
    Pin tool watches.  [hooks] are these calls, in order; [replay] is what the
    tool makes of them. *)
From stdpp Require Import base list strings gmap pretty.
From S2P Require Import Prelude Os Strings Trace Wire Icl ShadowPM SegList Frontend.
From S2P Require Import Pintool Instrument PinRun PinFacts PinControl.
Open Scope Z_scope.

(** ** State: the variables of a thread *)

Record annotations := Annotations {
  tracing : bool;                        (** [trace_status == TRACING] *)
  skipping : bool;                       (** [xfdetector_failure_skip_status == SKIP] *)
  completed : bool;                      (** [has_completed == COMPLETE] *)
  additional_failure_point_count : Z;
  hooks : list (string * list Z);
}.
Definition annotations0 : annotations := Annotations false false false 0 [].

Definition set_tracing (b : bool) (s : annotations) : annotations :=
  Annotations b (skipping s) (completed s) (additional_failure_point_count s) (hooks s).
Definition set_skipping (b : bool) (s : annotations) : annotations :=
  Annotations (tracing s) b (completed s) (additional_failure_point_count s) (hooks s).
Definition set_completed (b : bool) (s : annotations) : annotations :=
  Annotations (tracing s) (skipping s) b (additional_failure_point_count s) (hooks s).
Definition set_additional (n : Z) (s : annotations) : annotations :=
  Annotations (tracing s) (skipping s) (completed s) n (hooks s).

Abbreviation Ann := (M annotations).
(** The call of an internal function, as Pin sees it. *)
Definition hook (name : string) (args : list Z) : Ann unit := modify (λ s,
  Annotations (tracing s) (skipping s) (completed s) (additional_failure_point_count s)
    (hooks s ++ [(name, args)])).

(** ** Internal functions *)

Definition _roi_pre_begin : Ann unit :=
  hook "_roi_pre_begin" [] ;;
  let! t := gets tracing in
  assert_ (negb t) "Error: XFDetector has already started tracing, canont start RoI again".
Definition _roi_pre_end : Ann unit :=
  hook "_roi_pre_end" [] ;;
  let! t := gets tracing in
  assert_ t "Error: XFDetector has not started tracing, cannot end RoI".
Definition _roi_post_begin : Ann unit :=
  hook "_roi_post_begin" [] ;;
  let! t := gets tracing in
  assert_ (negb t) "Error: XFDetector has already started tracing, canont start RoI again".
Definition _roi_post_end : Ann unit :=
  hook "_roi_post_end" [] ;;
  let! t := gets tracing in
  assert_ t "Error: XFDetector has not started tracing, cannot end RoI".
Definition _skip_failure_point_begin : Ann unit :=
  hook "_skip_failure_point_begin" [] ;; modify (set_skipping true).
Definition _skip_failure_point_end : Ann unit :=
  hook "_skip_failure_point_end" [] ;; modify (set_skipping false).
Definition _add_failure_point : Ann unit :=
  hook "_add_failure_point" [] ;;
  modify (λ s, set_additional (u32 (additional_failure_point_count s + 1)) s).
Definition _testing_pre_complete : Ann unit := hook "_testing_pre_complete" [].
Definition _testing_post_complete : Ann unit := hook "_testing_post_complete" [].
Definition _skipDetectionBegin : Ann unit := hook "_skipDetectionBegin" [].
Definition _skipDetectionEnd : Ann unit := hook "_skipDetectionEnd" [].
Definition _add_commit_var (variable size : Z) : Ann unit :=
  hook "_add_commit_var" [variable; size] ;;
  assert_ (nonzero variable) "Cannot register a NULL variable" ;;
  assert_ (size <=? 64) "Cannot commit with a variable larger than one cache line".

(** ** User interface functions *)

Definition assert_incomplete : Ann unit :=
  let! c := gets completed in assert_ (negb c) "Error: Testing has completed already".
(** The pre-failure function, the post-failure function or both. *)
Definition for_stage (stage : Z) (pre post : Ann unit) : Ann unit :=
  if stage =? PRE_FAILURE then pre
  else if stage =? POST_FAILURE then post
  else if stage =? Z.lor PRE_FAILURE POST_FAILURE then pre ;; post
  else assert_ false "Invalid stage".

Definition XFDetector_RoIBegin (condition stage : Z) : Ann unit :=
  assert_incomplete ;;
  when (nonzero condition) (for_stage stage _roi_pre_begin _roi_post_begin) ;;
  modify (set_tracing true).
Definition XFDetector_RoIEnd (condition stage : Z) : Ann unit :=
  assert_incomplete ;;
  when (nonzero condition) (for_stage stage _roi_pre_end _roi_post_end) ;;
  modify (set_tracing false).
Definition XFDetector_addFailurePoint (condition : Z) : Ann unit :=
  assert_incomplete ;; when (nonzero condition) _add_failure_point.
Definition XFDetector_skipFailureBegin (condition : Z) : Ann unit :=
  assert_incomplete ;; when (nonzero condition) _skip_failure_point_begin.
Definition XFDetector_skipFailureEnd (condition : Z) : Ann unit :=
  assert_incomplete ;; when (nonzero condition) _skip_failure_point_end.

(** [post_env]: the environment has a variable [POST_FAILURE]. *)
Definition cur_stage (post_env : bool) : Z := if post_env then POST_FAILURE else PRE_FAILURE.
Definition XFDetector_complete (post_env : bool) (condition stage : Z) : Ann unit :=
  assert_incomplete ;;
  when (nonzero condition)
    (for_stage stage _testing_pre_complete _testing_post_complete ;;
     when (nonzero (Z.land (cur_stage post_env) stage))
       (modify (set_completed true) ;; stop (Exited 0))).
Definition XFDetector_addCommitVar (variable size : Z) : Ann unit := _add_commit_var variable size.
Definition skipDetectionBegin (post_env : bool) (condition stage : Z) : Ann unit :=
  when (nonzero condition && nonzero (Z.land (cur_stage post_env) stage)) _skipDetectionBegin.
Definition skipDetectionEnd (post_env : bool) (condition stage : Z) : Ann unit :=
  when (nonzero condition && nonzero (Z.land (cur_stage post_env) stage)) _skipDetectionEnd.

(** ** What the tool makes of them *)

Definition hook_event (tid : Z) (h : string * list Z) : event :=
  Event h.1 0 tid h.2 0 0 (λ _, 0) 0 0 (λ _, 0).

Section replay.
Context {iset : Type} {IS : IntervalSet iset}.
Context (fuel : nat) (pads : tool iset → list Z * list Z * list Z).
Context (pads_ok : ∀ t, length (pads t).1.1 = 3%nat ∧ length (pads t).1.2 = 4%nat ∧
                        length (pads t).2 = 4%nat).
Implicit Types (t : tool iset).

Definition replay (regs : list registration) (tid : Z) (l : list (string * list Z))
    : M (tool iset) unit :=
  for_each l (λ h, on_routine fuel pads regs IPOINT_BEFORE (hook_event tid h)).

(** The registrations of the run a tool is in. *)
Definition regs_of t : list registration :=
  if stage (sett t) =? PRE_FAILURE then regs_pre else regs_post.
Definition stage_ok t : Prop := stage (sett t) = PRE_FAILURE ∨ stage (sett t) = POST_FAILURE.

Lemma roi_hook t tid name :
  ready t → stage_ok t → name ∈ roi_functions →
  on_routine fuel pads (regs_of t) IPOINT_BEFORE (hook_event tid (name, [])) t
  = (RoIHandler pads name tid ;; ret tt) t.
Proof.
  intros Hr Hst Hin. rewrite on_routine_ready by done.
  assert (calls_at (regs_of t) IPOINT_BEFORE name
    = [Insert IPOINT_BEFORE F_RoIHandler [IARG_RTN_NAME; IARG_THREAD_ID]]) as Hc.
  { assert (∀ regs, regs = regs_pre ∨ regs = regs_post →
      Forall (λ name, calls_at (iset:=iset) regs IPOINT_BEFORE name
        = [Insert IPOINT_BEFORE F_RoIHandler [IARG_RTN_NAME; IARG_THREAD_ID]]) roi_functions) as H.
    { intros regs [-> | ->]; apply (bool_decide_unpack _); vm_compute; exact I. }
    assert (regs_of t = regs_pre ∨ regs_of t = regs_post) as Hregs.
    { unfold regs_of. case_match; auto. }
    specialize (H _ Hregs). rewrite Forall_forall in H. by apply H. }
  cbn [ev_rtn hook_event fst]. rewrite Hc. reflexivity.
Qed.

(** The handlers of the two ends of a region, in a run that they are for and in
    one that they are not for. *)
Definition begin_name (post : bool) : string :=
  if post then "_roi_post_begin" else "_roi_pre_begin".
Definition end_name (post : bool) : string := if post then "_roi_post_end" else "_roi_pre_end".
Lemma RoIHandler_begin post tid t :
  stage_ok t →
  RoIHandler pads (begin_name post) tid t
  = Ok tt (if (stage (sett t) =? cur_stage post) && negb (roi_tid_set (roi_tracker t))
           then set_roi (RoI tid true) t else t).
Proof.
  intros Hst. unfold RoIHandler. unfold bind at 1, gets at 1.
  destruct Hst as [-> | ->], post; cbn -[trySetRoIThread]; try done;
    rewrite bool_decide_true by done; unfold bind, trySetRoIThread, bind, gets;
    by destruct (roi_tid_set (roi_tracker t)).
Qed.
Lemma RoIHandler_end post tid t :
  stage_ok t → (stage (sett t) = cur_stage post → in_roi t tid = true) →
  RoIHandler pads (end_name post) tid t
  = Ok tt (if stage (sett t) =? cur_stage post then set_roi (RoI tid false) t else t).
Proof.
  intros Hst Hroi.
  assert (in_roi t tid = true → unsetRoIThread tid t = Ok tt (set_roi (RoI tid false) t)) as Hun.
  { unfold in_roi. intros [Ht Hset]%andb_true_iff. apply Z.eqb_eq in Ht.
    unfold unsetRoIThread, bind, gets. rewrite <-Ht, Z.eqb_refl. simpl. by rewrite Hset. }
  unfold RoIHandler. unfold bind at 1, gets at 1.
  destruct Hst as [E|E], post; rewrite E in *; (exact (Hun (Hroi eq_refl)) || reflexivity).
Qed.
(** The functions that a stage argument selects. *)
Definition stages (st : Z) : list bool :=
  (if Z.land st PRE_FAILURE =? 0 then [] else [false]) ++
  (if Z.land st POST_FAILURE =? 0 then [] else [true]).
Definition stage_arg (st : Z) : Prop := st = 1 ∨ st = 2 ∨ st = 3.
Lemma RoIBegin_run cond st s :
  nonzero cond = true → stage_arg st → tracing s = false → completed s = false →
  XFDetector_RoIBegin cond st s
  = Ok tt (Annotations true (skipping s) false (additional_failure_point_count s)
             (hooks s ++ map (λ p, (begin_name p, [])) (stages st))).
Proof.
  intros Hc Hst Ht Hd. destruct s as [tr sk co n h]. simpl in Ht, Hd. subst tr co.
  unfold XFDetector_RoIBegin. unfold for_stage.
  change (Z.lor PRE_FAILURE POST_FAILURE) with 3. unfold bind at 1, bind at 1. cbn. rewrite Hc.
  destruct Hst as [->|[->| ->]]; cbn; rewrite <-?app_assoc; reflexivity.
Qed.
Lemma RoIEnd_run cond st s :
  nonzero cond = true → stage_arg st → tracing s = true → completed s = false →
  XFDetector_RoIEnd cond st s
  = Ok tt (Annotations false (skipping s) false (additional_failure_point_count s)
             (hooks s ++ map (λ p, (end_name p, [])) (stages st))).
Proof.
  intros Hc Hst Ht Hd. destruct s as [tr sk co n h]. simpl in Ht, Hd. subst tr co.
  unfold XFDetector_RoIEnd. unfold for_stage.
  change (Z.lor PRE_FAILURE POST_FAILURE) with 3. unfold bind at 1, bind at 1. cbn. rewrite Hc.
  destruct Hst as [->|[->| ->]]; cbn; rewrite <-?app_assoc; reflexivity.
Qed.

Lemma replay_cons regs tid h l t t' :
  on_routine fuel pads regs IPOINT_BEFORE (hook_event tid h) t = Ok tt t' →
  replay regs tid (h :: l) t = replay regs tid l t'.
Proof. intros H. unfold replay. cbn [for_each]. by rewrite (bind_Ok _ _ _ _ _ H). Qed.
Lemma begin_hook post tid t :
  ready t → stage_ok t →
  on_routine fuel pads (regs_of t) IPOINT_BEFORE (hook_event tid (begin_name post, [])) t
  = Ok tt (if (stage (sett t) =? cur_stage post) && negb (roi_tid_set (roi_tracker t))
           then set_roi (RoI tid true) t else t).
Proof.
  intros Hr Hst. rewrite roi_hook; [|done..|destruct post; apply (bool_decide_unpack _); done].
  by rewrite (bind_Ok _ _ _ _ _ (RoIHandler_begin post tid t Hst)).
Qed.
Lemma end_hook post tid t :
  ready t → stage_ok t → (stage (sett t) = cur_stage post → in_roi t tid = true) →
  on_routine fuel pads (regs_of t) IPOINT_BEFORE (hook_event tid (end_name post, [])) t
  = Ok tt (if stage (sett t) =? cur_stage post then set_roi (RoI tid false) t else t).
Proof.
  intros Hr Hst Hin. rewrite roi_hook; [|done..|destruct post; apply (bool_decide_unpack _); done].
  by rewrite (bind_Ok _ _ _ _ _ (RoIHandler_end post tid t Hst Hin)).
Qed.

(** The region is for the run that the tool is in. *)
Definition for_run t (st : Z) : bool := nonzero (Z.land (stage (sett t)) st).
Lemma replay_begin st tid t :
  stage_arg st → ready t → stage_ok t → roi_tid_set (roi_tracker t) = false →
  replay (regs_of t) tid (map (λ p, (begin_name p, [])) (stages st)) t
  = Ok tt (if for_run t st then set_roi (RoI tid true) t else t).
Proof.
  intros Hst Hr Hok Hset. pose proof (begin_hook false tid t Hr Hok) as H1.
  pose proof (begin_hook true tid t Hr Hok) as H2.
  pose proof (begin_hook true tid (set_roi (RoI tid true) t) Hr Hok) as H3.
  unfold for_run. rewrite Hset in H1, H2.
  destruct Hst as [->|[->| ->]], Hok as [E|E]; rewrite E in *;
    try change (stages 1) with [false]; try change (stages 2) with [true];
    try change (stages 3) with [false; true]; cbn [map]; rewrite ?Hset in *; cbn in H1, H2, H3;
    rewrite andb_false_r in H3.
  all: erewrite replay_cons by (exact H1 || exact H2); try reflexivity.
  all: erewrite replay_cons by (exact H2 || exact H3); reflexivity.
Qed.
Lemma replay_end st tid t :
  stage_arg st → ready t → stage_ok t → (for_run t st = true → in_roi t tid = true) →
  replay (regs_of t) tid (map (λ p, (end_name p, [])) (stages st)) t
  = Ok tt (if for_run t st then set_roi (RoI tid false) t else t).
Proof.
  intros Hst Hr Hok Hin. unfold for_run in *.
  pose proof (end_hook false tid t Hr Hok) as H1. pose proof (end_hook true tid t Hr Hok) as H2.
  pose proof (end_hook true tid (set_roi (RoI tid false) t) Hr Hok) as H3. cbn in H3.
  destruct Hst as [->|[->| ->]], Hok as [E|E]; rewrite E in *;
    try change (stages 1) with [false]; try change (stages 2) with [true];
    try change (stages 3) with [false; true]; cbn [map]; cbn in H1, H2, H3.
  all: erewrite replay_cons by (first [apply H1|apply H2]; first [done|intros _; by apply Hin]);
    try reflexivity.
  all: erewrite replay_cons by (first [apply H2|apply H3]; first [done|intros _; by apply Hin]);
    reflexivity.
Qed.

(** ** Properties *)

(** C24. A region of interest, from the annotation in the program to the tool: a
    thread that begins a region for the pre-failure run, the post-failure run or
    both, and ends it, is inside the region, for the tool, from the one call to
    the other exactly in the runs that the annotation names, and outside before
    and after. *)
Theorem roi_annotation cond st tid s t :
  nonzero cond = true → stage_arg st → tracing s = false → completed s = false → hooks s = [] →
  ready t → stage_ok t → roi_tid_set (roi_tracker t) = false →
  ∃ s1 t1 s2 t2,
    XFDetector_RoIBegin cond st s = Ok tt s1 ∧ replay (regs_of t) tid (hooks s1) t = Ok tt t1 ∧
    in_roi t1 tid = for_run t st ∧
    XFDetector_RoIEnd cond st s1 = Ok tt s2 ∧
    replay (regs_of t) tid (drop (length (hooks s1)) (hooks s2)) t1 = Ok tt t2 ∧
    in_roi t2 tid = false ∧ tracing s2 = false ∧ calls (tsys t2) = calls (tsys t).
Proof using Type.
  intros Hc Hst Ht Hd Hh Hr Hok Hset.
  eexists _, _, _, _. split; [by apply RoIBegin_run|]. cbn [hooks]. rewrite Hh. cbn [app].
  split; [by apply replay_begin|]. split.
  { unfold in_roi. destruct (for_run t st); simpl; [by rewrite Z.eqb_refl|].
    by rewrite Hset, andb_false_r. }
  split; [by apply RoIEnd_run|]. cbn [hooks]. rewrite drop_app_length.
  assert (∀ b : bool, regs_of (if b then set_roi (RoI tid true) t else t) = regs_of t) as Hregs
    by (by intros []).
  split; [rewrite <-(Hregs (for_run t st)); apply replay_end; [done|..]|].
  - by destruct (for_run t st).
  - by destruct (for_run t st).
  - unfold in_roi. destruct (for_run t st) eqn:E; intros H; [simpl; by rewrite Z.eqb_refl|congruence].
  - assert (∀ b : bool, for_run (if b then set_roi (RoI tid true) t else t) st = for_run t st) as ->
      by (by intros []).
    unfold in_roi. destruct (for_run t st); simpl; rewrite ?Hset, ?andb_false_r; by repeat split.
Qed.
End replay.

(** A region whose condition is false still counts as begun for the library:
    no function is called, so the tool traces nothing, but the next region with
    a true condition fails the assertion that tracing has not started. *)
Theorem roi_condition_zero cond st st' s :
  nonzero cond = true → stage_arg st' → completed s = false →
  ∃ s1 what s2, XFDetector_RoIBegin 0 st s = Ok tt s1 ∧ hooks s1 = hooks s ∧
    XFDetector_RoIBegin cond st' s1 = Abort (AssertFailed what) s2.
Proof.
  intros Hc Hst Hd. destruct s as [tr sk co n h]. simpl in Hd. subst co.
  destruct Hst as [->|[->| ->]]; eexists _, _, _; (split; [reflexivity|]); (split; [reflexivity|]).
  all: unfold XFDetector_RoIBegin, for_stage; change (Z.lor PRE_FAILURE POST_FAILURE) with 3;
    unfold bind at 1, bind at 1; cbn; rewrite Hc; cbn; reflexivity.
Qed.

(** The end of the test: a call with a true condition ends the program, with
    code 0, exactly when its stage names the run the environment says the
    program is in, and before that calls the functions of all the runs it names;
    an invalid stage fails an assertion and a false condition does nothing. *)
Theorem complete_annotation post_env cond st s :
  completed s = false →
  XFDetector_complete post_env cond st s
  = if negb (nonzero cond) then Ok tt s
    else if bool_decide (stage_arg st) then
      let s' := Annotations (tracing s) (skipping s)
        (nonzero (Z.land (cur_stage post_env) st)) (additional_failure_point_count s)
        (hooks s ++ map (λ post : bool, ((if post then "_testing_post_complete"
                                          else "_testing_pre_complete")%string, [])) (stages st)) in
      if nonzero (Z.land (cur_stage post_env) st) then Abort (Exited 0) s' else Ok tt s'
    else Abort (AssertFailed "Invalid stage") s.
Proof.
  intros Hd. destruct s as [tr sk co n h]. simpl in Hd. subst co.
  unfold XFDetector_complete. unfold bind at 1, bind at 1. cbn -[for_stage nonzero Z.land stages].
  destruct (nonzero cond); [|reflexivity]. cbn -[for_stage nonzero Z.land stages].
  unfold for_stage. change (Z.lor PRE_FAILURE POST_FAILURE) with 3.
  case_bool_decide as Hst.
  - destruct Hst as [->|[->| ->]], post_env; cbn; rewrite <-?app_assoc; reflexivity.
  - unfold stage_arg in Hst. unfold PRE_FAILURE, POST_FAILURE.
    rewrite (proj2 (Z.eqb_neq st 1)), (proj2 (Z.eqb_neq st 2)), (proj2 (Z.eqb_neq st 3)) by tauto.
    reflexivity.
Qed.
