(* ===== verification/Pipeline.v ===== *)
(** * From the program to the verdict

    The Pin tool and the detector together: the actions of a program, the entries
    the tool makes of them, and what the detector says about a read after a
    failure. *)
From stdpp Require Import base list strings gmap pretty.
From S2P Require Import Prelude Os Strings Trace Wire Icl ShadowPM ShadowFacts SegList Frontend.
From S2P Require Import Detector ByteSpec Refinement Scenarios ExecCtrl ExecFacts FrontendFacts Campaign.
From S2P Require Import Persistency Pintool Instrument PinRun PinFacts.
Open Scope Z_scope.

(** ** Programs that store, flush and fence *)

Definition flush_or_fence : list string :=
  ["predrain_memory_barrier"; "flush_clwb_nolog"; "flush_clflushopt_nolog";
   "flush_clflush_nolog"]%string.

(** Ranges do not run over the end of the address space, stores are not empty. *)
Definition action_ok (a : action) : Prop :=
  match a with
  | Access ins ev => event_ok ev ∧ 0 < ev_write_size ev ∧ ∀ k, ev_ea ev k + ev_write_size ev ≤ U64
  | Enter ev => event_ok ev ∧ call_ok ev ∧ ev_rtn ev ∈ flush_or_fence ∧ arg ev 0 + arg ev 1 ≤ U64
  | Leave _ => False
  end.
(** The entries of the pre-failure run, which does not track loads. *)
Definition action_entries (a : action) : list trace_entry_t :=
  match a with
  | Access ins ev => access_entries false ins ev
  | Enter ev => call_entries ev
  | Leave _ => []
  end.
Definition program_entries (acts : list action) : list trace_entry_t :=
  concat (map action_entries acts).

Lemma plain_entry op t src dst n ip nt :
  plain_op op = true → 0 ≤ t < Z.of_nat MAX_THREADS → 0 ≤ src → 0 ≤ dst → 0 ≤ n →
  src + n ≤ U64 → dst + n ≤ U64 → (op = WRITE → dst ≠ 0 ∧ n ≠ 0) → (op = CLWB → src ≠ 0) →
  (op = READ → src ≠ 0) → plain (TraceEntry op false t src dst n ip nt) = true.
Proof.
  intros Hop Ht Hs Hd Hn H1 H2 Hw Hc Hr. unfold plain, entry_okb, op_range, wf_rangeb, bad_range.
  cbn [operation func_ret tid src_addr dst_addr size]. destruct op; try done; cbn [plain_op negb andb];
    rewrite ?bool_decide_false by done; change (Z.of_nat MAX_THREADS) with 32 in *;
    try (cbn [andb]; lia).
  - specialize (Hr eq_refl). lia.
  - specialize (Hw eq_refl). rewrite bool_decide_true by done. lia.
  - specialize (Hc eq_refl). lia.
Qed.
Lemma action_plain a : action_ok a → forallb plain (action_entries a) = true.
Proof.
  destruct a as [ins ev|ev|ev]; simpl; [| |done].
  - intros ([Ht _ Hip _ Hea _ Hw]&Hpos&Hend). unfold access_entries. case_match; [done|].
    apply forallb_forall. intros e (l&Hl&He)%in_concat. apply list_elem_of_In in He, Hl.
    apply elem_of_lookup_imap in Hl as (k&op&->&_). simpl in He. destruct (is_written op); [|by apply elem_of_nil in He]. simpl in He.
    destruct (isPmemAddr _ _) eqn:Hpm; [|by apply elem_of_nil in He].
    apply list_elem_of_singleton in He as ->.
    specialize (Hea k). specialize (Hend k). unfold is_addr, isPmemAddr, PM_ADDR_BASE in *.
    apply plain_entry; try done; try lia.
  - intros (Hok&[_ Hfl]&Hin&Hend). pose proof (arg_addr ev 0 Hok). pose proof (arg_addr ev 1 Hok).
    pose proof (ok_tid _ Hok). unfold is_addr, flush_or_fence in *.
    rewrite !elem_of_cons, elem_of_nil in Hin. rewrite !elem_of_cons in Hfl. unfold call_entries.
    destruct Hin as [E|[E|[E|[E|[]]]]]; rewrite E in *.
    1: change (forallb plain [TraceEntry SFENCE false (ev_tid ev) 0 0 0 (ev_return_ip ev) 0] = true).
    2-4: change (forallb plain (if arg ev 1 =? 0 then [] else
           [TraceEntry CLWB false (ev_tid ev) (arg ev 0) 0 (arg ev 1) (ev_return_ip ev) 0]) = true);
         destruct (Z.eqb_spec (arg ev 1) 0); [done|].
    all: cbn [forallb]; rewrite plain_entry; try done; try lia; intros _; apply Hfl; tauto.
Qed.
Lemma program_plain acts : Forall action_ok acts → forallb plain (program_entries acts) = true.
Proof.
  unfold program_entries. induction 1 as [|a acts Ha _ IH]; [done|]. cbn [map concat].
  rewrite forallb_app, IH, action_plain by done. done.
Qed.

Section pipeline.
Context {iset : Type} {IS : IntervalSet iset}.
Context (fuel : nat) (pads : tool iset → list Z * list Z * list Z).
Context (pads_ok : ∀ t, length (pads t).1.1 = 3%nat ∧ length (pads t).1.2 = 4%nat ∧
                        length (pads t).2 = 4%nat).
Implicit Types (t : tool iset).

Lemma action_sends a t :
  ready t → read_enable (sett t) = false → action_ok a →
  sends (act fuel pads regs_pre a) (action_entries a) t.
Proof using pads_ok.
  intros Hr Hl. destruct a as [ins ev|ev|ev]; cbn [act action_ok action_entries]; [| |done].
  - intros (Hok&_). eapply sends_eq; [by apply access_sends; [|left|..]|].
    unfold tracks_loads. by rewrite Hl.
  - intros (Hok&Hcall&Hin&_). unfold flush_or_fence in Hin. rewrite !elem_of_cons, elem_of_nil in Hin.
    apply call_sends; try done; [by left|..]; destruct Hin as [->|[->|[->|[->|[]]]]]; try done;
      apply (bool_decide_unpack _); vm_compute; exact I.
Qed.
Lemma program_sends acts t :
  ready t → read_enable (sett t) = false → Forall action_ok acts →
  sends (for_each acts (act fuel pads regs_pre)) (program_entries acts) t.
Proof using pads_ok.
  intros Hr Hl Hok. revert t Hr Hl. induction Hok as [|a acts Ha _ IH]; intros t Hr Hl.
  { apply sends_ret. }
  unfold program_entries. cbn [map concat for_each]. apply sends_seq; [by apply action_sends|].
  intros t' Q. apply IH; [by eapply quiet_ready|]. destruct Q as (->&_). done.
Qed.

Section verdict.
Context {imap : Type → Type} {IM : IntervalMap imap} {dset : Type} {DS : IntervalSet dset}.
Context {IML : IntervalMapLaws imap} {ISL : IntervalSetLaws dset}.
Implicit Types (d : dstate imap dset).

(** C3. The tool end to end.  A program executes, under the Pin tool in its pre-failure
    run, which does not track loads, any sequence of instructions that access memory
    and of calls of the functions that flush and fence, and fails; ranges end in the
    address space and stores are not empty ([action_ok]), and the trace has at most
    [INT_MAX] fences.  The detector has seen no store before, and no thread is in the
    library or skips the detection; its commit variables are arbitrary.  The tool
    passes on exactly the stores to persistent memory, the flushes and the fences, in
    order.  Let then a thread that does not skip the detection read between 1 and
    65535 bytes at an address other than 0, within the address space.  The detector
    reports the read exactly if it is not wholly of commit variables and one of its
    bytes was stored or flushed and its last store or flush was not flushed and fenced,
    or was stored in the epoch of the last commit or later. *)
Theorem program_verdict acts t d l :
  ready t → read_enable (sett t) = false → Forall action_ok acts →
  sh_wf (shadow (mem d)) → fresh_bytes (abs (shadow (mem d))) →
  calm_threads (abs (shadow (mem d))) →
  let es := program_entries acts in
  fences es ≤ INT_MAX → answers (tsys t) = replicate (length es) ack ++ l →
  ∃ t' d1, for_each acts (act fuel pads regs_pre) t = Ok tt t' ∧
    received (trace_fd t) (calls (tsys t')) = received (trace_fd t) (calls (tsys t)) ++ es ∧
    update_all PRE_FAILURE es d = Ok tt d1 ∧
    ∀ g op, length g = MAX_THREADS → checked_read op (arr_ref g) →
    ∃ d2 ok, update_pm_status POST_FAILURE op (crashed g d1) = Ok tt d2 ∧
      bugs (reports (mem d2)) = (bugs (reports (mem d)) + if ok : bool then 0 else 1)%nat ∧
      (ok = true ↔
       read_safe (is_mem (commit_var_set_addr (shadow (mem d)))) es (src_addr op) (size op)).
Proof using pads_ok IML ISL.
  intros Hr Hl Hok Hwf Hf Hc es Hn Hans.
  destruct (program_sends acts t Hr Hl Hok l Hans) as (t'&Ht&_&_&Hrec).
  destruct (plain_crash d es) as (d1&Hd1&Hn1&Hread); [done..|by apply program_plain|done|].
  exists t', d1. split; [done|]. split; [done|]. split; [done|]. intros g op Hg Hop.
  destruct (Hread g op Hg Hop) as (d2&ok&Hd2&Hn2&Hiff). exists d2, ok.
  split; [done|]. split; [|done]. rewrite Hn2, Hn1. by destruct ok.
Qed.
End verdict.
End pipeline.
