(* ===== verification/PinInstances.v ===== *)
(** * The Pin tool's theorems at work

    The properties of the Pin tool and of the annotations applied to a concrete
    tool, program and run: the hypotheses hold there. *)
From stdpp Require Import base list strings gmap pretty.
From S2P Require Import Prelude Os Strings Trace Wire Icl ShadowPM ShadowFacts SegList Frontend.
From S2P Require Import Detector ByteSpec Refinement Scenarios ExecCtrl ExecFacts FrontendFacts Campaign.
From S2P Require Import Persistency Instances Pintool Instrument PinRun PinFacts PinControl.
From S2P Require Import Interface Pipeline.
Open Scope Z_scope.

(** Zero padding. *)
Definition zero_pads (t : tool seg_set) : list Z * list Z * list Z :=
  (replicate 3 0, replicate 4 0, replicate 4 0).
Lemma zero_pads_ok t :
  length (zero_pads t).1.1 = 3%nat ∧ length (zero_pads t).1.2 = 4%nat ∧
  length (zero_pads t).2 = 4%nat.
Proof. done. Qed.

(** The tool of a run, in the region of interest of thread 0, with answers to come. *)
Definition running (post : bool) (l : list answer) : tool seg_set :=
  set_tsys (Os l []) (set_roi (RoI 0 true)
    (set_sett (Settings post (negb post) false true "7" (cur_stage post))
       (set_tool_fds 5 6 tool_ready))).

(** A flush of 8 bytes, a fence and a store of 8 bytes. *)
Definition calls_of (name : string) (args : list Z) : event :=
  Event name 4198400 0 args 0 0 (λ _, 0) 0 0 (λ _, 0).
Definition flush_ev : event := calls_of "flush_clwb_nolog" [pm0; 8].
Definition fence_ev : event := calls_of "predrain_memory_barrier" [].
Definition store_ins : instruction :=
  Ins 4198500 "mov qword ptr [rax], rbx" [MemOp false true] true 42 "btree.c".
Definition store_ev (a : Z) : event :=
  Event EmptyString 0 0 [] 0 4198500 (λ _, a) 0 8 (λ _, 0).

Lemma calls_of_ok name args : Forall is_addr args → event_ok (calls_of name args).
Proof. intros H. split; cbn [calls_of ev_tid ev_return_ip ev_ip ev_args ev_ea ev_read_size ev_write_size]; try exact H;
  change (Z.of_nat MAX_THREADS) with 32; unfold is_addr, U64; intros; lia. Qed.
Lemma store_ev_ok a : is_addr a → event_ok (store_ev a).
Proof.
  intros H. split; cbn [store_ev ev_tid ev_return_ip ev_ip ev_args ev_ea ev_read_size ev_write_size];
    try (intros _; exact H); try apply Forall_nil_2;
    change (Z.of_nat MAX_THREADS) with 32; unfold is_addr, U64; lia.
Qed.
Lemma pm_args : Forall is_addr [pm0; 8].
Proof. repeat apply Forall_cons_2; [..|apply Forall_nil_2]; unfold is_addr; vm_compute; intuition discriminate. Qed.
Lemma flush_call_ok : call_ok flush_ev.
Proof.
  split; [|vm_compute; discriminate]. intros f Hf. vm_compute in Hf. injection Hf as <-. simpl. lia.
Qed.
Lemma fence_call_ok : call_ok fence_ev.
Proof.
  split; [|intros _ []; reflexivity]. intros f Hf. vm_compute in Hf. injection Hf as <-.
  simpl. lia.
Qed.

(** ** Entering functions, executing instructions *)

Lemma call_trace_witness : ∃ t',
  on_routine 0 zero_pads regs_pre IPOINT_BEFORE flush_ev (running false [ack]) = Ok tt t' ∧
  quiet (running false [ack]) t' ∧ answers (tsys t') = [] ∧
  received 5 (calls (tsys t')) = [TraceEntry CLWB false 0 pm0 0 8 4198400 0].
Proof.
  apply (call_trace 0 zero_pads zero_pads_ok regs_pre flush_ev (running false [ack]) []).
  - left. reflexivity.
  - done.
  - apply calls_of_ok, pm_args.
  - apply flush_call_ok.
  - apply (bool_decide_unpack _). vm_compute. exact I.
  - apply (bool_decide_unpack _). vm_compute. exact I.
  - discriminate.
  - discriminate.
  - reflexivity.
Defined.

Lemma access_trace_witness : ∃ t',
  on_instruction 0 zero_pads regs_pre store_ins (store_ev pm0) (running false [ack]) = Ok tt t' ∧
  quiet (running false [ack]) t' ∧ answers (tsys t') = [] ∧
  received 5 (calls (tsys t')) = [TraceEntry WRITE false 0 0 pm0 8 4198500 0].
Proof.
  apply (access_trace 0 zero_pads zero_pads_ok regs_pre store_ins (store_ev pm0)
           (running false [ack]) []).
  - left. reflexivity.
  - done.
  - apply store_ev_ok. unfold is_addr. vm_compute. intuition discriminate.
  - reflexivity.
Defined.

Lemma skip_detection_never_sent_witness :
  on_routine 0 zero_pads regs_pre IPOINT_BEFORE (calls_of "_skipDetectionBegin" []) (running false [])
  = Ok tt (running false []).
Proof.
  apply (skip_detection_never_sent zero_pads 0 regs_pre IPOINT_BEFORE); [by left|done|by left].
Defined.

(** ** Failure points *)

Lemma failure_point_ignored_witness :
  addFailurePoint zero_pads 3 4198600 "pmfuzz_inject_failure" 1 (running false [])
  = Ok tt (with_fails bump_id (running false [])).
Proof.
  apply (failure_point_ignored zero_pads 3 4198600 "pmfuzz_inject_failure" 1 (running false []));
    [reflexivity|reflexivity].
Defined.

(** A stray empty message comes before the detector's. *)
Lemma failure_point_injected_witness : ∃ bytes,
  decode_entry bytes = TraceEntry TRACE_END false 0 0 0 0 4198600 0 ∧
  addFailurePoint zero_pads 3 4198600 "pmfuzz_inject_failure" 0
    (running false [ack; Answer 0 []; continue_message])
  = Ok tt (after (with_fails (bump_points ∘ bump_id)
                    (running false [ack; Answer 0 []; continue_message]))
             [CStopThreads 0; CWriteBytes 5 bytes; CRead 6 MAX_SIGNAL_LEN; CRead 6 MAX_SIGNAL_LEN;
              CResumeThreads 0] []).
Proof.
  destruct (failure_point_injected zero_pads zero_pads_ok 3 4198600 "pmfuzz_inject_failure" 0
           (running false [ack; Answer 0 []; continue_message]) [Answer 0 []] continue_message []) as (bytes&H1&H2&_);
    [..|by exists bytes].
  all: try reflexivity; try discriminate.
  - vm_compute. intuition (discriminate || lia).
  - unfold is_addr, U64. lia.
  - apply Forall_cons_2; [split; [simpl; lia|reflexivity]|apply Forall_nil_2].
  - simpl. lia.
Defined.

(** ** The start of the tool *)

Lemma tool_starts_witness : ∃ t : tool seg_set,
  tool_main 10 true (post_knobs (pretty 7))
    (tool0 (Os [int_answer 5; int_answer 6; int_answer 9] [])) = Ok (Some regs_post) t ∧
  ready t ∧ trace_fd t = 5 ∧ signal_fd t = 6 ∧ read_enable (sett t) = true ∧
  failure_enable (sett t) = false ∧ stage (sett t) = POST_FAILURE ∧
  take 2 (calls (tsys t))
  = [COpen (fifo_name POST_FAILURE_FIFO 7) true; COpen (fifo_name SIGNAL_FIFO 7) true] ∧
  answers (tsys t) = [].
Proof. apply (tool_starts 10 7 true 5 6 9 []); lia. Defined.

(** ** Annotations *)

Definition outside : tool seg_set := set_roi (RoI 0 false) (running true []).

(** A region for both runs, in the post-failure run. *)
Lemma roi_annotation_witness : ∃ s1 t1 s2 t2,
  XFDetector_RoIBegin 1 3 annotations0 = Ok tt s1 ∧
  replay 0 zero_pads regs_post 0 (hooks s1) outside = Ok tt t1 ∧ in_roi t1 0 = true ∧
  XFDetector_RoIEnd 1 3 s1 = Ok tt s2 ∧
  replay 0 zero_pads regs_post 0 (drop (length (hooks s1)) (hooks s2)) t1 = Ok tt t2 ∧
  in_roi t2 0 = false ∧ tracing s2 = false ∧ calls (tsys t2) = [].
Proof.
  apply (roi_annotation 0 zero_pads 1 3 0 annotations0 outside); try done.
  - right. right. reflexivity.
  - right. reflexivity.
Defined.

Lemma roi_condition_zero_witness : ∃ s1 what s2,
  XFDetector_RoIBegin 0 1 annotations0 = Ok tt s1 ∧ hooks s1 = [] ∧
  XFDetector_RoIBegin 1 1 s1 = Abort (AssertFailed what) s2.
Proof. apply (roi_condition_zero 1 1 1 annotations0); [reflexivity|by left|reflexivity]. Defined.

Lemma complete_annotation_witness :
  XFDetector_complete true 1 3 annotations0
  = Abort (Exited 0) (Annotations false false true 0
      [("_testing_pre_complete", []); ("_testing_post_complete", [])]%string).
Proof. rewrite (complete_annotation true 1 3 annotations0 eq_refl). reflexivity. Defined.

(** ** The pipeline: one word stored, flushed and fenced, another one stored. *)

Definition program : list action :=
  [Access store_ins (store_ev pm0); Enter flush_ev; Enter fence_ev;
   Access store_ins (store_ev (pm0 + 64))].
Lemma program_ok : Forall action_ok program.
Proof.
  assert (∀ a, 0 ≤ a < U64 - 8 → action_ok (Access store_ins (store_ev a))) as Hst.
  { intros a Ha. split; [apply store_ev_ok; unfold is_addr; lia|]. split; [simpl; lia|].
    intros k. simpl. lia. }
  repeat apply Forall_cons_2; [..|apply Forall_nil_2].
  - apply Hst. vm_compute. intuition discriminate.
  - split; [apply calls_of_ok, pm_args|]. split; [apply flush_call_ok|].
    split; [|vm_compute; discriminate]. apply (bool_decide_unpack _). vm_compute. exact I.
  - split; [apply calls_of_ok, Forall_nil_2|]. split; [apply fence_call_ok|].
    split; [|vm_compute; discriminate]. apply (bool_decide_unpack _). vm_compute. exact I.
  - apply Hst. vm_compute. intuition discriminate.
Qed.

Lemma program_verdict_witness : ∃ t' d1,
  for_each program (act 0 zero_pads regs_pre) (running false [ack; ack; ack; ack]) = Ok tt t' ∧
  received 5 (calls (tsys t')) = program_entries program ∧
  update_all PRE_FAILURE (program_entries program) dstate0 = Ok tt d1 ∧
  ∀ g op, length g = MAX_THREADS → checked_read op (arr_ref g) →
  ∃ d2 ok, update_pm_status POST_FAILURE op (crashed g d1) = Ok tt d2 ∧
    bugs (reports (mem d2)) = (0 + if ok : bool then 0 else 1)%nat ∧
    (ok = true ↔ read_safe (is_mem (commit_var_set_addr shadow0)) (program_entries program)
                   (src_addr op) (size op)).
Proof.
  apply (program_verdict 0 zero_pads zero_pads_ok program (running false [ack; ack; ack; ack])
           dstate0 []).
  - done.
  - reflexivity.
  - apply program_ok.
  - vm_compute. tauto.
  - apply new_fresh.
  - apply new_calm.
  - vm_compute. discriminate.
  - reflexivity.
Defined.
