(* ===== verification/Ravl.v ===== *)
(** * RAVL trees

    [src/pmdk/src/libpmemobj/ravl.c]: the balanced search tree in which
    libpmemobj keeps the ranges of a transaction.  Nodes live in a heap and know
    their parent; a pointer is an integer, 0 is [NULL].  The data of a node are a
    value of any type: the object that [ravl_data] points to.  A rank is an integer;
    the [errno] that a failed [ravl_emplace] sets is not modelled, its result is. *)
From stdpp Require Import base list strings gmap.
From S2P Require Import Prelude.
Open Scope Z_scope.

(** [enum ravl_slot_type]; the two slots are the indices [false] and [true]. *)
Inductive ravl_slot_type := RAVL_SLOT (index : bool) | RAVL_ROOT.
Definition RAVL_LEFT : bool := false.
Definition RAVL_RIGHT : bool := true.

(** [enum ravl_predicate]: a set of flags. *)
Record ravl_predicate := Predicate { p_equal : bool; p_greater : bool; p_less : bool }.
Definition RAVL_PREDICATE_EQUAL : ravl_predicate := Predicate true false false.
Definition RAVL_PREDICATE_GREATER : ravl_predicate := Predicate false true false.
Definition RAVL_PREDICATE_LESS : ravl_predicate := Predicate false false true.
Definition RAVL_PREDICATE_LESS_EQUAL : ravl_predicate := Predicate true false true.
Definition RAVL_PREDICATE_GREATER_EQUAL : ravl_predicate := Predicate true true false.

Record ravl_node (D : Type) := RavlNode {
  parent : Z;
  slots : Z * Z;
  rank : Z;
  data : D;
}.
Global Arguments RavlNode {D} _ _ _ _.
Global Arguments parent {D} _.
Global Arguments slots {D} _.
Global Arguments rank {D} _.
Global Arguments data {D} _.

(** The tree, the heap its nodes are in, and the calls of [Malloc] so far. *)
Record ravl (D : Type) := Ravl {
  nodes : gmap Z (ravl_node D);
  root : Z;
  mallocs : nat;
}.
Global Arguments Ravl {D} _ _ _.
Global Arguments nodes {D} _.
Global Arguments root {D} _.
Global Arguments mallocs {D} _.

Section ravl.
Context {D : Type}.
Abbreviation node := (ravl_node D).
Implicit Types (n p z : Z) (t : bool).

(** ** Memory *)

Definition slot (nd : node) t : Z := if t then (slots nd).2 else (slots nd).1.
Definition set_slot t (x : Z) (nd : node) : node :=
  RavlNode (parent nd) (if t then ((slots nd).1, x) else (x, (slots nd).2)) (rank nd) (data nd).
Definition set_parent (x : Z) (nd : node) : node := RavlNode x (slots nd) (rank nd) (data nd).
Definition set_rank (x : Z) (nd : node) : node := RavlNode (parent nd) (slots nd) x (data nd).
Definition set_data (d : D) (nd : node) : node := RavlNode (parent nd) (slots nd) (rank nd) d.

Definition deref p : M (ravl D) node :=
  let! m := gets nodes in
  match m !! p with Some nd => ret nd | None => stop (UndefinedBehaviour "struct ravl_node *") end.
Definition upd_node p (f : node → node) : M (ravl D) unit :=
  let! nd := deref p in modify (λ r, Ravl (<[p := f nd]> (nodes r)) (root r) (mallocs r)).
Definition Free p : M (ravl D) unit :=
  modify (λ r, Ravl (delete p (nodes r)) (root r) (mallocs r)).

(** A [struct ravl_node **]: the root of the tree or a slot of a node. *)
Inductive node_ref := RootRef | SlotRef (p : Z) (t : bool).
Definition load_ref (f : node_ref) : M (ravl D) Z :=
  match f with
  | RootRef => gets root
  | SlotRef p t => let! nd := deref p in ret (slot nd t)
  end.
Definition store_ref (f : node_ref) (x : Z) : M (ravl D) unit :=
  match f with
  | RootRef => modify (λ r, Ravl (nodes r) x (mallocs r))
  | SlotRef p t => upd_node p (set_slot t x)
  end.

(** ** Navigation *)

Definition ravl_empty : M (ravl D) bool := let! r := gets root in ret (r =? 0).

Definition ravl_slot_opposite (ty : ravl_slot_type) : M (ravl D) bool :=
  match ty with
  | RAVL_ROOT => stop (AssertFailed "t != RAVL_ROOT")
  | RAVL_SLOT t => ret (negb t)
  end.
Definition ravl_node_slot_type n : M (ravl D) ravl_slot_type :=
  let! nd := deref n in
  if parent nd =? 0 then ret RAVL_ROOT
  else let! pd := deref (parent nd) in
       ret (RAVL_SLOT (if slot pd RAVL_LEFT =? n then RAVL_LEFT else RAVL_RIGHT)).
Definition ravl_node_sibling n : M (ravl D) Z :=
  let! ty := ravl_node_slot_type n in
  match ty with
  | RAVL_ROOT => ret 0
  | RAVL_SLOT t => let! nd := deref n in let! pd := deref (parent nd) in ret (slot pd (negb t))
  end.
Definition ravl_node_ref n : M (ravl D) node_ref :=
  let! ty := ravl_node_slot_type n in
  match ty with
  | RAVL_ROOT => ret RootRef
  | RAVL_SLOT t => let! nd := deref n in ret (SlotRef (parent nd) t)
  end.

(** ** Rotation and ranks *)

Definition ravl_rotate n : M (ravl D) unit :=
  let! nd := deref n in
  assert_ (negb (parent nd =? 0)) "n->parent != NULL" ;;
  let p := parent nd in
  let! pref := ravl_node_ref p in
  let! ty := ravl_node_slot_type n in
  let! t_opposite := ravl_slot_opposite ty in
  let t := negb t_opposite in
  let! pd := deref p in
  upd_node n (set_parent (parent pd)) ;;
  upd_node p (set_parent n) ;;
  store_ref pref n ;;
  let! nd := deref n in
  upd_node p (set_slot t (slot nd t_opposite)) ;;
  when (negb (slot nd t_opposite =? 0)) (upd_node (slot nd t_opposite) (set_parent p)) ;;
  upd_node n (set_slot t_opposite p).

Definition ravl_node_rank n : M (ravl D) Z :=
  if n =? 0 then ret (-1) else let! nd := deref n in ret (rank nd).
Definition ravl_node_rank_difference_parent p n : M (ravl D) Z :=
  let! rp := ravl_node_rank p in let! rn := ravl_node_rank n in ret (rp - rn).
Definition ravl_node_rank_difference n : M (ravl D) Z :=
  let! nd := deref n in ravl_node_rank_difference_parent (parent nd) n.
Definition ravl_node_is_i_j n (i j : Z) : M (ravl D) bool :=
  let! nd := deref n in
  let! dl := ravl_node_rank_difference_parent n (slot nd RAVL_LEFT) in
  let! dr := ravl_node_rank_difference_parent n (slot nd RAVL_RIGHT) in
  ret ((dl =? i) && (dr =? j)).
Definition ravl_node_is n (i j : Z) : M (ravl D) bool :=
  let! a := ravl_node_is_i_j n i j in
  let! b := ravl_node_is_i_j n j i in
  ret (a || b).
Definition ravl_node_promote n : M (ravl D) unit :=
  upd_node n (λ nd, set_rank (rank nd + 1) nd).
Definition ravl_node_demote n : M (ravl D) unit :=
  let! nd := deref n in
  assert_ (0 <? rank nd) "n->rank > 0" ;;
  upd_node n (λ nd, set_rank (rank nd - 1) nd).

(** ** Balancing *)

(** The loop that walks up the tree and promotes; its result is [n]. *)
Fixpoint promote_up (fuel : nat) n : M (ravl D) Z :=
  match fuel with
  | O => stop OutOfFuel
  | S fuel' =>
      let! nd := deref n in
      if parent nd =? 0 then ret n
      else
        let! b := ravl_node_is (parent nd) 0 1 in
        if b : bool then ravl_node_promote (parent nd) ;; promote_up fuel' (parent nd) else ret n
  end.
(** What follows the loop. *)
Definition rebalance n : M (ravl D) unit :=
  let! s := ravl_node_sibling n in
  let! nd := deref n in
  let! dn := ravl_node_rank_difference n in
  let! ds := ravl_node_rank_difference_parent (parent nd) s in
  when ((dn =? 0) && (1 <? ds))
    (let y := parent nd in
     let! ty := ravl_node_slot_type n in
     let! t := ravl_slot_opposite ty in
     let z := slot nd t in
     let! dz := (if z =? 0 then ret 2 else ravl_node_rank_difference z) in
     if (z =? 0) || (dz =? 2) then ravl_rotate n ;; ravl_node_demote y
     else when (dz =? 1)
       (ravl_rotate z ;; ravl_rotate z ;;
        ravl_node_promote z ;; ravl_node_demote n ;; ravl_node_demote y)).
Definition ravl_balance (fuel : nat) n : M (ravl D) unit :=
  let! n := promote_up fuel n in rebalance n.

(** ** Insertion *)

Context (compare : D → D → Z).
(** [Malloc]: by the number of the call and the heap, an address or [NULL]. *)
Context (Malloc : nat → gmap Z node → option Z).

Definition ravl_new_node (d : D) : M (ravl D) Z :=
  let! r := gets (λ r, r) in
  match Malloc (mallocs r) (nodes r) with
  | None => modify (λ r, Ravl (nodes r) (root r) (S (mallocs r))) ;; ret 0
  | Some n => modify (λ r, Ravl (<[n := RavlNode 0 (0, 0) 0 d]> (nodes r)) (root r) (S (mallocs r))) ;;
              ret n
  end.
(** The walk down to the missing slot; [None] is the jump to [error_duplicate]. *)
Fixpoint find_slot (fuel : nat) n (dstp : node_ref) (dst : Z)
    : M (ravl D) (option (node_ref * Z)) :=
  match fuel with
  | O => stop OutOfFuel
  | S fuel' =>
      let! x := load_ref dstp in
      if x =? 0 then ret (Some (dstp, dst))
      else
        let! nd := deref n in
        let! xd := deref x in
        let cmp_result := compare (data nd) (data xd) in
        if cmp_result =? 0 then ret None
        else find_slot fuel' n (SlotRef x (0 <? cmp_result)) x
  end.
(** The result is 0 or -1. *)
Definition ravl_emplace (fuel : nat) (arg : D) : M (ravl D) Z :=
  let! n := ravl_new_node arg in
  if n =? 0 then ret (-1)
  else
    let! found := find_slot fuel n RootRef 0 in
    match found with
    | None => Free n ;; ret (-1)
    | Some (dstp, dst) =>
        upd_node n (set_parent dst) ;;
        store_ref dstp n ;;
        ravl_balance fuel n ;;
        ret 0
    end.
Definition ravl_insert : nat → D → M (ravl D) Z := ravl_emplace.
Definition ravl_emplace_copy : nat → D → M (ravl D) Z := ravl_emplace.

(** ** Search *)

Fixpoint ravl_node_type_most (fuel : nat) n t : M (ravl D) Z :=
  match fuel with
  | O => stop OutOfFuel
  | S fuel' =>
      let! nd := deref n in
      if slot nd t =? 0 then ret n else ravl_node_type_most fuel' (slot nd t) t
  end.
(** The climb to the first parent on the [t] path. *)
Fixpoint climb (fuel : nat) n t : M (ravl D) Z :=
  match fuel with
  | O => stop OutOfFuel
  | S fuel' =>
      let! nd := deref n in
      if parent nd =? 0 then ret 0
      else let! pd := deref (parent nd) in
           if slot pd t =? n then climb fuel' (parent nd) t else ret (parent nd)
  end.
Definition ravl_node_cessor (fuel : nat) n t : M (ravl D) Z :=
  let! nd := deref n in
  if negb (slot nd t =? 0) then ravl_node_type_most fuel (slot nd t) (negb t)
  else climb fuel n t.
Definition ravl_node_successor (fuel : nat) n : M (ravl D) Z := ravl_node_cessor fuel n RAVL_RIGHT.
Definition ravl_node_predecessor (fuel : nat) n : M (ravl D) Z := ravl_node_cessor fuel n RAVL_LEFT.

(** The new [*ret] and whether the predicate holds. *)
Definition ravl_predicate_holds (fuel : nat) (result r : Z) n (flags : ravl_predicate)
    : M (ravl D) (Z * bool) :=
  if p_equal flags && (result =? 0) then ret (n, true)
  else if p_greater flags && (result <? 0) then ret (n, false)
  else if p_greater flags && (result =? 0) then
    let! s := ravl_node_successor fuel n in ret (s, true)
  else if p_less flags && (0 <? result) then ret (n, false)
  else if p_less flags && (result =? 0) then
    let! s := ravl_node_predecessor fuel n in ret (s, true)
  else ret (r, false).
Fixpoint find_from (fuel : nat) (d : D) (flags : ravl_predicate) (r n : Z) : M (ravl D) Z :=
  match fuel with
  | O => stop OutOfFuel
  | S fuel' =>
      if n =? 0 then ret r
      else
        let! nd := deref n in
        let result := compare d (data nd) in
        let! h := ravl_predicate_holds (S fuel') result r n flags in
        if h.2 : bool then ret h.1
        else find_from fuel' d flags h.1 (slot nd (0 <? result))
  end.
Definition ravl_find (fuel : nat) (d : D) (flags : ravl_predicate) : M (ravl D) Z :=
  let! n := gets root in find_from fuel d flags 0 n.

(** ** Removal *)

(** [loops] is the fuel of the search for the successor. *)
Fixpoint ravl_remove (fuel loops : nat) n : M (ravl D) unit :=
  match fuel with
  | O => stop OutOfFuel
  | S fuel' =>
      let! nd := deref n in
      if negb (slot nd RAVL_LEFT =? 0) && negb (slot nd RAVL_RIGHT =? 0) then
        let! s := ravl_node_successor loops n in
        let! sd := deref s in
        upd_node n (set_data (data sd)) ;;
        ravl_remove fuel' loops s
      else
        let r := if negb (slot nd RAVL_LEFT =? 0) then slot nd RAVL_LEFT else slot nd RAVL_RIGHT in
        when (negb (r =? 0)) (upd_node r (set_parent (parent nd))) ;;
        let! ref := ravl_node_ref n in
        store_ref ref r ;;
        Free n
  end.

(** The data that the callback is called on, in order. *)
Fixpoint ravl_clear_node (fuel : nat) n : M (ravl D) (list D) :=
  match fuel with
  | O => stop OutOfFuel
  | S fuel' =>
      if n =? 0 then ret []
      else
        let! nd := deref n in
        let! l1 := ravl_clear_node fuel' (slot nd RAVL_LEFT) in
        let! l2 := ravl_clear_node fuel' (slot nd RAVL_RIGHT) in
        Free n ;;
        ret (l1 ++ data nd :: l2)
  end.
Definition ravl_clear (fuel : nat) : M (ravl D) unit :=
  let! n := gets root in
  ravl_clear_node fuel n ;;
  modify (λ r, Ravl (nodes r) 0 (mallocs r)).
Definition ravl_delete_cb (fuel : nat) : M (ravl D) (list D) :=
  let! n := gets root in ravl_clear_node fuel n.
End ravl.

Definition ravl_new {D : Type} (calls : nat) : ravl D := Ravl ∅ 0 calls.
