(* ===== verification/RavlTree.v ===== *)
(** * RAVL trees: the shape of the heap

    The heap of nodes represents a tree; a position in it is a context and the
    subtree in its hole.  Every operation of [Ravl] is shown to do to the heap
    what a function on trees and contexts does to the tree; what this means for
    the order and the ranks is then a matter of trees alone. *)
From stdpp Require Import base list strings gmap.
From S2P Require Import Prelude Ravl.
Open Scope Z_scope.

Section facts.
#[local] Set Default Proof Using "Type".
Context {D : Type}.
Implicit Types (m : gmap Z (ravl_node D)) (r : ravl D).

(** ** Trees and contexts *)

Inductive tree := E | T (l : tree) (p rk : Z) (d : D) (r : tree).
(** The node [fp] with its hole in slot [ft] and [fsib] in the other one. *)
Record frame := Frame { ft : bool; fp : Z; frk : Z; fd : D; fsib : tree }.
Implicit Types (x l y : tree) (f : frame) (c : list frame).

Definition tptr x : Z := match x with E => 0 | T _ p _ _ _ => p end.
Definition trank x : Z := match x with E => -1 | T _ _ rk _ _ => rk end.
Fixpoint ptrs x : list Z :=
  match x with E => [] | T l p _ _ r => ptrs l ++ p :: ptrs r end.
(** The nodes with their data, in order. *)
Fixpoint inorder x : list (Z * D) :=
  match x with E => [] | T l p _ d r => inorder l ++ (p, d) :: inorder r end.
Definition fill f x : tree :=
  if ft f then T (fsib f) (fp f) (frk f) (fd f) x else T x (fp f) (frk f) (fd f) (fsib f).
Fixpoint plug c x : tree := match c with [] => x | f :: c' => plug c' (fill f x) end.
Definition cpar c : Z := match c with [] => 0 | f :: _ => fp f end.
Definition cref c : node_ref := match c with [] => RootRef | f :: _ => SlotRef (fp f) (ft f) end.
Fixpoint cptrs c : list Z :=
  match c with [] => [] | f :: c' => fp f :: ptrs (fsib f) ++ cptrs c' end.

(** ** Representation *)

Fixpoint tree_at m (par : Z) x : Prop :=
  match x with
  | E => True
  | T l p rk d r => p ≠ 0 ∧ m !! p = Some (RavlNode par (tptr l, tptr r) rk d) ∧
                    tree_at m p l ∧ tree_at m p r
  end.
Definition both (t : bool) (a b : Z) : Z * Z := if t then (b, a) else (a, b).
Fixpoint ctx_at m c (hole : Z) : Prop :=
  match c with
  | [] => True
  | f :: c' => fp f ≠ 0 ∧
      m !! fp f = Some (RavlNode (cpar c') (both (ft f) hole (tptr (fsib f))) (frk f) (fd f)) ∧
      tree_at m (fp f) (fsib f) ∧ ctx_at m c' (fp f)
  end.
Definition repr r x : Prop :=
  tree_at (nodes r) 0 x ∧ root r = tptr x ∧ NoDup (ptrs x).
Record focus r c x : Prop := {
  f_ctx : ctx_at (nodes r) c (tptr x);
  f_tree : tree_at (nodes r) (cpar c) x;
  f_root : root r = tptr (plug c x);
  f_nodup : NoDup (cptrs c ++ ptrs x);
}.

Lemma tree_at_agree m m' par x :
  (∀ q, q ∈ ptrs x → m' !! q = m !! q) → tree_at m par x → tree_at m' par x.
Proof.
  revert par. induction x as [|l IHl p rk d r IHr]; intros par Hag; [done|]. simpl in *.
  intros (Hp&Hl&H1&H2). split; [done|]. split; [rewrite Hag by set_solver; done|].
  split; [apply IHl|apply IHr]; try done; intros q Hq; apply Hag; set_solver.
Qed.
Lemma ctx_at_agree m m' c hole :
  (∀ q, q ∈ cptrs c → m' !! q = m !! q) → ctx_at m c hole → ctx_at m' c hole.
Proof.
  revert hole. induction c as [|f c IH]; intros hole Hag; [done|]. simpl in *.
  intros (Hp&Hl&H1&H2). split; [done|]. split; [rewrite Hag by set_solver; done|].
  split; [eapply tree_at_agree, H1|apply IH, H2]; intros q Hq; apply Hag; set_solver.
Qed.
Lemma tree_at_nonzero m par x q : tree_at m par x → q ∈ ptrs x → q ≠ 0 ∧ is_Some (m !! q).
Proof.
  revert par. induction x as [|l IHl p rk d r IHr]; intros par; simpl; [set_solver|].
  intros (Hp&Hl&H1&H2). rewrite elem_of_app, elem_of_cons.
  intros [Hq|[->|Hq]]; [by eapply IHl|by eauto|by eapply IHr].
Qed.
Lemma ctx_at_nonzero m c hole q : ctx_at m c hole → q ∈ cptrs c → q ≠ 0.
Proof.
  revert hole. induction c as [|f c IH]; intros hole; simpl; [set_solver|].
  intros (Hp&Hl&H1&H2). rewrite elem_of_cons, elem_of_app.
  intros [->|[Hq|Hq]]; [done|by eapply tree_at_nonzero|by eapply IH].
Qed.
Lemma tree_at_zero m par x : tree_at m par x → 0 ∉ ptrs x.
Proof. intros H Hq. by destruct (tree_at_nonzero _ _ _ _ H Hq). Qed.
Lemma tptr_zero m par x : tree_at m par x → tptr x = 0 ↔ x = E.
Proof. destruct x; simpl; [done|]. intros (?&_). split; [done|discriminate]. Qed.
Lemma tptr_in x : x ≠ E → tptr x ∈ ptrs x.
Proof. destruct x; simpl; [done|]. set_solver. Qed.

Lemma plug_ptrs c x : ptrs (plug c x) ≡ₚ cptrs c ++ ptrs x.
Proof.
  revert x. induction c as [|f c IH]; intros x; [done|]. simpl. rewrite IH.
  unfold fill. destruct (ft f); simpl; solve_Permutation.
Qed.
Lemma repr_focus r c x : repr r (plug c x) ↔ focus r c x.
Proof.
  assert (∀ hole, hole = tptr x →
    tree_at (nodes r) 0 (plug c x) ↔ ctx_at (nodes r) c hole ∧ tree_at (nodes r) (cpar c) x) as H.
  { revert x. induction c as [|f c IH]; intros x hole ->; simpl; [tauto|].
    rewrite (IH (fill f x) (fp f)) by (unfold fill; by destruct (ft f)).
    unfold fill. destruct f as [[] p rk d sib]; simpl; tauto. }
  unfold repr. rewrite (H _ eq_refl), plug_ptrs. split.
  - by intros ([? ?]&?&?).
  - by intros [? ? ? ?].
Qed.

(** ** Steps *)

Definition with_nodes (g : gmap Z (ravl_node D) → gmap Z (ravl_node D)) r : ravl D :=
  Ravl (g (nodes r)) (root r) (mallocs r).
Lemma deref_Ok r p nd : nodes r !! p = Some nd → deref p r = Ok nd r.
Proof. intros H. unfold deref, bind, gets. by rewrite H. Qed.
Lemma upd_node_Ok r p nd g :
  nodes r !! p = Some nd → upd_node p g r = Ok tt (with_nodes <[p := g nd]> r).
Proof. intros H. unfold upd_node. by rewrite (bind_Ok _ _ _ _ _ (deref_Ok _ _ _ H)). Qed.

Definition slot_of c : ravl_slot_type := match c with [] => RAVL_ROOT | f :: _ => RAVL_SLOT (ft f) end.
Lemma focus_node r c l p rk d y :
  focus r c (T l p rk d y) →
  p ≠ 0 ∧ nodes r !! p = Some (RavlNode (cpar c) (tptr l, tptr y) rk d).
Proof. intros []. by destruct f_tree0 as (?&?&_). Qed.
Lemma focus_frame r f c x :
  focus r (f :: c) x →
  fp f ≠ 0 ∧ nodes r !! fp f
    = Some (RavlNode (cpar c) (both (ft f) (tptr x) (tptr (fsib f))) (frk f) (fd f)).
Proof. intros []. by destruct f_ctx0 as (?&?&_). Qed.

Lemma slot_type_focus r c l p rk d y :
  focus r c (T l p rk d y) → ravl_node_slot_type p r = Ok (slot_of c) r.
Proof.
  intros H. destruct (focus_node _ _ _ _ _ _ _ H) as [Hp Hn].
  unfold ravl_node_slot_type. rewrite (bind_Ok _ _ _ _ _ (deref_Ok _ _ _ Hn)). cbn [parent].
  destruct c as [|f c]; [done|]. destruct (focus_frame _ _ _ _ H) as [Hf Hfn]. cbn [cpar].
  rewrite (proj2 (Z.eqb_neq (fp f) 0)) by done.
  rewrite (bind_Ok _ _ _ _ _ (deref_Ok _ _ _ Hfn)).
  destruct H as [(_&_&Hsib&_) _ _ Hnd]. unfold slot. cbn [slots RAVL_LEFT slot_of].
  destruct f as [[] q qrk qd sib]; simpl in *.
  - rewrite (proj2 (Z.eqb_neq (tptr sib) p)); [done|]. intros E. destruct sib; simpl in *; [done|].
    subst. apply NoDup_cons in Hnd as [_ Hnd]. apply NoDup_app in Hnd as (_&Hd&_). eapply (Hd p); set_solver.
  - by rewrite Z.eqb_refl.
Qed.
Lemma ref_focus r c l p rk d y :
  focus r c (T l p rk d y) → ravl_node_ref p r = Ok (cref c) r.
Proof.
  intros H. unfold ravl_node_ref. rewrite (bind_Ok _ _ _ _ _ (slot_type_focus _ _ _ _ _ _ _ H)).
  destruct c as [|f c]; [done|]. cbn [slot_of].
  destruct (focus_node _ _ _ _ _ _ _ H) as [Hp Hn].
  by rewrite (bind_Ok _ _ _ _ _ (deref_Ok _ _ _ Hn)).
Qed.
Lemma sibling_focus r f c l p rk d y :
  focus r (f :: c) (T l p rk d y) → ravl_node_sibling p r = Ok (tptr (fsib f)) r.
Proof.
  intros H. unfold ravl_node_sibling. rewrite (bind_Ok _ _ _ _ _ (slot_type_focus _ _ _ _ _ _ _ H)).
  destruct (focus_node _ _ _ _ _ _ _ H) as [Hp Hn]. destruct (focus_frame _ _ _ _ H) as [Hf Hfn].
  cbn [slot_of]. rewrite (bind_Ok _ _ _ _ _ (deref_Ok _ _ _ Hn)). cbn [parent cpar].
  rewrite (bind_Ok _ _ _ _ _ (deref_Ok _ _ _ Hfn)). unfold slot, both. cbn [slots].
  by destruct (ft f).
Qed.

(** What writing through the reference of a position does. *)
Definition set_ref c (v : Z) m : gmap Z (ravl_node D) :=
  match c with [] => m | f :: _ => alter (set_slot (ft f) v) (fp f) m end.
Lemma store_ref_focus c m hole r v :
  ctx_at m c hole → nodes r = m →
  store_ref (cref c) v r
  = Ok tt (Ravl (set_ref c v m) (match c with [] => v | _ => root r end) (mallocs r)).
Proof.
  intros Hc <-. destruct c as [|f c]; [done|]. destruct Hc as (_&Hf&_). simpl.
  rewrite (upd_node_Ok _ _ _ _ Hf). unfold with_nodes. f_equal. f_equal.
  apply map_eq. intros q. destruct (decide (q = fp f)) as [->|Hq].
  - by rewrite lookup_insert_eq, lookup_alter_eq, Hf.
  - by rewrite lookup_insert_ne, lookup_alter_ne.
Qed.
Lemma set_ref_ctx c m hole v :
  NoDup (cptrs c) → ctx_at m c hole → ctx_at (set_ref c v m) c v.
Proof.
  destruct c as [|f c]; [done|]. intros Hnd (Hp&Hf&Hs&Hc). simpl in *.
  apply NoDup_cons in Hnd as [Hnin _]. rewrite not_elem_of_app in Hnin.
  split; [done|]. split.
  { rewrite lookup_alter_eq, Hf. simpl. unfold set_slot, both. simpl. by destruct (ft f). }
  split; [eapply tree_at_agree, Hs|eapply ctx_at_agree, Hc];
    intros q Hq; apply lookup_alter_ne; set_solver.
Qed.
Lemma set_ref_other c v m q : q ∉ cptrs c → set_ref c v m !! q = m !! q.
Proof.
  destruct c as [|f c]; [done|]. simpl. intros H. apply lookup_alter_ne. set_solver.
Qed.

(** The pointers around a position are distinct. *)
Lemma focus_distinct r f c x :
  focus r (f :: c) x →
  fp f ∉ ptrs x ∧ fp f ∉ ptrs (fsib f) ∧ fp f ∉ cptrs c ∧ NoDup (cptrs c) ∧ NoDup (ptrs x) ∧
  NoDup (ptrs (fsib f)) ∧
  (∀ q, q ∈ ptrs x → q ∉ ptrs (fsib f) ∧ q ∉ cptrs c) ∧ (∀ q, q ∈ ptrs (fsib f) → q ∉ cptrs c).
Proof.
  intros H. pose proof (f_nodup _ _ _ H) as Hnd. simpl in Hnd.
  apply NoDup_cons in Hnd as [H1 Hnd]. rewrite <-app_assoc in Hnd, H1.
  apply NoDup_app in Hnd as (H2&H3&Hnd). apply NoDup_app in Hnd as (H4&H5&H6).
  rewrite !not_elem_of_app in H1. set_solver.
Qed.

(** ** Rotation *)

Definition rot f x : tree :=
  match x with
  | E => E
  | T l n rk d y =>
      if ft f then T (T (fsib f) (fp f) (frk f) (fd f) l) n rk d y
      else T l n rk d (T y (fp f) (frk f) (fd f) (fsib f))
  end.
(** The subtree that changes its parent. *)
Definition moved f x : tree :=
  match x with E => E | T l _ _ _ y => if ft f then l else y end.

Lemma rot_ptrs f x : x ≠ E → ptrs (rot f x) ≡ₚ fp f :: ptrs (fsib f) ++ ptrs x.
Proof. destruct x; [done|]. intros _. unfold rot. destruct (ft f); simpl; solve_Permutation. Qed.
Lemma moved_ptrs f x q : q ∈ ptrs (moved f x) → q ∈ ptrs x.
Proof. destruct x; simpl; [done|]. destruct (ft f); set_solver. Qed.

(** The heap after a rotation of the root of [x] around its parent [f]. *)
Definition rot_heap f c x m : gmap Z (ravl_node D) :=
  let m1 := alter (set_parent (cpar c)) (tptr x) m in
  let m2 := alter (set_parent (tptr x)) (fp f) m1 in
  let m3 := set_ref c (tptr x) m2 in
  let m4 := alter (set_slot (ft f) (tptr (moved f x))) (fp f) m3 in
  let m5 := match moved f x with E => m4 | T _ v _ _ _ => alter (set_parent (fp f)) v m4 end in
  alter (set_slot (negb (ft f)) (fp f)) (tptr x) m5.
Lemma upd_node_alter r p g :
  is_Some (nodes r !! p) → upd_node p g r = Ok tt (with_nodes (alter g p) r).
Proof.
  intros [nd H]. rewrite (upd_node_Ok _ _ _ _ H). unfold with_nodes. f_equal. f_equal. apply map_eq.
  intros q. destruct (decide (q = p)) as [->|]; by simplify_map_eq.
Qed.
Lemma set_ref_is_Some c v m q : is_Some (m !! q) → is_Some (set_ref c v m !! q).
Proof. destruct c; [done|]. simpl. by rewrite lookup_alter_is_Some. Qed.

Lemma rotate_run r f c x :
  x ≠ E → focus r (f :: c) x →
  ravl_rotate (tptr x) r
  = Ok tt (Ravl (rot_heap f c x (nodes r)) (match c with [] => tptr x | _ => root r end) (mallocs r)).
Proof.
  intros Hx H. destruct x as [|l n rk d y]; [done|]. clear Hx.
  pose proof (focus_node _ _ _ _ _ _ _ H) as [Hn Hnn]. pose proof (focus_frame _ _ _ _ H) as [Hf Hfn].
  set (x := T l n rk d y) in *. change (tptr x) with n. cbn [cpar] in Hnn.
  unfold ravl_rotate. rewrite (bind_Ok _ _ _ _ _ (deref_Ok _ _ _ Hnn)). cbn [parent].
  rewrite (proj2 (Z.eqb_neq (fp f) 0)) by done. cbn [negb assert_].
  erewrite (bind_Ok (ret tt)) by done.
  assert (focus r c (fill f x)) as Hfill by (apply repr_focus; by apply (repr_focus r (f :: c) x)).
  assert (ravl_node_ref (fp f) r = Ok (cref c) r) as Href.
  { unfold fill in Hfill. destruct (ft f); by eapply ref_focus. }
  rewrite (bind_Ok _ _ _ _ _ Href), (bind_Ok _ _ _ _ _ (slot_type_focus _ _ _ _ _ _ _ H)).
  cbn [slot_of ravl_slot_opposite]. erewrite (bind_Ok (ret _)) by done. rewrite negb_involutive.
  rewrite (bind_Ok _ _ _ _ _ (deref_Ok _ _ _ Hfn)). cbn [parent].
  destruct (focus_distinct _ _ _ _ H) as (Hfx&_&Hfc&_&_&_&Hfar&_).
  destruct H as [(_&_&_&Hctx) Htree _ _].
  assert (n ∈ ptrs x) as Hnx by (simpl; set_solver). destruct (Hfar n Hnx) as [_ Hnc].
  assert (fp f ≠ n) as Hfnn by (intros Heq; by rewrite Heq in Hfx).
  erewrite bind_Ok by (apply upd_node_alter; by eexists).
  erewrite bind_Ok by (apply upd_node_alter; simpl; rewrite lookup_alter_is_Some; by eexists).
  erewrite bind_Ok.
  2: { eapply (store_ref_focus c); [|reflexivity]. eapply ctx_at_agree, Hctx. intros q Hq. simpl.
       rewrite !lookup_alter_ne; [done|..]; intros <-; done. }
  cbn [nodes root mallocs with_nodes].
  set (m3 := set_ref c n _).
  assert (m3 !! n = Some (RavlNode (cpar c) (tptr l, tptr y) rk d)) as Hm3.
  { unfold m3. rewrite set_ref_other, lookup_alter_ne, lookup_alter_eq, Hnn by done. done. }
  assert (is_Some (m3 !! fp f)) as Hm3f.
  { apply set_ref_is_Some. rewrite !lookup_alter_is_Some. by eexists. }
  erewrite bind_Ok by (apply deref_Ok; exact Hm3).
  assert (slot (RavlNode (cpar c) (tptr l, tptr y) rk d) (negb (ft f)) = tptr (moved f x)) as ->
    by (unfold slot; simpl; by destruct (ft f)).
  erewrite bind_Ok by (by apply upd_node_alter).
  unfold rot_heap. change (tptr x) with n. fold m3.
  destruct (moved f x) as [|ml v vrk vd mr] eqn:Hmv; simpl tptr.
  - erewrite bind_Ok by done. rewrite upd_node_alter; [done|]. simpl.
    rewrite lookup_alter_is_Some. by eexists.
  - assert (v ∈ ptrs x) as Hv by (apply (moved_ptrs f); rewrite Hmv; simpl; set_solver).
    assert (tree_at (nodes r) (fp f) x) as Htx by done.
    destruct (tree_at_nonzero _ _ _ _ Htx Hv) as [Hv0 Hvs].
    rewrite (proj2 (Z.eqb_neq v 0)) by done. cbn [negb when].
    erewrite bind_Ok.
    2: { apply upd_node_alter. simpl. rewrite lookup_alter_is_Some. apply set_ref_is_Some.
         by rewrite !lookup_alter_is_Some. }
    rewrite upd_node_alter; [done|]. simpl. rewrite !lookup_alter_is_Some. by eexists.
Qed.

Lemma rot_heap_lookup r f c l n rk d y :
  let x := T l n rk d y in focus r (f :: c) x →
  let m' := rot_heap f c x (nodes r) in
  m' !! n = Some (RavlNode (cpar c) (if ft f then (fp f, tptr y) else (tptr l, fp f)) rk d) ∧
  m' !! fp f = Some (RavlNode n (both (ft f) (tptr (moved f x)) (tptr (fsib f))) (frk f) (fd f)) ∧
  (∀ ml v vrk vd mr, moved f x = T ml v vrk vd mr → m' !! v = set_parent (fp f) <$> nodes r !! v) ∧
  (∀ q, q ≠ n → q ≠ fp f → q ≠ tptr (moved f x) → q ∉ cptrs c → m' !! q = nodes r !! q) ∧
  ctx_at m' c n.
Proof.
  intros x H m'. destruct (focus_distinct _ _ _ _ H) as (Hfx&_&Hfc&Hndc&Hndx&_&Hfar&_).
  destruct (focus_node _ _ _ _ _ _ _ H) as [Hn Hnn]. destruct (focus_frame _ _ _ _ H) as [Hf Hfn].
  assert (n ∈ ptrs x) as Hnx by (simpl; set_solver). destruct (Hfar n Hnx) as [_ Hnc].
  assert (fp f ≠ n) as Hfnn by (intros Heq; by rewrite Heq in Hfx).
  assert (∀ ml v vrk vd mr, moved f x = T ml v vrk vd mr → v ∈ ptrs x ∧ v ≠ n) as Hv.
  { intros ml v vrk vd mr Hmv. split; [apply (moved_ptrs f); rewrite Hmv; simpl; set_solver|].
    unfold x in Hmv, Hndx. simpl in Hmv, Hndx. apply NoDup_app in Hndx as (_&Hd1&Hd2).
    apply NoDup_cons in Hd2 as [Hd2 _]. intros ->. destruct (ft f); subst; simpl in *; set_solver. }
  unfold m', rot_heap. change (tptr x) with n.
  set (m2 := alter (set_parent n) (fp f) (alter (set_parent (cpar c)) n (nodes r))).
  assert (m2 !! n = Some (RavlNode (cpar c) (tptr l, tptr y) rk d)) as E1
    by (unfold m2; by rewrite lookup_alter_ne, lookup_alter_eq, Hnn).
  assert (m2 !! fp f = Some (RavlNode n (both (ft f) n (tptr (fsib f))) (frk f) (fd f))) as E2
    by (unfold m2; by rewrite lookup_alter_eq, lookup_alter_ne, Hfn).
  assert (∀ q, q ≠ n → q ≠ fp f → m2 !! q = nodes r !! q) as E3
    by (intros q ? ?; unfold m2; by rewrite !lookup_alter_ne).
  set (m5 := match moved f x with E => _ | _ => _ end).
  assert (m5 !! n = m2 !! n ∧
    m5 !! fp f = set_slot (ft f) (tptr (moved f x)) <$> m2 !! fp f ∧
    (∀ ml v vrk vd mr, moved f x = T ml v vrk vd mr → m5 !! v = set_parent (fp f) <$> m2 !! v) ∧
    (∀ q, q ≠ fp f → q ≠ tptr (moved f x) → m5 !! q = set_ref c n m2 !! q)) as (F1&F2&F3&F4).
  { unfold m5. destruct (moved f x) as [|ml v vrk vd mr] eqn:Hmv.
    - rewrite lookup_alter_ne, set_ref_other, lookup_alter_eq, set_ref_other by done.
      repeat split; try done. intros q Hq _. by rewrite lookup_alter_ne.
    - destruct (Hv _ _ _ _ _ eq_refl) as [Hvx Hvn].
      assert (fp f ≠ v) as Hfv by (intros Heq; by rewrite Heq in Hfx).
      destruct (Hfar v Hvx) as [_ Hvc].
      rewrite !lookup_alter_ne, set_ref_other by done.
      rewrite lookup_alter_eq, set_ref_other by done. repeat split.
      + intros ? ? ? ? ? [=-> -> -> -> ->]. by rewrite lookup_alter_eq, lookup_alter_ne, set_ref_other.
      + intros q Hq Hqv. simpl in Hqv. by rewrite !lookup_alter_ne. }
  split; [rewrite lookup_alter_eq, F1, E1; unfold set_slot; simpl; by destruct (ft f)|].
  split; [rewrite lookup_alter_ne, F2, E2 by done; unfold set_slot, both; simpl; by destruct (ft f)|].
  split.
  { intros ml v vrk vd mr Hmv. destruct (Hv _ _ _ _ _ Hmv) as [Hvx Hvn].
    rewrite lookup_alter_ne, (F3 _ _ _ _ _ Hmv), E3 by (done || intros ->; done). done. }
  split; [intros q ? ? ? ?; by rewrite lookup_alter_ne, F4, set_ref_other, E3|].
  assert (ctx_at (set_ref c n m2) c n) as Hctx.
  { eapply set_ref_ctx; [done|]. eapply ctx_at_agree, (f_ctx _ _ _ H).
    intros q Hq. apply E3; intros ->; done. }
  eapply ctx_at_agree, Hctx. intros q Hq. rewrite lookup_alter_ne, F4; [done|..].
  - intros ->; done.
  - intros ->. destruct (moved f x) as [|ml v vrk vd mr] eqn:Hmv; simpl in Hq.
    + by destruct (ctx_at_nonzero _ _ _ _ Hctx Hq).
    + destruct (Hv _ _ _ _ _ eq_refl) as [Hvx _]. by destruct (Hfar v Hvx).
  - intros ->; done.
Qed.

Lemma plug_root f c x y : tptr (plug c (fill f x)) = tptr (plug c (fill f y)).
Proof.
  revert f x y. induction c as [|g c IH]; intros f x y; simpl; [|apply IH].
  unfold fill. by destruct (ft f).
Qed.
(** A subtree hung under another node. *)
Lemma tree_at_reparent m m' par par' x :
  tree_at m par x → NoDup (ptrs x) →
  (∀ l v rk d y, x = T l v rk d y → m' !! v = set_parent par' <$> m !! v) →
  (∀ q, q ∈ ptrs x → q ≠ tptr x → m' !! q = m !! q) → tree_at m' par' x.
Proof.
  destruct x as [|l v rk d y]; [done|]. simpl. intros (Hv&Hl&H1&H2) Hnd Hroot Hag.
  apply NoDup_app in Hnd as (_&Hd1&Hd2). apply NoDup_cons in Hd2 as [Hd2 _].
  split; [done|]. split; [by rewrite (Hroot _ _ _ _ _ eq_refl), Hl|].
  split; [eapply tree_at_agree, H1|eapply tree_at_agree, H2]; intros q Hq; apply Hag; try set_solver.
Qed.
Lemma rotate_focus r f c x :
  x ≠ E → focus r (f :: c) x →
  ∃ r', ravl_rotate (tptr x) r = Ok tt r' ∧ focus r' c (rot f x) ∧ mallocs r' = mallocs r.
Proof.
  intros Hx H. rewrite (rotate_run _ _ _ _ Hx H). eexists. split; [done|]. split; [|done].
  destruct x as [|l n rk d y]; [done|]. clear Hx. set (x := T l n rk d y) in *.
  destruct (rot_heap_lookup _ _ _ _ _ _ _ _ H) as (M1&M2&M3&M4&M5). fold x in M1, M2, M3, M4, M5.
  destruct (focus_distinct _ _ _ _ H) as (Hfx&Hfs&Hfc&Hndc&Hndx&Hnds&Hfar&Hsc).
  assert (tptr (rot f x) = n) as Hrn by (unfold rot, x; by destruct (ft f)).
  assert (NoDup (cptrs c ++ ptrs (rot f x))) as Hnd.
  { rewrite rot_ptrs by done. pose proof (f_nodup _ _ _ H) as Hnd.
    assert (cptrs c ++ fp f :: ptrs (fsib f) ++ ptrs x ≡ₚ cptrs (f :: c) ++ ptrs x) as ->; [|done].
    simpl. solve_Permutation. }
  split; cbn [nodes root]; [by rewrite Hrn| |..|done].
  - pose proof H as [(Hf0&_&Hsib&_) (Hn0&_&Hl&Hy) _ _]. fold x in M1.
    assert (NoDup (ptrs l) ∧ NoDup (ptrs y) ∧ n ∉ ptrs l ∧ n ∉ ptrs y ∧ ∀ q, q ∈ ptrs l → q ∉ ptrs y)
      as (Nl&Ny&Nnl&Nny&Nly).
    { unfold x in Hndx. simpl in Hndx. apply NoDup_app in Hndx as (?&Hd1&Hd2).
      apply NoDup_cons in Hd2 as [? ?]. set_solver. }
    assert (∀ q, q ∈ ptrs l ∨ q ∈ ptrs y → q ≠ n ∧ q ≠ fp f ∧ q ∉ cptrs c ∧ q ∉ ptrs (fsib f)) as Hq.
    { intros q Hq. assert (q ∈ ptrs x) as Hqx by (simpl; set_solver). destruct (Hfar q Hqx).
      repeat split; try done; intros ->; [tauto|done]. }
    assert (∀ q par' s, tree_at (nodes r) par' s → q ∈ ptrs s → (q ∉ ptrs (moved f x)) →
              q ≠ tptr (moved f x)) as Hmv.
    { intros q par' s Hs Hqs Hqm ->. destruct (tree_at_nonzero _ _ _ _ Hs Hqs) as [H0 _].
      apply Hqm, tptr_in. intros Heq. by rewrite Heq in H0. }
    assert (tree_at (rot_heap f c x (nodes r)) (fp f) (fsib f)) as Hsib'.
    { eapply tree_at_agree, Hsib. intros q Hqs. assert (q ∉ ptrs x) by set_solver.
      assert (q ∉ ptrs (moved f x)) by (intros ?%moved_ptrs; done).
      apply M4; [set_solver|set_solver|by apply (Hmv q _ _ Hsib Hqs)|by apply Hsc]. }
    assert (∀ s par', tree_at (nodes r) par' s → (∀ q, q ∈ ptrs s → q ∈ ptrs l ∨ q ∈ ptrs y) →
              (∀ q, q ∈ ptrs s → q ∉ ptrs (moved f x)) →
              tree_at (rot_heap f c x (nodes r)) par' s) as Hkeep.
    { intros s par' Hs Hin Hnm. eapply tree_at_agree, Hs. intros q Hqs.
      destruct (Hq q (Hin q Hqs)) as (?&?&?&_). apply M4; try done. eapply Hmv; [done|done|by apply Hnm]. }
    assert (∀ s par', tree_at (nodes r) par' s → s = moved f x → NoDup (ptrs s) →
              tree_at (rot_heap f c x (nodes r)) (fp f) s) as Hmoved.
    { intros s par' Hs -> Hnds'. eapply tree_at_reparent; [done|done|done|].
      intros q Hqs Hqv. destruct (Hq q) as (?&?&?&_); [|by apply M4].
      simpl in Hqs. destruct (ft f); auto. }
    unfold moved in Hkeep, Hmoved, M2. unfold rot. simpl. simpl in Hkeep, Hmoved, M2.
    unfold both in M2. destruct (ft f); simpl; rewrite M1, M2.
    + repeat split; try done; [by eapply Hmoved|]. apply (Hkeep y n); [done|set_solver|set_solver].
    + repeat split; try done; [|by eapply Hmoved]. apply (Hkeep l n); [done|set_solver|set_solver].
  - destruct c as [|g c]; [symmetry; exact Hrn|]. rewrite (f_root _ _ _ H). simpl.
    apply plug_root.
Qed.

(** ** Moving the position, changing a node *)

Lemma focus_fill r f c x : focus r (f :: c) x ↔ focus r c (fill f x).
Proof. by rewrite <-!repr_focus. Qed.
Lemma focus_left r c l p rk d y :
  focus r c (T l p rk d y) ↔ focus r (Frame false p rk d y :: c) l.
Proof. by rewrite focus_fill. Qed.
Lemma focus_right r c l p rk d y :
  focus r c (T l p rk d y) ↔ focus r (Frame true p rk d l :: c) y.
Proof. by rewrite focus_fill. Qed.

Lemma change_focus r c l p rk d y rk' d' g :
  focus r c (T l p rk d y) →
  (∀ par sl, g (RavlNode par sl rk d) = RavlNode par sl rk' d') →
  ∃ r', upd_node p g r = Ok tt r' ∧ focus r' c (T l p rk' d' y) ∧ mallocs r' = mallocs r ∧
        dom (nodes r') = dom (nodes r).
Proof.
  intros H Hg. destruct (focus_node _ _ _ _ _ _ _ H) as [Hp Hn].
  rewrite upd_node_alter by (by eexists). eexists. split; [done|]. split; [|split; [done|]].
  2: { simpl. by rewrite dom_alter_L. }
  destruct H as [Hc (_&_&Hl&Hy) Hroot Hnd].
  pose proof Hnd as (_&Hdis&Hx)%NoDup_app. simpl in Hx. apply NoDup_app in Hx as (_&Hd1&Hd2).
  apply NoDup_cons in Hd2 as [Hd2 _]. simpl in Hdis.
  split; simpl.
  - eapply ctx_at_agree, Hc. intros q Hq. apply lookup_alter_ne. intros ->. eapply Hdis; [done|set_solver].
  - split; [done|]. split; [by rewrite lookup_alter_eq, Hn; simpl; rewrite Hg|].
    split; [eapply tree_at_agree, Hl|eapply tree_at_agree, Hy]; intros q Hq; apply lookup_alter_ne;
      intros ->; set_solver.
  - rewrite Hroot. clear. destruct c; [done|apply plug_root].
  - done.
Qed.
Lemma promote_focus r c l p rk d y :
  focus r c (T l p rk d y) →
  ∃ r', ravl_node_promote p r = Ok tt r' ∧ focus r' c (T l p (rk + 1) d y) ∧ mallocs r' = mallocs r.
Proof.
  intros H. destruct (change_focus r c l p rk d y (rk + 1) d (λ nd, set_rank (rank nd + 1) nd) H)
    as (r'&?&?&?&_); [done|]. by exists r'.
Qed.
Lemma demote_focus r c l p rk d y :
  focus r c (T l p rk d y) → 0 < rk →
  ∃ r', ravl_node_demote p r = Ok tt r' ∧ focus r' c (T l p (rk - 1) d y) ∧ mallocs r' = mallocs r.
Proof.
  intros H Hrk. destruct (focus_node _ _ _ _ _ _ _ H) as [_ Hn].
  destruct (change_focus r c l p rk d y (rk - 1) d (λ nd, set_rank (rank nd - 1) nd) H)
    as (r'&Hr&?&?&_); [done|]. exists r'. split; [|done].
  unfold ravl_node_demote. rewrite (bind_Ok _ _ _ _ _ (deref_Ok _ _ _ Hn)). cbn [rank].
  rewrite (proj2 (Z.ltb_lt 0 rk)) by done. cbn [assert_]. by erewrite bind_Ok by done.
Qed.

(** ** Ranks *)

Lemma rank_tree r m par x :
  nodes r = m → tree_at m par x → ravl_node_rank (tptr x) r = Ok (trank x) r.
Proof.
  intros <-. unfold ravl_node_rank. destruct x as [|l p rk d y]; simpl; [done|].
  intros (Hp&Hn&_). rewrite (proj2 (Z.eqb_neq p 0)) by done. by erewrite bind_Ok by (by apply deref_Ok).
Qed.
Lemma difference_children r c l p rk d y :
  focus r c (T l p rk d y) →
  ravl_node_rank_difference_parent p (tptr l) r = Ok (rk - trank l) r ∧
  ravl_node_rank_difference_parent p (tptr y) r = Ok (rk - trank y) r.
Proof.
  intros H. pose proof (f_tree _ _ _ H) as Ht. destruct Ht as (Hp&Hn&Hl&Hy).
  unfold ravl_node_rank_difference_parent.
  assert (ravl_node_rank p r = Ok rk r) as Hr by (by apply (rank_tree r _ _ (T l p rk d y) eq_refl (f_tree _ _ _ H))).
  split; rewrite (bind_Ok _ _ _ _ _ Hr); by erewrite bind_Ok by (by eapply rank_tree).
Qed.
Lemma is_focus r c l p rk d y i j :
  focus r c (T l p rk d y) →
  ravl_node_is p i j r
  = Ok ((rk - trank l =? i) && (rk - trank y =? j) || (rk - trank l =? j) && (rk - trank y =? i)) r.
Proof.
  intros H. destruct (difference_children _ _ _ _ _ _ _ H) as [Hl Hy].
  destruct (focus_node _ _ _ _ _ _ _ H) as [_ Hn].
  assert (∀ i j, ravl_node_is_i_j p i j r = Ok ((rk - trank l =? i) && (rk - trank y =? j)) r) as Hij.
  { intros i' j'. unfold ravl_node_is_i_j. rewrite (bind_Ok _ _ _ _ _ (deref_Ok _ _ _ Hn)).
    unfold slot. cbn [slots RAVL_LEFT RAVL_RIGHT fst snd]. by rewrite (bind_Ok _ _ _ _ _ Hl), (bind_Ok _ _ _ _ _ Hy). }
  unfold ravl_node_is. by rewrite (bind_Ok _ _ _ _ _ (Hij i j)), (bind_Ok _ _ _ _ _ (Hij j i)).
Qed.

(** ** Balancing, on trees *)

(** The position at which the promotions stop. *)
Fixpoint up c x : list frame * tree :=
  match c with
  | [] => ([], x)
  | f :: c' =>
      let dx := frk f - trank x in let ds := frk f - trank (fsib f) in
      if (dx =? 0) && (ds =? 1) || (dx =? 1) && (ds =? 0)
      then up c' (fill (Frame (ft f) (fp f) (frk f + 1) (fd f) (fsib f)) x)
      else (c, x)
  end.
Definition demote x : tree :=
  match x with E => E | T l p rk d y => T l p (rk - 1) d y end.
Definition promote x : tree :=
  match x with E => E | T l p rk d y => T l p (rk + 1) d y end.
(** One rotation, and the old parent loses a rank. *)
Definition single f x : tree :=
  match rot f x with
  | E => E
  | T l p rk d y => if ft f then T (demote l) p rk d y else T l p rk d (demote y)
  end.
(** Two rotations of the inner grandchild. *)
Definition inner f x : frame :=
  match x with
  | E => f
  | T l n rk d y => if ft f then Frame false n rk d y else Frame true n rk d l
  end.
Definition double f x : tree :=
  match rot f (rot (inner f x) (moved f x)) with
  | E => E
  | T l z rk d y => promote (T (demote l) z rk d (demote y))
  end.
Definition settle c x : tree :=
  match c with
  | [] => x
  | f :: c' =>
      if (frk f - trank x =? 0) && (1 <? frk f - trank (fsib f)) then
        match moved f x with
        | E => plug c' (single f x)
        | z => if trank x - trank z =? 2 then plug c' (single f x)
               else if trank x - trank z =? 1 then plug c' (double f x)
               else plug c x
        end
      else plug c x
  end.
Definition balance c x : tree := settle (up c x).1 (up c x).2.

Lemma promote_up_run fuel r c x :
  focus r c x → x ≠ E → (length c < fuel)%nat →
  ∃ r', promote_up fuel (tptr x) r = Ok (tptr (up c x).2) r' ∧
    focus r' (up c x).1 (up c x).2 ∧ (up c x).2 ≠ E ∧ mallocs r' = mallocs r.
Proof.
  revert fuel r x. induction c as [|f c IH]; intros fuel r x H Hx Hfuel;
    (destruct fuel as [|fuel]; [simpl in Hfuel; lia|]); cbn [promote_up];
    (destruct x as [|l n rk d y] eqn:Ex; [done|]); rewrite <-Ex in *.
  - exists r. subst. destruct (focus_node _ _ _ _ _ _ _ H) as [_ Hn].
    by erewrite bind_Ok by (by apply deref_Ok).
  - pose proof H as H0. rewrite Ex in H0. destruct (focus_node _ _ _ _ _ _ _ H0) as [_ Hn].
    destruct (focus_frame _ _ _ _ H) as [Hf _].
    erewrite bind_Ok by (subst x; by apply deref_Ok). cbn [parent cpar].
    rewrite (proj2 (Z.eqb_neq (fp f) 0)) by done.
    apply focus_fill in H. unfold fill in H.
    cbn [up]. set (dx := frk f - trank x). set (ds := frk f - trank (fsib f)).
    assert (ravl_node_is (fp f) 0 1 r
            = Ok ((dx =? 0) && (ds =? 1) || (dx =? 1) && (ds =? 0)) r) as His.
    { destruct (ft f); rewrite (is_focus _ _ _ _ _ _ _ _ _ H); fold dx ds; f_equal;
        by destruct (dx =? 0), (dx =? 1), (ds =? 0), (ds =? 1). }
    rewrite (bind_Ok _ _ _ _ _ His). destruct ((dx =? 0) && (ds =? 1) || (dx =? 1) && (ds =? 0)).
    2: { exists r. split; [done|]. split; [by apply focus_fill|done]. }
    set (f' := Frame (ft f) (fp f) (frk f + 1) (fd f) (fsib f)).
    assert (∃ r1, ravl_node_promote (fp f) r = Ok tt r1 ∧ focus r1 c (fill f' x) ∧ mallocs r1 = mallocs r)
      as (r1&Hr1&Hf1&Hm1).
    { unfold fill, f'. cbn [ft fp frk fd fsib]. destruct (ft f); by apply promote_focus. }
    rewrite (bind_Ok _ _ _ _ _ Hr1).
    destruct (IH fuel r1 (fill f' x) Hf1) as (r2&Hr2&Hf2&Hne&Hm2);
      [unfold fill; by destruct (ft f')|simpl in Hfuel; lia|].
    exists r2. replace (fp f) with (tptr (fill f' x)) by (unfold fill; simpl; by destruct (ft f)).
    rewrite Hr2, Hm2. done.
Qed.

Lemma trank_tree m par x : tree_at m par x → x ≠ E → ∃ l p rk d y, x = T l p rk d y ∧ p ≠ 0.
Proof. destruct x as [|l p rk d y]; [done|]. intros (?&_) _. by exists l, p, rk, d, y. Qed.

Lemma single_run r f c x :
  focus r (f :: c) x → x ≠ E → 0 < frk f →
  ∃ r', (ravl_rotate (tptr x) ;; ravl_node_demote (fp f)) r = Ok tt r' ∧
    focus r' c (single f x) ∧ mallocs r' = mallocs r.
Proof.
  intros H Hx Hrk. destruct (rotate_focus _ _ _ _ Hx H) as (r1&Hr1&Hf1&Hm1).
  rewrite (bind_Ok _ _ _ _ _ Hr1). unfold single. destruct x as [|l n rk d y]; [done|].
  unfold rot in *. destruct (ft f).
  - apply focus_left in Hf1. destruct (demote_focus _ _ _ _ _ _ _ Hf1 Hrk) as (r2&?&?&?).
    exists r2. rewrite focus_left. by rewrite <-Hm1.
  - apply focus_right in Hf1. destruct (demote_focus _ _ _ _ _ _ _ Hf1 Hrk) as (r2&?&?&?).
    exists r2. rewrite focus_right. by rewrite <-Hm1.
Qed.
Lemma double_run r f c x :
  focus r (f :: c) x → x ≠ E → moved f x ≠ E → 0 < frk f → 0 < trank x →
  ∃ r', (ravl_rotate (tptr (moved f x)) ;; ravl_rotate (tptr (moved f x)) ;;
         ravl_node_promote (tptr (moved f x)) ;; ravl_node_demote (tptr x) ;;
         ravl_node_demote (fp f)) r = Ok tt r' ∧
    focus r' c (double f x) ∧ mallocs r' = mallocs r.
Proof.
  intros H Hx Hz Hrk Hrx. destruct x as [|l n rk d y]; [done|]. set (x := T l n rk d y) in *.
  set (z := moved f x) in *.
  assert (focus r (inner f x :: f :: c) z) as Hfz.
  { unfold inner, z, moved, x. destruct (ft f) eqn:Et; rewrite focus_fill; unfold fill; simpl; exact H. }
  destruct (rotate_focus _ _ _ _ Hz Hfz) as (r1&Hr1&Hf1&Hm1). rewrite (bind_Ok _ _ _ _ _ Hr1).
  assert (rot (inner f x) z ≠ E ∧ tptr (rot (inner f x) z) = tptr z) as [Hz1 Hz1p].
  { unfold rot. destruct z; [done|]. by destruct (ft (inner f x)). }
  destruct (rotate_focus _ _ _ _ Hz1 Hf1) as (r2&Hr2&Hf2&Hm2). rewrite Hz1p in Hr2.
  rewrite (bind_Ok _ _ _ _ _ Hr2). unfold double. fold z.
  destruct z as [|b zp zrk zd e] eqn:Ez; [done|]. unfold inner, rot in Hf2 |- *. unfold x in Hf2 |- *.
  simpl tptr in *. destruct (ft f) eqn:Et; simpl in Hf2 |- *.
  all: destruct (promote_focus _ _ _ _ _ _ _ Hf2) as (r3&Hr3&Hf3&Hm3); rewrite (bind_Ok _ _ _ _ _ Hr3).
  - apply focus_right in Hf3.
    destruct (demote_focus _ _ _ _ _ _ _ Hf3 Hrx) as (r4&Hr4&Hf4&Hm4). rewrite (bind_Ok _ _ _ _ _ Hr4).
    apply focus_right, focus_left in Hf4.
    destruct (demote_focus _ _ _ _ _ _ _ Hf4 Hrk) as (r5&Hr5&Hf5&Hm5). exists r5.
    split; [done|]. split; [by apply focus_left|congruence].
  - apply focus_left in Hf3.
    destruct (demote_focus _ _ _ _ _ _ _ Hf3 Hrx) as (r4&Hr4&Hf4&Hm4). rewrite (bind_Ok _ _ _ _ _ Hr4).
    apply focus_left, focus_right in Hf4.
    destruct (demote_focus _ _ _ _ _ _ _ Hf4 Hrk) as (r5&Hr5&Hf5&Hm5). exists r5.
    split; [done|]. split; [by apply focus_right|congruence].
Qed.

(** ** The rank rule *)

(** Every node has a greater rank than its children. *)
Fixpoint rank_rule x : Prop :=
  match x with
  | E => True
  | T l _ rk _ y => trank l < rk ∧ trank y < rk ∧ rank_rule l ∧ rank_rule y
  end.
(** The rank rule around a hole that holds a tree of rank [h]. *)
Fixpoint rule_around c (h : Z) : Prop :=
  match c with
  | [] => True
  | f :: c' => h < frk f ∧ trank (fsib f) < frk f ∧ rank_rule (fsib f) ∧ rule_around c' (frk f)
  end.
Lemma rank_rule_plug c x : rank_rule (plug c x) ↔ rank_rule x ∧ rule_around c (trank x).
Proof.
  revert x. induction c as [|f c IH]; intros x; simpl; [tauto|]. rewrite IH.
  unfold fill. destruct (ft f); simpl; tauto.
Qed.
Lemma trank_nonneg x : rank_rule x → -1 ≤ trank x.
Proof.
  induction x as [|l IHl p rk d y IHy]; simpl; [lia|]. intros (?&?&Hl&_). specialize (IHl Hl). lia.
Qed.
(** A new leaf, or a node with one child that is one rank below it and one that is two below. *)
Definition fresh_node x : Prop :=
  match x with
  | E => False
  | T l _ rk _ y => l = E ∧ y = E ∨ rk - trank l = 1 ∧ rk - trank y = 2 ∨
                    rk - trank l = 2 ∧ rk - trank y = 1
  end.
Lemma up_rule c x :
  rank_rule x → fresh_node x → rule_around c (trank x - 1) →
  rank_rule (up c x).2 ∧ fresh_node (up c x).2 ∧ rule_around (up c x).1 (trank (up c x).2 - 1) ∧
  match (up c x).1 with
  | [] => True
  | f :: _ => trank (up c x).2 < frk f ∨
              trank (up c x).2 = frk f ∧ 1 < frk f - trank (fsib f)
  end.
Proof.
  revert x. induction c as [|f c IH]; intros x Hr Hf Hc; [done|]. cbn [up].
  destruct Hc as (H1&H2&H3&H4).
  destruct ((frk f - trank x =? 0) && (frk f - trank (fsib f) =? 1) ||
            (frk f - trank x =? 1) && (frk f - trank (fsib f) =? 0)) eqn:Eb.
  - assert (frk f = trank x ∧ frk f - trank (fsib f) = 1) as [E1 E2] by lia.
    assert (rule_around c (frk f + 1 - 1)) by (by replace (frk f + 1 - 1) with (frk f) by lia).
    apply IH; unfold fill; destruct (ft f); simpl; try done; try (repeat split; done || lia).
  - cbn [fst snd rule_around]. repeat split; try done. lia.
Qed.
Lemma settle_rule c x :
  rank_rule x → fresh_node x → rule_around c (trank x - 1) →
  match c with [] => True | f :: _ => trank x < frk f ∨ trank x = frk f ∧ 1 < frk f - trank (fsib f) end →
  rank_rule (settle c x).
Proof.
  intros Hx Hfr Hc Hcase. destruct c as [|f c]; [done|]. cbn [settle].
  destruct Hc as (H1&H2&H3&H4). destruct Hcase as [Hlt|[Heq Hs]].
  { rewrite (proj2 (Z.eqb_neq (frk f - trank x) 0)) by lia. cbn [andb].
    rewrite rank_rule_plug. by repeat split. }
  rewrite (proj2 (Z.eqb_eq (frk f - trank x) 0)), (proj2 (Z.ltb_lt 1 _)) by lia. cbn [andb].
  destruct x as [|l n rk d y]; [done|]. destruct Hx as (Hl&Hy&Hrl&Hry). cbn [trank] in *.
  pose proof (trank_nonneg _ H3). pose proof (trank_nonneg _ Hrl). pose proof (trank_nonneg _ Hry).
  assert (∀ l' p' d' y', rank_rule (T l' p' rk d' y') → rank_rule (plug c (T l' p' rk d' y'))) as Hplug.
  { intros. rewrite rank_rule_plug. split; [done|]. cbn [trank]. by rewrite Heq. }
  assert (rule_around c rk) by (by rewrite Heq).
  unfold single, double, moved, inner, rot. destruct (ft f).
  - destruct l as [|b z zrk zd e].
    { apply Hplug. simpl in *. repeat split; try done; lia. }
    simpl in Hfr, Hl, Hy. destruct Hfr as [[? ?]|Hfr]; [done|]. cbn [trank]. destruct Hrl as (?&?&?&?).
    destruct (Z.eqb_spec (rk - zrk) 2); [|destruct (Z.eqb_spec (rk - zrk) 1); [|lia]].
    + apply Hplug. simpl in *. repeat split; try done; lia.
    + rewrite rank_rule_plug. simpl in *. replace (zrk + 1) with rk by lia.
      repeat split; try done; lia.
  - destruct y as [|b z zrk zd e].
    { apply Hplug. simpl in *. repeat split; try done; lia. }
    simpl in Hfr, Hl, Hy. destruct Hfr as [[? ?]|Hfr]; [done|]. cbn [trank]. destruct Hry as (?&?&?&?).
    destruct (Z.eqb_spec (rk - zrk) 2); [|destruct (Z.eqb_spec (rk - zrk) 1); [|lia]].
    + apply Hplug. simpl in *. repeat split; try done; lia.
    + rewrite rank_rule_plug. simpl in *. replace (zrk + 1) with rk by lia.
      repeat split; try done; lia.
Qed.
Lemma balance_rule c x :
  rank_rule x → fresh_node x → rule_around c (trank x - 1) → rank_rule (balance c x).
Proof. intros H1 H2 H3. destruct (up_rule _ _ H1 H2 H3) as (?&?&?&?). by apply settle_rule. Qed.

(** ** Balancing keeps the order *)

Lemma inorder_plug c x x' : inorder x = inorder x' → inorder (plug c x) = inorder (plug c x').
Proof.
  revert x x'. induction c as [|f c IH]; intros x x' H; [done|]. apply IH.
  unfold fill. destruct (ft f); simpl; by rewrite H.
Qed.
Lemma inorder_promote x : inorder (promote x) = inorder x.
Proof. by destruct x. Qed.
Lemma inorder_demote x : inorder (demote x) = inorder x.
Proof. by destruct x. Qed.
Lemma inorder_rot f x : x ≠ E → inorder (rot f x) = inorder (fill f x).
Proof.
  destruct x; [done|]. intros _. unfold rot, fill. destruct (ft f); simpl; by rewrite <-!app_assoc.
Qed.
Lemma inorder_single f x : x ≠ E → inorder (single f x) = inorder (fill f x).
Proof.
  intros Hx. rewrite <-inorder_rot by done. unfold single. destruct (rot f x); [done|].
  destruct (ft f); simpl; by rewrite inorder_demote.
Qed.
Lemma inorder_double f x : x ≠ E → moved f x ≠ E → inorder (double f x) = inorder (fill f x).
Proof.
  intros Hx Hz. unfold double. destruct x as [|l n rk d y]; [done|].
  unfold inner, moved in *. unfold rot, fill. destruct (ft f).
  - destruct l as [|b z zrk zd e]; [done|]. simpl. by simplify_list_eq.
  - destruct y as [|b z zrk zd e]; [done|]. simpl. by simplify_list_eq.
Qed.
Lemma inorder_up c x : inorder (plug (up c x).1 (up c x).2) = inorder (plug c x).
Proof.
  revert x. induction c as [|f c IH]; intros x; [done|]. cbn [up]. case_match; [|done].
  rewrite IH. cbn [plug]. apply inorder_plug. unfold fill. simpl. by destruct (ft f).
Qed.
Lemma inorder_settle c x : x ≠ E → inorder (settle c x) = inorder (plug c x).
Proof.
  intros Hx. destruct c as [|f c]; [done|]. cbn [settle plug]. case_match; [|done].
  destruct (moved f x) as [|zl z zrk zd zr] eqn:Ez.
  { apply inorder_plug. by apply inorder_single. }
  case_match; [apply inorder_plug; by apply inorder_single|].
  case_match; [|done]. apply inorder_plug, inorder_double; [done|]. by rewrite Ez.
Qed.

(** ** [ravl_balance] *)

Lemma difference_focus r f c l n rk d y :
  focus r (f :: c) (T l n rk d y) →
  ravl_node_rank_difference n r = Ok (frk f - rk) r ∧
  ravl_node_rank_difference_parent (fp f) (tptr (fsib f)) r = Ok (frk f - trank (fsib f)) r.
Proof.
  intros H. destruct (focus_node _ _ _ _ _ _ _ H) as [_ Hn].
  pose proof H as H'. apply focus_fill in H'. unfold fill in H'.
  unfold ravl_node_rank_difference. rewrite (bind_Ok _ _ _ _ _ (deref_Ok _ _ _ Hn)).
  cbn [parent cpar].
  destruct (ft f); destruct (difference_children _ _ _ _ _ _ _ H') as [? ?]; done.
Qed.
Lemma settle_run r c x :
  focus r c x → rank_rule x → fresh_node x → rule_around c (trank x - 1) →
  ∃ r', rebalance (tptr x) r = Ok tt r' ∧
    repr r' (settle c x) ∧ mallocs r' = mallocs r.
Proof.
  intros H Hr Hfr Hc. destruct x as [|l n rk d y]; [done|]. set (x := T l n rk d y) in *.
  change (tptr x) with n. destruct (focus_node _ _ _ _ _ _ _ H) as [Hn0 Hn]. unfold rebalance.
  pose proof (trank_nonneg _ Hr) as Hpos. cbn [trank x] in Hpos.
  destruct c as [|f c].
  - unfold ravl_node_sibling. erewrite bind_Ok.
    2: { erewrite bind_Ok by (by eapply slot_type_focus). done. }
    rewrite (bind_Ok _ _ _ _ _ (deref_Ok _ _ _ Hn)). cbn [parent cpar].
    assert (ravl_node_rank n r = Ok rk r) as Hrk by (apply (rank_tree r _ _ x eq_refl (f_tree _ _ _ H))).
    unfold ravl_node_rank_difference. erewrite bind_Ok.
    2: { rewrite (bind_Ok _ _ _ _ _ (deref_Ok _ _ _ Hn)). unfold ravl_node_rank_difference_parent.
         cbn [parent]. erewrite (bind_Ok (ravl_node_rank 0)) by done. by rewrite (bind_Ok _ _ _ _ _ Hrk). }
    erewrite bind_Ok by done. destruct Hr as (?&?&Hrl&?). pose proof (trank_nonneg _ Hrl).
    rewrite (proj2 (Z.eqb_neq (-1 - rk) 0)) by lia. exists r.
    split; [done|]. split; [|done]. by apply (repr_focus r [] x).
  - rewrite (bind_Ok _ _ _ _ _ (sibling_focus _ _ _ _ _ _ _ _ H)).
    rewrite (bind_Ok _ _ _ _ _ (deref_Ok _ _ _ Hn)). cbn [parent cpar].
    destruct (difference_focus _ _ _ _ _ _ _ _ H) as [Hd1 Hd2].
    rewrite (bind_Ok _ _ _ _ _ Hd1), (bind_Ok _ _ _ _ _ Hd2). cbn [settle]. change (trank x) with rk.
    destruct ((frk f - rk =? 0) && (1 <? frk f - trank (fsib f))) eqn:Eb; cbn [when].
    2: { exists r. split; [done|]. split; [by apply repr_focus|done]. }
    rewrite (bind_Ok _ _ _ _ _ (slot_type_focus _ _ _ _ _ _ _ H)). cbn [slot_of ravl_slot_opposite].
    erewrite (bind_Ok (ret _)) by done.
    assert (slot (RavlNode (fp f) (tptr l, tptr y) rk d) (negb (ft f)) = tptr (moved f x)) as ->
      by (unfold slot; simpl; by destruct (ft f)).
    destruct Hc as (?&?&H3&?). pose proof (trank_nonneg _ H3).
    assert (0 < frk f ∧ 0 < rk) as [Hf0 Hrk0] by lia.
    destruct (single_run _ _ _ _ H) as (r1&Hr1&Hf1&Hm1); [done|done|].
    assert (ravl_node_slot_type n r = Ok (RAVL_SLOT (ft f)) r) as Hty by (by eapply slot_type_focus in H).
    destruct (moved f x) as [|zl z zrk zd zr] eqn:Ez; simpl tptr.
    { cbn [orb Z.eqb]. erewrite (bind_Ok (ret 2)) by done. exists r1. split; [done|].
      split; [by apply repr_focus|done]. }
    assert (focus r (inner f x :: f :: c) (T zl z zrk zd zr)) as Hz.
    { rewrite <-Ez. unfold inner, moved, x. destruct (ft f) eqn:Et; rewrite focus_fill; unfold fill; simpl; exact H. }
    destruct (focus_node _ _ _ _ _ _ _ Hz) as [Hz0 _].
    rewrite (proj2 (Z.eqb_neq z 0)) by done. cbn [orb].
    destruct (difference_focus _ _ _ _ _ _ _ _ Hz) as [Hdz _].
    assert (frk (inner f x) = rk) as Hfi by (unfold inner, x; by destruct (ft f)).
    rewrite Hfi in Hdz. rewrite (bind_Ok _ _ _ _ _ Hdz). change (trank (T zl z zrk zd zr)) with zrk.
    destruct (rk - zrk =? 2).
    { exists r1. split; [done|]. split; [by apply repr_focus|done]. }
    destruct (rk - zrk =? 1); cbn [when].
    2: { exists r. split; [done|]. split; [by apply repr_focus|done]. }
    destruct (double_run _ _ _ _ H) as (r2&Hr2&Hf2&Hm2); [done|by rewrite Ez|done|done|].
    rewrite Ez in Hr2. exists r2. split; [done|]. split; [by apply repr_focus|done].
Qed.
Lemma balance_run fuel r c x :
  focus r c x → (length c < fuel)%nat → rank_rule x → fresh_node x → rule_around c (trank x - 1) →
  ∃ r', ravl_balance fuel (tptr x) r = Ok tt r' ∧ repr r' (balance c x) ∧ mallocs r' = mallocs r.
Proof.
  intros H Hfuel Hx Hf Hc. assert (x ≠ E) as Hne by (by intros ->).
  destruct (promote_up_run fuel r c x H Hne Hfuel) as (r1&Hr1&Hf1&_&Hm1).
  destruct (up_rule _ _ Hx Hf Hc) as (Hx1&Hfr1&Hc1&_).
  destruct (settle_run r1 _ _ Hf1 Hx1 Hfr1 Hc1) as (r2&Hr2&Hf2&Hm2).
  exists r2. unfold ravl_balance. rewrite (bind_Ok _ _ _ _ _ Hr1). rewrite Hr2, Hm2. done.
Qed.

(** ** Insertion *)

Fixpoint before c : list (Z * D) :=
  match c with
  | [] => []
  | f :: c' => before c' ++ (if ft f then inorder (fsib f) ++ [(fp f, fd f)] else [])
  end.
Fixpoint after c : list (Z * D) :=
  match c with
  | [] => []
  | f :: c' => (if ft f then [] else (fp f, fd f) :: inorder (fsib f)) ++ after c'
  end.
Lemma inorder_ctx c x : inorder (plug c x) = before c ++ inorder x ++ after c.
Proof.
  revert x. induction c as [|f c IH]; intros x; simpl; [by rewrite app_nil_r|].
  rewrite IH. unfold fill. destruct (ft f); simpl; by simplify_list_eq.
Qed.
Lemma inorder_ptrs x : (inorder x).*1 = ptrs x.
Proof. induction x as [|l IHl p rk d y IHy]; simpl; [done|]. by rewrite fmap_app, fmap_cons, IHl, IHy. Qed.



Lemma load_ref_focus r c x : focus r c x → load_ref (cref c) r = Ok (tptr x) r.
Proof.
  intros H. destruct c as [|f c]; [unfold load_ref, gets; simpl; by rewrite (f_root _ _ _ H)|].
  destruct (focus_frame _ _ _ _ H) as [_ Hf]. simpl. rewrite (bind_Ok _ _ _ _ _ (deref_Ok _ _ _ Hf)).
  unfold slot, both. simpl. by destruct (ft f).
Qed.
(** Hanging a new node into a hole. *)
Lemma attach_run r c n d :
  focus r c E → nodes r !! n = Some (RavlNode 0 (0, 0) 0 d) → n ≠ 0 → n ∉ cptrs c →
  ∃ r', (upd_node n (set_parent (cpar c)) ;; store_ref (cref c) n) r = Ok tt r' ∧
    focus r' c (T E n 0 d E) ∧ mallocs r' = mallocs r.
Proof.
  intros [Hc _ Hroot Hnd] Hn Hn0 Hnc. rewrite app_nil_r in Hnd.
  erewrite bind_Ok by (apply upd_node_alter; by eexists).
  set (m1 := alter (set_parent (cpar c)) n (nodes r)).
  assert (ctx_at m1 c 0) as Hc1.
  { eapply ctx_at_agree, Hc. intros q Hq. apply lookup_alter_ne. by intros ->. }
  erewrite (store_ref_focus c m1) by done. eexists. split; [done|]. split; [|done].
  split; cbn [nodes root].
  - by eapply set_ref_ctx.
  - simpl. rewrite set_ref_other by done. unfold m1. by rewrite lookup_alter_eq, Hn.
  - destruct c as [|f c]; [done|]. simpl. rewrite Hroot. apply plug_root.
  - simpl. apply NoDup_app. split; [done|]. split; [set_solver|apply NoDup_singleton].
Qed.

Lemma repr_agree r r' x :
  (∀ q, q ∈ ptrs x → nodes r' !! q = nodes r !! q) → root r' = root r → repr r x → repr r' x.
Proof.
  intros Hag Hroot (Ht&Hr&Hnd). split; [by eapply tree_at_agree|]. by rewrite Hroot.
Qed.
Lemma repr_fresh r x n : repr r x → nodes r !! n = None → n ∉ ptrs x.
Proof. intros (Ht&_) Hn Hin. destruct (tree_at_nonzero _ _ _ _ Ht Hin) as [_ [? ?]]. congruence. Qed.


Lemma inorder_balance c n d : inorder (balance c (T E n 0 d E)) = before c ++ (n, d) :: after c.
Proof.
  unfold balance. rewrite inorder_settle.
  2: { assert (∀ c x, x ≠ E → (up c x).2 ≠ E) as H; [|by apply H].
       induction c0 as [|f c0 IH]; intros x Hx; [done|]. cbn [up]. case_match; [|done].
       apply IH. unfold fill. by destruct (ft _). }
  by rewrite inorder_up, inorder_ctx.
Qed.

(** ** Search *)

Definition hd_ptr (l : list (Z * D)) : Z := match l with [] => 0 | a :: _ => a.1 end.
Definition last_ptr (l : list (Z * D)) : Z := match last l with None => 0 | Some a => a.1 end.
(** The first pointer of a list or the last one. *)
Definition end_ptr (t : bool) (l : list (Z * D)) : Z := if t then last_ptr l else hd_ptr l.
Lemma last_ptr_app (u v : list (Z * D)) : v ≠ [] → last_ptr (u ++ v) = last_ptr v.
Proof. intros Hv. unfold last_ptr. rewrite last_app. by destruct (last v) eqn:El; [|apply last_None in El]. Qed.
Lemma last_ptr_cons (a : Z * D) v : v ≠ [] → last_ptr (a :: v) = last_ptr v.
Proof. apply (last_ptr_app [a]). Qed.

Lemma type_most_run fuel r c x t :
  focus r c x → x ≠ E → (length (inorder x) ≤ fuel)%nat →
  ravl_node_type_most fuel (tptr x) t r = Ok (end_ptr t (inorder x)) r.
Proof.
  revert fuel c. induction x as [|l IHl p rk d y IHy]; intros fuel c H Hx Hfuel; [done|].
  simpl in Hfuel. rewrite length_app in Hfuel. simpl in Hfuel. destruct fuel as [|fuel]; [lia|].
  cbn [ravl_node_type_most tptr]. destruct (focus_node _ _ _ _ _ _ _ H) as [Hp Hn].
  rewrite (bind_Ok _ _ _ _ _ (deref_Ok _ _ _ Hn)). unfold slot. cbn [slots fst snd].
  destruct t; cbn [end_ptr].
  - destruct y as [|yl yp yrk yd yr].
    { simpl. unfold last_ptr. by rewrite last_snoc. }
    pose proof H as Hy. apply focus_right in Hy. destruct (focus_node _ _ _ _ _ _ _ Hy) as [Hyp _].
    cbn [tptr]. rewrite (proj2 (Z.eqb_neq yp 0)) by done.
    etrans; [apply (IHy fuel _ Hy); [done|lia]|]. cbn [end_ptr inorder].
    rewrite (last_ptr_app (inorder l)) by done. by rewrite last_ptr_cons by (by destruct (inorder yl)).
  - destruct l as [|ll lp lrk ld lr]; [done|].
    pose proof H as Hl. apply focus_left in Hl. destruct (focus_node _ _ _ _ _ _ _ Hl) as [Hlp _].
    cbn [tptr]. rewrite (proj2 (Z.eqb_neq lp 0)) by done.
    etrans; [apply (IHl fuel _ Hl); [done|lia]|]. cbn [end_ptr inorder]. by destruct (inorder ll).
Qed.
Lemma climb_run fuel r c x t :
  focus r c x → x ≠ E → (length c < fuel)%nat →
  climb fuel (tptr x) t r = Ok (if t then hd_ptr (after c) else last_ptr (before c)) r.
Proof.
  revert fuel x. induction c as [|f c IH]; intros fuel x H Hx Hfuel;
    (destruct fuel as [|fuel]; [simpl in Hfuel; lia|]); (destruct x as [|l n rk d y]; [done|]);
    cbn [climb tptr]; destruct (focus_node _ _ _ _ _ _ _ H) as [Hn0 Hn];
    rewrite (bind_Ok _ _ _ _ _ (deref_Ok _ _ _ Hn)); cbn [parent cpar].
  { by destruct t. }
  destruct (focus_frame _ _ _ _ H) as [Hf0 Hf]. rewrite (proj2 (Z.eqb_neq (fp f) 0)) by done.
  rewrite (bind_Ok _ _ _ _ _ (deref_Ok _ _ _ Hf)).
  assert (tptr (fsib f) ≠ n) as Hsib.
  { intros Heq. destruct (focus_distinct _ _ _ _ H) as (_&_&_&_&_&_&Hfar&_).
    destruct (Hfar n) as [Hns _]; [simpl; set_solver|]. apply Hns. rewrite <-Heq. apply tptr_in.
    intros Hs. by rewrite Hs in Heq. }
  assert (climb fuel (fp f) t r = Ok (if t then hd_ptr (after c) else last_ptr (before c)) r) as Hup.
  { rewrite focus_fill in H.
    replace (fp f) with (tptr (fill f (T l n rk d y))) by (unfold fill; by destruct (ft f)).
    apply IH; [done|unfold fill; by destruct (ft f)|simpl in Hfuel; lia]. }
  unfold slot, both. cbn [slots]. cbn [before after tptr]. destruct (ft f), t; cbn [fst snd].
  - rewrite Z.eqb_refl. apply Hup.
  - rewrite (proj2 (Z.eqb_neq _ n)) by done. rewrite app_assoc. unfold last_ptr. by rewrite last_snoc.
  - by rewrite (proj2 (Z.eqb_neq _ n)) by done.
  - rewrite Z.eqb_refl, app_nil_r. apply Hup.
Qed.
Lemma cessor_run fuel r c l n rk d y t :
  focus r c (T l n rk d y) → (length c < fuel)%nat →
  (length (inorder l) ≤ fuel)%nat → (length (inorder y) ≤ fuel)%nat →
  ravl_node_cessor fuel n t r
  = Ok (if t then hd_ptr (inorder y ++ after c) else last_ptr (before c ++ inorder l)) r.
Proof.
  intros H Hc Hl Hy. unfold ravl_node_cessor. destruct (focus_node _ _ _ _ _ _ _ H) as [_ Hn].
  rewrite (bind_Ok _ _ _ _ _ (deref_Ok _ _ _ Hn)). unfold slot. cbn [slots]. destruct t; cbn [fst snd].
  - destruct y as [|yl yp yrk yd yr]; [by apply (climb_run fuel r c (T l n rk d E) true)|].
    pose proof H as H'. apply focus_right in H'. destruct (focus_node _ _ _ _ _ _ _ H') as [Hyp _].
    cbn [tptr]. rewrite (proj2 (Z.eqb_neq yp 0)) by done. cbn [negb].
    etrans; [by apply (type_most_run fuel r _ _ false H')|]. cbn [end_ptr inorder]. by destruct (inorder yl).
  - destruct l as [|ll lp lrk ld lr].
    { cbn [tptr inorder]. rewrite app_nil_r. by apply (climb_run fuel r c (T E n rk d y) false). }
    pose proof H as H'. apply focus_left in H'. destruct (focus_node _ _ _ _ _ _ _ H') as [Hlp _].
    cbn [tptr]. rewrite (proj2 (Z.eqb_neq lp 0)) by done. cbn [negb].
    etrans; [by apply (type_most_run fuel r _ _ true H')|]. cbn [end_ptr].
    by rewrite last_ptr_app by (simpl; by destruct (inorder ll)).
Qed.

Lemma context_length c : (length c ≤ length (before c) + length (after c))%nat.
Proof. induction c as [|f c IH]; simpl; [lia|]. destruct (ft f); rewrite !length_app; simpl; lia. Qed.

(** ** Removal *)

(** The reference of a node depends on the node and on its parent only. *)
Lemma ref_agree r r' c l p rk d y :
  focus r c (T l p rk d y) → nodes r' !! p = nodes r !! p →
  (∀ q, q ∈ cptrs c → nodes r' !! q = nodes r !! q) → ravl_node_ref p r' = Ok (cref c) r'.
Proof.
  intros H Hn Hc. pose proof (ref_focus _ _ _ _ _ _ _ H) as Href.
  destruct (focus_node _ _ _ _ _ _ _ H) as [_ Hp]. pose proof Hp as Hp'. rewrite <-Hn in Hp'.
  unfold ravl_node_ref, ravl_node_slot_type, deref, gets, bind in *. rewrite Hp in Href. rewrite Hp'.
  cbn [ret parent] in *. destruct c as [|f c]; [done|]. cbn [cpar] in *.
  destruct (focus_frame _ _ _ _ H) as [Hf Hfn]. rewrite (proj2 (Z.eqb_neq (fp f) 0)) in * by done.
  rewrite Hfn in Href. rewrite Hc, Hfn by (simpl; set_solver). cbn [ret] in *.
  rewrite Hp in Href. rewrite Hp'. unfold ret in *. congruence.
Qed.

(** The only child of a node, or none, takes the place of the node. *)
Definition detach (n z par : Z) : M (ravl D) unit :=
  when (negb (z =? 0)) (upd_node z (set_parent par)) ;;
  let! ref := ravl_node_ref n in store_ref ref z ;; Free n.
Lemma detach_run r c l n rk d y z :
  focus r c (T l n rk d y) → l = E ∧ z = y ∨ y = E ∧ z = l →
  ∃ r', detach n (tptr z) (cpar c) r = Ok tt r' ∧ focus r' c z ∧ mallocs r' = mallocs r ∧
    dom (nodes r') = dom (nodes r) ∖ {[n]}.
Proof.
  intros H Hz. destruct (focus_node _ _ _ _ _ _ _ H) as [Hn0 Hn].
  set (m1 := match z with E => nodes r | _ => alter (set_parent (cpar c)) (tptr z) (nodes r) end).
  assert (tree_at (nodes r) n z ∧ NoDup (cptrs c ++ n :: ptrs z)) as [Hzt Hnd].
  { destruct H as [_ (_&_&Hl&Hy) _ Hnd]. simpl in Hnd.
    destruct Hz as [[-> ->]|[-> ->]]; (split; [done|]); [done|]. by rewrite (Permutation_cons_append (ptrs l) n). }
  apply NoDup_app in Hnd as (Hndc&Hdis&Hndz). apply NoDup_cons in Hndz as [Hnz Hndz].
  assert (∀ q, q ∉ ptrs z → m1 !! q = nodes r !! q) as Hm1.
  { intros q Hq. unfold m1. destruct z; [done|]. apply lookup_alter_ne. intros <-. simpl in Hq. set_solver. }
  assert (when (negb (tptr z =? 0)) (upd_node (tptr z) (set_parent (cpar c))) r
          = Ok tt (Ravl m1 (root r) (mallocs r))) as Hwhen.
  { unfold m1. destruct z as [|zl zp zrk zd zy]; [by destruct r|]. destruct Hzt as (Hz0&Hzn&_). cbn [tptr].
    rewrite (proj2 (Z.eqb_neq zp 0)) by done. cbn [negb when]. by rewrite upd_node_alter by (by eexists). }
  unfold detach. rewrite (bind_Ok _ _ _ _ _ Hwhen).
  assert (ravl_node_ref n (Ravl m1 (root r) (mallocs r)) = Ok (cref c) (Ravl m1 (root r) (mallocs r))) as Href.
  { eapply ref_agree; [done|by apply Hm1|]. intros q Hq. apply Hm1. set_solver. }
  rewrite (bind_Ok _ _ _ _ _ Href).
  assert (ctx_at m1 c n) as Hc1.
  { eapply ctx_at_agree, (f_ctx _ _ _ H). intros q Hq. apply Hm1. set_solver. }
  rewrite (bind_Ok _ _ _ _ _ (store_ref_focus c m1 n (Ravl m1 (root r) (mallocs r)) (tptr z) Hc1 eq_refl)).
  eexists. split; [done|]. split; [|split; [done|]].
  - split; cbn [nodes root].
    + eapply ctx_at_agree; [|by eapply set_ref_ctx]. intros q Hq. apply lookup_delete_ne. set_solver.
    + eapply (tree_at_reparent (nodes r)); [done|done|..].
      * intros zl zp zrk zd zy Hzz. rewrite lookup_delete_ne, set_ref_other by (subst z; simpl in *; set_solver).
        unfold m1. subst z. cbn [tptr]. by rewrite lookup_alter_eq.
      * intros q Hq Hne. rewrite lookup_delete_ne, set_ref_other by set_solver.
        unfold m1. destruct z; [done|]. apply lookup_alter_ne. done.
    + destruct c as [|f c]; [done|]. rewrite (f_root _ _ _ H). simpl. apply plug_root.
    + apply NoDup_app. split; [done|]. split; [set_solver|done].
  - cbn [nodes]. rewrite dom_delete_L. f_equal. unfold set_ref. destruct c; rewrite ?dom_alter_L; unfold m1;
      destruct z; by rewrite ?dom_alter_L.
Qed.
Lemma remove_one fuel loops r c l n rk d y z :
  focus r c (T l n rk d y) → l = E ∧ z = y ∨ y = E ∧ z = l →
  ∃ r', ravl_remove (S fuel) loops n r = Ok tt r' ∧ focus r' c z ∧ mallocs r' = mallocs r ∧
    dom (nodes r') = dom (nodes r) ∖ {[n]}.
Proof.
  intros H Hz. destruct (focus_node _ _ _ _ _ _ _ H) as [_ Hn].
  destruct (detach_run _ _ _ _ _ _ _ _ H Hz) as (r'&Hr'&Hrest). exists r'. split; [|done].
  cbn [ravl_remove]. rewrite (bind_Ok _ _ _ _ _ (deref_Ok _ _ _ Hn)). unfold slot. cbn [slots fst snd parent RAVL_LEFT RAVL_RIGHT].
  destruct H as [_ (_&_&Hl&Hy) _ _]. apply tptr_zero in Hl. apply tptr_zero in Hy.
  destruct Hz as [[-> ->]|[-> ->]]; [by rewrite andb_false_l|]. rewrite andb_false_r.
  destruct (Z.eqb_spec (tptr l) 0) as [Hl0|Hl0]; [|done]. by rewrite Hl0 in Hr'.
Qed.

Lemma plug_app c1 c2 x : plug (c1 ++ c2) x = plug c2 (plug c1 x).
Proof. revert x. induction c1 as [|f c1 IH]; intros x; [done|]. apply IH. Qed.
Lemma before_app c1 c2 : before (c1 ++ c2) = before c2 ++ before c1.
Proof. induction c1 as [|f c1 IH]; simpl; [by rewrite app_nil_r|]. by rewrite IH, app_assoc. Qed.
Lemma after_app c1 c2 : after (c1 ++ c2) = after c1 ++ after c2.
Proof. induction c1 as [|f c1 IH]; simpl; [done|]. by rewrite IH, app_assoc. Qed.
Lemma leftmost_split y :
  y ≠ E → ∃ c s srk e z, y = plug c (T E s srk e z) ∧ before c = [].
Proof.
  induction y as [|l IHl p rk d y _]; intros Hy; [done|]. assert (l = E ∨ l ≠ E) as [->|Hl] by (destruct l; auto).
  { by exists [], p, rk, d, y. }
  destruct (IHl Hl) as (c&s&srk&e&z&Heq&Hb). exists (c ++ [Frame false p rk d y]), s, srk, e, z.
  by rewrite plug_app, before_app, Hb, <-Heq.
Qed.

(** A subtree of a smaller rank keeps the rule. *)
Lemma shrink_rule c x z :
  rank_rule (plug c x) → rank_rule z → trank z ≤ trank x →
  rank_rule (plug c z) ∧ trank (plug c z) ≤ trank (plug c x).
Proof.
  revert x z. induction c as [|f c IH]; intros x z Hx Hz Hk; [done|]. cbn [plug] in *.
  pose proof Hx as Hf. apply rank_rule_plug in Hf as [Hf _].
  apply IH; [done|..]; unfold fill in *; destruct (ft f); simpl in *; intuition lia.
Qed.

(** What is left of an in-order list when the node [n] between [u] and [v] is
    removed: the node goes, or it stays with the data of the next one, which goes. *)
Definition removed (n : Z) (u v w : list (Z * D)) (gone : Z) : Prop :=
  w = u ++ v ∧ gone = n ∨ ∃ e v', v = (gone, e) :: v' ∧ w = u ++ (n, e) :: v'.
Definition removes r c l n y (run : res (ravl D) unit) : Prop :=
  ∃ r' x' gone, run = Ok tt r' ∧ repr r' x' ∧ rank_rule x' ∧ mallocs r' = mallocs r ∧
    removed n (before c ++ inorder l) (inorder y ++ after c) (inorder x') gone ∧
    dom (nodes r') = dom (nodes r) ∖ {[gone]}.

Lemma remove_leaf fuel loops r c l n rk d y :
  focus r c (T l n rk d y) → rank_rule (plug c (T l n rk d y)) → l = E ∨ y = E →
  removes r c l n y (ravl_remove (S fuel) loops n r).
Proof.
  intros H Hrk Hone. pose proof Hrk as ((Hrl&Hry&Hl&Hy)&_)%rank_rule_plug.
  assert (∃ z, (l = E ∧ z = y ∨ y = E ∧ z = l) ∧ inorder z = inorder l ++ inorder y ∧
            rank_rule z ∧ trank z ≤ rk) as (z&Hz&Hin&Hzr&Hzk).
  { destruct Hone as [->| ->]; [exists y|exists l]; rewrite ?app_nil_r; intuition lia. }
  destruct (remove_one fuel loops _ _ _ _ _ _ _ _ H Hz) as (r'&Hr'&Hf&Hm&Hdom).
  exists r', (plug c z), n. split; [done|]. split; [by apply repr_focus|].
  split; [by eapply shrink_rule|]. split; [done|split; [|done]].
  left. rewrite inorder_ctx, Hin. by simplify_list_eq.
Qed.
Lemma remove_inner fuel loops r c l n rk d y :
  focus r c (T l n rk d y) → rank_rule (plug c (T l n rk d y)) → l ≠ E → y ≠ E →
  (length (inorder (plug c (T l n rk d y))) < loops)%nat →
  removes r c l n y (ravl_remove (S (S fuel)) loops n r).
Proof.
  intros H Hrk Hle Hye Hloops. destruct (focus_node _ _ _ _ _ _ _ H) as [Hn0 Hn].
  destruct (leftmost_split y Hye) as (c2&s&srk&e&z&Hsplit&Hb2).
  assert (inorder y = (s, e) :: inorder z ++ after c2) as Hiny by (by rewrite Hsplit, inorder_ctx, Hb2).
  cbn [ravl_remove]. rewrite (bind_Ok _ _ _ _ _ (deref_Ok _ _ _ Hn)).
  unfold slot at 1 2. cbn [slots fst snd RAVL_LEFT RAVL_RIGHT]. destruct (f_tree _ _ _ H) as (_&_&Hlt&Hyt).
  rewrite (proj2 (Z.eqb_neq (tptr l) 0)) by (by rewrite tptr_zero).
  rewrite (proj2 (Z.eqb_neq (tptr y) 0)) by (by rewrite tptr_zero). cbn [negb andb].
  assert (ravl_node_successor loops n r = Ok s r) as Hs.
  { pose proof (context_length c) as Hlc.
    rewrite inorder_ctx, !length_app in Hloops. cbn [inorder] in Hloops. rewrite length_app in Hloops. simpl in Hloops.
    etrans; [eapply (cessor_run loops _ _ _ _ _ _ _ RAVL_RIGHT H); lia|]. cbn. by rewrite Hiny. }
  rewrite (bind_Ok _ _ _ _ _ Hs).
  assert (∀ r0 d0, focus r0 c (T l n rk d0 y) →
            focus r0 (c2 ++ Frame true n rk d0 l :: c) (T E s srk e z)) as Hdown.
  { intros r0 d0 H0. apply repr_focus. rewrite plug_app, <-Hsplit. by apply repr_focus, focus_right. }
  destruct (focus_node _ _ _ _ _ _ _ (Hdown _ _ H)) as [_ Hsn].
  rewrite (bind_Ok _ _ _ _ _ (deref_Ok _ _ _ Hsn)). cbn [data].
  destruct (change_focus r c l n rk d y rk e (set_data e) H) as (r2&Hr2&Hf2&Hm2&Hdom2); [done|].
  rewrite (bind_Ok _ _ _ _ _ Hr2).
  destruct (remove_one fuel loops _ _ _ _ _ _ _ z (Hdown _ _ Hf2)) as (r3&Hr3&Hf3&Hm3&Hdom3); [auto|].
  exists r3, (plug (c2 ++ Frame true n rk e l :: c) z), s. split; [done|]. split; [by apply repr_focus|].
  split; [|split; [by rewrite Hm3|split; [|by rewrite Hdom3, Hdom2]]].
  - rewrite plug_app. apply rank_rule_plug in Hrk as [(?&?&?&Hy) Hc]. pose proof Hy as Hy'.
    rewrite Hsplit, rank_rule_plug in Hy'. destruct Hy' as [(?&?&?&?) _].
    rewrite Hsplit in Hy. destruct (shrink_rule c2 _ z Hy) as [Hpz Htz]; [done|simpl; lia|].
    rewrite <-Hsplit in Htz. apply rank_rule_plug. split; [done|]. simpl. split; [lia|done].
  - right. exists e, (inorder z ++ after c2 ++ after c). rewrite Hiny.
    split; [by simplify_list_eq|]. rewrite inorder_ctx, before_app, after_app, Hb2. simpl. by simplify_list_eq.
Qed.
Lemma remove_run fuel loops r c l n rk d y :
  focus r c (T l n rk d y) → rank_rule (plug c (T l n rk d y)) → (2 ≤ fuel)%nat →
  (length (inorder (plug c (T l n rk d y))) < loops)%nat →
  removes r c l n y (ravl_remove fuel loops n r).
Proof.
  intros H Hrk Hfuel Hloops. destruct fuel as [|[|fuel]]; [lia..|].
  destruct l as [|ll lp lrk ld lr]; [eapply remove_leaf; by eauto|].
  destruct y as [|yl yp yrk yd yr]; [eapply remove_leaf; by eauto|]. by eapply remove_inner.
Qed.

Lemma in_tree x n d :
  (n, d) ∈ inorder x → ∃ c l rk y, x = plug c (T l n rk d y).
Proof.
  induction x as [|l IHl p rk e y IHy]; simpl; [by intros ?%elem_of_nil|].
  rewrite elem_of_app, elem_of_cons. intros [Hin|[[= -> ->]|Hin]].
  - destruct (IHl Hin) as (c&l'&rk'&y'&->). exists (c ++ [Frame false p rk e y]), l', rk', y'. by rewrite plug_app.
  - by exists [], l, rk, y.
  - destruct (IHy Hin) as (c&l'&rk'&y'&->). exists (c ++ [Frame true p rk e l]), l', rk', y'. by rewrite plug_app.
Qed.
Lemma split_unique (u v u' v' : list (Z * D)) n d d' :
  NoDup (u ++ (n, d) :: v).*1 → u ++ (n, d) :: v = u' ++ (n, d') :: v' → u = u' ∧ d = d' ∧ v = v'.
Proof.
  revert u'. induction u as [|a u IH]; intros [|b u']; simpl; intros Hnd Heq.
  - by simplify_eq.
  - injection Heq as <- ->. apply NoDup_cons in Hnd as [Hn _]. rewrite fmap_app, fmap_cons in Hn. set_solver.
  - injection Heq as -> <-. apply NoDup_cons in Hnd as [Hn _]. rewrite fmap_app, fmap_cons in Hn. set_solver.
  - injection Heq as <- Heq. apply NoDup_cons in Hnd as [_ Hnd]. by destruct (IH _ Hnd Heq) as (->&->&->).
Qed.
(** The position of a node in the tree from its position in the list. *)
Lemma inorder_split r x n d (u v : list (Z * D)) :
  repr r x → inorder x = u ++ (n, d) :: v →
  ∃ c l rk y, x = plug c (T l n rk d y) ∧ u = before c ++ inorder l ∧ v = inorder y ++ after c.
Proof.
  intros (_&_&Hnd) Hx. rewrite <-inorder_ptrs in Hnd.
  destruct (in_tree x n d) as (c&l&rk&y&Heq); [rewrite Hx; set_solver|].
  exists c, l, rk, y. split; [done|].
  assert (inorder x = (before c ++ inorder l) ++ (n, d) :: inorder y ++ after c) as Hx'.
  { rewrite Heq, inorder_ctx. cbn [inorder]. by simplify_list_eq. }
  rewrite Hx in Hx', Hnd. destruct (split_unique _ _ _ _ _ _ _ Hnd Hx') as (->&_&->). done.
Qed.
(** Clearing visits the data in order and frees every node of the tree. *)
Lemma clear_node_ok fuel r par x :
  tree_at (nodes r) par x → NoDup (ptrs x) → (length (inorder x) < fuel)%nat →
  ∃ r', ravl_clear_node fuel (tptr x) r = Ok (inorder x).*2 r' ∧ root r' = root r ∧ mallocs r' = mallocs r ∧
    ∀ q, nodes r' !! q = if bool_decide (q ∈ ptrs x) then None else nodes r !! q.
Proof.
  revert fuel r par. induction x as [|l IHl p rk d y IHy]; intros fuel r par Ht Hnd Hfuel;
    (destruct fuel as [|fuel]; [simpl in Hfuel; lia|]).
  { exists r. split; [done|]. split; [done|]. split; [done|]. intros q. by rewrite bool_decide_eq_false_2 by set_solver. }
  destruct Ht as (Hp0&Hp&Hl&Hy). simpl in Hnd, Hfuel. rewrite length_app in Hfuel. simpl in Hfuel.
  apply NoDup_app in Hnd as (Hndl&Hdis&Hndy). apply NoDup_cons in Hndy as [Hpy Hndy].
  cbn [ravl_clear_node tptr]. rewrite (proj2 (Z.eqb_neq p 0)) by done.
  rewrite (bind_Ok _ _ _ _ _ (deref_Ok _ _ _ Hp)). unfold slot. cbn [slots fst snd RAVL_LEFT RAVL_RIGHT data].
  destruct (IHl fuel r _ Hl Hndl) as (r1&Hr1&Hroot1&Hm1&Hn1); [lia|]. rewrite (bind_Ok _ _ _ _ _ Hr1).
  assert (∀ q, q ∉ ptrs l → nodes r1 !! q = nodes r !! q) as Ha1.
  { intros q Hq. by rewrite Hn1, bool_decide_eq_false_2. }
  destruct (IHy fuel r1 p) as (r2&Hr2&Hroot2&Hm2&Hn2); [|done|lia|].
  { eapply tree_at_agree, Hy. intros q Hq. apply Ha1. set_solver. }
  rewrite (bind_Ok _ _ _ _ _ Hr2). eexists. split; [cbn [inorder]; by rewrite fmap_app|]. cbn [root mallocs nodes].
  split; [congruence|]. split; [congruence|]. intros q. cbn [ptrs].
  destruct (decide (q = p)) as [->|Hqp].
  { rewrite lookup_delete_eq, bool_decide_eq_true_2; [done|set_solver]. }
  rewrite lookup_delete_ne, Hn2, Hn1 by done. repeat case_bool_decide; try done; set_solver.
Qed.

End facts.

Global Arguments tree : clear implicits.
Global Arguments frame : clear implicits.
