(* ===== verification/RavlFacts.v ===== *)
(** * RAVL trees: correctness

    On a tree that is ordered and keeps the rank rule, insertion, search and
    removal do what they do to the sorted list of its nodes.  [Examples]: a concrete
    tree of three nodes. *)
From stdpp Require Import base list strings gmap sorting.
From S2P Require Import Prelude Ravl RavlTree.
Open Scope Z_scope.

Section facts.
#[local] Set Default Proof Using "Type".
Context {D : Type}.
Abbreviation tree := (tree D).
Abbreviation frame := (frame D).
Implicit Types (m : gmap Z (ravl_node D)) (r : ravl D) (x l y : tree) (f : frame) (c : list frame).

(** The order of the data. *)
Context (key : D → Z).
Definition lt_key (a b : Z * D) : Prop := key a.2 < key b.2.
Definition ordered (l : list (Z * D)) : Prop := StronglySorted lt_key l.
Record tree_ok r x : Prop := {
  ok_repr : repr r x;
  ok_order : ordered (inorder x);
  ok_ranks : rank_rule x;
}.

Lemma ordered_mid (l1 : list (Z * D)) e (l2 : list (Z * D)) :
  ordered (l1 ++ e :: l2) ↔
  ordered l1 ∧ ordered l2 ∧ Forall (λ a, key a.2 < key e.2) l1 ∧ Forall (λ a, key e.2 < key a.2) l2 ∧
  (∀ a b, a ∈ l1 → b ∈ l2 → key a.2 < key b.2).
Proof.
  unfold ordered, lt_key. rewrite StronglySorted_app, !Forall_forall. split.
  - intros (H1&H2&H3). apply StronglySorted_inv in H3 as [H3 H4]. rewrite Forall_forall in H4.
    set_solver.
  - intros (H1&H2&H3&H4&H5). split; [|split; [done|]].
    + intros a b Ha. rewrite elem_of_cons. intros [->|Hb]; auto.
    + constructor; [done|]. by rewrite Forall_forall.
Qed.

(** The hole in which a key belongs. *)
Fixpoint descend (d : D) c x : option (list frame) :=
  match x with
  | E => Some c
  | T l p rk e y =>
      if key d =? key e then None
      else if key d <? key e then descend d (Frame false p rk e y :: c) l
      else descend d (Frame true p rk e l :: c) y
  end.
Lemma descend_plug d c x c' : descend d c x = Some c' → plug c' E = plug c x.
Proof.
  revert c. induction x as [|l IHl p rk e y IHy]; intros c; simpl; [by intros [= ->]|].
  destruct (key d =? key e); [done|]. destruct (key d <? key e); intros H;
    [apply IHl in H|apply IHy in H]; done.
Qed.
Lemma descend_length d c x c' :
  descend d c x = Some c' → (length c' ≤ length c + length (inorder x))%nat.
Proof.
  revert c. induction x as [|l IHl p rk e y IHy]; intros c; simpl; [intros [= ->]; lia|].
  rewrite length_app. simpl. destruct (key d =? key e); [done|].
  destruct (key d <? key e); intros H; [apply IHl in H|apply IHy in H]; simpl in H; lia.
Qed.
Lemma descend_ordered d c x c' n :
  ordered (inorder (plug c x)) → descend d c x = Some c' →
  Forall (λ a, key a.2 < key d) (before c) → Forall (λ a, key d < key a.2) (after c) →
  ordered (before c' ++ (n, d) :: after c').
Proof.
  revert c. induction x as [|l IHl p rk e y IHy]; intros c Ho; simpl.
  - intros [= <-] Hb Ha. rewrite inorder_ctx in Ho. simpl in Ho. apply StronglySorted_app in Ho as (?&?&?).
    by apply ordered_mid.
  - pose proof Ho as Ho'. rewrite inorder_ctx in Ho'. simpl in Ho'. rewrite <-app_assoc in Ho'. simpl in Ho'.
    rewrite app_assoc in Ho'. apply ordered_mid in Ho' as (_&_&H1&H2&_).
    rewrite !Forall_app in H1, H2. destruct H1 as [H1 H1l], H2 as [H2y H2].
    destruct (Z.eqb_spec (key d) (key e)) as [|Hne]; [done|]. intros Hd Hb Ha.
    destruct (Z.ltb_spec (key d) (key e)) as [Hlt|Hge].
    + eapply IHl; [|exact Hd|..]; [exact Ho|simpl; by rewrite app_nil_r|].
      simpl. constructor; [done|]. apply Forall_app. split; [|done].
      eapply Forall_impl; [exact H2y|]. simpl. lia.
    + eapply IHy; [|exact Hd|..]; [exact Ho| |done].
      simpl. rewrite !Forall_app. repeat split; [done| |by constructor; [simpl; lia|]].
      eapply Forall_impl; [exact H1l|]. simpl. lia.
Qed.
Lemma descend_none d c x : descend d c x = None → ∃ a, a ∈ inorder x ∧ key a.2 = key d.
Proof.
  revert c. induction x as [|l IHl p rk e y IHy]; intros c; simpl; [done|].
  destruct (Z.eqb_spec (key d) (key e)) as [Heq|Hne].
  { intros _. exists (p, e). rewrite elem_of_app, elem_of_cons. simpl. auto. }
  destruct (key d <? key e); intros H; [destruct (IHl _ H) as (a&?&?)|destruct (IHy _ H) as (a&?&?)];
    exists a; rewrite elem_of_app, elem_of_cons; auto.
Qed.
Lemma descend_some d c x c' :
  ordered (inorder (plug c x)) → descend d c x = Some c' →
  ∀ a, a ∈ inorder x → key a.2 ≠ key d.
Proof.
  revert c. induction x as [|l IHl p rk e y IHy]; intros c Ho; simpl; [set_solver|].
  pose proof Ho as Ho'. rewrite inorder_ctx in Ho'. simpl in Ho'.
  apply StronglySorted_app in Ho' as (_&_&Ho'). apply StronglySorted_app in Ho' as (_&Ho'&_).
  apply ordered_mid in Ho' as (_&_&H1&H2&_). rewrite Forall_forall in H1, H2. simpl in H1, H2.
  destruct (Z.eqb_spec (key d) (key e)) as [|Hne]; [done|].
  destruct (Z.ltb_spec (key d) (key e)) as [Hlt|Hge]; intros Hd a;
    rewrite elem_of_app, elem_of_cons; intros [Ha|[->|Ha]].
  - by apply (IHl (Frame false p rk e y :: c)).
  - simpl. lia.
  - specialize (H2 a Ha). lia.
  - specialize (H1 a Ha). lia.
  - simpl. lia.
  - by apply (IHy (Frame true p rk e l :: c)).
Qed.

(** ** Search *)

(** What the predicate selects of an in-order list: the element with the key,
    the first one above it or the last one below it. *)
Definition found (flags : ravl_predicate) (k : Z) (l : list (Z * D)) : Z :=
  if p_equal flags && existsb (λ a, key a.2 =? k) l then hd_ptr (filter (λ a, key a.2 = k) l)
  else if p_greater flags then hd_ptr (filter (λ a, k < key a.2) l)
  else if p_less flags then last_ptr (filter (λ a, key a.2 < k) l)
  else 0.
(** The candidate that the nodes already passed leave in [*ret]. *)
Definition candidate (flags : ravl_predicate) c : Z :=
  if p_greater flags then hd_ptr (after c) else if p_less flags then last_ptr (before c) else 0.

Lemma existsb_key k (l : list (Z * D)) : Forall (λ a, key a.2 ≠ k) l → existsb (λ a, key a.2 =? k) l = false.
Proof. induction 1 as [|a l Ha _ IH]; simpl; [done|]. rewrite IH. by rewrite (proj2 (Z.eqb_neq _ _)). Qed.

Section split.
Context (k : Z) (u v : list (Z * D)).
Context (Hu : Forall (λ a, key a.2 < k) u) (Hv : Forall (λ a, k < key a.2) v).

Lemma filter_above w : Forall (λ a, key a.2 = k) w → filter (λ a, k < key a.2) (u ++ w ++ v) = v.
Proof using Hu Hv.
  intros Hw. rewrite !filter_app, (filter_none _ u), (filter_none _ w), filter_all; [done|done|..];
    eapply Forall_impl; try done; simpl; lia.
Qed.
Lemma filter_below w : Forall (λ a, key a.2 = k) w → filter (λ a, key a.2 < k) (u ++ w ++ v) = u.
Proof using Hu Hv.
  intros Hw. rewrite !filter_app, (filter_none _ v), (filter_none _ w), filter_all; [by rewrite app_nil_r|done|..];
    eapply Forall_impl; try done; simpl; lia.
Qed.
Lemma filter_at w : Forall (λ a, key a.2 = k) w → filter (λ a, key a.2 = k) (u ++ w ++ v) = w.
Proof using Hu Hv.
  intros Hw. rewrite !filter_app, (filter_none _ v), (filter_none _ u), filter_all; [by rewrite app_nil_r|done|..];
    eapply Forall_impl; try done; simpl; lia.
Qed.
Lemma existsb_split : existsb (λ a, key a.2 =? k) (u ++ v) = false.
Proof using Hu Hv.
  apply existsb_key, Forall_app. split; eapply Forall_impl; try done; simpl; lia.
Qed.
Lemma existsb_at a : key a.2 = k → existsb (λ a, key a.2 =? k) (u ++ a :: v) = true.
Proof using. intros Ha. rewrite existsb_app. simpl. rewrite Ha, Z.eqb_refl. by rewrite orb_true_r. Qed.
End split.

Lemma found_miss flags k (u v : list (Z * D)) :
  Forall (λ a, key a.2 < k) u → Forall (λ a, k < key a.2) v →
  found flags k (u ++ v)
  = if p_greater flags then hd_ptr v else if p_less flags then last_ptr u else 0.
Proof.
  intros Hu Hv. unfold found. rewrite existsb_split, andb_false_r by done.
  change (u ++ v) with (u ++ [] ++ v). by rewrite filter_above, filter_below.
Qed.
Lemma found_hit flags k (u v : list (Z * D)) a :
  Forall (λ a, key a.2 < k) u → Forall (λ a, k < key a.2) v → key a.2 = k →
  found flags k (u ++ a :: v)
  = if p_equal flags then a.1
    else if p_greater flags then hd_ptr v else if p_less flags then last_ptr u else 0.
Proof.
  intros Hu Hv Ha. unfold found. rewrite existsb_at, andb_true_r by done.
  change (u ++ a :: v) with (u ++ [a] ++ v).
  by rewrite filter_at, filter_above, filter_below by (try done; by constructor).
Qed.

(** The combinations of flags that are used (ravl.h). *)
Definition one_sided (flags : ravl_predicate) : Prop :=
  p_greater flags && p_less flags = false ∧ p_equal flags || p_greater flags || p_less flags = true.
Lemma holds_run fuel r c l p rk e y flags result :
  focus r c (T l p rk e y) → one_sided flags → (length (inorder (plug c (T l p rk e y))) < fuel)%nat →
  ravl_predicate_holds fuel result (candidate flags c) p flags r
  = Ok (if result =? 0 then
          (if p_equal flags then p
           else if p_greater flags then hd_ptr (inorder y ++ after c)
           else last_ptr (before c ++ inorder l), true)
        else if result <? 0 then (candidate flags (Frame false p rk e y :: c), false)
        else (candidate flags (Frame true p rk e l :: c), false)) r.
Proof.
  intros H [H1 H2] Hfuel. rewrite inorder_ctx, !length_app in Hfuel. cbn [inorder] in Hfuel.
  rewrite length_app in Hfuel. simpl in Hfuel. pose proof (context_length c) as Hlen.
  assert (∀ t, ravl_node_cessor fuel p t r
    = Ok (if t then hd_ptr (inorder y ++ after c) else last_ptr (before c ++ inorder l)) r) as Hcs.
  { intros t. eapply cessor_run; [done|lia..]. }
  unfold ravl_predicate_holds, candidate, ravl_node_successor, ravl_node_predecessor. cbn [before after ft fp fd fsib].
  assert (last_ptr (before c ++ inorder l ++ [(p, e)]) = p) as Hlast.
  { unfold last_ptr. by rewrite app_assoc, last_snoc. }
  destruct (Z.eqb_spec result 0) as [->|Hne]; simpl.
  - destruct (p_equal flags), (p_greater flags), (p_less flags); try done; simpl;
      first [by rewrite (bind_Ok _ _ _ _ _ (Hcs RAVL_RIGHT))|by rewrite (bind_Ok _ _ _ _ _ (Hcs RAVL_LEFT))].
  - destruct (Z.ltb_spec result 0), (Z.ltb_spec 0 result); try lia;
      destruct (p_equal flags), (p_greater flags), (p_less flags); try done; simpl; by rewrite ?Hlast, ?app_nil_r.
Qed.

(** ** Removal *)

Lemma removed_data n d (u v w : list (Z * D)) gone :
  removed n u v w gone → (u ++ (n, d) :: v).*2 ≡ₚ d :: w.*2 ∧ (ordered (u ++ (n, d) :: v) → ordered w) ∧
  w.*2 = u.*2 ++ v.*2.
Proof.
  intros [[-> _]|(e&v'&->&->)]; rewrite !fmap_app, ?fmap_cons; cbn [fst snd].
  - split; [by rewrite Permutation_middle|]. split; [|done].
    intros (?&?&?&?&?)%ordered_mid. by apply StronglySorted_app.
  - split; [by rewrite <-Permutation_middle|]. split; [|done].
    intros (Hu&Hv&H1&H2&H3)%ordered_mid. apply StronglySorted_inv in Hv as [Hv Hv2].
    apply ordered_mid. split; [done|]. split; [done|]. split; [|split; [done|set_solver]].
    apply Forall_forall. intros a Ha. apply (H3 a (gone, e)); set_solver.
Qed.
Lemma remove_ok fuel loops r x n d (u v : list (Z * D)) :
  tree_ok r x → inorder x = u ++ (n, d) :: v → (2 ≤ fuel)%nat → (length (inorder x) < loops)%nat →
  ∃ r' x' gone, ravl_remove fuel loops n r = Ok tt r' ∧ tree_ok r' x' ∧ mallocs r' = mallocs r ∧
    removed n u v (inorder x') gone ∧ dom (nodes r') = dom (nodes r) ∖ {[gone]}.
Proof.
  intros [Hr Ho Hrk] Hx Hfuel Hloops. destruct (inorder_split _ _ _ _ _ _ Hr Hx) as (c&l&rk&y&->&->&->).
  destruct (remove_run fuel loops r c l n rk d y) as (r'&x'&gone&Hr'&Hrep&Hrk'&Hm&Hrem&Hdom);
    [by apply repr_focus|done..|].
  exists r', x', gone. split; [done|]. split; [|done]. split; [done| |done].
  eapply (removed_data n d); [done|]. by rewrite <-Hx.
Qed.
(** Data written through a node pointer, as long as it stays in its place. *)
Lemma write_ok r x n d d' (u v : list (Z * D)) :
  tree_ok r x → inorder x = u ++ (n, d) :: v → ordered (u ++ (n, d') :: v) →
  ∃ r' x', upd_node n (set_data d') r = Ok tt r' ∧ tree_ok r' x' ∧ mallocs r' = mallocs r ∧
    inorder x' = u ++ (n, d') :: v ∧ dom (nodes r') = dom (nodes r).
Proof.
  intros [Hr Ho Hrk] Hx Ho'. destruct (inorder_split _ _ _ _ _ _ Hr Hx) as (c&l&rk&y&->&->&->).
  destruct (change_focus r c l n rk d y rk d' (set_data d')) as (r'&Hr'&Hf&Hm&Hdom);
    [by apply repr_focus|done|].
  assert (inorder (plug c (T l n rk d' y)) = (before c ++ inorder l) ++ (n, d') :: inorder y ++ after c) as Hx'.
  { rewrite inorder_ctx. cbn [inorder]. by simplify_list_eq. }
  exists r', (plug c (T l n rk d' y)). split; [done|]. split; [|done].
  split; [by apply repr_focus|by rewrite Hx'|]. by apply rank_rule_plug in Hrk; apply rank_rule_plug.
Qed.
Lemma node_ok r x n d (u v : list (Z * D)) :
  tree_ok r x → inorder x = u ++ (n, d) :: v →
  n ≠ 0 ∧ ∃ nd, nodes r !! n = Some nd ∧ data nd = d.
Proof.
  intros [Hr _ _] Hx. destruct (inorder_split _ _ _ _ _ _ Hr Hx) as (c&l&rk&y&->&_).
  destruct (focus_node r c l n rk d y) as [Hn Hl]; [by apply repr_focus|]. eauto.
Qed.
(** ** Insertion and search *)

(** [compare] compares keys. *)
Context (compare : D → D → Z).
Context (compare_key : ∀ a b, (compare a b ?= 0) = (key a ?= key b)).
(** What is known of [Malloc]: a new address, or [NULL]. *)
Context (Malloc : nat → gmap Z (ravl_node D) → option Z).
Context (Malloc_fresh : ∀ k m p, Malloc k m = Some p → p ≠ 0 ∧ m !! p = None).

Lemma compare_cases a b :
  compare a b = 0 ∧ key a = key b ∨ compare a b < 0 ∧ key a < key b ∨
  0 < compare a b ∧ key b < key a.
Proof using compare_key.
  pose proof (compare_key a b) as H. destruct (Z.compare_spec (key a) (key b)) as [Hk|Hk|Hk].
  - apply Z.compare_eq_iff in H. auto.
  - rewrite Z.compare_lt_iff in H. auto.
  - rewrite Z.compare_gt_iff in H. auto.
Qed.
Lemma find_slot_run fuel r n nd c x :
  focus r c x → nodes r !! n = Some nd → (length (inorder x) < fuel)%nat →
  find_slot compare fuel n (cref c) (cpar c) r
  = Ok (match descend (data nd) c x with None => None | Some c' => Some (cref c', cpar c') end) r.
Proof using compare_key.
  revert fuel c. induction x as [|l IHl p rk e y IHy]; intros fuel c H Hn Hfuel;
    (destruct fuel as [|fuel]; [simpl in Hfuel; lia|]); cbn [find_slot];
    rewrite (bind_Ok _ _ _ _ _ (load_ref_focus _ _ _ H)); [done|].
  destruct (focus_node _ _ _ _ _ _ _ H) as [Hp Hpn]. cbn [tptr descend].
  rewrite (proj2 (Z.eqb_neq p 0)) by done.
  rewrite (bind_Ok _ _ _ _ _ (deref_Ok _ _ _ Hn)), (bind_Ok _ _ _ _ _ (deref_Ok _ _ _ Hpn)).
  cbn [data]. simpl in Hfuel. rewrite length_app in Hfuel. simpl in Hfuel.
  destruct (compare_cases (data nd) e) as [[-> Hk]|[[Hc Hk]|[Hc Hk]]].
  - by rewrite Hk, !Z.eqb_refl.
  - rewrite (proj2 (Z.eqb_neq (compare _ _) 0)), (proj2 (Z.ltb_ge 0 _)) by lia.
    rewrite (proj2 (Z.eqb_neq (key _) _)), (proj2 (Z.ltb_lt (key _) _)) by lia.
    apply (IHl fuel (Frame false p rk e y :: c)); [by apply focus_left|done|lia].
  - rewrite (proj2 (Z.eqb_neq (compare _ _) 0)), (proj2 (Z.ltb_lt 0 _)) by lia.
    rewrite (proj2 (Z.eqb_neq (key _) _)), (proj2 (Z.ltb_ge (key _) _)) by lia.
    apply (IHy fuel (Frame true p rk e l :: c)); [by apply focus_right|done|lia].
Qed.
(** The result of an insertion, for a key that is there, for a key that is not,
    and without memory. *)
Lemma emplace_run fuel r x d :
  tree_ok r x → (length (inorder x) < fuel)%nat →
  match Malloc (mallocs r) (nodes r), descend d [] x with
  | None, _ => ravl_emplace compare Malloc fuel d r = Ok (-1) (Ravl (nodes r) (root r) (S (mallocs r)))
  | Some n, None => ravl_emplace compare Malloc fuel d r = Ok (-1) (Ravl (nodes r) (root r) (S (mallocs r)))
  | Some n, Some c => ∃ r', ravl_emplace compare Malloc fuel d r = Ok 0 r' ∧
      repr r' (balance c (T E n 0 d E)) ∧ mallocs r' = S (mallocs r)
  end.
Proof using compare_key Malloc_fresh.
  intros [Hr Ho Hrk] Hfuel. unfold ravl_emplace, ravl_new_node.
  destruct (Malloc (mallocs r) (nodes r)) as [n|] eqn:Em.
  2: { erewrite bind_Ok; [|unfold bind, gets; rewrite Em; reflexivity]. done. }
  destruct (Malloc_fresh _ _ _ Em) as [Hn0 Hnew]. pose proof (repr_fresh _ _ _ Hr Hnew) as Hnx.
  set (r1 := Ravl (<[n := RavlNode 0 (0, 0) 0 d]> (nodes r)) (root r) (S (mallocs r))).
  erewrite (bind_Ok _ _ r n r1); [|unfold bind, gets; rewrite Em; reflexivity].
  rewrite (proj2 (Z.eqb_neq n 0)) by done.
  assert (repr r1 x) as Hr1.
  { eapply repr_agree, Hr; [|done]. intros q Hq. simpl. apply lookup_insert_ne. by intros ->. }
  assert (nodes r1 !! n = Some (RavlNode 0 (0, 0) 0 d)) as Hn by apply lookup_insert_eq.
  pose proof (find_slot_run fuel r1 n _ [] x (proj1 (repr_focus r1 [] x) Hr1) Hn Hfuel) as Hfind.
  cbn [cref cpar data] in Hfind. rewrite (bind_Ok _ _ _ _ _ Hfind).
  destruct (descend d [] x) as [c|] eqn:Ed.
  - assert (focus r1 c E) as Hc.
    { apply repr_focus. by rewrite (descend_plug _ _ _ _ Ed). }
    assert (n ∉ cptrs c) as Hnc.
    { intros Hin. apply Hnx. change x with (plug [] x). rewrite <-(descend_plug _ _ _ _ Ed), plug_ptrs. set_solver. }
    destruct (attach_run r1 c n d Hc Hn Hn0 Hnc) as (r2&Hr2&Hf2&Hm2).
    rewrite <-(descend_plug _ _ _ _ Ed : _ = x), rank_rule_plug in Hrk. destruct Hrk as [_ Hrule].
    pose proof (descend_length _ _ _ _ Ed) as Hlen. simpl in Hlen.
    destruct (balance_run fuel r2 c (T E n 0 d E) Hf2) as (r3&Hr3&Hrep&Hm3);
      [lia|simpl; repeat split; lia|simpl; auto|exact Hrule|].
    exists r3. split; [|split; [done|by rewrite Hm3, Hm2]].
    unfold bind in Hr2 |- *. destruct (upd_node n (set_parent (cpar c)) r1) as [[] r1'|]; [|done].
    rewrite Hr2. simpl in Hr3. by rewrite Hr3.
  - unfold Free, modify, bind, ret. simpl. by rewrite delete_insert_id.
Qed.
Lemma find_from_run fuel r c x d flags :
  focus r c x → ordered (inorder (plug c x)) →
  Forall (λ a, key a.2 < key d) (before c) → Forall (λ a, key d < key a.2) (after c) →
  one_sided flags → (2 * length (inorder (plug c x)) < fuel + length c)%nat →
  find_from compare fuel d flags (candidate flags c) (tptr x) r
  = Ok (found flags (key d) (inorder (plug c x))) r.
Proof using compare_key.
  revert fuel c. induction x as [|l IHl p rk e y IHy]; intros fuel c H Ho Hb Ha Hfl Hfuel.
  all: pose proof (context_length c) as Hlen; pose proof Hfuel as Hfuel'; rewrite inorder_ctx, !length_app in Hfuel'.
  { destruct fuel as [|fuel]; [simpl in Hfuel'; lia|]. rewrite inorder_ctx. cbn [inorder app].
    by rewrite found_miss. }
  destruct fuel as [|fuel]; [lia|]. cbn [find_from tptr].
  destruct (focus_node _ _ _ _ _ _ _ H) as [Hp Hn]. rewrite (proj2 (Z.eqb_neq p 0)) by done.
  rewrite (bind_Ok _ _ _ _ _ (deref_Ok _ _ _ Hn)). unfold slot. cbn [data slots].
  assert (inorder (plug c (T l p rk e y)) = (before c ++ inorder l) ++ (p, e) :: inorder y ++ after c) as Hin.
  { rewrite inorder_ctx. cbn [inorder]. by simplify_list_eq. }
  pose proof Ho as Ho'. rewrite Hin in Ho'. apply ordered_mid in Ho' as (_&_&H1&H2&_). simpl in H1, H2.
  rewrite (bind_Ok _ _ _ _ _ (holds_run (S fuel) r c l p rk e y flags _ H Hfl ltac:(lia))).
  pose proof H as Hl. apply focus_left in Hl. pose proof H as Hr. apply focus_right in Hr.
  destruct (compare_cases d e) as [[Hc Hk]|[[Hc Hk]|[Hc Hk]]].
  - rewrite Hc. cbn. rewrite Hin, Hk, found_hit by done. destruct Hfl as [_ Hfl].
    destruct (p_equal flags); [done|]. destruct (p_greater flags); [done|]. simpl in Hfl. by rewrite Hfl.
  - rewrite (proj2 (Z.eqb_neq _ 0)), (proj2 (Z.ltb_lt _ 0)), (proj2 (Z.ltb_ge 0 _)) by lia. cbn [fst snd].
    apply (IHl fuel _ Hl Ho); [..|done|cbn [plug fill ft] in *; simpl in *; lia].
    + simpl. by rewrite app_nil_r.
    + simpl. constructor; [done|]. apply Forall_app in H2 as [??]. eapply Forall_app.
      split; [|done]. eapply Forall_impl; [done|]. simpl; lia.
  - rewrite (proj2 (Z.eqb_neq _ 0)), (proj2 (Z.ltb_ge _ 0)), (proj2 (Z.ltb_lt 0 _)) by lia. cbn [fst snd].
    apply (IHy fuel _ Hr Ho); [|done|done|cbn [plug fill ft] in *; simpl in *; lia].
    simpl. rewrite app_assoc. apply Forall_app. split; [|constructor; [done|constructor]].
    eapply Forall_impl; [done|]. simpl; lia.
Qed.
Lemma find_run fuel r x d flags :
  repr r x → ordered (inorder x) → one_sided flags → (2 * length (inorder x) < fuel)%nat →
  ravl_find compare fuel d flags r = Ok (found flags (key d) (inorder x)) r.
Proof using compare_key.
  intros Hr Ho Hfl Hfuel. unfold ravl_find. rewrite (bind_Ok _ _ _ _ _ (eq_refl : gets root r = Ok (root r) r)).
  destruct Hr as (Ht&Hroot&Hnd). rewrite Hroot.
  pose proof (find_from_run fuel r [] x d flags) as H. unfold candidate in H. simpl in H.
  destruct (p_greater flags), (p_less flags); apply H; try done; try lia; by constructor.
Qed.
Lemma emplace_ok fuel r x d :
  tree_ok r x → (length (inorder x) < fuel)%nat →
  ∃ v r', ravl_emplace compare Malloc fuel d r = Ok v r' ∧ mallocs r' = S (mallocs r) ∧
    ((Malloc (mallocs r) (nodes r) = None ∨ ∃ a, a ∈ inorder x ∧ key a.2 = key d) ∧
     v = -1 ∧ nodes r' = nodes r ∧ root r' = root r ∨
     (∀ a, a ∈ inorder x → key a.2 ≠ key d) ∧ v = 0 ∧
     ∃ n u w x', Malloc (mallocs r) (nodes r) = Some n ∧ tree_ok r' x' ∧
       inorder x = u ++ w ∧ inorder x' = u ++ (n, d) :: w).
Proof using compare_key Malloc_fresh.
  intros H Hfuel. pose proof (emplace_run fuel r x d H Hfuel) as Hrun.
  destruct (Malloc (mallocs r) (nodes r)) as [n|] eqn:Em.
  2: { eexists _, _. split; [exact Hrun|]. split; [done|]. left. by auto. }
  destruct (descend d [] x) as [c|] eqn:Ed.
  - destruct Hrun as (r'&Hr'&Hrep&Hm). eexists _, _. split; [exact Hr'|]. split; [done|]. right.
    pose proof (descend_plug _ _ _ _ Ed) as Hx. simpl in Hx.
    split; [by eapply (descend_some d [] x), Ed; apply H|]. split; [done|].
    exists n, (before c), (after c), (balance c (T E n 0 d E)). split; [done|].
    rewrite inorder_balance. split; [|by rewrite <-Hx, inorder_ctx].
    split; [done|..].
    + rewrite inorder_balance. eapply (descend_ordered d [] x); [by apply H|done|constructor..].
    + apply balance_rule; [simpl; lia|simpl; auto|]. pose proof (ok_ranks _ _ H) as Hrk.
      rewrite <-Hx, rank_rule_plug in Hrk. apply Hrk.
  - eexists _, _. split; [exact Hrun|]. split; [done|]. left. split; [|done]. right. by eapply descend_none.
Qed.
Lemma find_ok fuel r x d flags :
  tree_ok r x → one_sided flags → (2 * length (inorder x) < fuel)%nat →
  ravl_find compare fuel d flags r = Ok (found flags (key d) (inorder x)) r.
Proof using compare_key. intros [] ??. by apply find_run. Qed.
End facts.

(** ** The tree as a sorted set *)

(** The elements that the flags select for the key [k], and the closest of them. *)
Definition selected {D} (key : D → Z) (flags : ravl_predicate) (k : Z) (e : D) : Prop :=
  p_equal flags ∧ key e = k ∨ p_greater flags ∧ k < key e ∨ p_less flags ∧ key e < k.
Definition closest {D} (key : D → Z) (flags : ravl_predicate) (k : Z) (l : list (Z * D)) (n : Z) : Prop :=
  (∃ e, (n, e) ∈ l ∧ selected key flags k e ∧
     ∀ a, a ∈ l → selected key flags k a.2 → Z.abs (key e - k) ≤ Z.abs (key a.2 - k)) ∨
  n = 0 ∧ ∀ a, a ∈ l → ¬ selected key flags k a.2.

Section closest.
Context {D : Type} (key : D → Z).
Implicit Types (l u v : list (Z * D)).

Lemma hd_closest k u l :
  Forall (λ a, key a.2 ≤ k) u → ordered key l → Forall (λ a, k < key a.2) l →
  closest key RAVL_PREDICATE_GREATER k (u ++ l) (hd_ptr l).
Proof.
  intros Hu Ho Hl. rewrite !Forall_forall in *. unfold closest, selected. cbn. destruct l as [|[n e] l].
  - right. split; [done|]. intros a. rewrite app_nil_r. intros Ha. specialize (Hu a Ha). lia.
  - left. exists e. pose proof (Hl (n, e) ltac:(set_solver)) as He. simpl in He.
    split; [set_solver|]. split; [right; left; done|]. intros a Ha Hs.
    apply StronglySorted_inv in Ho as [_ Ho]. rewrite Forall_forall in Ho.
    apply elem_of_app in Ha as [Ha|Ha]; [specialize (Hu a Ha); lia|].
    apply elem_of_cons in Ha as [->|Ha]; [done|]. specialize (Ho a Ha). unfold lt_key in Ho. simpl in Ho. lia.
Qed.
Lemma last_closest k l v :
  Forall (λ a, k ≤ key a.2) v → ordered key l → Forall (λ a, key a.2 < k) l →
  closest key RAVL_PREDICATE_LESS k (l ++ v) (last_ptr l).
Proof.
  intros Hv Ho Hl. rewrite !Forall_forall in *. unfold closest, selected. cbn.
  destruct l as [|[n e] l _] using rev_ind.
  - right. split; [done|]. simpl. intros a Ha. specialize (Hv a Ha). lia.
  - left. exists e. unfold last_ptr. rewrite last_snoc. pose proof (Hl (n, e) ltac:(set_solver)) as He. simpl in He.
    split; [set_solver|]. split; [right; right; done|]. intros a Ha Hs.
    apply ordered_mid in Ho as (_&_&Ho&_). rewrite Forall_forall in Ho.
    rewrite <-app_assoc in Ha. apply elem_of_app in Ha as [Ha|Ha]; [specialize (Ho a Ha); simpl in Ho; lia|].
    apply elem_of_cons in Ha as [->|Ha]; [done|]. specialize (Hv a Ha). lia.
Qed.
Lemma closest_ext fl fl' k l n :
  (∀ a, a ∈ l → selected key fl k a.2 ↔ selected key fl' k a.2) → closest key fl k l n → closest key fl' k l n.
Proof.
  intros Hfl [(e&He&Hs&Hmin)|[-> Hnone]]; [left|right].
  - exists e. split; [done|]. split; [by apply (Hfl (n, e))|]. intros a Ha. rewrite <-Hfl by done. auto.
  - split; [done|]. intros a Ha. rewrite <-Hfl by done. auto.
Qed.
Lemma split_key k l :
  ordered key l → ∃ u w v, l = u ++ w ++ v ∧ Forall (λ a, key a.2 < k) u ∧ Forall (λ a, k < key a.2) v ∧
    (w = [] ∨ ∃ a, w = [a] ∧ key a.2 = k).
Proof.
  unfold ordered. induction 1 as [|a l Hl (u&w&v&->&Hu&Hv&Hw) Ha]; [by exists [], [], []; auto|].
  destruct (Z.lt_trichotomy (key a.2) k) as [Hk|[Hk|Hk]].
  - exists (a :: u), w, v. split; [done|]. split; [by constructor|done].
  - exists [], [a], (u ++ w ++ v). split; [done|]. split; [done|]. split; [|eauto].
    eapply Forall_impl; [exact Ha|]. unfold lt_key. intros b; simpl; lia.
  - exists [], [], (a :: u ++ w ++ v). split; [done|]. split; [done|]. split; [|auto]. constructor; [done|].
    eapply Forall_impl; [exact Ha|]. unfold lt_key. intros b; simpl; lia.
Qed.
Lemma found_closest fl k l : one_sided fl → ordered key l → closest key fl k l (found key fl k l).
Proof.
  intros [Hfl1 Hfl2] Ho. destruct (split_key k l Ho) as (u&w&v&->&Hu&Hv&Hw).
  pose proof Ho as Ho2. apply StronglySorted_app in Ho2 as (_&Hou&Ho2).
  apply StronglySorted_app in Ho2 as (_&_&Hov).
  pose proof Hu as Hu'. pose proof Hv as Hv'. rewrite Forall_forall in Hu', Hv'.
  assert (Forall (λ a, key a.2 ≤ k) (u ++ w) ∧ Forall (λ a, k ≤ key a.2) (w ++ v)) as [Huw Hwv].
  { rewrite !Forall_app. destruct Hw as [->|(a&->&Ha)]; repeat split; try constructor; try done; try lia;
      (eapply Forall_impl; [done|]); simpl; lia. }
  destruct Hw as [->|(a&->&Ha)].
  - cbn [app] in *. rewrite found_miss by done. rewrite app_nil_r in Huw.
    eapply closest_ext with (fl := if p_greater fl then RAVL_PREDICATE_GREATER else if p_less fl then
      RAVL_PREDICATE_LESS else Predicate false false false).
    + intros a [Ha|Ha]%elem_of_app; [specialize (Hu' a Ha)|specialize (Hv' a Ha)]; unfold selected;
        destruct (p_equal fl), (p_greater fl), (p_less fl); try done; cbn; intuition lia.
    + destruct (p_greater fl); [by apply hd_closest|]. destruct (p_less fl); [by apply last_closest|].
      right. split; [done|]. intros a _. unfold selected. cbn. tauto.
  - cbn [app]. rewrite found_hit by done. destruct (p_equal fl) eqn:Eeq.
    + left. exists a.2. split; [destruct a; set_solver|]. unfold selected. rewrite Eeq.
      split; [by left|]. intros b Hb _. lia.
    + destruct (p_greater fl) eqn:Egr; destruct (p_less fl) eqn:Els; try done.
      * eapply closest_ext with (fl := RAVL_PREDICATE_GREATER).
        { intros b _. unfold selected. rewrite Eeq, Egr, Els. cbn. tauto. }
        change (a :: v) with ([a] ++ v). rewrite app_assoc. by apply hd_closest.
      * eapply closest_ext with (fl := RAVL_PREDICATE_LESS).
        { intros b _. unfold selected. rewrite Eeq, Egr, Els. cbn. tauto. }
        by apply last_closest.
Qed.
End closest.

Section claims.
Context {D : Type} (key : D → Z) (compare : D → D → Z).
Context (compare_key : ∀ a b, (compare a b ?= 0) = (key a ?= key b)).
Context (Malloc : nat → gmap Z (ravl_node D) → option Z).
Context (Malloc_fresh : ∀ k m p, Malloc k m = Some p → p ≠ 0 ∧ m !! p = None).
Implicit Types (r : ravl D) (x : tree D) (d : D).

(** C27. [ravl_emplace] terminates on every well-formed tree (ordered by key, every
    rank above the ranks of its children, parent and child pointers consistent).
    It answers -1 and leaves the tree as it was exactly when [Malloc] fails or an
    element with the same key is present; otherwise it answers 0 and the new tree
    is well-formed and holds the new element in a new node at its place in the
    order, every other node keeping its address and its data. *)
Theorem ravl_emplace_spec fuel r x d :
  tree_ok key r x → (length (inorder x) < fuel)%nat →
  ∃ v r', ravl_emplace compare Malloc fuel d r = Ok v r' ∧ mallocs r' = S (mallocs r) ∧
    ((Malloc (mallocs r) (nodes r) = None ∨ ∃ a, a ∈ inorder x ∧ key a.2 = key d) ∧
     v = -1 ∧ nodes r' = nodes r ∧ root r' = root r ∨
     (∀ a, a ∈ inorder x → key a.2 ≠ key d) ∧ v = 0 ∧
     ∃ n u w x', Malloc (mallocs r) (nodes r) = Some n ∧ tree_ok key r' x' ∧
       inorder x = u ++ w ∧ inorder x' = u ++ (n, d) :: w).
Proof using compare_key Malloc_fresh. by apply emplace_ok. Qed.

(** C29. [ravl_find] terminates on every well-formed tree, changes nothing and
    returns, for each of the five predicates of ravl.h, the node of the closest
    element that the predicate selects (equal, smaller, greater, or a
    combination), and [NULL] exactly when it selects none. *)
Theorem ravl_find_spec fuel r x d flags :
  tree_ok key r x → one_sided flags → (2 * length (inorder x) < fuel)%nat →
  ∃ n, ravl_find compare fuel d flags r = Ok n r ∧ closest key flags (key d) (inorder x) n.
Proof using compare_key.
  intros H Hfl Hfuel. exists (found key flags (key d) (inorder x)).
  split; [by apply find_ok|]. apply found_closest; [done|apply H].
Qed.

(** C28. [ravl_remove] terminates on every well-formed tree and leaves a well-formed
    tree without the element of the removed node: the other elements keep their
    order, and exactly one node is freed, the node itself or, when it has two
    children, the node of the next element, whose data move to it. *)
Theorem ravl_remove_spec fuel loops r x n d u v :
  tree_ok key r x → inorder x = u ++ (n, d) :: v → (2 ≤ fuel)%nat → (length (inorder x) < loops)%nat →
  ∃ r' x' gone, ravl_remove fuel loops n r = Ok tt r' ∧ tree_ok key r' x' ∧
    (inorder x').*2 = u.*2 ++ v.*2 ∧ dom (nodes r') = dom (nodes r) ∖ {[gone]} ∧
    (gone = n ∧ inorder x' = u ++ v ∨
     ∃ e v', v = (gone, e) :: v' ∧ inorder x' = u ++ (n, e) :: v').
Proof.
  intros H Hx Hfuel Hloops.
  destruct (remove_ok key fuel loops r x n d u v H Hx Hfuel Hloops) as (r'&x'&gone&Hr&Hok&_&Hrem&Hdom).
  exists r', x', gone. destruct (removed_data key n d _ _ _ _ Hrem) as (_&_&Hdata).
  repeat (split; [done|]). destruct Hrem as [[-> ->]|Hrem]; auto.
Qed.
End claims.

(** ** A tree of three nodes *)

Module Examples.
Definition bump {D} (k : nat) (m : gmap Z (ravl_node D)) : option Z :=
  match m !! (Z.of_nat k + 1) with None => Some (Z.of_nat k + 1) | Some _ => None end.
Lemma bump_fresh {D} k (m : gmap Z (ravl_node D)) p : bump k m = Some p → p ≠ 0 ∧ m !! p = None.
Proof. unfold bump. case_match eqn:E; intros [= <-]. split; [lia|done]. Qed.
Lemma minus_key a b : (a - b ?= 0) = (a ?= b).
Proof. destruct (Z.compare_spec (a - b) 0), (Z.compare_spec a b); try lia; done. Qed.

(** The tree after the insertion of 10, 20 and 30. *)
Definition three : ravl Z :=
  Ravl (<[1 := RavlNode 2 (0, 0) 0 10]> (<[2 := RavlNode 0 (1, 3) 1 20]>
        (<[3 := RavlNode 2 (0, 0) 0 30]> ∅))) 2 3.
Definition three_tree : tree Z := T (T E 1 0 10 E) 2 1 20 (T E 3 0 30 E).
Lemma three_built :
  (ravl_emplace Z.sub bump 9 10 ;; ravl_emplace Z.sub bump 9 20 ;; ravl_emplace Z.sub bump 9 30) (ravl_new 0)
  = Ok 0 three.
Proof. vm_compute. reflexivity. Qed.
Lemma three_ok : tree_ok id three three_tree.
Proof.
  split.
  - split; [|split; [done|]].
    + simpl. repeat split; done.
    + apply (bool_decide_unpack _). vm_compute. done.
  - unfold ordered, lt_key. simpl. repeat constructor.
  - simpl. lia.
Qed.

Lemma ravl_emplace_spec_witness :
  ∃ v r', ravl_emplace Z.sub bump 9 25 three = Ok v r' ∧ v = 0.
Proof.
  destruct (ravl_emplace_spec id Z.sub minus_key bump bump_fresh 9 three three_tree 25 three_ok)
    as (v&r'&Hr&_&[([Hm|(a&Ha&Hk)]&_)|(_&Hv&_)]); [cbn; lia|done| |by exists v, r'].
  exfalso. simpl in Ha. rewrite !elem_of_cons in Ha. destruct Ha as [->|[->|[->|Ha]]]; try done.
  by apply elem_of_nil in Ha.
Defined.
Lemma ravl_find_spec_witness :
  ∃ n, ravl_find Z.sub 9 25 RAVL_PREDICATE_LESS_EQUAL three = Ok n three ∧
    closest id RAVL_PREDICATE_LESS_EQUAL 25 (inorder three_tree) n.
Proof. apply (ravl_find_spec id Z.sub minus_key); [exact three_ok|done|cbn; lia]. Defined.
Lemma ravl_remove_spec_witness :
  ∃ r' x' gone, ravl_remove 2 9 2 three = Ok tt r' ∧ tree_ok id r' x' ∧
    (inorder x').*2 = [10] ++ [30] ∧ dom (nodes r') = dom (nodes three) ∖ {[gone]} ∧
    (gone = 2 ∧ inorder x' = [(1, 10)] ++ [(3, 30)] ∨
     ∃ e v', [(3, 30)] = (gone, e) :: v' ∧ inorder x' = [(1, 10)] ++ (2, e) :: v').
Proof.
  apply (ravl_remove_spec id 2 9 three three_tree 2 20 [(1, 10)] [(3, 30)] three_ok); [done|lia|cbn; lia].
Defined.
End Examples.
