(* ===== verification/Pmem.v ===== *)
(** * Persistent memory as libpmemobj uses it

    The address space as bytes; the operations of [struct pmem_ops]
    ([src/pmdk/src/libpmemobj/pmemops.h]) as they are set for a pool without
    replicas; and the checksums of [src/pmdk/src/common/util.c].  Beside the
    bytes, the state has the stores, flushes and fences in the order in which
    they were issued, from which the possible contents after a crash follow. *)
From stdpp Require Import base list strings.
From S2P Require Import Prelude.
Open Scope Z_scope.

(** ** Bytes *)

Definition mem := Z → Z.
Implicit Types (m : mem) (a : Z).

Definition load_bytes m a (n : nat) : list Z := (λ i, m (a + Z.of_nat i)) <$> seq 0 n.
Definition store_bytes m a (l : list Z) : mem := λ q,
  if (a <=? q) && (q <? a + Z.of_nat (length l)) then nth (Z.to_nat (q - a)) l 0 else m q.
(** Little endian. *)
Fixpoint le (l : list Z) : Z := match l with [] => 0 | b :: l' => b + 256 * le l' end.
Fixpoint to_le (n : nat) (v : Z) : list Z :=
  match n with O => [] | S n' => v `mod` 256 :: to_le n' (v / 256) end.
Definition le32 m a : Z := le (load_bytes m a 4).
Definition le64 m a : Z := le (load_bytes m a 8).

(** ** Operations on persistent memory *)

(** [PWrite a l flushed]: the bytes [l] at [a], with a flush of their own or
    around the cache when [flushed]. *)
Inductive pm_event :=
  | PWrite (a : Z) (l : list Z) (flushed : bool)
  | PFlush (a n : Z)
  | PDrain.
(** The events, the last one first. *)
Record pm := Pm { bytes : mem; events : list pm_event }.

Definition rd64 a : M pm Z := gets (λ s, le64 (bytes s) a).
Definition rd_bytes a (n : Z) : M pm (list Z) := gets (λ s, load_bytes (bytes s) a (Z.to_nat n)).
Definition emit (e : pm_event) : M pm unit := modify (λ s, Pm (bytes s) (e :: events s)).
Definition put (a : Z) (l : list Z) (flushed : bool) : M pm unit :=
  modify (λ s, Pm (store_bytes (bytes s) a l) (PWrite a l flushed :: events s)).
(** An assignment to a 64-bit variable. *)
Definition wr64 a (v : Z) : M pm unit := put a (to_le 8 v) false.

Definition PMEMOBJ_F_MEM_NODRAIN : Z := 1.
Definition PMEMOBJ_F_MEM_NONTEMPORAL : Z := 2.
Definition PMEMOBJ_F_MEM_WC : Z := 8.
Definition PMEMOBJ_F_MEM_NOFLUSH : Z := 32.
Definition PMEMOBJ_F_RELAXED : Z := 2147483648.
Definition has (flags f : Z) : bool := negb (Z.land flags f =? 0).

(** [base] is the address of the pool, and [off_is_valid] is
    [OBJ_OFF_IS_VALID_FROM_CTX] of this pool.  The operations on transient memory
    copy and do not flush. *)
Record pmem_ops := PmemOps { base : Z; persistent : bool; off_is_valid : Z → bool }.
Implicit Types (p_ops : pmem_ops).

Definition pmemops_drain p_ops : M pm unit := when (persistent p_ops) (emit PDrain).
Definition pmemops_xflush p_ops a (n : Z) : M pm unit := when (persistent p_ops) (emit (PFlush a n)).
Definition pmemops_persist p_ops a (n : Z) : M pm unit :=
  pmemops_xflush p_ops a n ;; pmemops_drain p_ops.
Definition pmemops_memcpy p_ops a (l : list Z) (flags : Z) : M pm unit :=
  if has flags PMEMOBJ_F_MEM_NOFLUSH then put a l false
  else
    put a l (persistent p_ops) ;;
    when (negb (has flags PMEMOBJ_F_MEM_NODRAIN)) (pmemops_drain p_ops).
Definition pmemops_memset p_ops a (c n flags : Z) : M pm unit :=
  pmemops_memcpy p_ops a (replicate (Z.to_nat n) c) flags.

Definition PMEMOBJ_MAX_ALLOC_SIZE : Z := 17177771968.

(** ** Checksums *)

Definition u32 (x : Z) : Z := x `mod` 2 ^ 32.
(** The sums over the 32-bit words of a buffer. *)
Fixpoint checksum_words (l : list Z) (lo hi : Z) : Z * Z :=
  match l with
  | w :: l' => let lo' := u32 (lo + w) in checksum_words l' lo' (u32 (hi + lo'))
  | [] => (lo, hi)
  end.
Fixpoint words32 (l : list Z) : list Z :=
  match l with
  | b0 :: b1 :: b2 :: b3 :: l' => le [b0; b1; b2; b3] :: words32 l'
  | _ => []
  end.
Definition checksum_value (s : Z * Z) : Z := Z.lor (Z.shiftl s.2 32) s.1.
Definition util_checksum_seq (l : list Z) (csum : Z) : M pm Z :=
  if negb (Z.of_nat (length l) `mod` 4 =? 0) then stop (ErrAbort "util_checksum")
  else ret (checksum_value (checksum_words (words32 l) (u32 csum) (u32 (Z.shiftr csum 32)))).

(** The loop of [util_checksum] over the words from [p]. *)
Fixpoint checksum_from (fuel : nat) m (p p32end csump skip lo hi : Z) : Z * Z :=
  match fuel with
  | O => (lo, hi)
  | S fuel' =>
      if p <? p32end then
        if (p =? csump) || (skip <=? p) then
          checksum_from fuel' m (p + 8) p32end csump skip lo (u32 (u32 (hi + lo) + lo))
        else
          let lo' := u32 (lo + le32 m p) in
          checksum_from fuel' m (p + 4) p32end csump skip lo' (u32 (hi + lo'))
      else (lo, hi)
  end.
Definition util_checksum a (len csump : Z) (insert : bool) (skip_off : Z) : M pm bool :=
  if negb (len `mod` 4 =? 0) then stop (ErrAbort "util_checksum")
  else
    let! m := gets bytes in
    let skip := a + (if skip_off =? 0 then len else skip_off) in
    let csum := checksum_value
      (checksum_from (S (Z.to_nat (len / 4))) m a (a + len) csump skip 0 0) in
    if insert then wr64 csump csum ;; ret true
    else let! c := rd64 csump in ret (c =? csum).
