(* ===== verification/PmemFacts.v ===== *)
(** * Facts about bytes and checksums

    Reading back what was written, and the agreement of the checksum that is
    computed piece by piece when an entry is written with the one that is
    computed over the whole entry when it is checked. *)
From stdpp Require Import base list strings.
From S2P Require Import Prelude Pmem.
Open Scope Z_scope.

Implicit Types (m : mem) (a q : Z) (l : list Z).

(** ** Bytes *)

Lemma load_bytes_length m a n : length (load_bytes m a n) = n.
Proof. unfold load_bytes. by rewrite length_fmap, length_seq. Qed.
Lemma load_bytes_lookup m a n i : (i < n)%nat → load_bytes m a n !! i = Some (m (a + Z.of_nat i)).
Proof. intros Hi. unfold load_bytes. rewrite list_lookup_fmap, lookup_seq_lt by lia. done. Qed.
Lemma load_bytes_ext m m' a n :
  (∀ q, a ≤ q < a + Z.of_nat n → m q = m' q) → load_bytes m a n = load_bytes m' a n.
Proof.
  intros H. apply list_eq. intros i. destruct (decide (i < n)%nat) as [Hi|Hi].
  - rewrite !load_bytes_lookup by done. f_equal. apply H. lia.
  - rewrite !lookup_ge_None_2; [done|rewrite load_bytes_length; lia..].
Qed.
Lemma load_bytes_app m a n1 n2 :
  load_bytes m a (n1 + n2) = load_bytes m a n1 ++ load_bytes m (a + Z.of_nat n1) n2.
Proof.
  apply list_eq. intros i. destruct (decide (i < n1)%nat) as [Hi|Hi].
  - rewrite lookup_app_l by (rewrite load_bytes_length; lia). by rewrite !load_bytes_lookup by lia.
  - rewrite lookup_app_r by (rewrite load_bytes_length; lia). rewrite load_bytes_length.
    destruct (decide (i < n1 + n2)%nat) as [Hi'|Hi'].
    + rewrite !load_bytes_lookup by lia. do 2 f_equal. lia.
    + rewrite !lookup_ge_None_2; [done|rewrite load_bytes_length; lia..].
Qed.
Lemma store_out m a l q : q < a ∨ a + Z.of_nat (length l) ≤ q → store_bytes m a l q = m q.
Proof. intros H. unfold store_bytes. destruct (Z.leb_spec a q), (Z.ltb_spec q (a + Z.of_nat (length l))); simpl; try done; lia. Qed.
Lemma store_in m a l i : (i < length l)%nat → l !! i = Some (store_bytes m a l (a + Z.of_nat i)).
Proof.
  intros Hi. unfold store_bytes. rewrite (proj2 (Z.leb_le _ _)), (proj2 (Z.ltb_lt _ _)) by lia. simpl.
  replace (Z.to_nat (a + Z.of_nat i - a)) with i by lia.
  destruct (lookup_lt_is_Some_2 l i Hi) as [v Hv]. rewrite Hv. f_equal. symmetry. by apply nth_lookup_Some.
Qed.
Lemma load_store m a l : load_bytes (store_bytes m a l) a (length l) = l.
Proof.
  apply list_eq. intros i. destruct (decide (i < length l)%nat) as [Hi|Hi].
  - rewrite load_bytes_lookup by done. symmetry. by apply store_in.
  - rewrite !lookup_ge_None_2; [done|lia|rewrite load_bytes_length; lia].
Qed.
(** Reading a part of what was written, and reading elsewhere. *)
Lemma load_store_part m a l l1 l2 l3 :
  l = l1 ++ l2 ++ l3 → load_bytes (store_bytes m a l) (a + Z.of_nat (length l1)) (length l2) = l2.
Proof.
  intros ->. pose proof (load_store m a (l1 ++ l2 ++ l3)) as H. rewrite !length_app, !load_bytes_app in H.
  apply app_inj_1 in H as [_ H]; [|apply load_bytes_length].
  by apply app_inj_1 in H as [H _]; [|apply load_bytes_length].
Qed.
Lemma load_store_out m a l b n :
  b + Z.of_nat n ≤ a ∨ a + Z.of_nat (length l) ≤ b → load_bytes (store_bytes m a l) b n = load_bytes m b n.
Proof. intros H. apply load_bytes_ext. intros q Hq. apply store_out. lia. Qed.
Lemma store_app m a l1 l2 q :
  store_bytes (store_bytes m a l1) (a + Z.of_nat (length l1)) l2 q = store_bytes m a (l1 ++ l2) q.
Proof.
  unfold store_bytes. rewrite length_app, Nat2Z.inj_add.
  destruct (Z.leb_spec a q), (Z.ltb_spec q (a + Z.of_nat (length l1)));
    destruct (Z.leb_spec (a + Z.of_nat (length l1)) q), (Z.ltb_spec q (a + Z.of_nat (length l1) + Z.of_nat (length l2)));
    destruct (Z.ltb_spec q (a + (Z.of_nat (length l1) + Z.of_nat (length l2)))); simpl; try lia; try done.
  - symmetry. apply app_nth1. lia.
  - rewrite app_nth2 by lia. f_equal. lia.
Qed.

Lemma store_ext m m' a l q : (∀ q, m q = m' q) → store_bytes m a l q = store_bytes m' a l q.
Proof. intros H. unfold store_bytes. case_match; [done|apply H]. Qed.
Lemma store_comm m a l b l' q :
  a + Z.of_nat (length l) ≤ b →
  store_bytes (store_bytes m b l') a l q = store_bytes (store_bytes m a l) b l' q.
Proof.
  intros H. destruct (decide (a ≤ q < a + Z.of_nat (length l))) as [Hq|Hq].
  - rewrite (store_out (store_bytes m a l)) by lia. unfold store_bytes at 1 3.
    rewrite (proj2 (Z.leb_le _ _)), (proj2 (Z.ltb_lt _ _)) by lia. done.
  - rewrite store_out by lia. unfold store_bytes at 1 2. case_match; [done|]. symmetry. apply store_out. lia.
Qed.

(** ** Little endian *)

Lemma to_le_length n v : length (to_le n v) = n.
Proof. revert v. induction n as [|n IH]; intros v; simpl; [done|]. by rewrite IH. Qed.
Lemma le_to_le n v : 0 ≤ v < 256 ^ Z.of_nat n → le (to_le n v) = v.
Proof.
  revert v. induction n as [|n IH]; intros v Hv; [simpl in *; lia|].
  cbn [to_le le]. rewrite Nat2Z.inj_succ, Z.pow_succ_r in Hv by lia. rewrite IH.
  - pose proof (Z.div_mod v 256). lia.
  - split; [apply Z.div_pos; lia|]. apply Z.div_lt_upper_bound; lia.
Qed.
Lemma to_le_bytes n v : Forall (λ b, 0 ≤ b < 256) (to_le n v).
Proof. revert v. induction n as [|n IH]; intros v; simpl; [constructor|]. constructor; [apply Z.mod_pos_bound; lia|done]. Qed.
Lemma le_range l : Forall (λ b, 0 ≤ b < 256) l → 0 ≤ le l < 256 ^ Z.of_nat (length l).
Proof.
  induction 1 as [|b l Hb _ IH]; [simpl; lia|]. cbn [le length]. rewrite Nat2Z.inj_succ, Z.pow_succ_r by lia. lia.
Qed.
Lemma le64_load m a v : 0 ≤ v < U64 → load_bytes m a 8 = to_le 8 v → le64 m a = v.
Proof. intros Hv H. unfold le64. rewrite H. apply le_to_le. unfold U64 in Hv. simpl. lia. Qed.
Lemma le64_ext m m' a : (∀ q, a ≤ q < a + 8 → m q = m' q) → le64 m a = le64 m' a.
Proof. intros H. unfold le64. f_equal. apply load_bytes_ext. intros q Hq. apply H. lia. Qed.

(** ** Checksums *)

Lemma checksum_words_app l1 l2 lo hi :
  checksum_words (l1 ++ l2) lo hi
  = checksum_words l2 (checksum_words l1 lo hi).1 (checksum_words l1 lo hi).2.
Proof. revert lo hi. induction l1 as [|w l1 IH]; intros lo hi; simpl; [done|]. apply IH. Qed.
Lemma words32_app n l1 l2 : (length l1 = n * 4)%nat → words32 (l1 ++ l2) = words32 l1 ++ words32 l2.
Proof.
  revert l1. induction n as [|n IH]; intros l1 Hl; [by apply nil_length_inv in Hl as ->|].
  destruct l1 as [|b0 [|b1 [|b2 [|b3 l1]]]]; simpl in Hl; try lia. simpl. f_equal. apply IH. lia.
Qed.
Lemma checksum_words_range l lo hi :
  0 ≤ lo < 2 ^ 32 → 0 ≤ hi < 2 ^ 32 →
  0 ≤ (checksum_words l lo hi).1 < 2 ^ 32 ∧ 0 ≤ (checksum_words l lo hi).2 < 2 ^ 32.
Proof.
  revert lo hi. induction l as [|w l IH]; intros lo hi Hlo Hhi; simpl; [done|].
  apply IH; unfold u32; apply Z.mod_pos_bound; lia.
Qed.

(** *** Fields in a word *)

Lemma high_bits a n i : 0 ≤ n → 0 ≤ a < 2 ^ n → n ≤ i → Z.testbit a i = false.
Proof.
  intros Hn Ha Hi. destruct (decide (a = 0)) as [->|Hne]; [apply Z.bits_0|].
  apply Z.bits_above_log2; [lia|]. apply (Z.lt_le_trans _ n); [|done]. apply Z.log2_lt_pow2; lia.
Qed.
Lemma lor_high a b n : 0 ≤ n → 0 ≤ b < 2 ^ n → Z.lor (a * 2 ^ n) b = a * 2 ^ n + b.
Proof.
  intros Hn Hb. rewrite <-Z.add_lor_land. assert (Z.land (a * 2 ^ n) b = 0) as ->; [|lia].
  apply Z.bits_inj'. intros i Hi. rewrite Z.land_spec, Z.bits_0.
  destruct (decide (n ≤ i)) as [Hni|Hni]; [rewrite (high_bits b n i) by lia; by rewrite andb_false_r|].
  by rewrite Z.mul_pow2_bits_low by lia.
Qed.
Lemma land_high x n k : 0 ≤ n ≤ k → 0 ≤ x < 2 ^ k → Z.land x (2 ^ k - 2 ^ n) = x / 2 ^ n * 2 ^ n.
Proof.
  intros Hn Hx. rewrite <-Z.shiftr_div_pow2, <-(Z.shiftl_mul_pow2 (Z.shiftr x n)), <-Z.ldiff_ones_r by lia.
  assert (2 ^ k - 2 ^ n = Z.shiftl (Z.ones (k - n)) n) as ->.
  { rewrite Z.shiftl_mul_pow2, Z.ones_equiv by lia. rewrite Z.mul_pred_l, <-Z.pow_add_r by lia.
    replace (k - n + n) with k by lia. done. }
  apply Z.bits_inj'. intros i Hi. rewrite Z.land_spec, Z.ldiff_spec, Z.shiftl_spec, (Z.testbit_ones_nonneg n i) by lia.
  destruct (decide (k ≤ i)) as [Hki|Hki]; [by rewrite (high_bits x k i) by lia|].
  destruct (decide (n ≤ i)) as [Hni|Hni].
  - rewrite (Z.testbit_ones_nonneg (k - n)) by lia.
    by rewrite (proj2 (Z.ltb_lt (i - n) _)), (proj2 (Z.ltb_ge i n)) by lia.
  - rewrite (Z.testbit_neg_r _ (i - n)), (proj2 (Z.ltb_lt i n)) by lia. by rewrite !andb_false_r.
Qed.

Lemma checksum_value_split s :
  0 ≤ s.1 < 2 ^ 32 → 0 ≤ s.2 < 2 ^ 32 →
  u32 (checksum_value s) = s.1 ∧ u32 (Z.shiftr (checksum_value s) 32) = s.2 ∧ 0 ≤ checksum_value s < U64.
Proof.
  intros H1 H2. assert (checksum_value s = s.2 * 2 ^ 32 + s.1) as ->.
  { unfold checksum_value. rewrite Z.shiftl_mul_pow2 by lia. by apply lor_high. }
  unfold u32. split; [|split].
  - rewrite Z.add_comm, Z.mod_add, Z.mod_small by lia. done.
  - rewrite Z.shiftr_div_pow2 by lia. rewrite Z.add_comm, Z.div_add, Z.div_small by lia. by rewrite Z.mod_small by lia.
  - unfold U64. lia.
Qed.
Lemma words32_load m p n :
  words32 (load_bytes m p (4 + 4 * n)) = le32 m p :: words32 (load_bytes m (p + 4) (4 * n)).
Proof. rewrite load_bytes_app, (words32_app 1) by apply load_bytes_length. done. Qed.

(** The loop that skips the field of the checksum sums the words of the buffer
    with zeroes in that field. *)
Lemma checksum_from_words fuel m p n csump lo hi :
  (n < fuel)%nat → 0 ≤ lo < 2 ^ 32 →
  csump + 8 ≤ p ∨ (∃ k, csump = p + 4 * Z.of_nat k ∧ (k + 2 ≤ n)%nat) →
  checksum_from fuel m p (p + 4 * Z.of_nat n) csump (p + 4 * Z.of_nat n) lo hi
  = checksum_words (words32 (load_bytes (store_bytes m csump (replicate 8 0)) p (4 * n))) lo (hi).
Proof.
  revert p n lo hi. induction fuel as [|fuel IH]; intros p n lo hi Hfuel Hlo Hc; [lia|]. cbn [checksum_from].
  destruct n as [|n]; [rewrite (proj2 (Z.ltb_ge _ _)) by lia; done|].
  rewrite (proj2 (Z.ltb_lt _ _)) by lia. rewrite (proj2 (Z.leb_gt _ p)) by lia. rewrite orb_false_r.
  set (m0 := store_bytes m csump (replicate 8 0)) in *.
  destruct (Z.eqb_spec p csump) as [->|Hne].
  - destruct Hc as [Hc|(k&Hk&Hn)]; [lia|]. assert (k = 0%nat) as -> by lia. destruct n as [|n]; [lia|].
    replace (csump + 4 * Z.of_nat (S (S n))) with (csump + 8 + 4 * Z.of_nat n) by lia.
    rewrite IH by (auto; lia). replace (4 * S (S n))%nat with (4 + 4 * S n)%nat by lia.
    rewrite words32_load. replace (4 * S n)%nat with (4 + 4 * n)%nat by lia. rewrite words32_load.
    assert (load_bytes m0 csump 8 = replicate 8 0) as Hz by (apply (load_store m csump (replicate 8 0))).
    change 8%nat with (4 + 4)%nat in Hz at 1. rewrite load_bytes_app in Hz.
    apply (app_inj_1 _ (replicate 4 0) _ (replicate 4 0)) in Hz as [Hz1 Hz2]; [|done].
    assert (le32 m0 csump = 0) as -> by (unfold le32; by rewrite Hz1).
    assert (le32 m0 (csump + 4) = 0) as -> by (unfold le32; change 4 with (Z.of_nat 4) at 1; by rewrite Hz2).
    cbn [checksum_words]. rewrite !Z.add_0_r. assert (u32 lo = lo) as Hl by (apply Z.mod_small; lia).
    rewrite !Hl. replace (csump + 4 + 4) with (csump + 8) by lia. done.
  - assert (le32 m p = le32 m0 p) as Hw.
    { unfold le32. f_equal. symmetry. apply load_store_out. simpl.
      destruct Hc as [Hc|(k&Hk&Hn)]; [lia|]. destruct k; lia. }
    rewrite Hw. replace (p + 4 * Z.of_nat (S n)) with (p + 4 + 4 * Z.of_nat n) by lia. rewrite IH.
    + replace (4 * S n)%nat with (4 + 4 * n)%nat by lia. by rewrite words32_load.
    + lia.
    + apply Z.mod_pos_bound. lia.
    + destruct Hc as [Hc|(k&Hk&Hn)]; [left; lia|right]. destruct k as [|k]; [lia|]. exists k. lia.
Qed.
(** The checksum of a buffer, the field at [c] counted as zeroes. *)
Definition checksum_of (l : list Z) : Z := checksum_value (checksum_words (words32 l) 0 0).

Lemma util_checksum_seq_Ok n l csum s :
  (length l = n * 4)%nat →
  util_checksum_seq l csum s
  = Ok (checksum_value (checksum_words (words32 l) (u32 csum) (u32 (Z.shiftr csum 32)))) s.
Proof.
  intros Hl. unfold util_checksum_seq. rewrite Hl, Nat2Z.inj_mul. rewrite Z.mod_mul by lia. done.
Qed.
Lemma util_checksum_first n l s : (length l = n * 4)%nat → util_checksum_seq l 0 s = Ok (checksum_of l) s.
Proof. apply util_checksum_seq_Ok. Qed.
(** Piece by piece. *)
Lemma checksum_of_app n l1 l2 :
  (length l1 = n * 4)%nat →
  checksum_value (checksum_words (words32 l2) (u32 (checksum_of l1)) (u32 (Z.shiftr (checksum_of l1) 32)))
  = checksum_of (l1 ++ l2).
Proof.
  intros Hl. unfold checksum_of. rewrite (words32_app n) by done. rewrite checksum_words_app.
  destruct (checksum_words_range (words32 l1) 0 0) as [H1 H2]; [lia..|].
  destruct (checksum_value_split _ H1 H2) as (->&->&_). done.
Qed.
Lemma checksum_of_range l : 0 ≤ checksum_of l < U64.
Proof.
  destruct (checksum_words_range (words32 l) 0 0) as [H1 H2]; [lia..|].
  by destruct (checksum_value_split _ H1 H2) as (_&_&?).
Qed.
Lemma util_checksum_Ok s a n csump k :
  csump = a + 4 * Z.of_nat k → (k + 2 ≤ n)%nat →
  util_checksum a (4 * Z.of_nat n) csump false 0 s
  = Ok (le64 (bytes s) csump =? checksum_of (load_bytes (store_bytes (bytes s) csump (replicate 8 0)) a (4 * n))) s.
Proof.
  intros Hc Hk. unfold util_checksum. rewrite (Z.mul_comm 4), Z.mod_mul, Z.div_mul, (Z.mul_comm _ 4) by lia.
  cbn [Z.eqb negb]. rewrite Nat2Z.id. unfold gets. erewrite bind_Ok by reflexivity.
  rewrite checksum_from_words; [|lia|lia|right; by exists k].
  by erewrite bind_Ok by reflexivity.
Qed.
