(* ===== verification/Ulog.v ===== *)
(** * The unified log

    [src/pmdk/src/libpmemobj/ulog.c]: a chain of logs in persistent memory, each
    with a header of 64 bytes and data that hold entries one after the other.
    Pointers are addresses; 0 is [NULL]. *)
From stdpp Require Import base list strings.
From S2P Require Import Prelude Pmem.
Open Scope Z_scope.

Implicit Types (p_ops : pmem_ops) (ulog e : Z).

(** ** Layout *)

Definition CACHELINE_SIZE : Z := 64.
Definition ALIGN_UP (size align : Z) : Z := Z.land (u64 (size + align - 1)) (U64 - align).
Definition ALIGN_DOWN (size align : Z) : Z := Z.land size (U64 - align).
Definition CACHELINE_ALIGN (size : Z) : Z := ALIGN_UP size CACHELINE_SIZE.
Definition IS_CACHELINE_ALIGNED (ptr : Z) : bool := Z.land ptr (CACHELINE_SIZE - 1) =? 0.

(** [struct ulog]: checksum, next, capacity, unused[5], data. *)
Definition sizeof_ulog : Z := 64.
Definition ulog_checksum_at ulog : Z := ulog.
Definition ulog_next_at ulog : Z := ulog + 8.
Definition ulog_capacity_at ulog : Z := ulog + 16.
Definition ulog_unused_at ulog : Z := ulog + 24.
Definition ulog_data ulog : Z := ulog + 64.
Definition SIZEOF_ULOG (capacity : Z) : Z := sizeof_ulog + capacity.
(** [struct ulog_entry_val]: offset, value;
    [struct ulog_entry_buf]: offset, checksum, size, data. *)
Definition sizeof_entry_base : Z := 8.
Definition sizeof_entry_val : Z := 16.
Definition sizeof_entry_buf : Z := 24.

Definition ULOG_OPERATION_SET : Z := 0.
Definition ULOG_OPERATION_AND : Z := Z.shiftl 1 61.
Definition ULOG_OPERATION_OR : Z := Z.shiftl 2 61.
Definition ULOG_OPERATION_BUF_SET : Z := Z.shiftl 5 61.
Definition ULOG_OPERATION_BUF_CPY : Z := Z.shiftl 6 61.
Definition ULOG_OPERATION_MASK : Z := Z.shiftl 7 61.
Definition ULOG_OFFSET_MASK : Z := Z.shiftl 1 61 - 1.

Definition ulog_by_offset (offset : Z) p_ops : Z :=
  if offset =? 0 then 0 else base p_ops + CACHELINE_ALIGN offset.
Definition ulog_next ulog p_ops : M pm Z :=
  let! next := rd64 (ulog_next_at ulog) in ret (ulog_by_offset next p_ops).

Definition ulog_entry_type e : M pm Z :=
  let! o := rd64 e in ret (Z.land o ULOG_OPERATION_MASK).
Definition ulog_entry_offset e : M pm Z :=
  let! o := rd64 e in ret (Z.land o ULOG_OFFSET_MASK).
Definition is_val (t : Z) : bool :=
  (t =? ULOG_OPERATION_AND) || (t =? ULOG_OPERATION_OR) || (t =? ULOG_OPERATION_SET).
Definition is_buf (t : Z) : bool := (t =? ULOG_OPERATION_BUF_SET) || (t =? ULOG_OPERATION_BUF_CPY).
Definition ulog_entry_size e : M pm Z :=
  let! t := ulog_entry_type e in
  if is_val t then ret sizeof_entry_val
  else if is_buf t then
    let! size := rd64 (e + 16) in ret (CACHELINE_ALIGN (u64 (sizeof_entry_buf + size)))
  else stop (AssertFailed "ulog_entry_size").
Definition ulog_entry_valid e : M pm bool :=
  let! o := rd64 e in
  if o =? 0 then ret false
  else
    let! t := ulog_entry_type e in
    if is_buf t then
      let! size := ulog_entry_size e in util_checksum e size (e + 8) false 0
    else ret true.

Definition ulog_construct (offset capacity : Z) (flush : bool) p_ops : M pm unit :=
  let ulog := ulog_by_offset offset p_ops in
  assert_ (negb (ulog =? 0)) "ulog != NULL" ;;
  wr64 (ulog_capacity_at ulog) capacity ;;
  wr64 (ulog_checksum_at ulog) 0 ;;
  wr64 (ulog_next_at ulog) 0 ;;
  put (ulog_unused_at ulog) (replicate 40 0) false ;;
  if flush then
    pmemops_xflush p_ops ulog sizeof_ulog ;;
    pmemops_memset p_ops (ulog_data ulog) 0 capacity
      (PMEMOBJ_F_MEM_NONTEMPORAL + PMEMOBJ_F_MEM_NODRAIN + PMEMOBJ_F_RELAXED)
  else put (ulog_data ulog) (replicate (Z.to_nat capacity) 0) false.

(** ** Walking the entries *)

(** The entries of one log from [offset] on.  The result is the result of the
    last callback, and whether the walk is over. *)
Fixpoint log_entries (fuel : nat) (r offset : Z) (cb : Z → M pm Z) (ret0 : Z) : M pm (Z * bool) :=
  match fuel with
  | O => stop OutOfFuel
  | S fuel' =>
      let! capacity := rd64 (ulog_capacity_at r) in
      if offset <? capacity then
        let e := ulog_data r + offset in
        let! valid := ulog_entry_valid e in
        if negb valid then ret (ret0, true)
        else
          let! v := cb e in
          if negb (v =? 0) then ret (v, true)
          else
            let! size := ulog_entry_size e in
            log_entries fuel' r (u64 (offset + size)) cb v
      else ret (ret0, false)
  end.
(** The logs of the chain. [entries] bounds the entries of a log. *)
Fixpoint foreach_log (fuel entries : nat) (r : Z) (cb : Z → M pm Z) (ret0 : Z) p_ops : M pm Z :=
  match fuel with
  | O => stop OutOfFuel
  | S fuel' =>
      if r =? 0 then ret ret0
      else
        let! o := log_entries entries r 0 cb ret0 in
        if o.2 : bool then ret o.1
        else let! next := ulog_next r p_ops in foreach_log fuel' entries next cb o.1 p_ops
  end.
Definition ulog_foreach_entry (fuel entries : nat) ulog (cb : Z → M pm Z) p_ops : M pm Z :=
  foreach_log fuel entries ulog cb 0 p_ops.

Fixpoint capacity_from (fuel : nat) ulog (capacity : Z) p_ops : M pm Z :=
  match fuel with
  | O => stop OutOfFuel
  | S fuel' =>
      let! next := ulog_next ulog p_ops in
      if next =? 0 then ret capacity
      else let! c := rd64 (ulog_capacity_at next) in capacity_from fuel' next (u64 (capacity + c)) p_ops
  end.
Definition ulog_capacity (fuel : nat) ulog (ulog_base_bytes : Z) p_ops : M pm Z :=
  capacity_from fuel ulog ulog_base_bytes p_ops.

(** [next] is a vector of offsets. *)
Fixpoint ulog_rebuild_next_vec (fuel : nat) ulog (next : list Z) p_ops : M pm (list Z) :=
  match fuel with
  | O => stop OutOfFuel
  | S fuel' =>
      let! n := rd64 (ulog_next_at ulog) in
      let next' := if negb (n =? 0) then next ++ [n] else next in
      let ulog' := ulog_by_offset n p_ops in
      if ulog' =? 0 then ret next' else ulog_rebuild_next_vec fuel' ulog' next' p_ops
  end.

(** ** Space *)

(** The last log of the chain and the capacity of all of them. *)
Fixpoint reserved (next : list Z) ulog (capacity : Z) p_ops : M pm (Z * Z) :=
  match next with
  | [] => ret (ulog, capacity)
  | offset :: next' =>
      let ulog' := ulog_by_offset offset p_ops in
      assert_ (negb (ulog' =? 0)) "ulog != NULL" ;;
      let! c := rd64 (ulog_capacity_at ulog') in
      reserved next' ulog' (u64 (capacity + c)) p_ops
  end.
(** [extend base &ulog->next] allocates a log and stores its offset.  The result
    has the vector also when the extension fails. *)
Fixpoint extend_to (fuel : nat) (new_capacity : Z) (extend : Z → M pm Z) ulog (capacity : Z)
    (next : list Z) p_ops : M pm (option Z * list Z) :=
  match fuel with
  | O => stop OutOfFuel
  | S fuel' =>
      if capacity <? new_capacity then
        let! v := extend (ulog_next_at ulog) in
        if negb (v =? 0) then ret (None, next)
        else
          let! n := rd64 (ulog_next_at ulog) in
          let ulog' := ulog_by_offset n p_ops in
          assert_ (negb (ulog' =? 0)) "ulog != NULL" ;;
          let! c := rd64 (ulog_capacity_at ulog') in
          extend_to fuel' new_capacity extend ulog' (u64 (capacity + c)) (next ++ [n]) p_ops
      else ret (Some capacity, next)
  end.
(** The new capacity, [None] for the result -1, and the vector. *)
Definition ulog_reserve (fuel : nat) ulog (ulog_base_nbytes new_capacity : Z) (extend : Z → M pm Z)
    (next : list Z) p_ops : M pm (option Z * list Z) :=
  let! o := reserved next ulog ulog_base_nbytes p_ops in
  extend_to fuel new_capacity extend o.1 o.2 next p_ops.

(** ** Creating entries *)

Definition ulog_checksum ulog (ulog_base_bytes : Z) (insert : bool) : M pm bool :=
  util_checksum ulog (SIZEOF_ULOG ulog_base_bytes) (ulog_checksum_at ulog) insert 0.

(** The part of the source beyond the base goes to the next logs. *)
Fixpoint store_next (fuel : nat) src (offset next_nbytes : Z) (next : list Z) (nlog : nat) p_ops : M pm nat :=
  match fuel with
  | O => stop OutOfFuel
  | S fuel' =>
      if 0 <? next_nbytes then
        match next !! nlog with
        | None => stop (UndefinedBehaviour "VEC_ARR(next)[nlog++]")
        | Some o =>
            let ulog := ulog_by_offset o p_ops in
            assert_ (negb (ulog =? 0)) "ulog != NULL" ;;
            let! capacity := rd64 (ulog_capacity_at ulog) in
            let copy_nbytes := Z.min next_nbytes capacity in
            assert_ (IS_CACHELINE_ALIGNED (ulog_data ulog)) "IS_CACHELINE_ALIGNED(ulog->data)" ;;
            let! l := rd_bytes (ulog_data src + offset) copy_nbytes in
            pmemops_memcpy p_ops (ulog_data ulog) l
              (PMEMOBJ_F_MEM_WC + PMEMOBJ_F_MEM_NODRAIN + PMEMOBJ_F_RELAXED) ;;
            store_next fuel' src (offset + copy_nbytes) (next_nbytes - copy_nbytes) next (S nlog) p_ops
        end
      else ret nlog
  end.
Definition ulog_store (fuel : nat) (dest src nbytes ulog_base_nbytes : Z) (next : list Z) p_ops : M pm unit :=
  let checksum_nbytes := Z.min ulog_base_nbytes nbytes in
  let nbytes := CACHELINE_ALIGN (u64 (nbytes + sizeof_entry_base)) in
  let base_nbytes := Z.min ulog_base_nbytes nbytes in
  let! nlog := store_next fuel src ulog_base_nbytes (nbytes - base_nbytes) next 0 p_ops in
  when (negb (nlog =? 0)%nat) (pmemops_drain p_ops) ;;
  wr64 (ulog_next_at src) (match next with [] => 0 | o :: _ => o end) ;;
  ulog_checksum src checksum_nbytes true ;;
  let! l := rd_bytes src (SIZEOF_ULOG base_nbytes) in
  pmemops_memcpy p_ops dest l PMEMOBJ_F_MEM_WC.

Definition ulog_entry_val_create ulog (offset dest value type : Z) p_ops : M pm Z :=
  let e := ulog_data ulog + offset in
  pmemops_memcpy p_ops e
    (to_le 8 (Z.lor (u64 (dest - base p_ops)) type) ++ to_le 8 value ++ to_le 8 0)
    (PMEMOBJ_F_MEM_NOFLUSH + PMEMOBJ_F_RELAXED) ;;
  ret e.

(** The first cache line of a buffer entry: 24 bytes of metadata, 40 of data. *)
Definition first_line (offset checksum size : Z) (src : list Z) : list Z :=
  let bdatasize := Z.to_nat (CACHELINE_SIZE - sizeof_entry_buf) in
  to_le 8 offset ++ to_le 8 checksum ++ to_le 8 size ++
  take bdatasize src ++ replicate (bdatasize - length (take bdatasize src)) 0.
Definition last_line (l : list Z) : list Z :=
  l ++ replicate (Z.to_nat CACHELINE_SIZE - length l) 0.
Definition NT_NODRAIN : Z := PMEMOBJ_F_MEM_NODRAIN + PMEMOBJ_F_MEM_NONTEMPORAL.

Definition ulog_entry_buf_create ulog (offset dest src size type : Z) p_ops : M pm Z :=
  let e := ulog_data ulog + offset in
  let o := Z.lor (u64 (dest - base p_ops)) type in
  let ncopy := Z.min size (CACHELINE_SIZE - sizeof_entry_buf) in
  let! data := rd_bytes src ncopy in
  let remaining_size := if size <? ncopy then 0 else size - ncopy in
  let srcof := src + ncopy in
  let rcopy := ALIGN_DOWN remaining_size CACHELINE_SIZE in
  let lcopy := remaining_size - rcopy in
  let! last := rd_bytes (srcof + rcopy) lcopy in
  let last_cacheline := last_line last in
  when (negb (rcopy =? 0))
    (let dest := e + sizeof_entry_buf + ncopy in
     assert_ (IS_CACHELINE_ALIGNED dest) "IS_CACHELINE_ALIGNED(dest)" ;;
     let! body := rd_bytes srcof rcopy in
     pmemops_memcpy p_ops dest body NT_NODRAIN) ;;
  when (negb (lcopy =? 0))
    (let dest := e + sizeof_entry_buf + ncopy + rcopy in
     assert_ (IS_CACHELINE_ALIGNED dest) "IS_CACHELINE_ALIGNED(dest)" ;;
     pmemops_memcpy p_ops dest last_cacheline NT_NODRAIN) ;;
  let! c1 := util_checksum_seq (first_line o 0 size data) 0 in
  let! c2 := (if negb (rcopy =? 0) then
                let! body := rd_bytes srcof rcopy in util_checksum_seq body c1
              else ret c1) in
  let! c3 := (if negb (lcopy =? 0) then util_checksum_seq last_cacheline c2 else ret c2) in
  assert_ (IS_CACHELINE_ALIGNED e) "IS_CACHELINE_ALIGNED(e)" ;;
  pmemops_memcpy p_ops e (first_line o c3 size data) NT_NODRAIN ;;
  pmemops_drain p_ops ;;
  let! valid := ulog_entry_valid e in
  assert_ valid "ulog_entry_valid(&e->base)" ;;
  ret e.

(** ** Applying entries *)

Definition ulog_entry_apply e (persist : bool) p_ops : M pm unit :=
  let! t := ulog_entry_type e in
  let! offset := ulog_entry_offset e in
  let dst := base p_ops + offset in
  let f := if persist then pmemops_persist p_ops dst 8 else pmemops_xflush p_ops dst 8 in
  if is_val t then
    let! value := rd64 (e + 8) in
    let! old := rd64 dst in
    wr64 dst (if t =? ULOG_OPERATION_AND then Z.land old value
              else if t =? ULOG_OPERATION_OR then Z.lor old value else value) ;;
    f
  else if t =? ULOG_OPERATION_BUF_SET then
    let! size := rd64 (e + 16) in
    let! c := rd_bytes (e + sizeof_entry_buf) 1 in
    pmemops_memset p_ops dst (nth 0 c 0) size (PMEMOBJ_F_RELAXED + PMEMOBJ_F_MEM_NODRAIN)
  else if t =? ULOG_OPERATION_BUF_CPY then
    let! size := rd64 (e + 16) in
    let! l := rd_bytes (e + sizeof_entry_buf) size in
    pmemops_memcpy p_ops dst l (PMEMOBJ_F_RELAXED + PMEMOBJ_F_MEM_NODRAIN)
  else stop (AssertFailed "ulog_entry_apply").
Definition ulog_process_entry p_ops e : M pm Z := ulog_entry_apply e false p_ops ;; ret 0.
Definition ulog_check_entry (check : Z → bool) e : M pm Z :=
  let! offset := ulog_entry_offset e in
  if negb (check offset) then ret (-1)
  else ret (if offset =? 0 then -1 else 0).
Definition ulog_check (fuel entries : nat) ulog (check : Z → bool) p_ops : M pm Z :=
  ulog_foreach_entry fuel entries ulog (ulog_check_entry check) p_ops.
(** The debug build checks the entries first, and ignores the result; [check] is
    [NULL] for transient entries. *)
Definition ulog_process (fuel entries : nat) ulog (check : option (Z → bool)) p_ops : M pm unit :=
  (match check with Some f => ulog_check fuel entries ulog f p_ops ;; ret tt | None => ret tt end) ;;
  ulog_foreach_entry fuel entries ulog (ulog_process_entry p_ops) p_ops ;; ret tt.

(** ** Invalidation *)

(** [next] is [NULL] or a vector. *)
Definition ulog_clobber (dest : Z) (next : option (list Z)) p_ops : M pm unit :=
  let! n := (match next with
             | Some v => ret (match v with [] => 0 | o :: _ => o end)
             | None => rd64 (ulog_next_at dest)
             end) in
  pmemops_memcpy p_ops dest (replicate 8 0 ++ to_le 8 n ++ replicate 48 0) PMEMOBJ_F_MEM_WC.

(** The loop that zeroes the data of the log [r] and of the one after it. *)
Fixpoint zero_logs (fuel : nat) (r nbytes rcapacity : Z) (next : list Z) (nlog : nat) p_ops : M pm unit :=
  match fuel with
  | O => stop OutOfFuel
  | S fuel' =>
      if r =? 0 then ret tt
      else
        let nzero := Z.min nbytes rcapacity in
        pmemops_memset p_ops (ulog_data r) 0 nzero PMEMOBJ_F_MEM_WC ;;
        if nbytes - nzero =? 0 then ret tt
        else
          match next !! nlog with
          | None => stop (UndefinedBehaviour "VEC_ARR(next)[nlog++]")
          | Some o =>
              let r' := ulog_by_offset o p_ops in
              if (1 <? S nlog)%nat then ret tt
              else
                assert_ (negb (r' =? 0)) "r != NULL" ;;
                let! c := rd64 (ulog_capacity_at r') in
                zero_logs fuel' r' (nbytes - nzero) c next (S nlog) p_ops
          end
  end.
(** The addresses of the [next] fields of the logs after the first extension. *)
Fixpoint logs_past (fuel : nat) (u : Z) (logs_past_first : list Z) p_ops : M pm (list Z) :=
  match fuel with
  | O => stop OutOfFuel
  | S fuel' =>
      if u =? 0 then ret logs_past_first
      else
        let! next_offset := rd64 (ulog_next_at u) in
        if next_offset =? 0 then ret logs_past_first
        else logs_past fuel' (ulog_by_offset next_offset p_ops) (logs_past_first ++ [ulog_next_at u]) p_ops
  end.
(** [ulog_free base ptr] frees the log whose offset is at [ptr]. *)
Definition ulog_clobber_data (fuel : nat) (dest nbytes ulog_base_nbytes : Z) (next : list Z)
    (ulog_free : Z → M pm unit) p_ops : M pm unit :=
  assert_ (negb (dest =? 0)) "dest != NULL" ;;
  zero_logs fuel dest nbytes ulog_base_nbytes next 0 p_ops ;;
  let! n := rd64 (ulog_next_at dest) in
  let u := ulog_by_offset n p_ops in
  if u =? 0 then ret tt
  else
    let! logs_past_first := logs_past fuel u [] p_ops in
    for_each (reverse logs_past_first) ulog_free.

(** ** Recovery *)

Fixpoint base_nbytes_from (fuel : nat) ulog (offset : Z) : M pm Z :=
  match fuel with
  | O => stop OutOfFuel
  | S fuel' =>
      let! capacity := rd64 (ulog_capacity_at ulog) in
      if offset <? capacity then
        let e := ulog_data ulog + offset in
        let! valid := ulog_entry_valid e in
        if negb valid then ret offset
        else let! size := ulog_entry_size e in base_nbytes_from fuel' ulog (u64 (offset + size))
      else ret offset
  end.
Definition ulog_base_nbytes (fuel : nat) ulog : M pm Z := base_nbytes_from fuel ulog 0.
Definition ulog_recovery_needed (fuel : nat) ulog (verify_checksum : bool) : M pm bool :=
  let! n := ulog_base_nbytes fuel ulog in
  let! capacity := rd64 (ulog_capacity_at ulog) in
  let nbytes := Z.min n capacity in
  if nbytes =? 0 then ret false
  else if verify_checksum then ulog_checksum ulog nbytes false
  else ret true.
Definition ulog_recover (fuel entries : nat) ulog p_ops : M pm unit :=
  let! needed := ulog_recovery_needed entries ulog true in
  when needed (ulog_process fuel entries ulog (Some (off_is_valid p_ops)) p_ops ;; ulog_clobber ulog None p_ops).
