(* ===== verification/UlogFacts.v ===== *)
(** * The unified log: correctness

    An entry that was created is valid, and reading it gives what it was created
    from; walking a log visits the entries in the order in which they were
    created. *)
From stdpp Require Import base list strings.
From S2P Require Import Prelude Pmem PmemFacts Ulog.
Open Scope Z_scope.

Implicit Types (m : mem) (s : pm) (l : list Z) (o e : Z).

(** ** Alignment *)

Lemma align_down x : 0 ≤ x < U64 → ALIGN_DOWN x CACHELINE_SIZE = x / 64 * 64.
Proof. intros Hx. apply (land_high x 6 64); [lia|exact Hx]. Qed.
Lemma cacheline_align x : 0 ≤ x → x + 63 < U64 → CACHELINE_ALIGN x = (x + 63) / 64 * 64.
Proof.
  intros H1 H2. unfold CACHELINE_ALIGN, ALIGN_UP, CACHELINE_SIZE. replace (x + 64 - 1) with (x + 63) by lia.
  rewrite u64_small by lia. apply (land_high (x + 63) 6 64); [lia|]. change (2 ^ 64) with U64. lia.
Qed.

(** ** Buffer entries *)

(** Size, data, and zeroes up to the next cache line. *)
Definition buf_tail (l : list Z) : list Z :=
  to_le 8 (Z.of_nat (length l)) ++ l ++ replicate (Z.to_nat ((- (24 + Z.of_nat (length l))) `mod` 64)) 0.
Definition buf_raw (o c : Z) (l : list Z) : list Z := to_le 8 o ++ to_le 8 c ++ buf_tail l.
Definition buf_entry (o : Z) (l : list Z) : list Z := buf_raw o (checksum_of (buf_raw o 0 l)) l.
(** The lines that an entry for [n] bytes occupies. *)
Definition lines (n : Z) : Z := (n + 24 + 63) / 64.

Lemma buf_raw_length o c l : Z.of_nat (length (buf_raw o c l)) = 64 * lines (Z.of_nat (length l)).
Proof.
  unfold buf_raw, buf_tail, lines. rewrite !length_app, !to_le_length, length_replicate.
  set (n := Z.of_nat (length l)). pose proof (Z.mod_pos_bound (- (24 + n)) 64 ltac:(lia)).
  rewrite !Nat2Z.inj_add, Z2Nat.id by lia. fold n.
  pose proof (Z.div_mod (n + 24 + 63) 64 ltac:(lia)). pose proof (Z.mod_pos_bound (n + 24 + 63) 64 ltac:(lia)).
  pose proof (Z.div_mod (- (24 + n)) 64 ltac:(lia)). lia.
Qed.
Lemma buf_entry_length o l : Z.of_nat (length (buf_entry o l)) = 64 * lines (Z.of_nat (length l)).
Proof. apply buf_raw_length. Qed.
Lemma lines_pos n : 0 ≤ n → 0 < lines n.
Proof. intros Hn. unfold lines. apply Z.div_str_pos. lia. Qed.

(** A memory that holds an entry at [e]. *)
Definition entry_at m e o l : Prop := load_bytes m e (length (buf_entry o l)) = buf_entry o l.

Lemma load_prefix m e n l1 l2 :
  load_bytes m e n = l1 ++ l2 → load_bytes m e (length l1) = l1 ∧ load_bytes m (e + Z.of_nat (length l1)) (length l2) = l2.
Proof.
  intros H. assert (n = (length l1 + length l2)%nat) as -> by (rewrite <-length_app, <-H; symmetry; apply load_bytes_length).
  rewrite load_bytes_app in H. apply app_inj_1 in H; [done|apply load_bytes_length].
Qed.
(** The fields of an entry. *)
Lemma entry_fields m e o l :
  entry_at m e o l → 0 ≤ o < U64 → Z.of_nat (length l) < U64 →
  le64 m e = o ∧ le64 m (e + 8) = checksum_of (buf_raw o 0 l) ∧ le64 m (e + 16) = Z.of_nat (length l) ∧
  load_bytes m (e + 24) (length l) = l.
Proof.
  unfold entry_at, buf_entry at 2, buf_raw at 1, buf_tail. intros H Ho Hl.
  apply load_prefix in H as [H1 H]. rewrite to_le_length in *.
  apply load_prefix in H as [H2 H]. rewrite to_le_length in *.
  apply load_prefix in H as [H3 H]. rewrite to_le_length in *.
  apply load_prefix in H as [H4 _].
  pose proof (checksum_of_range (buf_raw o 0 l)).
  split; [by apply le64_load|]. split; [by apply le64_load|]. split.
  - apply le64_load; [lia|]. rewrite <-H3. f_equal. lia.
  - rewrite <-H4 at 2. f_equal. lia.
Qed.
(** With zeroes in the field of the checksum, the bytes are those that were summed. *)
Lemma entry_zeroed m e o l :
  entry_at m e o l →
  load_bytes (store_bytes m (e + 8) (replicate 8 0)) e (length (buf_entry o l)) = buf_raw o 0 l.
Proof.
  unfold entry_at. intros H. pose proof H as H'. unfold buf_entry at 2, buf_raw at 1 in H'.
  apply load_prefix in H' as [H1 H']. apply load_prefix in H' as [_ H3]. rewrite !to_le_length in *.
  assert (length (buf_entry o l) = 8 + (8 + length (buf_tail l)))%nat as Hlen.
  { unfold buf_entry, buf_raw at 1. by rewrite !length_app, !to_le_length. }
  rewrite Hlen, !load_bytes_app. unfold buf_raw. f_equal; [|f_equal].
  - rewrite load_store_out; [done|]. simpl. lia.
  - apply (load_store m (e + 8) (replicate 8 0)).
  - rewrite load_store_out; [|simpl; lia]. done.
Qed.

(** ** Reading entries *)

(** The first word of a copy entry for the offset [o]. *)
Definition cpy (o : Z) : Z := o + ULOG_OPERATION_BUF_CPY.
Record ok_entry (o : Z) l : Prop := {
  oe_offset : 0 ≤ o < 2 ^ 61;
  oe_size : Z.of_nat (length l) + 24 + 63 < U64;
}.
Lemma cpy_word o : 0 ≤ o < 2 ^ 61 →
  Z.lor o ULOG_OPERATION_BUF_CPY = cpy o ∧ Z.land (cpy o) ULOG_OPERATION_MASK = ULOG_OPERATION_BUF_CPY ∧
  Z.land (cpy o) ULOG_OFFSET_MASK = o ∧ 0 < cpy o < U64.
Proof.
  intros Ho. assert (ULOG_OPERATION_BUF_CPY = 6 * 2 ^ 61) as Hc by reflexivity. unfold cpy. rewrite Hc.
  split; [|split; [|split]].
  - rewrite Z.lor_comm, lor_high by lia. lia.
  - change ULOG_OPERATION_MASK with (2 ^ 64 - 2 ^ 61). rewrite land_high by lia.
    rewrite Z.div_add, Z.div_small by lia. lia.
  - change ULOG_OFFSET_MASK with (Z.ones 61). rewrite Z.land_ones by lia.
    rewrite Z.mod_add, Z.mod_small by lia. done.
  - unfold U64. lia.
Qed.

Lemma rd64_Ok s a : rd64 a s = Ok (le64 (bytes s) a) s.
Proof. done. Qed.
Lemma entry_type_Ok s e o : 0 ≤ o < 2 ^ 61 → le64 (bytes s) e = cpy o → ulog_entry_type e s = Ok ULOG_OPERATION_BUF_CPY s.
Proof.
  intros Ho He. unfold ulog_entry_type. rewrite (bind_Ok _ _ _ _ _ (rd64_Ok s e)), He.
  destruct (cpy_word o Ho) as (_&->&_). done.
Qed.
Lemma entry_offset_Ok s e o : 0 ≤ o < 2 ^ 61 → le64 (bytes s) e = cpy o → ulog_entry_offset e s = Ok o s.
Proof.
  intros Ho He. unfold ulog_entry_offset. rewrite (bind_Ok _ _ _ _ _ (rd64_Ok s e)), He.
  destruct (cpy_word o Ho) as (_&_&->&_). done.
Qed.
Section entry.
Context (s : pm) (e o : Z) (l : list Z).
Context (He : entry_at (bytes s) e (cpy o) l) (Hok : ok_entry o l).

Lemma entry_words :
  le64 (bytes s) e = cpy o ∧ le64 (bytes s) (e + 8) = checksum_of (buf_raw (cpy o) 0 l) ∧
  le64 (bytes s) (e + 16) = Z.of_nat (length l) ∧ load_bytes (bytes s) (e + 24) (length l) = l.
Proof using He Hok.
  destruct Hok as [Ho Hl]. destruct (cpy_word o Ho) as (_&_&_&Hc). apply entry_fields; [done|lia|lia].
Qed.
Lemma entry_size_Ok : ulog_entry_size e s = Ok (64 * lines (Z.of_nat (length l))) s.
Proof using He Hok.
  destruct entry_words as (H1&_&H3&_). destruct Hok as [Ho Hl]. unfold ulog_entry_size.
  rewrite (bind_Ok _ _ _ _ _ (entry_type_Ok s e o Ho H1)). cbn [is_val is_buf].
  change (is_val ULOG_OPERATION_BUF_CPY) with false. change (is_buf ULOG_OPERATION_BUF_CPY) with true. cbv iota.
  rewrite (bind_Ok _ _ _ _ _ (rd64_Ok s _)), H3. unfold ret. f_equal. unfold sizeof_entry_buf.
  rewrite u64_small by lia. rewrite cacheline_align by lia. unfold lines.
  replace (24 + Z.of_nat (length l) + 63) with (Z.of_nat (length l) + 24 + 63) by lia. lia.
Qed.
Lemma entry_valid_Ok : ulog_entry_valid e s = Ok true s.
Proof using He Hok.
  pose proof entry_size_Ok as Hsz. destruct entry_words as (H1&H2&_&_). destruct Hok as [Ho Hl].
  destruct (cpy_word o Ho) as (_&_&_&Hc). unfold ulog_entry_valid.
  rewrite (bind_Ok _ _ _ _ _ (rd64_Ok s e)), H1. rewrite (proj2 (Z.eqb_neq _ 0)) by lia.
  rewrite (bind_Ok _ _ _ _ _ (entry_type_Ok s e o Ho H1)).
  change (is_buf ULOG_OPERATION_BUF_CPY) with true. cbv iota. rewrite (bind_Ok _ _ _ _ _ Hsz).
  pose proof (lines_pos (Z.of_nat (length l)) ltac:(lia)) as Hpos.
  pose proof (buf_entry_length (cpy o) l) as Hlen.
  set (n := (16 * Z.to_nat (lines (Z.of_nat (length l))))%nat).
  assert (64 * lines (Z.of_nat (length l)) = 4 * Z.of_nat n) as -> by lia.
  rewrite (util_checksum_Ok s e n (e + 8) 2) by lia. rewrite H2.
  replace (4 * n)%nat with (length (buf_entry (cpy o) l)) by lia.
  rewrite entry_zeroed by done. by rewrite Z.eqb_refl.
Qed.
End entry.
Lemma zero_invalid s e : le64 (bytes s) e = 0 → ulog_entry_valid e s = Ok false s.
Proof. intros He. unfold ulog_entry_valid. by rewrite (bind_Ok _ _ _ _ _ (rd64_Ok s e)), He. Qed.

(** ** Creating entries *)

(** The lines of a buffer of more than 40 bytes. *)
Definition tail_line l : list Z := match l with [] => [] | _ => last_line l end.
Lemma short_raw o c l :
  (length l ≤ 40)%nat → buf_raw o c l = first_line o c (Z.of_nat (length l)) l.
Proof.
  intros Hl. unfold buf_raw, buf_tail, first_line. change (Z.to_nat (CACHELINE_SIZE - sizeof_entry_buf)) with 40%nat.
  rewrite take_ge by done. do 4 f_equal. f_equal.
  replace (- (24 + Z.of_nat (length l))) with (40 - Z.of_nat (length l) + (-1) * 64) by lia.
  rewrite Z.mod_add by lia. rewrite Z.mod_small by lia. lia.
Qed.
Lemma long_raw o c l1 l2 l3 k :
  length l1 = 40%nat → length l2 = (64 * k)%nat → (length l3 < 64)%nat →
  buf_raw o c (l1 ++ l2 ++ l3) = first_line o c (Z.of_nat (length (l1 ++ l2 ++ l3))) l1 ++ l2 ++ tail_line l3.
Proof.
  intros H1 H2 H3. unfold buf_raw, buf_tail, first_line.
  change (Z.to_nat (CACHELINE_SIZE - sizeof_entry_buf)) with 40%nat.
  rewrite take_ge by lia. rewrite H1. cbn [Nat.sub replicate]. rewrite app_nil_r, <-!app_assoc. do 5 f_equal.
  rewrite !length_app, H1, H2. unfold tail_line, last_line. change (Z.to_nat CACHELINE_SIZE) with 64%nat.
  replace (- (24 + Z.of_nat (40 + (64 * k + length l3)))) with (- Z.of_nat (length l3) + (-1 - Z.of_nat k) * 64) by lia.
  rewrite Z.mod_add by lia. destruct l3 as [|b l3]; [done|]. f_equal. f_equal. simpl in H3. cbn [length].
  replace (- Z.of_nat (S (length l3))) with (64 - Z.of_nat (S (length l3)) + (-1) * 64) by lia.
  rewrite Z.mod_add by lia. rewrite Z.mod_small by lia. lia.
Qed.
Lemma first_line_length o c n l : length (first_line o c n l) = 64%nat.
Proof.
  unfold first_line. change (Z.to_nat (CACHELINE_SIZE - sizeof_entry_buf)) with 40%nat.
  rewrite !length_app, !to_le_length, length_replicate, length_take. lia.
Qed.
Lemma tail_line_length l : (length l < 64)%nat → l ≠ [] → length (tail_line l) = 64%nat.
Proof.
  intros Hl Hne. unfold tail_line, last_line. destruct l as [|b l]; [done|]. rewrite length_app, length_replicate.
  change (Z.to_nat CACHELINE_SIZE) with 64%nat. simpl in *. lia.
Qed.

Lemma memcpy_nt p_ops a l s :
  pmemops_memcpy p_ops a l NT_NODRAIN s = Ok tt (Pm (store_bytes (bytes s) a l) (PWrite a l (persistent p_ops) :: events s)).
Proof. done. Qed.
Lemma aligned_Ok a : a `mod` 64 = 0 → IS_CACHELINE_ALIGNED a = true.
Proof.
  intros Ha. unfold IS_CACHELINE_ALIGNED. change (CACHELINE_SIZE - 1) with (Z.ones 6).
  rewrite Z.land_ones by lia. change (2 ^ 6) with 64. by rewrite Ha.
Qed.
Lemma rd_bytes_Ok s a n : rd_bytes a (Z.of_nat n) s = Ok (load_bytes (bytes s) a n) s.
Proof. unfold rd_bytes, gets. by rewrite Nat2Z.id. Qed.

(** What creating an entry writes: flushed stores into the entry, then a fence. *)
Record created (p_ops : pmem_ops) e (entry : list Z) s s' : Prop := {
  cr_bytes : ∀ q, bytes s' q = store_bytes (bytes s) e entry q;
  cr_events : ∃ w, events s' = (if persistent p_ops then [PDrain] else []) ++ w ++ events s ∧
    Forall (λ ev, ∃ a l, ev = PWrite a l (persistent p_ops) ∧ e ≤ a ∧
                         a + Z.of_nat (length l) ≤ e + Z.of_nat (length entry)) w;
}.
Lemma drain_created p_ops e entry s s' :
  (∀ q, bytes s' q = store_bytes (bytes s) e entry q) →
  (∃ w, events s' = w ++ events s ∧
     Forall (λ ev, ∃ a l, ev = PWrite a l (persistent p_ops) ∧ e ≤ a ∧
                          a + Z.of_nat (length l) ≤ e + Z.of_nat (length entry)) w) →
  ∃ s2, pmemops_drain p_ops s' = Ok tt s2 ∧ created p_ops e entry s s2 ∧ ∀ q, bytes s2 q = bytes s' q.
Proof.
  intros Hb (w&Hw&Hall). unfold pmemops_drain, when. destruct (persistent p_ops) eqn:Ep.
  - eexists. split; [done|]. split; [|done]. split; [done|]. rewrite Ep. exists w. simpl. by rewrite Hw.
  - eexists. split; [done|]. split; [|done]. split; [done|]. rewrite Ep. exists w. done.
Qed.

Section create.
Context (p_ops : pmem_ops) (ulog offset dest src : Z) (n : nat) (s : pm).
Let e : Z := ulog_data ulog + offset.
Let o : Z := u64 (dest - base p_ops).
Let l : list Z := load_bytes (bytes s) src n.
Context (He : e `mod` 64 = 0) (Ho : 0 ≤ o < 2 ^ 61) (Hn : Z.of_nat n + 24 + 63 < U64).
(** The buffer is not in the part of the log that is written. *)
Context (Hdisj : src + Z.of_nat n ≤ e ∨ e + 64 * lines (Z.of_nat n) ≤ src).

Local Lemma l_length : length l = n.
Proof. apply load_bytes_length. Qed.
Local Lemma l_ok : ok_entry o l.
Proof. split; [done|]. rewrite l_length. done. Qed.

(** The fence and the final check. *)
Local Lemma create_end s' :
  (∀ q, bytes s' q = store_bytes (bytes s) e (buf_entry (cpy o) l) q) →
  (∃ w, events s' = w ++ events s ∧
     Forall (λ ev, ∃ a l, ev = PWrite a l (persistent p_ops) ∧ e ≤ a ∧
                          a + Z.of_nat (length l) ≤ e + 64 * lines (Z.of_nat n)) w) →
  ∃ s2, (pmemops_drain p_ops ;;
         let! valid := ulog_entry_valid e in
         assert_ valid "ulog_entry_valid(&e->base)" ;; ret e) s' = Ok e s2 ∧
    created p_ops e (buf_entry (cpy o) l) s s2.
Proof.
  intros Hb Hw. pose proof (buf_entry_length (cpy o) l) as Hlen. rewrite l_length in Hlen.
  rewrite <-Hlen in Hw. destruct (drain_created p_ops e _ s s' Hb Hw) as (s2&Hd&Hc&Hs2).
  rewrite (bind_Ok _ _ _ _ _ Hd). exists s2. split; [|done].
  assert (entry_at (bytes s2) e (cpy o) l) as Hat.
  { unfold entry_at. rewrite (load_bytes_ext _ (store_bytes (bytes s) e (buf_entry (cpy o) l))).
    - apply load_store.
    - intros q _. by rewrite Hs2, Hb. }
  by rewrite (bind_Ok _ _ _ _ _ (entry_valid_Ok s2 e o l Hat l_ok)).
Qed.

Lemma create_short :
  (n ≤ 40)%nat →
  ∃ s', ulog_entry_buf_create ulog offset dest src (Z.of_nat n) ULOG_OPERATION_BUF_CPY p_ops s = Ok e s' ∧
    created p_ops e (buf_entry (cpy o) l) s s'.
Proof.
  intros H40. unfold ulog_entry_buf_create. fold e. fold o.
  change (CACHELINE_SIZE - sizeof_entry_buf) with 40. rewrite Z.min_l by lia.
  rewrite (bind_Ok _ _ _ _ _ (rd_bytes_Ok s src n)). fold l.
  rewrite Z.ltb_irrefl, Z.sub_diag. rewrite (align_down 0) by (unfold U64; lia). cbn [Z.div Z.mul].
  change (0 / 64 * 64) with 0. rewrite Z.sub_diag.
  rewrite (bind_Ok _ _ _ _ _ (rd_bytes_Ok s _ 0)). cbn [Z.eqb negb when].
  do 2 (erewrite (bind_Ok (ret tt)) by reflexivity).
  destruct (cpy_word o Ho) as (->&_).
  assert (length (first_line (cpy o) 0 (Z.of_nat n) l) = 16 * 4)%nat as H16 by apply first_line_length.
  rewrite (bind_Ok _ _ _ _ _ (util_checksum_first 16 _ s H16)).
  do 2 (erewrite (bind_Ok (ret _)) by reflexivity). rewrite aligned_Ok by done. cbn [assert_].
  erewrite (bind_Ok (ret tt)) by reflexivity. rewrite (bind_Ok _ _ _ _ _ (memcpy_nt p_ops _ _ s)).
  assert (first_line (cpy o) (checksum_of (first_line (cpy o) 0 (Z.of_nat n) l)) (Z.of_nat n) l
          = buf_entry (cpy o) l) as ->.
  { unfold buf_entry. rewrite !short_raw, l_length by (rewrite l_length; done). done. }
  apply create_end; [done|]. cbn [events]. exists [PWrite e (buf_entry (cpy o) l) (persistent p_ops)]. split; [done|].
  constructor; [|constructor]. eexists _, _. split; [done|]. pose proof (buf_entry_length (cpy o) l) as Hlen.
  rewrite l_length in Hlen. lia.
Qed.

(** The three parts of a long buffer. *)
Context (k nl : nat) (Hparts : n = (40 + (64 * k + nl))%nat) (Hnl : (nl < 64)%nat).
Let l1 : list Z := load_bytes (bytes s) src 40.
Let l2 : list Z := load_bytes (bytes s) (src + 40) (64 * k).
Let l3 : list Z := load_bytes (bytes s) (src + 40 + Z.of_nat (64 * k)) nl.
Local Lemma l_parts : l = l1 ++ l2 ++ l3.
Proof. unfold l, l1, l2, l3. by rewrite Hparts, !load_bytes_app. Qed.
Local Lemma span : 64 * lines (Z.of_nat n) = 64 + 64 * Z.of_nat k + (if (nl =? 0)%nat then 0 else 64).
Proof.
  unfold lines. rewrite Hparts. replace (Z.of_nat (40 + (64 * k + nl)) + 24 + 63) with (Z.of_nat nl + 63 + (1 + Z.of_nat k) * 64) by lia.
  rewrite Z.div_add by lia. destruct nl as [|nl']; [change ((Z.of_nat 0 + 63) / 64) with 0; simpl; lia|].
  replace (Z.of_nat (S nl') + 63) with (Z.of_nat nl' + 1 * 64) by lia. rewrite Z.div_add by lia.
  rewrite Z.div_small by lia. simpl. lia.
Qed.
Definition within (w : list pm_event) : Prop :=
  Forall (λ ev, ∃ a l, ev = PWrite a l (persistent p_ops) ∧ e ≤ a ∧
                       a + Z.of_nat (length l) ≤ e + 64 * lines (Z.of_nat n)) w.

Local Lemma create_body :
  ∃ s1, when (negb (Z.of_nat (64 * k) =? 0))
          (assert_ (IS_CACHELINE_ALIGNED (e + sizeof_entry_buf + 40)) "IS_CACHELINE_ALIGNED(dest)" ;;
           let! body := rd_bytes (src + 40) (Z.of_nat (64 * k)) in
           pmemops_memcpy p_ops (e + sizeof_entry_buf + 40) body NT_NODRAIN) s = Ok tt s1 ∧
    (∀ q, bytes s1 q = store_bytes (bytes s) (e + 64) l2 q) ∧ ∃ w, events s1 = w ++ events s ∧ within w.
Proof.
  unfold sizeof_entry_buf. replace (e + 24 + 40) with (e + 64) by lia. destruct (decide (k = 0%nat)) as [Hk|Hk].
  - exists s. split; [by rewrite Hk|]. split; [|exists []; split; [done|constructor]].
    intros q. symmetry. apply store_out. unfold l2. rewrite load_bytes_length. lia.
  - rewrite (proj2 (Z.eqb_neq _ 0)) by lia. cbn [negb when]. rewrite aligned_Ok.
    2: { replace (e + 64) with (e + 1 * 64) by lia. by rewrite Z.mod_add. }
    cbn [assert_]. erewrite (bind_Ok (ret tt)) by reflexivity.
    rewrite (bind_Ok _ _ _ _ _ (rd_bytes_Ok s _ _)). rewrite memcpy_nt. fold l2. eexists. split; [done|].
    split; [done|]. exists [PWrite (e + 64) l2 (persistent p_ops)]. split; [done|].
    constructor; [|constructor]. eexists _, _. split; [done|]. rewrite span. unfold l2. rewrite load_bytes_length.
    destruct (nl =? 0)%nat; lia.
Qed.
Local Lemma create_last s1 :
  (∃ w, events s1 = w ++ events s ∧ within w) →
  ∃ s2, when (negb (Z.of_nat nl =? 0))
          (assert_ (IS_CACHELINE_ALIGNED (e + sizeof_entry_buf + 40 + Z.of_nat (64 * k))) "IS_CACHELINE_ALIGNED(dest)" ;;
           pmemops_memcpy p_ops (e + sizeof_entry_buf + 40 + Z.of_nat (64 * k)) (last_line l3) NT_NODRAIN) s1 = Ok tt s2 ∧
    (∀ q, bytes s2 q = store_bytes (bytes s1) (e + 64 + Z.of_nat (64 * k)) (tail_line l3) q) ∧
    ∃ w, events s2 = w ++ events s ∧ within w.
Proof.
  intros (w&Hw&Hin). unfold sizeof_entry_buf. replace (e + 24 + 40) with (e + 64) by lia.
  assert (length l3 = nl) as Hl3 by apply load_bytes_length. destruct (decide (nl = 0%nat)) as [En|En].
  - exists s1. split; [by rewrite En|]. rewrite En in Hl3. apply nil_length_inv in Hl3. rewrite Hl3. split; [|eauto].
    intros q. symmetry. apply store_out. simpl. lia.
  - rewrite (proj2 (Z.eqb_neq _ 0)) by lia. cbn [negb when]. rewrite aligned_Ok.
    2: { replace (e + 64 + Z.of_nat (64 * k)) with (e + (1 + Z.of_nat k) * 64) by lia. by rewrite Z.mod_add. }
    cbn [assert_]. erewrite (bind_Ok (ret tt)) by reflexivity. rewrite memcpy_nt. eexists. split; [done|].
    assert (l3 ≠ []) as Hne by (intros Hx; rewrite Hx in Hl3; simpl in Hl3; lia).
    assert (last_line l3 = tail_line l3) as -> by (unfold tail_line; by destruct l3). split; [done|].
    exists (PWrite (e + 64 + Z.of_nat (64 * k)) (tail_line l3) (persistent p_ops) :: w). split; [by rewrite Hw|].
    constructor; [|done]. eexists _, _. split; [done|]. rewrite tail_line_length by (done || lia).
    pose proof span as Hs. rewrite (proj2 (Nat.eqb_neq nl 0)) in Hs by done. lia.
Qed.

(** The checksum over the parts. *)
Local Lemma create_c2 f0 s2 :
  length f0 = 64%nat → load_bytes (bytes s2) (src + 40) (64 * k) = l2 →
  (if negb (Z.of_nat (64 * k) =? 0) then
     let! body := rd_bytes (src + 40) (Z.of_nat (64 * k)) in util_checksum_seq body (checksum_of f0)
   else ret (checksum_of f0)) s2 = Ok (checksum_of (f0 ++ l2)) s2.
Proof.
  intros Hf Hbody. assert (length l2 = 64 * k)%nat as Hl2 by apply load_bytes_length.
  destruct (decide (k = 0%nat)) as [Hk|Hk].
  - rewrite Hk in Hl2 |- *. apply nil_length_inv in Hl2. by rewrite Hl2, app_nil_r.
  - rewrite (proj2 (Z.eqb_neq _ 0)) by lia. cbn [negb]. rewrite (bind_Ok _ _ _ _ _ (rd_bytes_Ok s2 _ _)), Hbody.
    rewrite (util_checksum_seq_Ok (16 * k)) by lia. by rewrite (checksum_of_app 16) by lia.
Qed.
Local Lemma create_c3 f0 s2 :
  length f0 = 64%nat →
  (if negb (Z.of_nat nl =? 0) then util_checksum_seq (last_line l3) (checksum_of (f0 ++ l2))
   else ret (checksum_of (f0 ++ l2))) s2 = Ok (checksum_of (f0 ++ l2 ++ tail_line l3)) s2.
Proof.
  intros Hf. assert (length l2 = 64 * k)%nat as Hl2 by apply load_bytes_length.
  assert (length l3 = nl) as Hl3 by apply load_bytes_length.
  rewrite app_assoc. destruct (decide (nl = 0%nat)) as [En|En].
  - rewrite En in Hl3 |- *. apply nil_length_inv in Hl3. by rewrite Hl3, app_nil_r.
  - rewrite (proj2 (Z.eqb_neq _ 0)) by lia. cbn [negb].
    assert (l3 ≠ []) as Hne by (intros Hx; rewrite Hx in Hl3; simpl in Hl3; lia).
    assert (last_line l3 = tail_line l3) as -> by (unfold tail_line; by destruct l3).
    rewrite (util_checksum_seq_Ok 16) by (rewrite tail_line_length by (done || lia); done).
    by rewrite (checksum_of_app (16 + 16 * k)) by (rewrite length_app; lia).
Qed.
Local Lemma create_bytes s1 s2 f :
  length f = 64%nat →
  (∀ q, bytes s1 q = store_bytes (bytes s) (e + 64) l2 q) →
  (∀ q, bytes s2 q = store_bytes (bytes s1) (e + 64 + Z.of_nat (64 * k)) (tail_line l3) q) →
  ∀ q, store_bytes (bytes s2) e f q = store_bytes (bytes s) e (f ++ l2 ++ tail_line l3) q.
Proof.
  intros Hf H1 H2 q. assert (length l2 = 64 * k)%nat as Hl2 by apply load_bytes_length.
  rewrite app_assoc, <-store_app, length_app, Hf, Hl2.
  transitivity (store_bytes (store_bytes (store_bytes (bytes s) (e + 64) l2) (e + 64 + Z.of_nat (64 * k)) (tail_line l3)) e f q).
  { apply store_ext. intros q1. rewrite H2. by apply store_ext. }
  rewrite store_comm by lia. replace (e + Z.of_nat (64 + 64 * k)) with (e + 64 + Z.of_nat (64 * k)) by lia.
  apply store_ext. intros q1. rewrite store_comm by lia. rewrite <-store_app, Hf. done.
Qed.

Lemma create_long :
  ∃ s', ulog_entry_buf_create ulog offset dest src (Z.of_nat n) ULOG_OPERATION_BUF_CPY p_ops s = Ok e s' ∧
    created p_ops e (buf_entry (cpy o) l) s s'.
Proof.
  unfold ulog_entry_buf_create. fold e. fold o. change (CACHELINE_SIZE - sizeof_entry_buf) with 40.
  rewrite Z.min_r by lia. rewrite (bind_Ok _ _ _ _ _ (rd_bytes_Ok s src 40)). fold l1.
  rewrite (proj2 (Z.ltb_ge _ _)) by lia.
  assert (ALIGN_DOWN (Z.of_nat n - 40) CACHELINE_SIZE = Z.of_nat (64 * k)) as ->.
  { rewrite align_down by lia. rewrite Hparts. replace (Z.of_nat (40 + (64 * k + nl)) - 40) with (Z.of_nat nl + Z.of_nat k * 64) by lia.
    rewrite Z.div_add, Z.div_small by lia. lia. }
  replace (Z.of_nat n - 40 - Z.of_nat (64 * k)) with (Z.of_nat nl) by lia.
  rewrite (bind_Ok _ _ _ _ _ (rd_bytes_Ok s _ nl)). fold l3. destruct create_body as (s1&Hs1&Hb1&Hw1).
  rewrite (bind_Ok _ _ _ _ _ Hs1). destruct (create_last s1 Hw1) as (s2&Hs2&Hb2&w&Hw&Hin).
  rewrite (bind_Ok _ _ _ _ _ Hs2). destruct (cpy_word o Ho) as (->&_).
  set (f0 := first_line (cpy o) 0 (Z.of_nat n) l1). assert (length f0 = 64%nat) as Hf0 by apply first_line_length.
  rewrite (bind_Ok _ _ _ _ _ (util_checksum_first 16 f0 s2 Hf0)).
  assert (load_bytes (bytes s2) (src + 40) (64 * k) = l2) as Hl2.
  { apply load_bytes_ext. intros q Hq. pose proof span as Hspan.
    assert (length l2 = 64 * k)%nat as Hlen2 by apply load_bytes_length.
    assert (Z.of_nat (length (tail_line l3)) = if (nl =? 0)%nat then 0 else 64) as Hlen3.
    { assert (length l3 = nl) as Hl3 by apply load_bytes_length. destruct (Nat.eqb_spec nl 0) as [En|En].
      - rewrite En in Hl3. apply nil_length_inv in Hl3. by rewrite Hl3.
      - rewrite tail_line_length; [done|lia|]. intros Hx. rewrite Hx in Hl3. simpl in Hl3. lia. }
    rewrite Hb2, store_out by (destruct (nl =? 0)%nat; lia). rewrite Hb1, store_out by (destruct (nl =? 0)%nat; lia). done. }
  rewrite (bind_Ok _ _ _ _ _ (create_c2 f0 s2 Hf0 Hl2)), (bind_Ok _ _ _ _ _ (create_c3 f0 s2 Hf0)).
  rewrite aligned_Ok by done. cbn [assert_]. erewrite (bind_Ok (ret tt)) by reflexivity.
  rewrite (bind_Ok _ _ _ _ _ (memcpy_nt p_ops _ _ s2)).
  set (f := first_line (cpy o) _ (Z.of_nat n) l1). assert (length f = 64%nat) as Hf by apply first_line_length.
  assert (buf_entry (cpy o) l = f ++ l2 ++ tail_line l3) as Hentry.
  { unfold buf_entry. rewrite l_parts. unfold f, f0. rewrite !(long_raw _ _ l1 l2 l3 k) by (apply load_bytes_length || (unfold l3; rewrite load_bytes_length; done)).
    rewrite <-l_parts, l_length. done. }
  apply create_end.
  - cbn [bytes]. rewrite Hentry. by apply (create_bytes s1).
  - cbn [events]. exists (PWrite e f (persistent p_ops) :: w). split; [by rewrite Hw|].
    constructor; [|done]. eexists _, _. split; [done|]. rewrite Hf. pose proof span as Hspan.
    destruct (nl =? 0)%nat; lia.
Qed.
End create.

(** Creating a copy entry writes the entry and nothing else. *)
Lemma buf_create_Ok p_ops ulog offset dest src n s :
  let e := ulog_data ulog + offset in
  let o := u64 (dest - base p_ops) in
  let l := load_bytes (bytes s) src n in
  e `mod` 64 = 0 → 0 ≤ o < 2 ^ 61 → Z.of_nat n + 24 + 63 < U64 →
  src + Z.of_nat n ≤ e ∨ e + 64 * lines (Z.of_nat n) ≤ src →
  ∃ s', ulog_entry_buf_create ulog offset dest src (Z.of_nat n) ULOG_OPERATION_BUF_CPY p_ops s = Ok e s' ∧
    created p_ops e (buf_entry (cpy o) l) s s'.
Proof.
  intros e o l He Ho Hn Hdisj. destruct (decide (n ≤ 40)%nat) as [H40|H40].
  - by apply create_short.
  - apply (create_long p_ops ulog offset dest src n s He Ho Hn Hdisj ((n - 40) / 64) ((n - 40) `mod` 64)).
    + pose proof (Nat.div_mod (n - 40) 64). lia.
    + apply Nat.mod_upper_bound. lia.
Qed.
