(* ===== verification/LogChain.v ===== *)
(** * Chains of logs

    A log in memory as the list of its entries, and a chain of logs as the list
    of its logs; what walking over a chain visits. *)
From stdpp Require Import base list strings sets.
From S2P Require Import Prelude Pmem PmemFacts Ulog UlogFacts.
Open Scope Z_scope.

(** ** One log *)

(** An entry is an offset and the bytes that were there. *)
Definition entry : Type := Z * list Z.
Record log := Log { addr : Z; cap : Z; ents : list entry }.
Implicit Types (m : mem) (s : pm) (x : entry) (xs : list entry) (g : log) (gs : list log) (p_ops : pmem_ops).

Definition encode x : list Z := buf_entry (cpy x.1) x.2.
Definition encodes xs : list Z := concat (encode <$> xs).
Definition room x : Z := 64 * lines (Z.of_nat (length x.2)).
Definition used xs : Z := Z.of_nat (length (encodes xs)).
Definition full g : bool := used (ents g) =? cap g.
Definition free_at g : Z := ulog_data (addr g) + used (ents g).

Lemma used_nil : used [] = 0.
Proof. done. Qed.
Lemma used_cons x xs : used (x :: xs) = room x + used xs.
Proof.
  unfold used, encodes. rewrite fmap_cons. cbn [concat]. rewrite length_app, Nat2Z.inj_add. f_equal.
  apply buf_entry_length.
Qed.
Lemma used_app xs ys : used (xs ++ ys) = used xs + used ys.
Proof. induction xs as [|x xs IH]; [done|]. simpl. rewrite !used_cons, IH. lia. Qed.
Lemma used_nonneg xs : 0 ≤ used xs.
Proof. unfold used. lia. Qed.
Lemma room_pos x : 0 < room x.
Proof. unfold room. pose proof (lines_pos (Z.of_nat (length x.2))). lia. Qed.
Lemma room_mod x : room x `mod` 64 = 0.
Proof. unfold room. rewrite Z.mul_comm. apply Z.mod_mul. lia. Qed.
Lemma used_mod xs : used xs `mod` 64 = 0.
Proof.
  induction xs as [|x xs IH]; [done|]. rewrite used_cons, Z.add_mod, IH, room_mod by lia. done.
Qed.

(** The bytes of a log. *)
Definition inside g (q : Z) : Prop := addr g ≤ q < addr g + SIZEOF_ULOG (cap g).
Record log_ok m g : Prop := {
  lg_aligned : addr g `mod` 64 = 0;
  lg_nonzero : addr g ≠ 0;
  lg_cap : 0 < cap g ∧ cap g + 128 < U64;
  lg_lines : cap g `mod` 64 = 0;
  lg_field : le64 m (ulog_capacity_at (addr g)) = cap g;
  lg_used : used (ents g) ≤ cap g;
  lg_entries : Forall (λ x, ok_entry x.1 x.2) (ents g);
  lg_data : load_bytes m (ulog_data (addr g)) (length (encodes (ents g))) = encodes (ents g);
  lg_zero : ∀ q, free_at g ≤ q < ulog_data (addr g) + cap g → m q = 0;
}.
Lemma log_ok_agree m m' g :
  (∀ q, inside g q → m' q = m q) → log_ok m g → log_ok m' g.
Proof.
  intros Hm [H1 H2 H3 H4 H5 H6 H7 H8 H9]. unfold inside, SIZEOF_ULOG, sizeof_ulog in Hm.
  unfold ulog_capacity_at, ulog_data, free_at in *. pose proof (used_nonneg (ents g)) as Hu. unfold used in H6, Hu. split; try done.
  - unfold ulog_capacity_at. rewrite <-H5. apply le64_ext. intros q Hq. apply Hm. lia.
  - rewrite <-H8 at 2. apply load_bytes_ext. intros q Hq. apply Hm. unfold ulog_data in Hq. lia.
  - intros q Hq. unfold free_at, used, ulog_data in Hq. rewrite Hm.
    + apply H9. unfold used, ulog_data. lia.
    + lia.
Qed.

(** The addresses of the entries, the first one at [a]. *)
Fixpoint places (a : Z) xs : list Z :=
  match xs with [] => [] | x :: xs' => a :: places (a + room x) xs' end.
Lemma places_app a xs ys : places a (xs ++ ys) = places a xs ++ places (a + used xs) ys.
Proof.
  revert a. induction xs as [|x xs IH]; intros a; simpl; [by rewrite used_nil, Z.add_0_r|].
  rewrite IH, used_cons. do 3 f_equal. lia.
Qed.
(** The entry after the first ones. *)
Lemma log_entry_at m g xs x ys :
  log_ok m g → ents g = xs ++ x :: ys →
  entry_at m (ulog_data (addr g) + used xs) (cpy x.1) x.2 ∧ ok_entry x.1 x.2 ∧ used xs + room x ≤ cap g.
Proof.
  intros H Hg. pose proof (lg_data _ _ H) as Hd. pose proof (lg_entries _ _ H) as Hok. pose proof (lg_used _ _ H) as Hu.
  rewrite Hg in *. rewrite Forall_app, Forall_cons in Hok. destruct Hok as (_&Hok&_).
  rewrite used_app, used_cons in Hu. pose proof (used_nonneg ys). split; [|split; [done|lia]].
  unfold encodes in Hd. rewrite fmap_app, concat_app in Hd. apply load_prefix in Hd as [_ Hd].
  rewrite fmap_cons in Hd. cbn [concat] in Hd. apply load_prefix in Hd as [Hd _]. exact Hd.
Qed.
Lemma log_end m g :
  log_ok m g → used (ents g) < cap g → le64 m (free_at g) = 0.
Proof.
  intros H Hu. assert (used (ents g) + 64 ≤ cap g) as Hroom.
  { pose proof (used_mod (ents g)). pose proof (lg_lines _ _ H).
    pose proof (Z.div_mod (used (ents g)) 64). pose proof (Z.div_mod (cap g) 64). lia. }
  assert (load_bytes m (free_at g) 8 = to_le 8 0) as Hl; [|by apply le64_load].
  apply list_eq. intros i. destruct (decide (i < 8)%nat) as [Hi|Hi].
  - rewrite load_bytes_lookup by done. rewrite (lg_zero _ _ H) by (unfold free_at; lia).
    change (to_le 8 0) with (replicate 8 0). by rewrite lookup_replicate_2.
  - by rewrite !lookup_ge_None_2 by (rewrite ?load_bytes_length; simpl; lia).
Qed.

(** ** Walking *)

(** The callback on a list of entries. *)
Fixpoint visit (cb : Z → M pm Z) (es : list Z) : M pm unit :=
  match es with [] => ret tt | e :: es' => cb e ;; visit cb es' end.
Lemma visit_app cb es es' s s' : visit cb es s = Ok tt s' → visit cb (es ++ es') s = visit cb es' s'.
Proof.
  revert s. induction es as [|e es IH]; intros s; simpl; [by intros [= ->]|].
  unfold bind. destruct (cb e s); [apply IH|done].
Qed.

Section walk.
Context (P : pm → Prop) (cb : Z → M pm Z).

Lemma log_walk fuel g xs ys s :
  (∀ s, P s → log_ok (bytes s) g) → ents g = xs ++ ys →
  (∀ s e, P s → e ∈ places (ulog_data (addr g) + used xs) ys → ∃ s', cb e s = Ok 0 s' ∧ P s') →
  P s → (length ys < fuel)%nat →
  ∃ s', log_entries fuel (addr g) (used xs) cb 0 s = Ok (0, negb (full g)) s' ∧
    visit cb (places (ulog_data (addr g) + used xs) ys) s = Ok tt s' ∧ P s'.
Proof.
  intros HP. revert fuel xs s. induction ys as [|y ys IH]; intros fuel xs s Hg Hcb Hs Hfuel;
    (destruct fuel as [|fuel]; [simpl in Hfuel; lia|]); cbn [log_entries].
  - rewrite app_nil_r in Hg. pose proof (HP s Hs) as H. exists s. split; [|done].
    rewrite (bind_Ok _ _ _ _ _ (rd64_Ok s _)), (lg_field _ _ H). pose proof (lg_used _ _ H) as Hu. rewrite Hg in Hu.
    unfold full. rewrite Hg. destruct (Z.ltb_spec (used xs) (cap g)) as [Hlt|Hge].
    + rewrite (proj2 (Z.eqb_neq _ _)) by lia. pose proof (log_end _ _ H) as Hend. unfold free_at in Hend. rewrite Hg in Hend.
      by rewrite (bind_Ok _ _ _ _ _ (zero_invalid s _ (Hend Hlt))).
    + by rewrite (proj2 (Z.eqb_eq _ _)) by lia.
  - pose proof (HP s Hs) as H. destruct (log_entry_at _ _ _ _ _ H Hg) as (Hat&Hok&Hroom).
    rewrite (bind_Ok _ _ _ _ _ (rd64_Ok s _)), (lg_field _ _ H). pose proof (room_pos y).
    rewrite (proj2 (Z.ltb_lt _ _)) by lia. rewrite (bind_Ok _ _ _ _ _ (entry_valid_Ok s _ _ _ Hat Hok)). cbn [negb].
    destruct (Hcb s (ulog_data (addr g) + used xs) Hs) as (s1&Hcb1&Hs1); [cbn; set_solver|].
    rewrite (bind_Ok _ _ _ _ _ Hcb1). cbn [Z.eqb negb].
    destruct (log_entry_at _ _ _ _ _ (HP s1 Hs1) Hg) as (Hat1&_&_).
    rewrite (bind_Ok _ _ _ _ _ (entry_size_Ok s1 _ _ _ Hat1 Hok)).
    assert (u64 (used xs + 64 * lines (Z.of_nat (length y.2))) = used (xs ++ [y])) as ->.
    { rewrite used_app, used_cons, used_nil. fold (room y). destruct (lg_cap _ _ H). pose proof (used_nonneg xs).
      rewrite u64_small by lia. lia. }
    assert (ulog_data (addr g) + used xs + room y = ulog_data (addr g) + used (xs ++ [y])) as Hpl.
    { rewrite used_app, used_cons, used_nil. lia. }
    cbn [places] in Hcb |- *. rewrite Hpl in Hcb |- *.
    destruct (IH fuel (xs ++ [y]) s1) as (s'&Hrun&Hvis&Hs').
    + by rewrite <-app_assoc.
    + intros s2 e Hs2 He. apply Hcb; [done|]. set_solver.
    + done.
    + simpl in Hfuel. lia.
    + exists s'. split; [done|]. split; [|done]. cbn [visit]. by rewrite (bind_Ok _ _ _ _ _ Hcb1).
Qed.
End walk.

(** ** Chains *)

Definition first_addr gs : Z := match gs with [] => 0 | g :: _ => addr g end.
Fixpoint linked m p_ops gs : Prop :=
  match gs with
  | [] => True
  | g :: gs' => ulog_by_offset (le64 m (ulog_next_at (addr g))) p_ops = first_addr gs' ∧ linked m p_ops gs'
  end.
Definition disjoint_logs g g' : Prop := ∀ q, inside g q → inside g' q → False.
Record chain_ok m p_ops gs : Prop := {
  ch_logs : Forall (log_ok m) gs;
  ch_linked : linked m p_ops gs;
  ch_disjoint : ∀ i j g g', gs !! i = Some g → gs !! j = Some g' → i ≠ j → disjoint_logs g g';
}.
(** The logs that a walk reaches: up to the first one that is not full. *)
Fixpoint visible gs : list log :=
  match gs with [] => [] | g :: gs' => g :: (if full g then visible gs' else []) end.
Definition log_places g : list Z := places (ulog_data (addr g)) (ents g).
Definition chain_places gs : list Z := concat (log_places <$> visible gs).

Section chain.
Context (P : pm → Prop) (cb : Z → M pm Z) (p_ops : pmem_ops).

Lemma chain_walk fuel entries gs s :
  (∀ s, P s → Forall (log_ok (bytes s)) gs ∧ linked (bytes s) p_ops gs) →
  (∀ s e, P s → e ∈ chain_places gs → ∃ s', cb e s = Ok 0 s' ∧ P s') →
  P s → (length gs < fuel)%nat → Forall (λ g, (length (ents g) < entries)%nat) gs →
  ∃ s', foreach_log fuel entries (first_addr gs) cb 0 p_ops s = Ok 0 s' ∧
    visit cb (chain_places gs) s = Ok tt s' ∧ P s'.
Proof.
  revert fuel s. induction gs as [|g gs IH]; intros fuel s HP Hcb Hs Hfuel Hents;
    (destruct fuel as [|fuel]; [simpl in Hfuel; lia|]); cbn [foreach_log first_addr].
  { by exists s. }
  apply Forall_cons in Hents as [Hent Hents].
  assert (∀ s, P s → log_ok (bytes s) g) as HPg by (intros s0 H0; destruct (HP s0 H0) as [Hl _]; by apply Forall_cons in Hl as [? _]).
  rewrite (proj2 (Z.eqb_neq _ 0)) by apply (lg_nonzero _ _ (HPg s Hs)).
  assert (∀ e, e ∈ log_places g → e ∈ chain_places (g :: gs)) as Hin1.
  { intros e He. unfold chain_places. cbn [visible]. rewrite fmap_cons. cbn [concat]. set_solver. }
  destruct (log_walk P cb entries g [] (ents g) s HPg eq_refl) as (s1&Hrun&Hvis&Hs1).
  { intros s0 e H0 He. apply Hcb; [done|]. apply Hin1. unfold log_places. rewrite used_nil, Z.add_0_r in He. done. }
  { done. }
  { done. }
  rewrite used_nil in Hrun, Hvis. rewrite Z.add_0_r in Hvis. rewrite (bind_Ok _ _ _ _ _ Hrun). cbn [fst snd].
  unfold chain_places in *. cbn [visible] in *. rewrite fmap_cons in *. cbn [concat] in *.
  destruct (full g) eqn:Ef; cbn [negb].
  - destruct (HP s1 Hs1) as [_ [Hlink _]]. unfold ulog_next.
    erewrite bind_Ok; [|rewrite (bind_Ok _ _ _ _ _ (rd64_Ok s1 _)); reflexivity]. rewrite Hlink.
    destruct (IH fuel s1) as (s2&Hrun2&Hvis2&Hs2).
    + intros s0 H0. destruct (HP s0 H0) as [Hl [_ Hk]]. by apply Forall_cons in Hl as [_ ?].
    + intros s0 e H0 He. apply Hcb; [done|]. set_solver.
    + done.
    + simpl in Hfuel. lia.
    + done.
    + exists s2. split; [done|]. split; [|done]. by rewrite (visit_app _ _ _ _ _ Hvis).
  - exists s1. split; [done|]. split; [|done]. by rewrite (visit_app _ _ _ _ _ Hvis).
Qed.
End chain.

(** A callback that only reads, and may end the walk: the walk leaves the memory
    alone wherever a walk over all entries does. *)
Lemma type_reads e s v s' : ulog_entry_type e s = Ok v s' → s' = s.
Proof. by intros [= _ <-]. Qed.
Lemma size_reads e s v s' : ulog_entry_size e s = Ok v s' → s' = s.
Proof. unfold ulog_entry_size, ulog_entry_type, bind, rd64, gets, stop, ret. intros H. by repeat (case_match; simplify_eq). Qed.
Lemma checksum_reads a n at_ k s v s' : util_checksum a n at_ false k s = Ok v s' → s' = s.
Proof. unfold util_checksum, bind, rd64, gets, stop, ret. intros H. by repeat (case_match; simplify_eq). Qed.
Lemma valid_reads e s v s' : ulog_entry_valid e s = Ok v s' → s' = s.
Proof.
  unfold ulog_entry_valid, bind at 1, rd64, gets. case_match; [by intros [= _ <-]|]. unfold bind at 1.
  destruct (ulog_entry_type e s) as [t s1|] eqn:Ht; [|done]. apply type_reads in Ht as ->. case_match; [|by intros [= _ <-]].
  unfold bind. destruct (ulog_entry_size e s) as [n s1|] eqn:Hn; [|done]. apply size_reads in Hn as ->. apply checksum_reads.
Qed.
Lemma log_dummy fuel r o s v b s' : log_entries fuel r o (λ _, ret 0) 0 s = Ok (v, b) s' → s' = s ∧ v = 0.
Proof.
  revert o. induction fuel as [|fuel IH]; intros o; cbn [log_entries]; [done|].
  rewrite (bind_Ok _ _ _ _ _ (rd64_Ok s _)). case_match; [|by intros [= <- _ <-]].
  unfold bind at 1. destruct (ulog_entry_valid _ s) as [valid s1|] eqn:Hv; [|done]. apply valid_reads in Hv as ->.
  destruct valid; cbn [negb]; [|by intros [= <- _ <-]]. erewrite (bind_Ok (ret 0)) by reflexivity. cbn [Z.eqb negb].
  unfold bind. destruct (ulog_entry_size _ s) as [n s1|] eqn:Hn; [|done]. apply size_reads in Hn as ->. apply IH.
Qed.

Section reading.
Context (s : pm) (cb : Z → M pm Z) (cb_reads : ∀ e, ∃ v, cb e s = Ok v s).
Lemma log_reads fuel r o b :
  log_entries fuel r o (λ _, ret 0) 0 s = Ok (0, b) s →
  ∃ v b', log_entries fuel r o cb 0 s = Ok (v, b') s ∧ (b' = true ∨ v = 0 ∧ b' = b).
Proof using cb_reads.
  revert o. induction fuel as [|fuel IH]; intros o; cbn [log_entries]; [done|].
  rewrite !(bind_Ok _ _ _ _ _ (rd64_Ok s _)). case_match; [|intros [= <-]; eauto 10].
  destruct (ulog_entry_valid (ulog_data r + o) s) as [valid s1|e s1] eqn:Hv; [|unfold bind at 1; by rewrite Hv].
  pose proof (valid_reads _ _ _ _ Hv) as ->. rewrite !(bind_Ok _ _ _ _ _ Hv).
  destruct valid; cbn [negb]; [|intros [= <-]; eauto 10]. destruct (cb_reads (ulog_data r + o)) as [v Hcb].
  rewrite (bind_Ok _ _ _ _ _ Hcb). erewrite (bind_Ok (ret 0)) by reflexivity. cbn [Z.eqb negb].
  destruct (Z.eqb_spec v 0) as [->|Hne]; cbn [negb]; [|eauto]. unfold bind.
  destruct (ulog_entry_size _ s) as [n s1|] eqn:Hn; [|done]. pose proof (size_reads _ _ _ _ Hn) as ->. apply IH.
Qed.
Lemma foreach_reads fuel entries r p_ops :
  foreach_log fuel entries r (λ _, ret 0) 0 p_ops s = Ok 0 s → ∃ v, foreach_log fuel entries r cb 0 p_ops s = Ok v s.
Proof using cb_reads.
  revert r. induction fuel as [|fuel IH]; intros r; cbn [foreach_log]; [done|]. case_match; [eauto|].
  unfold bind at 1. destruct (log_entries entries r 0 (λ _, ret 0) 0 s) as [[v b] s1|] eqn:Hl; [|done]. intros Hrun.
  assert (s1 = s ∧ v = 0) as [-> ->] by (by apply log_dummy in Hl).
  destruct (log_reads _ _ _ _ Hl) as (v&b'&Hcb&Hb). rewrite (bind_Ok _ _ _ _ _ Hcb). cbn [fst snd] in *.
  destruct Hb as [->|[-> ->]]; [eauto|]. destruct b; [eauto|]. unfold ulog_next, bind, rd64, gets in *. by apply IH.
Qed.
End reading.

(** ** Effects *)

Definition chain_entries gs : list entry := concat (ents <$> visible gs).
Definition in_logs gs (q : Z) : Prop := ∃ g, g ∈ gs ∧ inside g q.
Lemma visible_in g gs : g ∈ visible gs → g ∈ gs.
Proof.
  induction gs as [|h gs IH]; simpl; [done|]. rewrite !elem_of_cons. intros [->|H]; [by left|right].
  destruct (full h); [auto|]. by apply elem_of_nil in H.
Qed.
Lemma linked_agree m m' p_ops gs :
  (∀ q, in_logs gs q → m' q = m q) → Forall (log_ok m) gs → linked m p_ops gs → linked m' p_ops gs.
Proof.
  induction gs as [|g gs IH]; intros Hm Hok; simpl; [done|]. apply Forall_cons in Hok as [Hg Hok]. intros [H1 H2].
  split; [|apply IH; [|done|done]].
  - rewrite <-H1. f_equal. apply le64_ext. intros q Hq. apply Hm. exists g. split; [set_solver|].
    unfold inside, SIZEOF_ULOG, sizeof_ulog, ulog_next_at in *. destruct (lg_cap _ _ Hg). lia.
  - intros q (h&Hh&Hq). apply Hm. exists h. set_solver.
Qed.
Lemma chain_ok_agree m m' p_ops gs :
  (∀ q, in_logs gs q → m' q = m q) → chain_ok m p_ops gs → chain_ok m' p_ops gs.
Proof.
  intros Hm [H1 H2 H3]. split; [|by eapply linked_agree|done].
  rewrite Forall_forall in *. intros g Hg. eapply log_ok_agree, H1; [|done]. intros q Hq. apply Hm. by exists g.
Qed.

(** The entries of a log with their addresses. *)
Fixpoint placed (a : Z) xs : list (Z * entry) :=
  match xs with [] => [] | x :: xs' => (a, x) :: placed (a + room x) xs' end.
Lemma placed_fst a xs : (placed a xs).*1 = places a xs.
Proof. revert a. induction xs as [|x xs IH]; intros a; [done|]. simpl. by rewrite <-IH. Qed.
Lemma placed_snd a xs : (placed a xs).*2 = xs.
Proof. revert a. induction xs as [|x xs IH]; intros a; [done|]. cbn [placed]. rewrite fmap_cons. by rewrite IH. Qed.
Lemma placed_at m g e x :
  log_ok m g → (e, x) ∈ placed (ulog_data (addr g)) (ents g) → entry_at m e (cpy x.1) x.2 ∧ ok_entry x.1 x.2.
Proof.
  intros H. assert (∀ xs ys, ents g = xs ++ ys → (e, x) ∈ placed (ulog_data (addr g) + used xs) ys →
    entry_at m e (cpy x.1) x.2 ∧ ok_entry x.1 x.2) as Hgen.
  { intros xs ys. revert xs. induction ys as [|y ys IH]; intros xs Hg; simpl; [by intros ?%elem_of_nil|].
    rewrite elem_of_cons. intros [[= -> ->]|Hin].
    - by destruct (log_entry_at _ _ _ _ _ H Hg) as (?&?&_).
    - apply (IH (xs ++ [y])); [by rewrite <-app_assoc|].
      rewrite used_app, used_cons, used_nil, Z.add_0_r, Z.add_assoc. done. }
  intros Hin. apply (Hgen [] (ents g) eq_refl). by rewrite used_nil, Z.add_0_r.
Qed.
Definition chain_placed gs : list (Z * entry) := concat ((λ g, placed (ulog_data (addr g)) (ents g)) <$> visible gs).
Lemma chain_placed_fst gs : (chain_placed gs).*1 = chain_places gs.
Proof.
  unfold chain_placed, chain_places. induction (visible gs) as [|g l IH]; [done|]. rewrite !fmap_cons. cbn [concat].
  rewrite fmap_app, IH. f_equal. apply placed_fst.
Qed.
Lemma chain_placed_snd gs : (chain_placed gs).*2 = chain_entries gs.
Proof.
  unfold chain_placed, chain_entries. induction (visible gs) as [|g l IH]; [done|]. rewrite !fmap_cons. cbn [concat].
  rewrite fmap_app, IH. f_equal. apply placed_snd.
Qed.
Lemma chain_placed_at m gs e x :
  Forall (log_ok m) gs → (e, x) ∈ chain_placed gs → entry_at m e (cpy x.1) x.2 ∧ ok_entry x.1 x.2.
Proof.
  intros Hok. unfold chain_placed. rewrite list_elem_of_In, in_concat. intros (l&Hl&Hin).
  rewrite <-list_elem_of_In in Hl. rewrite <-list_elem_of_In in Hin. apply list_elem_of_fmap in Hl as (g&->&Hg).
  rewrite Forall_forall in Hok. eapply placed_at; [|done]. apply Hok. by apply visible_in.
Qed.

Lemma chain_placed_entry gs e x : (e, x) ∈ chain_placed gs → x ∈ chain_entries gs.
Proof. intros Hin. rewrite <-chain_placed_snd. apply list_elem_of_fmap. by exists (e, x). Qed.
(** An entry is inside of its log. *)
Lemma placed_inside m g e x q :
  log_ok m g → (e, x) ∈ placed (ulog_data (addr g)) (ents g) → e ≤ q < e + room x → inside g q.
Proof.
  intros H Hin Hq. pose proof (lg_used _ _ H) as Hu.
  assert (∀ xs a, (e, x) ∈ placed a xs → a ≤ e ∧ e + room x ≤ a + used xs) as Hgen.
  { intros xs. induction xs as [|y xs IH]; intros a; simpl; [by intros ?%elem_of_nil|].
    rewrite elem_of_cons, used_cons. pose proof (used_nonneg xs). pose proof (room_pos y).
    intros [[= -> ->]|Hx%IH]; lia. }
  apply Hgen in Hin. unfold inside, ulog_data, SIZEOF_ULOG, sizeof_ulog in *. lia.
Qed.
Lemma chain_placed_inside m gs e x q :
  Forall (log_ok m) gs → (e, x) ∈ chain_placed gs → e ≤ q < e + room x → in_logs gs q.
Proof.
  intros Hok. unfold chain_placed. rewrite list_elem_of_In, in_concat. intros (l&Hl&Hin) Hq.
  rewrite <-list_elem_of_In in Hl. rewrite <-list_elem_of_In in Hin. apply list_elem_of_fmap in Hl as (g&->&Hg).
  apply visible_in in Hg. rewrite Forall_forall in Hok. exists g. split; [done|]. eapply placed_inside; [by apply Hok|done|done].
Qed.

Section effect.
Context (eff : entry → mem → mem) (eff_ext : ∀ x m m', (∀ q, m q = m' q) → ∀ q, eff x m q = eff x m' q).
Context (cb : Z → M pm Z) (p_ops : pmem_ops) (gs : list log) (s0 : pm) (P : pm → Prop).
Context (Hchain : chain_ok (bytes s0) p_ops gs).
(** The callback has the effect and leaves the logs alone. *)
Context (P_logs : ∀ s, P s → ∀ q, in_logs gs q → bytes s q = bytes s0 q).
Context (P_step : ∀ s e x, P s → (e, x) ∈ chain_placed gs → entry_at (bytes s) e (cpy x.1) x.2 → ok_entry x.1 x.2 →
  ∃ s', cb e s = Ok 0 s' ∧ (∀ q, bytes s' q = eff x (bytes s) q) ∧ P s').
Definition effects xs m : mem := foldl (λ m x, eff x m) m xs.

Lemma effects_ext xs m m' : (∀ q, m q = m' q) → ∀ q, effects xs m q = effects xs m' q.
Proof using eff_ext. revert m m'. induction xs as [|x xs IH]; intros m m' H; simpl; [done|]. apply IH. by apply eff_ext. Qed.
Lemma P_chain s : P s → chain_ok (bytes s) p_ops gs.
Proof using Hchain P_logs. intros Hs. eapply chain_ok_agree, Hchain. by apply P_logs. Qed.
Lemma visit_effect ps s :
  (∀ a, a ∈ ps → a ∈ chain_placed gs) → P s →
  ∃ s', visit cb ps.*1 s = Ok tt s' ∧ (∀ q, bytes s' q = effects ps.*2 (bytes s) q) ∧ P s'.
Proof using eff_ext Hchain P_logs P_step.
  revert s. induction ps as [|[e x] ps IH]; intros s Hin Hs; [by exists s|].
  pose proof (Hin (e, x) ltac:(set_solver)) as Hex. pose proof (P_chain s Hs) as Hc.
  destruct (chain_placed_at _ _ _ _ (ch_logs _ _ _ Hc) Hex) as [Hat Hok].
  destruct (P_step s e x Hs) as (s1&Hcb&Heff&Hs1); [done..|].
  destruct (IH s1) as (s2&Hvis&Hb&Hs2); [set_solver|done|].
  exists s2. split; [|split; [|done]].
  - simpl. by rewrite (bind_Ok _ _ _ _ _ Hcb).
  - intros q. rewrite Hb. simpl. apply effects_ext. apply Heff.
Qed.
Lemma chain_effect fuel entries s :
  P s → (length gs < fuel)%nat → Forall (λ g, (length (ents g) < entries)%nat) gs →
  ∃ s', ulog_foreach_entry fuel entries (first_addr gs) cb p_ops s = Ok 0 s' ∧
    (∀ q, bytes s' q = effects (chain_entries gs) (bytes s) q) ∧ P s'.
Proof using eff_ext Hchain P_logs P_step.
  intros Hs Hfuel Hents. destruct (chain_walk P cb p_ops fuel entries gs s) as (s'&Hrun&Hvis&Hs'); [|..|done|done|done|].
  - intros s1 Hs1. destruct (P_chain s1 Hs1). done.
  - intros s1 e Hs1 He. rewrite <-chain_placed_fst in He. apply list_elem_of_fmap in He as ([e' x]&->&Hex).
    destruct (chain_placed_at _ _ _ _ (ch_logs _ _ _ (P_chain s1 Hs1)) Hex) as [Hat Hok].
    destruct (P_step s1 e' x Hs1) as (s2&Hcb&_&Hs2); [done..|eauto].
  - exists s'. split; [done|]. destruct (visit_effect (chain_placed gs) s) as (s2&Hv2&Hb&_); [done|done|].
    rewrite chain_placed_fst, Hvis in Hv2. injection Hv2 as <-. split; [|done]. by rewrite chain_placed_snd in Hb.
Qed.
End effect.

(** Checking the entries of a chain changes nothing. *)
Lemma check_Ok fuel entries gs check p_ops s :
  chain_ok (bytes s) p_ops gs → (length gs < fuel)%nat → Forall (λ g, (length (ents g) < entries)%nat) gs →
  ∃ v, ulog_check fuel entries (first_addr gs) check p_ops s = Ok v s.
Proof.
  intros [Hl Hk _] Hfuel Hents. apply foreach_reads.
  - intros e. unfold ulog_check_entry, ulog_entry_offset, bind, rd64, gets, ret. repeat case_match; eauto.
  - destruct (chain_walk (λ s', s' = s) (λ _, ret 0) p_ops fuel entries gs s) as (s'&Hrun&_&->); [by intros ? ->| |done..].
    intros s1 e -> _. by exists s.
Qed.
