(* ===== verification/Memops.v ===== *)
(** * Operations on logs

    [src/pmdk/src/libpmemobj/memops.c]: the context through which libpmemobj
    writes redo and undo logs.  Undo entries go to the persistent log at once;
    redo entries are collected in transient memory, where entries of the same
    word are merged, and are stored and applied together.  The queue of recent
    entries is [src/pmdk/src/common/vecq.h]. *)
From stdpp Require Import base list strings.
From S2P Require Import Prelude Pmem Ulog.
Open Scope Z_scope.

(** ** Queues *)

Record vecq := Vecq { buffer : list Z; front : Z; back : Z }.
Definition VECQ_INIT_SIZE : nat := 64.
Definition VECQ_EMPTY : vecq := Vecq [] 0 0.
Implicit Types (q : vecq).
Definition vq_capacity q : Z := Z.of_nat (length (buffer q)).
Definition vq_mask q (pos : Z) : nat := Z.to_nat (Z.land pos (u64 (vq_capacity q - 1))).
Definition VECQ_SIZE q : Z := u64 (back q - front q).
Definition VECQ_CLEAR q : vecq := Vecq (buffer q) 0 0.
Definition VECQ_DEQUEUE q : vecq := Vecq (buffer q) (u64 (front q + 1)) (back q).
(** [grown] is the answer of [Realloc]; the new part of the buffer is not initialised. *)
Definition vecq_grow (grown : bool) (garbage : Z) q : option vecq :=
  if grown then
    let n := length (buffer q) in
    let pos := vq_mask q (front q) in
    let ncapacity := if (n =? 0)%nat then VECQ_INIT_SIZE else (n * 2)%nat in
    Some (Vecq (buffer q ++ take pos (buffer q) ++ replicate (ncapacity - n - pos) garbage)
               (Z.of_nat pos) (Z.of_nat pos + Z.of_nat n))
  else None.
Definition VECQ_INSERT q (x : Z) : vecq :=
  Vecq (<[vq_mask q (back q) := x]> (buffer q)) (front q) (u64 (back q + 1)).
Definition VECQ_ENQUEUE (grown : bool) (garbage : Z) q (x : Z) : option vecq :=
  if vq_capacity q =? VECQ_SIZE q then
    match vecq_grow grown garbage q with Some q' => Some (VECQ_INSERT q' x) | None => None end
  else Some (VECQ_INSERT q x).
(** The elements in the order of [VECQ_FOREACH_REVERSE]. *)
Definition VECQ_REVERSE q : list Z :=
  (λ i, nth (vq_mask q (Z.of_nat i)) (buffer q) 0) <$> reverse (seq 0 (Z.to_nat (VECQ_SIZE q))).

(** ** Contexts *)

Definition ULOG_BASE_SIZE : Z := 1024.
Definition OP_MERGE_SEARCH : Z := 64.

Inductive log_type := LOG_TYPE_UNDO | LOG_TYPE_REDO.
Inductive operation_log_type := LOG_PERSISTENT | LOG_TRANSIENT.
Global Instance log_type_eq_dec : EqDecision log_type.
Proof. solve_decision. Defined.
Global Instance operation_log_type_eq_dec : EqDecision operation_log_type.
Proof. solve_decision. Defined.

Record operation_log := OpLog { log_capacity : Z; log_offset : Z; log_ulog : Z }.
Record operation_context := OpCtx {
  type : log_type;
  p_ops : pmem_ops;
  ulog_curr_offset : Z;
  ulog_curr_capacity : Z;
  ulog_curr : Z;
  total_logged : Z;
  ulog : Z;
  ulog_base_nbytes : Z;
  ulog_capacity : Z;
  next : list Z;
  in_progress : bool;
  pshadow_ops : operation_log;
  transient_ops : operation_log;
  merge_entries : vecq;
}.
(** [ctx->t_ops] and [ctx->s_ops]: both only copy; offsets of transient entries
    are addresses. *)
Definition t_ops : pmem_ops := PmemOps 0 false (λ _, false).
Definition s_ops (c : operation_context) : pmem_ops := PmemOps (base (p_ops c)) false (off_is_valid (p_ops c)).

Definition set_curr (o cap u : Z) (c : operation_context) : operation_context :=
  OpCtx (type c) (p_ops c) o cap u (total_logged c) (ulog c) (ulog_base_nbytes c) (ulog_capacity c) (next c)
        (in_progress c) (pshadow_ops c) (transient_ops c) (merge_entries c).
Definition set_total (t : Z) (c : operation_context) : operation_context :=
  OpCtx (type c) (p_ops c) (ulog_curr_offset c) (ulog_curr_capacity c) (ulog_curr c) t (ulog c)
        (ulog_base_nbytes c) (ulog_capacity c) (next c) (in_progress c) (pshadow_ops c) (transient_ops c)
        (merge_entries c).
Definition set_space (cap : Z) (n : list Z) (c : operation_context) : operation_context :=
  OpCtx (type c) (p_ops c) (ulog_curr_offset c) (ulog_curr_capacity c) (ulog_curr c) (total_logged c) (ulog c)
        (ulog_base_nbytes c) cap n (in_progress c) (pshadow_ops c) (transient_ops c) (merge_entries c).
Definition set_progress (b : bool) (c : operation_context) : operation_context :=
  OpCtx (type c) (p_ops c) (ulog_curr_offset c) (ulog_curr_capacity c) (ulog_curr c) (total_logged c) (ulog c)
        (ulog_base_nbytes c) (ulog_capacity c) (next c) b (pshadow_ops c) (transient_ops c) (merge_entries c).
Definition set_log (t : operation_log_type) (l : operation_log) (c : operation_context) : operation_context :=
  OpCtx (type c) (p_ops c) (ulog_curr_offset c) (ulog_curr_capacity c) (ulog_curr c) (total_logged c) (ulog c)
        (ulog_base_nbytes c) (ulog_capacity c) (next c) (in_progress c)
        (match t with LOG_PERSISTENT => l | LOG_TRANSIENT => pshadow_ops c end)
        (match t with LOG_PERSISTENT => transient_ops c | LOG_TRANSIENT => l end) (merge_entries c).
Definition set_merge (q : vecq) (c : operation_context) : operation_context :=
  OpCtx (type c) (p_ops c) (ulog_curr_offset c) (ulog_curr_capacity c) (ulog_curr c) (total_logged c) (ulog c)
        (ulog_base_nbytes c) (ulog_capacity c) (next c) (in_progress c) (pshadow_ops c) (transient_ops c) q.

Definition opst : Type := pm * operation_context.
Definition on_pm {A} : M pm A → M opst A := zoom fst (λ t s, (t, s.2)).
Definition ctx {A} (f : operation_context → A) : M opst A := gets (λ s, f s.2).
Definition update (f : operation_context → operation_context) : M opst unit :=
  modify (λ s, (s.1, f s.2)).

Section memops.
(** The allocator of transient memory: a zeroed block or 0; a larger block with
    the contents of the old one or 0; the growth of a queue. *)
Context (Zalloc : Z → M pm Z) (Realloc : Z → Z → M pm Z).
Context (vecq_room : vecq → bool) (garbage : Z).
(** [ctx->extend], [NULL] for a log that cannot be extended, and [ctx->ulog_free]. *)
Context (extend : option (Z → M pm Z)) (ulog_free : Z → M pm unit).
(** Bounds for the number of logs in a chain and of entries in a log. *)
Context (logs entries : nat).

Definition operation_log_transient_init : M pm (option operation_log) :=
  let! src := Zalloc (SIZEOF_ULOG ULOG_BASE_SIZE) in
  if src =? 0 then ret None
  else
    wr64 (ulog_capacity_at src) ULOG_BASE_SIZE ;;
    ret (Some (OpLog ULOG_BASE_SIZE 0 src)).
Definition operation_log_persistent_init (base_nbytes : Z) : M pm (option operation_log) :=
  let! src := Zalloc (SIZEOF_ULOG ULOG_BASE_SIZE) in
  if src =? 0 then ret None
  else
    wr64 (ulog_capacity_at src) base_nbytes ;;
    put (ulog_unused_at src) (replicate 40 0) false ;;
    ret (Some (OpLog ULOG_BASE_SIZE 0 src)).
(** [sizeof_ctx]: the size of [struct operation_context]. *)
Definition operation_new (sizeof_ctx ulog0 base_nbytes : Z) (ops : pmem_ops) (ty : log_type)
    : M pm (option operation_context) :=
  let! c := Zalloc sizeof_ctx in
  if c =? 0 then ret None
  else
    let! cap := Ulog.ulog_capacity logs ulog0 base_nbytes ops in
    let! nx := ulog_rebuild_next_vec logs ulog0 [] ops in
    let! t := operation_log_transient_init in
    match t with
    | None => ret None
    | Some tlog =>
        let! p := operation_log_persistent_init base_nbytes in
        match p with
        | None => ret None
        | Some plog =>
            ret (Some (OpCtx ty ops 0 0 0 0 ulog0 base_nbytes cap nx false plog tlog VECQ_EMPTY))
        end
    end.

(** ** Values *)

Definition operation_merge (entry value ty : Z) : M pm unit :=
  let! old := rd64 (entry + 8) in
  if ty =? ULOG_OPERATION_AND then wr64 (entry + 8) (Z.land old value)
  else if ty =? ULOG_OPERATION_OR then wr64 (entry + 8) (Z.lor old value)
  else if ty =? ULOG_OPERATION_SET then wr64 (entry + 8) value
  else stop (AssertFailed "operation_merge").
(** The search through the recent entries. *)
Fixpoint try_merge (l : list Z) (offset value ty : Z) : M pm Z :=
  match l with
  | [] => ret 0
  | e :: l' =>
      let! o := ulog_entry_offset e in
      if o =? offset then
        let! t := ulog_entry_type e in
        if t =? ty then operation_merge e value ty ;; ret 1 else ret 0
      else try_merge l' offset value ty
  end.
Definition operation_try_merge_entry (ptr value ty : Z) : M opst Z :=
  let! b := ctx (λ c, base (p_ops c)) in
  let! q := ctx merge_entries in
  on_pm (try_merge (VECQ_REVERSE q) (u64 (ptr - b)) value ty).
Definition operation_merge_entry_add (entry : Z) : M opst unit :=
  let! q := ctx merge_entries in
  let q' := if VECQ_SIZE q =? OP_MERGE_SEARCH then VECQ_DEQUEUE q else q in
  update (set_merge (default q' (VECQ_ENQUEUE (vecq_room q') garbage q' entry))).

Definition oplog (lt : operation_log_type) : M opst operation_log :=
  ctx (match lt with LOG_PERSISTENT => pshadow_ops | LOG_TRANSIENT => transient_ops end).
(** One spare cache line is kept for the zeroes after an entry. *)
Definition grow_log (lt : operation_log_type) : M opst Z :=
  let! l := oplog lt in
  if log_offset l + CACHELINE_SIZE =? log_capacity l then
    let! u := on_pm (Realloc (log_ulog l) (SIZEOF_ULOG (log_capacity l + ULOG_BASE_SIZE))) in
    if u =? 0 then ret (-1)
    else
      update (set_log lt (OpLog (log_capacity l + ULOG_BASE_SIZE) (log_offset l) u)) ;;
      let! q := ctx merge_entries in
      update (set_merge (VECQ_CLEAR q)) ;;
      ret 0
  else ret 0.
Definition operation_add_typed_entry (ptr value ty : Z) (lt : operation_log_type) : M opst Z :=
  let! g := grow_log lt in
  if negb (g =? 0) then ret g
  else
    let! merged := (if bool_decide (lt = LOG_PERSISTENT) then operation_try_merge_entry ptr value ty else ret 0) in
    if negb (merged =? 0) then ret 0
    else
      let! l := oplog lt in
      let! ops := ctx (λ c, match lt with LOG_TRANSIENT => t_ops | LOG_PERSISTENT => s_ops c end) in
      let! entry := on_pm (ulog_entry_val_create (log_ulog l) (log_offset l) ptr value ty ops) in
      when (bool_decide (lt = LOG_PERSISTENT)) (operation_merge_entry_add entry) ;;
      let! size := on_pm (ulog_entry_size entry) in
      update (set_log lt (OpLog (log_capacity l) (log_offset l + size) (log_ulog l))) ;;
      ret 0.
Definition operation_add_entry (ptr value ty : Z) : M opst Z :=
  let! ops := ctx p_ops in
  operation_add_typed_entry ptr value ty
    (if off_is_valid ops (u64 (ptr - base ops)) then LOG_PERSISTENT else LOG_TRANSIENT).

(** ** Buffers *)

Definition operation_reserve (new_capacity : Z) : M opst Z :=
  let! cap := ctx ulog_capacity in
  if cap <? new_capacity then
    match extend with
    | None => ret (-1)
    | Some ext =>
        let! c := ctx id in
        let! o := on_pm (ulog_reserve logs (ulog c) (ulog_base_nbytes c) new_capacity ext (next c) (p_ops c)) in
        update (set_space (default cap o.1) o.2) ;;
        ret (match o.1 with None => -1 | Some _ => 0 end)
    end
  else ret 0.

(** The next log becomes the current one. *)
Definition advance_log (real_size : Z) : M opst Z :=
  let! total := ctx total_logged in
  let! v := operation_reserve (u64 (total + real_size)) in
  if negb (v =? 0) then ret (-1)
  else
    let! c := ctx id in
    let! u := (if ulog_curr c =? 0 then ret (ulog c) else on_pm (ulog_next (ulog_curr c) (p_ops c))) in
    assert_ (negb (u =? 0)) "ctx->ulog_curr != NULL" ;;
    let! cap := on_pm (rd64 (ulog_capacity_at u)) in
    update (set_curr 0 cap u) ;;
    ret 0.
(** The part of the buffer that fits into the current log; the result is its size. *)
Definition add_part (dest src real_size ty : Z) : M opst Z :=
  let! c := ctx id in
  let curr_size := Z.min real_size (ulog_curr_capacity c) in
  let data_size := u64 (curr_size - sizeof_entry_buf) in
  let! e := on_pm (ulog_entry_buf_create (ulog_curr c) (ulog_curr_offset c) dest src data_size ty (p_ops c)) in
  let entry_size := ALIGN_UP curr_size CACHELINE_SIZE in
  let! es := on_pm (ulog_entry_size e) in
  assert_ (entry_size =? es) "entry_size == ulog_entry_size(&e->base)" ;;
  assert_ (entry_size <=? ulog_curr_capacity c) "entry_size <= ctx->ulog_curr_capacity" ;;
  update (set_total (u64 (total_logged c + entry_size))) ;;
  update (set_curr (u64 (ulog_curr_offset c + entry_size)) (ulog_curr_capacity c - entry_size) (ulog_curr c)) ;;
  ret data_size.
(** [fuel] bounds the parts of a buffer. *)
Fixpoint operation_add_buffer (fuel : nat) (dest src size ty : Z) : M opst Z :=
  match fuel with
  | O => stop OutOfFuel
  | S fuel' =>
      let real_size := u64 (size + sizeof_entry_buf) in
      let! cap0 := ctx ulog_curr_capacity in
      let! v := (if cap0 =? 0 then advance_log real_size else ret 0) in
      if negb (v =? 0) then ret (-1)
      else
        let! data_size := add_part dest src real_size ty in
        if u64 (size - data_size) =? 0 then ret 0
        else operation_add_buffer fuel' (dest + data_size) (src + data_size) (u64 (size - data_size)) ty
  end.

(** ** Processing *)

Definition operation_process_persistent_redo : M opst unit :=
  let! c := ctx id in
  let sh := pshadow_ops c in
  assert_ (log_capacity sh `mod` CACHELINE_SIZE =? 0) "ctx->pshadow_ops.capacity % CACHELINE_SIZE == 0" ;;
  on_pm (ulog_store logs (ulog c) (log_ulog sh) (log_offset sh) (ulog_base_nbytes c) (next c) (p_ops c)) ;;
  on_pm (ulog_process logs entries (log_ulog sh) (Some (off_is_valid (p_ops c))) (p_ops c)) ;;
  on_pm (ulog_clobber (ulog c) (Some (next c)) (p_ops c)).
Definition operation_process_persistent_undo : M opst unit :=
  let! c := ctx id in
  assert_ (log_capacity (pshadow_ops c) `mod` CACHELINE_SIZE =? 0) "ctx->pshadow_ops.capacity % CACHELINE_SIZE == 0" ;;
  on_pm (ulog_process logs entries (ulog c) (Some (off_is_valid (p_ops c))) (p_ops c)).

Definition reset (c : operation_context) : operation_context :=
  set_total 0 (set_curr 0 0 0 (set_merge (VECQ_CLEAR (merge_entries c))
    (set_log LOG_PERSISTENT (OpLog (log_capacity (pshadow_ops c)) 0 (log_ulog (pshadow_ops c)))
      (set_log LOG_TRANSIENT (OpLog (log_capacity (transient_ops c)) 0 (log_ulog (transient_ops c))) c)))).
Definition operation_init : M opst unit := update reset.
Definition operation_start : M opst unit :=
  operation_init ;;
  let! p := ctx in_progress in
  assert_ (negb p) "ctx->in_progress == 0" ;;
  update (set_progress true).
Definition operation_resume : M opst unit :=
  operation_init ;;
  let! p := ctx in_progress in
  assert_ (negb p) "ctx->in_progress == 0" ;;
  update (set_progress true) ;;
  let! u := ctx ulog in
  let! n := on_pm (Ulog.ulog_base_nbytes entries u) in
  update (set_total n).
Definition operation_cancel : M opst unit :=
  let! p := ctx in_progress in
  assert_ p "ctx->in_progress == 1" ;;
  update (set_progress false).

(** A single entry of one word is applied without the log. *)
Definition process_single : M opst bool :=
  let! c := ctx id in
  let sh := pshadow_ops c in
  if bool_decide (type c = LOG_TYPE_REDO) && negb (log_offset sh =? 0) then
    if log_offset sh =? sizeof_entry_val then
      let e := ulog_data (log_ulog sh) in
      let! t := on_pm (ulog_entry_type e) in
      if is_val t then on_pm (ulog_entry_apply e true (p_ops c)) ;; ret false else ret true
    else ret true
  else ret false.
Definition operation_process : M opst unit :=
  let! redo_process := process_single in
  let! c := ctx id in
  (if redo_process : bool then operation_process_persistent_redo
   else if bool_decide (type c = LOG_TYPE_UNDO) then operation_process_persistent_undo
   else ret tt) ;;
  when (negb (log_offset (transient_ops c) =? 0))
    (on_pm (ulog_process logs entries (log_ulog (transient_ops c)) None t_ops)).

Definition operation_finish : M opst unit :=
  let! p := ctx in_progress in
  assert_ p "ctx->in_progress == 1" ;;
  update (set_progress false) ;;
  let! c := ctx id in
  if bool_decide (type c = LOG_TYPE_REDO) && negb (log_offset (pshadow_ops c) =? 0) then operation_process
  else
    when (bool_decide (type c = LOG_TYPE_UNDO) && negb (total_logged c =? 0))
      (on_pm (ulog_clobber_data logs (ulog c) (total_logged c) (ulog_base_nbytes c) (next c) ulog_free (p_ops c)) ;;
       let! cap := on_pm (Ulog.ulog_capacity logs (ulog c) (ulog_base_nbytes c) (p_ops c)) in
       let! nx := on_pm (ulog_rebuild_next_vec logs (ulog c) [] (p_ops c)) in
       update (set_space cap nx)).
End memops.
