(* ===== verification/MemopsFacts.v ===== *)
(** * Chains of undo logs

    What processing a chain of logs writes back, how an entry is appended to a
    log, and how a chain is extended. *)
From stdpp Require Import base list strings sets.
From S2P Require Import Prelude Pmem PmemFacts Ulog UlogFacts LogChain Memops.
Open Scope Z_scope.

Implicit Types (m : mem) (s : pm) (c : operation_context) (x : entry) (xs : list entry) (g : log) (gs : list log).

(** ** Processing *)

Definition restore (b : Z) x m : mem := store_bytes m (b + x.1) x.2.
Definition restore_all (b : Z) xs m : mem := effects (restore b) xs m.
Lemma restore_ext b x m m' : (∀ q, m q = m' q) → ∀ q, restore b x m q = restore b x m' q.
Proof. intros H q. by apply store_ext. Qed.
(** The bytes that an entry restores. *)
Definition target (b : Z) x (q : Z) : Prop := b + x.1 ≤ q < b + x.1 + Z.of_nat (length x.2).
Lemma restore_other b x m q : ¬ target b x q → restore b x m q = m q.
Proof. intros H. apply store_out. unfold target in H. lia. Qed.

Lemma memcpy_nodrain p_ops a l s :
  pmemops_memcpy p_ops a l (PMEMOBJ_F_RELAXED + PMEMOBJ_F_MEM_NODRAIN) s
  = Ok tt (Pm (store_bytes (bytes s) a l) (PWrite a l (persistent p_ops) :: events s)).
Proof. done. Qed.
Lemma apply_cpy_Ok s e x p_ops persist :
  entry_at (bytes s) e (cpy x.1) x.2 → ok_entry x.1 x.2 →
  ulog_entry_apply e persist p_ops s
  = Ok tt (Pm (restore (base p_ops) x (bytes s)) (PWrite (base p_ops + x.1) x.2 (persistent p_ops) :: events s)).
Proof.
  intros He Hok. destruct (entry_words s e _ _ He Hok) as (H1&_&H3&H4). destruct Hok as [Ho Hl].
  unfold ulog_entry_apply. rewrite (bind_Ok _ _ _ _ _ (entry_type_Ok s e _ Ho H1)).
  rewrite (bind_Ok _ _ _ _ _ (entry_offset_Ok s e _ Ho H1)).
  change (is_val ULOG_OPERATION_BUF_CPY) with false. cbv iota.
  change (ULOG_OPERATION_BUF_CPY =? ULOG_OPERATION_BUF_SET) with false. cbv iota. rewrite Z.eqb_refl.
  rewrite (bind_Ok _ _ _ _ _ (rd64_Ok s _)), H3. rewrite (bind_Ok _ _ _ _ _ (rd_bytes_Ok s _ _)).
  change (e + sizeof_entry_buf) with (e + 24). rewrite H4. apply memcpy_nodrain.
Qed.

(** The entries go elsewhere than into the logs. *)
Definition targets_apart (b : Z) xs gs : Prop := ∀ x q, x ∈ xs → target b x q → ¬ in_logs gs q.
Lemma process_Ok fuel entries gs check p_ops s :
  chain_ok (bytes s) p_ops gs → targets_apart (base p_ops) (chain_entries gs) gs →
  (length gs < fuel)%nat → Forall (λ g, (length (ents g) < entries)%nat) gs →
  ∃ s', ulog_process fuel entries (first_addr gs) check p_ops s = Ok tt s' ∧
    (∀ q, bytes s' q = restore_all (base p_ops) (chain_entries gs) (bytes s) q) ∧
    (∀ q, in_logs gs q → bytes s' q = bytes s q).
Proof.
  intros Hc Hap Hfuel Hents.
  destruct (chain_effect (restore (base p_ops)) (restore_ext (base p_ops)) (ulog_process_entry p_ops) p_ops gs s
    (λ s', ∀ q, in_logs gs q → bytes s' q = bytes s q) Hc ltac:(auto)) with (fuel := fuel) (entries := entries) (s := s)
    as (s'&Hrun&Hb&Hs'); [|done..|].
  - intros s1 e x Hs1 Hx He Hok. unfold ulog_process_entry. rewrite (bind_Ok _ _ _ _ _ (apply_cpy_Ok s1 e x p_ops false He Hok)).
    eexists. split; [done|]. split; [done|]. intros q Hq. cbn [bytes]. rewrite restore_other; [by apply Hs1|].
    intros Ht. eapply Hap; [by eapply chain_placed_entry|done..].
  - exists s'. split; [|done]. unfold ulog_process. rewrite (bind_Ok _ _ s tt s); [by rewrite (bind_Ok _ _ _ _ _ Hrun)|].
    destruct check as [f|]; [|done]. destruct (check_Ok fuel entries gs f p_ops s) as [v Hv]; [done..|].
    by rewrite (bind_Ok _ _ _ _ _ Hv).
Qed.

(** ** Appending *)

Definition push g x : log := Log (addr g) (cap g) (ents g ++ [x]).
Lemma append_ok m m' g x :
  log_ok m g → ok_entry x.1 x.2 → used (ents g) + room x ≤ cap g →
  (∀ q, m' q = store_bytes m (free_at g) (encode x) q) → log_ok m' (push g x).
Proof.
  intros H Hok Hroom Hm. pose proof (used_nonneg (ents g)) as Hu.
  assert (Z.of_nat (length (encode x)) = room x) as Hlen by apply buf_entry_length.
  destruct H as [H1 H2 H3 H4 H5 H6 H7 H8 H9]. unfold free_at in Hm. split; try done; cbn [push addr cap ents].
  - rewrite <-H5. apply le64_ext. intros q Hq. rewrite Hm, store_out; [done|]. unfold ulog_data, ulog_capacity_at in *. lia.
  - rewrite used_app, used_cons, used_nil. lia.
  - apply Forall_app. split; [done|by constructor].
  - unfold encodes. rewrite fmap_app, concat_app, length_app, load_bytes_app. cbn [fmap list_fmap concat].
    rewrite app_nil_r. f_equal.
    + rewrite <-H8 at 2. apply load_bytes_ext. intros q Hq. rewrite Hm, store_out; [done|]. unfold used. lia.
    + fold (encodes (ents g)). rewrite (load_bytes_ext _ (store_bytes m (ulog_data (addr g) + used (ents g)) (encode x))) by done.
      apply load_store.
  - intros q Hq. unfold free_at in Hq. cbn [push addr cap ents] in Hq. rewrite used_app, used_cons, used_nil in Hq.
    rewrite Hm, store_out by lia. apply H9. unfold free_at. pose proof (room_pos x). lia.
Qed.

(** Logs at the same place with other entries. *)
Definition same_place g g' : Prop := addr g = addr g' ∧ cap g = cap g'.
Global Instance same_place_refl : Reflexive same_place.
Proof. done. Qed.
Lemma same_inside g g' q : same_place g g' → inside g q ↔ inside g' q.
Proof. intros [H1 H2]. unfold inside. by rewrite H1, H2. Qed.
Lemma same_in_logs gs gs' q : Forall2 same_place gs gs' → in_logs gs q ↔ in_logs gs' q.
Proof.
  intros Hs. split; intros (g&Hg&Hq); apply list_elem_of_lookup in Hg as (i&Hi).
  - destruct (Forall2_lookup_l _ _ _ _ _ Hs Hi) as (h&Hh&Hgh). exists h. split; [by eapply list_elem_of_lookup_2|].
    by apply (same_inside g h).
  - destruct (Forall2_lookup_r _ _ _ _ _ Hs Hi) as (h&Hh&Hgh). exists h. split; [by eapply list_elem_of_lookup_2|].
    by apply (same_inside h g).
Qed.
Lemma same_first gs gs' : Forall2 same_place gs gs' → first_addr gs = first_addr gs'.
Proof. destruct 1 as [|g g' gs gs' [Hg _] _]; [done|]. exact Hg. Qed.
Lemma same_linked m m' p_ops gs gs' :
  Forall2 same_place gs gs' → (∀ g, g ∈ gs → le64 m' (ulog_next_at (addr g)) = le64 m (ulog_next_at (addr g))) →
  linked m p_ops gs → linked m' p_ops gs'.
Proof.
  induction 1 as [|g g' gs gs' [Hg Hg'] Hs IH]; intros Hn; simpl; [done|]. intros [H1 H2].
  rewrite <-(same_first _ _ Hs), <-H1, <-Hg, Hn by set_solver. split; [done|]. apply IH; [|done]. set_solver.
Qed.
Lemma chain_reshape m m' p_ops gs gs' :
  Forall2 same_place gs gs' → (∀ g, g ∈ gs → le64 m' (ulog_next_at (addr g)) = le64 m (ulog_next_at (addr g))) →
  Forall (log_ok m') gs' → chain_ok m p_ops gs → chain_ok m' p_ops gs'.
Proof.
  intros Hs Hn Hl [_ H2 H3]. split; [done|by eapply same_linked|].
  intros i j g g' Hi Hj Hij q Hq Hq'. destruct (Forall2_lookup_r _ _ _ _ _ Hs Hi) as (h&Hh&Hhg).
  destruct (Forall2_lookup_r _ _ _ _ _ Hs Hj) as (h'&Hh'&Hhg'). eapply (H3 i j h h'); [done..| |].
  - by apply (same_inside h g).
  - by apply (same_inside h' g').
Qed.
(** The other logs of a chain are apart from [g]. *)
Lemma chain_others m p_ops fs g post h q :
  chain_ok m p_ops (fs ++ g :: post) → h ∈ fs ++ post → inside h q → ¬ inside g q.
Proof.
  intros [_ _ H] Hh Hq Hq'. apply elem_of_app in Hh as [Hh|Hh]; apply list_elem_of_lookup in Hh as (i&Hi).
  - eapply (H i (length fs) h g); [by apply lookup_app_l_Some|by apply list_lookup_middle| |done|done].
    apply lookup_lt_Some in Hi. lia.
  - eapply (H (length fs + S i)%nat (length fs) h g); [|by apply list_lookup_middle|lia|done|done].
    rewrite lookup_app_r by lia. replace (length fs + S i - length fs)%nat with (S i) by lia. exact Hi.
Qed.
(** One log gets other entries; the bytes outside its data stay. *)
Lemma chain_write m m' p_ops fs g g' post :
  chain_ok m p_ops (fs ++ g :: post) → same_place g g' → log_ok m' g' →
  (∀ q, q < ulog_data (addr g) ∨ ulog_data (addr g) + cap g ≤ q → m' q = m q) →
  chain_ok m' p_ops (fs ++ g' :: post).
Proof.
  intros Hc Hs Hg' Hm. pose proof (ch_logs _ _ _ Hc) as Hl.
  assert (∀ h, h ∈ fs ++ post → ∀ q, inside h q → m' q = m q) as Hothers.
  { intros h Hh q Hq. apply Hm. pose proof (chain_others _ _ _ _ _ _ _ Hc Hh Hq) as Hn.
    unfold inside, SIZEOF_ULOG, sizeof_ulog, ulog_data in *. lia. }
  eapply chain_reshape; [| | |exact Hc].
  - apply Forall2_app; [by apply Forall_Forall2_diag, Forall_true|]. constructor; [done|by apply Forall_Forall2_diag, Forall_true].
  - intros h Hh. rewrite Forall_forall in Hl. pose proof (Hl h Hh) as Hhok. destruct (lg_cap _ _ Hhok).
    assert (h ∈ fs ++ post ∨ h = g) as [Hh'| ->] by set_solver.
    + apply le64_ext. intros q Hq. apply (Hothers h Hh'). unfold inside, SIZEOF_ULOG, sizeof_ulog, ulog_next_at in *. lia.
    + apply le64_ext. intros q Hq. apply Hm. unfold ulog_data, ulog_next_at in *. lia.
  - rewrite Forall_forall in *. intros h Hh. assert (h ∈ fs ++ post ∨ h = g') as [Hh'| ->] by set_solver; [|done].
    eapply log_ok_agree; [exact (Hothers h Hh')|]. apply Hl. set_solver.
Qed.

(** ** Space *)

Definition total_cap gs : Z := foldr (λ g a, cap g + a) 0 gs.
Definition total_used gs : Z := foldr (λ g a, used (ents g) + a) 0 gs.
Lemma total_cap_app gs gs' : total_cap (gs ++ gs') = total_cap gs + total_cap gs'.
Proof. induction gs as [|g gs IH]; simpl; [done|]. rewrite IH. lia. Qed.
Lemma total_used_app gs gs' : total_used (gs ++ gs') = total_used gs + total_used gs'.
Proof. induction gs as [|g gs IH]; simpl; [done|]. rewrite IH. lia. Qed.
Lemma total_cap_nonneg m gs : Forall (log_ok m) gs → 0 ≤ total_cap gs.
Proof. induction 1 as [|g gs Hg _ IH]; simpl; [lia|]. destruct (lg_cap _ _ Hg). lia. Qed.
Lemma total_used_nonneg gs : 0 ≤ total_used gs.
Proof. induction gs as [|g gs IH]; simpl; [lia|]. pose proof (used_nonneg (ents g)). lia. Qed.
Definition last_addr gs (u : Z) : Z := match last gs with Some g => addr g | None => u end.
Lemma last_addr_cons g gs u : last_addr (g :: gs) u = last_addr gs (addr g).
Proof. unfold last_addr. rewrite last_cons. by destruct (last gs). Qed.
Definition offsets (ops : pmem_ops) : list Z → list log → Prop := Forall2 (λ n g, ulog_by_offset n ops = addr g).

(** Together the logs are smaller than the address space. *)
Definition MAX_LOGS : Z := 2 ^ 62.

Lemma reserved_run p_ops ns gs u capacity s :
  Forall (log_ok (bytes s)) gs → offsets p_ops ns gs → 0 ≤ capacity → capacity + total_cap gs < U64 →
  reserved ns u capacity p_ops s = Ok (last_addr gs u, capacity + total_cap gs) s.
Proof.
  intros Hok Hns. revert u capacity. induction Hns as [|n g ns gs Hn _ IH]; intros u capacity H0 H1; simpl.
  { by rewrite Z.add_0_r. }
  apply Forall_cons in Hok as [Hg Hok]. simpl in H1. destruct (lg_cap _ _ Hg). pose proof (total_cap_nonneg _ _ Hok).
  rewrite Hn. rewrite (proj2 (Z.eqb_neq _ 0)) by apply (lg_nonzero _ _ Hg). cbn [negb assert_].
  erewrite (bind_Ok (ret tt)) by reflexivity. rewrite (bind_Ok _ _ _ _ _ (rd64_Ok s _)), (lg_field _ _ Hg).
  rewrite u64_small by lia. rewrite IH by (done || lia). by rewrite last_addr_cons, Z.add_assoc.
Qed.
Lemma linked_last p_ops m gs g g' :
  linked m p_ops (gs ++ [g; g']) → ulog_by_offset (le64 m (ulog_next_at (addr g))) p_ops = addr g'.
Proof. induction gs as [|h gs IH]; simpl; [by intros [? _]|]. by intros [_ ?%IH]. Qed.
Lemma tail_snoc gs g g' : gs ++ [g] ≠ [] → tail (gs ++ [g; g']) = tail (gs ++ [g]) ++ [g'].
Proof. destruct gs; simpl; [done|]. intros _. by rewrite <-app_assoc. Qed.

(** ** The heap below *)

(** The data of the application are elsewhere. *)
Definition apart_from (user : Z → Prop) gs : Prop := ∀ q, user q → ¬ in_logs gs q.

(** What the functions [extend] and [ulog_free] of a context promise.  The heap
    knows the logs it has given out; its own data are neither in the logs nor in
    the data of the application.  An extension allocates an empty log at the end
    of the chain, or fails; giving the last log back unlinks it.  The other logs
    and the data of the application keep their contents. *)
Class LogHeap (user : Z → Prop) (ops : pmem_ops) (extend : option (Z → M pm Z)) (ulog_free : Z → M pm unit) := {
  heap_ok : pm → list log → Prop;
  heap_agree s s' gs gs' :
    heap_ok s gs → Forall2 same_place gs gs' → (∀ q, ¬ user q → ¬ in_logs gs q → bytes s' q = bytes s q) → heap_ok s' gs';
  heap_extend ext s gs g :
    extend = Some ext → chain_ok (bytes s) ops (gs ++ [g]) → apart_from user (gs ++ [g]) → heap_ok s (gs ++ [g]) →
    ∃ v s', ext (ulog_next_at (addr g)) s = Ok v s' ∧ (∀ q, user q → bytes s' q = bytes s q) ∧
      if v =? 0 then
        ∃ g', ents g' = [] ∧ chain_ok (bytes s') ops (gs ++ [g; g']) ∧ apart_from user (gs ++ [g; g']) ∧
          total_cap (gs ++ [g; g']) < MAX_LOGS ∧ heap_ok s' (gs ++ [g; g'])
      else chain_ok (bytes s') ops (gs ++ [g]) ∧ heap_ok s' (gs ++ [g]);
  heap_free s gs g g' :
    chain_ok (bytes s) ops (gs ++ [g; g']) → apart_from user (gs ++ [g; g']) → heap_ok s (gs ++ [g; g']) →
    ∃ s', ulog_free (ulog_next_at (addr g)) s = Ok tt s' ∧ (∀ q, user q → bytes s' q = bytes s q) ∧
      chain_ok (bytes s') ops (gs ++ [g]) ∧ heap_ok s' (gs ++ [g]);
}.

Section space.
Context (user : Z → Prop) (p_ops : pmem_ops) (extend : option (Z → M pm Z)) (ulog_free : Z → M pm unit).
Context {heap : LogHeap user p_ops extend ulog_free}.

(** Some extension fails. *)
Definition refused : Prop :=
  match extend with Some ext => ∃ a s v s', ext a s = Ok v s' ∧ v ≠ 0 | None => True end.

Lemma extend_run fuel (new_capacity : Z) ext ns gs g s :
  extend = Some ext → chain_ok (bytes s) p_ops (gs ++ [g]) → apart_from user (gs ++ [g]) → heap_ok s (gs ++ [g]) →
  total_cap (gs ++ [g]) < MAX_LOGS → offsets p_ops ns (tail (gs ++ [g])) →
  new_capacity - total_cap (gs ++ [g]) + 64 ≤ 64 * Z.of_nat fuel → (0 < fuel)%nat →
  ∃ o ns' s' gs', extend_to fuel new_capacity ext (addr g) (total_cap (gs ++ [g])) ns p_ops s = Ok (o, ns') s' ∧
    (∀ q, user q → bytes s' q = bytes s q) ∧ Forall (λ g, ents g = []) gs' ∧
    chain_ok (bytes s') p_ops (gs ++ [g] ++ gs') ∧ apart_from user (gs ++ [g] ++ gs') ∧ heap_ok s' (gs ++ [g] ++ gs') ∧
    total_cap (gs ++ [g] ++ gs') < MAX_LOGS ∧
    offsets p_ops ns' (tail (gs ++ [g] ++ gs')) ∧
    match o with None => refused | Some cap' => cap' = total_cap (gs ++ [g] ++ gs') ∧ new_capacity ≤ cap' end.
Proof.
  intros Hext. revert gs g ns s. induction fuel as [|fuel IH]; intros gs g ns s Hc Ha Hh Hb Hns Hfuel H0; [lia|].
  cbn [extend_to]. destruct (Z.ltb_spec (total_cap (gs ++ [g])) new_capacity) as [Hlt|Hge].
  2: { exists (Some (total_cap (gs ++ [g]))), ns, s, []. rewrite app_nil_r. by repeat (split; [done|]). }
  destruct (heap_extend ext s gs g Hext Hc Ha Hh) as (v&s1&Hrun&Huser&Hres). rewrite (bind_Ok _ _ _ _ _ Hrun).
  destruct (Z.eqb_spec v 0) as [->|Hv]; cbn [negb].
  2: { exists None, ns, s1, []. rewrite app_nil_r. destruct Hres as [Hc1 Hh1].
       repeat (split; [done|]). unfold refused. rewrite Hext. by exists (ulog_next_at (addr g)), s, v, s1. }
  destruct Hres as (g'&Hemp&Hc1&Ha1&Hb1&Hh1). pose proof (ch_logs _ _ _ Hc1) as Hlogs.
  assert (gs ++ [g; g'] = (gs ++ [g]) ++ [g']) as Hsnoc by by rewrite <-app_assoc.
  pose proof Hlogs as Hlogs'. rewrite Hsnoc, Forall_app, Forall_cons in Hlogs'. destruct Hlogs' as (Hlg&Hg'&_).
  rewrite (bind_Ok _ _ _ _ _ (rd64_Ok s1 _)). rewrite (linked_last _ _ _ _ _ (ch_linked _ _ _ Hc1)).
  rewrite (proj2 (Z.eqb_neq _ 0)) by apply (lg_nonzero _ _ Hg'). cbn [negb assert_].
  erewrite (bind_Ok (ret tt)) by reflexivity. rewrite (bind_Ok _ _ _ _ _ (rd64_Ok s1 _)), (lg_field _ _ Hg').
  pose proof (total_cap_nonneg _ _ Hlg) as Hpos. destruct (lg_cap _ _ Hg') as [Hcap _].
  assert (64 ≤ cap g') as H64 by (pose proof (lg_lines _ _ Hg'); pose proof (Z.div_mod (cap g') 64); lia).
  assert (total_cap ((gs ++ [g]) ++ [g']) = total_cap (gs ++ [g]) + cap g') as Htot.
  { rewrite (total_cap_app (gs ++ [g])). simpl. lia. }
  rewrite Hsnoc in *. rewrite u64_small by (unfold MAX_LOGS, U64 in *; lia). rewrite <-Htot.
  destruct (IH (gs ++ [g]) g' (ns ++ [le64 (bytes s1) (ulog_next_at (addr g))]) s1)
    as (o&ns'&s2&gs'&Hrun2&Hu2&He2&Hc2&Ha2&Hh2&Hb2&Hn2&Ho2); [done..| |lia|lia|].
  { rewrite <-Hsnoc, tail_snoc by (by destruct gs). apply Forall2_app; [done|]. constructor; [|done].
    apply (linked_last _ _ gs). rewrite Hsnoc. apply Hc1. }
  exists o, ns', s2, (g' :: gs'). rewrite <-(app_assoc gs [g]) in *. split; [done|].
  split; [by intros q Hq; rewrite Hu2, Huser|]. split; [by constructor|]. done.
Qed.
End space.
