(* ===== verification/UndoFacts.v ===== *)
(** * Undo logs: correctness

    The state of a context for undo logs as the list of its logs, and what the
    operations of [memops.c] do to it: a buffer that is added becomes entries
    that restore it, processing restores all entries, and the end of an
    operation empties the logs. *)
From stdpp Require Import base list strings sets.
From S2P Require Import Prelude Pmem PmemFacts Ulog UlogFacts LogChain Memops MemopsFacts.
Open Scope Z_scope.
#[local] Set Default Proof Using "Type".

Implicit Types (m : mem) (s : pm) (c : operation_context) (x : entry) (xs : list entry) (g : log) (gs pre post : list log).

(** ** Steps *)

Lemma on_pm_Ok {A} (f : M pm A) v s s' c : f s = Ok v s' → on_pm f (s, c) = Ok v (s', c).
Proof. intros H. unfold on_pm, zoom. simpl. by rewrite H. Qed.
Lemma ctx_Ok {A} (f : operation_context → A) s c : ctx f (s, c) = Ok (f c) (s, c).
Proof. done. Qed.
Lemma update_Ok f s c : update f (s, c) = Ok tt (s, f c).
Proof. done. Qed.

Lemma reserve_none e logs new_capacity s c :
  e = None → ulog_capacity c < new_capacity → operation_reserve e logs new_capacity (s, c) = Ok (-1) (s, c).
Proof.
  intros -> Hc. unfold operation_reserve. rewrite (bind_Ok _ _ _ _ _ (ctx_Ok _ s c)). by rewrite (proj2 (Z.ltb_lt _ _)) by done.
Qed.
Lemma reserve_some e ext logs new_capacity s c o ns' s' :
  e = Some ext → ulog_capacity c < new_capacity →
  ulog_reserve logs (ulog c) (ulog_base_nbytes c) new_capacity ext (next c) (p_ops c) s = Ok (o, ns') s' →
  operation_reserve e logs new_capacity (s, c)
  = Ok (match o with None => -1 | Some _ => 0 end) (s', set_space (default (ulog_capacity c) o) ns' c).
Proof.
  intros -> Hc Hrun. unfold operation_reserve. rewrite (bind_Ok _ _ _ _ _ (ctx_Ok _ s c)), (proj2 (Z.ltb_lt _ _)) by done.
  rewrite (bind_Ok _ _ _ _ _ (ctx_Ok id s c)). unfold id. by rewrite (bind_Ok _ _ _ _ _ (on_pm_Ok _ _ _ _ c Hrun)).
Qed.
Lemma option_cases {A} (o : option A) : o = None ∨ ∃ v, o = Some v.
Proof. destruct o; eauto. Qed.

(** ** The state of a context *)

Definition entries_of gs : list entry := concat (ents <$> gs).
(** The logs before the last one have no room left. *)
Definition filled pre : Prop := ∀ fs g, pre = fs ++ [g] → Forall (λ g, full g = true) fs.
Definition empty_log g : Prop := ents g = [].

Section undo.
Context {user : Z → Prop} {ops : pmem_ops} {extend : option (Z → M pm Z)} {ulog_free : Z → M pm unit}.
Context {heap : LogHeap user ops extend ulog_free} (logs : nat).

Record undo_ok s c pre post : Prop := {
  un_type : type c = LOG_TYPE_UNDO;
  un_chain : chain_ok (bytes s) (p_ops c) (pre ++ post);
  un_first : first_addr (pre ++ post) = ulog c;
  un_nonempty : pre ++ post ≠ [];
  un_base : cap <$> head (pre ++ post) = Some (ulog_base_nbytes c);
  un_next : offsets (p_ops c) (next c) (tail (pre ++ post));
  un_capacity : 0 ≤ ulog_capacity c ≤ total_cap (pre ++ post);
  un_total : total_logged c = total_used pre;
  un_filled : filled pre;
  un_empty : Forall empty_log post;
  un_curr : match last pre with
            | None => ulog_curr c = 0 ∧ ulog_curr_capacity c = 0
            | Some g => ulog_curr c = addr g ∧ ulog_curr_offset c = used (ents g) ∧
                        ulog_curr_capacity c = cap g - used (ents g)
            end;
  un_apart : apart_from user (pre ++ post);
  un_small : total_cap (pre ++ post) < MAX_LOGS;
  un_pool : 0 < base (p_ops c);
  un_shadow : log_capacity (pshadow_ops c) `mod` 64 = 0;
  un_transient : log_offset (transient_ops c) = 0;
  un_ops : p_ops c = ops;
  un_heap : heap_ok s (pre ++ post);
}.

Lemma total_full gs : Forall (λ g, full g = true) gs → total_used gs = total_cap gs.
Proof. induction 1 as [|g gs Hg _ IH]; simpl; [done|]. apply Z.eqb_eq in Hg. lia. Qed.
Lemma total_empty gs : Forall empty_log gs → total_used gs = 0.
Proof. induction 1 as [|g gs Hg _ IH]; simpl; [done|]. rewrite Hg, IH. done. Qed.

(** ** Space *)

Lemma reserve_run s c pre post new_capacity ext :
  undo_ok s c pre post → extend = Some ext →
  new_capacity - total_cap (pre ++ post) + 64 ≤ 64 * Z.of_nat logs → (0 < logs)%nat →
  ∃ o ns' s' gs', ulog_reserve logs (ulog c) (ulog_base_nbytes c) new_capacity ext (next c) (p_ops c) s = Ok (o, ns') s' ∧
    (∀ q, user q → bytes s' q = bytes s q) ∧ Forall empty_log gs' ∧
    chain_ok (bytes s') (p_ops c) (pre ++ post ++ gs') ∧ apart_from user (pre ++ post ++ gs') ∧ heap_ok s' (pre ++ post ++ gs') ∧
    total_cap (pre ++ post ++ gs') < MAX_LOGS ∧ offsets (p_ops c) ns' (tail (pre ++ post ++ gs')) ∧
    match o with None => refused extend | Some cap' => cap' = total_cap (pre ++ post ++ gs') ∧ new_capacity ≤ cap' end.
Proof.
  intros [H1 Hc H3 H4 H5 H6 H7 H8 H9 H10 H11 Ha Hb H14 H15 H16 Hops Hheap] Hext Hfuel H0. rewrite Hops in *. unfold ulog_reserve. pose proof (ch_logs _ _ _ Hc) as Hl.
  destruct (pre ++ post) as [|h t] eqn:Et; [done|]. simpl in H3, H5, H6. injection H5 as Hbase. apply Forall_cons in Hl as [Hh Ht].
  destruct (lg_cap _ _ Hh). simpl in Hb. pose proof (total_cap_nonneg _ _ Ht).
  assert (reserved (next c) (ulog c) (ulog_base_nbytes c) ops s = Ok (last_addr t (ulog c), total_cap (pre ++ post)) s) as Hres.
  { rewrite Et. simpl. rewrite <-Hbase. apply reserved_run; [done|done|lia|unfold MAX_LOGS, U64 in *; lia]. }
  rewrite (bind_Ok _ _ _ _ _ Hres). cbn [fst snd]. rewrite <-H3, <-(last_addr_cons h t 0), <-Et.
  destruct (exists_last (l := pre ++ post)) as (fs&g&Eg); [by rewrite Et|]. rewrite Eg.
  rewrite <-Et, Eg in Hfuel. rewrite <-Et in Hc, Ha, Hheap. rewrite Eg in Hc, Ha, Hheap.
  assert (last_addr (fs ++ [g]) 0 = addr g) as -> by (unfold last_addr; by rewrite last_snoc).
  destruct (extend_run user ops extend ulog_free logs new_capacity ext (next c) fs g s) as (o&ns'&s'&gs'&Hx); [done..| | |lia|done|].
  - rewrite <-Eg, Et. done.
  - rewrite <-Eg, Et. done.
  - exists o, ns', s', gs'. rewrite (app_assoc pre), Eg, <-app_assoc. exact Hx.
Qed.
Lemma reserve_Ok s c pre post new_capacity :
  undo_ok s c pre post →
  new_capacity - total_cap (pre ++ post) + 64 ≤ 64 * Z.of_nat logs → (0 < logs)%nat →
  ∃ v s' cap' ns' post', operation_reserve extend logs new_capacity (s, c) = Ok v (s', set_space cap' ns' c) ∧
    undo_ok s' (set_space cap' ns' c) pre post' ∧ (∀ q, user q → bytes s' q = bytes s q) ∧
    (v = 0 ∧ new_capacity ≤ total_cap (pre ++ post') ∨ v = -1 ∧ refused extend).
Proof.
  intros H Hfuel H0. destruct (decide (ulog_capacity c < new_capacity)) as [Hlt|Hge].
  2: { exists 0, s, (ulog_capacity c), (next c), post. destruct (un_capacity _ _ _ _ H).
       unfold operation_reserve. rewrite (bind_Ok _ _ _ _ _ (ctx_Ok _ s c)), (proj2 (Z.ltb_ge _ _)) by lia.
       destruct c; simpl in *. split; [done|]. split; [done|]. split; [done|]. left. lia. }
  destruct (option_cases extend) as [E|(ext&E)].
  { exists (-1), s, (ulog_capacity c), (next c), post. rewrite (reserve_none _ _ _ _ _ E Hlt). destruct c; simpl in *.
    split; [done|]. split; [done|]. split; [done|]. right. split; [done|]. unfold refused. by rewrite E. }
  destruct (reserve_run s c pre post new_capacity ext H E Hfuel H0) as (o&ns'&s'&gs'&Hrun&Hu&He&Hc&Ha&Hh&Hb&Hn&Ho).
  rewrite (reserve_some _ _ _ _ _ _ _ _ _ E Hlt Hrun).
  destruct (un_capacity _ _ _ _ H) as [Hc0 Hc1].
  assert (total_cap (pre ++ post) ≤ total_cap (pre ++ post ++ gs')) as Hmore.
  { rewrite app_assoc, (total_cap_app (pre ++ post)). pose proof (ch_logs _ _ _ Hc) as Hl.
    rewrite app_assoc, Forall_app in Hl. pose proof (total_cap_nonneg _ _ (proj2 Hl)). lia. }
  eexists _, s', (default (ulog_capacity c) o), ns', (post ++ gs'). split; [reflexivity|]. split.
  - destruct H. split; cbn [set_space type p_ops next ulog ulog_base_nbytes ulog_capacity total_logged ulog_curr ulog_curr_offset ulog_curr_capacity];
      try done; rewrite ?app_assoc in *.
    + by destruct (pre ++ post).
    + by destruct (pre ++ post).
    + by destruct (pre ++ post).
    + destruct o as [cap'|]; simpl; lia.
    + by apply Forall_app.
  - split; [done|]. destruct o; simpl; [left|right]; [|done]. split; [done|]. lia.
Qed.

(** ** The current log *)

(** Without room in the current log every log in use is full. *)
Lemma curr_full s c pre post :
  undo_ok s c pre post → ulog_curr_capacity c = 0 → Forall (λ g, full g = true) pre.
Proof.
  intros H H0. pose proof (un_filled _ _ _ _ H) as Hf. pose proof (un_curr _ _ _ _ H) as Hcur.
  destruct pre as [|g fs _] using rev_ind; [constructor|]. rewrite last_snoc in Hcur. apply Forall_app. split; [by eapply Hf|].
  constructor; [|constructor]. apply Z.eqb_eq. lia.
Qed.
Lemma next_addr s c pre g post :
  undo_ok s c pre (g :: post) →
  (if ulog_curr c =? 0 then ret (ulog c) else on_pm (ulog_next (ulog_curr c) (p_ops c))) (s, c) = Ok (addr g) (s, c).
Proof.
  intros [_ Hc Hfirst _ _ _ _ _ _ _ Hcur _ _ _ _ _ _ _]. pose proof (ch_logs _ _ _ Hc) as Hl. pose proof (ch_linked _ _ _ Hc) as Hk.
  destruct pre as [|h fs _] using rev_ind.
  - destruct Hcur as [-> _]. simpl in Hfirst. by rewrite Hfirst.
  - rewrite last_snoc in Hcur. destruct Hcur as [-> _]. rewrite !Forall_app, Forall_cons in Hl. destruct Hl as [(_&Hh&_) _].
    rewrite (proj2 (Z.eqb_neq _ 0)) by apply (lg_nonzero _ _ Hh). apply on_pm_Ok. unfold ulog_next.
    rewrite (bind_Ok _ _ _ _ _ (rd64_Ok s _)). rewrite <-app_assoc in Hk.
    assert (∀ l, linked (bytes s) (p_ops c) (l ++ h :: g :: post) → ulog_by_offset (le64 (bytes s) (ulog_next_at (addr h))) (p_ops c) = addr g)
      as Hlast by (induction l as [|k l IH]; simpl; [by intros [? _]|by intros [_ ?%IH]]).
    by rewrite (Hlast fs Hk).
Qed.
(** The first unused log becomes the current one. *)
Lemma enter_log s c pre g post :
  undo_ok s c pre (g :: post) → Forall (λ g, full g = true) pre →
  undo_ok s (set_curr 0 (cap g) (addr g) c) (pre ++ [g]) post.
Proof.
  intros H Hfull. destruct H. split; cbn [set_curr type p_ops next ulog ulog_base_nbytes ulog_capacity total_logged ulog_curr ulog_curr_offset ulog_curr_capacity];
    rewrite <-?app_assoc; try done.
  - apply Forall_cons in un_empty0 as [He _]. rewrite total_used_app. simpl. rewrite He. by rewrite used_nil, un_total0, !Z.add_0_r.
  - intros fs h [-> _]%app_inj_tail. done.
  - by apply Forall_cons in un_empty0 as [_ ?].
  - rewrite last_snoc. apply Forall_cons in un_empty0 as [He _]. rewrite He, used_nil. by rewrite Z.sub_0_r.
Qed.
Lemma advance_Ok s c pre post real_size :
  undo_ok s c pre post → ulog_curr_capacity c = 0 →
  0 < real_size < MAX_LOGS → real_size + 64 ≤ 64 * Z.of_nat logs →
  ∃ v s' c' pre' post', advance_log extend logs real_size (s, c) = Ok v (s', c') ∧
    undo_ok s' c' pre' post' ∧ entries_of pre' = entries_of pre ∧ p_ops c' = p_ops c ∧
    (∀ q, user q → bytes s' q = bytes s q) ∧ (v = 0 ∧ ulog_curr_capacity c' ≠ 0 ∨ v = -1 ∧ refused extend).
Proof.
  intros H H0 Hreal Hfuel. pose proof (curr_full _ _ _ _ H H0) as Hfull. pose proof (total_full _ Hfull) as Htot.
  pose proof (ch_logs _ _ _ (un_chain _ _ _ _ H)) as Hl. apply Forall_app in Hl as [Hl1 Hl2].
  pose proof (total_cap_nonneg _ _ Hl1) as Hp1. pose proof (total_cap_nonneg _ _ Hl2) as Hp2. pose proof (un_small _ _ _ _ H) as Hsm.
  pose proof (un_total _ _ _ _ H) as Hlogged. rewrite total_cap_app in Hsm.
  unfold advance_log. rewrite (bind_Ok _ _ _ _ _ (ctx_Ok _ s c)), u64_small by (unfold MAX_LOGS, U64 in *; lia).
  destruct (reserve_Ok s c pre post (total_logged c + real_size)) as (v&s'&cap'&ns'&post'&Hrun&H'&Hu&Hv);
    [done|rewrite total_cap_app; lia|lia|].
  rewrite (bind_Ok _ _ _ _ _ Hrun). destruct Hv as [[-> Hroom]|[-> Href]]; cbn [Z.eqb negb].
  2: { eexists (-1), s', _, pre, post'. split; [reflexivity|]. split; [exact H'|]. split; [done|]. split; [done|].
       split; [done|]. by right. }
  rewrite total_cap_app in Hroom. destruct post' as [|g post']; [simpl in Hroom; lia|].
  rewrite (bind_Ok _ _ _ _ _ (ctx_Ok id s' _)), (bind_Ok _ _ _ _ _ (next_addr _ _ _ _ _ H')).
  pose proof (ch_logs _ _ _ (un_chain _ _ _ _ H')) as Hl'. rewrite Forall_app, Forall_cons in Hl'. destruct Hl' as (_&Hg&_).
  rewrite (proj2 (Z.eqb_neq _ 0)) by apply (lg_nonzero _ _ Hg). cbn [negb assert_]. erewrite (bind_Ok (ret tt)) by reflexivity.
  rewrite (bind_Ok _ _ _ _ _ (on_pm_Ok _ _ _ _ _ (rd64_Ok s' _))), (lg_field _ _ Hg), (bind_Ok _ _ _ _ _ (update_Ok _ s' _)).
  eexists 0, s', _, (pre ++ [g]), post'. split; [reflexivity|]. split; [by apply enter_log|]. split.
  { unfold entries_of. rewrite fmap_app, concat_app. simpl. pose proof (un_empty _ _ _ _ H') as He.
    apply Forall_cons in He as [-> _]. by rewrite !app_nil_r. }
  split; [done|]. split; [done|]. left. split; [done|]. cbn. destruct (lg_cap _ _ Hg). lia.
Qed.

(** ** Adding a buffer *)

Lemma same_cap gs gs' : Forall2 same_place gs gs' → total_cap gs = total_cap gs'.
Proof. induction 1 as [|g g' gs gs' [_ Hg] _ IH]; simpl; [done|]. by rewrite Hg, IH. Qed.
Lemma same_offsets po ns gs gs' : offsets po ns gs → Forall2 same_place gs gs' → offsets po ns gs'.
Proof.
  intros H. revert gs'. induction H as [|n g ns gs Hn _ IH]; intros gs'; inversion 1 as [|? g' ? ? [Hg _]]; subst; constructor.
  - by rewrite Hn.
  - by apply IH.
Qed.
Lemma append_entry s s' c fs g post x :
  undo_ok s c (fs ++ [g]) post → ok_entry x.1 x.2 → used (ents g) + room x ≤ cap g →
  (∀ q, bytes s' q = store_bytes (bytes s) (free_at g) (encode x) q) →
  undo_ok s' (set_curr (used (ents g) + room x) (cap g - used (ents g) - room x) (addr g)
                    (set_total (total_logged c + room x) c)) (fs ++ [push g x]) post.
Proof.
  intros H Hok Hroom Hs'.
  assert (Forall2 same_place ((fs ++ [g]) ++ post) ((fs ++ [push g x]) ++ post)) as Hsame.
  { rewrite <-!app_assoc. apply Forall2_app; [by apply Forall_Forall2_diag, Forall_true|]. constructor; [done|].
    by apply Forall_Forall2_diag, Forall_true. }
  destruct H as [H1 Hc H3 H4 H5 H6 H7 H8 H9 H10 H11 Ha Hb H14 H15 H16 Hops Hh]. pose proof (ch_logs _ _ _ Hc) as Hl.
  rewrite !Forall_app, Forall_cons in Hl. destruct Hl as [(_&Hg&_) _].
  assert (Z.of_nat (length (encode x)) = room x) as Hlen by apply buf_entry_length. pose proof (used_nonneg (ents g)).
  split; cbn [set_curr set_total type p_ops next ulog ulog_base_nbytes ulog_capacity total_logged ulog_curr ulog_curr_offset ulog_curr_capacity]; try done.
  - rewrite <-app_assoc in Hc |- *. eapply chain_write; [exact Hc|done|by eapply append_ok|].
    intros q Hq. rewrite Hs', store_out; [done|]. unfold free_at. lia.
  - by rewrite <-(same_first _ _ Hsame).
  - by destruct fs.
  - by destruct fs.
  - destruct fs as [|f fs]; [done|]. simpl in *. apply Forall2_cons_1 in Hsame as [_ Hsame].
    by eapply same_offsets.
  - by rewrite <-(same_cap _ _ Hsame).
  - rewrite H8, !total_used_app. simpl. rewrite used_app, used_cons, used_nil. lia.
  - intros fs' g' [-> _]%app_inj_tail. by eapply H9.
  - rewrite last_snoc. cbn [push addr cap ents]. rewrite used_app, used_cons, used_nil. lia.
  - intros q Hq Hin. apply (Ha q Hq). by apply (same_in_logs _ _ _ Hsame).
  - by rewrite <-(same_cap _ _ Hsame).
  - eapply heap_agree; [exact Hh|exact Hsame|]. intros q _ Hq. rewrite Hs', store_out; [done|].
    destruct (decide (inside g q)) as [Hin|Hout]; [destruct Hq; exists g; split; [rewrite !elem_of_app; set_solver|done]|].
    unfold inside, free_at, SIZEOF_ULOG, sizeof_ulog, ulog_data in *. lia.
Qed.

Lemma log_room m g : log_ok m g → used (ents g) ≠ cap g → ∃ k, cap g - used (ents g) = 64 * k ∧ 0 < k.
Proof.
  intros Hg Hne. exists (cap g / 64 - used (ents g) / 64). pose proof (used_mod (ents g)). pose proof (lg_lines _ _ Hg).
  pose proof (lg_used _ _ Hg). pose proof (Z.div_mod (used (ents g)) 64). pose proof (Z.div_mod (cap g) 64). lia.
Qed.
(** The application's data are not where the next entry goes. *)
Lemma source_apart gs g src n k :
  apart_from user gs → g ∈ gs → (∀ q, src ≤ q < src + n → user q) → 0 < n → 0 < k → used (ents g) + k ≤ cap g →
  src + n ≤ free_at g ∨ free_at g + k ≤ src.
Proof.
  intros Ha Hg Hsrc Hn Hk Hroom. destruct (decide (src + n ≤ free_at g)) as [|H1]; [by left|].
  destruct (decide (free_at g + k ≤ src)) as [|H2]; [by right|]. exfalso.
  apply (Ha (Z.max src (free_at g))); [apply Hsrc; lia|]. exists g. split; [done|].
  pose proof (used_nonneg (ents g)). unfold inside, free_at, SIZEOF_ULOG, sizeof_ulog, ulog_data in *. lia.
Qed.
Lemma logged_bounds s c fs g post :
  undo_ok s c (fs ++ [g]) post →
  0 ≤ total_logged c ≤ total_cap fs + used (ents g) ∧ total_cap fs + cap g < MAX_LOGS ∧ log_ok (bytes s) g.
Proof.
  intros H. pose proof (ch_logs _ _ _ (un_chain _ _ _ _ H)) as Hl. rewrite !Forall_app, Forall_cons in Hl.
  destruct Hl as [(Hlf&Hg&_) Hlp]. pose proof (total_cap_nonneg _ _ Hlf). pose proof (total_cap_nonneg _ _ Hlp).
  pose proof (un_small _ _ _ _ H) as Hsm. rewrite !total_cap_app in Hsm. simpl in Hsm. split; [|split; [lia|done]].
  rewrite (un_total _ _ _ _ H). pose proof (total_used_nonneg (fs ++ [g])). split; [done|].
  rewrite total_used_app, (total_full fs) by by eapply (un_filled _ _ _ _ H). simpl. lia.
Qed.
Lemma part_run s c fs g post dest src size n :
  undo_ok s c (fs ++ [g]) post → Z.min (size + 24) (cap g - used (ents g)) = Z.of_nat n + 24 → (0 < n)%nat →
  let x := (u64 (dest - base (p_ops c)), load_bytes (bytes s) src n) in
  0 ≤ x.1 < 2 ^ 61 → (∀ q, src ≤ q < src + Z.of_nat n → user q) →
  ok_entry x.1 x.2 ∧ used (ents g) + room x ≤ cap g ∧
  ∃ s', add_part dest src (size + 24) ULOG_OPERATION_BUF_CPY (s, c) =
      Ok (Z.of_nat n) (s', set_curr (used (ents g) + room x) (cap g - used (ents g) - room x) (addr g)
                             (set_total (total_logged c + room x) c)) ∧
    ∀ q, bytes s' q = store_bytes (bytes s) (free_at g) (encode x) q.
Proof.
  intros H Hmin Hn x Ho Hsrc. destruct (logged_bounds _ _ _ _ _ H) as (Htl&Hsm&Hg).
  pose proof (un_curr _ _ _ _ H) as Hcur. rewrite last_snoc in Hcur. destruct Hcur as (Hu&Hoff&Hcap).
  pose proof (used_nonneg (ents g)) as Hun. destruct (log_room _ _ Hg) as (k&Hk&Hk0); [lia|].
  assert (length x.2 = n) as Hll by apply load_bytes_length.
  assert (ok_entry x.1 x.2) as Hok by (split; [done|]; unfold MAX_LOGS, U64 in *; lia).
  assert (room x = 64 * lines (Z.of_nat n)) as Hroom by (unfold room; by rewrite Hll).
  assert (used (ents g) + room x ≤ cap g) as Hfit.
  { rewrite Hroom. unfold lines. pose proof (Z.div_lt_upper_bound (Z.of_nat n + 24 + 63) 64 (k + 1)). lia. }
  pose proof (room_pos x) as Hrp. destruct (lg_cap _ _ Hg) as [_ Hc64]. split; [done|]. split; [done|].
  destruct (buf_create_Ok (p_ops c) (addr g) (used (ents g)) dest src n s) as (s'&Hrun&Hcr).
  - pose proof (lg_aligned _ _ Hg). pose proof (used_mod (ents g)). unfold ulog_data.
    rewrite Z.add_mod, (Z.add_mod (addr g)) by lia. by rewrite H0, H1.
  - done.
  - unfold MAX_LOGS, U64 in *. lia.
  - rewrite <-Hroom. apply (source_apart ((fs ++ [g]) ++ post) g); [apply H|set_solver|done|lia|lia|lia].
  - exists s'. split; [|apply Hcr]. unfold add_part. rewrite (bind_Ok _ _ _ _ _ (ctx_Ok id s c)). unfold id.
    rewrite Hcap, Hmin. change sizeof_entry_buf with 24. replace (Z.of_nat n + 24 - 24) with (Z.of_nat n) by lia.
    rewrite (u64_small (Z.of_nat n)) by (unfold MAX_LOGS, U64 in *; lia). rewrite Hu, Hoff.
    rewrite (bind_Ok _ _ _ _ _ (on_pm_Ok _ _ _ _ c Hrun)).
    assert (entry_at (bytes s') (free_at g) (cpy x.1) x.2) as Hat.
    { unfold entry_at. erewrite load_bytes_ext; [apply load_store|]. intros q _. apply Hcr. }
    rewrite (bind_Ok _ _ _ _ _ (on_pm_Ok _ _ _ _ c (entry_size_Ok s' _ _ _ Hat Hok))).
    fold (room x). change (ALIGN_UP ?a CACHELINE_SIZE) with (CACHELINE_ALIGN a).
    assert (CACHELINE_ALIGN (Z.of_nat n + 24) = room x) as ->.
    { rewrite cacheline_align by (unfold MAX_LOGS, U64 in *; lia). rewrite Hroom. unfold lines. lia. }
    rewrite Z.eqb_refl, (proj2 (Z.leb_le _ _)) by lia. cbn [assert_]. do 2 (erewrite (bind_Ok (ret tt)) by reflexivity).
    rewrite (bind_Ok _ _ _ _ _ (update_Ok _ s' c)), !u64_small by (unfold MAX_LOGS, U64 in *; lia). reflexivity.
Qed.
Lemma part_Ok s c pre post dest src size :
  undo_ok s c pre post → ulog_curr_capacity c ≠ 0 → 0 < size →
  0 ≤ u64 (dest - base (p_ops c)) < 2 ^ 61 → (∀ q, src ≤ q < src + size → user q) →
  ∃ n s' c' pre', add_part dest src (size + 24) ULOG_OPERATION_BUF_CPY (s, c) = Ok (Z.of_nat n) (s', c') ∧
    undo_ok s' c' pre' post ∧ p_ops c' = p_ops c ∧ (∀ q, user q → bytes s' q = bytes s q) ∧
    (Z.of_nat n = size ∨ 40 ≤ Z.of_nat n < size) ∧
    entries_of pre' = entries_of pre ++ [(u64 (dest - base (p_ops c)), load_bytes (bytes s) src n)].
Proof.
  intros H Hcap Hsz Ho Hsrc. pose proof (un_curr _ _ _ _ H) as Hcur.
  destruct pre as [|g fs _] using rev_ind; [by destruct Hcur|]. rewrite last_snoc in Hcur. destruct Hcur as (Hu&Hoff&Hcapc).
  destruct (logged_bounds _ _ _ _ _ H) as (_&_&Hg). destruct (log_room _ _ Hg) as (k&Hk&Hk0); [lia|].
  set (n := Z.to_nat (Z.min size (64 * k - 24))).
  destruct (part_run s c fs g post dest src size n) as (Hok&Hfit&s'&Hrun&Hb); [done|lia|lia|done|intros q Hq; apply Hsrc; lia|].
  pose proof (append_entry _ _ _ _ _ _ _ H Hok Hfit Hb) as H'.
  eexists n, s', _, (fs ++ [push g _]). split; [exact Hrun|]. split; [exact H'|]. split; [done|]. split.
  - intros q Hq. rewrite Hb, store_out; [done|]. set (x := (_, _)) in *.
    assert (Z.of_nat (length (encode x)) = room x) as Hlen by apply buf_entry_length. pose proof (used_nonneg (ents g)). destruct (decide (free_at g ≤ q < ulog_data (addr g) + cap g)) as [Hin|Hout]; [|unfold free_at in *; lia].
    exfalso. apply (un_apart _ _ _ _ H q Hq). exists g. split; [set_solver|].
    unfold inside, free_at, SIZEOF_ULOG, sizeof_ulog, ulog_data in *. lia.
  - split; [lia|]. unfold entries_of. rewrite !fmap_app, !concat_app. simpl. by rewrite !app_nil_r, app_assoc.
Qed.

(** Entries that hold the bytes [l] from the offset [o] on, one part after the other. *)
Fixpoint pieces (o : Z) (l : list Z) xs : Prop :=
  match xs with
  | [] => l = []
  | x :: xs' => x.1 = o ∧ ∃ l', l = x.2 ++ l' ∧ pieces (o + Z.of_nat (length x.2)) l' xs'
  end.
Lemma pieces_one o l : pieces o l [(o, l)].
Proof. split; [done|]. exists []. by rewrite app_nil_r. Qed.

(** After the first step there is room, or an extension has failed. *)
Lemma current_Ok s c pre post real_size :
  undo_ok s c pre post → 0 < real_size < MAX_LOGS → real_size + 64 ≤ 64 * Z.of_nat logs →
  ∃ v s' c' pre' post',
    (if ulog_curr_capacity c =? 0 then advance_log extend logs real_size else ret 0) (s, c) = Ok v (s', c') ∧
    undo_ok s' c' pre' post' ∧ entries_of pre' = entries_of pre ∧ p_ops c' = p_ops c ∧
    (∀ q, user q → bytes s' q = bytes s q) ∧ (v = 0 ∧ ulog_curr_capacity c' ≠ 0 ∨ v = -1 ∧ refused extend).
Proof.
  intros H Hreal Hlogs. destruct (Z.eqb_spec (ulog_curr_capacity c) 0) as [Hc0|Hc0].
  - by apply (advance_Ok s c pre post).
  - exists 0, s, c, pre, post. repeat (split; [done|]). by left.
Qed.
Lemma add_buffer_Ok fuel s c pre post dest src size :
  undo_ok s c pre post → (0 < size)%nat → Z.of_nat size + 88 ≤ 64 * Z.of_nat logs →
  base (p_ops c) ≤ dest → dest + Z.of_nat size ≤ base (p_ops c) + 2 ^ 61 →
  (∀ q, src ≤ q < src + Z.of_nat size → user q) → (size < 40 * fuel)%nat →
  ∃ v s' c' pre' post' xs n,
    operation_add_buffer extend logs fuel dest src (Z.of_nat size) ULOG_OPERATION_BUF_CPY (s, c) = Ok v (s', c') ∧
    undo_ok s' c' pre' post' ∧ p_ops c' = p_ops c ∧ (∀ q, user q → bytes s' q = bytes s q) ∧
    entries_of pre' = entries_of pre ++ xs ∧ pieces (dest - base (p_ops c)) (load_bytes (bytes s) src n) xs ∧ Forall (λ x, x.2 ≠ []) xs ∧
    (v = 0 ∧ n = size ∨ v = -1 ∧ (n < size)%nat ∧ refused extend).
Proof.
  revert s c pre post dest src size. induction fuel as [|fuel IH];
    intros s c pre post dest src size H H0 Hlogs Hd1 Hd2 Hsrc Hfuel; [lia|]. cbn [operation_add_buffer].
  change sizeof_entry_buf with 24. rewrite (u64_small (Z.of_nat size + 24)) by (unfold U64; lia).
  rewrite (bind_Ok _ _ _ _ _ (ctx_Ok _ s c)).
  destruct (current_Ok s c pre post (Z.of_nat size + 24)) as (v&s1&c1&pre1&post1&Hrun&H1&Hents&Hops&Hu1&Hv);
    [done..|unfold MAX_LOGS; lia|lia|].
  rewrite (bind_Ok _ _ _ _ _ Hrun). destruct Hv as [[-> Hc1]|[-> Href]]; cbn [Z.eqb negb].
  2: { exists (-1), s1, c1, pre1, post1, [], 0%nat. rewrite app_nil_r. repeat (split; [done || constructor|]). right. done. }
  destruct (part_Ok s1 c1 pre1 post1 dest src (Z.of_nat size)) as (n&s2&c2&pre2&Hpart&H2&Hops2&Hu2&Hn&Hents2);
    [done..|lia|rewrite Hops, u64_small by (unfold U64; lia); lia|done|].
  assert (load_bytes (bytes s) src n ≠ []) as Hne.
  { intros Hnil. apply (f_equal length) in Hnil. rewrite load_bytes_length in Hnil. simpl in Hnil. lia. }
  rewrite (bind_Ok _ _ _ _ _ Hpart). rewrite Hops, (u64_small (dest - _)) in Hents2 by (unfold U64; lia).
  assert (∀ k (m : pm), (∀ q, user q → bytes m q = bytes s q) → (n + k ≤ size)%nat →
    load_bytes (bytes m) (src + Z.of_nat n) k = load_bytes (bytes s) (src + Z.of_nat n) k) as Hload.
  { intros k m Hm Hk. apply load_bytes_ext. intros q Hq. apply Hm, Hsrc. lia. }
  assert (load_bytes (bytes s1) src n = load_bytes (bytes s) src n) as Hl1.
  { apply load_bytes_ext. intros q Hq. apply Hu1, Hsrc. lia. }
  rewrite Hl1, Hents in Hents2. rewrite u64_small by (unfold U64; lia).
  destruct (Z.eqb_spec (Z.of_nat size - Z.of_nat n) 0) as [Hend|Hmore].
  - exists 0, s2, c2, pre2, post1, [(dest - base (p_ops c), load_bytes (bytes s) src n)], size.
    replace size with n by lia. split; [done|]. split; [done|]. split; [congruence|]. split; [by intros q Hq; rewrite Hu2, Hu1|].
    split; [done|]. split; [apply pieces_one|]. split; [by constructor|]. by left.
  - replace (Z.of_nat size - Z.of_nat n) with (Z.of_nat (size - n)) by lia.
    destruct (IH s2 c2 pre2 post1 (dest + Z.of_nat n) (src + Z.of_nat n) (size - n)%nat)
      as (v&s3&c3&pre3&post3&xs&k&Hrun3&H3&Hops3&Hu3&Hents3&Hp3&Hne3&Hv3);
      [done|lia|lia|rewrite Hops2, Hops; lia|rewrite Hops2, Hops; lia| |lia|].
    { intros q Hq. apply Hsrc. lia. }
    exists v, s3, c3, pre3, post3, ((dest - base (p_ops c), load_bytes (bytes s) src n) :: xs), (n + k)%nat.
    split; [done|]. split; [done|]. split; [congruence|]. split; [by intros q Hq; rewrite Hu3, Hu2, Hu1|].
    split; [by rewrite Hents3, Hents2, <-app_assoc|]. split; [|split; [by constructor|]; lia || (destruct Hv3 as [[-> ->]|(->&?&?)]; [left|right]; split_and!; lia || done)].
    split; [done|]. exists (load_bytes (bytes s) (src + Z.of_nat n) k). split; [apply load_bytes_app|].
    simpl. rewrite load_bytes_length. rewrite Hops2, Hops in Hp3.
    replace (dest - base (p_ops c) + Z.of_nat n) with (dest + Z.of_nat n - base (p_ops c)) by lia.
    rewrite <-(Hload k s2); [done|by intros q Hq; rewrite Hu2, Hu1|]. destruct Hv3 as [[_ ->]|(_&?&_)]; lia.
Qed.
End undo.

(** ** Processing *)

Lemma visible_filled pre post : filled pre → Forall empty_log post → chain_entries (pre ++ post) = entries_of pre.
Proof.
  intros Hf He. assert (concat (ents <$> visible post) = []) as Hpost.
  { induction He as [|g gs Hg _ IH]; [done|]. cbn [visible]. rewrite fmap_cons. cbn [concat]. rewrite Hg. by destruct (full g). }
  unfold chain_entries, entries_of. induction pre as [|g pre IH]; [done|].
  cbn [app visible]. rewrite !fmap_cons. cbn [concat]. f_equal. destruct (decide (pre = [])) as [->|Hne].
  - by destruct (full g).
  - destruct (exists_last Hne) as (fs&h&->). assert (Forall (λ g, full g = true) (g :: fs)) as Hfull by (by apply (Hf (g :: fs) h)).
    apply Forall_cons in Hfull as [-> Hfull]. apply IH. intros fs' h' [-> _]%app_inj_tail. done.
Qed.
(** The entries hold the bytes of [m0], and restore nothing but data of the application. *)
Definition holds (b : Z) m0 x : Prop := x.2 = load_bytes m0 (b + x.1) (length x.2).
Definition covered_by (b : Z) xs (q : Z) : Prop := ∃ x, x ∈ xs ∧ target b x q.
Lemma restore_holds b m0 xs m q :
  Forall (holds b m0) xs →
  (covered_by b xs q → restore_all b xs m q = m0 q) ∧ (¬ covered_by b xs q → restore_all b xs m q = m q).
Proof.
  unfold restore_all. intros H. revert m. induction H as [|x xs Hx _ IH]; intros m; simpl.
  { split; [|done]. by intros (x&?%elem_of_nil&_). }
  destruct (IH (restore b x m)) as [IH1 IH2]. split.
  - intros (y&Hy&Ht). destruct (decide (Exists (λ y, b + y.1 ≤ q < b + y.1 + Z.of_nat (length y.2)) xs)) as [He|He].
    + apply IH1. by apply Exists_exists in He.
    + rewrite IH2 by (intros (z&Hz&Hzt); apply He, Exists_exists; by exists z).
      apply elem_of_cons in Hy as [->|Hy]; [|exfalso; apply He, Exists_exists; by exists y].
      unfold target in Ht. pose proof (store_in m (b + x.1) x.2 (Z.to_nat (q - (b + x.1))) ltac:(lia)) as Hs.
      rewrite Hx, load_bytes_lookup in Hs at 1 by lia. rewrite Z2Nat.id in Hs by lia.
      replace (b + x.1 + (q - (b + x.1))) with q in Hs by lia. unfold restore. congruence.
  - intros Hn. rewrite IH2 by (intros (z&?&?); apply Hn; exists z; set_solver).
    apply restore_other. intros Ht. apply Hn. exists x. set_solver.
Qed.

(** The parts of a buffer restore the buffer. *)
Lemma pieces_hold b o m n xs :
  pieces o (load_bytes m (b + o) n) xs →
  Forall (holds b m) xs ∧ ∀ q, covered_by b xs q ↔ b + o ≤ q < b + o + Z.of_nat n.
Proof.
  revert o n. induction xs as [|x xs IH]; intros o n H; simpl in H.
  - apply (f_equal length) in H. rewrite load_bytes_length in H. simpl in H. subst n. split; [constructor|].
    intros q. split; [by intros (x&?%elem_of_nil&_)|lia].
  - destruct H as (<-&l'&Hl&Hp). pose proof (f_equal length Hl) as Hlen. rewrite load_bytes_length, length_app in Hlen.
    assert (n = length x.2 + (n - length x.2))%nat as Hn by lia. rewrite Hn, load_bytes_app in Hl.
    apply app_inj_1 in Hl as [Hx Hl']; [|apply load_bytes_length]. rewrite <-Hl' in Hp.
    rewrite <-Z.add_assoc in Hp. destruct (IH _ _ Hp) as [IH1 IH2]. split.
    + constructor; [|done]. unfold holds. by rewrite Hx.
    + intros q. unfold covered_by, target. setoid_rewrite elem_of_cons. specialize (IH2 q). split.
      * intros (y&[->|Hy]&Ht); [lia|]. assert (covered_by b xs q) as Hc by (by exists y). apply IH2 in Hc. lia.
      * intros Hq. destruct (decide (q < b + x.1 + Z.of_nat (length x.2))) as [Hlt|Hge].
        -- exists x. split; [by left|lia].
        -- destruct IH2 as [_ IH2]. destruct IH2 as (y&Hy&Ht); [lia|]. exists y. by split; [right|].
Qed.
Definition entry_count gs : nat := foldr (λ g n, (length (ents g) + n)%nat) 0%nat gs.
Lemma entry_count_le g gs : g ∈ gs → (length (ents g) ≤ entry_count gs)%nat.
Proof. induction gs as [|h gs IH]; [by intros ?%elem_of_nil|]. rewrite elem_of_cons. intros [->|Hg%IH]; simpl; lia. Qed.
