(* ===== verification/UndoEnd.v ===== *)
(** * Undo logs: processing and the end of an operation

    Processing writes the bytes of the entries back; finishing empties the logs
    and gives back all but the first extension. *)
From stdpp Require Import base list strings sets.
From S2P Require Import Prelude Pmem PmemFacts Ulog UlogFacts LogChain Memops MemopsFacts UndoFacts.
Open Scope Z_scope.
#[local] Set Default Proof Using "Type".

Implicit Types (m : mem) (s : pm) (c : operation_context) (x : entry) (xs : list entry) (g : log) (gs pre post : list log).

Section process.
Context (user : Z → Prop) (logs entries : nat).

Lemma process_run s c gs m0 :
  type c = LOG_TYPE_UNDO → log_capacity (pshadow_ops c) `mod` 64 = 0 → log_offset (transient_ops c) = 0 →
  chain_ok (bytes s) (p_ops c) gs → first_addr gs = ulog c → apart_from user gs →
  Forall (holds (base (p_ops c)) m0) (chain_entries gs) →
  (∀ q, covered_by (base (p_ops c)) (chain_entries gs) q → user q) →
  (length gs < logs)%nat → Forall (λ g, (length (ents g) < entries)%nat) gs →
  ∃ s', operation_process logs entries (s, c) = Ok tt (s', c) ∧ (∀ q, in_logs gs q → bytes s' q = bytes s q) ∧
    (∀ q, covered_by (base (p_ops c)) (chain_entries gs) q → bytes s' q = m0 q) ∧
    (∀ q, ¬ covered_by (base (p_ops c)) (chain_entries gs) q → bytes s' q = bytes s q).
Proof.
  intros Hty Hsh Htr Hc Hfirst Ha Hold Huser Hlogs Hents.
  destruct (process_Ok logs entries gs (Some (off_is_valid (p_ops c))) (p_ops c) s) as (s'&Hrun&Hb&Hl); [done| |done|done|].
  { intros x q Hx Ht. apply Ha. apply Huser. by exists x. }
  exists s'. split; [|split; [done|]].
  - unfold operation_process, process_single. rewrite (bind_Ok _ _ _ false (s, c)).
    2: { rewrite (bind_Ok _ _ _ _ _ (ctx_Ok id s c)). unfold id. by rewrite Hty. }
    rewrite (bind_Ok _ _ _ _ _ (ctx_Ok id s c)). unfold id. rewrite Hty, bool_decide_true by done.
    rewrite Htr. cbn [Z.eqb negb]. rewrite (bind_Ok _ _ _ tt (s', c)); [done|].
    unfold operation_process_persistent_undo. rewrite (bind_Ok _ _ _ _ _ (ctx_Ok id s c)). unfold id.
    change CACHELINE_SIZE with 64. rewrite Hsh. cbn [Z.eqb assert_].
    erewrite (bind_Ok (ret tt)) by reflexivity. apply on_pm_Ok. by rewrite <-Hfirst.
  - split; intros q Hq; rewrite Hb; by apply (restore_holds _ m0 _ (bytes s) q Hold).
Qed.
End process.

Section undo.
Context {user : Z → Prop} {ops : pmem_ops} {extend : option (Z → M pm Z)} {ulog_free : Z → M pm unit}.
Context {heap : LogHeap user ops extend ulog_free} (logs entries : nat).

(** The application changes its data. *)
Lemma undo_agree s s' c pre post :
  undo_ok s c pre post → (∀ q, ¬ user q → bytes s' q = bytes s q) → undo_ok s' c pre post.
Proof.
  intros H Hs. destruct H. split; try done.
  - eapply chain_ok_agree; [|done]. intros q Hq. apply Hs. intros Hu. by apply (un_apart q Hu).
  - eapply heap_agree; [done|by apply Forall_Forall2_diag, Forall_true|]. auto.
Qed.
Lemma process_undo s c pre post m0 :
  undo_ok s c pre post → Forall (holds (base (p_ops c)) m0) (entries_of pre) →
  (∀ q, covered_by (base (p_ops c)) (entries_of pre) q → user q) →
  (length (pre ++ post) < logs)%nat → Forall (λ g, (length (ents g) < entries)%nat) (pre ++ post) →
  ∃ s', operation_process logs entries (s, c) = Ok tt (s', c) ∧ undo_ok s' c pre post ∧
    (∀ q, covered_by (base (p_ops c)) (entries_of pre) q → bytes s' q = m0 q) ∧
    (∀ q, ¬ covered_by (base (p_ops c)) (entries_of pre) q → bytes s' q = bytes s q).
Proof.
  intros H. rewrite <-(visible_filled _ _ (un_filled _ _ _ _ H) (un_empty _ _ _ _ H)). intros Hold Huser Hlogs Hents.
  destruct (process_run user logs entries s c (pre ++ post) m0) as (s'&Hrun&Hl&Hq&Hn); [apply H..|done|done|done|done|].
  exists s'. split; [done|]. split; [|done]. eapply undo_agree; [done|]. intros q Hu. apply Hn. auto.
Qed.
End undo.

(** ** Emptying logs *)

Definition clear g : log := Log (addr g) (cap g) [].
Lemma clear_ok m m' g n :
  log_ok m g → used (ents g) ≤ n ≤ cap g →
  (∀ q, m' q = store_bytes m (ulog_data (addr g)) (replicate (Z.to_nat n) 0) q) → log_ok m' (clear g).
Proof.
  intros [H1 H2 H3 H4 H5 H6 H7 H8 H9] Hn Hm. pose proof (used_nonneg (ents g)).
  assert (Z.of_nat (length (replicate (Z.to_nat n) 0)) = n) as Hlen by (rewrite length_replicate; lia).
  split; try done; cbn [clear addr cap ents].
  - rewrite <-H5. apply le64_ext. intros q Hq. rewrite Hm, store_out; [done|]. unfold ulog_capacity_at, ulog_data in *. lia.
  - rewrite used_nil. lia.
  - intros q Hq. unfold free_at in Hq. cbn [clear addr cap ents] in Hq. rewrite used_nil in Hq. rewrite Hm.
    destruct (decide (q < ulog_data (addr g) + n)) as [Hin|Hout].
    + pose proof (store_in m (ulog_data (addr g)) (replicate (Z.to_nat n) 0) (Z.to_nat (q - ulog_data (addr g))) ltac:(lia)) as Hs.
      rewrite lookup_replicate_2 in Hs by lia. rewrite Z2Nat.id in Hs by lia.
      replace (ulog_data (addr g) + (q - ulog_data (addr g))) with q in Hs by lia. congruence.
    + rewrite store_out by lia. apply H9. unfold free_at. lia.
Qed.
Lemma memset_wc p_ops a n s :
  ∃ evs, pmemops_memset p_ops a 0 n PMEMOBJ_F_MEM_WC s = Ok tt (Pm (store_bytes (bytes s) a (replicate (Z.to_nat n) 0)) evs).
Proof.
  unfold pmemops_memset, pmemops_memcpy, pmemops_drain. change (has PMEMOBJ_F_MEM_WC _) with false. cbn [negb when].
  destruct (persistent p_ops); eexists; reflexivity.
Qed.

Lemma clear_log ops m g fs post n :
  chain_ok m ops (fs ++ g :: post) → used (ents g) ≤ n ≤ cap g →
  chain_ok (store_bytes m (ulog_data (addr g)) (replicate (Z.to_nat n) 0)) ops (fs ++ clear g :: post).
Proof.
  intros Hc Hn. pose proof (ch_logs _ _ _ Hc) as Hl. rewrite Forall_app, Forall_cons in Hl. destruct Hl as (_&Hg&_).
  pose proof (used_nonneg (ents g)). eapply chain_write; [exact Hc|done|by eapply clear_ok|].
  intros q Hq. apply store_out. rewrite length_replicate. lia.
Qed.
(** The first entry of the chain may have been invalidated: its first word is 0. *)
Definition voided (a : Z) gs m0 m : Prop := ∀ q, in_logs gs q → m q = m0 q ∨ ulog_data a ≤ q < ulog_data a + 8.
Lemma store_agree m m' a l q :
  (q < a ∨ a + Z.of_nat (length l) ≤ q → m q = m' q) → store_bytes m a l q = store_bytes m' a l q.
Proof.
  intros H. unfold store_bytes. destruct (Z.leb_spec a q), (Z.ltb_spec q (a + Z.of_nat (length l))); cbn [andb]; try (apply H; lia).
  done.
Qed.
Lemma clear_voided ops m0 m g post n :
  chain_ok m0 ops (g :: post) → voided (addr g) (g :: post) m0 m → used (ents g) ≤ n ≤ cap g → 8 ≤ n →
  chain_ok (store_bytes m (ulog_data (addr g)) (replicate (Z.to_nat n) 0)) ops (clear g :: post).
Proof.
  intros Hc Hv Hn H8. pose proof (clear_log ops m0 g [] post n Hc Hn) as Hc'. eapply chain_ok_agree, Hc'. intros q Hq.
  apply store_agree. intros Hout. rewrite length_replicate in Hout.
  assert (in_logs (g :: post) q) as Hin.
  { destruct Hq as (h&Hh&Hi). apply elem_of_cons in Hh as [->|Hh]; [exists g|exists h]; (split; [rewrite elem_of_cons; auto|done]). }
  destruct (Hv q Hin) as [?|?]; [done|]. lia.
Qed.
Lemma outside_kept m gs g n q :
  g ∈ gs → 0 ≤ n ≤ cap g → ¬ in_logs gs q →
  store_bytes m (ulog_data (addr g)) (replicate (Z.to_nat n) 0) q = m q.
Proof.
  intros Hg Hn Hq. apply store_out. rewrite length_replicate.
  destruct (decide (ulog_data (addr g) ≤ q < ulog_data (addr g) + cap g)) as [Hin|]; [|lia].
  exfalso. apply Hq. exists g. split; [done|]. unfold inside, ulog_data, SIZEOF_ULOG, sizeof_ulog in *. lia.
Qed.
Lemma used_zero g : used (ents g) = 0 → empty_log g.
Proof. unfold empty_log. destruct (ents g) as [|x xs]; [done|]. rewrite used_cons. pose proof (room_pos x). pose proof (used_nonneg xs). lia. Qed.
Lemma same_clear g post : Forall2 same_place (g :: post) (clear g :: post).
Proof. constructor; [done|]. by apply Forall_Forall2_diag, Forall_true. Qed.

(** One step of the loop. *)
Lemma zero_step fuel ops g n rcap ns nlog s :
  addr g ≠ 0 → ∃ evs, zero_logs (S fuel) (addr g) n rcap ns nlog ops s =
    (let s1 := Pm (store_bytes (bytes s) (ulog_data (addr g)) (replicate (Z.to_nat (Z.min n rcap)) 0)) evs in
     if n - Z.min n rcap =? 0 then Ok tt s1
     else match ns !! nlog with
          | None => Abort (UndefinedBehaviour "VEC_ARR(next)[nlog++]") s1
          | Some o =>
              if (1 <? S nlog)%nat then Ok tt s1
              else if ulog_by_offset o ops =? 0 then Abort (AssertFailed "r != NULL") s1
              else zero_logs fuel (ulog_by_offset o ops) (n - Z.min n rcap)
                     (le64 (bytes s1) (ulog_capacity_at (ulog_by_offset o ops))) ns (S nlog) ops s1
          end).
Proof.
  intros Hg. destruct (memset_wc ops (ulog_data (addr g)) (Z.min n rcap) s) as (evs&Hset). exists evs. cbn [zero_logs].
  rewrite (proj2 (Z.eqb_neq _ 0)) by done. rewrite (bind_Ok _ _ _ _ _ Hset). cbv zeta.
  destruct (_ =? 0); [done|]. destruct (ns !! nlog) as [o|]; [|done]. destruct (1 <? S nlog)%nat; [done|].
  destruct (ulog_by_offset o ops =? 0); [done|]. cbn [negb assert_]. erewrite (bind_Ok (ret tt)) by reflexivity.
  by rewrite (bind_Ok _ _ _ _ _ (rd64_Ok _ _)).
Qed.

Section zero.
Context (ops : pmem_ops).

(** What emptying logs does to a chain. *)
Record emptied s s' gs gs' : Prop := {
  em_chain : chain_ok (bytes s') ops gs';
  em_places : Forall2 same_place gs gs';
  em_empty : Forall empty_log (take 2 gs');
  em_outside : ∀ q, ¬ in_logs gs q → bytes s' q = bytes s q;
}.
Lemma second_bound g1 pre : filled (g1 :: pre) → used (ents g1) ≤ cap g1 →
  used (ents g1) ≤ Z.min (total_used (g1 :: pre)) (cap g1) ∧
  (total_used (g1 :: pre) - Z.min (total_used (g1 :: pre)) (cap g1) ≠ 0 → pre ≠ []).
Proof.
  intros Hf Hu. pose proof (total_used_nonneg pre). simpl. split; [lia|]. intros Hne ->. simpl in Hne. lia.
Qed.
Lemma filled_cons g0 g1 pre : filled (g0 :: g1 :: pre) → full g0 = true ∧ filled (g1 :: pre).
Proof.
  intros Hf. split.
  - destruct (exists_last (l := g1 :: pre) ltac:(done)) as (fs&h&E). pose proof (Hf (g0 :: fs) h) as Hall.
    rewrite E in Hall. by apply Forall_cons in Hall as [? _].
  - intros fs h E. pose proof (Hf (g0 :: fs) h) as Hall. rewrite E in Hall. by apply Forall_cons in Hall as [_ ?].
Qed.
Lemma zero_second fuel g0 g1 pre post ns s :
  chain_ok (bytes s) ops (g0 :: g1 :: pre ++ post) → empty_log g0 →
  offsets ops ns (g1 :: pre ++ post) → filled (g1 :: pre) →
  ∃ s' gs', zero_logs (S fuel) (addr g1) (total_used (g1 :: pre)) (cap g1) ns 1 ops s = Ok tt s' ∧
    emptied s s' (g0 :: g1 :: pre ++ post) gs'.
Proof.
  intros Hc H0 Hns Hf. pose proof (ch_logs _ _ _ Hc) as Hl. rewrite !Forall_cons in Hl. destruct Hl as (_&Hg1&_).
  destruct (second_bound g1 pre Hf (lg_used _ _ Hg1)) as [Hb1 Hb2]. pose proof (used_nonneg (ents g1)).
  destruct (zero_step fuel ops g1 (total_used (g1 :: pre)) (cap g1) ns 1 s (lg_nonzero _ _ Hg1)) as (evs&->). cbv zeta.
  set (s1 := Pm _ evs). exists s1, (g0 :: clear g1 :: pre ++ post). split.
  - destruct (Z.eqb_spec (total_used (g1 :: pre) - Z.min (total_used (g1 :: pre)) (cap g1)) 0) as [|Hne]; [done|].
    apply Hb2 in Hne. apply Forall2_length in Hns. destruct pre as [|g2 pre]; [done|].
    destruct ns as [|n0 [|n1 ns]]; [done..|]. done.
  - split.
    + apply (clear_log ops (bytes s) g1 [g0] (pre ++ post)); [done|]. lia.
    + constructor; [done|]. apply same_clear.
    + simpl. by repeat constructor.
    + intros q Hq. eapply outside_kept; [|lia|exact Hq]. rewrite !elem_of_cons. auto.
Qed.
(** The first log has an entry. *)
Lemma first_used g0 pre : filled (g0 :: pre) → 0 < cap g0 → cap g0 `mod` 64 = 0 → total_used (g0 :: pre) ≠ 0 →
  8 ≤ Z.min (total_used (g0 :: pre)) (cap g0).
Proof.
  intros Hf Hc Hm Ht. pose proof (Z.div_mod (cap g0) 64 ltac:(done)). pose proof (total_used_nonneg pre) as Hp. simpl in *.
  pose proof (used_mod (ents g0)) as Hu. pose proof (Z.div_mod (used (ents g0)) 64 ltac:(done)). pose proof (used_nonneg (ents g0)).
  destruct pre as [|g1 pre]; [simpl in *; lia|]. destruct (filled_cons _ _ _ Hf) as [Hfull%Z.eqb_eq _]. lia.
Qed.
Lemma zero_run fuel g0 pre post rest ns m0 s :
  pre ++ post = g0 :: rest → chain_ok m0 ops (g0 :: rest) → voided (addr g0) (g0 :: rest) m0 (bytes s) →
  offsets ops ns rest → filled pre → Forall empty_log post → total_used pre ≠ 0 →
  ∃ s' gs', zero_logs (S (S fuel)) (addr g0) (total_used pre) (cap g0) ns 0 ops s = Ok tt s' ∧
    emptied s s' (g0 :: rest) gs'.
Proof.
  intros Hpre Hc Hv Hns Hf He Htot. destruct pre as [|g pre]; [done|]. injection Hpre as -> <-.
  pose proof (ch_logs _ _ _ Hc) as Hl. rewrite !Forall_cons in Hl. destruct Hl as (Hg0&Hrest).
  destruct (second_bound g0 pre Hf (lg_used _ _ Hg0)) as [Hb1 Hb2]. pose proof (used_nonneg (ents g0)).
  destruct (zero_step (S fuel) ops g0 (total_used (g0 :: pre)) (cap g0) ns 0 s (lg_nonzero _ _ Hg0)) as (evs&->). cbv zeta.
  set (s1 := Pm _ evs).
  assert (chain_ok (bytes s1) ops (clear g0 :: pre ++ post)) as Hc1.
  { apply (clear_voided ops m0); [done|done|lia|]. destruct (lg_cap _ _ Hg0). apply first_used; [done|lia|apply Hg0|done]. }
  assert (∀ q, ¬ in_logs (g0 :: pre ++ post) q → bytes s1 q = bytes s q) as Hu1.
  { intros q Hq. eapply outside_kept; [|lia|exact Hq]. apply elem_of_cons. by left. }
  destruct pre as [|g1 pre].
  { rewrite (proj2 (Z.eqb_eq _ 0)) by (simpl in *; lia). exists s1, (clear g0 :: post). split; [done|]. split; [done|apply same_clear| |done].
    simpl. constructor; [done|]. destruct He; simpl; by repeat constructor. }
  destruct (filled_cons _ _ _ Hf) as [Hfull Hf1]. apply Z.eqb_eq in Hfull.
  assert (total_used (g0 :: g1 :: pre) - Z.min (total_used (g0 :: g1 :: pre)) (cap g0) = total_used (g1 :: pre)) as ->.
  { pose proof (total_used_nonneg (g1 :: pre)). simpl in *. lia. }
  destruct (Z.eqb_spec (total_used (g1 :: pre)) 0) as [Hz|Hnz].
  - exists s1, (clear g0 :: g1 :: pre ++ post). split; [done|]. split; [done|apply same_clear| |done]. simpl in *.
    constructor; [done|]. constructor; [|done]. apply used_zero. pose proof (total_used_nonneg pre). pose proof (used_nonneg (ents g1)). lia.
  - inversion Hns as [|n0 g1' ns' rest' Hn0 Hns']; subst. cbn [lookup list_lookup Nat.ltb Nat.leb]. rewrite Hn0.
    pose proof (ch_logs _ _ _ Hc1) as Hl1. rewrite <-app_comm_cons, !Forall_cons in Hl1. destruct Hl1 as (_&Hg1&_).
    rewrite (proj2 (Z.eqb_neq _ 0)) by apply (lg_nonzero _ _ Hg1). rewrite (lg_field _ _ Hg1).
    destruct (zero_second fuel (clear g0) g1 pre post (n0 :: ns') s1) as (s'&gs'&Hrun&Hem); [done..|].
    exists s', gs'. split; [exact Hrun|]. destruct Hem as [E1 E2 E3 E4]. split; [done| |done|].
    2: { intros q Hq. rewrite E4, Hu1; [done|done|]. by rewrite <-(same_in_logs _ _ q (same_clear g0 ((g1 :: pre) ++ post))). }
    apply Forall2_cons_inv_l in E2 as (h&gs2&Hh&E2&->). by constructor.
Qed.
End zero.

(** ** Giving logs back *)

Lemma by_offset_zero ops n : 0 < base ops → ulog_by_offset n ops = 0 → n = 0.
Proof.
  intros Hb. unfold ulog_by_offset. destruct (Z.eqb_spec n 0) as [|_]; [done|]. intros H.
  assert (0 ≤ CACHELINE_ALIGN n); [|lia]. unfold CACHELINE_ALIGN, ALIGN_UP. apply Z.land_nonneg. left.
  unfold u64. apply Z.mod_pos_bound. done.
Qed.
Lemma next_zero m ops g gs :
  0 < base ops → Forall (log_ok m) gs → linked m ops (g :: gs) → le64 m (ulog_next_at (addr g)) = 0 ↔ gs = [].
Proof.
  intros Hb Hl [Hk _]. destruct Hl as [|h gs Hh _]; simpl in Hk.
  - split; [done|]. intros _. by eapply by_offset_zero.
  - split; [|done]. intros H0. rewrite H0 in Hk. by destruct (lg_nonzero _ _ Hh).
Qed.

Section chain.
Context (ops : pmem_ops) (Hbase : 0 < base ops).

Lemma past_run fuel g gs acc s :
  Forall (log_ok (bytes s)) (g :: gs) → linked (bytes s) ops (g :: gs) → (length gs < fuel)%nat →
  logs_past fuel (addr g) acc ops s = Ok (acc ++ ((λ g, ulog_next_at (addr g)) <$> removelast (g :: gs))) s.
Proof using Hbase.
  revert g gs acc. induction fuel as [|fuel IH]; intros g gs acc Hl Hk Hf; [lia|]. cbn [logs_past].
  apply Forall_cons in Hl as [Hg Hl]. rewrite (proj2 (Z.eqb_neq _ 0)) by apply (lg_nonzero _ _ Hg).
  rewrite (bind_Ok _ _ _ _ _ (rd64_Ok s _)). pose proof (next_zero _ _ _ _ Hbase Hl Hk) as Hz. destruct gs as [|h gs].
  - rewrite (proj2 Hz) by done. simpl. by rewrite app_nil_r.
  - rewrite (proj2 (Z.eqb_neq _ 0)) by (intros [=]%Hz). destruct Hk as [Hn Hk]. simpl in Hn. rewrite Hn.
    rewrite (IH h gs) by (done || (simpl in Hf; lia)). by rewrite <-app_assoc.
Qed.
Lemma capacity_run fuel g gs a s :
  Forall (log_ok (bytes s)) (g :: gs) → linked (bytes s) ops (g :: gs) → (length gs < fuel)%nat → 0 ≤ a →
  a + total_cap gs < U64 → capacity_from fuel (addr g) a ops s = Ok (a + total_cap gs) s.
Proof using Type.
  revert g gs a. induction fuel as [|fuel IH]; intros g gs a Hl Hk Hf Ha Hb; [lia|]. cbn [capacity_from].
  apply Forall_cons in Hl as [Hg Hl]. destruct Hk as [Hn Hk]. unfold ulog_next.
  erewrite bind_Ok; [|rewrite (bind_Ok _ _ _ _ _ (rd64_Ok s _)); reflexivity]. rewrite Hn. destruct gs as [|h gs]; simpl in *.
  - by rewrite Z.add_0_r.
  - pose proof Hl as Hl'. apply Forall_cons in Hl as [Hh Hl]. rewrite (proj2 (Z.eqb_neq _ 0)) by apply (lg_nonzero _ _ Hh).
    rewrite (bind_Ok _ _ _ _ _ (rd64_Ok s _)), (lg_field _ _ Hh). destruct (lg_cap _ _ Hh).
    pose proof (total_cap_nonneg _ _ Hl). rewrite u64_small by lia. rewrite (IH h gs) by (done || lia). by rewrite Z.add_assoc.
Qed.
Lemma rebuild_run fuel g gs acc s :
  Forall (log_ok (bytes s)) (g :: gs) → linked (bytes s) ops (g :: gs) → (length gs < fuel)%nat →
  ∃ ns, ulog_rebuild_next_vec fuel (addr g) acc ops s = Ok (acc ++ ns) s ∧ offsets ops ns gs.
Proof using Hbase.
  revert g gs acc. induction fuel as [|fuel IH]; intros g gs acc Hl Hk Hf; [lia|]. cbn [ulog_rebuild_next_vec].
  apply Forall_cons in Hl as [Hg Hl]. rewrite (bind_Ok _ _ _ _ _ (rd64_Ok s _)).
  pose proof (next_zero _ _ _ _ Hbase Hl Hk) as Hz. destruct Hk as [Hn Hk]. rewrite Hn. destruct gs as [|h gs]; simpl first_addr.
  - rewrite (proj2 Hz) by done. exists []. rewrite app_nil_r. by split; [|constructor].
  - rewrite (proj2 (Z.eqb_neq (le64 _ _) 0)) by (intros [=]%Hz). pose proof Hl as Hl'. apply Forall_cons in Hl as [Hh Hl].
    rewrite (proj2 (Z.eqb_neq _ 0)) by apply (lg_nonzero _ _ Hh).
    destruct (IH h gs (acc ++ [le64 (bytes s) (ulog_next_at (addr g))])) as (ns&Hrun&Hns); [done|done|simpl in Hf; lia|].
    exists (le64 (bytes s) (ulog_next_at (addr g)) :: ns). cbn [negb first_addr]. rewrite Hrun, <-app_assoc. split; [done|]. by constructor.
Qed.
End chain.

Section finish.
Context {user : Z → Prop} {ops : pmem_ops} {extend : option (Z → M pm Z)} {ulog_free : Z → M pm unit}.
Context {heap : LogHeap user ops extend ulog_free} (logs : nat).

Lemma apart_prefix gs gs' : apart_from user (gs ++ gs') → apart_from user gs.
Proof. intros Ha q Hq (g&Hg&Hin). apply (Ha q Hq). exists g. rewrite elem_of_app. auto. Qed.
Lemma free_run fs g1 l s :
  chain_ok (bytes s) ops (fs ++ g1 :: l) → apart_from user (fs ++ g1 :: l) → heap_ok s (fs ++ g1 :: l) →
  ∃ s', for_each (reverse ((λ g, ulog_next_at (addr g)) <$> removelast (g1 :: l))) ulog_free s = Ok tt s' ∧
    (∀ q, user q → bytes s' q = bytes s q) ∧ chain_ok (bytes s') ops (fs ++ [g1]) ∧ heap_ok s' (fs ++ [g1]).
Proof.
  revert s. induction l as [|g' l IH] using rev_ind; intros s Hc Ha Hh; [by exists s|].
  rewrite app_comm_cons in *. rewrite removelast_last. destruct (exists_last (l := g1 :: l) ltac:(done)) as (fs'&h&E).
  rewrite E in *. rewrite <-app_assoc, app_assoc in Hc, Ha, Hh.
  destruct (heap_free s (fs ++ fs') h g' Hc Ha Hh) as (s1&Hrun&Hu&Hc1&Hh1).
  rewrite <-app_assoc in Hc1, Hh1. destruct (IH s1 Hc1) as (s2&Hrun2&Hu2&Hc2); [|done|].
  { rewrite app_assoc. apply (apart_prefix _ [g']). rewrite <-app_assoc. done. }
  exists s2. split; [|split; [by intros q Hq; rewrite Hu2, Hu|done]].
  rewrite fmap_app, reverse_app. cbn [fmap list_fmap reverse rev_append app for_each].
  rewrite (bind_Ok _ _ _ _ _ Hrun). by rewrite removelast_last in Hrun2.
Qed.

Lemma clobber_run g0 pre post rest ns m0 s :
  0 < base ops → pre ++ post = g0 :: rest → chain_ok m0 ops (g0 :: rest) → voided (addr g0) (g0 :: rest) m0 (bytes s) → apart_from user (g0 :: rest) → heap_ok s (g0 :: rest) →
  offsets ops ns rest → filled pre → Forall empty_log post → total_used pre ≠ 0 → (length (g0 :: rest) < logs)%nat →
  ∃ s' gs', ulog_clobber_data logs (addr g0) (total_used pre) (cap g0) ns ulog_free ops s = Ok tt s' ∧
    (∀ q, user q → bytes s' q = bytes s q) ∧ chain_ok (bytes s') ops gs' ∧ Forall empty_log gs' ∧
    Forall2 same_place (take 2 (g0 :: rest)) gs' ∧ heap_ok s' gs'.
Proof.
  intros Hb Hpre Hc Hv Ha Hh Hns Hf He Htot Hlogs. unfold ulog_clobber_data. simpl in Hlogs.
  pose proof (ch_logs _ _ _ Hc) as Hl. apply Forall_cons in Hl as [Hg0 _].
  rewrite (proj2 (Z.eqb_neq _ 0)) by apply (lg_nonzero _ _ Hg0). cbn [negb assert_]. erewrite (bind_Ok (ret tt)) by reflexivity.
  destruct (zero_run ops (logs - 2) g0 pre post rest ns m0 s) as (s1&gs1&Hrun&[E1 E2 E3 E4]); [done..|].
  replace (S (S (logs - 2))) with logs in Hrun by lia. rewrite (bind_Ok _ _ _ _ _ Hrun), (bind_Ok _ _ _ _ _ (rd64_Ok s1 _)).
  assert (∀ q, user q → bytes s1 q = bytes s q) as Hu1 by (intros q Hq; by apply E4, Ha).
  assert (heap_ok s1 gs1) as Hheap1 by (eapply heap_agree; [exact Hh|done|auto]).
  pose proof (Forall2_length _ _ _ E2) as Hlen. apply Forall2_cons_inv_l in E2 as (h0&gs2&Hh0&E2&->).
  pose proof (ch_linked _ _ _ E1) as [Hk _]. destruct Hh0 as [Ha0 Hc0]. rewrite <-Ha0 in Hk. rewrite Hk.
  destruct E2 as [|g1 h1 rest gs2 Hh1 E2]; simpl first_addr.
  - exists s1, [h0]. split; [done|]. split; [done|]. split; [done|]. split; [done|]. split; [by constructor|done].
  - pose proof (ch_logs _ _ _ E1) as Hl1. apply Forall_cons in Hl1 as [_ Hl1].
    rewrite (proj2 (Z.eqb_neq _ 0)) by apply (lg_nonzero _ _ (Forall_inv Hl1)).
    rewrite (bind_Ok _ _ _ _ _ (past_run ops Hb logs h1 gs2 [] s1 Hl1 (proj2 (ch_linked _ _ _ E1)) ltac:(simpl in *; lia))).
    destruct (free_run [h0] h1 gs2 s1 E1) as (s2&Hrun2&Hu2&Hc2&Hh2); [|done|].
    { intros q Hq Hin. apply (Ha q Hq). apply (same_in_logs (g0 :: g1 :: rest) (h0 :: h1 :: gs2)); [|done]. constructor; [done|]. by constructor. }
    exists s2, [h0; h1]. split; [exact Hrun2|]. split; [by intros q Hq; rewrite Hu2, Hu1|]. split; [done|]. split; [done|]. split; [|done].
    constructor; [done|]. constructor; [done|constructor].
Qed.

(** ** The life of an operation *)

(** Between operations: every log is empty. *)
Definition ready s c gs : Prop := undo_ok s (reset c) [] gs ∧ in_progress c = false.
Lemma start_Ok s c gs :
  ready s c gs → operation_start (s, c) = Ok tt (s, set_progress true (reset c)) ∧
    undo_ok s (set_progress true (reset c)) [] gs.
Proof.
  intros [H Hp]. split.
  - unfold operation_start, operation_init. rewrite (bind_Ok _ _ _ _ _ (update_Ok _ s c)), (bind_Ok _ _ _ _ _ (ctx_Ok _ s _)).
    cbn [reset set_total set_curr set_merge set_log in_progress]. by rewrite Hp.
  - destruct H. split; done.
Qed.
Lemma take_cap m k gs : Forall (log_ok m) gs → total_cap (take k gs) ≤ total_cap gs.
Proof.
  intros Hl. revert k. induction Hl as [|g gs Hg Hl IH]; intros k; destruct k; simpl; try lia.
  - pose proof (total_cap_nonneg _ _ Hl). destruct (lg_cap _ _ Hg). lia.
  - specialize (IH k). lia.
Qed.
(** The context after an operation whose logs have become [gs]. *)
Lemma ready_intro s s' c pre post gs cap' ns :
  undo_ok s c pre post → chain_ok (bytes s') (p_ops c) gs → Forall empty_log gs →
  (∃ k, Forall2 same_place (take (S k) (pre ++ post)) gs) → offsets (p_ops c) ns (tail gs) → 0 ≤ cap' ≤ total_cap gs → heap_ok s' gs →
  ready s' (set_space cap' ns (set_progress false c)) gs.
Proof.
  intros H Hc He (k&Hs) Hns Hcap Hh'. destruct H. split; [|done]. destruct (pre ++ post) as [|g0 rest] eqn:E; [done|].
  pose proof (take_cap _ (S k) _ (ch_logs _ _ _ un_chain)) as Hle. rewrite (same_cap _ _ Hs) in Hle.
  assert (∀ q, in_logs gs q → in_logs (g0 :: rest) q) as Hin.
  { intros q Hq. apply (same_in_logs _ _ _ Hs) in Hq as (g&Hg&Hq). exists g. split; [|done].
    rewrite <-(take_drop (S k) (g0 :: rest)). apply elem_of_app. by left. }
  simpl take in Hs. apply Forall2_cons_inv_l in Hs as (h&gs'&[Hh1 Hh2]&Hs&->). simpl in un_base. injection un_base as Hbase.
  split; cbn [reset set_space set_progress set_total set_curr set_merge set_log type p_ops next ulog ulog_base_nbytes ulog_capacity
    total_logged ulog_curr ulog_curr_offset ulog_curr_capacity pshadow_ops transient_ops log_capacity log_offset app]; try done.
  - simpl in *. congruence.
  - simpl. congruence.
  - by intros fs g Hg%app_cons_not_nil.
  - intros q Hq Hin'. apply (un_apart q Hq). by apply Hin.
  - lia.
Qed.
Lemma ended_empty pre : total_used pre = 0 → Forall empty_log pre.
Proof.
  induction pre as [|g pre IH]; simpl; [constructor|]. intros H. pose proof (used_nonneg (ents g)).
  pose proof (total_used_nonneg pre). constructor; [apply used_zero; lia|]. apply IH. lia.
Qed.
(** [s0] is the state before the first entry was invalidated. *)
Lemma finish_voided (entries : nat) s0 s c pre post :
  undo_ok s0 c pre post → heap_ok s (pre ++ post) →
  (∀ q, in_logs (pre ++ post) q → bytes s q = bytes s0 q ∨ total_used pre ≠ 0 ∧ ulog_data (ulog c) ≤ q < ulog_data (ulog c) + 8) →
  in_progress c = true → (length (pre ++ post) < logs)%nat →
  ∃ s' c' gs', operation_finish ulog_free logs entries (s, c) = Ok tt (s', c') ∧ ready s' c' gs' ∧
    p_ops c' = p_ops c ∧ (∀ q, user q → bytes s' q = bytes s q).
Proof.
  intros H Hh Hv Hp Hlogs. pose proof H as [Hty Hc Hfirst Hne Hbase Hnext Hcap Htot Hf He _ Ha Hsm Hpool _ _ Hops _]. rewrite Hops in *.
  unfold operation_finish. rewrite (bind_Ok _ _ _ _ _ (ctx_Ok _ s c)), Hp. cbn [assert_].
  erewrite (bind_Ok (ret tt)) by reflexivity. rewrite (bind_Ok _ _ _ _ _ (update_Ok _ s c)), (bind_Ok _ _ _ _ _ (ctx_Ok id s _)).
  unfold id. cbn [set_progress type total_logged pshadow_ops ulog ulog_base_nbytes next p_ops].
  rewrite Hty, Hops, bool_decide_false by done. rewrite bool_decide_true by done. cbn [andb]. rewrite Htot.
  destruct (Z.eqb_spec (total_used pre) 0) as [Hz|Hnz]; cbn [negb when].
  - eexists s, _, (pre ++ post). split; [reflexivity|]. split; [|done].
    apply (ready_intro s0 s c pre post (pre ++ post) (ulog_capacity c) (next c)) in H; [|rewrite Hops|..|by rewrite Hops|done|done].
    + by destruct c.
    + eapply chain_ok_agree, Hc. intros q Hq. destruct (Hv q Hq) as [?|[? _]]; done.
    + apply Forall_app. split; [by apply ended_empty|done].
    + exists (length (pre ++ post)). rewrite take_ge by lia. by apply Forall_Forall2_diag, Forall_true.
  - destruct (pre ++ post) as [|g0 rest] eqn:E; [done|]. simpl in Hfirst, Hbase, Hnext. injection Hbase as Hbase.
    destruct (clobber_run g0 pre post rest (next c) (bytes s0) s) as (s1&gs&Hrun&Hu&Hc1&He1&Hs1&Hheap1); [done|done|done| |done..|].
    { intros q Hq. rewrite Hfirst. destruct (Hv q Hq) as [?|[_ ?]]; auto. }
    rewrite <-Hfirst, <-Hbase. rewrite (bind_Ok _ _ _ _ _ (on_pm_Ok _ _ _ _ _ Hrun)).
    pose proof Hs1 as Hs2. simpl take in Hs2. apply Forall2_cons_inv_l in Hs2 as (h&gs'&[Hh1 Hh2]&_&->).
    pose proof (Forall2_length _ _ _ Hs1) as Hlen. rewrite length_take in Hlen. cbn [length] in Hlen, Hlogs.
    assert (total_cap (h :: gs') < MAX_LOGS) as Hsm1.
    { rewrite <-(same_cap _ _ Hs1). pose proof (take_cap _ 2 _ (ch_logs _ _ _ Hc)). lia. }
    pose proof (ch_logs _ _ _ Hc1) as Hl1. destruct (lg_cap _ _ (Forall_inv Hl1)) as [Hhc _].
    rewrite Hh1, Hh2. simpl in Hsm1.
    unfold Ulog.ulog_capacity. rewrite (bind_Ok _ _ _ _ _ (on_pm_Ok _ _ _ _ _
      (capacity_run ops logs h gs' (cap h) s1 Hl1 (ch_linked _ _ _ Hc1) ltac:(lia) ltac:(lia) ltac:(unfold MAX_LOGS, U64 in *; lia)))).
    destruct (rebuild_run ops Hpool logs h gs' [] s1 Hl1 (ch_linked _ _ _ Hc1) ltac:(lia)) as (ns&Hreb&Hns).
    rewrite (bind_Ok _ _ _ _ _ (on_pm_Ok _ _ _ _ _ Hreb)).
    eexists s1, _, (h :: gs'). split; [reflexivity|]. split; [|done].
    eapply ready_intro; [exact H|by rewrite Hops|done| |by rewrite Hops| |done].
    + exists 1%nat. by rewrite E.
    + pose proof (total_cap_nonneg _ _ Hl1). simpl in *. lia.
Qed.
Lemma finish_Ok (entries : nat) s c pre post :
  undo_ok s c pre post → in_progress c = true → (length (pre ++ post) < logs)%nat →
  ∃ s' c' gs', operation_finish ulog_free logs entries (s, c) = Ok tt (s', c') ∧ ready s' c' gs' ∧
    p_ops c' = p_ops c ∧ (∀ q, user q → bytes s' q = bytes s q).
Proof. intros H. apply (finish_voided entries s s c pre post H (un_heap _ _ _ _ H)). auto. Qed.
End finish.
