(* ===== verification/UndoRecovery.v ===== *)
(** * Undo logs: recovery

    What a context that is opened on the logs of an interrupted operation does:
    [operation_new], then [operation_resume], [operation_process] and
    [operation_finish]. *)
From stdpp Require Import base list strings sets.
From S2P Require Import Prelude Pmem PmemFacts Ulog UlogFacts LogChain Memops MemopsFacts UndoFacts UndoEnd.
Open Scope Z_scope.
#[local] Set Default Proof Using "Type".

Implicit Types (m : mem) (s : pm) (c : operation_context) (x : entry) (xs : list entry) (g : log) (gs : list log).

(** A context on the logs [gs], whatever is in them, before an operation. *)
Record opened s c gs : Prop := {
  op_type : type c = LOG_TYPE_UNDO;
  op_chain : chain_ok (bytes s) (p_ops c) gs;
  op_first : first_addr gs = ulog c;
  op_base : cap <$> head gs = Some (ulog_base_nbytes c);
  op_next : offsets (p_ops c) (next c) (tail gs);
  op_capacity : ulog_capacity c = total_cap gs;
  op_small : total_cap gs < MAX_LOGS;
  op_pool : 0 < base (p_ops c);
  op_shadow : log_capacity (pshadow_ops c) `mod` 64 = 0;
  op_idle : in_progress c = false;
}.

(** ** Opening *)

Section new.
Context (Zalloc : Z → M pm Z) (kept : Z → Prop) (logs : nat).
(** A new block is elsewhere. *)
Definition zalloc_law : Prop := ∀ n s, ∃ a s', Zalloc n s = Ok a s' ∧ (∀ q, kept q → bytes s' q = bytes s q) ∧
  (a ≠ 0 → ∀ q, a ≤ q < a + n → ¬ kept q).

Lemma put_kept a n b l s :
  (∀ q, a ≤ q < a + n → ¬ kept q) → a ≤ b → b + Z.of_nat (length l) ≤ a + n →
  ∃ s', put b l false s = Ok tt s' ∧ ∀ q, kept q → bytes s' q = bytes s q.
Proof.
  intros Hk Hb1 Hb2. eexists. split; [reflexivity|]. intros q Hq. cbn [bytes]. apply store_out.
  destruct (decide (a ≤ q < a + n)) as [Hin|]; [by destruct (Hk q Hin)|lia].
Qed.
Lemma transient_init_Ok s :
  zalloc_law → ∃ o s', operation_log_transient_init Zalloc s = Ok o s' ∧ ∀ q, kept q → bytes s' q = bytes s q.
Proof.
  intros Hz. unfold operation_log_transient_init. destruct (Hz (SIZEOF_ULOG ULOG_BASE_SIZE) s) as (a&s1&Hrun&Hk&Hblk).
  rewrite (bind_Ok _ _ _ _ _ Hrun). destruct (Z.eqb_spec a 0) as [->|Hne]; [by exists None, s1|].
  destruct (put_kept a (SIZEOF_ULOG ULOG_BASE_SIZE) (ulog_capacity_at a) (to_le 8 ULOG_BASE_SIZE) s1 (Hblk Hne)) as (s2&Hput&Hk2).
  { unfold ulog_capacity_at. lia. }
  { rewrite to_le_length. unfold ulog_capacity_at, SIZEOF_ULOG, sizeof_ulog, ULOG_BASE_SIZE. lia. }
  unfold wr64. rewrite (bind_Ok _ _ _ _ _ Hput). eexists _, s2. split; [reflexivity|]. intros q Hq. by rewrite Hk2, Hk.
Qed.
Lemma persistent_init_Ok base_nbytes s :
  zalloc_law → ∃ o s', operation_log_persistent_init Zalloc base_nbytes s = Ok o s' ∧ (∀ q, kept q → bytes s' q = bytes s q) ∧
    ∀ l, o = Some l → log_capacity l = ULOG_BASE_SIZE.
Proof.
  intros Hz. unfold operation_log_persistent_init. destruct (Hz (SIZEOF_ULOG ULOG_BASE_SIZE) s) as (a&s1&Hrun&Hk&Hblk).
  rewrite (bind_Ok _ _ _ _ _ Hrun). destruct (Z.eqb_spec a 0) as [->|Hne]; [by exists None, s1|].
  destruct (put_kept a (SIZEOF_ULOG ULOG_BASE_SIZE) (ulog_capacity_at a) (to_le 8 base_nbytes) s1 (Hblk Hne)) as (s2&Hput&Hk2).
  { unfold ulog_capacity_at. lia. }
  { rewrite to_le_length. unfold ulog_capacity_at, SIZEOF_ULOG, sizeof_ulog, ULOG_BASE_SIZE. lia. }
  unfold wr64. rewrite (bind_Ok _ _ _ _ _ Hput).
  destruct (put_kept a (SIZEOF_ULOG ULOG_BASE_SIZE) (ulog_unused_at a) (replicate 40 0) s2 (Hblk Hne)) as (s3&Hput3&Hk3).
  { unfold ulog_unused_at. lia. }
  { rewrite length_replicate. unfold ulog_unused_at, SIZEOF_ULOG, sizeof_ulog, ULOG_BASE_SIZE. lia. }
  rewrite (bind_Ok _ _ _ _ _ Hput3). eexists _, s3. split; [reflexivity|]. split; [|by intros l [= <-]].
  intros q Hq. by rewrite Hk3, Hk2, Hk.
Qed.
(** A context opened on a chain knows all its logs. *)
Lemma new_Ok sizeof_ctx g0 gs ops s :
  zalloc_law → (∀ q, in_logs (g0 :: gs) q → kept q) → chain_ok (bytes s) ops (g0 :: gs) → 0 < base ops →
  (length gs < logs)%nat → total_cap (g0 :: gs) < MAX_LOGS →
  ∃ o s', operation_new Zalloc logs sizeof_ctx (addr g0) (cap g0) ops LOG_TYPE_UNDO s = Ok o s' ∧
    (∀ q, kept q → bytes s' q = bytes s q) ∧ ∀ c, o = Some c → opened s' c (g0 :: gs) ∧ p_ops c = ops.
Proof.
  intros Hz Hin Hc Hb Hlogs Hsm. unfold operation_new. destruct (Hz sizeof_ctx s) as (a&s1&Hrun&Hk1&_).
  rewrite (bind_Ok _ _ _ _ _ Hrun). destruct (Z.eqb_spec a 0) as [->|Hne]; [by exists None, s1|].
  assert (chain_ok (bytes s1) ops (g0 :: gs)) as Hc1 by (eapply chain_ok_agree, Hc; auto).
  pose proof (ch_logs _ _ _ Hc1) as Hl. pose proof (ch_linked _ _ _ Hc1) as Hlk. destruct (lg_cap _ _ (Forall_inv Hl)) as [Hcap _].
  pose proof (total_cap_nonneg _ _ (Forall_inv_tail Hl)). simpl in Hsm. unfold Ulog.ulog_capacity.
  rewrite (bind_Ok _ _ _ _ _ (capacity_run ops logs g0 gs (cap g0) s1 Hl Hlk Hlogs ltac:(lia) ltac:(unfold MAX_LOGS, U64 in *; lia))).
  destruct (rebuild_run ops Hb logs g0 gs [] s1 Hl Hlk Hlogs) as (ns&Hreb&Hns). rewrite (bind_Ok _ _ _ _ _ Hreb).
  destruct (transient_init_Ok s1 Hz) as (t&s2&Ht&Hk2). rewrite (bind_Ok _ _ _ _ _ Ht).
  destruct t as [t|]; [|exists None, s2; split; [done|]; split; [|done]; intros q Hq; by rewrite Hk2, Hk1].
  destruct (persistent_init_Ok (cap g0) s2 Hz) as (p&s3&Hp&Hk3&Hp0). rewrite (bind_Ok _ _ _ _ _ Hp).
  assert (∀ q, kept q → bytes s3 q = bytes s q) as Hk by (intros q Hq; by rewrite Hk3, Hk2, Hk1).
  destruct p as [p|]; [|by exists None, s3]. eexists _, s3. split; [reflexivity|]. split; [done|]. intros c [= <-].
  split; [|done]. split; try done. { eapply chain_ok_agree, Hc. auto. } cbn [pshadow_ops]. by rewrite (Hp0 p eq_refl).
Qed.
End new.

(** ** Resuming *)

Lemma nbytes_from fuel g xs ys s :
  log_ok (bytes s) g → ents g = xs ++ ys → (length ys < fuel)%nat →
  base_nbytes_from fuel (addr g) (used xs) s = Ok (used (ents g)) s.
Proof.
  intros Hg. revert fuel xs. induction ys as [|y ys IH]; intros fuel xs E Hf; (destruct fuel as [|fuel]; [simpl in Hf; lia|]);
    cbn [base_nbytes_from]; rewrite (bind_Ok _ _ _ _ _ (rd64_Ok s _)), (lg_field _ _ Hg).
  - rewrite app_nil_r in E. rewrite E. destruct (Z.ltb_spec (used xs) (cap g)) as [Hlt|]; [|done].
    pose proof (log_end _ _ Hg) as Hend. unfold free_at in Hend. rewrite E in Hend.
    by rewrite (bind_Ok _ _ _ _ _ (zero_invalid s _ (Hend Hlt))).
  - destruct (log_entry_at _ _ _ _ _ Hg E) as (Hat&Hok&Hroom). pose proof (room_pos y).
    rewrite (proj2 (Z.ltb_lt _ _)) by lia. rewrite (bind_Ok _ _ _ _ _ (entry_valid_Ok s _ _ _ Hat Hok)). cbn [negb].
    rewrite (bind_Ok _ _ _ _ _ (entry_size_Ok s _ _ _ Hat Hok)). fold (room y).
    assert (u64 (used xs + room y) = used (xs ++ [y])) as ->.
    { rewrite used_app, used_cons, used_nil. destruct (lg_cap _ _ Hg). pose proof (used_nonneg xs). rewrite u64_small by lia. lia. }
    apply IH; [by rewrite <-app_assoc|]. simpl in Hf. lia.
Qed.
Lemma resume_Ok (entries : nat) s c g0 rest :
  opened s c (g0 :: rest) → (length (ents g0) < entries)%nat →
  operation_resume entries (s, c) = Ok tt (s, set_total (used (ents g0)) (set_progress true (reset c))).
Proof.
  intros [Hty Hc Hfirst _ _ _ _ _ _ Hidle] Hf. unfold operation_resume, operation_init.
  rewrite (bind_Ok _ _ _ _ _ (update_Ok _ s c)), (bind_Ok _ _ _ _ _ (ctx_Ok _ s _)).
  cbn [reset set_total set_curr set_merge set_log in_progress]. rewrite Hidle. cbn [negb assert_].
  erewrite (bind_Ok (ret tt)) by reflexivity. rewrite (bind_Ok _ _ _ _ _ (update_Ok _ s _)), (bind_Ok _ _ _ _ _ (ctx_Ok _ s _)).
  pose proof (Forall_inv (ch_logs _ _ _ Hc)) as Hg. pose proof (nbytes_from entries g0 [] (ents g0) s Hg eq_refl Hf) as Hn.
  rewrite used_nil in Hn. simpl in Hfirst.
  cbn [reset set_progress set_total set_curr set_merge set_log ulog]. unfold Ulog.ulog_base_nbytes. rewrite <-Hfirst.
  rewrite (bind_Ok _ _ _ _ _ (on_pm_Ok _ _ _ _ _ Hn)). reflexivity.
Qed.

(** A log whose first entry is not valid holds nothing to recover. *)
Lemma recover_invalid ulog_free (logs entries : nat) s c :
  type c = LOG_TYPE_UNDO → in_progress c = false → ulog c ≠ 0 → log_capacity (pshadow_ops c) `mod` 64 = 0 →
  0 < le64 (bytes s) (ulog_capacity_at (ulog c)) → le64 (bytes s) (ulog_data (ulog c)) = 0 →
  (0 < logs)%nat → (0 < entries)%nat →
  ∃ c', (operation_resume entries ;; operation_process logs entries ;; operation_finish ulog_free logs entries) (s, c) = Ok tt (s, c').
Proof.
  intros Hty Hidle Hu Hsh Hcap H0 Hlogs Hents. destruct logs as [|logs]; [lia|]. destruct entries as [|entries]; [lia|].
  assert (∀ A (k : bool → M pm A), (let! valid := ulog_entry_valid (ulog_data (ulog c) + 0) in k valid) s = k false s) as Hinv.
  { intros A k. rewrite Z.add_0_r. by rewrite (bind_Ok _ _ _ _ _ (zero_invalid s _ H0)). }
  assert (base_nbytes_from (S entries) (ulog c) 0 s = Ok 0 s) as Hnb.
  { cbn [base_nbytes_from]. rewrite (bind_Ok _ _ _ _ _ (rd64_Ok s _)), (proj2 (Z.ltb_lt _ _)) by done. by rewrite Hinv. }
  assert (∀ cb po, foreach_log (S logs) (S entries) (ulog c) cb 0 po s = Ok 0 s) as Hwalk.
  { intros cb po. cbn [foreach_log log_entries]. rewrite (proj2 (Z.eqb_neq _ 0)) by done.
    erewrite bind_Ok; [|rewrite (bind_Ok _ _ _ _ _ (rd64_Ok s _)), (proj2 (Z.ltb_lt _ _)) by done; rewrite Hinv; reflexivity]. done. }
  set (c1 := set_total 0 (set_progress true (reset c))).
  assert (operation_resume (S entries) (s, c) = Ok tt (s, c1)) as Hres.
  { unfold operation_resume, operation_init. rewrite (bind_Ok _ _ _ _ _ (update_Ok _ s c)), (bind_Ok _ _ _ _ _ (ctx_Ok _ s _)).
    cbn [reset set_total set_curr set_merge set_log in_progress]. rewrite Hidle. cbn [negb assert_].
    erewrite (bind_Ok (ret tt)) by reflexivity. rewrite (bind_Ok _ _ _ _ _ (update_Ok _ s _)), (bind_Ok _ _ _ _ _ (ctx_Ok _ s _)).
    by rewrite (bind_Ok _ _ _ _ _ (on_pm_Ok _ _ _ _ _ Hnb)). }
  assert (type c1 = LOG_TYPE_UNDO) as Hty1 by exact Hty.
  assert (operation_process_persistent_undo (S logs) (S entries) (s, c1) = Ok tt (s, c1)) as Hundo.
  { unfold operation_process_persistent_undo. rewrite (bind_Ok _ _ _ _ _ (ctx_Ok id s _)). unfold id.
    change (log_capacity (pshadow_ops c1)) with (log_capacity (pshadow_ops c)). change CACHELINE_SIZE with 64. rewrite Hsh.
    cbn [Z.eqb assert_]. erewrite (bind_Ok (ret tt)) by reflexivity. apply on_pm_Ok.
    unfold ulog_process, ulog_check, ulog_foreach_entry. erewrite bind_Ok by (rewrite (bind_Ok _ _ _ _ _ (Hwalk _ _)); reflexivity).
    by rewrite (bind_Ok _ _ _ _ _ (Hwalk _ _)). }
  assert (operation_process (S logs) (S entries) (s, c1) = Ok tt (s, c1)) as Hproc.
  { unfold operation_process, process_single. erewrite bind_Ok.
    2: { rewrite (bind_Ok _ _ _ _ _ (ctx_Ok id s _)). unfold id. rewrite Hty1. reflexivity. }
    rewrite (bind_Ok _ _ _ _ _ (ctx_Ok id s _)). unfold id. rewrite Hty1. cbn [bool_decide decide].
    rewrite bool_decide_true by done. rewrite (bind_Ok _ _ _ _ _ Hundo). reflexivity. }
  rewrite (bind_Ok _ _ _ _ _ Hres), (bind_Ok _ _ _ _ _ Hproc). exists (set_progress false c1).
  unfold operation_finish. rewrite (bind_Ok _ _ _ _ _ (ctx_Ok _ s _)). erewrite (bind_Ok (assert_ _ _)) by reflexivity.
  rewrite (bind_Ok _ _ _ _ _ (update_Ok _ s _)), (bind_Ok _ _ _ _ _ (ctx_Ok id s _)). unfold id.
  change (type (set_progress false c1)) with (type c1). by rewrite Hty1.
Qed.

Section recovery.
Context {user : Z → Prop} {ops : pmem_ops} {extend : option (Z → M pm Z)} {ulog_free : Z → M pm unit}.
Context {heap : LogHeap user ops extend ulog_free} (logs entries : nat).

(** Only the bytes of the base log count as logged. *)
Lemma resumed_clobber g0 rest ns s :
  0 < base ops → chain_ok (bytes s) ops (g0 :: rest) → apart_from user (g0 :: rest) → heap_ok s (g0 :: rest) →
  (length (g0 :: rest) < logs)%nat →
  ∃ s', ulog_clobber_data logs (addr g0) (used (ents g0)) (cap g0) ns ulog_free ops s = Ok tt s' ∧
    (∀ q, user q → bytes s' q = bytes s q) ∧ chain_ok (bytes s') ops (clear g0 :: take 1 rest) ∧
    heap_ok s' (clear g0 :: take 1 rest).
Proof.
  intros Hb Hc Ha Hh Hlogs. unfold ulog_clobber_data. pose proof (Forall_inv (ch_logs _ _ _ Hc)) as Hg0.
  rewrite (proj2 (Z.eqb_neq _ 0)) by apply (lg_nonzero _ _ Hg0). cbn [negb assert_]. erewrite (bind_Ok (ret tt)) by reflexivity.
  pose proof (used_nonneg (ents g0)) as Hu0. pose proof (lg_used _ _ Hg0) as Hu1.
  destruct (zero_step (logs - 1) ops g0 (used (ents g0)) (cap g0) ns 0 s (lg_nonzero _ _ Hg0)) as (evs&Hrun).
  replace (S (logs - 1)) with logs in Hrun by (simpl in Hlogs; lia). rewrite Z.min_l, Z.sub_diag in Hrun by done.
  cbv zeta in Hrun. rewrite Z.eqb_refl in Hrun. rewrite (bind_Ok _ _ _ _ _ Hrun), (bind_Ok _ _ _ _ _ (rd64_Ok _ _)).
  set (s1 := Pm _ evs). assert (chain_ok (bytes s1) ops (clear g0 :: rest)) as Hc1.
  { apply (clear_log ops (bytes s) g0 [] rest); [done|]. lia. }
  assert (∀ q, ¬ in_logs (g0 :: rest) q → bytes s1 q = bytes s q) as Hk.
  { intros q Hq. eapply outside_kept; [|lia|exact Hq]. apply elem_of_cons. by left. }
  assert (∀ q, user q → bytes s1 q = bytes s q) as Hk1 by (intros q Hq; by apply Hk, Ha).
  assert (heap_ok s1 (clear g0 :: rest)) as Hh1 by (eapply heap_agree; [exact Hh|apply same_clear|auto]).
  pose proof (ch_linked _ _ _ Hc1) as [Hlk Hlk']. cbn [clear addr] in Hlk. rewrite Hlk. pose proof (ch_logs _ _ _ Hc1) as Hl.
  apply Forall_cons in Hl as [_ Hl]. destruct rest as [|g1 rest]; [by exists s1|]. simpl first_addr.
  rewrite (proj2 (Z.eqb_neq _ 0)) by apply (lg_nonzero _ _ (Forall_inv Hl)).
  rewrite (bind_Ok _ _ _ _ _ (past_run ops Hb logs g1 rest [] s1 Hl Hlk' ltac:(simpl in Hlogs; lia))).
  destruct (free_run [clear g0] g1 rest s1 Hc1) as (s2&Hrun2&Hu2&Hc2&Hh2); [|done|].
  { intros q Hq Hin. apply (Ha q Hq). by apply (same_in_logs _ _ q (same_clear g0 (g1 :: rest))). }
  exists s2. split; [exact Hrun2|]. split; [by intros q Hq; rewrite Hu2, Hk1|done].
Qed.
Lemma resumed_finish s c g0 rest :
  opened s c (g0 :: rest) → apart_from user (g0 :: rest) → heap_ok s (g0 :: rest) → p_ops c = ops → ents g0 ≠ [] →
  (length (g0 :: rest) < logs)%nat →
  ∃ s' c', operation_finish ulog_free logs entries (s, set_total (used (ents g0)) (set_progress true (reset c))) = Ok tt (s', c') ∧
    opened s' c' (clear g0 :: take 1 rest) ∧ p_ops c' = ops ∧ heap_ok s' (clear g0 :: take 1 rest) ∧ (∀ q, user q → bytes s' q = bytes s q).
Proof.
  intros [Hty Hc Hfirst Hbase Hnext Hcap Hsm Hpool Hsh Hidle] Ha Hh Hops Hents Hlogs. rewrite Hops in *.
  unfold operation_finish. rewrite (bind_Ok _ _ _ _ _ (ctx_Ok _ s _)).
  cbn [in_progress set_progress set_total assert_]. erewrite (bind_Ok (ret tt)) by reflexivity.
  rewrite (bind_Ok _ _ _ _ _ (update_Ok _ s _)), (bind_Ok _ _ _ _ _ (ctx_Ok id s _)). unfold id.
  cbn [set_progress set_total reset set_curr set_merge set_log type total_logged pshadow_ops ulog ulog_base_nbytes next p_ops log_offset].
  rewrite Hty, Hops, bool_decide_false, bool_decide_true by done. cbn [andb].
  assert (0 < used (ents g0)) as Hused.
  { destruct (ents g0) as [|x xs]; [done|]. rewrite used_cons. pose proof (room_pos x). pose proof (used_nonneg xs). lia. }
  rewrite (proj2 (Z.eqb_neq _ 0)) by lia. cbn [negb when]. simpl in Hfirst, Hbase, Hnext. injection Hbase as Hbase.
  rewrite <-Hfirst, <-Hbase.
  destruct (resumed_clobber g0 rest (next c) s) as (s1&Hrun&Hu&Hc1&Hh1); [done..|].
  rewrite (bind_Ok _ _ _ _ _ (on_pm_Ok _ _ _ _ _ Hrun)). pose proof (ch_logs _ _ _ Hc1) as Hl1.
  assert (total_cap (clear g0 :: take 1 rest) ≤ total_cap (g0 :: rest)) as Hle.
  { apply (take_cap (bytes s) 2 (g0 :: rest)). apply Hc. }
  destruct (lg_cap _ _ (Forall_inv Hl1)) as [Hhc _]. cbn [clear cap] in Hhc. pose proof (total_cap_nonneg _ _ (Forall_inv_tail Hl1)).
  assert (length (take 1 rest) < logs)%nat as Hlen by (rewrite length_take; simpl in Hlogs; lia).
  unfold Ulog.ulog_capacity. change (addr g0) with (addr (clear g0)).
  cbn [total_cap foldr clear cap] in Hle. fold (total_cap (take 1 rest)) in Hle. fold (total_cap rest) in Hle. cbn [total_cap foldr] in Hsm.
  rewrite (bind_Ok _ _ _ _ _ (on_pm_Ok _ _ _ _ _
    (capacity_run ops logs (clear g0) (take 1 rest) (cap g0) s1 Hl1 (ch_linked _ _ _ Hc1) Hlen ltac:(lia)
      ltac:(unfold MAX_LOGS, U64, total_cap in *; lia)))).
  destruct (rebuild_run ops Hpool logs (clear g0) (take 1 rest) [] s1 Hl1 (ch_linked _ _ _ Hc1) Hlen) as (ns&Hreb&Hns).
  rewrite (bind_Ok _ _ _ _ _ (on_pm_Ok _ _ _ _ _ Hreb)).
  eexists s1, _. split; [reflexivity|]. split; [|done].
  split; cbn [snd p_ops set_space set_progress set_total reset set_curr set_merge set_log]; rewrite ?Hops; try done.
  - cbn. congruence.
  - change (cap g0 + total_cap (take 1 rest) < MAX_LOGS). unfold total_cap in *. lia.
Qed.
Lemma opened_agree s s' c gs : opened s c gs → (∀ q, in_logs gs q → bytes s' q = bytes s q) → opened s' c gs.
Proof. intros H Hs. destruct H. split; try done. by eapply chain_ok_agree. Qed.

(** Recovery restores what the logs hold.  It empties the base log; the first
    extension keeps its entries, and the others are given back. *)
Lemma recover_Ok s c g0 rest m0 :
  opened s c (g0 :: rest) → apart_from user (g0 :: rest) → heap_ok s (g0 :: rest) → p_ops c = ops → ents g0 ≠ [] →
  Forall (holds (base ops) m0) (chain_entries (g0 :: rest)) →
  (∀ q, covered_by (base ops) (chain_entries (g0 :: rest)) q → user q) →
  (length (g0 :: rest) < logs)%nat → Forall (λ g, (length (ents g) < entries)%nat) (g0 :: rest) →
  ∃ s' c', (operation_resume entries ;; operation_process logs entries ;; operation_finish ulog_free logs entries) (s, c)
           = Ok tt (s', c') ∧
    opened s' c' (clear g0 :: take 1 rest) ∧ p_ops c' = ops ∧ heap_ok s' (clear g0 :: take 1 rest) ∧
    (∀ q, covered_by (base ops) (chain_entries (g0 :: rest)) q → bytes s' q = m0 q) ∧
    (∀ q, user q → ¬ covered_by (base ops) (chain_entries (g0 :: rest)) q → bytes s' q = bytes s q).
Proof.
  intros H Ha Hh Hops Hne Hold Huser Hlogs Hents. rewrite (bind_Ok _ _ _ _ _ (resume_Ok entries s c g0 rest H (Forall_inv Hents))).
  set (c1 := set_total _ _). assert (p_ops c1 = ops) as Hops1 by done. rewrite <-Hops1 in Hold, Huser.
  destruct (process_run user logs entries s c1 (g0 :: rest) m0) as (s1&Hrun&Hlg&Hcov&Hunc);
    [apply H|apply H|done|by rewrite Hops1, <-Hops; apply H|apply H|done..|].
  rewrite Hops1 in Hcov, Hunc, Huser. rewrite (bind_Ok _ _ _ _ _ Hrun).
  destruct (resumed_finish s1 c g0 rest) as (s2&c2&Hfin&Hop&Hops2&Hh2&Hu); [by eapply opened_agree|done| |done..|].
  { eapply heap_agree; [exact Hh|by apply Forall_Forall2_diag, Forall_true|]. intros q Hq _. apply Hunc. auto. }
  exists s2, c2. split; [exact Hfin|]. split; [done|]. split; [done|]. split; [done|]. split.
  - intros q Hq. rewrite Hu by auto. auto.
  - intros q Hq Hn. rewrite Hu by auto. auto.
Qed.
(** The same when nothing was logged. *)
Lemma recover_any s c gs m0 :
  opened s c gs → apart_from user gs → heap_ok s gs → p_ops c = ops →
  Forall (holds (base ops) m0) (chain_entries gs) → (∀ q, covered_by (base ops) (chain_entries gs) q → user q) →
  (length gs < logs)%nat → Forall (λ g, (length (ents g) < entries)%nat) gs →
  ∃ s' c', (operation_resume entries ;; operation_process logs entries ;; operation_finish ulog_free logs entries) (s, c)
           = Ok tt (s', c') ∧
    (∀ q, covered_by (base ops) (chain_entries gs) q → bytes s' q = m0 q) ∧
    (∀ q, user q → ¬ covered_by (base ops) (chain_entries gs) q → bytes s' q = bytes s q).
Proof.
  intros H Ha Hh Hops Hold Huser Hlogs Hents. destruct gs as [|g0 rest]; [by pose proof (op_base _ _ _ H)|].
  destruct (decide (ents g0 = [])) as [Hnil|Hne].
  2: { destruct (recover_Ok s c g0 rest m0) as (s'&c'&Hrun&_&_&_&Hr); [done..|]. by exists s', c'. }
  pose proof H as [Hty Hc Hfirst _ _ _ _ _ Hsh Hidle]. pose proof (Forall_inv (ch_logs _ _ _ Hc)) as Hg.
  destruct (lg_cap _ _ Hg) as [Hcap _]. simpl in Hfirst.
  assert (chain_entries (g0 :: rest) = []) as Hempty.
  { unfold chain_entries. cbn [visible]. unfold full. rewrite Hnil, used_nil. rewrite (proj2 (Z.eqb_neq _ _)) by lia. cbn. by rewrite Hnil. }
  pose proof (log_end _ _ Hg) as Hend. unfold free_at in Hend. rewrite Hnil, used_nil, Z.add_0_r in Hend.
  destruct (recover_invalid ulog_free logs entries s c) as (c'&Hrun);
    [done|done|rewrite <-Hfirst; apply (lg_nonzero _ _ Hg)|done|by rewrite <-Hfirst, (lg_field _ _ Hg)|
     rewrite <-Hfirst; by apply Hend|lia|apply Forall_inv in Hents; lia|].
  exists s, c'. split; [done|]. rewrite Hempty. split; [by intros q (x&?%elem_of_nil&_)|done].
Qed.
End recovery.
