(* ===== verification/UndoInstances.v ===== *)
(** * Undo logs: a concrete heap and a concrete chain

    A heap that hands out logs of 128 bytes one after the other, counting the
    bytes used in a word of the pool, and a chain of two logs in which a snapshot
    of some bytes is kept. *)
From stdpp Require Import base list strings sets.
From S2P Require Import Prelude Pmem PmemFacts Ulog UlogFacts LogChain Memops MemopsFacts UndoFacts UndoEnd UndoRecovery.
Open Scope Z_scope.
#[local] Set Default Proof Using "Type".

Implicit Types (m : mem) (s : pm) (c : operation_context) (g : log) (gs : list log).

(** The offsets of the heap, of two fields of the header and of the lane *)
Definition pool_offset (off : Z) : bool :=
  ((4096 <=? off) && (off <? 7168)) || (2056 =? off) || (2064 =? off) || ((7232 <=? off) && (off <? 10304)).
Definition pool : pmem_ops := PmemOps 65536 true pool_offset.
(** The application's objects, the counter, and the part that is handed out. *)
Definition objects (q : Z) : Prop := 65536 + 4096 ≤ q < 65536 + 8192.
Definition brk : Z := 65536 + 64.
Definition HEAP_START : Z := 8192.
Definition HEAP_LIMIT : Z := 2 ^ 40.

Definition new_log : list Z := replicate 16 0 ++ to_le 8 128 ++ replicate 168 0.
Definition bump (dest : Z) : M pm Z :=
  let! k := rd64 brk in
  if HEAP_LIMIT <? k then ret (-1)
  else
    put (65536 + k) new_log false ;;
    wr64 brk (k + 192) ;;
    wr64 dest k ;;
    ret 0.
Definition unlink (dest : Z) : M pm unit := wr64 dest 0.

Record bump_ok s gs : Prop := {
  bu_low : HEAP_START ≤ le64 (bytes s) brk;
  bu_high : le64 (bytes s) brk ≤ HEAP_LIMIT + 192;
  bu_lines : le64 (bytes s) brk `mod` 64 = 0;
  bu_inside : ∀ g q, g ∈ gs → inside g q → 65536 + HEAP_START ≤ q < 65536 + le64 (bytes s) brk;
  bu_total : total_cap gs ≤ le64 (bytes s) brk;
}.

Lemma le64_store_out m a l b :
  b + 8 ≤ a ∨ a + Z.of_nat (length l) ≤ b → le64 (store_bytes m a l) b = le64 m b.
Proof. intros H. apply le64_ext. intros q Hq. apply store_out. lia. Qed.
Lemma le64_store m a v : 0 ≤ v < U64 → le64 (store_bytes m a (to_le 8 v)) a = v.
Proof. intros Hv. apply le64_load; [done|]. rewrite <-(to_le_length 8 v) at 2. apply load_store. Qed.
Lemma align_mult k : 0 ≤ k → k + 63 < U64 → k `mod` 64 = 0 → CACHELINE_ALIGN k = k.
Proof.
  intros H1 H2 H3. rewrite cacheline_align by done. pose proof (Z.div_mod k 64 ltac:(done)).
  rewrite <-(Z.div_unique (k + 63) 64 (k / 64) 63) by lia. lia.
Qed.

(** The bytes of a log. *)
Definition image (next cap : Z) (xs : list entry) : list Z :=
  replicate 8 0 ++ to_le 8 next ++ to_le 8 cap ++ replicate 40 0 ++ encodes xs ++ replicate (Z.to_nat (cap - used xs)) 0.
Lemma image_ok m a next cap xs :
  a `mod` 64 = 0 → a ≠ 0 → 0 < cap → cap + 128 < U64 → cap `mod` 64 = 0 → 0 ≤ next < U64 → used xs ≤ cap →
  Forall (λ x, ok_entry x.1 x.2) xs → load_bytes m a (length (image next cap xs)) = image next cap xs →
  log_ok m (Log a cap xs) ∧ le64 m (ulog_next_at a) = next.
Proof.
  intros Ha H0 H1 H2 H3 H4 H5 H6 Hl. unfold image in Hl.
  apply load_prefix in Hl as [_ Hl]. apply load_prefix in Hl as [Hn Hl]. apply load_prefix in Hl as [Hc Hl].
  apply load_prefix in Hl as [_ Hl]. apply load_prefix in Hl as [Hx Hz]. rewrite ?to_le_length, ?length_replicate in *.
  split; [split; try done|].
  - apply le64_load; [unfold U64 in *; cbn [addr LogChain.cap]; lia|]. unfold ulog_capacity_at. cbn [addr].
    replace (a + 16) with (a + Z.of_nat 8 + Z.of_nat 8) by lia. exact Hc.
  - cbn [addr ents]. unfold ulog_data.
    replace (a + 64) with (a + Z.of_nat 8 + Z.of_nat 8 + Z.of_nat 8 + Z.of_nat 40) by lia. exact Hx.
  - intros q Hq. unfold free_at, ulog_data in Hq. cbn [addr ents LogChain.cap] in Hq. fold (used xs) in Hz.
    set (b := a + Z.of_nat 8 + Z.of_nat 8 + Z.of_nat 8 + Z.of_nat 40 + used xs) in *. assert (b = a + 64 + used xs) as Hb by lia.
    assert (q = b + Z.of_nat (Z.to_nat (q - b))) as Hqb by lia. rewrite Hqb. apply (inj Some).
    rewrite <-(load_bytes_lookup m b (Z.to_nat (cap - used xs))) by lia. rewrite Hz. apply lookup_replicate_2. lia.
  - apply le64_load; [done|]. exact Hn.
Qed.
Lemma new_log_ok m a :
  a `mod` 64 = 0 → a ≠ 0 → load_bytes m a 192 = new_log →
  log_ok m (Log a 128 []) ∧ le64 m (ulog_next_at a) = 0.
Proof. intros Ha H0 Hl. apply image_ok; done. Qed.

(** The memory after an extension. *)
Record bumped m m' (k dest : Z) : Prop := {
  bm_other : ∀ q, (q < 65536 + k ∨ 65536 + k + 192 ≤ q) → (q < brk ∨ brk + 8 ≤ q) → (q < dest ∨ dest + 8 ≤ q) → m' q = m q;
  bm_block : load_bytes m' (65536 + k) 192 = new_log;
  bm_brk : le64 m' brk = k + 192;
  bm_dest : le64 m' dest = k;
}.
Lemma bump_Ok s dest :
  let k := le64 (bytes s) brk in
  HEAP_START ≤ k ≤ HEAP_LIMIT → 65536 + HEAP_START ≤ dest → dest + 8 ≤ 65536 + k →
  ∃ s', bump dest s = Ok 0 s' ∧ bumped (bytes s) (bytes s') k dest.
Proof.
  intros k Hk H1 H2. unfold bump. rewrite (bind_Ok _ _ _ _ _ (rd64_Ok s brk)). fold k.
  rewrite (proj2 (Z.ltb_ge _ _)) by lia. eexists. split; [reflexivity|]. unfold brk, HEAP_START, HEAP_LIMIT in *. cbn [bytes].
  assert (Z.of_nat (length new_log) = 192) as Hlen by reflexivity.
  split.
  - intros q Hq1 Hq2 Hq3. by rewrite !store_out by (rewrite ?to_le_length, ?Hlen; unfold brk in *; lia).
  - rewrite (load_bytes_ext _ (store_bytes (bytes s) (65536 + k) new_log)); [apply (load_store _ _ new_log)|].
    intros q Hq. by rewrite !store_out by (rewrite ?to_le_length; lia).
  - rewrite le64_store_out by (rewrite to_le_length; unfold brk; lia). apply le64_store. unfold U64. lia.
  - apply le64_store. unfold U64. lia.
Qed.

Lemma linked_extend m m' ops gs g g' :
  (∀ h, h ∈ gs → le64 m' (ulog_next_at (addr h)) = le64 m (ulog_next_at (addr h))) →
  linked m ops (gs ++ [g]) → ulog_by_offset (le64 m' (ulog_next_at (addr g))) ops = addr g' →
  ulog_by_offset (le64 m' (ulog_next_at (addr g'))) ops = 0 → linked m' ops (gs ++ [g; g']).
Proof.
  intros Hn Hk H1 H2. induction gs as [|h gs IH]; simpl in *; [done|]. destruct Hk as [Hh Hk].
  rewrite Hn by (apply elem_of_cons; by left). split; [|apply IH; [|done]].
  - rewrite Hh. by destruct gs.
  - intros k Hk'. apply Hn. apply elem_of_cons. by right.
Qed.
Lemma disjoint_snoc gs g' :
  (∀ i j g g', gs !! i = Some g → gs !! j = Some g' → i ≠ j → disjoint_logs g g') →
  (∀ g q, g ∈ gs → inside g q → ¬ inside g' q) →
  ∀ i j g h, (gs ++ [g']) !! i = Some g → (gs ++ [g']) !! j = Some h → i ≠ j → disjoint_logs g h.
Proof.
  intros Hd Hn i j g h Hi Hj Hij q Hq1 Hq2. apply lookup_snoc_Some in Hi as [[_ Hi]|[-> <-]];
    apply lookup_snoc_Some in Hj as [[_ Hj]|[-> <-]]; [by eapply (Hd i j g h)| | |done].
  - eapply Hn; [by eapply list_elem_of_lookup_2|done|done].
  - eapply Hn; [by eapply list_elem_of_lookup_2|done|done].
Qed.
(** The links of a chain can change while the logs stay. *)
Lemma log_ok_header m m' h :
  (∀ q, inside h q → ulog_capacity_at (addr h) ≤ q → m' q = m q) → log_ok m h → log_ok m' h.
Proof.
  intros Hq [H1 H2 H3 H4 H5 H6 H7 H8 H9]. pose proof (used_nonneg (ents h)) as H. unfold used in H, H6.
  unfold inside, SIZEOF_ULOG, sizeof_ulog in Hq. split; try done.
  - rewrite <-H5. apply le64_ext. intros q Hr. apply Hq; unfold ulog_capacity_at in *; lia.
  - rewrite <-H8 at 2. apply load_bytes_ext. intros q Hr. apply Hq; unfold ulog_data, ulog_capacity_at in *; lia.
  - intros q Hr. rewrite Hq; [by apply H9| |]; unfold free_at, used, ulog_data, ulog_capacity_at in *; lia.
Qed.
Lemma next_apart m ops gs g post h q :
  chain_ok m ops (gs ++ g :: post) → h ∈ gs ++ post → inside h q →
  q < ulog_next_at (addr g) ∨ ulog_next_at (addr g) + 8 ≤ q.
Proof.
  intros Hc Hin Hq. pose proof (chain_others _ _ _ _ _ _ _ Hc Hin Hq) as Hno. pose proof (ch_logs _ _ _ Hc) as Hl.
  rewrite Forall_app, Forall_cons in Hl. destruct Hl as (_&Hg&_). destruct (lg_cap _ _ Hg).
  unfold inside, SIZEOF_ULOG, sizeof_ulog, ulog_next_at in *. lia.
Qed.
Lemma link_apart m ops gs g h q :
  chain_ok m ops (gs ++ [g]) → h ∈ gs ++ [g] → inside h q → ulog_capacity_at (addr h) ≤ q →
  q < ulog_next_at (addr g) ∨ ulog_next_at (addr g) + 8 ≤ q.
Proof.
  intros Hc Hin Hq Hcap. apply elem_of_app in Hin as [Hin| ->%list_elem_of_singleton].
  - eapply next_apart; [exact Hc|by rewrite app_nil_r|done].
  - unfold ulog_capacity_at, ulog_next_at in *. lia.
Qed.
Lemma next_inside m h q : log_ok m h → ulog_next_at (addr h) ≤ q < ulog_next_at (addr h) + 8 → inside h q.
Proof. intros H. destruct (lg_cap _ _ H). unfold inside, SIZEOF_ULOG, sizeof_ulog, ulog_next_at. lia. Qed.
Section bump.
Context (s s' : pm) (gs : list log) (g : log).
Context (Hc : chain_ok (bytes s) pool (gs ++ [g])) (Hh : bump_ok s (gs ++ [g])).
Let k := le64 (bytes s) brk.
Context (Hm : bumped (bytes s) (bytes s') k (ulog_next_at (addr g))) (Hk : k ≤ HEAP_LIMIT).
Let g' := Log (65536 + k) 128 [].

Lemma log_place h : h ∈ gs ++ [g] → 65536 + HEAP_START ≤ addr h ∧ addr h + SIZEOF_ULOG (cap h) ≤ 65536 + k.
Proof using Hc Hh.
  intros Hin. pose proof (ch_logs _ _ _ Hc) as Hl. rewrite Forall_forall in Hl. destruct (lg_cap _ _ (Hl h Hin)).
  pose proof (bu_inside _ _ Hh h (addr h) Hin) as H1. pose proof (bu_inside _ _ Hh h (addr h + SIZEOF_ULOG (cap h) - 1) Hin) as H2.
  unfold inside, SIZEOF_ULOG, sizeof_ulog in *. fold k in H1, H2. lia.
Qed.
(** Outside of the link the logs stay. *)
Lemma bump_kept h q : h ∈ gs ++ [g] → inside h q → (q < ulog_next_at (addr g) ∨ ulog_next_at (addr g) + 8 ≤ q) → bytes s' q = bytes s q.
Proof using Hc Hh Hm.
  intros Hin Hq Hn. destruct (log_place h Hin). unfold inside in Hq. pose proof (bu_low _ _ Hh) as Hlo.
  apply (bm_other _ _ _ _ Hm); [lia|unfold brk, HEAP_START in *; lia|done].
Qed.
Lemma new_facts : log_ok (bytes s') g' ∧ le64 (bytes s') (ulog_next_at (addr g')) = 0.
Proof using Hh Hm.
  assert (k `mod` 64 = 0) as Hlines by apply Hh. assert (HEAP_START ≤ k) as Hlo by apply Hh.
  apply (new_log_ok (bytes s') (65536 + k)); [|unfold HEAP_START in *; lia|apply Hm].
  rewrite Z.add_mod, Hlines by lia. done.
Qed.
Lemma bump_log h : h ∈ gs ++ [g] → log_ok (bytes s') h.
Proof using Hc Hh Hm.
  intros Hin. pose proof (ch_logs _ _ _ Hc) as Hl. rewrite Forall_forall in Hl.
  eapply log_ok_header; [|by apply Hl]. intros q Hq1 Hq2. apply (bump_kept h q Hin Hq1). by eapply link_apart.
Qed.
Lemma bump_chain : chain_ok (bytes s') pool (gs ++ [g; g']).
Proof using Hc Hh Hm Hk.
  destruct new_facts as [Hnew Hn0]. assert (g ∈ gs ++ [g]) as Hg by (apply elem_of_app; right; by apply list_elem_of_singleton).
  assert (k `mod` 64 = 0) as Hlines by apply Hh. assert (HEAP_START ≤ k) as Hlo by apply Hh.
  replace (gs ++ [g; g']) with ((gs ++ [g]) ++ [g']) by (by rewrite <-app_assoc). split.
  - apply Forall_app. split; [|by constructor]. apply Forall_forall. apply bump_log.
  - rewrite <-app_assoc. apply (linked_extend (bytes s)); [|apply Hc| |by rewrite Hn0].
    + intros h Hin. assert (h ∈ gs ++ [g]) as Hin' by (apply elem_of_app; by left). pose proof (ch_logs _ _ _ Hc) as Hl.
      rewrite Forall_forall in Hl. apply le64_ext. intros q Hq. pose proof (next_inside _ _ _ (Hl h Hin') Hq) as Hi.
      apply (bump_kept h q Hin' Hi). eapply next_apart; [exact Hc|by rewrite app_nil_r|done].
    + rewrite (bm_dest _ _ _ _ Hm). unfold ulog_by_offset, g'. cbn [addr]. unfold HEAP_START, HEAP_LIMIT in *.
      rewrite (proj2 (Z.eqb_neq k 0)) by lia. rewrite align_mult by (unfold U64; lia). done.
  - apply disjoint_snoc; [apply Hc|]. intros h q Hin Hq Hq'. pose proof (log_place h Hin). unfold inside in *. cbn [g' addr] in Hq'. lia.
Qed.
Lemma bump_keeps : bump_ok s' (gs ++ [g; g']).
Proof using Hc Hh Hm Hk.
  assert (k `mod` 64 = 0) as Hlines by apply Hh. assert (HEAP_START ≤ k) as Hlo by apply Hh.
  assert (total_cap (gs ++ [g]) ≤ k) as Htot by apply Hh.
  replace (gs ++ [g; g']) with ((gs ++ [g]) ++ [g']) by (by rewrite <-app_assoc).
  split; rewrite ?(bm_brk _ _ _ _ Hm); try lia.
  - rewrite Z.add_mod, Hlines by lia. done.
  - intros h q Hin Hq. apply elem_of_app in Hin as [Hin| ->%list_elem_of_singleton].
    + assert (65536 + HEAP_START ≤ q < 65536 + k) by (by apply (bu_inside _ _ Hh h)). lia.
    + unfold inside, SIZEOF_ULOG, sizeof_ulog in Hq. cbn [g' addr cap] in Hq. lia.
  - rewrite (total_cap_app (gs ++ [g])). change (total_cap [g']) with 128. lia.
Qed.
End bump.

Lemma bump_agree s s' gs gs' :
  bump_ok s gs → Forall2 same_place gs gs' → (∀ q, ¬ objects q → ¬ in_logs gs q → bytes s' q = bytes s q) → bump_ok s' gs'.
Proof.
  intros [H1 H2 H3 H4 H5] Hs Hm. assert (le64 (bytes s') brk = le64 (bytes s) brk) as Hb.
  { apply le64_ext. intros q Hq. apply Hm; unfold objects, brk, HEAP_START in *; [lia|].
    intros (g&Hg&Hi). specialize (H4 g q Hg Hi). lia. }
  split; rewrite ?Hb; try done; [|by rewrite <-(same_cap _ _ Hs)].
  intros g q Hg Hq. apply list_elem_of_lookup in Hg as (i&Hi). destruct (Forall2_lookup_r _ _ _ _ _ Hs Hi) as (h&Hh&Hhg).
  apply (H4 h); [by eapply list_elem_of_lookup_2|]. by apply (same_inside h g).
Qed.
Lemma snoc_in gs g : g ∈ gs ++ [g].
Proof. apply elem_of_app. right. by apply list_elem_of_singleton. Qed.
Lemma objects_apart s gs : bump_ok s gs → apart_from objects gs.
Proof. intros H q Hq (g&Hg&Hi). pose proof (bu_inside _ _ H g q Hg Hi). unfold objects, HEAP_START in *. lia. Qed.
(** An allocator that gives the next block, as long as there is one. *)
Record bumps (ext : Z → M pm Z) : Prop := {
  bps_full s dest : HEAP_LIMIT < le64 (bytes s) brk → ext dest s = Ok (-1) s;
  bps_next s dest : HEAP_START ≤ le64 (bytes s) brk ≤ HEAP_LIMIT → le64 (bytes s) brk `mod` 64 = 0 →
    65536 + HEAP_START ≤ dest → dest + 8 ≤ 65536 + le64 (bytes s) brk →
    ∃ s', ext dest s = Ok 0 s' ∧ bumped (bytes s) (bytes s') (le64 (bytes s) brk) dest;
}.
Lemma bump_bumps : bumps bump.
Proof.
  split.
  - intros s dest Hfull. unfold bump. by rewrite (bind_Ok _ _ _ _ _ (rd64_Ok s brk)), (proj2 (Z.ltb_lt _ _)) by done.
  - intros s dest Hk _. by apply bump_Ok.
Qed.
Lemma bump_extend ext s gs g :
  bumps ext → chain_ok (bytes s) pool (gs ++ [g]) → bump_ok s (gs ++ [g]) →
  ∃ v s', ext (ulog_next_at (addr g)) s = Ok v s' ∧ (∀ q, objects q → bytes s' q = bytes s q) ∧
    if v =? 0 then
      ∃ g', ents g' = [] ∧ chain_ok (bytes s') pool (gs ++ [g; g']) ∧ apart_from objects (gs ++ [g; g']) ∧
        total_cap (gs ++ [g; g']) < MAX_LOGS ∧ bump_ok s' (gs ++ [g; g'])
    else chain_ok (bytes s') pool (gs ++ [g]) ∧ bump_ok s' (gs ++ [g]).
Proof.
  intros Hext Hc Hh. destruct (decide (HEAP_LIMIT < le64 (bytes s) brk)) as [Hfull|Hroom].
  { exists (-1), s. by rewrite (bps_full _ Hext) by done. }
  destruct (log_place s gs g Hc Hh g (snoc_in gs g)) as [Hp1 Hp2]. pose proof (bu_low _ _ Hh) as Hlo.
  pose proof (ch_logs _ _ _ Hc) as Hl. rewrite Forall_forall in Hl. destruct (lg_cap _ _ (Hl g (snoc_in gs g))).
  unfold SIZEOF_ULOG, sizeof_ulog in Hp2.
  destruct (bps_next _ Hext s (ulog_next_at (addr g))) as (s'&Hrun&Hm); [lia|apply Hh|unfold ulog_next_at; lia|unfold ulog_next_at; lia|].
  pose proof (bump_keeps s s' gs g Hc Hh Hm ltac:(lia)) as Hh'. pose proof (bump_chain s s' gs g Hc Hh Hm ltac:(lia)) as Hc'. exists 0, s'. split; [done|]. split.
  - intros q Hq. apply (bm_other _ _ _ _ Hm); unfold objects, brk, HEAP_START, ulog_next_at in *; lia.
  - eexists. split; [|split; [exact Hc'|]]; [done|]. split; [by eapply objects_apart|]. split; [|done].
    pose proof (bu_total _ _ Hh'). pose proof (bu_high _ _ Hh'). unfold HEAP_LIMIT, MAX_LOGS in *. lia.
Qed.
Lemma linked_cut m m' ops gs g g' :
  (∀ h, h ∈ gs → le64 m' (ulog_next_at (addr h)) = le64 m (ulog_next_at (addr h))) →
  linked m ops (gs ++ [g; g']) → ulog_by_offset (le64 m' (ulog_next_at (addr g))) ops = 0 → linked m' ops (gs ++ [g]).
Proof.
  intros Hn Hk H1. induction gs as [|h gs IH]; simpl in *; [done|]. destruct Hk as [Hh Hk].
  rewrite Hn by (apply elem_of_cons; by left). split; [|apply IH; [|done]].
  - rewrite Hh. by destruct gs.
  - intros k Hk'. apply Hn. apply elem_of_cons. by right.
Qed.
Lemma unlink_free s gs g g' :
  chain_ok (bytes s) pool (gs ++ [g; g']) → bump_ok s (gs ++ [g; g']) →
  ∃ s', unlink (ulog_next_at (addr g)) s = Ok tt s' ∧ (∀ q, objects q → bytes s' q = bytes s q) ∧
    chain_ok (bytes s') pool (gs ++ [g]) ∧ bump_ok s' (gs ++ [g]).
Proof.
  intros Hc Hh. eexists. split; [reflexivity|]. set (s1 := Pm _ _).
  assert (gs ++ [g; g'] = (gs ++ [g]) ++ [g']) as E by by rewrite <-app_assoc.
  assert (∀ q, q < ulog_next_at (addr g) ∨ ulog_next_at (addr g) + 8 ≤ q → bytes s1 q = bytes s q) as Hq.
  { intros q Hq. cbn [s1 bytes]. apply store_out. rewrite to_le_length. lia. }
  assert (le64 (bytes s1) (ulog_next_at (addr g)) = 0) as H0 by (by apply le64_store).
  pose proof (ch_logs _ _ _ Hc) as Hl. rewrite Forall_forall in Hl. pose proof (objects_apart _ _ Hh) as Hap.
  assert (g ∈ gs ++ [g; g']) as Hg by (apply elem_of_app; right; apply elem_of_cons; by left).
  split; [|split].
  - intros q Hobj. apply Hq. destruct (decide (ulog_next_at (addr g) ≤ q < ulog_next_at (addr g) + 8)) as [Hb|]; [|lia].
    destruct (Hap q Hobj). exists g. split; [done|]. by eapply next_inside; [apply Hl|].
  - split.
    + apply Forall_forall. intros h Hin. apply (log_ok_header (bytes s)); [|apply Hl; rewrite E; apply elem_of_app; by left].
      intros q Hi Hcap. apply Hq. apply elem_of_app in Hin as [Hin| ->%list_elem_of_singleton].
      * eapply next_apart; [exact Hc|apply elem_of_app; by left|done].
      * unfold ulog_capacity_at, ulog_next_at in *. lia.
    + apply (linked_cut (bytes s) _ _ gs g g'); [|apply Hc|by rewrite H0].
      intros h Hin. apply le64_ext. intros q Hr. apply Hq. eapply next_apart; [exact Hc|apply elem_of_app; by left|].
      eapply next_inside; [|done]. apply Hl. apply elem_of_app. by left.
    + intros i j a b Hi Hj. apply (ch_disjoint _ _ _ Hc); rewrite E; by apply lookup_app_l_Some.
  - assert (le64 (bytes s1) brk = le64 (bytes s) brk) as Hb.
    { apply le64_ext. intros q Hr. apply Hq. pose proof (bu_inside _ _ Hh g (addr g) Hg) as Hi. destruct (lg_cap _ _ (Hl g Hg)).
      unfold inside, SIZEOF_ULOG, sizeof_ulog, brk, HEAP_START, ulog_next_at in *. lia. }
    destruct Hh as [H1 H2 H3 H4 H5]. split; rewrite ?Hb; try done.
    + intros h q Hin. apply H4. rewrite E. apply elem_of_app. by left.
    + rewrite E, total_cap_app in H5. pose proof (total_cap_nonneg (bytes s) [g']) as Hp.
      rewrite E, <-Forall_forall, Forall_app in Hl. specialize (Hp (proj2 Hl)). lia.
Qed.
Definition bumps_heap (ext : Z → M pm Z) (Hext : bumps ext) : LogHeap objects pool (Some ext) unlink.
Proof.
  refine {| heap_ok := bump_ok; heap_agree := bump_agree |}.
  - intros ext' s gs g [= <-] Hc _ Hh. by apply bump_extend.
  - intros s gs g g' Hc _ Hh. by apply (unlink_free s gs g g').
Defined.
Global Instance bump_heap : LogHeap objects pool (Some bump) unlink := bumps_heap bump bump_bumps.

(** ** A chain *)

(** Two logs: the base log is full, the extension has one entry. *)
Definition first_entry : entry := (4112, [1; 2; 3]).
Definition second_entry : entry := (4120, [9]).
Definition base_log : log := Log 73728 64 [first_entry].
Definition extension : log := Log 73856 128 [second_entry].
Definition logged : mem :=
  store_bytes (store_bytes (store_bytes (λ _, 0) brk (to_le 8 8512)) 73728 (image 8320 64 [first_entry]))
    73856 (image 0 128 [second_entry]).
(** The objects as they were when the entries were made. *)
Definition before : mem := store_bytes (store_bytes (λ _, 0) 69648 [1; 2; 3]) 69656 [9].

Lemma two_ok : Forall (λ x : entry, ok_entry x.1 x.2) [first_entry; second_entry].
Proof. repeat constructor; vm_compute; congruence. Qed.
Lemma base_loaded : load_bytes logged 73728 (length (image 8320 64 [first_entry])) = image 8320 64 [first_entry].
Proof. vm_compute. reflexivity. Qed.
Lemma extension_loaded : load_bytes logged 73856 (length (image 0 128 [second_entry])) = image 0 128 [second_entry].
Proof. vm_compute. reflexivity. Qed.
Lemma base_log_ok : log_ok logged base_log ∧ le64 logged (ulog_next_at 73728) = 8320.
Proof.
  apply image_ok; [reflexivity|lia|lia|reflexivity|reflexivity|split; [lia|reflexivity]| | |exact base_loaded].
  - vm_compute. congruence.
  - pose proof two_ok as H. apply Forall_cons in H as [H _]. by constructor.
Qed.
Lemma extension_ok : log_ok logged extension ∧ le64 logged (ulog_next_at 73856) = 0.
Proof.
  apply image_ok; [reflexivity|lia|lia|reflexivity|reflexivity|split; [lia|reflexivity]| | |exact extension_loaded].
  - vm_compute. congruence.
  - pose proof two_ok as H. by apply Forall_cons in H as [_ H].
Qed.
Lemma logged_chain : chain_ok logged pool [base_log; extension].
Proof.
  destruct base_log_ok as [H1 N1]. destruct extension_ok as [H2 N2]. split.
  - constructor; [exact H1|]. constructor; [exact H2|constructor].
  - split; [|split; [|exact I]]; cbn [addr base_log extension first_addr]; [rewrite N1|rewrite N2]; reflexivity.
  - intros [|[|i]] [|[|j]] g g' Hi Hj Hij q; try done; injection Hi as <-; injection Hj as <-; unfold inside, SIZEOF_ULOG, sizeof_ulog; cbn [addr cap base_log extension]; lia.
Qed.

(** A pool with an empty base log. *)
Definition empty_base : log := Log 73728 64 [].
Definition fresh : mem := store_bytes (store_bytes (λ _, 0) brk (to_le 8 8320)) 73728 (image 0 64 []).
Lemma fresh_chain : chain_ok fresh pool [empty_base].
Proof.
  assert (log_ok fresh empty_base ∧ le64 fresh (ulog_next_at 73728) = 0) as [H N].
  { apply image_ok; [reflexivity|lia|lia|reflexivity|reflexivity|split; [lia|reflexivity]|vm_compute; congruence|constructor|].
    vm_compute. reflexivity. }
  split.
  - constructor; [exact H|constructor].
  - split; [|exact I]. cbn [addr empty_base first_addr]. rewrite N. reflexivity.
  - intros [|i] [|j] g g' Hi Hj Hij; try done.
Qed.
Lemma fresh_bump : bump_ok (Pm fresh []) [empty_base].
Proof.
  assert (le64 fresh brk = 8320) as Hb by (vm_compute; reflexivity).
  split; cbn [bytes]; rewrite ?Hb; try (unfold HEAP_START, HEAP_LIMIT; lia); try done.
  intros g q ->%list_elem_of_singleton. unfold inside, SIZEOF_ULOG, sizeof_ulog, HEAP_START. cbn. lia.
Qed.
Definition fresh_context : operation_context :=
  OpCtx LOG_TYPE_UNDO pool 0 0 0 0 73728 64 64 [] false (OpLog 1024 0 0) (OpLog 1024 0 0) VECQ_EMPTY.
Lemma fresh_ok ext (Hext : bumps ext) : undo_ok (heap := bumps_heap ext Hext) (Pm fresh []) fresh_context [] [empty_base].
Proof.
  split; try done.
  - exact fresh_chain.
  - constructor.
  - by intros fs g Hg%app_cons_not_nil.
  - by constructor.
  - eapply objects_apart, fresh_bump.
  - exact fresh_bump.
Qed.

(** The contexts on the two logs: at work, and opened after a restart. *)
Lemma logged_bump : bump_ok (Pm logged []) [base_log; extension].
Proof.
  assert (le64 logged brk = 8512) as Hb by (vm_compute; reflexivity).
  split; cbn [bytes]; rewrite ?Hb; try (unfold HEAP_START, HEAP_LIMIT; lia); try done.
  intros g q [->|[->|?%elem_of_nil]%elem_of_cons]%elem_of_cons; [..|done];
    unfold inside, SIZEOF_ULOG, sizeof_ulog, HEAP_START; cbn; lia.
Qed.
Definition working_context : operation_context :=
  OpCtx LOG_TYPE_UNDO pool 64 64 73856 128 73728 64 192 [8320] true (OpLog 1024 0 0) (OpLog 1024 0 0) VECQ_EMPTY.
Lemma working_ok : undo_ok (Pm logged []) working_context [base_log; extension] [].
Proof.
  assert (offsets pool [8320] [extension]) as Hoff by (constructor; [reflexivity|constructor]).
  split; try done.
  - exact logged_chain.
  - intros [|g [|h [|i fs]]] k E; try done. injection E as <- <-. constructor; [reflexivity|constructor].
  - eapply objects_apart, logged_bump.
  - exact logged_bump.
Qed.
Definition opened_context : operation_context :=
  OpCtx LOG_TYPE_UNDO pool 0 0 0 0 73728 64 192 [8320] false (OpLog 1024 0 0) (OpLog 1024 0 0) VECQ_EMPTY.
Lemma opened_ok : opened (Pm logged []) opened_context [base_log; extension].
Proof.
  assert (offsets pool [8320] [extension]) as Hoff by (constructor; [reflexivity|constructor]).
  split; try done. exact logged_chain.
Qed.
Lemma logged_entries : chain_entries [base_log; extension] = [first_entry; second_entry].
Proof. reflexivity. Qed.
Lemma logged_holds : Forall (holds 65536 before) [first_entry; second_entry].
Proof. repeat constructor. Qed.
Lemma logged_objects q : covered_by 65536 [first_entry; second_entry] q → objects q.
Proof.
  intros (x&[->|[->|?%elem_of_nil]%elem_of_cons]%elem_of_cons&Ht); [..|done]; unfold target in Ht; unfold objects; cbn in Ht; lia.
Qed.
