(* ===== verification/UndoSpec.v ===== *)
(** * Undo logs: what they promise

    The properties of the undo log of a lane, and concrete runs of them. *)
From stdpp Require Import base list strings sets.
From S2P Require Import Prelude Pmem PmemFacts Ulog UlogFacts LogChain Memops MemopsFacts UndoFacts UndoEnd UndoRecovery UndoInstances.
Open Scope Z_scope.
#[local] Set Default Proof Using "Type".

Implicit Types (m : mem) (s : pm) (c : operation_context) (x : entry) (xs : list entry) (g : log) (gs pre post : list log).

Section spec.
Context {user : Z → Prop} {ops : pmem_ops} {extend : option (Z → M pm Z)} {ulog_free : Z → M pm unit}.
Context {heap : LogHeap user ops extend ulog_free}.

(** Adding a buffer of the application to an undo log of the pool returns
    with the buffer split into consecutive entries at the end of the log that
    hold its bytes and restore them at the destination; the application's data
    are unchanged.  The result is 0 exactly when the whole buffer is logged, and
    otherwise -1 and an extension of the log was refused. *)
Theorem operation_add_buffer_spec logs fuel s c pre post dest src (size : nat) :
  undo_ok s c pre post → (0 < size)%nat → Z.of_nat size + 88 ≤ 64 * Z.of_nat logs →
  base ops ≤ dest → dest + Z.of_nat size ≤ base ops + 2 ^ 61 →
  (∀ q, src ≤ q < src + Z.of_nat size → user q) → (size < 40 * fuel)%nat →
  ∃ v s' c' pre' post' xs n,
    operation_add_buffer extend logs fuel dest src (Z.of_nat size) ULOG_OPERATION_BUF_CPY (s, c) = Ok v (s', c') ∧
    undo_ok s' c' pre' post' ∧ (∀ q, user q → bytes s' q = bytes s q) ∧
    entries_of pre' = entries_of pre ++ xs ∧ pieces (dest - base ops) (load_bytes (bytes s) src n) xs ∧
    (v = 0 ∧ n = size ∨ v = -1 ∧ (n < size)%nat ∧ refused extend).
Proof.
  intros H H0 H1 H2 H3 H4 H5. rewrite <-(un_ops _ _ _ _ H) in H2, H3.
  destruct (add_buffer_Ok logs fuel s c pre post dest src size H H0 H1 H2 H3 H4 H5) as (v&s'&c'&pre'&post'&xs&n&Hrun&Hok&_&Hu&He&Hp&_&Hv).
  rewrite (un_ops _ _ _ _ H) in Hp. by exists v, s', c', pre', post', xs, n.
Qed.

(** C32. Finishing an operation that is in progress returns, leaves the
    application's data as they are, and leaves a context that is ready for the
    next operation: all its logs are empty. *)
Theorem operation_finish_ready logs entries s c pre post :
  undo_ok s c pre post → in_progress c = true → (length (pre ++ post) < logs)%nat →
  ∃ s' c' gs', operation_finish ulog_free logs entries (s, c) = Ok tt (s', c') ∧ ready s' c' gs' ∧
    Forall empty_log gs' ∧ (∀ q, user q → bytes s' q = bytes s q).
Proof.
  intros H Hp Hlogs. destruct (finish_Ok logs entries s c pre post H Hp Hlogs) as (s'&c'&gs'&Hrun&Hr&_&Hu).
  exists s', c', gs'. split; [done|]. split; [done|]. split; [|done]. by destruct Hr as [[] _].
Qed.

(** C31. Recovery of an interrupted operation: a context opened on the logs of
    the operation is resumed, processed and finished.  Every byte that the
    reachable entries hold gets its old value back, and the other data of the
    application stay.  The base log is empty afterwards and the logs past the
    first extension are given back; the first extension, however, keeps its
    entries. *)
Theorem undo_recovery logs entries s c g0 rest m0 :
  opened s c (g0 :: rest) → apart_from user (g0 :: rest) → heap_ok s (g0 :: rest) → p_ops c = ops → ents g0 ≠ [] →
  Forall (holds (base ops) m0) (chain_entries (g0 :: rest)) →
  (∀ q, covered_by (base ops) (chain_entries (g0 :: rest)) q → user q) →
  (length (g0 :: rest) < logs)%nat → Forall (λ g, (length (ents g) < entries)%nat) (g0 :: rest) →
  ∃ s' c', (operation_resume entries ;; operation_process logs entries ;; operation_finish ulog_free logs entries) (s, c)
           = Ok tt (s', c') ∧
    opened s' c' (clear g0 :: take 1 rest) ∧
    (∀ q, covered_by (base ops) (chain_entries (g0 :: rest)) q → bytes s' q = m0 q) ∧
    (∀ q, user q → ¬ covered_by (base ops) (chain_entries (g0 :: rest)) q → bytes s' q = bytes s q).
Proof.
  intros H1 H2 H3 H4 H5 H6 H7 H8 H9.
  destruct (recover_Ok logs entries s c g0 rest m0 H1 H2 H3 H4 H5 H6 H7 H8 H9) as (s'&c'&Hrun&Ho&_&_&Hr).
  by exists s', c'.
Qed.

(** C30. An undo log undoes: start an operation, log a range of the application,
    let the application overwrite the range, and process the log.  All the
    application's data have their old values again. *)
Theorem undo_restores logs fuel s c gs a (size : nat) :
  ready s c gs → (0 < size)%nat → Z.of_nat size + 88 ≤ 64 * Z.of_nat logs →
  base ops ≤ a → a + Z.of_nat size ≤ base ops + 2 ^ 61 → (∀ q, a ≤ q < a + Z.of_nat size → user q) → (size < 40 * fuel)%nat →
  ∃ v s1 c1,
    (operation_start ;; operation_add_buffer extend logs fuel a a (Z.of_nat size) ULOG_OPERATION_BUF_CPY) (s, c) = Ok v (s1, c1) ∧
    (v = 0 → ∀ s2, (∀ q, q < a ∨ a + Z.of_nat size ≤ q → bytes s2 q = bytes s1 q) →
     ∃ bound : nat, ∀ k, (bound < k)%nat →
       ∃ s3, operation_process k k (s2, c1) = Ok tt (s3, c1) ∧ ∀ q, user q → bytes s3 q = bytes s q).
Proof.
  intros Hr H0 H1 H2 H3 H4 H5. destruct (start_Ok s c gs Hr) as [Hst Hun]. rewrite <-(un_ops _ _ _ _ Hun) in H2, H3.
  destruct (add_buffer_Ok logs fuel s _ [] gs a a size Hun H0 H1 H2 H3 H4 H5)
    as (v&s1&c1&pre&post&xs&n&Hrun&Hok&Hops&Hu&He&Hp&_&Hv).
  exists v, s1, c1. split; [by rewrite (bind_Ok _ _ _ _ _ Hst)|]. intros -> s2 Happ.
  destruct Hv as [[_ ->]|[[=] _]]. cbn [app entries_of fmap list_fmap concat] in He.
  rewrite <-Hops in Hp. destruct (pieces_hold (base (p_ops c1)) (a - base (p_ops c1)) (bytes s) size xs) as [Hh Hc].
  { by replace (base (p_ops c1) + (a - base (p_ops c1))) with a by lia. }
  replace (base (p_ops c1) + (a - base (p_ops c1))) with a in Hc by lia. rewrite <-He in Hh, Hc.
  assert (undo_ok s2 c1 pre post) as Hok2.
  { eapply undo_agree; [exact Hok|]. intros q Hq. apply Happ. destruct (decide (a ≤ q < a + Z.of_nat size)) as [Hin|]; [|lia]. by destruct Hq; apply H4. }
  exists (length (pre ++ post) + entry_count (pre ++ post))%nat. intros k Hk.
  destruct (process_undo k k s2 c1 pre post (bytes s) Hok2 Hh) as (s3&Hrun3&_&Hcov&Hunc).
  - intros q Hq%Hc. by apply H4.
  - lia.
  - apply Forall_forall. intros g Hg%entry_count_le. lia.
  - exists s3. split; [done|]. intros q Hq. destruct (decide (a ≤ q < a + Z.of_nat size)) as [Hin|Hout].
    + apply Hcov. by apply Hc.
    + rewrite Hunc by (by rewrite Hc). rewrite Happ by lia. by apply Hu.
Qed.
End spec.

(** ** Concrete runs *)

(** A buffer of 100 bytes that does not fit into the base log. *)
Example operation_add_buffer_spec_witness :
  ∃ v s' c' pre' post' xs n,
    operation_add_buffer (Some bump) 10 10 69648 69648 (Z.of_nat 100) ULOG_OPERATION_BUF_CPY (Pm fresh [], fresh_context) = Ok v (s', c') ∧
    undo_ok s' c' pre' post' ∧ (∀ q, objects q → bytes s' q = fresh q) ∧
    entries_of pre' = entries_of [] ++ xs ∧ pieces (69648 - 65536) (load_bytes fresh 69648 n) xs ∧
    (v = 0 ∧ n = 100%nat ∨ v = -1 ∧ (n < 100)%nat ∧ refused (Some bump)).
Proof.
  apply (operation_add_buffer_spec (heap := bump_heap) 10 10 (Pm fresh []) fresh_context [] [empty_base] 69648 69648 100);
    [exact (fresh_ok _ _)|lia|lia|cbn; lia|cbn; lia|unfold objects; lia|lia].
Defined.
Example operation_finish_ready_witness :
  ∃ s' c' gs', operation_finish unlink 3 2 (Pm logged [], working_context) = Ok tt (s', c') ∧ ready s' c' gs' ∧
    Forall empty_log gs' ∧ (∀ q, objects q → bytes s' q = logged q).
Proof. apply (operation_finish_ready (heap := bump_heap) 3 2 (Pm logged []) working_context [base_log; extension] []); [exact working_ok|done|cbn; lia]. Defined.
Example undo_recovery_witness :
  ∃ s' c', (operation_resume 2 ;; operation_process 3 2 ;; operation_finish unlink 3 2) (Pm logged [], opened_context)
           = Ok tt (s', c') ∧
    opened s' c' [clear base_log; extension] ∧
    (∀ q, covered_by 65536 [first_entry; second_entry] q → bytes s' q = before q) ∧
    (∀ q, objects q → ¬ covered_by 65536 [first_entry; second_entry] q → bytes s' q = logged q).
Proof.
  apply (undo_recovery (heap := bump_heap) 3 2 (Pm logged []) opened_context base_log [extension] before);
    [exact opened_ok|eapply objects_apart, logged_bump|exact logged_bump|done|done|exact logged_holds|exact logged_objects|cbn; lia|].
  repeat constructor; cbn; lia.
Defined.
Example undo_restores_witness :
  ∃ v s1 c1,
    (operation_start ;; operation_add_buffer (Some bump) 10 10 69648 69648 (Z.of_nat 100) ULOG_OPERATION_BUF_CPY)
      (Pm fresh [], fresh_context) = Ok v (s1, c1) ∧
    (v = 0 → ∀ s2, (∀ q, q < 69648 ∨ 69648 + Z.of_nat 100 ≤ q → bytes s2 q = bytes s1 q) →
     ∃ bound : nat, ∀ k, (bound < k)%nat →
       ∃ s3, operation_process k k (s2, c1) = Ok tt (s3, c1) ∧ ∀ q, objects q → bytes s3 q = fresh q).
Proof.
  apply (undo_restores (heap := bump_heap) 10 10 (Pm fresh []) fresh_context [empty_base] 69648 100);
    [split; [|done]; exact (fresh_ok _ _)|lia|lia|cbn; lia|cbn; lia|unfold objects; lia|lia].
Defined.
