(* ===== verification/TxRanges.v ===== *)
(** * The ranges of a transaction

    The part of [src/pmdk/src/libpmemobj/tx.c] that decides which bytes a call
    that adds a range to the transaction has to snapshot: the tree of the ranges
    added so far, and the loop of [pmemobj_tx_add_common] that merges a new
    range into it.  The rest of the transaction is a state [U] and the snapshot
    of a range is an operation on it. *)
From stdpp Require Import base list strings gmap.
From S2P Require Import Prelude Ravl.
Open Scope Z_scope.

Record tx_range_def := Range { offset : Z; size : Z; flags : Z }.
Global Instance tx_range_def_eq_dec : EqDecision tx_range_def.
Proof. solve_decision. Defined.

Definition tx_range_def_cmp (l r : tx_range_def) : Z :=
  if offset r <? offset l then 1 else if offset l <? offset r then -1 else 0.

Section ranges.
Context {U : Type}.
Context (Malloc : nat → gmap Z (ravl_node tx_range_def) → option Z).
(** [pmemobj_tx_add_snapshot] *)
Context (add_snapshot : tx_range_def → M U Z).
Implicit Types (r f args : tx_range_def).

(** The tree is [tx->ranges]. *)
Definition on_tree {A} : M (ravl tx_range_def) A → M (ravl tx_range_def * U) A :=
  zoom fst (λ t s, (t, s.2)).
Definition on_rest {A} : M U A → M (ravl tx_range_def * U) A :=
  zoom snd (λ u s, (s.1, u)).
(** [*(struct tx_range_def * )ravl_data(n)] *)
Definition ravl_data (n : Z) : M (ravl tx_range_def * U) tx_range_def :=
  let! nd := on_tree (deref n) in ret (data nd).
Definition set_ravl_data (n : Z) r : M (ravl tx_range_def * U) unit :=
  on_tree (upd_node n (set_data r)).

Definition EEXIST : Z := 17.
Definition tx_lane_ranges_insert_def (loops : nat) r : M (ravl tx_range_def * U) Z :=
  let! v := on_tree (ravl_emplace_copy tx_range_def_cmp Malloc loops r) in
  if v =? EEXIST then stop (AssertFailed "invalid state of ranges tree") else ret v.

Definition end_of r : Z := u64 (offset r + size r).
(** Nothing on the left touches the rest [r] of the range: it extends the range
    on its right, or is a range of its own. *)
Definition add_rest (loops : nat) r (nprev : Z) : M (ravl tx_range_def * U) Z :=
  let! v :=
    (if negb (nprev =? 0) then
       let! fprev := ravl_data nprev in
       assert_ (end_of r =? offset fprev) "rend == fprev->offset" ;;
       set_ravl_data nprev
         (Range (u64 (offset fprev - size r)) (u64 (size fprev + size r)) (flags fprev)) ;;
       ret 0
     else tx_lane_ranges_insert_def loops r) in
  if negb (v =? 0) then ret v else on_rest (add_snapshot r).
(** The range [f] of the node [n] ends inside of [r] or right before it: it grows
    to the end of [r], and over the range on the right.  The result is what is
    left of [r], or the error. *)
Definition extend_left (loops : nat) args r (n : Z) f (nprev : Z)
    : M (ravl tx_range_def * U) (Z * tx_range_def) :=
  let fend := end_of f in let rend := end_of r in
  let snapshot := Range fend (u64 (rend - fend)) (flags args) in
  let intersection := u64 (fend - Z.max (offset f) (offset r)) in
  let r' := Range (offset r) (u64 (size r - u64 (intersection + size snapshot))) (flags r) in
  let f' := Range (offset f) (u64 (size f + size snapshot)) (flags f) in
  set_ravl_data n f' ;;
  let! v := (if negb (size snapshot =? 0) then on_rest (add_snapshot snapshot) else ret 0) in
  if negb (v =? 0) then ret (v, r')
  else if negb (nprev =? 0) then
    let! fprev := ravl_data nprev in
    assert_ (rend =? offset fprev) "rend == fprev->offset" ;;
    set_ravl_data n (Range (offset f') (u64 (size f' + size fprev)) (flags f')) ;;
    on_tree (ravl_remove 2 loops nprev) ;;
    ret (0, r')
  else ret (0, r').
(** The loop over the ranges that touch [r], from the right to the left.
    [loops] bounds the loops of the operations on the tree. *)
Fixpoint add_ranges (fuel loops : nat) args r (p : ravl_predicate) (nprev : Z)
    : M (ravl tx_range_def * U) Z :=
  match fuel with
  | O => stop OutOfFuel
  | S fuel' =>
      if size r =? 0 then ret 0
      else
        let! n := on_tree (ravl_find tx_range_def_cmp loops (Range (end_of r) 0 0) p) in
        let p' := RAVL_PREDICATE_LESS in
        if n =? 0 then add_rest loops r nprev
        else
          let! f := ravl_data n in
          let fend := end_of f in let rend := end_of r in
          if (fend =? 0) || (fend <? offset r) then add_rest loops r nprev
          else if fend <=? rend then
            let! o := extend_left loops args r n f nprev in
            if negb (o.1 =? 0) then ret o.1 else add_ranges fuel' loops args o.2 p' n
          else
            let overlap := u64 (rend - Z.max (offset f) (offset r)) in
            add_ranges fuel' loops args (Range (offset r) (u64 (size r - overlap)) (flags r)) p' n
  end.
End ranges.
