(* ===== verification/TxRangesFacts.v ===== *)
(** * The ranges of a transaction: correctness

    The ranges in the tree are disjoint.  Adding a range makes the tree cover
    the bytes of the range as well, and snapshots exactly the bytes that were
    not covered before, each of them once. *)
From stdpp Require Import base list strings gmap sorting.
From S2P Require Import Prelude Ravl RavlTree RavlFacts TxRanges.
Open Scope Z_scope.

Implicit Types (r f args : tx_range_def).

(** ** Disjoint ranges *)

Record ok_range r : Prop := {
  or_offset : 0 ≤ offset r;
  or_size : 0 < size r;
  or_end : offset r + size r < U64;
}.
Definition apart (a b : tx_range_def) : Prop := offset a + size a ≤ offset b.
Definition covers r (q : Z) : Prop := offset r ≤ q < offset r + size r.
Definition covered (l : list tx_range_def) (q : Z) : Prop := ∃ r, r ∈ l ∧ covers r q.
Record ranges_ok (l : list tx_range_def) : Prop := {
  ro_ok : Forall ok_range l;
  ro_apart : StronglySorted apart l;
}.

Lemma covered_nil q : covered [] q ↔ False.
Proof. unfold covered. set_solver. Qed.
Lemma covered_cons r l q : covered (r :: l) q ↔ covers r q ∨ covered l q.
Proof. unfold covered. setoid_rewrite elem_of_cons. naive_solver. Qed.
Lemma covered_app l l' q : covered (l ++ l') q ↔ covered l q ∨ covered l' q.
Proof. unfold covered. setoid_rewrite elem_of_app. naive_solver. Qed.

Lemma ranges_ok_app l r l' :
  ranges_ok (l ++ r :: l') ↔
  ranges_ok l ∧ ranges_ok l' ∧ ok_range r ∧ Forall (λ a, apart a r) l ∧ Forall (apart r) l' ∧
  (∀ a b, a ∈ l → b ∈ l' → apart a b).
Proof.
  split.
  - intros [H1 H2]. apply Forall_app in H1 as [H1 H3]. apply Forall_cons in H3 as [H3 H4].
    apply StronglySorted_app in H2 as (H5&H6&H7). apply StronglySorted_inv in H7 as [H7 H8].
    rewrite !Forall_forall in *. split; [split; [by apply Forall_forall|done]|].
    split; [split; [by apply Forall_forall|done]|]. split; [done|]. split; [|split; [done|]]; set_solver.
  - intros ([H1 H2]&[H3 H4]&H5&H6&H7&H8). split.
    + apply Forall_app. split; [done|by constructor].
    + apply StronglySorted_app. split; [|split; [done|by constructor]].
      rewrite Forall_forall in H6. intros a b Ha. rewrite elem_of_cons. intros [->|Hb]; auto.
Qed.
Lemma ranges_ok_ordered (l : list (Z * tx_range_def)) : ranges_ok l.*2 → ordered offset l.
Proof.
  intros [H1 H2]. unfold ordered. induction l as [|a l IH]; [constructor|].
  rewrite fmap_cons in *. apply Forall_cons in H1 as [Ha H1]. apply StronglySorted_inv in H2 as [H2 H3].
  constructor; [auto|]. rewrite Forall_fmap in H3. eapply Forall_impl; [done|].
  intros b Hb. unfold lt_key, apart, compose in *. destruct Ha. lia.
Qed.
Lemma end_of_ok r : ok_range r → end_of r = offset r + size r.
Proof. intros []. unfold end_of. apply u64_small. lia. Qed.

(** ** Search *)

Lemma cmp_key a b : (tx_range_def_cmp a b ?= 0) = (offset a ?= offset b).
Proof.
  unfold tx_range_def_cmp. destruct (Z.ltb_spec (offset b) (offset a)), (Z.ltb_spec (offset a) (offset b));
    destruct (Z.compare_spec (offset a) (offset b)); try lia; done.
Qed.
Lemma found_less k (u v : list (Z * tx_range_def)) :
  Forall (λ a, offset a.2 < k) u → Forall (λ a, k ≤ offset a.2) v →
  found offset RAVL_PREDICATE_LESS k (u ++ v) = last_ptr u.
Proof.
  intros Hu Hv. unfold found. cbn [RAVL_PREDICATE_LESS p_equal p_greater p_less andb].
  rewrite filter_app, filter_all, filter_none, app_nil_r; [done| |done].
  eapply Forall_impl; [done|]. simpl; lia.
Qed.
Lemma found_less_equal k (u v : list (Z * tx_range_def)) :
  ordered offset (u ++ v) → Forall (λ a, offset a.2 ≤ k) u → Forall (λ a, k < offset a.2) v →
  found offset RAVL_PREDICATE_LESS_EQUAL k (u ++ v) = last_ptr u.
Proof.
  intros Ho Hu Hv. destruct u as [|a u _] using rev_ind; [by rewrite (found_miss offset _ _ [] v)|].
  rewrite <-app_assoc in *. simpl in *. apply ordered_mid in Ho as (_&_&Ho&_).
  unfold last_ptr at 1. rewrite last_snoc. apply Forall_app in Hu as [_ Ha]. apply Forall_cons in Ha as [Ha _].
  destruct (decide (offset a.2 = k)) as [<-|Hne].
  - by rewrite found_hit.
  - change (a :: v) with ([a] ++ v). rewrite app_assoc, found_miss; [|..|done].
    + unfold last_ptr. cbn. by rewrite last_snoc.
    + apply Forall_app. split; [eapply Forall_impl; [done|]; simpl; lia|]. constructor; [lia|done].
Qed.

Lemma split_at k (l : list (Z * tx_range_def)) :
  ordered offset l → ∃ u v, l = u ++ v ∧ Forall (λ a, offset a.2 ≤ k) u ∧ Forall (λ a, k < offset a.2) v.
Proof.
  unfold ordered. induction 1 as [|a l Hl (u&v&->&Hu&Hv) Ha]; [by exists [], []|].
  destruct (decide (offset a.2 ≤ k)) as [Hk|Hk].
  - exists (a :: u), v. split; [done|]. split; [by constructor|done].
  - exists [], (a :: u ++ v). split; [done|]. split; [done|]. constructor; [lia|].
    eapply Forall_impl; [exact Ha|]. unfold lt_key. intros b; simpl; lia.
Qed.

(** ** Adding a range to disjoint ranges *)

(** The snapshots [l] are those of the bytes of [r] that no range of [old] covers. *)
Record exact_snapshots (old : list tx_range_def) r (l : list tx_range_def) : Prop := {
  es_ok : Forall ok_range l;
  es_apart : StronglySorted (λ a b, apart b a) l;
  es_bytes : ∀ q, covered l q ↔ covers r q ∧ ¬ covered old q;
}.
(** A range keeps its flags when it grows; a range that is not one of the old ones
    has those of [r]. *)
Definition grown (old : list tx_range_def) f' : Prop := ∃ f, f ∈ old ∧ flags f = flags f' ∧ ∀ q, covers f q → covers f' q.
Definition flagged_by r f' : Prop := flags f' = flags r ∧ ∃ q, covers f' q ∧ covers r q.
Record merged (old new : list tx_range_def) r : Prop := {
  mg_ok : ranges_ok new;
  mg_bytes : ∀ q, covered new q ↔ covered old q ∨ covers r q;
  mg_flags : ∀ f', f' ∈ new → grown old f' ∨ flagged_by r f';
}.
Lemma grown_in (l : list tx_range_def) f : f ∈ l → grown l f.
Proof. intros Hf. by exists f. Qed.
(** One range is put in the place of some. *)
Lemma grown_mid (l old l' : list tx_range_def) f f1 f' :
  f ∈ old → flags f = flags f1 → (∀ q, covers f q → covers f1 q) → f' ∈ l ++ f1 :: l' → grown (l ++ old ++ l') f'.
Proof.
  intros Hf Hfl Hc. rewrite elem_of_app, elem_of_cons. intros [Hin|[->|Hin]]; [apply grown_in; set_solver| |apply grown_in; set_solver].
  exists f. split; [set_solver|done].
Qed.

Lemma apart_left l r q : Forall (λ a, apart a r) l → covered l q → q < offset r.
Proof. rewrite Forall_forall. intros H (a&Ha&Hq). specialize (H a Ha). unfold apart, covers in *. lia. Qed.
Lemma apart_right l r q : Forall (apart r) l → covered l q → offset r + size r ≤ q.
Proof. rewrite Forall_forall. intros H (a&Ha&Hq). specialize (H a Ha). unfold apart, covers in *. lia. Qed.
Lemma exact_none old r : size r = 0 → exact_snapshots old r [].
Proof.
  intros Hr. split; [constructor..|]. intros q. rewrite covered_nil. unfold covers. split; [done|]. lia.
Qed.
Lemma merged_none old r : ranges_ok old → size r = 0 → merged old old r.
Proof.
  intros Ho Hr. split; [done| |intros f' Hf'; left; by apply grown_in]. intros q. unfold covers. split; [auto|]. intros [?|?]; [done|lia].
Qed.
Lemma exact_one old r :
  ok_range r → (∀ q, covered old q → ¬ covers r q) → exact_snapshots old r [r].
Proof.
  intros Hr H. split; [by constructor|repeat constructor|].
  intros q. rewrite covered_cons, covered_nil. naive_solver.
Qed.

(** [r] as a range of its own. *)
Lemma insert_between l l' r :
  ranges_ok (l ++ l') → ok_range r → Forall (λ a, apart a r) l → Forall (apart r) l' →
  merged (l ++ l') (l ++ r :: l') r ∧ exact_snapshots (l ++ l') r [r].
Proof.
  intros Ho Hr Hl Hl'. split.
  - split.
    + apply ranges_ok_app. destruct Ho as [H1 H2]. apply Forall_app in H1 as [??].
      apply StronglySorted_app in H2 as (?&?&?). by repeat (split; [done|]).
    + intros q. rewrite !covered_app, covered_cons. tauto.
    + intros f'. rewrite elem_of_app, elem_of_cons. intros [Hf|[->|Hf]]; [left; apply grown_in; set_solver|right|left; apply grown_in; set_solver].
      split; [done|]. exists (offset r). destruct Hr. unfold covers. lia.
  - apply exact_one; [done|]. intros q [Hq|Hq]%covered_app Hr'; unfold covers in Hr'.
    + apply (apart_left _ _ _ Hl) in Hq. lia.
    + apply (apart_right _ _ _ Hl') in Hq. lia.
Qed.
(** [r] as the left end of the next range. *)
Definition grow_left r f : tx_range_def := Range (offset f - size r) (size f + size r) (flags f).
Lemma extend_between l f l' r :
  ranges_ok (l ++ f :: l') → ok_range r → Forall (λ a, apart a r) l → offset r + size r = offset f →
  merged (l ++ f :: l') (l ++ grow_left r f :: l') r ∧ exact_snapshots (l ++ f :: l') r [r].
Proof.
  intros Ho Hr Hl Hf. pose proof Ho as (Hol&Hol'&Hof&Haf&Haf'&Hall)%ranges_ok_app.
  destruct Hr as [Hr1 Hr2 Hr3]. destruct Hof as [Hf1 Hf2 Hf3]. split.
  - split.
    + apply ranges_ok_app. split; [done|]. split; [done|]. split; [split; simpl; lia|].
      split; [eapply Forall_impl; [exact Hl|]|split; [eapply Forall_impl; [exact Haf'|]|done]];
        unfold apart; simpl; intros a; lia.
    + intros q. rewrite !covered_app, !covered_cons. unfold covers at 1. cbn [grow_left offset size].
      unfold covers. intuition lia.
    + intros f' Hf'. left. eapply (grown_mid l [f] l' f); [set_solver|..|exact Hf']; [done|]. intros q. unfold covers. cbn [grow_left offset size]. lia.
  - apply exact_one; [done|]. intros q. rewrite covered_app, covered_cons. intros [Hq|[Hq|Hq]] Hq'; unfold covers in Hq'.
    + apply (apart_left _ _ _ Hl) in Hq. lia.
    + unfold covers in Hq. lia.
    + apply (apart_right _ _ _ Haf') in Hq. lia.
Qed.
(** A snapshot [sn] at the right end of [r], and the rest [r'] on its left. *)
Lemma step_exact old mid new r r' sn l :
  (∀ q, covered mid q ↔ covered old q ∨ covers sn q) →
  (∀ q, covers r q ↔ covers r' q ∨ covers sn q ∨ covers r q ∧ covered old q) →
  (∀ q, covers sn q → ¬ covered old q) → (∀ q, covers r' q → q < offset sn) →
  (size sn = 0 ∨ ok_range sn) → (∀ f', f' ∈ mid → grown old f') → flags r' = flags r → (∀ q, covers r' q → covers r q) →
  merged mid new r' → exact_snapshots mid r' l →
  merged old new r ∧ exact_snapshots old r (if size sn =? 0 then l else sn :: l).
Proof.
  intros Hmid Hr Hsn Hleft Hsize Hgr Hfl Hsub [Hok Hnew Hflags] [Hl Hsort Hbytes]. split.
  - split; [done| |].
    + intros q. rewrite Hnew, Hmid. specialize (Hr q). tauto.
    + intros f' [(f&Hf&Hff&Hfc)|[Hff (q&Hq1&Hq2)]]%Hflags.
      * left. destruct (Hgr f Hf) as (f0&Hf0&Hff0&Hfc0). exists f0. split; [done|]. split; [congruence|auto].
      * right. split; [congruence|]. exists q. auto.
  - assert (∀ q, covered l q ∨ covers sn q ↔ covers r q ∧ ¬ covered old q) as Hq.
    { intros q. rewrite Hbytes, Hmid. specialize (Hr q). specialize (Hsn q). specialize (Hleft q).
      unfold covers in *. destruct (decide (offset sn ≤ q)); intuition lia. }
    destruct (Z.eqb_spec (size sn) 0) as [Hs|Hs].
    + split; [done..|]. intros q. rewrite <-Hq. unfold covers. intuition lia.
    + destruct Hsize as [|Hsize]; [done|]. split; [by constructor| |].
      * constructor; [done|]. apply Forall_forall. intros a Ha. unfold apart.
        rewrite Forall_forall in Hl. destruct (Hl _ Ha).
        destruct (proj1 (Hbytes (offset a + size a - 1))) as [Hc _].
        { exists a. split; [done|]. unfold covers. lia. }
        apply Hleft in Hc. lia.
      * intros q. rewrite covered_cons, <-Hq. tauto.
Qed.

(** ** The loop *)

(** The part of [r] that the range [f] on its left does not cover. *)
Definition gap args r f : tx_range_def :=
  Range (offset f + size f) (offset r + size r - (offset f + size f)) (flags args).
Definition left_of r f : tx_range_def :=
  Range (offset r) (Z.max (offset f) (offset r) - offset r) (flags r).
Definition up_to f (e : Z) : tx_range_def := Range (offset f) (e - offset f) (flags f).

(** [f] grows up to the next range and over it. *)
Lemma merge_ranges l f fp l' args r :
  ranges_ok (l ++ f :: fp :: l') → ok_range r → offset r ≤ offset f + size f →
  offset r + size r = offset fp →
  let old := l ++ f :: fp :: l' in let mid := l ++ up_to f (offset fp + size fp) :: l' in
  ranges_ok mid ∧ (∀ q, covered mid q ↔ covered old q ∨ covers (gap args r f) q) ∧
  (∀ q, covers f q → covered old q) ∧ (∀ q, covers (gap args r f) q → ¬ covered old q) ∧ (∀ f', f' ∈ mid → grown old f').
Proof.
  intros Ho Hr Hf Hadj old mid. pose proof Ho as (Hl&Hl'&Hof&Hlf&Hfl&Hall)%ranges_ok_app.
  change (fp :: l') with ([] ++ fp :: l') in Hl'. apply ranges_ok_app in Hl' as (_&Hl'&Hofp&_&Hfpl&_).
  apply Forall_cons in Hfl as [Hffp _]. unfold apart in Hffp. destruct Hof as [Hf1 Hf2 Hf3], Hofp as [Hp1 Hp2 Hp3].
  split; [|split; [|split; [|split]]].
  - apply ranges_ok_app. split; [done|]. split; [done|]. split; [split; simpl; lia|].
    split; [by eapply Forall_impl|]. split; [|set_solver].
    eapply Forall_impl; [exact Hfpl|]. unfold apart. simpl. intros a; lia.
  - intros q. unfold old, mid. rewrite !covered_app, !covered_cons. unfold covers, gap, up_to. cbn [offset size].
    intuition lia.
  - intros q Hq. unfold old. rewrite covered_app, covered_cons. auto.
  - intros q Hq. unfold old. rewrite covered_app, !covered_cons. unfold covers, gap in *. cbn [offset size] in *.
    intros [Hc|[Hc|[Hc|Hc]]]; [apply (apart_left _ _ _ Hlf) in Hc|..|apply (apart_right _ _ _ Hfpl) in Hc]; lia.
  - intros f' Hf'. eapply (grown_mid l [f; fp] l' f); [set_solver|..|exact Hf']; [done|]. intros q. unfold covers. cbn [up_to offset size]. lia.
Qed.

(** [f] grows up to the end of [r]; the next range is further right. *)
Lemma grow_range l f l' args r :
  ranges_ok (l ++ f :: l') → ok_range r → offset r ≤ offset f + size f ≤ offset r + size r →
  Forall (λ a, offset r + size r ≤ offset a) l' →
  let old := l ++ f :: l' in let mid := l ++ up_to f (offset r + size r) :: l' in
  ranges_ok mid ∧ (∀ q, covered mid q ↔ covered old q ∨ covers (gap args r f) q) ∧
  (∀ q, covers f q → covered old q) ∧ (∀ q, covers (gap args r f) q → ¬ covered old q) ∧ (∀ f', f' ∈ mid → grown old f').
Proof.
  intros Ho Hr Hf Hl'r old mid. pose proof Ho as (Hl&Hl'&Hof&Hlf&Hfl&Hall)%ranges_ok_app.
  destruct Hof as [Hf1 Hf2 Hf3], Hr as [Hr1 Hr2 Hr3]. split; [|split; [|split; [|split]]].
  - apply ranges_ok_app. split; [done|]. split; [done|]. split; [split; simpl; lia|].
    split; [by eapply Forall_impl|]. split; [|done].
    eapply Forall_impl; [exact Hl'r|]. unfold apart. simpl. intros a; lia.
  - intros q. unfold old, mid. rewrite !covered_app, !covered_cons. unfold covers, gap, up_to. cbn [offset size].
    intuition lia.
  - intros q Hq. unfold old. rewrite covered_app, covered_cons. auto.
  - intros q Hq. unfold old. rewrite covered_app, !covered_cons. unfold covers, gap in *. cbn [offset size] in *.
    assert (Forall (apart r) l') as Hrl by done.
    intros [Hc|[Hc|Hc]]; [apply (apart_left _ _ _ Hlf) in Hc|..|apply (apart_right _ _ _ Hrl) in Hc]; lia.
  - intros f' Hf'. eapply (grown_mid l [f] l' f); [set_solver|..|exact Hf']; [done|]. intros q. unfold covers. cbn [up_to offset size]. lia.
Qed.

Section loop.
Context {U : Type}.
Context (Malloc : nat → gmap Z (ravl_node tx_range_def) → option Z).
Context (Malloc_fresh : ∀ k m p, Malloc k m = Some p → p ≠ 0 ∧ m !! p = None).
Context (add_snapshot : tx_range_def → M U Z).
(** A snapshot of bytes that may be logged is taken or is refused; the rest of
    the transaction keeps its invariant. *)
Context (I : U → Prop) (loggable : Z → Prop).
Context (snapshot_returns : ∀ r s, I s → ok_range r → (∀ q, covers r q → loggable q) →
  ∃ v s', add_snapshot r s = Ok v s' ∧ I s').
Implicit Types (t : ravl tx_range_def) (s : U) (u v w : list (Z * tx_range_def)).

(** The snapshots of a list of ranges, up to the first one that fails. *)
Fixpoint snaps (l : list tx_range_def) : M U Z :=
  match l with
  | [] => ret 0
  | r :: l' => let! v := add_snapshot r in if v =? 0 then snaps l' else ret v
  end.

(** The run of the loop on the rest [r] of the range. *)
Definition new_loggable (old : list tx_range_def) r : Prop := ∀ q, covers r q → ¬ covered old q → loggable q.
Definition snapped s (old : list tx_range_def) r (run : res (ravl tx_range_def * U) Z) : Prop :=
  ∃ e t' x' s' l, run = Ok e (t', s') ∧ tree_ok offset t' x' ∧ snaps l s = Ok e s' ∧ I s' ∧
    (length (inorder x') ≤ S (length old))%nat ∧ (e = 0 → merged old (inorder x').*2 r ∧ exact_snapshots old r l).
(** It may also find no memory for a node. *)
Definition adds t s (old : list tx_range_def) r (run : res (ravl tx_range_def * U) Z) : Prop :=
  snapped s old r run ∨
  Malloc (mallocs t) (nodes t) = None ∧ ∃ t' x', run = Ok (-1) (t', s) ∧ tree_ok offset t' x' ∧ (length (inorder x') ≤ S (length old))%nat.

Lemma on_tree_Ok {A} (c : M (ravl tx_range_def) A) t s a t' :
  c t = Ok a t' → on_tree c (t, s) = Ok a (t', s).
Proof. intros H. unfold on_tree, zoom. simpl. by rewrite H. Qed.
Lemma on_rest_Ok {A} (c : M U A) t s a s' :
  c s = Ok a s' → on_rest c (t, s) = Ok a (t, s').
Proof. intros H. unfold on_rest, zoom. simpl. by rewrite H. Qed.
Lemma ravl_data_Ok t s x n f u v :
  tree_ok offset t x → inorder x = u ++ (n, f) :: v → ravl_data n (t, s) = Ok f (t, s).
Proof.
  intros H Hx. destruct (node_ok _ _ _ _ _ _ _ H Hx) as (_&nd&Hn&<-). unfold ravl_data.
  by rewrite (bind_Ok _ _ _ _ _ (on_tree_Ok _ _ s _ _ (deref_Ok _ _ _ Hn))).
Qed.
Lemma set_ravl_data_Ok t s x n f f' u v :
  tree_ok offset t x → inorder x = u ++ (n, f) :: v → ordered offset (u ++ (n, f') :: v) →
  ∃ t' x', set_ravl_data n f' (t, s) = Ok tt (t', s) ∧ tree_ok offset t' x' ∧
    inorder x' = u ++ (n, f') :: v ∧ mallocs t' = mallocs t.
Proof.
  intros H Hx Ho. destruct (write_ok _ _ _ _ _ _ _ _ H Hx Ho) as (t'&x'&Ht&Hok&Hm&Hx'&_).
  exists t', x'. split; [|done]. unfold set_ravl_data. by rewrite (on_tree_Ok _ _ _ _ _ Ht).
Qed.

Lemma add_rest_extend loops t s x r np fp u v :
  tree_ok offset t x → inorder x = u ++ (np, fp) :: v → ranges_ok (inorder x).*2 → ok_range r →
  offset r + size r = offset fp → Forall (λ a, apart a r) u.*2 → I s → new_loggable (inorder x).*2 r →
  snapped s (inorder x).*2 r (add_rest Malloc add_snapshot loops r np (t, s)).
Proof.
  intros H Hx Ho Hr Hend Hu HI Hlog. destruct (node_ok _ _ _ _ _ _ _ H Hx) as [Hnp _]. unfold add_rest.
  rewrite (proj2 (Z.eqb_neq np 0)) by done. cbn [negb].
  pose proof Ho as Ho'. rewrite Hx, fmap_app, fmap_cons in Ho'. cbn [snd] in Ho'.
  pose proof Ho' as (_&_&Hfp&_)%ranges_ok_app.
  destruct (extend_between _ _ _ r Ho' Hr Hu Hend) as [Hm He].
  assert (Range (u64 (offset fp - size r)) (u64 (size fp + size r)) (flags fp) = grow_left r fp) as Hg.
  { destruct Hr, Hfp. unfold grow_left. by rewrite !u64_small by lia. }
  destruct (set_ravl_data_Ok t s x np fp (grow_left r fp) u v H Hx) as (t'&x'&Hset&Hok&Hx'&_).
  { apply ranges_ok_ordered. rewrite fmap_app, fmap_cons. apply Hm. }
  destruct (snapshot_returns r s HI Hr) as (e&s'&Hsn&HI').
  { intros q Hq. apply Hlog; [done|]. intros Hc. rewrite Hx, fmap_app, fmap_cons in Hc. cbn [snd] in Hc.
    apply (es_bytes _ _ _ He q); [|done]. rewrite covered_cons. by left. }
  exists e, t', x', s', [r]. split; [|split; [done|split; [|split; [done|split; [rewrite length_fmap, Hx, Hx', !length_app; simpl; lia|]]]]].
  - erewrite bind_Ok.
    2: { rewrite (bind_Ok _ _ _ _ _ (ravl_data_Ok t s x np fp u v H Hx)).
         rewrite end_of_ok, Hend, Z.eqb_refl by done. cbn [assert_]. rewrite Hg.
         erewrite bind_Ok by done. rewrite (bind_Ok _ _ _ _ _ Hset). done. }
    cbn. by rewrite (on_rest_Ok _ _ _ _ _ Hsn).
  - simpl. unfold bind. rewrite Hsn. destruct (Z.eqb_spec e 0) as [->|]; done.
  - intros _. by rewrite Hx, Hx', !fmap_app, !fmap_cons.
Qed.
Lemma add_rest_insert loops t s x r :
  tree_ok offset t x → ranges_ok (inorder x).*2 → ok_range r →
  (∀ a, a ∈ (inorder x).*2 → apart a r ∨ apart r a) → (length (inorder x) < loops)%nat →
  I s → new_loggable (inorder x).*2 r →
  adds t s (inorder x).*2 r (add_rest Malloc add_snapshot loops r 0 (t, s)).
Proof using Malloc_fresh snapshot_returns.
  intros H Ho Hr Hap Hloops HI Hlog. unfold add_rest, tx_lane_ranges_insert_def, ravl_emplace_copy. cbn [Z.eqb negb].
  destruct (emplace_ok offset tx_range_def_cmp cmp_key Malloc Malloc_fresh loops t x r H Hloops)
    as (e&t'&Hrun&_&[(Hwhy&->&Hn&Hroot)|(Hnew&->&n&u&w&x'&Hmal&Hok&Hxu&Hx')]).
  - right. assert (Malloc (mallocs t) (nodes t) = None) as Hmal.
    { destruct Hwhy as [Hmal|(a&Ha&Hk)]; [done|exfalso].
      destruct (Hap a.2) as [Hl|Hl]; [by apply list_elem_of_fmap_2| |]; unfold apart in Hl; [|destruct Hr; lia].
      destruct Ho as [Hall _]. rewrite Forall_forall in Hall.
      destruct (Hall a.2) as [_ Hs _]; [by apply list_elem_of_fmap_2|]. lia. }
    split; [done|]. exists t', x. split.
    + erewrite bind_Ok; [|by rewrite (bind_Ok _ _ _ _ _ (on_tree_Ok _ _ s _ _ Hrun))]. done.
    + split; [|rewrite length_fmap; lia]. destruct H as [Hrep Hord Hrk]. split; [|done..]. eapply repr_agree, Hrep; [by rewrite Hn|done].
  - left. destruct (snapshot_returns r s HI Hr) as (e&s'&Hsn&HI').
    { intros q Hq. apply Hlog; [done|]. intros (a&Ha&Haq). destruct (Hap a Ha); unfold apart, covers in *; lia. }
    exists e, t', x', s', [r]. split; [|split; [done|split; [|split; [done|split; [rewrite length_fmap, Hxu, Hx', !length_app; simpl; lia|]]]]].
    + erewrite bind_Ok; [|by rewrite (bind_Ok _ _ _ _ _ (on_tree_Ok _ _ s _ _ Hrun))]. cbn.
      by rewrite (on_rest_Ok _ _ _ _ _ Hsn).
    + simpl; unfold bind; rewrite Hsn; by destruct (Z.eqb_spec e 0) as [->|].
    + intros _. pose proof (ok_order _ _ _ Hok) as Hord. rewrite Hx' in Hord.
      apply ordered_mid in Hord as (_&_&Hu&Hw&_). rewrite Hx', Hxu in *. rewrite !fmap_app, fmap_cons in *.
      cbn [snd] in *. rewrite Forall_forall in Hu, Hw. destruct Hr as [Hr1 Hr2 Hr3].
      destruct Ho as [Hall Hsort]. pose proof Hall as Hall'. rewrite Forall_forall in Hall'.
      assert (∀ b, b ∈ u ++ w → apart b.2 r ∨ apart r b.2) as Hap'.
      { intros b Hb. apply Hap. rewrite <-fmap_app. by apply list_elem_of_fmap_2. }
      assert (∀ b, b ∈ u ++ w → 0 < size b.2) as Hpos.
      { intros b Hb. apply (Hall' b.2). rewrite <-fmap_app. by apply list_elem_of_fmap_2. }
      apply insert_between; [by split|done|..]; apply Forall_fmap, Forall_forall; intros b Hb; simpl.
      * specialize (Hu b Hb). assert (b ∈ u ++ w) as Hin by (apply elem_of_app; auto).
        specialize (Hpos b Hin). destruct (Hap' b Hin); [done|]. unfold apart in *. lia.
      * specialize (Hw b Hb). assert (b ∈ u ++ w) as Hin by (apply elem_of_app; auto).
        specialize (Hpos b Hin). destruct (Hap' b Hin); [|done]. unfold apart in *. lia.
Qed.

Lemma same_keys u v n f f' :
  offset f' = offset f → ordered offset (u ++ (n, f) :: v) → ordered offset (u ++ (n, f') :: v).
Proof. intros Hf. rewrite !ordered_mid. cbn [snd]. by rewrite Hf. Qed.
(** The snapshot of the gap, if there is one. *)
Definition snap_gap args r f (e : Z) s s' : Prop :=
  if size (gap args r f) =? 0 then e = 0 ∧ s' = s else add_snapshot (gap args r f) s = Ok e s'.

Lemma extend_left_sizes args r f :
  ok_range r → ok_range f → offset r ≤ offset f + size f ≤ offset r + size r →
  Range (end_of f) (u64 (end_of r - end_of f)) (flags args) = gap args r f ∧
  Range (offset r) (u64 (size r - u64 (u64 (end_of f - Z.max (offset f) (offset r)) + size (gap args r f)))) (flags r)
    = left_of r f ∧
  Range (offset f) (u64 (size f + size (gap args r f))) (flags f) = up_to f (offset r + size r).
Proof.
  intros Hr Hf Hends. rewrite !end_of_ok by done. destruct Hr as [Hr1 Hr2 Hr3], Hf as [Hf1 Hf2 Hf3].
  unfold gap, left_of, up_to. cbn [size].
  rewrite (u64_small (offset r + size r - _)), (u64_small (offset f + size f - _)) by lia.
  rewrite (u64_small (_ - _ + _)), (u64_small (size r - _)), (u64_small (size f + _)) by lia.
  split; [done|]. split; f_equal; lia.
Qed.
Lemma snap_gap_returns args r f t s :
  I s → (size (gap args r f) ≠ 0 → ok_range (gap args r f)) → (∀ q, covers (gap args r f) q → loggable q) →
  ∃ e s', (if negb (size (gap args r f) =? 0) then on_rest (add_snapshot (gap args r f)) else ret 0) (t, s)
      = Ok e (t, s') ∧ snap_gap args r f e s s' ∧ I s'.
Proof using snapshot_returns.
  intros HI Hok Hlog. unfold snap_gap. destruct (Z.eqb_spec (size (gap args r f)) 0) as [|Hne]; [by exists 0, s|].
  destruct (snapshot_returns (gap args r f) s HI (Hok Hne) Hlog) as (e&s'&Hs&HI'). exists e, s'. split; [|done].
  by rewrite (on_rest_Ok _ _ _ _ _ Hs).
Qed.
Section extend.
Context (loops : nat) (args : tx_range_def) (t : ravl tx_range_def) (s : U) (x : tree tx_range_def).
Context (r f : tx_range_def) (n : Z) (u v : list (Z * tx_range_def)).
Context (H : tree_ok offset t x) (Hr : ok_range r) (Hf : ok_range f).
Context (Hends : offset r ≤ offset f + size f ≤ offset r + size r).
Context (HI : I s) (Hlog : ∀ q, covers (gap args r f) q → loggable q).

Lemma gap_ok : size (gap args r f) ≠ 0 → ok_range (gap args r f).
Proof using Hr Hf Hends.
  intros Hne. unfold gap in *. cbn [size] in Hne. destruct Hr, Hf. split; cbn [offset size]; lia.
Qed.
Lemma extend_alone :
  inorder x = u ++ (n, f) :: v →
  ∃ e t' x' s', extend_left add_snapshot loops args r n f 0 (t, s) = Ok (e, left_of r f) (t', s') ∧
    tree_ok offset t' x' ∧ snap_gap args r f e s s' ∧ I s' ∧ inorder x' = u ++ (n, up_to f (offset r + size r)) :: v.
Proof using H Hr Hf Hends HI Hlog snapshot_returns.
  intros Hx. unfold extend_left. destruct (extend_left_sizes args r f Hr Hf Hends) as (Hg&Hl&Hu).
  rewrite Hg, Hl, Hu.
  destruct (set_ravl_data_Ok t s x n f (up_to f (offset r + size r)) u v H Hx) as (t'&x'&Hset&Hok&Hx'&_).
  { apply (same_keys _ _ _ f); [done|]. rewrite <-Hx. apply H. }
  rewrite (bind_Ok _ _ _ _ _ Hset). destruct (snap_gap_returns args r f t' s HI gap_ok Hlog) as (e&s'&Hsn&Hgap&HI').
  rewrite (bind_Ok _ _ _ _ _ Hsn). exists e, t', x', s'. split; [|done].
  destruct (Z.eqb_spec e 0) as [->|]; done.
Qed.
Lemma extend_merge np fp :
  inorder x = u ++ (n, f) :: (np, fp) :: v → ok_range fp → offset r + size r = offset fp →
  (length (inorder x) < loops)%nat →
  ∃ e t' x' s', extend_left add_snapshot loops args r n f np (t, s) = Ok (e, left_of r f) (t', s') ∧
    tree_ok offset t' x' ∧ snap_gap args r f e s s' ∧ I s' ∧ (length (inorder x') ≤ length (inorder x))%nat ∧
    (e = 0 → ∃ w, w.*2 = v.*2 ∧ inorder x' = u ++ (n, up_to f (offset fp + size fp)) :: w).
Proof using H Hr Hf Hends HI Hlog snapshot_returns.
  intros Hx Hfp Hadj Hloops. unfold extend_left. destruct (extend_left_sizes args r f Hr Hf Hends) as (Hg&Hl&Hu).
  rewrite Hg, Hl, Hu. set (f1 := up_to f (offset r + size r)).
  destruct (set_ravl_data_Ok t s x n f f1 u ((np, fp) :: v) H Hx) as (t1&x1&Hset1&Hok1&Hx1&_).
  { apply (same_keys _ _ _ f); [done|]. rewrite <-Hx. apply H. }
  rewrite (bind_Ok _ _ _ _ _ Hset1). destruct (snap_gap_returns args r f t1 s HI gap_ok Hlog) as (e&s'&Hsn&Hgap&HI').
  rewrite (bind_Ok _ _ _ _ _ Hsn).
  assert (inorder x1 = (u ++ [(n, f1)]) ++ (np, fp) :: v) as Hx1' by (rewrite Hx1; by simplify_list_eq).
  destruct (node_ok _ _ _ _ _ _ _ Hok1 Hx1') as [Hnp _].
  destruct (Z.eqb_spec e 0) as [->|He]; cbn [negb]; [|exists e, t1, x1, s'; repeat (split; [done|]); by rewrite Hx1, Hx, !length_app].
  rewrite (proj2 (Z.eqb_neq np 0)) by done. cbn [negb].
  rewrite (bind_Ok _ _ _ _ _ (ravl_data_Ok t1 s' x1 np fp _ _ Hok1 Hx1')).
  rewrite end_of_ok, Hadj, Z.eqb_refl by done. cbn [assert_]. erewrite (bind_Ok (ret tt)) by done.
  assert (Range (offset f1) (u64 (size f1 + size fp)) (flags f1) = up_to f (offset fp + size fp)) as Hf2.
  { destruct Hr, Hf, Hfp. unfold f1, up_to. cbn [size offset flags]. rewrite u64_small by lia. f_equal. lia. }
  rewrite Hf2.
  destruct (set_ravl_data_Ok t1 s' x1 n f1 (up_to f (offset fp + size fp)) u ((np, fp) :: v) Hok1 Hx1)
    as (t2&x2&Hset2&Hok2&Hx2&_).
  { eapply (same_keys _ _ _ f1); [done|]. rewrite <-Hx1. apply Hok1. }
  rewrite (bind_Ok _ _ _ _ _ Hset2).
  assert (inorder x2 = (u ++ [(n, up_to f (offset fp + size fp))]) ++ (np, fp) :: v) as Hx2' by (rewrite Hx2; by simplify_list_eq).
  destruct (remove_ok offset 2 loops t2 x2 np fp _ _ Hok2 Hx2') as (t3&x3&gone&Hrem&Hok3&_&Hsplit&_); [lia| |].
  { rewrite Hx in Hloops. rewrite Hx2. rewrite length_app in *. done. }
  rewrite (bind_Ok _ _ _ _ _ (on_tree_Ok _ _ s' _ _ Hrem)). exists 0, t3, x3, s'. repeat (split; [done|]).
  split; [destruct Hsplit as [[-> _]|(d&v'&->&->)]; rewrite Hx, ?length_app; simpl; rewrite ?length_app; simpl; lia|].
  intros _. destruct Hsplit as [[Hw _]|(d&v'&->&Hw)]; rewrite Hw.
  - exists v. split; [done|]. by simplify_list_eq.
  - exists ((np, d) :: v'). split; [done|]. by simplify_list_eq.
Qed.
End extend.

(** A failed snapshot ends the loop; after one that was taken, the loop goes on
    with the rest. *)
Lemma snapped_fail s old r args f e t' x' s' :
  snap_gap args r f e s s' → e ≠ 0 → tree_ok offset t' x' → I s' → (length (inorder x') ≤ S (length old))%nat →
  snapped s old r (Ok e (t', s')).
Proof.
  unfold snap_gap. intros Hs He Hok HI Hlen. destruct (size (gap args r f) =? 0); [by destruct Hs|].
  exists e, t', x', s', [gap args r f]. split; [done|]. split; [done|]. split; [|by split_and!].
  simpl. unfold bind. rewrite Hs. by rewrite (proj2 (Z.eqb_neq e 0)).
Qed.
Lemma snapped_step s s' old mid r args f run :
  snap_gap args r f 0 s s' → ok_range r → ok_range f → offset r ≤ offset f + size f ≤ offset r + size r →
  (∀ q, covered mid q ↔ covered old q ∨ covers (gap args r f) q) →
  (∀ q, covers f q → covered old q) → (∀ q, covers (gap args r f) q → ¬ covered old q) → (∀ f', f' ∈ mid → grown old f') →
  (length mid ≤ length old)%nat → snapped s' mid (left_of r f) run → snapped s old r run.
Proof.
  intros Hs Hr Hf Hends Hmid Hfold Hgap Hgr Hlen (e&t'&x'&s2&l&Hrun&Hok&Hl&HI&Hlen'&Hdone).
  exists e, t', x', s2, (if size (gap args r f) =? 0 then l else gap args r f :: l).
  split; [done|]. split; [done|]. split; [|split; [done|split; [lia|]]].
  - unfold snap_gap in Hs. destruct (size (gap args r f) =? 0); [by destruct Hs as [_ ->]|].
    simpl. unfold bind. by rewrite Hs.
  - intros He. destruct (Hdone He) as [Hm Hex]. destruct Hr as [Hr1 Hr2 Hr3], Hf as [Hf1 Hf2 Hf3].
    eapply (step_exact old mid _ r (left_of r f) (gap args r f)); [exact Hmid| |exact Hgap| | |exact Hgr|done| |done|done].
    + intros q. specialize (Hfold q). unfold covers, left_of, gap in *. cbn [offset size] in *.
      destruct (decide (offset f ≤ q < offset f + size f)); intuition lia.
    + intros q. unfold covers, left_of, gap. cbn [offset size]. lia.
    + unfold gap. cbn [size]. destruct (decide (offset r + size r - (offset f + size f) = 0)); [by left|right].
      split; cbn [offset size]; lia.
    + intros q. unfold covers, left_of. cbn [offset size]. lia.
Qed.

Lemma find_Ok fuel t s x k p :
  tree_ok offset t x → one_sided p → (2 * length (inorder x) < fuel)%nat →
  on_tree (ravl_find tx_range_def_cmp fuel (Range k 0 0) p) (t, s) = Ok (found offset p k (inorder x)) (t, s).
Proof. intros H Hp Hfuel. apply on_tree_Ok. by rewrite (find_ok offset _ cmp_key fuel t x _ p). Qed.
Lemma nothing_left fuel loops args r p np t s x :
  tree_ok offset t x → ranges_ok (inorder x).*2 → size r = 0 → I s →
  snapped s (inorder x).*2 r (add_ranges Malloc add_snapshot (S fuel) loops args r p np (t, s)).
Proof.
  intros H Ho Hr HI. exists 0, t, x, s, []. cbn [add_ranges]. rewrite Hr. split; [done|]. split; [done|].
  split; [done|]. split; [done|]. split; [rewrite length_fmap; lia|]. intros _. split; [by apply merged_none|by apply exact_none].
Qed.
(** The ranges that touch in a sorted list of ranges. *)
Lemma apart_all (l : list tx_range_def) f l' r :
  ranges_ok (l ++ f :: l') → apart f r → Forall (λ a, apart a r) (l ++ [f]).
Proof.
  intros (_&_&Hf&Hl&_)%ranges_ok_app Hfr. apply Forall_app. split; [|by constructor].
  eapply Forall_impl; [exact Hl|]. unfold apart in *. destruct Hf. intros a; simpl; lia.
Qed.

Lemma left_of_ok r f :
  ok_range r → ok_range f →
  size (left_of r f) = 0 ∨ ok_range (left_of r f) ∧ offset (left_of r f) + size (left_of r f) = offset f.
Proof.
  intros [] []. unfold left_of. cbn [size offset]. destruct (decide (offset f ≤ offset r)); [left; lia|right].
  split; [split; cbn [size offset]; lia|]. lia.
Qed.
Lemma keys_below u f : Forall (λ a, apart a f) u.*2 → Forall ok_range u.*2 → Forall (λ a, offset a.2 < offset f) u.
Proof.
  rewrite !Forall_fmap, !Forall_forall. intros H1 H2 a Ha. specialize (H1 a Ha). destruct (H2 a Ha).
  unfold apart, compose in *. lia.
Qed.
Lemma keys_above v f : Forall (apart f) v.*2 → ok_range f → Forall (λ a, offset f ≤ offset a.2) v.
Proof.
  rewrite !Forall_fmap, !Forall_forall. intros H1 [] a Ha. specialize (H1 a Ha).
  unfold apart, compose in *. lia.
Qed.
Lemma gap_loggable old args r f :
  new_loggable old r → ok_range f → offset r ≤ offset f + size f → (∀ q, covers (gap args r f) q → ¬ covered old q) →
  ∀ q, covers (gap args r f) q → loggable q.
Proof. intros Hlog Hf Hle Hgap q Hq. apply Hlog; [|by apply Hgap]. unfold covers, gap in *. cbn [offset size] in *. lia. Qed.
Lemma left_loggable old mid sn r f :
  new_loggable old r → ok_range r → offset f ≤ offset r + size r → (∀ q, covered mid q ↔ covered old q ∨ covers sn q) →
  new_loggable mid (left_of r f).
Proof.
  intros Hlog [] Hf Hmid q Hq Hn. apply Hlog; [|rewrite Hmid in Hn; tauto]. unfold covers, left_of in *. cbn [offset size] in *. lia.
Qed.
Lemma add_less fuel loops args r t s x np fp u v :
  tree_ok offset t x → inorder x = u ++ (np, fp) :: v → ranges_ok (inorder x).*2 →
  (size r = 0 ∨ ok_range r ∧ offset r + size r = offset fp) →
  (length u < fuel)%nat → (2 * length (inorder x) < loops)%nat → I s → new_loggable (inorder x).*2 r →
  snapped s (inorder x).*2 r
    (add_ranges Malloc add_snapshot fuel loops args r RAVL_PREDICATE_LESS np (t, s)).
Proof.
  revert r t s x np fp u v. induction fuel as [|fuel IH]; intros r t s x np fp u v H Hx Ho Hr Hfuel Hloops HI Hlog; [lia|].
  destruct (Z.eqb_spec (size r) 0) as [Hr0|Hr0]; [by apply nothing_left|].
  destruct Hr as [|[Hr Hadj]]; [done|]. cbn [add_ranges]. rewrite (proj2 (Z.eqb_neq (size r) 0)) by done.
  pose proof Ho as Ho'. rewrite Hx, fmap_app, fmap_cons in Ho'. cbn [snd] in Ho'.
  pose proof Ho' as (_&_&Hfp&Hu&Hv&_)%ranges_ok_app.
  rewrite end_of_ok, Hadj by done.
  rewrite (bind_Ok _ _ _ _ _ (find_Ok loops t s x _ RAVL_PREDICATE_LESS H ltac:(done) Hloops)).
  rewrite Hx, found_less.
  2: { destruct Ho' as [Hok _]. apply Forall_app in Hok as [Hok _]. by apply keys_below. }
  2: { constructor; [simpl; lia|]. by apply keys_above. }
  rewrite <-Hx. destruct u as [|[n f] u _] using rev_ind.
  { by eapply add_rest_extend. }
  unfold last_ptr. rewrite last_snoc. cbn [fst]. rewrite <-app_assoc in Hx. cbn [app] in Hx.
  destruct (node_ok _ _ _ _ _ _ _ H Hx) as [Hn _]. rewrite (proj2 (Z.eqb_neq n 0)) by done.
  rewrite (bind_Ok _ _ _ _ _ (ravl_data_Ok t s x n f _ _ H Hx)).
  rewrite fmap_app in Hu, Ho'. apply Forall_app in Hu as [_ Hu]. apply Forall_cons in Hu as [Hfr _]. cbn in Hfr.
  rewrite <-app_assoc in Ho'. cbn in Ho'. pose proof Ho' as (_&_&Hf&_)%ranges_ok_app.
  rewrite end_of_ok by done. rewrite (proj2 (Z.eqb_neq _ 0)) by (destruct Hf; lia). cbn [orb].
  destruct (Z.ltb_spec (offset f + size f) (offset r)) as [Hlt|Hge].
  { eapply (add_rest_extend _ _ _ _ _ _ _ (u ++ [(n, f)])); try done; [rewrite Hx; by simplify_list_eq|].
    rewrite fmap_app. eapply apart_all; [exact Ho'|]. unfold apart. cbn. lia. }
  unfold apart in Hfr. cbn in Hfr. rewrite (proj2 (Z.leb_le _ _)) by lia.
  destruct (merge_ranges u.*2 f fp v.*2 args r) as (Ho2&Hb1&Hb2&Hb3&Hb4); [done..|lia|done|].
  assert ((inorder x).*2 = u.*2 ++ f :: fp :: v.*2) as Hold by (rewrite Hx, fmap_app, !fmap_cons; done).
  destruct (extend_merge loops args t s x r f n u v H Hr Hf) with (np := np) (fp := fp)
    as (e&t'&x'&s'&Hrun&Hok&Hsn&HI'&Hle&Hmid); [lia|done|rewrite Hold in Hlog; exact (gap_loggable _ args r f Hlog Hf ltac:(lia) Hb3)|done..|lia|].
  rewrite (bind_Ok _ _ _ _ _ Hrun). cbn [fst snd].
  destruct (Z.eqb_spec e 0) as [->|He]; cbn [negb]; [|eapply snapped_fail; try done; rewrite ?length_fmap; try rewrite Hx', Hx, !length_app; simpl; lia].
  destruct (Hmid eq_refl) as (w&Hw&Hx').
  assert ((inorder x').*2 = u.*2 ++ up_to f (offset fp + size fp) :: v.*2) as Hnew by (rewrite Hx', fmap_app, fmap_cons, Hw; done).
  rewrite Hold. eapply (snapped_step _ _ _ _ _ args f); [exact Hsn|done|done|lia|exact Hb1|exact Hb2|exact Hb3|exact Hb4|rewrite !length_app; simpl; lia|].
  rewrite <-Hnew. eapply IH; [done|exact Hx'|by rewrite Hnew|exact (left_of_ok r f Hr Hf)
    |rewrite length_app in Hfuel; simpl in Hfuel; lia| |done|rewrite Hnew; rewrite Hold in Hlog; exact (left_loggable _ _ _ r f Hlog Hr ltac:(destruct Hf; lia) Hb1)].
  assert (length w = length v) as Hlen by (rewrite <-(length_fmap snd w), Hw; apply length_fmap).
  rewrite Hx in Hloops. rewrite Hx', !length_app in *. simpl in *. lia.
Qed.

(** The rest after an overlap on the right needs the same snapshots. *)
Lemma snapped_covered s old r r' run :
  (∀ q, covers r q ∨ covered old q ↔ covers r' q ∨ covered old q) → flags r' = flags r → (∀ q, covers r' q → covers r q) →
  snapped s old r' run → snapped s old r run.
Proof.
  intros Hq Hfl Hsub (e&t'&x'&s'&l&Hrun&Hok&Hl&HI&Hlen&Hdone). exists e, t', x', s', l. repeat (split; [done|]).
  intros He. destruct (Hdone He) as [[Hm1 Hm2 Hm3] [He1 He2 He3]]. split; split; try done; intros q.
  - rewrite Hm2. specialize (Hq q). tauto.
  - intros [Hg|[Hff (o&Ho1&Ho2)]]%Hm3; [by left|right]. split; [congruence|]. exists o. auto.
  - rewrite He3. specialize (Hq q). tauto.
Qed.

Lemma add_first fuel loops args r t s x :
  tree_ok offset t x → ranges_ok (inorder x).*2 → (size r = 0 ∨ ok_range r) →
  (S (length (inorder x)) < fuel)%nat → (2 * length (inorder x) < loops)%nat → I s → new_loggable (inorder x).*2 r →
  adds t s (inorder x).*2 r
    (add_ranges Malloc add_snapshot fuel loops args r RAVL_PREDICATE_LESS_EQUAL 0 (t, s)).
Proof.
  intros H Ho Hr Hfuel Hloops HI Hlog. destruct fuel as [|fuel]; [lia|].
  destruct (Z.eqb_spec (size r) 0) as [Hr0|Hr0]; [left; by apply nothing_left|].
  destruct Hr as [|Hr]; [done|]. cbn [add_ranges]. rewrite (proj2 (Z.eqb_neq (size r) 0)) by done.
  rewrite end_of_ok by done.
  rewrite (bind_Ok _ _ _ _ _ (find_Ok loops t s x _ RAVL_PREDICATE_LESS_EQUAL H ltac:(done) Hloops)).
  destruct (split_at (offset r + size r) (inorder x)) as (u&v&Hx&Hu&Hv); [by apply ranges_ok_ordered|].
  rewrite Hx, found_less_equal by (try done; rewrite <-Hx; apply H). rewrite <-Hx.
  assert (Forall (λ a, offset r + size r ≤ offset a) v.*2) as Hv2.
  { apply Forall_fmap. eapply Forall_impl; [exact Hv|]. unfold compose. simpl. intros a; lia. }
  destruct u as [|[n f] u _] using rev_ind.
  { simpl. apply add_rest_insert; [done..| |lia|done|done]. intros a Ha. right. rewrite Hx in Ha.
    rewrite Forall_forall in Hv2. by apply Hv2. }
  unfold last_ptr. rewrite last_snoc. cbn [fst]. rewrite <-app_assoc in Hx. cbn [app] in Hx.
  destruct (node_ok _ _ _ _ _ _ _ H Hx) as [Hn _]. rewrite (proj2 (Z.eqb_neq n 0)) by done.
  rewrite (bind_Ok _ _ _ _ _ (ravl_data_Ok t s x n f _ _ H Hx)).
  assert ((inorder x).*2 = u.*2 ++ f :: v.*2) as Hold by (by rewrite Hx, fmap_app, fmap_cons).
  pose proof Ho as Ho'. rewrite Hold in Ho'. pose proof Ho' as (_&_&Hf&_)%ranges_ok_app.
  rewrite end_of_ok by done. rewrite (proj2 (Z.eqb_neq _ 0)) by (destruct Hf; lia). cbn [orb].
  apply Forall_app in Hu as [_ Hu]. apply Forall_cons in Hu as [Hfr _]. cbn in Hfr.
  assert (length u < fuel)%nat as Hfuel' by (rewrite Hx, length_app in Hfuel; simpl in Hfuel; lia).
  destruct (Z.ltb_spec (offset f + size f) (offset r)) as [Hlt|Hge].
  { apply add_rest_insert; [done..| |lia|done|done]. intros a Ha. rewrite Hold in Ha.
    change (f :: v.*2) with ([f] ++ v.*2) in Ha. rewrite app_assoc in Ha. apply elem_of_app in Ha as [Ha|Ha].
    - left. assert (Forall (λ a, apart a r) (u.*2 ++ [f])) as Hall by (eapply apart_all; [exact Ho'|]; unfold apart; lia).
      rewrite Forall_forall in Hall. auto.
    - right. rewrite Forall_forall in Hv2. by apply Hv2. }
  destruct (Z.leb_spec (offset f + size f) (offset r + size r)) as [Hle|Hgt]; left.
  - destruct (grow_range u.*2 f v.*2 args r) as (Ho2&Hb1&Hb2&Hb3&Hb4); [done..|].
    destruct (extend_alone loops args t s x r f n u v H Hr Hf) as (e&t'&x'&s'&Hrun&Hok&Hsn&HI'&Hx');
      [lia|done|rewrite Hold in Hlog; exact (gap_loggable _ args r f Hlog Hf ltac:(lia) Hb3)|done|].
    rewrite (bind_Ok _ _ _ _ _ Hrun). cbn [fst snd].
    destruct (Z.eqb_spec e 0) as [->|He]; cbn [negb]; [|eapply snapped_fail; try done; rewrite ?length_fmap; try rewrite Hx', Hx, !length_app; simpl; lia].
    assert ((inorder x').*2 = u.*2 ++ up_to f (offset r + size r) :: v.*2) as Hnew by (by rewrite Hx', fmap_app, fmap_cons).
    rewrite Hold. eapply (snapped_step _ _ _ _ _ args f); [exact Hsn|done..|exact Hb1|exact Hb2|exact Hb3|exact Hb4|rewrite !length_app; simpl; lia|].
    rewrite <-Hnew. eapply add_less; [done|exact Hx'|by rewrite Hnew|exact (left_of_ok r f Hr Hf)|done| |done|].
    2: { rewrite Hnew. rewrite Hold in Hlog. exact (left_loggable _ _ _ r f Hlog Hr ltac:(lia) Hb1). }
    rewrite Hx in Hloops. rewrite Hx', !length_app in *. simpl in *. lia.
  - assert (Range (offset r) (u64 (size r - u64 (offset r + size r - Z.max (offset f) (offset r)))) (flags r) = left_of r f) as ->.
    { destruct Hr, Hf. unfold left_of. rewrite (u64_small (_ - Z.max _ _)), u64_small by lia. f_equal. lia. }
    apply (snapped_covered _ _ _ (left_of r f)); [|done| |eapply add_less; [done|exact Hx|done|exact (left_of_ok r f Hr Hf)|done|done|done|]].
    2: { intros q. destruct Hr. unfold covers, left_of. cbn [offset size]. lia. }
    2: { intros q Hq. apply Hlog. destruct Hr. unfold covers, left_of in *. cbn [offset size] in *. lia. }
    intros q. rewrite Hold, covered_app, covered_cons. unfold covers, left_of. cbn [offset size]. intuition lia.
Qed.
End loop.
