(* ===== verification/Lane.v ===== *)
(** * Lanes

    [src/pmdk/src/libpmemobj/lane.c]: a pool has a fixed number of lanes, each
    with three logs.  A thread that needs logs holds one lane, found by trying
    the locks of the lanes one after the other; nested holds keep the lane.
    Booting a pool makes the operation contexts of the lanes and recovers what
    their logs hold. *)
From stdpp Require Import base list strings gmap.
From S2P Require Import Prelude Pmem Ulog Memops.
Open Scope Z_scope.

Definition LANE_JUMP : Z := 8.
Definition LANE_PRIMARY_ATTEMPTS : Z := 128.
Definition RLANE_DEFAULT : Z := 0.
Definition LANE_TOTAL_SIZE : Z := 3072.
Definition LANE_UNDO_SIZE : Z := 2048.
Definition LANE_REDO_EXTERNAL_SIZE : Z := 640.
Definition LANE_REDO_INTERNAL_SIZE : Z := 192.
Definition UINT64_MAX : Z := U64 - 1.

(** [struct lane_layout] is three logs, one after the other. *)
Definition layout_internal (layout : Z) : Z := layout.
Definition layout_external (layout : Z) : Z := layout_internal layout + SIZEOF_ULOG LANE_REDO_INTERNAL_SIZE.
Definition layout_undo (layout : Z) : Z := layout_external layout + SIZEOF_ULOG LANE_REDO_EXTERNAL_SIZE.
Definition sizeof_lane_layout : Z :=
  SIZEOF_ULOG LANE_UNDO_SIZE + SIZEOF_ULOG LANE_REDO_EXTERNAL_SIZE + SIZEOF_ULOG LANE_REDO_INTERNAL_SIZE.

Record lane := Lane {
  layout : Z;
  internal : operation_context;
  external : operation_context;
  undo : operation_context;
}.
(** [lane] and [lane_locks] are empty when the pointers are [NULL]. *)
Record lane_descriptor := Descriptor {
  runtime_nlanes : Z;
  next_lane_idx : Z;
  lane_locks : list Z;
  lanes : list lane;
}.
Record lane_info := LaneInfo {
  lane_idx : Z;
  nest_count : Z;
  primary : Z;
  primary_attempts : Z;
}.
Implicit Types (info : lane_info) (locks : list Z).

(** ** Taking a lane *)

Definition set_idx (i : Z) info : lane_info := LaneInfo i (nest_count info) (primary info) (primary_attempts info).
Definition set_nest (n : Z) info : lane_info := LaneInfo (lane_idx info) n (primary info) (primary_attempts info).
(** The lock of the lane was free. *)
Definition acquired info : lane_info :=
  if lane_idx info =? primary info then
    LaneInfo (lane_idx info) (nest_count info) (primary info) LANE_PRIMARY_ATTEMPTS
  else if primary_attempts info =? 0 then
    LaneInfo (lane_idx info) (nest_count info) (lane_idx info) LANE_PRIMARY_ATTEMPTS
  else info.
(** It was not: the next lane is next. *)
Definition missed info : lane_info :=
  LaneInfo (lane_idx info + 1) (nest_count info) (primary info)
    (if (lane_idx info =? primary info) && (0 <? primary_attempts info)
     then primary_attempts info - 1 else primary_attempts info).
(** One turn of the inner loop of [get_lane]: the compare-and-swap of one lock. *)
Definition try_lane (nlocks : Z) : M (list Z * lane_info) bool :=
  let! s := gets id in
  let info := set_idx (lane_idx s.2 `mod` nlocks) s.2 in
  let i := Z.to_nat (lane_idx info) in
  match s.1 !! i with
  | None => stop (UndefinedBehaviour "locks[info->lane_idx]")
  | Some l =>
      if l =? 0 then modify (λ _, (<[i := 1]> s.1, acquired info)) ;; ret true
      else modify (λ _, (s.1, missed info)) ;; ret false
  end.
(** The lane at the end of the inner loop wraps around at the start of the next
    round, so that both loops are one.  [others n] is what the other threads do
    to the locks before attempt [n]; [fuel] bounds the attempts. *)
Fixpoint get_lane_from (others : nat → list Z → list Z) (nlocks : Z) (fuel n : nat) : M (list Z * lane_info) unit :=
  match fuel with
  | O => stop OutOfFuel
  | S fuel' =>
      modify (λ s, (others n s.1, s.2)) ;;
      let! b := try_lane nlocks in
      if b : bool then ret tt else get_lane_from others nlocks fuel' (S n)
  end.
Definition get_lane_start : M (list Z * lane_info) unit := modify (λ s, (s.1, set_idx (primary s.2) s.2)).
Definition get_lane (others : nat → list Z → list Z) (fuel : nat) (nlocks : Z) : M (list Z * lane_info) unit :=
  get_lane_start ;;
  get_lane_from others nlocks fuel 0.

(** ** The lanes of a pool *)

(** What a thread knows: [Lane_info_ht] with the records, [Lane_info_records] and
    [Lane_info_cache]; a record is named by the pool it is for. *)
Record thread_info := ThreadInfo {
  Lane_info_ht : option (gmap Z lane_info);
  Lane_info_records : list Z;
  Lane_info_cache : option Z;
}.
Record lane_state := LaneState {
  l_pm : pm;
  desc : lane_descriptor;
  thread : thread_info;
}.

Section lane.
(** The allocator of transient memory. *)
Context (Zalloc : Z → M pm Z) (Malloc : Z → bool) (sizeof_ctx sizeof_lane sizeof_info : Z).
(** The heap of the pool.  [pmalloc_construct off size constructor] allocates a
    block, runs the constructor on its address and usable size, and stores its
    offset at [off]; [pfree off] frees the block at [off]. *)
Context (pmalloc_construct : Z → Z → (Z → Z → M pm Z) → M pm Z) (pfree : Z → M pm unit).
Context (pmalloc_boot : M pm Z) (off_is_valid : Z → bool).
Context (os_tls_set critnib_insert : Z).
(** The pool: its address and the fields of its header. *)
Context (pop lanes_offset nlanes uuid_lo cache_size : Z) (has_remote_replicas : bool).
Context (others : nat → list Z → list Z).
Context (logs entries attempts : nat).

Definition pool_ops : pmem_ops := PmemOps pop true off_is_valid.
Definition on_memory {A} : M pm A → M lane_state A := zoom l_pm (λ m s, LaneState m (desc s) (thread s)).
Definition set_desc (d : lane_descriptor) : M lane_state unit := modify (λ s, LaneState (l_pm s) d (thread s)).
Definition set_thread (t : thread_info) : M lane_state unit := modify (λ s, LaneState (l_pm s) (desc s) t).

Definition lane_get_layout (lane_idx : Z) : Z := pop + lanes_offset + sizeof_lane_layout * lane_idx.

Definition lane_ulog_constructor (ptr usable_size : Z) : M pm Z :=
  let capacity := ALIGN_DOWN (u64 (usable_size - sizeof_ulog)) CACHELINE_SIZE in
  ulog_construct (u64 (ptr - pop)) capacity true pool_ops ;;
  ret 0.
Definition SIZEOF_ALIGNED_ULOG (base_capacity : Z) : Z :=
  u64 (SIZEOF_ULOG base_capacity + CACHELINE_SIZE).
Definition lane_undo_extend (redo : Z) : M pm Z :=
  pmalloc_construct redo (SIZEOF_ALIGNED_ULOG cache_size) lane_ulog_constructor.
Definition lane_redo_extend (redo : Z) : M pm Z :=
  pmalloc_construct redo (SIZEOF_ALIGNED_ULOG LANE_REDO_EXTERNAL_SIZE) lane_ulog_constructor.

(** ** Booting *)

Definition lane_init (layout0 : Z) : M pm (option lane) :=
  let! i := operation_new Zalloc logs sizeof_ctx (layout_internal layout0) LANE_REDO_INTERNAL_SIZE pool_ops LOG_TYPE_REDO in
  match i with
  | None => ret None
  | Some i =>
      let! e := operation_new Zalloc logs sizeof_ctx (layout_external layout0) LANE_REDO_EXTERNAL_SIZE pool_ops LOG_TYPE_REDO in
      match e with
      | None => ret None
      | Some e =>
          let! u := operation_new Zalloc logs sizeof_ctx (layout_undo layout0) LANE_UNDO_SIZE pool_ops LOG_TYPE_UNDO in
          match u with None => ret None | Some u => ret (Some (Lane layout0 i e u)) end
      end
  end.

Definition ENOMEM : Z := 12.
(** The lanes from [i] on; those before it are made. *)
Fixpoint init_lanes (n : nat) (i : Z) : M lane_state Z :=
  match n with
  | O => ret 0
  | S n' =>
      let! l := on_memory (lane_init (lane_get_layout i)) in
      match l with
      | None => ret (-1)
      | Some l =>
          let! d := gets desc in
          set_desc (Descriptor (runtime_nlanes d) (next_lane_idx d) (lane_locks d) (lanes d ++ [l])) ;;
          init_lanes n' (i + 1)
      end
  end.
Definition lane_boot : M lane_state Z :=
  let! d := gets desc in
  if negb (Malloc (sizeof_lane * nlanes)) then
    set_desc (Descriptor (runtime_nlanes d) (next_lane_idx d) (lane_locks d) []) ;; ret ENOMEM
  else if negb (Malloc (8 * nlanes)) then
    set_desc (Descriptor (runtime_nlanes d) 0 [] []) ;; ret 0
  else
    set_desc (Descriptor (runtime_nlanes d) 0 (replicate (Z.to_nat nlanes) 0) []) ;;
    let! err := init_lanes (Z.to_nat nlanes) 0 in
    when (negb (err =? 0)) (set_desc (Descriptor (runtime_nlanes d) 0 [] [])) ;;
    ret err.

Fixpoint init_data (n : nat) (i : Z) : M pm unit :=
  match n with
  | O => ret tt
  | S n' =>
      let layout := lane_get_layout i in
      ulog_construct (u64 (layout_internal layout - pop)) LANE_REDO_INTERNAL_SIZE false pool_ops ;;
      ulog_construct (u64 (layout_external layout - pop)) LANE_REDO_EXTERNAL_SIZE false pool_ops ;;
      ulog_construct (u64 (layout_undo layout - pop)) LANE_UNDO_SIZE false pool_ops ;;
      init_data n' (i + 1)
  end.
Definition lane_init_data : M pm unit :=
  init_data (Z.to_nat nlanes) 0 ;;
  pmemops_persist pool_ops (lane_get_layout 0) (nlanes * sizeof_lane_layout).

(** ** Recovery *)

Fixpoint recover_redo (n : nat) (i : Z) : M pm unit :=
  match n with
  | O => ret tt
  | S n' =>
      let layout := lane_get_layout i in
      ulog_recover logs entries (layout_internal layout) pool_ops ;;
      ulog_recover logs entries (layout_external layout) pool_ops ;;
      recover_redo n' (i + 1)
  end.
(** The undo context of lane [i], which is at [pop->lanes_desc.lane[i].undo]. *)
Definition set_undo (c : operation_context) (l : lane) : lane := Lane (layout l) (internal l) (external l) c.
Definition on_undo {A} (i : Z) (f : M opst A) : M lane_state A :=
  let! d := gets desc in
  match lanes d !! Z.to_nat i with
  | None => stop (UndefinedBehaviour "pop->lanes_desc.lane[i]")
  | Some l =>
      zoom (λ s, (l_pm s, undo l))
           (λ t s, LaneState t.1 (Descriptor (runtime_nlanes d) (next_lane_idx d) (lane_locks d)
                                    (<[Z.to_nat i := set_undo t.2 l]> (lanes d))) (thread s)) f
  end.
Definition recover_lane : M opst unit :=
  operation_resume entries ;; operation_process logs entries ;; operation_finish pfree logs entries.
Fixpoint recover_undo (n : nat) (i : Z) : M lane_state unit :=
  match n with
  | O => ret tt
  | S n' => on_undo i recover_lane ;; recover_undo n' (i + 1)
  end.
Definition lane_recover_and_section_boot : M lane_state Z :=
  on_memory (recover_redo (Z.to_nat nlanes) 0) ;;
  let! err := on_memory pmalloc_boot in
  if negb (err =? 0) then ret err
  else recover_undo (Z.to_nat nlanes) 0 ;; ret 0.

(** [err] is never set. *)
Fixpoint check_lanes (n : nat) (j : Z) : M pm Z :=
  match n with
  | O => ret 0
  | S n' =>
      let err := 0 in
      let! v := ulog_check logs entries (layout_internal (lane_get_layout j)) off_is_valid pool_ops in
      if negb (v =? 0) then ret err else check_lanes n' (j + 1)
  end.
Definition lane_check : M pm Z := check_lanes (Z.to_nat nlanes) 0.

(** ** Threads *)

Definition lane_info_delete : M lane_state unit :=
  let! t := gets thread in
  match Lane_info_ht t with None => ret tt | Some _ => set_thread (ThreadInfo None [] None) end.
Definition lane_info_ht_boot : M lane_state unit :=
  let! t := gets thread in
  set_thread (ThreadInfo (Some ∅) (Lane_info_records t) (Lane_info_cache t)) ;;
  when (negb (os_tls_set =? 0)) (stop (ErrAbort "os_tls_set")).
Definition lane_info_cleanup : M lane_state unit :=
  let! t := gets thread in
  match Lane_info_ht t with
  | None => ret tt
  | Some ht =>
      match ht !! uuid_lo with
      | None => ret tt
      | Some _ =>
          set_thread (ThreadInfo (Some (delete uuid_lo ht)) (filter (λ u, u ≠ uuid_lo) (Lane_info_records t))
            (if bool_decide (Lane_info_cache t = Some uuid_lo) then None else Lane_info_cache t))
      end
  end.
Definition lane_cleanup : M lane_state unit :=
  let! d := gets desc in
  when (Z.of_nat (length (lanes d)) <? nlanes) (stop (UndefinedBehaviour "lane_destroy")) ;;
  set_desc (Descriptor (runtime_nlanes d) (next_lane_idx d) [] []) ;;
  lane_info_cleanup.

(** A new record; it is in the hash table, at the head of the list. *)
Definition new_info : lane_info := LaneInfo UINT64_MAX 0 0 LANE_PRIMARY_ATTEMPTS.
Definition add_info (ht : gmap Z lane_info) : M lane_state unit :=
  when (negb (Malloc sizeof_info)) (stop (ErrAbort "Malloc")) ;;
  let! t := gets thread in
  set_thread (ThreadInfo (Some ht) (uuid_lo :: Lane_info_records t) (Lane_info_cache t)) ;;
  when (negb (critnib_insert =? 0)) (stop (ErrAbort "critnib_insert")) ;;
  set_thread (ThreadInfo (Some (<[uuid_lo := new_info]> ht)) (uuid_lo :: Lane_info_records t) (Lane_info_cache t)).
(** The record of the thread for the pool is in the hash table afterwards. *)
Definition get_lane_info_record : M lane_state unit :=
  let! t := gets thread in
  if bool_decide (Lane_info_cache t = Some uuid_lo) then ret tt
  else
    (match Lane_info_ht t with None => lane_info_ht_boot | Some _ => ret tt end) ;;
    let! t' := gets thread in
    let ht := default ∅ (Lane_info_ht t') in
    (match ht !! uuid_lo with None => add_info ht | Some _ => ret tt end) ;;
    let! t'' := gets thread in
    set_thread (ThreadInfo (Lane_info_ht t'') (Lane_info_records t'') (Some uuid_lo)).
Definition info_of (s : lane_state) : option lane_info := Lane_info_ht (thread s) ≫= λ ht, ht !! uuid_lo.
Definition set_info info : M lane_state unit :=
  modify (λ s, LaneState (l_pm s) (desc s)
    (ThreadInfo (insert uuid_lo info <$> Lane_info_ht (thread s)) (Lane_info_records (thread s)) (Lane_info_cache (thread s)))).
Definition the_info : M lane_state lane_info :=
  get_lane_info_record ;;
  let! o := gets info_of in
  match o with Some info => ret info | None => stop (UndefinedBehaviour "Lane_info_cache") end.

(** A new thread starts at the next cache line of locks. *)
Definition first_lane info : M lane_state lane_info :=
  if lane_idx info =? UINT64_MAX then
    let! d := gets desc in
    set_desc (Descriptor (runtime_nlanes d) ((next_lane_idx d + LANE_JUMP) `mod` 2 ^ 32) (lane_locks d) (lanes d)) ;;
    let info' := LaneInfo (next_lane_idx d) (nest_count info) (next_lane_idx d) (primary_attempts info) in
    set_info info' ;; ret info'
  else ret info.
Definition on_locks {A} info (f : M (list Z * lane_info) A) : M lane_state A :=
  zoom (λ s, (lane_locks (desc s), info))
       (λ t s, LaneState (l_pm s)
          (Descriptor (runtime_nlanes (desc s)) (next_lane_idx (desc s)) t.1 (lanes (desc s)))
          (ThreadInfo (insert uuid_lo t.2 <$> Lane_info_ht (thread s)) (Lane_info_records (thread s))
                      (Lane_info_cache (thread s)))) f.
(** [operation_init] of the three contexts *)
Definition reset_lane (l : lane) : lane := Lane (layout l) (reset (internal l)) (reset (external l)) (reset (undo l)).
Definition reinitialize (i : Z) : M lane_state unit :=
  let! d := gets desc in
  match lanes d !! Z.to_nat i with
  | None => stop (UndefinedBehaviour "pop->lanes_desc.lane[lane->lane_idx]")
  | Some l => set_desc (Descriptor (runtime_nlanes d) (next_lane_idx d) (lane_locks d) (<[Z.to_nat i := reset_lane l]> (lanes d)))
  end.
(** [lane_hold] up to the call of [get_lane], and after it.  The result of the first
    part is whether this is the outermost hold, and the record. *)
Definition hold_begin : M lane_state (bool * lane_info) :=
  let! info0 := the_info in
  let! info := first_lane info0 in
  let info' := set_nest (u64 (nest_count info + 1)) info in
  set_info info' ;;
  ret (nest_count info =? 0, info').
Definition hold_end (lanep : bool) : M lane_state Z :=
  let! held := the_info in
  when (lanep && (nest_count held =? 1)) (reinitialize (lane_idx held)) ;;
  ret (lane_idx held).
(** [lanep] is whether the caller asks for the lane. *)
Definition lane_hold (lanep : bool) : M lane_state Z :=
  let! n := gets (λ s, runtime_nlanes (desc s)) in
  if n =? 0 then
    assert_ has_remote_replicas "pop->has_remote_replicas" ;;
    when lanep (stop (ErrAbort "cannot obtain section before lane's init")) ;;
    ret RLANE_DEFAULT
  else
    let! b := hold_begin in
    when b.1 (on_locks b.2 (get_lane others attempts n)) ;;
    hold_end lanep.
Definition lane_attach (i : Z) : M lane_state unit :=
  let! info := the_info in set_info (set_idx i (set_nest 1 info)).
Definition lane_detach : M lane_state Z :=
  let! info := the_info in
  set_info (set_nest (u64 (nest_count info - 1)) info) ;;
  assert_ (u64 (nest_count info - 1) =? 0) "lane->nest_count == 0" ;;
  ret (lane_idx info).
(** The compare-and-swap that gives the lock back. *)
Definition unlock_lane (i : Z) : M lane_state unit :=
  let! d := gets desc in
  match lane_locks d !! Z.to_nat i with
  | None => stop (UndefinedBehaviour "lane_locks[lane->lane_idx]")
  | Some l =>
      if l =? 1 then
        set_desc (Descriptor (runtime_nlanes d) (next_lane_idx d) (<[Z.to_nat i := 0]> (lane_locks d)) (lanes d))
      else stop (ErrAbort "util_bool_compare_and_swap64")
  end.
Definition lane_release : M lane_state unit :=
  let! n := gets (λ s, runtime_nlanes (desc s)) in
  if n =? 0 then assert_ has_remote_replicas "pop->has_remote_replicas"
  else
    let! info := the_info in
    assert_ (negb (lane_idx info =? UINT64_MAX)) "lane->lane_idx != UINT64_MAX" ;;
    if nest_count info =? 0 then stop (ErrAbort "lane_release")
    else
      set_info (set_nest (nest_count info - 1) info) ;;
      when (nest_count info - 1 =? 0) (unlock_lane (lane_idx info)).
End lane.
