(* ===== verification/LaneFacts.v ===== *)
(** * Lanes: what they promise

    What one attempt on a lock does, and that a thread gets a lane once one is
    free. *)
From stdpp Require Import base list strings gmap.
From S2P Require Import Prelude Pmem Ulog Memops Lane.
Open Scope Z_scope.

Implicit Types (info : lane_info) (locks : list Z).

(** ** One attempt *)

Lemma try_lane_run nlocks locks info l :
  locks !! Z.to_nat (lane_idx info `mod` nlocks) = Some l →
  try_lane nlocks (locks, info)
  = if l =? 0 then Ok true (<[Z.to_nat (lane_idx info `mod` nlocks) := 1]> locks, acquired (set_idx (lane_idx info `mod` nlocks) info))
    else Ok false (locks, missed (set_idx (lane_idx info `mod` nlocks) info)).
Proof.
  intros H. unfold try_lane. erewrite (bind_Ok (gets id)) by reflexivity. cbn [fst snd id set_idx lane_idx].
  rewrite H. by destruct (l =? 0).
Qed.
Lemma acquired_idx info : lane_idx (acquired info) = lane_idx info.
Proof. unfold acquired. by repeat case_match. Qed.
Lemma acquired_nest info : nest_count (acquired info) = nest_count info.
Proof. unfold acquired. by repeat case_match. Qed.

(** ** Progress *)

(** The attempts until lane [k] is next. *)
Definition distance (nlocks k i : Z) : Z := (k - i) `mod` nlocks.
Lemma distance_range nlocks k i : 0 < nlocks → 0 ≤ distance nlocks k i < nlocks.
Proof. apply Z.mod_pos_bound. Qed.
Lemma distance_zero nlocks k i : 0 ≤ k < nlocks → distance nlocks k i = 0 → i `mod` nlocks = k.
Proof.
  unfold distance. intros Hk H. apply Z.mod_divide in H as [q Hq]; [|lia].
  symmetry. apply (Z.mod_unique_pos _ _ (- q)); lia.
Qed.
Lemma distance_next nlocks k i : 0 < nlocks → distance nlocks k i ≠ 0 → distance nlocks k (i `mod` nlocks + 1) = distance nlocks k i - 1.
Proof.
  intros Hn H. unfold distance in *. pose proof (Z.mod_pos_bound (k - i) nlocks Hn).
  symmetry. apply (Z.mod_unique_pos _ _ ((k - i) / nlocks + i / nlocks)); [lia|].
  pose proof (Z.div_mod (k - i) nlocks). pose proof (Z.div_mod i nlocks). lia.
Qed.

Section progress.
Context (others : nat → list Z → list Z) (nlocks : Z) (k : Z) (N size : nat).
(** Other threads change the locks and not their number, and from attempt [N] on
    they leave lane [k] free. *)
Context (others_length : ∀ n locks, length (others n locks) = length locks).
Context (others_free : ∀ n locks, (N ≤ n)%nat → length locks = size → others n locks !! Z.to_nat k = Some 0).
Context (nlocks_pos : 0 < nlocks) (nlocks_le : nlocks ≤ Z.of_nat size) (k_range : 0 ≤ k < nlocks).

Lemma get_lane_Ok fuel n locks info :
  length locks = size → Z.of_nat (N - n) + (if decide (N ≤ n)%nat then distance nlocks k (lane_idx info) else nlocks) < Z.of_nat fuel →
  ∃ m locks0 info', get_lane_from others nlocks fuel n (locks, info)
    = Ok tt (<[Z.to_nat (lane_idx info') := 1]> (others m locks0), info') ∧
    length locks0 = size ∧ 0 ≤ lane_idx info' < nlocks ∧ nest_count info' = nest_count info ∧
    others m locks0 !! Z.to_nat (lane_idx info') = Some 0.
Proof using others_length others_free nlocks_pos nlocks_le k_range.
  revert n locks info. induction fuel as [|fuel IH]; intros n locks info Hlen Hfuel.
  { pose proof (distance_range nlocks k (lane_idx info) nlocks_pos). case_decide; lia. }
  cbn [get_lane_from]. erewrite (bind_Ok (modify _)) by reflexivity. cbn [fst snd].
  pose proof (Z.mod_pos_bound (lane_idx info) nlocks nlocks_pos) as Hmod.
  destruct (lookup_lt_is_Some_2 (others n locks) (Z.to_nat (lane_idx info `mod` nlocks))) as [l Hl].
  { rewrite others_length. lia. }
  pose proof (try_lane_run _ _ _ _ Hl) as Hrun. destruct (Z.eqb_spec l 0) as [->|Hl0].
  - rewrite (bind_Ok _ _ _ _ _ Hrun). exists n, locks, (acquired (set_idx (lane_idx info `mod` nlocks) info)).
    rewrite acquired_idx, acquired_nest. cbn [set_idx lane_idx nest_count]. done.
  - rewrite (bind_Ok _ _ _ _ _ Hrun). cbv iota.
    destruct (IH (S n) (others n locks) (missed (set_idx (lane_idx info `mod` nlocks) info))) as (m&locks0&info'&?&?&?&?&?).
    + by rewrite others_length.
    + cbn [missed set_idx lane_idx]. pose proof (distance_range nlocks k (lane_idx info) nlocks_pos) as Hd.
      pose proof (distance_range nlocks k (lane_idx info `mod` nlocks + 1) nlocks_pos) as Hd'.
      destruct (decide (N ≤ n)%nat) as [HN|HN].
      * rewrite decide_True by lia. rewrite distance_next; [lia|done|]. intros H0. apply distance_zero in H0; [|done].
        rewrite H0, others_free in Hl by done. naive_solver.
      * case_decide; [lia|]. lia.
    + by exists m, locks0, info'.
Qed.
End progress.

(** C38. While other threads take and release lanes between any two attempts, a
    thread that asks for a lane gets one after at most [N + nlocks] attempts if
    from attempt [N] on some lane stays free.  The lane it gets is one whose lock
    was free at that moment, no other lock is changed, and the nesting count is
    kept. *)
Theorem get_lane_live others nlocks (k : Z) (N fuel : nat) locks info :
  (∀ n l, length (others n l) = length l) →
  (∀ n l, (N ≤ n)%nat → length l = length locks → others n l !! Z.to_nat k = Some 0) →
  nlocks ≤ Z.of_nat (length locks) → 0 ≤ k < nlocks → Z.of_nat N + nlocks < Z.of_nat fuel →
  ∃ m l info', get_lane others fuel nlocks (locks, info)
    = Ok tt (<[Z.to_nat (lane_idx info') := 1]> (others m l), info') ∧
    others m l !! Z.to_nat (lane_idx info') = Some 0 ∧ 0 ≤ lane_idx info' < nlocks ∧
    nest_count info' = nest_count info.
Proof.
  intros Hlen Hfree Hle Hk Hfuel. unfold get_lane, get_lane_start. erewrite (bind_Ok (modify _)) by reflexivity. cbn [fst snd].
  destruct (get_lane_Ok others nlocks k N (length locks) Hlen Hfree ltac:(lia) Hle Hk fuel 0 locks (set_idx (primary info) info))
    as (m&l&info'&Hrun&_&Hr&Hn&H0); [done| |].
  - pose proof (distance_range nlocks k (primary info)). cbn [set_idx lane_idx]. case_decide; lia.
  - by exists m, l, info'.
Qed.
(** Two other threads hold the lanes of the third one's first attempts, and give
    lane 1 back before its fifth. *)
Definition two_others (n : nat) (l : list Z) : list Z :=
  match n with O => [1; 1] | 1%nat | 2%nat | 3%nat => l | _ => <[1%nat := 0]> l end.
Definition new_thread : lane_info := LaneInfo 0 1 0 LANE_PRIMARY_ATTEMPTS.
Definition two_others' (n : nat) (l : list Z) : list Z :=
  if decide (length l = 2%nat) then two_others n l else l.
Example get_lane_live_witness :
  ∃ m l info', get_lane two_others' 10 2 ([0; 0], new_thread) = Ok tt (<[Z.to_nat (lane_idx info') := 1]> (two_others' m l), info') ∧
    two_others' m l !! Z.to_nat (lane_idx info') = Some 0 ∧ 0 ≤ lane_idx info' < 2 ∧ nest_count info' = nest_count new_thread.
Proof.
  apply (get_lane_live two_others' 2 1 4 10 [0; 0] new_thread).
  - intros n l. unfold two_others'. case_decide as Hl; [|done].
    destruct l as [|a [|b [|? ?]]]; [done..| |done]. by do 4 (destruct n as [|n]; [done|]).
  - intros n l Hn Hl. unfold two_others'. rewrite decide_True by done.
    destruct l as [|a [|b [|? ?]]]; [done..| |done]. by do 4 (destruct n as [|n]; [lia|]).
  - simpl. lia.
  - lia.
  - lia.
Defined.
