(* ===== verification/LaneHold.v ===== *)
(** * Lanes: holding and releasing

    What [lane_hold] and [lane_release] do to the state of a pool when they
    return, and that threads which run them, interleaved in any way, never hold the
    same lane. *)
From stdpp Require Import base list strings gmap.
From S2P Require Import Prelude Pmem Ulog Memops Lane LaneFacts.
Open Scope Z_scope.
#[local] Set Default Proof Using "Type".

Implicit Types (info : lane_info) (locks : list Z).

(** The cache of a thread names a record that exists. *)
Definition thread_ok (uuid_lo : Z) (s : lane_state) : Prop :=
  Lane_info_cache (thread s) = Some uuid_lo → is_Some (info_of uuid_lo s).

Section hold.
Context (Malloc : Z → bool) (sizeof_info os_tls_set critnib_insert uuid_lo : Z) (has_remote_replicas : bool).
Context (others : nat → list Z → list Z) (attempts : nat).
Context (malloc_ok : Malloc sizeof_info = true) (tls_ok : os_tls_set = 0) (insert_ok : critnib_insert = 0).
Implicit Types (s : lane_state) (d : lane_descriptor).

Abbreviation the_record := (the_info Malloc sizeof_info os_tls_set critnib_insert uuid_lo).
Abbreviation hold := (lane_hold Malloc sizeof_info os_tls_set critnib_insert uuid_lo has_remote_replicas others attempts true).
Abbreviation begin_ := (hold_begin Malloc sizeof_info os_tls_set critnib_insert uuid_lo).
Abbreviation release := (lane_release Malloc sizeof_info os_tls_set critnib_insert uuid_lo has_remote_replicas).

(** A thread that has its record at hand. *)
Definition has_record (t : thread_info) info : Prop :=
  Lane_info_cache t = Some uuid_lo ∧ Lane_info_ht t ≫= (λ ht, ht !! uuid_lo) = Some info.
Lemma the_info_cached s info : has_record (thread s) info → the_record s = Ok info s.
Proof.
  intros [Hc Hi]. unfold the_info, get_lane_info_record.
  erewrite (bind_Ok _ _ s tt s).
  - rewrite (bind_Ok (gets (info_of uuid_lo)) _ s (Some info) s); [done|]. unfold gets, info_of. by rewrite Hi.
  - erewrite (bind_Ok (gets thread)) by reflexivity. by rewrite bool_decide_eq_true_2.
Qed.
Lemma the_info_Ok s :
  thread_ok uuid_lo s → ∃ t info, the_record s = Ok info (LaneState (l_pm s) (desc s) t) ∧ has_record t info ∧
    info = default new_info (info_of uuid_lo s).
Proof using malloc_ok tls_ok insert_ok.
  intros Hok. destruct (decide (Lane_info_cache (thread s) = Some uuid_lo)) as [Hc|Hc].
  - destruct (Hok Hc) as [info Hi]. exists (thread s), info. rewrite (the_info_cached s info) by done. rewrite Hi.
    by destruct s.
  - unfold the_info, get_lane_info_record. destruct s as [p d [ht rs ca]]. cbn [thread Lane_info_cache] in Hc.
    unfold info_of. cbn [thread Lane_info_ht].
    exists (ThreadInfo (Some (match ht with Some h => match h !! uuid_lo with Some _ => h | None => <[uuid_lo := new_info]> h end
                              | None => {[uuid_lo := new_info]} end))
             (match ht ≫= (λ h, h !! uuid_lo) with Some _ => rs | None => uuid_lo :: rs end) (Some uuid_lo)),
      (default new_info (ht ≫= (λ h, h !! uuid_lo))).
    unfold bind, gets, add_info, lane_info_ht_boot. cbn [thread Lane_info_cache Lane_info_ht]. rewrite bool_decide_eq_false_2 by done.
    unfold when, bind, set_thread, modify, gets. rewrite malloc_ok, tls_ok, insert_ok. cbn.
    destruct ht as [h|]; cbn.
    + destruct (h !! uuid_lo) as [info|] eqn:Hh; cbn; unfold info_of; cbn; rewrite ?Hh, ?lookup_insert_eq; cbn;
        (split; [done|]; split; [split; cbn; rewrite ?lookup_insert_eq, ?Hh; done|done]).
    + rewrite lookup_empty. cbn. unfold info_of. cbn. rewrite lookup_insert_eq. cbn.
      split; [done|]. split; [|done]. split; [done|]. cbn. apply lookup_insert_eq.
Qed.

Definition with_thread (t : thread_info) s : lane_state := LaneState (l_pm s) (desc s) t.
Definition put_record info (t : thread_info) : thread_info :=
  ThreadInfo (insert uuid_lo info <$> Lane_info_ht t) (Lane_info_records t) (Lane_info_cache t).
Lemma put_record_has info info' t : has_record t info → has_record (put_record info' t) info'.
Proof.
  intros [Hc Hi]. split; [done|]. destruct t as [[h|] rs ca]; cbn in *; [|done]. apply lookup_insert_eq.
Qed.
Lemma set_info_run info s : set_info uuid_lo info s = Ok tt (LaneState (l_pm s) (desc s) (put_record info (thread s))).
Proof. done. Qed.
Definition with_next (x : Z) d : lane_descriptor := Descriptor (runtime_nlanes d) x (lane_locks d) (lanes d).
Lemma first_lane_Ok info s :
  has_record (thread s) info →
  ∃ x t info', first_lane uuid_lo info s = Ok info' (LaneState (l_pm s) (with_next x (desc s)) t) ∧ has_record t info' ∧
    nest_count info' = nest_count info ∧ (lane_idx info ≠ UINT64_MAX → lane_idx info' = lane_idx info).
Proof.
  intros Hr. unfold first_lane. destruct (Z.eqb_spec (lane_idx info) UINT64_MAX).
  - erewrite (bind_Ok (gets desc)) by reflexivity. erewrite (bind_Ok (set_desc _)) by reflexivity.
    erewrite (bind_Ok (set_info _ _)) by reflexivity. eexists _, _, _. split; [reflexivity|].
    split; [exact (put_record_has _ _ _ Hr)|done].
  - exists (next_lane_idx (desc s)), (thread s), info. split; [by destruct s as [p [] t]|done].
Qed.

(** A lane stays free from some attempt on. *)
Record lane_available (n : Z) locks : Prop := {
  la_length m l : length (others m l) = length l;
  la_free : ∃ (N : nat) k, 0 ≤ k < n ∧ Z.of_nat N + n < Z.of_nat attempts ∧
    ∀ m l, (N ≤ m)%nat → length l = length locks → others m l !! Z.to_nat k = Some 0;
  la_range : n ≤ Z.of_nat (length locks);
}.
Definition with_locks locks d : lane_descriptor := Descriptor (runtime_nlanes d) (next_lane_idx d) locks (lanes d).
Lemma on_locks_Ok info n s :
  lane_available n (lane_locks (desc s)) → has_record (thread s) info → 0 < n →
  ∃ locks t info', on_locks uuid_lo info (get_lane others attempts n) s
      = Ok tt (LaneState (l_pm s) (with_locks locks (desc s)) t) ∧ has_record t info' ∧
    nest_count info' = nest_count info ∧ 0 ≤ lane_idx info' < n ∧ locks !! Z.to_nat (lane_idx info') = Some 1 ∧
    length locks = length (lane_locks (desc s)).
Proof.
  clear malloc_ok tls_ok insert_ok. intros [Hlen (N&k&Hk&Hatt&Hfree) Hr] Hrec Hn.
  destruct (get_lane_Ok others n k N (length (lane_locks (desc s))) Hlen Hfree Hn Hr Hk attempts 0 (lane_locks (desc s))
    (set_idx (primary info) info)) as (m&l&info'&Hrun&Hl&Hi&Hnest&H0); [done| |].
  { pose proof (distance_range n k (primary info)). cbn [set_idx lane_idx]. case_decide; lia. }
  exists (<[Z.to_nat (lane_idx info') := 1]> (others m l)), (put_record info' (thread s)), info'.
  split; [|split; [by eapply put_record_has|split; [done|split; [done|split]]]].
  - unfold on_locks, zoom. unfold get_lane, get_lane_start. erewrite (bind_Ok (modify _)) by reflexivity. cbn [fst snd]. by rewrite Hrun.
  - apply list_lookup_insert_eq. by eapply lookup_lt_Some.
  - rewrite length_insert, Hlen. done.
Qed.

(** The state in which the thread holds lane [i]. *)
Record holding i s : Prop := {
  hd_lanes : runtime_nlanes (desc s) ≠ 0;
  hd_record : ∃ info, has_record (thread s) info ∧ nest_count info = 1 ∧ lane_idx info = i;
  hd_index : 0 ≤ i < UINT64_MAX;
  hd_locked : lane_locks (desc s) !! Z.to_nat i = Some 1;
}.
Definition with_lanes (ls : list lane) d : lane_descriptor := Descriptor (runtime_nlanes d) (next_lane_idx d) (lane_locks d) ls.

Lemma hold_Ok s :
  thread_ok uuid_lo s → nest_count (default new_info (info_of uuid_lo s)) = 0 →
  0 < runtime_nlanes (desc s) < 2 ^ 32 → lane_available (runtime_nlanes (desc s)) (lane_locks (desc s)) →
  runtime_nlanes (desc s) ≤ Z.of_nat (length (lanes (desc s))) →
  ∃ i l s', hold s = Ok i s' ∧ lanes (desc s) !! Z.to_nat i = Some l ∧ l_pm s' = l_pm s ∧
    lanes (desc s') = <[Z.to_nat i := reset_lane l]> (lanes (desc s)) ∧ holding i s'.
Proof using malloc_ok tls_ok insert_ok.
  intros Hth Hnest Hn Hav Hlanes. unfold lane_hold. erewrite (bind_Ok (gets _)) by reflexivity.
  rewrite (proj2 (Z.eqb_neq _ 0)) by lia. destruct (the_info_Ok s Hth) as (t0&info0&Hrun0&Hr0&->).
  destruct (first_lane_Ok _ (LaneState (l_pm s) (desc s) t0) Hr0) as (x&t1&info1&Hrun1&Hr1&Hn1&_). cbn [l_pm desc] in Hrun1.
  assert (begin_ s = Ok (true, set_nest 1 info1) (LaneState (l_pm s) (with_next x (desc s)) (put_record (set_nest 1 info1) t1))) as Hb.
  { unfold hold_begin. rewrite (bind_Ok _ _ _ _ _ Hrun0), (bind_Ok _ _ _ _ _ Hrun1), (bind_Ok _ _ _ _ _ (set_info_run _ _)).
    by rewrite Hn1, Hnest. }
  rewrite (bind_Ok _ _ _ _ _ Hb). cbn [fst snd when].
  destruct (on_locks_Ok (set_nest 1 info1) (runtime_nlanes (desc s))
    (LaneState (l_pm s) (with_next x (desc s)) (put_record (set_nest 1 info1) t1))) as (locks&t2&info2&Hrun2&Hr2&Hn2&Hi2&Hl2&Hlen2);
    [done|by eapply put_record_has|lia|].
  rewrite (bind_Ok _ _ _ _ _ Hrun2). cbn [l_pm desc with_locks with_next runtime_nlanes next_lane_idx lane_locks lanes].
  cbn [set_nest nest_count] in Hn2. unfold hold_end.
  rewrite (bind_Ok _ _ _ _ _ (the_info_cached (LaneState _ _ t2) info2 Hr2)). rewrite Hn2. cbn [andb Z.eqb when Pos.eqb].
  destruct (lookup_lt_is_Some_2 (lanes (desc s)) (Z.to_nat (lane_idx info2))) as [l Hl]; [lia|].
  unfold reinitialize.
  erewrite bind_Ok.
  2: { erewrite (bind_Ok (gets desc)) by reflexivity. cbn [desc with_locks with_next lanes]. rewrite Hl. reflexivity. }
  eexists _, l, _. split; [reflexivity|]. cbn [desc l_pm with_locks with_next lanes]. split; [done|]. split; [done|]. split; [done|].
  split; cbn [desc with_locks with_next runtime_nlanes lane_locks thread]; [lia|by exists info2|unfold UINT64_MAX, U64; lia|done].
Qed.
Lemma release_Ok s i :
  holding i s →
  ∃ s', release s = Ok tt s' ∧ l_pm s' = l_pm s ∧ lanes (desc s') = lanes (desc s) ∧
    runtime_nlanes (desc s') = runtime_nlanes (desc s) ∧ lane_locks (desc s') = <[Z.to_nat i := 0]> (lane_locks (desc s)) ∧
    thread_ok uuid_lo s' ∧ nest_count (default new_info (info_of uuid_lo s')) = 0.
Proof.
  clear malloc_ok tls_ok insert_ok. intros [Hn (info&Hr&Hc&<-) Hi Hl]. unfold lane_release. erewrite (bind_Ok (gets _)) by reflexivity.
  rewrite (proj2 (Z.eqb_neq _ 0)) by done. rewrite (bind_Ok _ _ _ _ _ (the_info_cached s info Hr)).
  rewrite (proj2 (Z.eqb_neq _ UINT64_MAX)) by lia. cbn [negb assert_]. erewrite (bind_Ok (ret tt)) by reflexivity.
  rewrite Hc. cbn [Z.eqb]. rewrite (bind_Ok _ _ _ _ _ (set_info_run _ _)). change (1 - 1 =? 0) with true. cbn [when].
  unfold unlock_lane. erewrite (bind_Ok (gets desc)) by reflexivity. cbn [desc]. rewrite Hl. cbn [Z.eqb Pos.eqb].
  eexists. split; [reflexivity|]. cbn [l_pm desc thread lanes runtime_nlanes lane_locks].
  assert (has_record (put_record (set_nest (1 - 1) info) (thread s)) (set_nest (1 - 1) info)) as [_ Hrec] by (by eapply put_record_has).
  unfold thread_ok, info_of. cbn [thread]. rewrite Hrec. done.
Qed.
End hold.

(** ** Threads that share the lanes *)

(** A thread of a pool is outside [lane_hold], is about to try the lock of its
    primary lane, is trying the locks one after the other, or has its lane and is
    about to return.  Between two of these points a thread runs the code of [Lane]
    alone: what it reads and writes there is its own, except for the counter of
    [first_lane], the lock of an attempt and the lock that [lane_release] gives
    back, each of which is one atomic access. *)
Inductive hold_phase := Idle | Starting info | Trying | Ending.
Record lane_system := System {
  y_pm : pm;
  y_desc : lane_descriptor;
  y_threads : gmap nat (hold_phase * thread_info);
}.
Implicit Types (y : lane_system) (ph : hold_phase) (th : thread_info) (t : nat) (own : gmap nat Z).
Definition view th y : lane_state := LaneState (y_pm y) (y_desc y) th.
Definition back t ph (s : lane_state) y : lane_system := System (l_pm s) (desc s) (<[t := (ph, thread s)]> (y_threads y)).

(** Who holds which lane, and what the locks say. *)
Record exclusive (n : Z) locks own : Prop := {
  ex_locked t i : own !! t = Some i → 0 ≤ i < n ∧ locks !! Z.to_nat i = Some 1;
  ex_apart t t' i : own !! t = Some i → own !! t' = Some i → t = t';
  ex_owned k l : locks !! k = Some l → l = 0 ∨ l = 1 ∧ ∃ t, own !! t = Some (Z.of_nat k);
}.
Lemma exclusive_take n locks own t i :
  exclusive n locks own → own !! t = None → 0 ≤ i < n → locks !! Z.to_nat i = Some 0 →
  exclusive n (<[Z.to_nat i := 1]> locks) (<[t := i]> own).
Proof.
  intros [Hl Ha Ho] Ht Hi H0.
  assert (∀ u, own !! u ≠ Some i) as Hfree by (intros u Hu; destruct (Hl u i Hu) as [_ H1]; by rewrite H1 in H0).
  split.
  - intros u j [[<- <-]|[Hu Hj]]%lookup_insert_Some.
    + split; [done|]. apply list_lookup_insert_eq. by eapply lookup_lt_Some.
    + destruct (Hl u j Hj) as [Hr H1]. split; [done|]. rewrite list_lookup_insert_ne; [done|]. intros Heq. by rewrite Heq, H1 in H0.
  - intros u u' j [[<- <-]|[Hu Hj]]%lookup_insert_Some [[<- Hj']|[Hu' Hj']]%lookup_insert_Some; subst; try done;
      [by destruct (Hfree u')|by destruct (Hfree u)|by eapply Ha].
  - intros k l [(<-&->&_)|[Hk Hkl]]%list_lookup_insert_Some.
    + right. split; [done|]. exists t. rewrite lookup_insert_eq. f_equal. lia.
    + destruct (Ho k l Hkl) as [->|[-> [u Hu]]]; [by left|]. right. split; [done|]. exists u.
      rewrite lookup_insert_ne; [done|]. intros ->. by rewrite Ht in Hu.
Qed.
Lemma exclusive_drop n locks own t i :
  exclusive n locks own → own !! t = Some i → exclusive n (<[Z.to_nat i := 0]> locks) (delete t own).
Proof.
  intros [Hl Ha Ho] Ht. destruct (Hl t i Ht) as [Hi H1]. split.
  - intros u j [Hu Hj]%lookup_delete_Some. destruct (Hl u j Hj) as [Hr Hj1]. split; [done|].
    rewrite list_lookup_insert_ne; [done|]. intros Heq. apply Hu, (Ha t u i); [done|]. by replace i with j by lia.
  - intros u u' j [Hu Hj]%lookup_delete_Some [Hu' Hj']%lookup_delete_Some. by eapply Ha.
  - intros k l [(<-&->&_)|[Hk Hkl]]%list_lookup_insert_Some; [by left|].
    destruct (Ho k l Hkl) as [->|[-> [u Hu]]]; [by left|]. right. split; [done|]. exists u.
    rewrite lookup_delete_ne; [done|]. intros <-. rewrite Ht in Hu. simplify_eq. lia.
Qed.

Section threads.
Context (Malloc : Z → bool) (sizeof_info os_tls_set critnib_insert uuid_lo : Z) (has_remote_replicas : bool) (n : Z).
Implicit Types (p : pm) (d : lane_descriptor).

Abbreviation the_record := (the_info Malloc sizeof_info os_tls_set critnib_insert uuid_lo).
Abbreviation begin_ := (hold_begin Malloc sizeof_info os_tls_set critnib_insert uuid_lo).
Abbreviation end_ := (hold_end Malloc sizeof_info os_tls_set critnib_insert uuid_lo).
Abbreviation release := (lane_release Malloc sizeof_info os_tls_set critnib_insert uuid_lo has_remote_replicas).
Abbreviation has := (has_record uuid_lo).
Abbreviation put := (put_record uuid_lo).

Definition record_of th : option lane_info := Lane_info_ht th ≫= (λ ht, ht !! uuid_lo).
(** The lane that a thread holds: one between the return of [get_lane] and the
    [lane_release] that leaves no nested hold. *)
Definition lane_of (x : hold_phase * thread_info) : option Z :=
  match x.1 with
  | Idle | Ending =>
      info ← record_of x.2;
      if 0 <? nest_count info then Some (lane_idx info) else None
  | _ => None
  end.
Definition owners y : gmap nat Z := omap lane_of (y_threads y).

Inductive lane_step y : lane_system → Prop :=
  | StepBegin t th b info s' :
      y_threads y !! t = Some (Idle, th) → nest_count (default new_info (record_of th)) + 1 < U64 →
      begin_ (view th y) = Ok (b, info) s' →
      lane_step y (back t (if b : bool then Starting info else Ending) s' y)
  | StepStart t th info s' :
      y_threads y !! t = Some (Starting info, th) → on_locks uuid_lo info get_lane_start (view th y) = Ok tt s' →
      lane_step y (back t Trying s' y)
  | StepTry t th info b s' :
      y_threads y !! t = Some (Trying, th) → record_of th = Some info →
      on_locks uuid_lo info (try_lane (runtime_nlanes (y_desc y))) (view th y) = Ok b s' →
      lane_step y (back t (if b : bool then Ending else Trying) s' y)
  | StepEnd t th lanep i s' :
      y_threads y !! t = Some (Ending, th) → end_ lanep (view th y) = Ok i s' → lane_step y (back t Idle s' y)
  | StepRelease t th s' :
      y_threads y !! t = Some (Idle, th) → release (view th y) = Ok tt s' → lane_step y (back t Idle s' y).

(** A pool that was just booted, with threads that did not use it yet. *)
Definition booted y : Prop :=
  runtime_nlanes (y_desc y) = n ∧ Forall (λ l, l = 0) (lane_locks (y_desc y)) ∧
  map_Forall (λ _ x, x.1 = Idle ∧ record_of x.2 = None ∧ Lane_info_cache x.2 ≠ Some uuid_lo) (y_threads y).

(** ** What holds at the points of a thread *)

Definition phase_inv (x : hold_phase * thread_info) : Prop :=
  (Lane_info_cache x.2 = Some uuid_lo → is_Some (record_of x.2)) ∧
  (∀ info, record_of x.2 = Some info → 0 ≤ nest_count info) ∧
  match x.1 with
  | Idle => True
  | Starting info => has x.2 info ∧ nest_count info = 1
  | Trying => ∃ info, has x.2 info ∧ nest_count info = 1
  | Ending => ∃ info, has x.2 info ∧ 0 < nest_count info
  end.
Record system_inv y : Prop := {
  yi_lanes : runtime_nlanes (y_desc y) = n;
  yi_phases : map_Forall (λ _, phase_inv) (y_threads y);
  yi_exclusive : exclusive n (lane_locks (y_desc y)) (owners y);
}.
Lemma owners_back t ph s' y :
  owners (back t ph s' y) = match lane_of (ph, thread s') with Some i => <[t := i]> (owners y) | None => delete t (owners y) end.
Proof. unfold owners, back. cbn [y_threads]. rewrite omap_insert. by destruct (lane_of _). Qed.
Lemma owners_lookup t x y : y_threads y !! t = Some x → owners y !! t = lane_of x.
Proof. intros H. unfold owners. by rewrite lookup_omap, H. Qed.
Lemma phases_back t ph s' y :
  map_Forall (λ _, phase_inv) (y_threads y) → phase_inv (ph, thread s') → map_Forall (λ _, phase_inv) (y_threads (back t ph s' y)).
Proof. intros Hall Hp. by apply map_Forall_insert_2. Qed.
(** A step that changes neither a lock nor the lane of the thread. *)
Lemma inv_same t x ph s' y :
  system_inv y → y_threads y !! t = Some x → phase_inv (ph, thread s') → lane_of (ph, thread s') = lane_of x →
  runtime_nlanes (desc s') = runtime_nlanes (y_desc y) → lane_locks (desc s') = lane_locks (y_desc y) →
  system_inv (back t ph s' y).
Proof.
  intros [Hn Hp Hex] Ht Hp' Hlane Hr Hl. split; [cbn; by rewrite Hr|by apply phases_back|].
  cbn [back y_desc]. rewrite Hl, owners_back, Hlane. pose proof (owners_lookup t x y Ht) as Ho.
  destruct (lane_of x) as [i|]; [by rewrite insert_id|by rewrite delete_id].
Qed.
Lemma has_phase th info : has th info → 0 ≤ nest_count info → ∀ ph,
  match ph with Idle => True | Starting info' => info' = info ∧ nest_count info = 1 | Trying => nest_count info = 1 | Ending => 0 < nest_count info end →
  phase_inv (ph, th).
Proof.
  intros [Hc Hi] H0 ph Hph. fold (record_of th) in Hi. split; [cbn; by rewrite Hi|]. split; [intros info'; cbn; rewrite Hi; by intros [= <-]|].
  destruct ph as [|info'| |]; [done| | |]; [destruct Hph as [-> ?]; by split|by exists info..].
Qed.

(** ** The parts of [lane_hold] *)

Lemma the_info_inv p d th info s' :
  the_record (LaneState p d th) = Ok info s' → (Lane_info_cache th = Some uuid_lo → is_Some (record_of th)) →
  ∃ th', s' = LaneState p d th' ∧ has th' info ∧ info = default new_info (record_of th).
Proof.
  intros Hrun Hok. destruct (decide (Lane_info_cache th = Some uuid_lo)) as [Hc|Hc].
  { destruct (Hok Hc) as [info' Hi]. rewrite (the_info_cached _ _ _ _ _ _ info') in Hrun by done. simplify_eq. exists th. by rewrite Hi. }
  unfold the_info, get_lane_info_record, add_info, lane_info_ht_boot, bind, gets, set_thread, when, modify, stop, ret in Hrun.
  cbn [thread Lane_info_cache Lane_info_ht] in Hrun. rewrite bool_decide_eq_false_2 in Hrun by done.
  destruct th as [[h|] rs ca]; unfold record_of; cbn in *.
  - destruct (h !! uuid_lo) as [i0|] eqn:Hh; cbn in *.
    + unfold info_of in Hrun. cbn in Hrun. rewrite Hh in Hrun. simplify_eq. eexists. split; [reflexivity|]. split; [by split|]. done.
    + destruct (Malloc sizeof_info); cbn in *; [|done]. destruct (critnib_insert =? 0); cbn in *; [|done].
      unfold info_of in Hrun. cbn in Hrun. rewrite lookup_insert_eq in Hrun. cbn in Hrun. simplify_eq. eexists. split; [reflexivity|].
      split; [|done]. split; [done|]. apply lookup_insert_eq.
  - destruct (os_tls_set =? 0); cbn in *; [|done]. rewrite lookup_empty in Hrun. destruct (Malloc sizeof_info); cbn in *; [|done].
    destruct (critnib_insert =? 0); cbn in *; [|done]. unfold info_of in Hrun. cbn in Hrun. rewrite lookup_insert_eq in Hrun. cbn in Hrun.
    simplify_eq. eexists. split; [reflexivity|]. split; [|done]. split; [done|]. apply lookup_insert_eq.
Qed.
Lemma begin_inv p d th b info s' :
  begin_ (LaneState p d th) = Ok (b, info) s' → phase_inv (Idle, th) →
  let info0 := default new_info (record_of th) in nest_count info0 + 1 < U64 →
  ∃ x th', s' = LaneState p (with_next x d) th' ∧ has th' info ∧ nest_count info = nest_count info0 + 1 ∧
    b = (nest_count info0 =? 0) ∧ (lane_idx info0 ≠ UINT64_MAX → lane_idx info = lane_idx info0).
Proof.
  intros Hrun (Hok&H0&_) info0 Hb. unfold hold_begin in Hrun. unfold bind at 1 in Hrun.
  destruct (the_record _) as [i0 s0|] eqn:Hthe; [|done]. apply the_info_inv in Hthe as (t0&->&Hr0&->); [|done].
  destruct (first_lane_Ok uuid_lo _ (LaneState p d t0) Hr0) as (x&t1&info1&Hrun1&Hr1&Hn1&Hi1).
  rewrite (bind_Ok _ _ _ _ _ Hrun1), (bind_Ok _ _ _ _ _ (set_info_run _ _ _)) in Hrun. injection Hrun as <- <- <-.
  assert (0 ≤ nest_count info0).
  { unfold info0. destruct (record_of th) as [i|] eqn:Hrec; [by apply H0|done]. }
  exists x, (put (set_nest (u64 (nest_count info1 + 1)) info1) t1). split; [done|]. split; [by eapply put_record_has|].
  cbn [set_nest nest_count lane_idx]. fold info0 in Hn1, Hi1. rewrite Hn1. split; [|done]. apply u64_small. lia.
Qed.
Lemma end_inv lanep p d th i s' info :
  end_ lanep (LaneState p d th) = Ok i s' → has th info → ∃ ls, s' = LaneState p (with_lanes ls d) th ∧ i = lane_idx info.
Proof.
  intros Hrun Hr. unfold hold_end in Hrun. rewrite (bind_Ok _ _ _ _ _ (the_info_cached _ _ _ _ _ (LaneState p d th) info Hr)) in Hrun.
  destruct (lanep && (nest_count info =? 1)); cbn [when] in Hrun.
  - unfold reinitialize in Hrun. unfold bind, gets in Hrun. cbn in Hrun. destruct (lanes d !! _); [|done]. injection Hrun as <- <-. eexists; split; [reflexivity|done].
  - injection Hrun as <- <-. exists (lanes d). by destruct d.
Qed.
Lemma release_inv p d th s' :
  release (LaneState p d th) = Ok tt s' → phase_inv (Idle, th) → runtime_nlanes d ≠ 0 →
  ∃ info, record_of th = Some info ∧ 0 < nest_count info ∧
    ∃ th' locks', s' = LaneState p (with_locks locks' d) th' ∧ has th' (set_nest (nest_count info - 1) info) ∧
      locks' = if nest_count info =? 1 then <[Z.to_nat (lane_idx info) := 0]> (lane_locks d) else lane_locks d.
Proof.
  intros Hrun (Hok&H0&_) Hn. unfold lane_release in Hrun. erewrite (bind_Ok (gets _)) in Hrun by reflexivity. cbn [desc] in Hrun.
  rewrite (proj2 (Z.eqb_neq _ 0)) in Hrun by done. unfold bind at 1 in Hrun.
  destruct (the_record _) as [i0 s0|] eqn:Hthe; [|done]. apply the_info_inv in Hthe as (t0&->&Hr0&->); [|done].
  destruct (record_of th) as [info|] eqn:Hrec; cbn [default from_option id] in *; [|done]. exists info. split; [done|].
  destruct (lane_idx info =? UINT64_MAX); [done|]. cbn [negb assert_] in Hrun. erewrite (bind_Ok (ret tt)) in Hrun by reflexivity.
  destruct (Z.eqb_spec (nest_count info) 0); [done|]. pose proof (H0 info Hrec). split; [lia|].
  rewrite (bind_Ok _ _ _ _ _ (set_info_run _ _ _)) in Hrun.
  exists (put (set_nest (nest_count info - 1) info) t0). replace (nest_count info - 1 =? 0) with (nest_count info =? 1) in Hrun by lia.
  eexists. split; [|split; [by eapply put_record_has|reflexivity]].
  destruct (nest_count info =? 1); cbn [when] in Hrun.
  - unfold unlock_lane, bind, gets in Hrun. cbn in Hrun. destruct (lane_locks d !! _); [|done]. case_match; [|done]. by injection Hrun as <-.
  - injection Hrun as <-. by destruct d.
Qed.
Lemma on_locks_run {A} info (f : M (list Z * lane_info) A) p d th v locks' info' :
  f (lane_locks d, info) = Ok v (locks', info') →
  on_locks uuid_lo info f (LaneState p d th) = Ok v (LaneState p (with_locks locks' d) (put info' th)).
Proof. intros H. unfold on_locks, zoom. cbn [desc]. by rewrite H. Qed.
Lemma on_locks_inv {A} info (f : M (list Z * lane_info) A) p d th v s' :
  on_locks uuid_lo info f (LaneState p d th) = Ok v s' →
  ∃ locks' info', f (lane_locks d, info) = Ok v (locks', info') ∧ s' = LaneState p (with_locks locks' d) (put info' th).
Proof.
  unfold on_locks, zoom. cbn [desc]. destruct (f _) as [v' [l' i']|]; [|done]. intros [= <- <-]. by exists l', i'.
Qed.

(** ** The invariant *)

Lemma record_lane th info ph : record_of th = Some info → (ph = Idle ∨ ph = Ending) →
  lane_of (ph, th) = if 0 <? nest_count info then Some (lane_idx info) else None.
Proof. intros H [->| ->]; unfold lane_of; cbn [fst snd]; by rewrite H. Qed.
Lemma begin_step y t th b info s' :
  n < 2 ^ 32 → system_inv y → y_threads y !! t = Some (Idle, th) → nest_count (default new_info (record_of th)) + 1 < U64 →
  begin_ (view th y) = Ok (b, info) s' → system_inv (back t (if b : bool then Starting info else Ending) s' y).
Proof.
  intros Hn Hy Ht Hb Hrun. pose proof (yi_phases _ Hy _ _ Ht) as Hp.
  destruct (begin_inv _ _ _ _ _ _ Hrun Hp Hb) as (x&th'&->&Hr&Hnest&->&Hidx).
  assert (0 ≤ nest_count (default new_info (record_of th))) as H0.
  { destruct Hp as (_&H0&_). destruct (record_of th) as [i|] eqn:Hrec; [by apply H0|done]. }
  apply (inv_same t (Idle, th)); [done..| | |done|done]; cbn [thread].
  - apply (has_phase th' info Hr); [lia|]. destruct (Z.eqb_spec (nest_count (default new_info (record_of th))) 0); [split; [done|]|]; lia.
  - destruct (Z.eqb_spec (nest_count (default new_info (record_of th))) 0) as [He|Hne].
    + unfold lane_of. cbn [fst snd]. destruct (record_of th) as [i|]; [|done]. cbn in He |- *. by rewrite He.
    + destruct (record_of th) as [i|] eqn:Hrec; cbn [default from_option id] in *; [|done].
      rewrite (record_lane th' info) by (try apply Hr; auto). rewrite (record_lane th i) by auto.
      rewrite !(proj2 (Z.ltb_lt _ _)) by lia. f_equal. apply Hidx.
      pose proof (owners_lookup _ _ _ Ht) as Ho. rewrite (record_lane th i), (proj2 (Z.ltb_lt _ _)) in Ho by (auto || lia).
      destruct (ex_locked _ _ _ (yi_exclusive _ Hy) _ _ Ho). unfold UINT64_MAX, U64. lia.
Qed.
Lemma try_step y t th info b s' :
  0 < n → system_inv y → y_threads y !! t = Some (Trying, th) → record_of th = Some info →
  on_locks uuid_lo info (try_lane (runtime_nlanes (y_desc y))) (view th y) = Ok b s' →
  system_inv (back t (if b : bool then Ending else Trying) s' y).
Proof.
  intros Hn Hy Ht Hrec (locks'&info'&Hrun&->)%on_locks_inv. pose proof (yi_phases _ Hy _ _ Ht) as (_&_&i0&Hr&Hnest).
  pose proof Hr as [_ Hi0]. cbn [snd] in Hi0. fold (record_of th) in Hi0. rewrite Hrec in Hi0. injection Hi0 as <-.
  rewrite (yi_lanes _ Hy) in Hrun. pose proof (Z.mod_pos_bound (lane_idx info) n Hn) as Hmod.
  destruct (lane_locks (y_desc y) !! Z.to_nat (lane_idx info `mod` n)) as [l|] eqn:Hl.
  2: { unfold try_lane in Hrun. erewrite (bind_Ok (gets id)) in Hrun by reflexivity. cbn [fst snd id set_idx lane_idx] in Hrun.
       by rewrite Hl in Hrun. }
  rewrite (try_lane_run _ _ _ _ Hl) in Hrun. destruct (Z.eqb_spec l 0) as [Hl0|Hl0]; injection Hrun as <- <- <-.
  - rewrite Hl0 in Hl. set (info' := acquired _). assert (has (put info' th) info') as Hr' by (by eapply put_record_has).
    assert (nest_count info' = 1) as Hn' by (unfold info'; rewrite acquired_nest; done).
    split; [apply (yi_lanes _ Hy)|apply phases_back; [apply (yi_phases _ Hy)|apply (has_phase _ info'); [done|lia|cbn; lia]]|].
    rewrite owners_back. cbn [thread]. rewrite (record_lane _ info') by (try apply Hr'; auto). rewrite Hn'. cbn [Z.ltb Z.compare].
    unfold info'. rewrite acquired_idx. cbn [back y_desc desc view with_locks lane_locks set_idx lane_idx].
    apply exclusive_take; [apply (yi_exclusive _ Hy)|by rewrite (owners_lookup _ _ _ Ht)|done|done].
  - apply (inv_same t (Trying, th)); [done..| |done|done|done].
    apply (has_phase _ (missed (set_idx (lane_idx info `mod` n) info))); [by eapply put_record_has|cbn; lia|done].
Qed.
Lemma release_step y t th s' :
  0 < n → system_inv y → y_threads y !! t = Some (Idle, th) → release (view th y) = Ok tt s' → system_inv (back t Idle s' y).
Proof.
  intros Hn Hy Ht Hrun. pose proof (yi_phases _ Hy _ _ Ht) as Hp. pose proof (yi_lanes _ Hy) as Hlanes.
  destruct (release_inv _ _ _ _ Hrun Hp) as (info&Hrec&Hpos&th'&locks'&->&Hr&Hlocks); [lia|].
  assert (lane_of (Idle, th) = Some (lane_idx info)) as Hof by (rewrite (record_lane th info), (proj2 (Z.ltb_lt _ _)) by auto; done).
  assert (phase_inv (Idle, th')) as Hp' by (apply (has_phase _ _ Hr); [cbn; lia|done]).
  destruct (Z.eqb_spec (nest_count info) 1) as [H1|H1]; subst locks'.
  - split; [done|by apply phases_back; [apply (yi_phases _ Hy)|]|]. rewrite owners_back. cbn [thread].
    rewrite (record_lane _ _ Idle (proj2 Hr)) by auto. cbn [set_nest nest_count]. rewrite H1. cbn [Z.sub Z.add Z.opp Z.pos_sub Z.ltb Z.compare].
    apply exclusive_drop; [apply (yi_exclusive _ Hy)|by rewrite (owners_lookup _ _ _ Ht)].
  - apply (inv_same t (Idle, th)); [done..| |done|done]. cbn [thread]. rewrite (record_lane _ _ Idle (proj2 Hr)) by auto.
    rewrite Hof. cbn [set_nest nest_count lane_idx]. by rewrite (proj2 (Z.ltb_lt _ _)) by lia.
Qed.
Lemma inv_step y y' : 0 < n < 2 ^ 32 → system_inv y → lane_step y y' → system_inv y'.
Proof.
  intros Hn Hy Hstep. destruct Hstep as [t th b info s' Ht Hb Hrun|t th info s' Ht Hrun|t th info b s' Ht Hrec Hrun
    |t th lanep i s' Ht Hrun|t th s' Ht Hrun].
  - eapply begin_step; [lia|done..].
  - apply on_locks_inv in Hrun as (locks'&info'&[= <- <-]&->). pose proof (yi_phases _ Hy _ _ Ht) as (_&_&Hr&Hnest).
    apply (inv_same t (Starting info, th)); [done..| |done|done|done].
    apply (has_phase _ (set_idx (primary info) info)); [by eapply put_record_has|cbn; lia|done].
  - eapply try_step; [lia|done..].
  - pose proof (yi_phases _ Hy _ _ Ht) as Hp. pose proof Hp as (_&_&info&Hr&Hpos).
    destruct (end_inv _ _ _ _ _ _ info Hrun Hr) as (ls&->&->). apply (inv_same t (Ending, th)); [done..| |done|done|done].
    apply (has_phase _ info Hr); [lia|done].
  - eapply release_step; [lia|done..].
Qed.
Lemma booted_inv y : booted y → system_inv y.
Proof.
  intros (Hn&Hl&Hall).
  assert (∀ t, owners y !! t = None) as Hno.
  { intros t. unfold owners. rewrite lookup_omap. destruct (y_threads y !! t) as [[ph th]|] eqn:Ht; [|done].
    destruct (Hall _ _ Ht) as (Hph&Hrec&_). cbn in *. subst ph. unfold lane_of. cbn. by rewrite Hrec. }
  split; [done| |split].
  - intros t [ph th] Ht. destruct (Hall _ _ Ht) as (Hph&Hrec&Hc). cbn in *. subst ph. split; [done|]. split; [|done].
    intros info. cbn. by rewrite Hrec.
  - intros t i. by rewrite Hno.
  - intros t t' i. by rewrite Hno.
  - intros k l Hk. left. by apply (Forall_lookup_1 _ _ _ _ Hl Hk).
Qed.

(** ** The functions and the steps *)

Lemma back_back t ph ph' s s' y : back t ph' s' (back t ph s y) = back t ph' s' y.
Proof. unfold back. cbn [y_threads]. f_equal. apply insert_insert_eq. Qed.
Lemma back_lookup t ph s y : y_threads (back t ph s y) !! t = Some (ph, thread s).
Proof. apply lookup_insert_eq. Qed.
Lemma put_put info info' th : put info' (put info th) = put info' th.
Proof. destruct th as [[h|] rs ca]; [|done]. unfold put_record. cbn. by rewrite insert_insert_eq. Qed.
(** The attempts of a thread that nobody disturbs. *)
Lemma attempts_steps fuel k t y th info locks' info' :
  y_threads y !! t = Some (Trying, th) → has th info →
  get_lane_from (λ _ l, l) (runtime_nlanes (y_desc y)) fuel k (lane_locks (y_desc y), info) = Ok tt (locks', info') →
  rtc lane_step y (back t Ending (LaneState (y_pm y) (with_locks locks' (y_desc y)) (put info' th)) y).
Proof.
  revert k y th info. induction fuel as [|fuel IH]; intros k y th info Ht Hr Hrun; [done|].
  cbn [get_lane_from] in Hrun. erewrite (bind_Ok (modify _)) in Hrun by reflexivity. cbn [fst snd] in Hrun. unfold bind at 1 in Hrun.
  destruct (try_lane _ _) as [b [l1 i1]|] eqn:Htry; [|done].
  assert (lane_step y (back t (if b : bool then Ending else Trying) (LaneState (y_pm y) (with_locks l1 (y_desc y)) (put i1 th)) y)) as Hstep.
  { eapply (StepTry _ t th info); [done|apply Hr|]. by apply on_locks_run. }
  destruct b; [injection Hrun as <- <-; by apply rtc_once|]. eapply rtc_l; [exact Hstep|].
  pose proof (IH (S k) (back t Trying (LaneState (y_pm y) (with_locks l1 (y_desc y)) (put i1 th)) y) (put i1 th) i1
    (back_lookup _ _ _ _) (put_record_has _ _ _ _ Hr) Hrun) as Hrest.
  rewrite back_back, put_put in Hrest. exact Hrest.
Qed.
Lemma hold_steps attempts lanep t y th i s' :
  y_threads y !! t = Some (Idle, th) → phase_inv (Idle, th) → nest_count (default new_info (record_of th)) + 1 < U64 →
  runtime_nlanes (y_desc y) ≠ 0 →
  lane_hold Malloc sizeof_info os_tls_set critnib_insert uuid_lo has_remote_replicas (λ _ l, l) attempts lanep (view th y) = Ok i s' →
  rtc lane_step y (back t Idle s' y).
Proof.
  intros Ht Hp Hb Hn Hrun. unfold lane_hold in Hrun. erewrite (bind_Ok (gets _)) in Hrun by reflexivity.
  cbn [view desc] in Hrun. rewrite (proj2 (Z.eqb_neq _ 0)) in Hrun by done. unfold bind at 1 in Hrun. fold (view th y) in Hrun.
  destruct (begin_ _) as [[b info] s1|] eqn:Hbegin; [|done]. cbn [fst snd] in Hrun.
  eapply rtc_l; [by eapply (StepBegin _ t)|].
  destruct (begin_inv _ _ _ _ _ _ Hbegin Hp Hb) as (x&th1&->&Hr&_&_&_).
  assert (∀ y2 d2 th2, y2 = back t Ending (LaneState (y_pm y) d2 th2) y →
    end_ lanep (LaneState (y_pm y) d2 th2) = Ok i s' → rtc lane_step y2 (back t Idle s' y)) as Hend.
  { intros y2 d2 th2 -> He. apply rtc_once. rewrite <-(back_back t Ending Idle (LaneState (y_pm y) d2 th2)).
    eapply StepEnd; [apply back_lookup|exact He]. }
  destruct b; cbn [when] in Hrun; [|by eapply Hend].
  unfold bind at 1 in Hrun. destruct (on_locks _ _ _ _) as [[] s2|] eqn:Hget; [|done].
  apply on_locks_inv in Hget as (l2&info2&Hget&->). unfold get_lane in Hget. erewrite (bind_Ok get_lane_start) in Hget by reflexivity.
  eapply rtc_l; [eapply (StepStart _ t); [apply back_lookup|apply on_locks_run; reflexivity]|]. rewrite back_back.
  etrans; [eapply attempts_steps; [apply back_lookup|by eapply put_record_has|exact Hget]|].
  rewrite back_back. cbn [back y_pm y_desc thread l_pm desc view with_locks with_next runtime_nlanes next_lane_idx lanes].
  rewrite put_put. eapply Hend; [reflexivity|exact Hrun].
Qed.
(** A thread that holds a lane gives it back. *)
Lemma release_run p d th info :
  record_of th = Some info → 0 < nest_count info → lane_idx info ≠ UINT64_MAX → runtime_nlanes d ≠ 0 →
  lane_locks d !! Z.to_nat (lane_idx info) = Some 1 →
  ∃ th', release (LaneState p d th) = Ok tt (LaneState p
    (with_locks (if nest_count info =? 1 then <[Z.to_nat (lane_idx info) := 0]> (lane_locks d) else lane_locks d) d) th').
Proof.
  intros Hrec Hpos Hidx Hn Hl. unfold lane_release. erewrite (bind_Ok (gets _)) by reflexivity. cbn [desc].
  rewrite (proj2 (Z.eqb_neq _ 0)) by done.
  assert (∃ th', the_record (LaneState p d th) = Ok info (LaneState p d th')) as [th' Hthe].
  { unfold the_info, get_lane_info_record, bind, gets, when, set_thread, modify, info_of, ret. cbn [thread].
    destruct (bool_decide _); [cbn [thread]; unfold record_of in Hrec; rewrite Hrec; by eexists|].
    destruct th as [[h|] rs ca]; unfold record_of in Hrec; cbn in *; [|done]. rewrite Hrec. cbn. rewrite Hrec. by eexists. }
  rewrite (bind_Ok _ _ _ _ _ Hthe), (proj2 (Z.eqb_neq _ UINT64_MAX)) by done. cbn [negb assert_].
  erewrite (bind_Ok (ret tt)) by reflexivity. rewrite (proj2 (Z.eqb_neq _ 0)) by lia.
  rewrite (bind_Ok _ _ _ _ _ (set_info_run _ _ _)). replace (nest_count info - 1 =? 0) with (nest_count info =? 1) by lia.
  eexists. destruct (nest_count info =? 1); cbn [when].
  - unfold unlock_lane, bind, gets. cbn [desc l_pm thread]. rewrite Hl. reflexivity.
  - unfold ret. f_equal. destruct d. reflexivity.
Qed.

(** C37. However many threads run [lane_hold] and [lane_release] on a pool that
    was just booted, and however the attempts of one interleave with the parts of
    the others: the lock of a lane that a thread holds is set; two different threads
    never hold the same lane; a lock is set only while some thread holds its lane; a
    thread that holds a lane can always release it, which frees its lock exactly when
    no nested hold is left and leaves the other locks alone.  The parts are those of
    the functions: a call of [lane_hold] that nobody disturbs is a sequence of
    them.  The pool has between 1 and [2^32 - 1] lanes, no thread nests [2^64]
    holds, and lanes are not handed over with [lane_detach] and [lane_attach]. *)
Theorem lane_exclusive y0 y :
  0 < n < 2 ^ 32 → booted y0 → rtc lane_step y0 y →
  (∀ t i, owners y !! t = Some i → 0 ≤ i < n ∧ lane_locks (y_desc y) !! Z.to_nat i = Some 1) ∧
  (∀ t t' i, owners y !! t = Some i → owners y !! t' = Some i → t = t') ∧
  (∀ k l, lane_locks (y_desc y) !! k = Some l → l = 0 ∨ l = 1 ∧ ∃ t, owners y !! t = Some (Z.of_nat k)) ∧
  (∀ t th i, y_threads y !! t = Some (Idle, th) → owners y !! t = Some i → ∃ info s', record_of th = Some info ∧
    release (view th y) = Ok tt s' ∧ lane_step y (back t Idle s' y) ∧
    lane_locks (desc s') = if nest_count info =? 1 then <[Z.to_nat i := 0]> (lane_locks (y_desc y)) else lane_locks (y_desc y)) ∧
  (∀ t th attempts lanep i s', y_threads y !! t = Some (Idle, th) → nest_count (default new_info (record_of th)) + 1 < U64 →
    lane_hold Malloc sizeof_info os_tls_set critnib_insert uuid_lo has_remote_replicas (λ _ l, l) attempts lanep (view th y) = Ok i s' →
    rtc lane_step y (back t Idle s' y)).
Proof.
  intros Hn H0 Hsteps.
  assert (system_inv y) as [Hlanes Hp Hex].
  { apply booted_inv in H0. induction Hsteps as [|y0 y1 y2 Hstep _ IH]; [done|]. by apply IH, (inv_step y0). }
  split; [apply Hex|]. split; [apply Hex|]. split; [apply Hex|]. split.
  - intros t th i Ht Ho. pose proof (ex_locked _ _ _ Hex _ _ Ho) as [Hi Hl]. rewrite (owners_lookup _ _ _ Ht) in Ho.
    unfold lane_of in Ho. cbn [fst snd] in Ho. destruct (record_of th) as [info|] eqn:Hrec; [|done]. cbn in Ho.
    destruct (Z.ltb_spec 0 (nest_count info)); [|done]. injection Ho as <-.
    destruct (release_run (y_pm y) (y_desc y) th info) as [th' Hrun]; [done..|unfold UINT64_MAX, U64; lia|lia|done|].
    exists info. eexists. split; [done|]. split; [exact Hrun|]. split; [by eapply StepRelease|done].
  - intros t th attempts lanep i s' Ht Hb Hrun. eapply hold_steps; [done|by apply (Hp t)|done|lia|done].
Qed.
End threads.

(** Two threads ask for a lane of a pool of two: the second one misses the lane
    that the first one has just taken, takes the other, and the first releases its
    own. *)
Definition two_threads : lane_system :=
  System (Pm (λ _, 0) []) (Descriptor 2 0 [0; 0] [])
    (<[0%nat := (Idle, ThreadInfo None [] None)]> (<[1%nat := (Idle, ThreadInfo None [] None)]> ∅)).
Abbreviation two_step := (lane_step (λ _, true) 32 0 0 7 false).
Lemma two_threads_booted : booted 7 2 two_threads.
Proof.
  split; [done|]. split; [by repeat constructor|]. unfold two_threads. cbn [y_threads].
  repeat (apply map_Forall_insert_2; [done|]). apply map_Forall_empty.
Qed.
Lemma two_threads_run :
  ∃ y th, rtc two_step two_threads y ∧ y_threads y !! 0%nat = Some (Idle, th) ∧ lane_locks (y_desc y) = [1; 1] ∧
    owners 7 y !! 0%nat = Some 0 ∧ owners 7 y !! 1%nat = Some 1 ∧ record_of 7 th = Some (LaneInfo 0 1 0 128).
Proof.
  eexists _, _. split.
  - eapply rtc_l; [eapply (StepBegin _ _ _ _ _ _ _ 0); [reflexivity..|vm_compute; reflexivity]|].
    eapply rtc_l; [eapply (StepBegin _ _ _ _ _ _ _ 1); [reflexivity..|vm_compute; reflexivity]|].
    eapply rtc_l; [eapply (StepStart _ _ _ _ _ _ _ 0); [reflexivity..|vm_compute; reflexivity]|].
    eapply rtc_l; [eapply (StepStart _ _ _ _ _ _ _ 1); [reflexivity..|vm_compute; reflexivity]|].
    eapply rtc_l; [eapply (StepTry _ _ _ _ _ _ _ 0); [reflexivity..|vm_compute; reflexivity]|].
    do 2 (eapply rtc_l; [eapply (StepTry _ _ _ _ _ _ _ 1); [reflexivity..|vm_compute; reflexivity]|]).
    eapply rtc_l; [eapply (StepEnd _ _ _ _ _ _ _ 0 _ false); [reflexivity..|vm_compute; reflexivity]|].
    eapply rtc_l; [eapply (StepEnd _ _ _ _ _ _ _ 1 _ false); [reflexivity..|vm_compute; reflexivity]|].
    apply rtc_refl.
  - vm_compute. done.
Qed.
Example lane_exclusive_witness :
  ∃ y th s', rtc two_step two_threads y ∧ y_threads y !! 0%nat = Some (Idle, th) ∧
    owners 7 y !! 0%nat = Some 0 ∧ owners 7 y !! 1%nat = Some 1 ∧
    lane_release (λ _, true) 32 0 0 7 false (view th y) = Ok tt s' ∧ lane_locks (desc s') = [0; 1].
Proof.
  destruct two_threads_run as (y&th&Hsteps&Ht&Hlocks&H0&H1&Hrec).
  destruct (lane_exclusive (λ _, true) 32 0 0 7 false 2 two_threads y ltac:(lia) two_threads_booted Hsteps) as (_&_&_&Hrel&_).
  destruct (Hrel 0%nat th 0 Ht H0) as (info&s'&Hi&Hrun&_&Hl). rewrite Hrec in Hi. injection Hi as <-. rewrite Hlocks in Hl.
  by exists y, th, s'.
Defined.
