(* ===== verification/RedoFacts.v ===== *)
(** * Redo logs: a single word, and the order of merged entries

    An operation that sets one word of the pool is applied at once, by one store
    of eight bytes, without the persistent log. *)
From stdpp Require Import base list strings.
From S2P Require Import Prelude Pmem PmemFacts Ulog UlogFacts Memops UndoFacts.
Open Scope Z_scope.
#[local] Set Default Proof Using "Type".

Implicit Types (s : pm) (c : operation_context).

Section redo.
Context (Realloc : Z → Z → M pm Z) (vecq_room : vecq → bool) (garbage : Z).
Context (ulog_free : Z → M pm unit) (logs entries : nat).

(** The entry in the transient copy of the log. *)
Definition shadow_entry c : Z := ulog_data (log_ulog (pshadow_ops c)).
Record word_loaded s c (ptr v : Z) : Prop := {
  wl_type : type c = LOG_TYPE_REDO;
  wl_progress : in_progress c = true;
  wl_offset : log_offset (pshadow_ops c) = sizeof_entry_val;
  wl_word : le64 (bytes s) (shadow_entry c) = ptr - base (p_ops c);
  wl_value : le64 (bytes s) (shadow_entry c + 8) = v;
  wl_transient : log_offset (transient_ops c) = 0;
  wl_room : base (p_ops c) ≤ ptr < base (p_ops c) + 2 ^ 61;
}.
(** What an operation with a single word leaves of the context. *)
Definition kept_context c := (type c, p_ops c, ulog c, ulog_base_nbytes c, ulog_capacity c, next c,
                              log_capacity (pshadow_ops c), log_ulog (pshadow_ops c)).

Lemma set_word o : 0 ≤ o < 2 ^ 61 → Z.land o ULOG_OPERATION_MASK = ULOG_OPERATION_SET ∧ Z.land o ULOG_OFFSET_MASK = o.
Proof.
  intros Ho. split.
  - change ULOG_OPERATION_MASK with (Z.shiftl 7 61). change ULOG_OPERATION_SET with 0. apply Z.bits_inj'. intros n Hn.
    rewrite Z.land_spec, Z.bits_0, Z.shiftl_spec by done. destruct (decide (n < 61)).
    + by rewrite (Z.testbit_neg_r 7), andb_false_r by lia.
    + replace o with (o `mod` 2 ^ 61) by (by apply Z.mod_small). by rewrite Z.mod_pow2_bits_high by lia.
  - change ULOG_OFFSET_MASK with (Z.ones 61). rewrite Z.land_ones by done. by apply Z.mod_small.
Qed.
Lemma word_type s e o : 0 ≤ o < 2 ^ 61 → le64 (bytes s) e = o → ulog_entry_type e s = Ok ULOG_OPERATION_SET s.
Proof. intros Ho He. unfold ulog_entry_type. rewrite (bind_Ok _ _ _ _ _ (rd64_Ok s e)), He. by destruct (set_word o Ho) as [-> _]. Qed.
Lemma word_offset s e o : 0 ≤ o < 2 ^ 61 → le64 (bytes s) e = o → ulog_entry_offset e s = Ok o s.
Proof. intros Ho He. unfold ulog_entry_offset. rewrite (bind_Ok _ _ _ _ _ (rd64_Ok s e)), He. by destruct (set_word o Ho) as [_ ->]. Qed.

(** Adding the word to an operation that has just been started. *)
Lemma add_word s c ptr v :
  type c = LOG_TYPE_REDO → log_capacity (pshadow_ops c) ≠ 64 → base (p_ops c) ≤ ptr < base (p_ops c) + 2 ^ 61 →
  off_is_valid (p_ops c) (ptr - base (p_ops c)) = true → 0 ≤ v < U64 →
  ∃ l s' c', operation_add_entry Realloc vecq_room garbage ptr v ULOG_OPERATION_SET (s, set_progress true (reset c)) = Ok 0 (s', c') ∧
    length l = 24%nat ∧ s' = Pm (store_bytes (bytes s) (shadow_entry c) l) (PWrite (shadow_entry c) l false :: events s) ∧ word_loaded s' c' ptr v ∧ kept_context c' = kept_context c.
Proof.
  intros Hty Hcap Hptr Hvalid Hv. set (b := base (p_ops c)) in *. set (c0 := set_progress true (reset c)).
  assert (u64 (ptr - b) = ptr - b) as Hu by (apply u64_small; unfold U64; lia).
  unfold operation_add_entry. rewrite (bind_Ok _ _ _ _ _ (ctx_Ok _ s c0)). change (p_ops c0) with (p_ops c). fold b. rewrite Hu, Hvalid.
  unfold operation_add_typed_entry. erewrite bind_Ok.
  2: { unfold grow_log, oplog. rewrite (bind_Ok _ _ _ _ _ (ctx_Ok _ s c0)). cbn [c0 set_progress reset set_total set_curr set_merge set_log pshadow_ops log_offset log_capacity].
       rewrite (proj2 (Z.eqb_neq _ _)) by (unfold CACHELINE_SIZE; lia). reflexivity. }
  cbn [Z.eqb negb]. rewrite bool_decide_true by done. erewrite (bind_Ok (operation_try_merge_entry _ _ _)) by reflexivity.
  cbn [Z.eqb negb]. unfold oplog. rewrite (bind_Ok _ _ _ _ _ (ctx_Ok _ s c0)), (bind_Ok _ _ _ _ _ (ctx_Ok _ s c0)).
  set (l := to_le 8 (ptr - b) ++ to_le 8 v ++ to_le 8 0). set (e := shadow_entry c).
  set (s1 := Pm (store_bytes (bytes s) e l) (PWrite e l false :: events s)).
  assert (ulog_entry_val_create (log_ulog (pshadow_ops c0)) (log_offset (pshadow_ops c0)) ptr v ULOG_OPERATION_SET (s_ops c0) s = Ok e s1) as Hcreate.
  { unfold ulog_entry_val_create. change (base (s_ops c0)) with b. rewrite Hu. change ULOG_OPERATION_SET with 0.
    rewrite Z.lor_0_r. change (log_offset (pshadow_ops c0)) with 0. rewrite Z.add_0_r. reflexivity. }
  rewrite (bind_Ok _ _ _ _ _ (on_pm_Ok _ _ _ _ _ Hcreate)). cbn [when].
  assert (le64 (bytes s1) e = ptr - b ∧ le64 (bytes s1) (e + 8) = v) as [Hw1 Hw2].
  { cbn [s1 bytes]. split; apply le64_load; [unfold U64; lia| |done|].
    - rewrite <-(Z.add_0_r e) at 2. apply (load_store_part _ _ l [] (to_le 8 (ptr - b)) (to_le 8 v ++ to_le 8 0)). done.
    - apply (load_store_part _ _ l (to_le 8 (ptr - b)) (to_le 8 v) (to_le 8 0)). done. }
  assert (∀ c', on_pm (ulog_entry_size e) (s1, c') = Ok sizeof_entry_val (s1, c')) as Hsize.
  { intros c'. apply on_pm_Ok. unfold ulog_entry_size. rewrite (bind_Ok _ _ _ _ _ (word_type s1 e (ptr - b) ltac:(lia) Hw1)). done. }
  unfold operation_merge_entry_add. erewrite bind_Ok.
  2: { rewrite (bind_Ok _ _ _ _ _ (ctx_Ok _ s1 c0)), update_Ok. reflexivity. }
  rewrite (bind_Ok _ _ _ _ _ (Hsize _)), (bind_Ok _ _ _ _ _ (update_Ok _ s1 _)).
  eexists l, s1, _. split; [reflexivity|]. split; [done|]. split; [done|]. split; [|done]. by split.
Qed.

(** The end of the operation stores the word. *)
Lemma finish_word s c ptr v :
  word_loaded s c ptr v →
  ∃ evs, operation_finish ulog_free logs entries (s, c)
    = Ok tt (Pm (store_bytes (bytes s) ptr (to_le 8 v)) (evs ++ PWrite ptr (to_le 8 v) false :: events s), set_progress false c) ∧
    evs = if persistent (p_ops c) then [PDrain; PFlush ptr 8] else [].
Proof.
  intros [Hty Hp Ho Hw Hv Ht Hr]. unfold operation_finish. rewrite (bind_Ok _ _ _ _ _ (ctx_Ok _ s c)), Hp. cbn [assert_].
  erewrite (bind_Ok (ret tt)) by reflexivity. rewrite (bind_Ok _ _ _ _ _ (update_Ok _ s c)), (bind_Ok _ _ _ _ _ (ctx_Ok id s _)).
  unfold id. set (c1 := set_progress false c). change (type c1) with (type c). change (pshadow_ops c1) with (pshadow_ops c).
  rewrite Hty, Ho, bool_decide_true by done. cbn [Z.eqb negb andb sizeof_entry_val]. set (e := shadow_entry c) in *. set (o := ptr - base (p_ops c)) in *.
  assert (0 ≤ o < 2 ^ 61) as Hor by (unfold o; lia).
  pose proof (word_type s e o Hor Hw) as Hety. pose proof (word_offset s e o Hor Hw) as Heoff.
  set (evs := if persistent (p_ops c) then [PDrain; PFlush ptr 8] else []).
  set (s1 := Pm (store_bytes (bytes s) ptr (to_le 8 v)) (evs ++ PWrite ptr (to_le 8 v) false :: events s)).
  assert (ulog_entry_apply e true (p_ops c) s = Ok tt s1) as Happly.
  { unfold ulog_entry_apply. rewrite (bind_Ok _ _ _ _ _ Hety), (bind_Ok _ _ _ _ _ Heoff).
    replace (base (p_ops c) + o) with ptr by (unfold o; lia). change (is_val ULOG_OPERATION_SET) with true. cbv iota.
    rewrite (bind_Ok _ _ _ _ _ (rd64_Ok s _)), Hv, (bind_Ok _ _ _ _ _ (rd64_Ok s _)). unfold s1, evs.
    unfold pmemops_persist, pmemops_xflush, pmemops_drain. destruct (persistent (p_ops c)); reflexivity. }
  exists evs. split; [|done]. fold s1. unfold operation_process. erewrite bind_Ok.
  2: { unfold process_single. rewrite (bind_Ok _ _ _ _ _ (ctx_Ok id s c1)). unfold id. cbv zeta. change (type c1) with (type c).
       change (pshadow_ops c1) with (pshadow_ops c). rewrite Hty, Ho, bool_decide_true by done. cbn [Z.eqb negb andb sizeof_entry_val Pos.eqb].
       fold (shadow_entry c). fold e. rewrite (bind_Ok _ _ _ _ _ (on_pm_Ok _ _ _ _ _ Hety)). change (is_val ULOG_OPERATION_SET) with true. cbv iota.
       rewrite (bind_Ok _ _ _ _ _ (on_pm_Ok _ _ _ _ _ Happly)). reflexivity. }
  rewrite (bind_Ok _ _ _ _ _ (ctx_Ok id s1 c1)). unfold id. change (type c1) with (type c). rewrite Hty, bool_decide_false by done.
  erewrite (bind_Ok (ret tt)) by reflexivity. change (transient_ops c1) with (transient_ops c). by rewrite Ht.
Qed.
End redo.

(** ** The order of merged entries

    [operation_try_merge_entry] looks for the latest entry of a word among the
    recent ones.  The macro it uses, [VECQ_FOREACH_REVERSE], goes through the
    slots of the queue's buffer and ignores where the queue begins.  Once the
    queue has wrapped, an older entry is found first. *)

Module MergeOrder.
(** A redo operation of a lane on a pool at 4096.  Its log of 640 bytes has one
    extension; its transient log has room for 124 entries, as it has after an
    earlier operation with many entries. *)
Definition redo_pool : pmem_ops := PmemOps 4096 true (λ _, true).
Definition redo_context : operation_context :=
  OpCtx LOG_TYPE_REDO redo_pool 0 0 0 0 8192 640 1280 [12288] true (OpLog 2048 0 1048576) (OpLog 1024 0 2097152) VECQ_EMPTY.
Definition redo_memory : mem :=
  store_bytes (store_bytes (store_bytes (store_bytes (λ _, 0) (ulog_capacity_at 8192) (to_le 8 640))
    (ulog_next_at 8192) (to_le 8 12288)) (ulog_capacity_at 16384) (to_le 8 640)) (ulog_capacity_at 1048576) (to_le 8 640).
Definition add_word (ptr value ty : Z) : M opst Z :=
  operation_add_entry (λ _ _, ret 0) (λ _, true) 0 ptr value ty.
(** 63 other words, then the word at [ptr]: set bit 0, clear bit 1, set bit 1. *)
Definition other_words : M opst unit :=
  for_each (seq 0 63) (λ i, add_word (65536 + 8 * Z.of_nat i) 7 ULOG_OPERATION_SET ;; ret tt).
Definition three_entries (ptr : Z) : M opst unit :=
  add_word ptr 1 ULOG_OPERATION_OR ;;
  add_word ptr (U64 - 3) ULOG_OPERATION_AND ;;
  add_word ptr 2 ULOG_OPERATION_OR ;;
  ret tt.
Definition final_word (c : M opst unit) (ptr : Z) : option Z :=
  match (c ;; operation_process 3 70) (Pm redo_memory [], redo_context) with
  | Ok _ (s, _) => Some (le64 (bytes s) ptr)
  | Abort _ _ => None
  end.

(** Alone, the three entries leave both bits set.  After 63 other entries the
    last one is merged into the first, and bit 1 is clear. *)
Theorem merge_order_lost :
  final_word (three_entries 131072) 131072 = Some 3 ∧
  final_word (other_words ;; three_entries 131072) 131072 = Some 1.
Proof. vm_compute. split; reflexivity. Qed.
End MergeOrder.
