(* ===== verification/History.v ===== *)
(** * Operations and the history of memory

    The operations on logs add to the history of the memory and never take from
    it, do not wait for locks, and do not jump. *)
From stdpp Require Import base list strings.
From S2P Require Import Prelude Pmem Ulog Memops.
Open Scope Z_scope.
#[local] Set Default Proof Using "Type".

(** Reasons to stop that an operation on memory does not have: an error of a lock
    (waiting for oneself, releasing what is not held), or a jump. *)
Definition stray (e : abort_reason) : bool :=
  match e with
  | Blocked | LongJump _ _ => true
  | UndefinedBehaviour what => bool_decide (what = "pthread_mutex_unlock"%string)
  | _ => false
  end.

Section grows.
Context {S : Type} (h : S → list pm_event).
Definition grows {A} (f : M S A) : Prop := ∀ s,
  match f s with Ok _ s' => ∃ evs, h s' = evs ++ h s | Abort e _ => stray e = false end.
Lemma grows_ret {A} (v : A) : grows (ret v).
Proof. intros s. by exists []. Qed.
Lemma grows_bind {A B} (f : M S A) (k : A → M S B) : grows f → (∀ v, grows (k v)) → grows (bind f k).
Proof.
  intros Hf Hk s. unfold bind. specialize (Hf s). destruct (f s) as [v s1|]; [|done]. destruct Hf as [evs Hf].
  specialize (Hk v s1). destruct (k v s1) as [v2 s2|]; [|done]. destruct Hk as [evs2 Hk]. exists (evs2 ++ evs). by rewrite Hk, Hf, app_assoc.
Qed.
Lemma grows_stop {A} e : stray e = false → grows (A := A) (stop e).
Proof. by intros He s. Qed.
Lemma grows_assert b what : grows (assert_ b what).
Proof. destruct b; [apply grows_ret|]. by apply grows_stop. Qed.
Lemma grows_gets {A} (f : S → A) : grows (gets f).
Proof. intros s. by exists []. Qed.
Lemma grows_when b (f : M S unit) : grows f → grows (when b f).
Proof. intros Hf. destruct b; [done|apply grows_ret]. Qed.
Lemma grows_for_each {A} (l : list A) f : (∀ a, grows (f a)) → grows (for_each l f).
Proof. intros Hf. induction l as [|a l IH]; [apply grows_ret|]. apply grows_bind; [done|]. by intros []. Qed.
End grows.
Create HintDb grows discriminated.
(** One step through the structure of a program. *)
Ltac grows_step :=
  first [ solve [auto with grows nocore] | apply grows_ret | apply grows_gets | apply grows_assert | apply grows_when
        | apply grows_stop; reflexivity | apply grows_for_each; intros ? | apply grows_bind; [|intros ?] ].
Ltac grows_all := repeat (grows_step || case_match).

(** ** Memory *)

Abbreviation grows_pm := (grows events).
Lemma rd64_grows a : grows_pm (rd64 a).
Proof. intros s. by exists []. Qed.
Lemma rd_bytes_grows a n : grows_pm (rd_bytes a n).
Proof. intros s. by exists []. Qed.
Lemma put_grows a l b : grows_pm (put a l b).
Proof. intros s. by exists [PWrite a l b]. Qed.
Lemma emit_grows e : grows_pm (emit e).
Proof. intros s. by exists [e]. Qed.
#[export] Hint Resolve rd64_grows rd_bytes_grows put_grows emit_grows : grows.
Lemma wr64_grows a v : grows_pm (wr64 a v).
Proof. unfold wr64. grows_all. Qed.
Lemma drain_grows ops : grows_pm (pmemops_drain ops).
Proof. unfold pmemops_drain. grows_all. Qed.
Lemma xflush_grows ops a n : grows_pm (pmemops_xflush ops a n).
Proof. unfold pmemops_xflush. grows_all. Qed.
#[export] Hint Resolve wr64_grows drain_grows xflush_grows : grows.
Lemma persist_grows ops a n : grows_pm (pmemops_persist ops a n).
Proof. unfold pmemops_persist. grows_all. Qed.
Lemma memcpy_grows ops a l fl : grows_pm (pmemops_memcpy ops a l fl).
Proof. unfold pmemops_memcpy. grows_all. Qed.
#[export] Hint Resolve persist_grows memcpy_grows : grows.
Lemma memset_grows ops a c n fl : grows_pm (pmemops_memset ops a c n fl).
Proof. apply memcpy_grows. Qed.
Lemma util_checksum_grows a n at_ b x : grows_pm (util_checksum a n at_ b x).
Proof. unfold util_checksum. grows_all. Qed.
#[export] Hint Resolve memset_grows util_checksum_grows : grows.

(** ** Logs *)

Lemma next_grows u ops : grows_pm (ulog_next u ops).
Proof. unfold ulog_next. grows_all. Qed.
Lemma entry_type_grows e : grows_pm (ulog_entry_type e).
Proof. unfold ulog_entry_type. grows_all. Qed.
Lemma entry_offset_grows e : grows_pm (ulog_entry_offset e).
Proof. unfold ulog_entry_offset. grows_all. Qed.
#[export] Hint Resolve next_grows entry_type_grows entry_offset_grows : grows.
Lemma entry_size_grows e : grows_pm (ulog_entry_size e).
Proof. unfold ulog_entry_size. grows_all. Qed.
#[export] Hint Resolve entry_size_grows : grows.
Lemma entry_valid_grows e : grows_pm (ulog_entry_valid e).
Proof. unfold ulog_entry_valid. grows_all. Qed.
Lemma entry_apply_grows e b ops : grows_pm (ulog_entry_apply e b ops).
Proof. unfold ulog_entry_apply. grows_all. Qed.
Lemma val_create_grows u o d v ty ops : grows_pm (ulog_entry_val_create u o d v ty ops).
Proof. unfold ulog_entry_val_create. grows_all. Qed.
#[export] Hint Resolve entry_valid_grows entry_apply_grows val_create_grows : grows.
Lemma process_entry_grows ops e : grows_pm (ulog_process_entry ops e).
Proof. unfold ulog_process_entry. grows_all. Qed.
#[export] Hint Resolve process_entry_grows : grows.
Lemma log_entries_grows fuel r o cb v : (∀ e, grows_pm (cb e)) → grows_pm (log_entries fuel r o cb v).
Proof. intros Hcb. revert o v. induction fuel as [|fuel IH]; intros o v; cbn [log_entries]; grows_all. Qed.
Lemma foreach_log_grows fuel entries r cb v ops : (∀ e, grows_pm (cb e)) → grows_pm (foreach_log fuel entries r cb v ops).
Proof.
  intros Hcb. revert r v. induction fuel as [|fuel IH]; intros r v; cbn [foreach_log]; [grows_all|]. case_match; [grows_all|].
  apply grows_bind; [by apply log_entries_grows|]. intros o. grows_all.
Qed.
Lemma process_grows fuel entries u check ops : grows_pm (ulog_process fuel entries u check ops).
Proof.
  unfold ulog_process, ulog_check, ulog_check_entry. apply grows_bind.
  - case_match; [|grows_all]. apply grows_bind; [apply foreach_log_grows; intros e; grows_all|]. intros v. grows_all.
  - intros []. apply grows_bind; [apply foreach_log_grows; intros e; grows_all|]. intros v. grows_all.
Qed.
Lemma store_next_grows fuel src o n ns k ops : grows_pm (store_next fuel src o n ns k ops).
Proof. revert o n k. induction fuel as [|fuel IH]; intros o n k; cbn [store_next]; grows_all. Qed.
#[export] Hint Resolve process_grows store_next_grows : grows.
Lemma store_grows fuel dest src n b ns ops : grows_pm (ulog_store fuel dest src n b ns ops).
Proof. unfold ulog_store, ulog_checksum. grows_all. Qed.
Lemma zero_logs_grows fuel r n cap ns k ops : grows_pm (zero_logs fuel r n cap ns k ops).
Proof. revert r n cap k. induction fuel as [|fuel IH]; intros r n cap k; cbn [zero_logs]; grows_all. Qed.
Lemma logs_past_grows fuel u acc ops : grows_pm (logs_past fuel u acc ops).
Proof. revert u acc. induction fuel as [|fuel IH]; intros u acc; cbn [logs_past]; grows_all. Qed.
Lemma capacity_grows fuel u c ops : grows_pm (capacity_from fuel u c ops).
Proof. revert u c. induction fuel as [|fuel IH]; intros u c; cbn [capacity_from]; grows_all. Qed.
Lemma rebuild_grows fuel u ns ops : grows_pm (ulog_rebuild_next_vec fuel u ns ops).
Proof. revert u ns. induction fuel as [|fuel IH]; intros u ns; cbn [ulog_rebuild_next_vec]; grows_all. Qed.
Lemma invalidate_grows dest ns ops : grows_pm (ulog_clobber dest ns ops).
Proof. unfold ulog_clobber. grows_all. Qed.
#[export] Hint Resolve invalidate_grows store_grows zero_logs_grows logs_past_grows capacity_grows rebuild_grows : grows.

(** ** Operations *)

Definition op_events (s : opst) : list pm_event := events s.1.
Abbreviation grows_op := (grows op_events).
Lemma on_pm_grows {A} (f : M pm A) : grows_pm f → grows_op (on_pm f).
Proof. intros Hf [s c]. specialize (Hf s). unfold on_pm, zoom. simpl. destruct (f s); [|done]. exact Hf. Qed.
Lemma ctx_grows {A} (f : operation_context → A) : grows_op (ctx f).
Proof. apply grows_gets. Qed.
Lemma update_grows f : grows_op (update f).
Proof. intros s. by exists []. Qed.
#[export] Hint Resolve on_pm_grows ctx_grows update_grows : grows.

Section operations.
Context (Realloc : Z → Z → M pm Z) (vecq_room : vecq → bool) (garbage : Z).
Context (ulog_free : Z → M pm unit) (logs entries : nat).
Context (Realloc_grows : ∀ a n, grows_pm (Realloc a n)) (free_grows : ∀ a, grows_pm (ulog_free a)).

Lemma try_merge_grows l o v ty : grows_pm (try_merge l o v ty).
Proof. induction l as [|e l IH]; cbn [try_merge]; [grows_all|]. unfold operation_merge. grows_all. Qed.
#[local] Hint Resolve try_merge_grows : grows.
Lemma clobber_grows dest n b ns ops : grows_pm (ulog_clobber_data logs dest n b ns ulog_free ops).
Proof using free_grows. unfold ulog_clobber_data. grows_all. Qed.
#[local] Hint Resolve clobber_grows : grows.
Lemma add_entry_grows ptr v ty : grows_op (operation_add_entry Realloc vecq_room garbage ptr v ty).
Proof using Realloc_grows.
  unfold operation_add_entry, operation_add_typed_entry, grow_log, oplog, operation_try_merge_entry, operation_merge_entry_add. grows_all.
Qed.
Lemma finish_grows : grows_op (operation_finish ulog_free logs entries).
Proof using free_grows.
  unfold operation_finish, operation_process, process_single, operation_process_persistent_redo, operation_process_persistent_undo, Ulog.ulog_capacity.
  grows_all.
Qed.
End operations.
