(* ===== verification/Palloc.v ===== *)
(** * The front of the allocator

    [src/pmdk/src/libpmemobj/palloc.c]: blocks are reserved in the transient
    state of the heap, and the actions that make reservations and frees
    persistent are executed together, through the redo log of a lane and under
    the locks of the blocks.  The heap below ([heap.c], [memblock.c],
    [bucket.c], [alloc_class.c]) is a parameter. *)
From stdpp Require Import base list strings sorting.
From S2P Require Import Prelude Pmem Ulog Memops Lane.
Open Scope Z_scope.

Definition EEXIST : Z := 17.
Definition EINVAL : Z := 22.
Definition ECANCELED : Z := 125.
Definition UINT8_MAX : Z := 255.
Definition UINT32_MAX : Z := 2 ^ 32 - 1.
Definition PALLOC_CTL_DEBUG_NO_PATTERN : Z := -1.
Definition DEFAULT_ALLOC_CLASS_ID : Z := 0.
Definition HEAP_ARENA_PER_THREAD : Z := 0.

Inductive memblock_state := MEMBLOCK_STATE_UNKNOWN | MEMBLOCK_ALLOCATED | MEMBLOCK_FREE.
Global Instance memblock_state_eq_dec : EqDecision memblock_state.
Proof. solve_decision. Defined.

Section data.
(** The blocks of the heap ([struct memory_block]), and its transient state. *)
Context {B H : Type}.

(** [resvp] points to a counter of reservations, and locks are mutexes; both are
    0 when there is none. *)
Record heap_action := HeapAction {
  heap_lock : Z;
  new_state : memblock_state;
  block : B;
  resvp : Z;
}.
(** An action on the heap or on a word of memory; [POBJ_ACTION_RAW] is one whose
    memory is not initialised yet. *)
Inductive pobj_action :=
  | POBJ_ACTION_TYPE_HEAP (offset : Z) (x : heap_action)
  | POBJ_ACTION_TYPE_MEM (ptr value : Z)
  | POBJ_ACTION_RAW.
Definition lock_of (a : pobj_action) : Z :=
  match a with POBJ_ACTION_TYPE_HEAP _ x => heap_lock x | _ => 0 end.

(** The mutexes that the thread holds, and the heap. *)
Record heap_rt := HeapRt { held : list Z; rt : H }.
Definition pst : Type := pm * heap_rt.
(** The same with the context of an operation. *)
Definition cst : Type := opst * heap_rt.
End data.
Global Arguments heap_action : clear implicits.
Global Arguments pobj_action : clear implicits.
Global Arguments heap_rt : clear implicits.
Global Arguments pst : clear implicits.
Global Arguments cst : clear implicits.

(** What the allocator uses. *)
Class PallocEnv (B H : Type) := {
  (** [m->m_ops] *)
  get_user_data : B → M (pm * H) Z;
  get_user_size : B → M (pm * H) Z;
  get_real_size : B → M (pm * H) Z;
  get_extra : B → M (pm * H) Z;
  get_flags : B → M (pm * H) Z;
  get_lock : B → M (pm * H) Z;
  write_header : B → Z → Z → M (pm * H) unit;
  invalidate : B → M (pm * H) unit;
  get_state : B → M (pm * H) memblock_state;
  prep_hdr : B → memblock_state → M (opst * H) unit;
  is_huge : B → bool;
  (** Allocation classes and buckets. *)
  alloc_class : Type;
  bucket : Type;
  class_id_of : alloc_class → Z;
  heap_get_best_class : Z → M (pm * H) (option alloc_class);
  alloc_class_by_id : Z → M (pm * H) (option alloc_class);
  alloc_class_calc_size_idx : alloc_class → Z → Z;
  heap_bucket_acquire : Z → Z → M (pm * H) bucket;
  heap_bucket_release : bucket → M (pm * H) unit;
  (** An error number, or a block of the size. *)
  heap_get_bestfit_block : bucket → Z → M (pm * H) (Z + B);
  bucket_insert_block : bucket → B → M (pm * H) unit;
  bucket_current_resvp : bucket → M (pm * H) Z;
  (** [util_fetch_and_add64] on a counter of reservations, and on the statistics. *)
  resvp_add : Z → Z → M (pm * H) unit;
  stats_add : Z → M (pm * H) unit;
  memblock_from_offset : Z → M (pm * H) B;
  (** 0, or the value of [errno]. *)
  heap_free_chunk_reuse : bucket → B → M (pm * H) Z;
  heap_memblock_on_free : B → M (pm * H) unit;
  alloc_pattern : Z;
  (** The sorting of the actions by their locks. *)
  qsort : list (pobj_action B) → list (pobj_action B);
  (** The pool and fields of its header; the offsets of two more of them. *)
  pop : Z;
  heap_offset : Z;
  heap_size : Z;
  lanes_offset : Z;
  nlanes : Z;
  root_offset_at : Z;
  root_size_at : Z;
  (** What the contexts of operations use: the logs of a chain and the entries of a
      log are bounded. *)
  Realloc : Z → Z → M pm Z;
  vecq_room : vecq → bool;
  garbage : Z;
  pfree : Z → M pm unit;
  max_logs : nat;
  max_entries : nat;
}.

Section palloc.
Context {B H : Type} {E : PallocEnv B H}.
Implicit Types (a : pobj_action B) (l : list (pobj_action B)) (x : heap_action B).

Definition OBJ_OFF_FROM_HEAP (off : Z) : bool := (heap_offset <=? off) && (off <? u64 (heap_offset + heap_size)).
Definition OBJ_OFF_FROM_LANES (off : Z) : bool :=
  (lanes_offset <=? off) && (off <? u64 (lanes_offset + u64 (nlanes * sizeof_lane_layout))).
Definition OBJ_OFF_IS_VALID (off : Z) : bool :=
  OBJ_OFF_FROM_HEAP off || (root_offset_at =? off) || (root_size_at =? off) || OBJ_OFF_FROM_LANES off.
Definition heap_ops : pmem_ops := PmemOps pop true OBJ_OFF_IS_VALID.
Definition HEAP_OFF_TO_PTR (off : Z) : Z := pop + off.
Definition HEAP_PTR_TO_OFF (ptr : Z) : Z := u64 (ptr - pop).
Definition on_rt {A} : M (pm * H) A → M (pst H) A :=
  zoom (λ s, (s.1, rt s.2)) (λ t s, (t.1, HeapRt (held s.2) t.2)).
Definition on_p {A} : M pm A → M (pst H) A := zoom fst (λ t s, (t, s.2)).
Definition on_ctx {A} : M opst A → M (cst H) A := zoom fst (λ t s, (t, s.2)).
Definition on_heap_ctx {A} : M (opst * H) A → M (cst H) A :=
  zoom (λ s, (s.1, rt s.2)) (λ t s, (t.1, HeapRt (held s.2) t.2)).
(** Without the context. *)
Definition on_pst {A} : M (pst H) A → M (cst H) A :=
  zoom (λ s, (s.1.1, s.2)) (λ t s, ((t.1, s.1.2), t.2)).

(** A thread that takes a mutex twice waits for itself. *)
Definition util_mutex_lock (k : Z) : M (cst H) unit :=
  let! h := gets (λ s, held s.2) in
  if bool_decide (k ∈ h) then stop Blocked
  else modify (λ s, (s.1, HeapRt (k :: h) (rt s.2))).
Definition util_mutex_unlock (k : Z) : M (cst H) unit :=
  let! h := gets (λ s, held s.2) in
  if bool_decide (k ∈ h) then modify (λ s, (s.1, HeapRt (filter (λ k', k' ≠ k) h) (rt s.2)))
  else stop (UndefinedBehaviour "pthread_mutex_unlock").

(** ** Reserving *)

Definition alloc_prep_block (b : B) (constructor : option (Z → Z → M pm Z)) (extra_field object_flags : Z)
    : M (pst H) (Z + Z) :=
  let! uptr := on_rt (get_user_data b) in
  let! usize := on_rt (get_user_size b) in
  on_rt (write_header b extra_field object_flags) ;;
  when (PALLOC_CTL_DEBUG_NO_PATTERN <? alloc_pattern) (on_p (pmemops_memset heap_ops uptr (alloc_pattern `mod` 256) usize 0)) ;;
  let! ret0 := (match constructor with Some f => on_p (f uptr usize) | None => ret 0 end) in
  if negb (ret0 =? 0) then ret (inl ret0) else ret (inr (HEAP_PTR_TO_OFF uptr)).

(** The part of [palloc_reservation_create] between the acquisition of the bucket
    and its release. *)
Definition reserve_block (b : bucket) (size_idx : Z) (constructor : option (Z → Z → M pm Z)) (extra_field object_flags : Z)
    : M (pst H) (Z + Z * heap_action B) :=
  let! found := on_rt (heap_get_bestfit_block b size_idx) in
  match found with
  | inl err => ret (inl err)
  | inr blk =>
      let! prep := alloc_prep_block blk constructor extra_field object_flags in
      match prep with
      | inl _ =>
          when (is_huge blk) (on_rt (bucket_insert_block b blk)) ;;
          ret (inl ECANCELED)
      | inr offset =>
          let! r := on_rt (bucket_current_resvp b) in
          when (negb (r =? 0)) (on_rt (resvp_add r 1)) ;;
          let! k := on_rt (get_lock blk) in
          ret (inr (offset, HeapAction k MEMBLOCK_ALLOCATED blk r))
      end
  end.
(** [errno] on the left, the offset and the action on the right. *)
Definition palloc_reservation_create (size : Z) (constructor : option (Z → Z → M pm Z))
    (extra_field object_flags class_id arena_id : Z) : M (pst H) (Z + Z * heap_action B) :=
  assert_ (class_id <? UINT8_MAX) "class_id < UINT8_MAX" ;;
  let! c := on_rt (if class_id =? 0 then heap_get_best_class size else alloc_class_by_id class_id) in
  match c with
  | None => ret (inl EINVAL)
  | Some c =>
      let size_idx := alloc_class_calc_size_idx c size in
      if size_idx <? 0 then ret (inl EINVAL)
      else
        assert_ (size_idx <=? UINT32_MAX) "size_idx <= UINT32_MAX" ;;
        let! b := on_rt (heap_bucket_acquire (class_id_of c) arena_id) in
        let! r := reserve_block b size_idx constructor extra_field object_flags in
        on_rt (heap_bucket_release b) ;;
        ret r
  end.
Definition palloc_reserve := palloc_reservation_create.
Definition palloc_defer_free_create (off : Z) : M (pst H) (heap_action B) :=
  let! b := on_rt (memblock_from_offset off) in
  let! k := on_rt (get_lock b) in
  ret (HeapAction k MEMBLOCK_FREE b 0).
Definition palloc_defer_free := palloc_defer_free_create.

(** ** Actions *)

Definition palloc_restore_free_chunk_state (b : B) : M (pst H) unit :=
  when (is_huge b)
    (let! bk := on_rt (heap_bucket_acquire DEFAULT_ALLOC_CLASS_ID HEAP_ARENA_PER_THREAD) in
     let! e := on_rt (heap_free_chunk_reuse bk b) in
     when (e =? EEXIST) (stop (ErrAbort "duplicate runtime chunk state, possible double free")) ;;
     on_rt (heap_bucket_release bk)).
Definition resvp_sub x : M (pst H) unit := when (negb (resvp x =? 0)) (on_rt (resvp_add (resvp x) (-1))).
Definition palloc_heap_action_on_cancel x : M (pst H) unit :=
  when (bool_decide (new_state x = MEMBLOCK_ALLOCATED))
    (on_rt (invalidate (block x)) ;; palloc_restore_free_chunk_state (block x)) ;;
  resvp_sub x.
Definition palloc_heap_action_on_process x : M (pst H) unit :=
  match new_state x with
  | MEMBLOCK_ALLOCATED =>
      let! n := on_rt (get_real_size (block x)) in
      on_rt (stats_add n) ;;
      resvp_sub x
  | MEMBLOCK_FREE =>
      let! n := on_rt (get_real_size (block x)) in
      on_rt (stats_add (- n)) ;;
      on_rt (heap_memblock_on_free (block x))
  | MEMBLOCK_STATE_UNKNOWN => ret tt
  end.
Definition palloc_heap_action_on_unlock x : M (pst H) unit :=
  when (bool_decide (new_state x = MEMBLOCK_FREE)) (palloc_restore_free_chunk_state (block x)).
(** The debug build looks at the state of the block first. *)
Definition palloc_heap_action_exec x : M (cst H) unit :=
  let! st := on_pst (on_rt (get_state (block x))) in
  assert_ (negb (bool_decide (st = new_state x))) "invalid operation or heap corruption" ;;
  on_heap_ctx (prep_hdr (block x) (new_state x)).
Definition palloc_mem_action_exec (ptr value : Z) : M (cst H) unit :=
  on_ctx (operation_add_entry Realloc vecq_room garbage ptr value ULOG_OPERATION_SET) ;; ret tt.

(** [action_funcs[act->type]] *)
Definition no_type {S A} : M S A := stop (UndefinedBehaviour "action_funcs[act->type]").
Definition exec_action a : M (cst H) unit :=
  match a with
  | POBJ_ACTION_TYPE_HEAP _ x => palloc_heap_action_exec x
  | POBJ_ACTION_TYPE_MEM ptr value => palloc_mem_action_exec ptr value
  | POBJ_ACTION_RAW => no_type
  end.
Definition on_cancel a : M (pst H) unit :=
  match a with
  | POBJ_ACTION_TYPE_HEAP _ x => palloc_heap_action_on_cancel x
  | POBJ_ACTION_TYPE_MEM _ _ => ret tt
  | POBJ_ACTION_RAW => no_type
  end.
Definition on_process a : M (pst H) unit :=
  match a with
  | POBJ_ACTION_TYPE_HEAP _ x => palloc_heap_action_on_process x
  | POBJ_ACTION_TYPE_MEM _ _ => ret tt
  | POBJ_ACTION_RAW => no_type
  end.
Definition on_unlock a : M (pst H) unit :=
  match a with
  | POBJ_ACTION_TYPE_HEAP _ x => palloc_heap_action_on_unlock x
  | POBJ_ACTION_TYPE_MEM _ _ => ret tt
  | POBJ_ACTION_RAW => no_type
  end.

(** ** Executing *)

(** The lock of an action, unless the action before has the same. *)
Definition new_lock (prev : option Z) a : option Z :=
  if bool_decide (prev = Some (lock_of a)) || (lock_of a =? 0) then None else Some (lock_of a).
Fixpoint exec_locked (prev : option Z) l : M (cst H) unit :=
  match l with
  | [] => ret tt
  | act :: l' =>
      (match new_lock prev act with Some k => util_mutex_lock k | None => ret tt end) ;;
      exec_action act ;;
      exec_locked (Some (lock_of act)) l'
  end.
Fixpoint process_locked (prev : option Z) l : M (cst H) unit :=
  match l with
  | [] => ret tt
  | act :: l' =>
      on_pst (on_process act) ;;
      (match new_lock prev act with Some k => util_mutex_unlock k | None => ret tt end) ;;
      process_locked (Some (lock_of act)) l'
  end.
Definition palloc_exec_actions l : M (cst H) unit :=
  let actv := qsort l in
  exec_locked None actv ;;
  on_pst (on_p (pmemops_drain heap_ops)) ;;
  on_ctx (operation_finish pfree max_logs max_entries) ;;
  process_locked None actv ;;
  for_each actv (λ act, on_pst (on_unlock act)).
Definition palloc_cancel l : M (pst H) unit := for_each l on_cancel.
Definition palloc_publish l : M (cst H) unit := palloc_exec_actions l.

(** Allocation, freeing and reallocation; [off] and [size] are 0 where there is
    nothing to free or to allocate. *)
Definition palloc_operation (off dest_off size : Z) (constructor : option (Z → Z → M pm Z))
    (extra_field object_flags class_id arena_id : Z) : M (cst H) Z :=
  let! dealloc :=
    (if negb (off =? 0) then
       let! x := on_pst (palloc_defer_free_create off) in
       let! user_size := on_pst (on_rt (get_user_size (block x))) in
       ret (Some (x, user_size))
     else ret None) in
  if match dealloc with Some d => d.2 =? size | None => false end then on_ctx operation_cancel ;; ret 0
  else
    let! alloc :=
      (if negb (size =? 0) then
         let! r := on_pst (palloc_reservation_create size constructor extra_field object_flags class_id arena_id) in
         ret (match r with inl e => inl e | inr p => inr (Some p) end)
       else ret (inr None)) in
    match alloc with
    | inl _ => on_ctx operation_cancel ;; ret (-1)
    | inr alloc =>
        (match alloc, dealloc with
         | Some al, Some d =>
             let to_cpy := if size <? d.2 then size else d.2 in
             on_pst (on_p (let! bytes := rd_bytes (HEAP_OFF_TO_PTR off) to_cpy in
                           pmemops_memcpy heap_ops (HEAP_OFF_TO_PTR al.1) bytes 0))
         | _, _ => ret tt
         end) ;;
        when (negb (dest_off =? 0))
          (on_ctx (operation_add_entry Realloc vecq_room garbage dest_off
                     (match alloc with Some al => al.1 | None => 0 end) ULOG_OPERATION_SET) ;; ret tt) ;;
        palloc_exec_actions
          (match dealloc with Some d => [POBJ_ACTION_TYPE_HEAP off d.1] | None => [] end ++
           match alloc with Some al => [POBJ_ACTION_TYPE_HEAP al.1 al.2] | None => [] end) ;;
        ret 0
    end.

Definition palloc_usable_size (off : Z) : M (pst H) Z :=
  let! b := on_rt (memblock_from_offset off) in on_rt (get_user_size b).
Definition palloc_extra (off : Z) : M (pst H) Z :=
  let! b := on_rt (memblock_from_offset off) in on_rt (get_extra b).
Definition palloc_flags (off : Z) : M (pst H) Z :=
  let! b := on_rt (memblock_from_offset off) in on_rt (get_flags b).
End palloc.
