(* ===== verification/PallocFacts.v ===== *)
(** * The allocator: locks

    Executing actions takes the lock of every block once and in order, and gives
    all locks back. *)
From stdpp Require Import base list strings sorting.
From S2P Require Import Prelude Pmem Ulog Memops History Lane Palloc.
Open Scope Z_scope.
#[local] Set Default Proof Using "Type".

(** An operation that does not take locks and does not jump. *)
Definition quiet {S A} (f : M S A) : Prop := ∀ s, match f s with Ok _ _ => True | Abort e _ => stray e = false end.
Lemma quiet_zoom {S T A} (π : S → T) (put : T → S → S) (f : M T A) : quiet f → quiet (zoom π put f).
Proof. intros Hf s. unfold zoom. specialize (Hf (π s)). by destruct (f (π s)). Qed.
Lemma grows_quiet {S A} (h : S → list pm_event) (f : M S A) : grows h f → quiet f.
Proof. intros Hf s. specialize (Hf s). by destruct (f s). Qed.

(** What the heap promises: its functions do not use the locks of the blocks and do
    not jump, and sorting orders the actions by their locks. *)
Class PallocLaws {B H} (E : PallocEnv B H) := {
  get_state_quiet b : quiet (get_state b);
  prep_hdr_quiet b st : quiet (prep_hdr b st);
  get_real_size_quiet b : quiet (get_real_size b);
  invalidate_quiet b : quiet (invalidate b);
  heap_bucket_acquire_quiet c a : quiet (heap_bucket_acquire c a);
  heap_bucket_release_quiet b : quiet (heap_bucket_release b);
  resvp_add_quiet r n : quiet (resvp_add r n);
  stats_add_quiet n : quiet (stats_add n);
  heap_free_chunk_reuse_quiet bk b : quiet (heap_free_chunk_reuse bk b);
  heap_memblock_on_free_quiet b : quiet (heap_memblock_on_free b);
  Realloc_grows a n : grows_pm (Realloc a n);
  pfree_grows a : grows_pm (pfree a);
  qsort_perm l : qsort l ≡ₚ l;
  qsort_sorted l : StronglySorted (λ a b, lock_of a ≤ lock_of b) (qsort l);
}.

Section locks.
Context {B H : Type} {E : PallocEnv B H} {L : PallocLaws E}.
Implicit Types (a : pobj_action B) (l : list (pobj_action B)) (x : heap_action B) (s : cst H).

(** A program that leaves the locks of the thread as they are. *)
Definition steady {A} (f : M (cst H) A) : Prop := ∀ s,
  match f s with Ok _ s' => held s'.2 = held s.2 | Abort e _ => stray e = false end.
Lemma steady_ret {A} (v : A) : steady (ret v).
Proof. done. Qed.
Lemma steady_bind {A C} (f : M (cst H) A) (k : A → M (cst H) C) : steady f → (∀ v, steady (k v)) → steady (bind f k).
Proof.
  intros Hf Hk s. unfold bind. specialize (Hf s). destruct (f s) as [v s1|]; [|done]. specialize (Hk v s1).
  destruct (k v s1); [congruence|done].
Qed.
Lemma steady_ctx {A} (f : M opst A) : quiet f → steady (on_ctx f).
Proof. intros Hf [s h]. unfold on_ctx, zoom. cbn. specialize (Hf s). by destruct (f s). Qed.
Lemma steady_heap {A} (f : M (opst * H) A) : quiet f → steady (on_heap_ctx f).
Proof. intros Hf [s h]. unfold on_heap_ctx, zoom. cbn. specialize (Hf (s, rt h)). by destruct (f (s, rt h)). Qed.
Lemma steady_for_each {A} (xs : list A) f : (∀ v, steady (f v)) → steady (for_each xs f).
Proof. intros Hf. induction xs as [|v xs IH]; [done|]. by apply steady_bind. Qed.

(** The same for programs without the context. *)
Definition steady_p {A} (f : M (pst H) A) : Prop := ∀ s : pst H,
  match f s with Ok _ s' => held s'.2 = held s.2 | Abort e _ => stray e = false end.
Lemma steady_p_bind {A C} (f : M (pst H) A) (k : A → M (pst H) C) : steady_p f → (∀ v, steady_p (k v)) → steady_p (bind f k).
Proof.
  intros Hf Hk s. unfold bind. specialize (Hf s). destruct (f s) as [v s1|]; [|done]. specialize (Hk v s1).
  destruct (k v s1); [congruence|done].
Qed.
Lemma steady_p_rt {A} (f : M (pm * H) A) : quiet f → steady_p (on_rt f).
Proof. intros Hf [s h]. unfold on_rt, zoom. cbn. specialize (Hf (s, rt h)). by destruct (f (s, rt h)). Qed.
Lemma steady_p_when b (f : M (pst H) unit) : steady_p f → steady_p (when b f).
Proof. by destruct b. Qed.
Lemma steady_p_stop {A} e : stray e = false → steady_p (A := A) (stop e).
Proof. by intros He s. Qed.
Lemma steady_pst {A} (f : M (pst H) A) : steady_p f → steady (on_pst f).
Proof. intros Hf [[s c] h]. unfold on_pst, zoom. cbn. specialize (Hf (s, h)). by destruct (f (s, h)). Qed.
Ltac steady_all := repeat first
  [ done | apply steady_p_rt; solve [apply get_real_size_quiet|apply invalidate_quiet|apply heap_bucket_acquire_quiet|apply heap_bucket_release_quiet|apply resvp_add_quiet
      |apply stats_add_quiet|apply heap_free_chunk_reuse_quiet|apply heap_memblock_on_free_quiet]
  | apply steady_p_when | apply steady_p_stop; reflexivity | apply steady_p_bind; [|intros ?] ].

Lemma restore_steady (b : B) : steady_p (palloc_restore_free_chunk_state b).
Proof using L. unfold palloc_restore_free_chunk_state. steady_all. Qed.
Lemma on_process_steady a : steady_p (on_process a).
Proof using L.
  destruct a as [o x| |]; cbn [on_process]; unfold palloc_heap_action_on_process, resvp_sub, no_type; try destruct (new_state x); steady_all.
Qed.
Lemma on_unlock_steady a : steady_p (on_unlock a).
Proof using L.
  destruct a as [o x| |]; cbn [on_unlock]; unfold palloc_heap_action_on_unlock, no_type; [|done|by apply steady_p_stop].
  apply steady_p_when, restore_steady.
Qed.
Lemma on_cancel_steady a : steady_p (on_cancel a).
Proof using L.
  destruct a as [o x| |]; cbn [on_cancel]; unfold palloc_heap_action_on_cancel, resvp_sub, no_type; [|done|by apply steady_p_stop].
  apply steady_p_bind; [apply steady_p_when|intros _; steady_all]. apply steady_p_bind; [steady_all|intros _; apply restore_steady].
Qed.
Lemma cancel_steady l : steady_p (palloc_cancel l).
Proof using L. induction l as [|a l IH]; [done|]. apply steady_p_bind; [apply on_cancel_steady|done]. Qed.
Lemma exec_steady a : steady (exec_action a).
Proof using L.
  destruct a as [o x|p v|]; cbn [exec_action].
  - unfold palloc_heap_action_exec. apply steady_bind; [apply steady_pst, steady_p_rt, get_state_quiet|]. intros st.
    apply steady_bind; [by destruct (negb _)|]. intros _. apply steady_heap, prep_hdr_quiet.
  - unfold palloc_mem_action_exec. apply steady_bind; [|done].
    eapply steady_ctx, grows_quiet. apply add_entry_grows, Realloc_grows.
  - done.
Qed.

(** The locks that the loops take and give back, in order. *)
Fixpoint locks_of (prev : option Z) l : list Z :=
  match l with [] => [] | a :: l' => option_list (new_lock prev a) ++ locks_of (Some (lock_of a)) l' end.
Lemma locks_above p l :
  StronglySorted (λ a b, lock_of a ≤ lock_of b) l → Forall (λ a, p ≤ lock_of a) l → Forall (λ k, p < k) (locks_of (Some p) l).
Proof.
  intros Hs. revert p. induction Hs as [|a l Hs IH Ha]; intros p Hp; [constructor|]. apply Forall_cons in Hp as [Hpa Hp].
  cbn [locks_of]. apply Forall_app. split.
  - unfold new_lock. destruct (bool_decide_reflect (Some p = Some (lock_of a))) as [|Hn]; cbn [orb]; [constructor|].
    destruct (lock_of a =? 0); [constructor|]. constructor; [|constructor]. assert (p ≠ lock_of a) by congruence. lia.
  - eapply Forall_impl; [apply IH, Ha|]. intros k Hk. cbn in Hk. lia.
Qed.
Lemma locks_nodup prev l : StronglySorted (λ a b, lock_of a ≤ lock_of b) l → NoDup (locks_of prev l).
Proof.
  intros Hs. revert prev. induction Hs as [|a l Hs IH Ha]; intros prev; [constructor|]. cbn [locks_of].
  pose proof (locks_above (lock_of a) l Hs Ha) as Hup. destruct (new_lock prev a) as [k|] eqn:Hk; [|apply IH]. cbn [option_list app].
  constructor; [|apply IH]. intros Hin. rewrite Forall_forall in Hup. specialize (Hup k Hin). unfold new_lock in Hk.
  destruct (_ || _); [done|]. injection Hk as <-. lia.
Qed.
Lemma exec_locked_held prev l s :
  NoDup (locks_of prev l) → (∀ k, k ∈ locks_of prev l → k ∉ held s.2) →
  match exec_locked prev l s with
  | Ok _ s' => held s'.2 = reverse (locks_of prev l) ++ held s.2
  | Abort e _ => stray e = false
  end.
Proof using L.
  revert prev s. induction l as [|a l IH]; intros prev s Hnd Hdis; [done|]. cbn [exec_locked locks_of] in *.
  set (f := match new_lock prev a with Some k => util_mutex_lock k | None => ret tt end).
  assert (∃ s1, f s = Ok tt s1 ∧ held s1.2 = reverse (option_list (new_lock prev a)) ++ held s.2) as (s1&Hf&Hs1).
  { unfold f. destruct (new_lock prev a) as [k|]; [|by exists s]. eexists. unfold util_mutex_lock. erewrite (bind_Ok (gets _)) by reflexivity.
    rewrite bool_decide_eq_false_2 by (apply Hdis; apply elem_of_app; left; by apply list_elem_of_singleton). done. }
  rewrite (bind_Ok _ _ _ _ _ Hf). unfold bind. pose proof (exec_steady a s1) as He. destruct (exec_action a s1) as [[] s2|]; [|done].
  apply NoDup_app in Hnd as (_&Hsep&Hnd). specialize (IH (Some (lock_of a)) s2 Hnd).
  rewrite He, Hs1 in IH. destruct (exec_locked (Some (lock_of a)) l s2) as [[] s3|];
    [rewrite IH, reverse_app, <-app_assoc; [done|]|apply IH]; (intros k Hk [Hin|Hin]%elem_of_app;
    [eapply Hsep; [by rewrite elem_of_reverse in Hin|exact Hk]|eapply Hdis; [apply elem_of_app; by right|exact Hin]]).
Qed.
Lemma process_locked_held prev l s :
  NoDup (locks_of prev l) → (∀ k, k ∈ locks_of prev l → k ∈ held s.2) →
  match process_locked prev l s with
  | Ok _ s' => held s'.2 = filter (λ k, k ∉ locks_of prev l) (held s.2)
  | Abort e _ => stray e = false
  end.
Proof using L.
  revert prev s. induction l as [|a l IH]; intros prev s Hnd Hin.
  { cbn. rewrite filter_all; [done|]. apply Forall_forall. intros k _. apply not_elem_of_nil. }
  cbn [process_locked locks_of] in *. unfold bind at 1. pose proof (steady_pst _ (on_process_steady a) s) as Hp.
  destruct (on_pst (on_process a) s) as [[] s0|]; [|done]. apply NoDup_app in Hnd as (_&Hsep&Hnd).
  set (f := match new_lock prev a with Some k => util_mutex_unlock k | None => ret tt end).
  assert (∃ s1, f s0 = Ok tt s1 ∧ held s1.2 = filter (λ k, k ∉ option_list (new_lock prev a)) (held s.2)) as (s1&Hf&Hs1).
  { unfold f. destruct (new_lock prev a) as [k|]; cbn [option_list].
    - eexists. unfold util_mutex_unlock. erewrite (bind_Ok (gets _)) by reflexivity.
      rewrite bool_decide_eq_true_2 by (rewrite Hp; apply Hin, elem_of_app; left; by apply list_elem_of_singleton).
      split; [reflexivity|]. cbn [snd held]. rewrite Hp. apply list_filter_iff. intros k'. change (option_list (Some k)) with [k].
      by rewrite list_elem_of_singleton.
    - exists s0. split; [done|]. rewrite filter_all; [done|]. apply Forall_forall. intros k _. apply not_elem_of_nil. }
  rewrite (bind_Ok _ _ _ _ _ Hf). specialize (IH (Some (lock_of a)) s1 Hnd). rewrite Hs1 in IH.
  destruct (process_locked (Some (lock_of a)) l s1) as [[] s3|]; [rewrite IH|apply IH].
  - rewrite list_filter_filter. apply list_filter_iff. intros k. rewrite not_elem_of_app. tauto.
  - intros k Hk. apply list_elem_of_filter. split; [intros Hk'; by eapply Hsep|]. apply Hin, elem_of_app. by right.
  - intros k Hk. apply list_elem_of_filter. split; [intros Hk'; by eapply Hsep|]. apply Hin, elem_of_app. by right.
Qed.
Lemma locks_in prev l k : k ∈ locks_of prev l → k ≠ 0 ∧ k ∈ lock_of <$> l.
Proof.
  revert prev. induction l as [|a l IH]; intros prev; [by intros ?%elem_of_nil|]. cbn [locks_of]. rewrite fmap_cons, elem_of_cons.
  intros [Hk|Hk]%elem_of_app; [|destruct (IH _ Hk); auto]. unfold new_lock in Hk.
  destruct (bool_decide _) eqn:Hb; cbn [orb] in Hk; [by apply elem_of_nil in Hk|]. destruct (Z.eqb_spec (lock_of a) 0); [by apply elem_of_nil in Hk|].
  apply list_elem_of_singleton in Hk as ->. auto.
Qed.

End locks.
