(* ===== verification/PallocSpec.v ===== *)
(** * The allocator: what it promises

    The use of locks by the execution of actions, and a concrete environment: a heap
    that has nothing to give, in a pool with one lane. *)
From stdpp Require Import base list strings sorting.
From S2P Require Import Prelude Pmem Ulog Memops History UndoInstances Lane Palloc PallocFacts.
Open Scope Z_scope.
#[local] Set Default Proof Using "Type".

Section locks.
Context {B H : Type} {E : PallocEnv B H} {L : PallocLaws E}.
Implicit Types (a : pobj_action B) (l : list (pobj_action B)) (s : cst H).

(** C39. Executing actions never waits for a lock of its own and never releases a lock
    that it does not hold, and never jumps, whatever the actions, as long as the thread holds none
    of their locks before; when it returns, the thread holds the locks that it
    held before. *)
Theorem palloc_exec_locks l s :
  (∀ k, k ≠ 0 → k ∈ lock_of <$> l → k ∉ held s.2) →
  match palloc_exec_actions l s with Ok _ s' => held s'.2 = held s.2 | Abort e _ => stray e = false end.
Proof using L.
  intros Hdis. unfold palloc_exec_actions. set (actv := qsort l). pose proof (locks_nodup None _ (qsort_sorted l)) as Hnd. fold actv in Hnd.
  assert (∀ k, k ∈ locks_of None actv → k ∉ held s.2) as Hd.
  { intros k [H0 Hk]%locks_in. apply Hdis; [done|]. by rewrite <-(qsort_perm l). }
  unfold bind at 1. pose proof (exec_locked_held None actv s Hnd Hd) as H1. destruct (exec_locked None actv s) as [[] s1|]; [|done].
  assert (steady (H := H) (on_pst (on_p (pmemops_drain heap_ops)) ;; on_ctx (operation_finish pfree max_logs max_entries))) as Hmid.
  { apply steady_bind.
    - apply steady_pst. intros [p h]. done.
    - intros _. eapply steady_ctx, grows_quiet. apply finish_grows, pfree_grows. }
  specialize (Hmid s1). unfold bind in Hmid. unfold bind at 1. destruct (on_pst _ s1) as [[] s2|]; [|done].
  unfold bind at 1. destruct (on_ctx _ s2) as [[] s3|]; [|done].
  unfold bind at 1. pose proof (process_locked_held None actv s3 Hnd) as H2. rewrite Hmid, H1 in H2.
  assert (∀ k, k ∈ locks_of None actv → k ∈ reverse (locks_of None actv) ++ held s.2) as Hin.
  { intros k Hk. apply elem_of_app. left. by apply elem_of_reverse. }
  specialize (H2 Hin). destruct (process_locked None actv s3) as [[] s4|]; [|done].
  assert (steady (H := H) (for_each actv (λ act, on_pst (on_unlock act)))) as Hlast by (apply steady_for_each; intros a; apply steady_pst, on_unlock_steady).
  specialize (Hlast s4). destruct (for_each _ _ s4) as [[] s5|]; [|done]. rewrite Hlast, H2, filter_app, filter_none, filter_all; [done|..].
  - apply Forall_forall. intros k Hk Hl. by apply (Hd k).
  - apply Forall_forall. intros k Hk Hl. apply Hl. by rewrite elem_of_reverse in Hk.
Qed.
End locks.

(** ** A concrete environment *)
(** A heap without classes; [fuel] bounds the loops over logs. *)
Definition lock_le (a b : pobj_action unit) : Prop := lock_of a ≤ lock_of b.
Global Instance lock_le_dec : RelDecision lock_le.
Proof. intros a b. unfold lock_le. apply _. Defined.
Global Instance lock_le_trans : Transitive lock_le.
Proof. intros a b c. unfold lock_le. lia. Qed.
Global Instance lock_le_total : Total lock_le.
Proof. intros a b. unfold lock_le. lia. Qed.
Definition small_palloc (fuel : nat) : PallocEnv unit unit := {|
  get_user_data _ := ret 0;
  get_user_size _ := ret 0;
  get_real_size _ := ret 0;
  get_extra _ := ret 0;
  get_flags _ := ret 0;
  get_lock _ := ret 0;
  write_header _ _ _ := ret tt;
  invalidate _ := ret tt;
  get_state _ := ret MEMBLOCK_ALLOCATED;
  prep_hdr _ _ := ret tt;
  is_huge _ := false;
  alloc_class := unit;
  bucket := unit;
  class_id_of _ := 0;
  heap_get_best_class _ := ret None;
  alloc_class_by_id _ := ret None;
  alloc_class_calc_size_idx _ _ := -1;
  heap_bucket_acquire _ _ := ret tt;
  heap_bucket_release _ := ret tt;
  heap_get_bestfit_block _ _ := ret (inl 12);
  bucket_insert_block _ _ := ret tt;
  bucket_current_resvp _ := ret 0;
  resvp_add _ _ := ret tt;
  stats_add _ := ret tt;
  memblock_from_offset _ := ret tt;
  heap_free_chunk_reuse _ _ := ret 0;
  heap_memblock_on_free _ := ret tt;
  alloc_pattern := PALLOC_CTL_DEBUG_NO_PATTERN;
  qsort := merge_sort lock_le;
  pop := 65536;
  heap_offset := 4096;
  heap_size := 3072;
  lanes_offset := 7232;
  nlanes := 1;
  root_offset_at := 2056;
  root_size_at := 2064;
  Realloc _ _ := ret 0;
  vecq_room _ := true;
  garbage := 0;
  pfree := unlink;
  max_logs := fuel;
  max_entries := fuel;
|}.
Global Instance small_palloc_laws fuel : PallocLaws (small_palloc fuel).
Proof.
  split; try done.
  - intros a n. apply grows_ret.
  - intros a. apply wr64_grows.
  - intros l. apply merge_sort_Permutation.
  - intros l. apply (StronglySorted_merge_sort lock_le).
Qed.

(** Three frees, two of them under the same lock. *)
Definition three_frees : list (pobj_action unit) :=
  [POBJ_ACTION_TYPE_HEAP 0 (HeapAction 9 MEMBLOCK_FREE tt 0); POBJ_ACTION_TYPE_HEAP 0 (HeapAction 5 MEMBLOCK_FREE tt 0);
   POBJ_ACTION_TYPE_HEAP 0 (HeapAction 9 MEMBLOCK_FREE tt 0)].
Definition start_state : cst unit := ((Pm fresh [], set_progress true fresh_context), HeapRt [7] tt).
Example palloc_exec_locks_witness :
  let env := small_palloc 3 in
  match palloc_exec_actions three_frees start_state with Ok _ s' => held s'.2 = [7] | Abort e _ => stray e = false end.
Proof.
  apply (palloc_exec_locks (L := small_palloc_laws 3) three_frees start_state).
  intros k _ Hk. cbn in Hk. rewrite !elem_of_cons in Hk. intros ->%list_elem_of_singleton. destruct Hk as [?|[?|[?|?%elem_of_nil]]]; done.
Defined.
(** It returns. *)
Example three_frees_run :
  let env := small_palloc 3 in returns (palloc_exec_actions three_frees start_state) = true.
Proof. vm_compute. reflexivity. Qed.
