(* ===== verification/Tx.v ===== *)
(** * Transactions

    [src/pmdk/src/libpmemobj/tx.c] without the operations on ranges and objects:
    the state of the transaction of a thread, beginning, committing, aborting and
    ending it, and the block of [src/pmdk/src/include/libpmemobj/tx.h] that the
    macros [TX_BEGIN] ... [TX_END] make.  The functions call the tracing functions
    of the detector, whose calls the state records. *)
From stdpp Require Import base list strings gmap.
From S2P Require Import Prelude Pmem Ulog Memops Lane Palloc Ravl TxRanges.
Open Scope Z_scope.

(** ** Data *)

Inductive pobj_tx_stage :=
  | TX_STAGE_NONE | TX_STAGE_WORK | TX_STAGE_ONCOMMIT | TX_STAGE_ONABORT | TX_STAGE_FINALLY.
Global Instance pobj_tx_stage_eq_dec : EqDecision pobj_tx_stage.
Proof. solve_decision. Defined.
(** The parameters of [pmemobj_tx_begin] with their arguments; the list ends with
    [TX_PARAM_NONE].  Any other number is an unrecognized type. *)
Inductive pobj_tx_param :=
  | TX_PARAM_MUTEX (mutex : Z)
  | TX_PARAM_RWLOCK (rwlock : Z)
  | TX_PARAM_CB (cb arg : Z)
  | TX_PARAM_OTHER (lock : Z).
Inductive lock_kind := MUTEX | RWLOCK | OTHER.
Record tx_lock_data := TxLock { lock : Z; lock_type : lock_kind }.

Definition POBJ_CL_SIZE : Z := 64.
Definition POBJ_FLAG_ZERO : Z := 1.
Definition POBJ_FLAG_NO_FLUSH : Z := 2.

(** The calls of the tracing functions. *)
Inductive trace_call :=
  | pm_trace_tx_begin
  | pm_trace_tx_end
  | pm_trace_tx_addr_add (addr size : Z).

Section data.
(** The blocks of the heap, and its transient state. *)
Context {X H : Type}.
(** [lane] is the index of the lane, [tx_entries] are the jump buffers of the
    nested transactions, the innermost one first and 0 for one that is zeroed;
    [ranges] is whether the pointer is not [NULL]. *)
Record tx := Tx {
  tx_pop : Z;
  stage : pobj_tx_stage;
  last_errnum : Z;
  tx_lane : option Z;
  tx_locks : list tx_lock_data;
  tx_entries : list Z;
  ranges : bool;
  actions : list (pobj_action X);
  actions_capacity : nat;
  stage_callback : Z;
  stage_callback_arg : Z;
  first_snapshot : bool;
}.
(** Everything but the tree of ranges. *)
Record txs := Txs {
  the_tx : tx;
  w_lanes : lane_state;
  w_heap : heap_rt H;
  calls : list trace_call;
  errno : Z;
}.
Definition txw : Type := ravl tx_range_def * txs.
End data.
Global Arguments tx : clear implicits.
Global Arguments txs : clear implicits.
Global Arguments txw : clear implicits.
Definition VEC_INIT_SIZE : nat := 64.

Section setters.
Context {X : Type}.
Implicit Types (t : tx X).
Definition set_stage (x : pobj_tx_stage) t : tx X :=
  Tx (tx_pop t) x (last_errnum t) (tx_lane t) (tx_locks t) (tx_entries t) (ranges t) (actions t) (actions_capacity t)
     (stage_callback t) (stage_callback_arg t) (first_snapshot t).
Definition set_pop (x : Z) t : tx X :=
  Tx x (stage t) (last_errnum t) (tx_lane t) (tx_locks t) (tx_entries t) (ranges t) (actions t) (actions_capacity t)
     (stage_callback t) (stage_callback_arg t) (first_snapshot t).
Definition set_last_errnum (x : Z) t : tx X :=
  Tx (tx_pop t) (stage t) x (tx_lane t) (tx_locks t) (tx_entries t) (ranges t) (actions t) (actions_capacity t)
     (stage_callback t) (stage_callback_arg t) (first_snapshot t).
Definition set_lane (x : option Z) t : tx X :=
  Tx (tx_pop t) (stage t) (last_errnum t) x (tx_locks t) (tx_entries t) (ranges t) (actions t) (actions_capacity t)
     (stage_callback t) (stage_callback_arg t) (first_snapshot t).
Definition set_locks (x : list tx_lock_data) t : tx X :=
  Tx (tx_pop t) (stage t) (last_errnum t) (tx_lane t) x (tx_entries t) (ranges t) (actions t) (actions_capacity t)
     (stage_callback t) (stage_callback_arg t) (first_snapshot t).
Definition set_entries (x : list Z) t : tx X :=
  Tx (tx_pop t) (stage t) (last_errnum t) (tx_lane t) (tx_locks t) x (ranges t) (actions t) (actions_capacity t)
     (stage_callback t) (stage_callback_arg t) (first_snapshot t).
Definition set_ranges (x : bool) t : tx X :=
  Tx (tx_pop t) (stage t) (last_errnum t) (tx_lane t) (tx_locks t) (tx_entries t) x (actions t) (actions_capacity t)
     (stage_callback t) (stage_callback_arg t) (first_snapshot t).
Definition set_actions (x : list (pobj_action X)) (n : nat) t : tx X :=
  Tx (tx_pop t) (stage t) (last_errnum t) (tx_lane t) (tx_locks t) (tx_entries t) (ranges t) x n
     (stage_callback t) (stage_callback_arg t) (first_snapshot t).
Definition set_callback (x y : Z) t : tx X :=
  Tx (tx_pop t) (stage t) (last_errnum t) (tx_lane t) (tx_locks t) (tx_entries t) (ranges t) (actions t) (actions_capacity t)
     x y (first_snapshot t).
Definition set_first_snapshot (x : bool) t : tx X :=
  Tx (tx_pop t) (stage t) (last_errnum t) (tx_lane t) (tx_locks t) (tx_entries t) (ranges t) (actions t) (actions_capacity t)
     (stage_callback t) (stage_callback_arg t) x.
End setters.

(** ** What transactions run on

    The functions that the transaction code calls outside of the modelled files,
    the pool, and bounds of the loops of the model. *)
Class TxEnv (X H : Type) := {
  (** The allocator of transient memory: for the nodes of the tree of ranges, for
      the tree itself, for other blocks of the transaction, for the parts of a
      range, and for the records of lanes. *)
  Malloc_node : nat → gmap Z (ravl_node tx_range_def) → option Z;
  ravl_new_ok : txs X H → bool;
  Malloc_ok : txs X H → bool;
  Malloc_range : Z → Z → bool;
  Malloc : Z → bool;
  (** The heap of the pool, and the allocation of logs ([pmalloc.c]). *)
  palloc_env :: PallocEnv X H;
  pmalloc_construct : Z → Z → (Z → Z → M pm Z) → M pm Z;
  (** The locks ([sync.c]). *)
  pmemobj_mutex_lock : Z → M (txs X H) Z;
  pmemobj_rwlock_wrlock : Z → M (txs X H) Z;
  pmemobj_mutex_unlock : Z → M (txs X H) unit;
  pmemobj_rwlock_unlock : Z → M (txs X H) unit;
  (** The function at an address that a transaction was given as its callback. *)
  callback : Z → Z → pobj_tx_stage → Z → M (txw X H) unit;
  (** What [lane_hold] uses. *)
  os_tls_set : Z;
  critnib_insert : Z;
  other_threads : nat → list Z → list Z;
  (** The only open pool. *)
  uuid_lo : Z;
  cache_size : Z;
  has_remote_replicas : bool;
  (** The parts of a buffer, the turns of loops over the tree of ranges, the
      attempts to get a lane. *)
  max_parts : nat;
  max_loops : nat;
  max_attempts : nat;
}.

Section tx.
Context {X H : Type} {E : TxEnv X H}.
Abbreviation TW := (txw X H).
Abbreviation TS := (txs X H).

(** [sizeof(struct lane_info)] *)
Definition sizeof_lane_info : Z := 56.
Definition lane_hold : M lane_state Z :=
  Lane.lane_hold Malloc sizeof_lane_info os_tls_set critnib_insert uuid_lo has_remote_replicas other_threads max_attempts true.
Definition lane_release : M lane_state unit :=
  Lane.lane_release Malloc sizeof_lane_info os_tls_set critnib_insert uuid_lo has_remote_replicas.
Definition undo_extend : option (Z → M pm Z) := Some (lane_undo_extend pmalloc_construct OBJ_OFF_IS_VALID pop cache_size).
Definition redo_extend : option (Z → M pm Z) := Some (lane_redo_extend pmalloc_construct OBJ_OFF_IS_VALID pop).
Definition tx_ops : pmem_ops := PmemOps pop true OBJ_OFF_IS_VALID.
Definition get {A} (f : tx X → A) : M TS A := gets (λ s, f (the_tx s)).
Definition upd (f : tx X → tx X) : M TS unit :=
  modify (λ s, Txs (f (the_tx s)) (w_lanes s) (w_heap s) (calls s) (errno s)).
Definition trace (c : trace_call) : M TS unit :=
  modify (λ s, Txs (the_tx s) (w_lanes s) (w_heap s) (c :: calls s) (errno s)).
Definition set_errno (e : Z) : M TS unit :=
  modify (λ s, Txs (the_tx s) (w_lanes s) (w_heap s) (calls s) e).
Definition on_lanes {A} : M lane_state A → M TS A :=
  zoom w_lanes (λ l s, Txs (the_tx s) l (w_heap s) (calls s) (errno s)).
Definition set_pm (p : pm) (l : lane_state) : lane_state := LaneState p (desc l) (thread l).
Definition on_heap {A} : M (pst H) A → M TS A :=
  zoom (λ s, (l_pm (w_lanes s), w_heap s))
       (λ t s, Txs (the_tx s) (set_pm t.1 (w_lanes s)) t.2 (calls s) (errno s)).
Definition on_mem {A} (f : M pm A) : M TS A := on_lanes (on_memory f).
(** [tx->lane] *)
Definition lane_of : M TS Z :=
  let! l := get tx_lane in
  match l with Some i => ret i | None => stop (UndefinedBehaviour "tx->lane") end.
(** [tx->lane->undo] and [tx->lane->external] *)
Definition on_tx_undo {A} (f : M opst A) : M TS A := let! i := lane_of in on_lanes (on_undo i f).
Definition set_external (c : operation_context) (l : lane) : lane := Lane (layout l) (internal l) c (undo l).
Definition on_external {A} (i : Z) (f : M opst A) : M lane_state A :=
  let! d := gets desc in
  match lanes d !! Z.to_nat i with
  | None => stop (UndefinedBehaviour "pop->lanes_desc.lane[i]")
  | Some l =>
      zoom (λ s, (l_pm s, external l))
           (λ t s, LaneState t.1 (Descriptor (runtime_nlanes d) (next_lane_idx d) (lane_locks d)
                                    (<[Z.to_nat i := set_external t.2 l]> (lanes d))) (thread s)) f
  end.
Definition on_tx_external {A} (f : M opst A) : M TS A := let! i := lane_of in on_lanes (on_external i f).
(** The heap together with [lane->external]. *)
Definition on_external_heap {A} (i : Z) (f : M (cst H) A) : M TS A :=
  let! d := gets (λ s, desc (w_lanes s)) in
  match lanes d !! Z.to_nat i with
  | None => stop (UndefinedBehaviour "pop->lanes_desc.lane[i]")
  | Some l =>
      zoom (λ s, ((l_pm (w_lanes s), external l), w_heap s))
           (λ t s, Txs (the_tx s)
                     (LaneState t.1.1 (Descriptor (runtime_nlanes d) (next_lane_idx d) (lane_locks d)
                                         (<[Z.to_nat i := set_external t.1.2 l]> (lanes d))) (thread (w_lanes s)))
                     t.2 (calls s) (errno s)) f
  end.

Definition ASSERT_IN_TX : M TS unit :=
  let! st := get stage in
  when (bool_decide (st = TX_STAGE_NONE)) (stop (ErrAbort "called outside of transaction")).
Definition ASSERT_TX_STAGE_WORK : M TS unit :=
  let! st := get stage in
  when (negb (bool_decide (st = TX_STAGE_WORK))) (stop (ErrAbort "called in invalid stage")).

(** ** Restoring snapshots *)

(** [tx_remove_range]: the parts of the ranges outside of [begin], [end].  The
    loop goes over the ranges of the list as it was and inserts new ranges at
    its head: [front] are those, the last one first, [kept] the ranges that it has
    passed, the last one first. *)
Fixpoint remove_from (front kept l : list (Z * Z)) (lbegin lend : Z) : M pm (list (Z * Z)) :=
  match l with
  | [] => ret (front ++ reverse kept)
  | txr :: l' =>
      if (txr.2 <=? lbegin) || (lend <? txr.1) then remove_from front (txr :: kept) l' lbegin lend
      else
        let! front1 :=
          (if txr.1 <? lbegin then
             when (negb (Malloc_range txr.1 lbegin)) (stop (ErrAbort "Malloc")) ;; ret ((txr.1, lbegin) :: front)
           else ret front) in
        let! front2 :=
          (if lend <? txr.2 then
             when (negb (Malloc_range lend txr.2)) (stop (ErrAbort "Malloc")) ;; ret ((lend, txr.2) :: front1)
           else ret front1) in
        remove_from front2 kept l' lbegin lend
  end.
Definition tx_remove_range (tx_ranges : list (Z * Z)) (lbegin lend : Z) : M pm (list (Z * Z)) :=
  remove_from [] [] tx_ranges lbegin lend.
(** The ranges without the locks that the transaction holds. *)
Fixpoint remove_locks (locks : list tx_lock_data) (tx_ranges : list (Z * Z)) : M pm (list (Z * Z)) :=
  match locks with
  | [] => ret tx_ranges
  | txl :: locks' =>
      let! l := tx_remove_range tx_ranges (lock txl) (lock txl + POBJ_CL_SIZE) in remove_locks locks' l
  end.
Definition restore_part (range dst_ptr : Z) (txr : Z * Z) : M pm unit :=
  assert_ (dst_ptr <=? txr.1) "txr->begin >= dst_ptr" ;;
  let src := range + sizeof_entry_buf + (txr.1 - dst_ptr) in
  assert_ (txr.1 <=? txr.2) "txr->end >= txr->begin" ;;
  let! l := rd_bytes src (txr.2 - txr.1) in
  pmemops_memcpy tx_ops txr.1 l 0.
Definition tx_restore_range (locks : list tx_lock_data) (range : Z) : M pm unit :=
  let! range_offset := ulog_entry_offset range in
  let! size := rd64 (range + 16) in
  let dst_ptr := pop + range_offset in
  when (negb (Malloc_range dst_ptr (dst_ptr + size))) (stop (ErrAbort "Malloc")) ;;
  let! tx_ranges := remove_locks locks [(dst_ptr, dst_ptr + size)] in
  assert_ (negb (bool_decide (tx_ranges = []))) "!PMDK_SLIST_EMPTY(&tx_ranges)" ;;
  for_each tx_ranges (restore_part range dst_ptr).
Definition tx_undo_entry_apply (locks : list tx_lock_data) (e : Z) : M pm Z :=
  let! t := ulog_entry_type e in
  if t =? ULOG_OPERATION_BUF_CPY then tx_restore_range locks e ;; ret 0
  else stop (AssertFailed "tx_undo_entry_apply").
(** The log is at [&lane->layout->undo]. *)
Definition tx_abort_set : M TS unit :=
  let! i := lane_of in
  let! locks := get tx_locks in
  let! l := gets (λ s, lanes (desc (w_lanes s)) !! Z.to_nat i) in
  match l with
  | None => stop (UndefinedBehaviour "lane->layout")
  | Some l =>
      on_mem (ulog_foreach_entry max_logs max_entries (layout_undo (layout l)) (tx_undo_entry_apply locks) tx_ops) ;;
      on_lanes (on_undo i (operation_finish pfree max_logs max_entries))
  end.

(** ** Ranges and actions at the end *)

(** [ravl_delete_cb] with a callback on the tree of ranges, which is freed. *)
Definition delete_ranges (f : tx_range_def → M TS unit) : M TW unit :=
  let! r := on_rest (get ranges) in
  if negb r then stop (UndefinedBehaviour "tx->ranges")
  else
    let! l := on_tree (ravl_delete_cb max_loops) in
    on_rest (for_each l f).
Definition tx_flush_range (range : tx_range_def) : M TS unit :=
  when (negb (has (flags range) POBJ_FLAG_NO_FLUSH)) (on_mem (pmemops_xflush tx_ops (pop + offset range) (size range))).
(** Only for Valgrind. *)
Definition tx_clean_range (range : tx_range_def) : M TS unit := ret tt.
Definition tx_pre_commit : M TW unit :=
  delete_ranges tx_flush_range ;;
  on_rest (upd (set_ranges false)).
Definition clear_actions : M TS unit := upd (λ t, set_actions [] (actions_capacity t) t).
Definition tx_abort : M TW unit :=
  on_rest tx_abort_set ;;
  delete_ranges tx_clean_range ;;
  let! l := on_rest (get actions) in
  on_rest (on_heap (palloc_cancel l)) ;;
  on_rest clear_actions ;;
  on_rest (upd (set_ranges false)).

(** ** Locks *)

Definition same_lock (l : Z) (txl : tx_lock_data) : bool := lock txl =? l.
Definition add_to_tx_and_lock (ty : lock_kind) (l : Z) : M TS Z :=
  let! held := get tx_locks in
  if existsb (same_lock l) held then ret 0
  else
    let! ok := gets Malloc_ok in
    if negb ok then ret ENOMEM
    else
      let! retval :=
        (match ty with
         | MUTEX => pmemobj_mutex_lock l
         | RWLOCK => pmemobj_rwlock_wrlock l
         | OTHER => stop (AssertFailed "Unrecognized lock type")
         end) in
      if negb (retval =? 0) then set_errno retval ;; ret retval
      else upd (λ t, set_locks (TxLock l ty :: tx_locks t) t) ;; ret 0.
(** The list shrinks while the locks are released; [held] is what is left of it. *)
Fixpoint release_locks (held : list tx_lock_data) : M TS unit :=
  match held with
  | [] => ret tt
  | txl :: held' =>
      upd (set_locks held') ;;
      (match lock_type txl with
       | MUTEX => pmemobj_mutex_unlock (lock txl)
       | RWLOCK => pmemobj_rwlock_unlock (lock txl)
       | OTHER => stop (AssertFailed "Unrecognized lock type")
       end) ;;
      release_locks held'
  end.
Definition release_and_free_tx_locks : M TS unit := let! held := get tx_locks in release_locks held.

(** ** Stages *)

(** [txd], and whether it is the outermost transaction *)
Definition innermost : M TS (Z * bool) :=
  let! l := get tx_entries in
  match l with
  | [] => stop (UndefinedBehaviour "PMDK_SLIST_NEXT(txd, tx_entry)")
  | env :: l' => ret (env, bool_decide (l' = []))
  end.
Definition obj_tx_callback : M TW unit :=
  let! t := on_rest (get id) in
  if stage_callback t =? 0 then ret tt
  else
    let! txd := on_rest innermost in
    when txd.2 (callback (stage_callback t) (tx_pop t) (stage t) (stage_callback_arg t)).
Definition pmemobj_tx_stage : M TS pobj_tx_stage := get stage.
Definition pmemobj_tx_errno : M TS Z := get last_errnum.
Definition tx_get_pop : M TS Z := get tx_pop.

(** A jump does not return; with a zeroed jump buffer the function returns. *)
Definition obj_tx_abort (errnum : Z) : M TW unit :=
  on_rest ASSERT_IN_TX ;;
  on_rest ASSERT_TX_STAGE_WORK ;;
  let! l := on_rest (get tx_lane) in
  assert_ (negb (bool_decide (l = None))) "tx->lane != NULL" ;;
  let errnum := if errnum =? 0 then ECANCELED else errnum in
  on_rest (upd (set_stage TX_STAGE_ONABORT)) ;;
  let! txd := on_rest innermost in
  when txd.2 (tx_abort ;; on_rest (on_lanes lane_release) ;; on_rest (upd (set_lane None))) ;;
  on_rest (upd (set_last_errnum errnum)) ;;
  on_rest (set_errno errnum) ;;
  obj_tx_callback ;;
  when (negb (txd.1 =? 0)) (stop (LongJump txd.1 errnum)).
Definition pmemobj_tx_abort (errnum : Z) : M TW unit := obj_tx_abort errnum.
Definition obj_tx_abort_err (errnum : Z) : M TW Z := obj_tx_abort errnum ;; ret errnum.

Definition err_abort (err : Z) : M TW Z :=
  let! st := on_rest (get stage) in
  (if bool_decide (st = TX_STAGE_WORK) then obj_tx_abort err
   else on_rest (upd (set_stage TX_STAGE_ONABORT))) ;;
  ret err.
Definition set_tx_callback (cb arg : Z) : M TS unit :=
  let! t := get id in
  when (negb (stage_callback t =? 0) && (negb (stage_callback t =? cb) || negb (stage_callback_arg t =? arg)))
    (stop (ErrAbort "transaction callback is already set")) ;;
  upd (set_callback cb arg).
Fixpoint handle_params (params : list pobj_tx_param) : M TS Z :=
  match params with
  | [] => ret 0
  | TX_PARAM_CB cb arg :: params' => set_tx_callback cb arg ;; handle_params params'
  | TX_PARAM_MUTEX l :: params' =>
      let! err := add_to_tx_and_lock MUTEX l in if negb (err =? 0) then ret err else handle_params params'
  | TX_PARAM_RWLOCK l :: params' =>
      let! err := add_to_tx_and_lock RWLOCK l in if negb (err =? 0) then ret err else handle_params params'
  | TX_PARAM_OTHER l :: params' =>
      let! err := add_to_tx_and_lock OTHER l in if negb (err =? 0) then ret err else handle_params params'
  end.
(** The outermost transaction takes a lane and starts its undo log. *)
Definition begin_outermost : M TW unit :=
  let! i := on_rest (on_lanes lane_hold) in
  on_rest (upd (set_lane (Some i))) ;;
  on_rest (on_tx_undo operation_start) ;;
  on_rest (upd (λ t, set_actions [] 0 (set_entries [] (set_locks [] t)))) ;;
  let! ok := on_rest (gets ravl_new_ok) in
  when ok (on_tree (modify (λ t, ravl_new (mallocs t)))) ;;
  on_rest (upd (λ t, set_first_snapshot true (set_pop pop (set_ranges ok t)))).
Definition enter_work (env : Z) (params : list pobj_tx_param) : M TW Z :=
  let! ok := on_rest (gets Malloc_ok) in
  if negb ok then let! e := on_rest (gets errno) in err_abort e
  else
    on_rest (upd (set_last_errnum 0)) ;;
    on_rest (upd (λ t, set_entries (env :: tx_entries t) t)) ;;
    on_rest (upd (set_stage TX_STAGE_WORK)) ;;
    let! err := on_rest (handle_params params) in
    if negb (err =? 0) then err_abort err else ret 0.
(** [env] is 0 for [NULL]. *)
Definition pmemobj_tx_begin (pool env : Z) (params : list pobj_tx_param) : M TW Z :=
  on_rest (trace pm_trace_tx_begin) ;;
  let! t := on_rest (get id) in
  match stage t with
  | TX_STAGE_WORK =>
      assert_ (negb (bool_decide (tx_lane t = None))) "tx->lane != NULL" ;;
      if negb (tx_pop t =? pool) then obj_tx_abort_err EINVAL else enter_work env params
  | TX_STAGE_NONE =>
      when (negb (pool =? pop)) (stop (UndefinedBehaviour "pop")) ;;
      begin_outermost ;;
      enter_work env params
  | _ => stop (ErrAbort "Invalid stage to begin new transaction")
  end.
Definition pmemobj_tx_lock (ty : lock_kind) (lockp : Z) : M TS Z :=
  ASSERT_IN_TX ;; ASSERT_TX_STAGE_WORK ;; add_to_tx_and_lock ty lockp.

(** ** The end of a transaction *)

Definition tx_post_commit : M TS unit :=
  on_tx_undo (operation_finish pfree max_logs max_entries) ;;
  clear_actions.
Definition commit_outermost : M TW unit :=
  tx_pre_commit ;;
  on_rest (on_mem (pmemops_drain tx_ops)) ;;
  on_rest (on_tx_external operation_start) ;;
  let! l := on_rest (get actions) in
  let! i := on_rest lane_of in
  on_rest (on_external_heap i (palloc_publish l)) ;;
  on_rest tx_post_commit ;;
  on_rest (on_lanes lane_release) ;;
  on_rest (upd (set_lane None)).
Definition pmemobj_tx_commit : M TW unit :=
  on_rest ASSERT_IN_TX ;;
  on_rest ASSERT_TX_STAGE_WORK ;;
  obj_tx_callback ;;
  let! l := on_rest (get tx_lane) in
  assert_ (negb (bool_decide (l = None))) "tx->lane != NULL" ;;
  let! txd := on_rest innermost in
  when txd.2 commit_outermost ;;
  on_rest (upd (set_stage TX_STAGE_ONCOMMIT)) ;;
  obj_tx_callback.

Definition is_outcome (st : pobj_tx_stage) : bool :=
  bool_decide (st = TX_STAGE_ONCOMMIT) || bool_decide (st = TX_STAGE_ONABORT).
Definition end_outermost : M TW unit :=
  let! l := on_rest (get tx_lane) in
  assert_ (bool_decide (l = None)) "tx->lane == NULL" ;;
  on_rest release_and_free_tx_locks ;;
  on_rest (upd (λ t, set_actions [] 0 (set_stage TX_STAGE_NONE (set_pop 0 t)))) ;;
  let! t := on_rest (get id) in
  when (negb (stage_callback t =? 0))
    (on_rest (upd (set_callback 0 0)) ;;
     callback (stage_callback t) (tx_pop t) TX_STAGE_NONE (stage_callback_arg t)).
(** The enclosing transaction goes on, or is aborted too. *)
Definition end_nested : M TW unit :=
  on_rest (upd (set_stage TX_STAGE_WORK)) ;;
  let! e := on_rest (get last_errnum) in
  when (negb (e =? 0)) (obj_tx_abort e).
Definition pmemobj_tx_end : M TW Z :=
  let! t := on_rest (get id) in
  when (bool_decide (stage t = TX_STAGE_WORK)) (stop (ErrAbort "pmemobj_tx_end called without pmemobj_tx_commit")) ;;
  when (tx_pop t =? 0) (stop (ErrAbort "pmemobj_tx_end called without pmemobj_tx_begin")) ;;
  when (negb (stage_callback t =? 0) && is_outcome (stage t))
    (on_rest (upd (set_stage TX_STAGE_FINALLY)) ;; obj_tx_callback) ;;
  on_rest innermost ;;
  on_rest (upd (λ t, set_entries (tail (tx_entries t)) t)) ;;
  let! l := on_rest (get tx_entries) in
  (if bool_decide (l = []) then end_outermost else end_nested) ;;
  on_rest (trace pm_trace_tx_end) ;;
  on_rest (get last_errnum).
Definition pmemobj_tx_process : M TW unit :=
  on_rest ASSERT_IN_TX ;;
  let! st := on_rest (get stage) in
  match st with
  | TX_STAGE_NONE => ret tt
  | TX_STAGE_WORK => pmemobj_tx_commit
  | TX_STAGE_ONABORT | TX_STAGE_ONCOMMIT => on_rest (upd (set_stage TX_STAGE_FINALLY)) ;; obj_tx_callback
  | TX_STAGE_FINALLY => on_rest (upd (set_stage TX_STAGE_NONE))
  end.

(** ** The block *)

(** [setjmp(env)]: a jump to [env] inside of [c] comes back here. *)
Definition catch (env : Z) (c handler : M TW unit) : M TW unit := λ s,
  match c s with
  | Abort (LongJump e v) s' => if e =? env then handler s' else Abort (LongJump e v) s'
  | r => r
  end.
(** The part of a block for each stage; a part that the program leaves out is
    [ret tt], and every part is followed by [pmemobj_tx_process]. *)
Record tx_parts := Parts {
  work : M TW unit;
  onabort : M TW unit;
  oncommit : M TW unit;
  finally : M TW unit;
}.
Definition part_of (b : tx_parts) (st : pobj_tx_stage) : M TW unit :=
  match st with
  | TX_STAGE_WORK => work b
  | TX_STAGE_ONABORT => onabort b
  | TX_STAGE_ONCOMMIT => oncommit b
  | TX_STAGE_FINALLY => finally b
  | TX_STAGE_NONE => ret tt
  end.
(** The loop over the stages.  A jump to the buffer of this block continues with
    the loop after [errno] is set; [fuel] bounds the turns. *)
Fixpoint tx_loop (fuel : nat) (env : Z) (b : tx_parts) : M TW unit :=
  match fuel with
  | O => stop OutOfFuel
  | Datatypes.S fuel' =>
      let! st := on_rest pmemobj_tx_stage in
      if bool_decide (st = TX_STAGE_NONE) then ret tt
      else
        catch env (part_of b st ;; pmemobj_tx_process) (let! e := on_rest pmemobj_tx_errno in on_rest (set_errno e)) ;;
        tx_loop fuel' env b
  end.
Definition set_errno_if (e : Z) : M TS unit := when (negb (e =? 0)) (set_errno e).
Definition tx_block (fuel : nat) (pool env : Z) (params : list pobj_tx_param) (b : tx_parts) : M TW unit :=
  catch env (let! e := pmemobj_tx_begin pool env params in on_rest (set_errno_if e))
            (let! e := on_rest pmemobj_tx_errno in on_rest (set_errno e)) ;;
  tx_loop fuel env b ;;
  let! e := pmemobj_tx_end in
  on_rest (set_errno_if e).
End tx.
