(* ===== verification/TxOps.v ===== *)
(** * Operations inside of a transaction

    [src/pmdk/src/libpmemobj/tx.c]: adding ranges to the transaction, allocating,
    reallocating and freeing objects, publishing actions, and the parameters of
    transactions. *)
From stdpp Require Import base list strings gmap.
From S2P Require Import Prelude Pmem Ulog Memops Lane Palloc Ravl TxRanges Tx.
Open Scope Z_scope.

(** [PMEMoid] *)
Record PMEMoid := Oid { pool_uuid_lo : Z; off : Z }.
Definition OID_NULL : PMEMoid := Oid 0 0.
Definition OBJ_OID_IS_NULL (oid : PMEMoid) : bool := off oid =? 0.
(** [struct tx_alloc_args] *)
Record tx_alloc_args := AllocArgs { args_flags : Z; copy_ptr : Z; copy_size : Z }.
Definition ALLOC_ARGS (flags : Z) : tx_alloc_args := AllocArgs flags 0 0.
Definition CLASS_ID_FROM_FLAG (flag : Z) : Z := Z.shiftr flag 48 `mod` 2 ^ 16.
Definition ARENA_ID_FROM_FLAG (flag : Z) : Z := Z.shiftr flag 32 `mod` 2 ^ 16.
Definition POBJ_XADD_VALID_FLAGS : Z := POBJ_FLAG_NO_FLUSH.
Definition POBJ_TX_XALLOC_VALID_FLAGS : Z :=
  Z.lor (Z.lor POBJ_FLAG_ZERO POBJ_FLAG_NO_FLUSH) (Z.lor (Z.shiftl 65535 32) (Z.shiftl 65535 48)).
(** [flags & ~valid] for 64-bit numbers *)
Definition unknown (flags valid : Z) : bool := negb (Z.ldiff flags valid =? 0).

Section ops.
Context {X H : Type} {E : TxEnv X H}.
Abbreviation TW := (txw X H).
Abbreviation TS := (txs X H).

Definition obj_tx_abort_null (errnum : Z) : M TW PMEMoid := obj_tx_abort_err errnum ;; ret OID_NULL.
Definition OBJ_PTR_FROM_POOL (ptr : Z) : bool := (pop <=? ptr) && (ptr <? pop + heap_offset + heap_size).
Definition OBJ_OID_IS_VALID (oid : PMEMoid) : bool :=
  OBJ_OID_IS_NULL oid ||
  (pool_uuid_lo oid =? uuid_lo) && (heap_offset <=? off oid) && (off oid <? u64 (heap_offset + heap_size)).

(** ** Actions *)

(** [VEC_INC_BACK]: a new element at the end, or nothing without memory. *)
Definition VEC_INC_BACK : M TS Z :=
  let! t := get id in
  let n := length (actions t) in
  if (actions_capacity t =? n)%nat then
    let! ok := gets Malloc_ok in
    if ok : bool then
      upd (set_actions (actions t ++ [POBJ_ACTION_RAW]) (if (n =? 0)%nat then VEC_INIT_SIZE else 2 * n)) ;; ret 0
    else ret (-1)
  else upd (set_actions (actions t ++ [POBJ_ACTION_RAW]) (actions_capacity t)) ;; ret 0.
(** The index of the last action, [None] without space in the log. *)
Definition tx_action_add : M TS (option nat) :=
  let! n := get (λ t, length (actions t)) in
  let entries_size := u64 ((Z.of_nat n + 1) * sizeof_entry_val) in
  let! v := on_tx_external (operation_reserve redo_extend max_logs entries_size) in
  if negb (v =? 0) then ret None
  else
    VEC_INC_BACK ;;
    let! size := get (λ t, length (actions t)) in
    if (size =? 0)%nat then stop (UndefinedBehaviour "VEC_BACK(&tx->actions)") else ret (Some (size - 1)%nat).
Definition set_action (i : nat) (a : pobj_action X) : M TS unit :=
  upd (λ t, set_actions (<[i := a]> (actions t)) (actions_capacity t) t).
Definition VEC_POP_BACK : M TS unit :=
  upd (λ t, set_actions (take (length (actions t) - 1) (actions t)) (actions_capacity t) t).
Definition tx_action_remove : M TS unit := VEC_POP_BACK.
Definition palloc_set_value (i : nat) (ptr value : Z) : M TS unit := set_action i (POBJ_ACTION_TYPE_MEM ptr value).

(** ** Ranges *)

(** The first entry of the undo log is at [tx->lane->layout->undo.data]. *)
Definition first_entry_at : M TS Z :=
  let! i := lane_of in
  let! l := gets (λ s, lanes (desc (w_lanes s)) !! Z.to_nat i) in
  match l with
  | None => stop (UndefinedBehaviour "tx->lane->layout")
  | Some l => ret (ulog_data (layout_undo (layout l)))
  end.
Definition invalidate_undo : M TS Z :=
  let! first := get first_snapshot in
  if first : bool then
    let! action := tx_action_add in
    match action with
    | None => ret (-1)
    | Some i =>
        let! e := first_entry_at in
        palloc_set_value i e 0 ;;
        upd (set_first_snapshot false) ;; ret 0
    end
  else ret 0.
Definition pmemobj_tx_add_snapshot (snapshot : tx_range_def) : M TS Z :=
  let! v := invalidate_undo in
  if negb (v =? 0) then ret (-1)
  else
    let ptr := pop + offset snapshot in
    on_tx_undo (operation_add_buffer undo_extend max_logs max_parts ptr ptr (size snapshot) ULOG_OPERATION_BUF_CPY).
(** [max_loops] bounds the turns of the loop over the ranges too. *)
Definition pmemobj_tx_add_common (args : tx_range_def) : M TW Z :=
  on_rest (trace (pm_trace_tx_addr_add (u64 (offset args + pop)) (size args))) ;;
  if PMEMOBJ_MAX_ALLOC_SIZE <? size args then obj_tx_abort_err EINVAL
  else if (offset args <? heap_offset) || (u64 (heap_offset + heap_size) <? u64 (offset args + size args)) then obj_tx_abort_err EINVAL
  else
    let! r := on_rest (get ranges) in
    if negb r && negb (size args =? 0) then stop (UndefinedBehaviour "tx->ranges")
    else
      let! v := add_ranges Malloc_node pmemobj_tx_add_snapshot max_loops max_loops args args RAVL_PREDICATE_LESS_EQUAL 0 in
      if negb (v =? 0) then obj_tx_abort_err ENOMEM else ret 0.
Definition in_work : M TW unit := on_rest ASSERT_IN_TX ;; on_rest ASSERT_TX_STAGE_WORK.
Definition pmemobj_tx_add_range_direct (ptr sz : Z) : M TW Z :=
  in_work ;;
  if negb (OBJ_PTR_FROM_POOL ptr) then obj_tx_abort_err EINVAL
  else pmemobj_tx_add_common (Range (ptr - pop) sz 0).
Definition pmemobj_tx_xadd_range_direct (ptr sz fl : Z) : M TW Z :=
  in_work ;;
  if negb (OBJ_PTR_FROM_POOL ptr) then obj_tx_abort_err EINVAL
  else if unknown fl POBJ_XADD_VALID_FLAGS then obj_tx_abort_err EINVAL
  else pmemobj_tx_add_common (Range (ptr - pop) sz fl).
Definition pmemobj_tx_add_range (oid : PMEMoid) (hoff sz : Z) : M TW Z :=
  in_work ;;
  if negb (pool_uuid_lo oid =? uuid_lo) then obj_tx_abort_err EINVAL
  else
    assert_ (OBJ_OID_IS_VALID oid) "OBJ_OID_IS_VALID(tx->pop, oid)" ;;
    pmemobj_tx_add_common (Range (u64 (off oid + hoff)) sz 0).
Definition pmemobj_tx_xadd_range (oid : PMEMoid) (hoff sz fl : Z) : M TW Z :=
  in_work ;;
  if negb (pool_uuid_lo oid =? uuid_lo) then obj_tx_abort_err EINVAL
  else
    assert_ (OBJ_OID_IS_VALID oid) "OBJ_OID_IS_VALID(tx->pop, oid)" ;;
    if unknown fl POBJ_XADD_VALID_FLAGS then obj_tx_abort_err EINVAL
    else pmemobj_tx_add_common (Range (u64 (off oid + hoff)) sz fl).

(** ** Objects *)

(** The new object is zeroed, and gets a copy of another one. *)
Definition constructor_tx_alloc (args : tx_alloc_args) (ptr usable_size : Z) : M pm Z :=
  assert_ (negb (ptr =? 0)) "ptr != NULL" ;;
  when (has (args_flags args) POBJ_FLAG_ZERO) (put ptr (replicate (Z.to_nat usable_size) 0) false) ;;
  when (negb (copy_ptr args =? 0) && negb (copy_size args =? 0))
    (let! l := rd_bytes (copy_ptr args) (copy_size args) in put ptr l false) ;;
  ret 0.
Definition err_oom : M TW PMEMoid := on_rest tx_action_remove ;; obj_tx_abort_null ENOMEM.
Definition tx_alloc_common (sz type_num : Z) (args : tx_alloc_args) : M TW PMEMoid :=
  if PMEMOBJ_MAX_ALLOC_SIZE <? sz then obj_tx_abort_null ENOMEM
  else
    let! action := on_rest tx_action_add in
    match action with
    | None => obj_tx_abort_null ENOMEM
    | Some i =>
        let! o := on_rest (on_heap (palloc_reserve sz (Some (constructor_tx_alloc args)) type_num 0
                    (CLASS_ID_FROM_FLAG (args_flags args)) (ARENA_ID_FROM_FLAG (args_flags args)))) in
        match o with
        | inl _ => err_oom
        | inr (o, x) =>
            on_rest (set_action i (POBJ_ACTION_TYPE_HEAP o x)) ;;
            on_rest (trace (pm_trace_tx_addr_add (u64 (o + pop)) sz)) ;;
            let! usable := on_rest (on_heap (palloc_usable_size o)) in
            let! r := on_rest (get ranges) in
            if negb r then stop (UndefinedBehaviour "tx->ranges")
            else
              let! v := tx_lane_ranges_insert_def Malloc_node max_loops (Range o usable (args_flags args)) in
              if negb (v =? 0) then err_oom else ret (Oid uuid_lo o)
        end
    end.
Definition is_action_of (o : Z) (a : pobj_action X) : bool :=
  match a with POBJ_ACTION_TYPE_HEAP o' _ => o' =? o | _ => false end.
(** [VEC_ERASE_BY_PTR]: the last action takes its place. *)
Definition VEC_ERASE (i : nat) (l : list (pobj_action X)) : list (pobj_action X) :=
  take (length l - 1) (match last l with Some a => <[i := a]> l | None => l end).
Definition find_action (o : Z) (l : list (pobj_action X)) : option (nat * pobj_action X) :=
  list_find (λ a, is_action_of o a = true) l.
Definition defer_free (oid : PMEMoid) : M TW Z :=
  let! action := on_rest tx_action_add in
  match action with
  | None => let! e := on_rest (gets errno) in obj_tx_abort_err e
  | Some i =>
      let! x := on_rest (on_heap (palloc_defer_free (off oid))) in
      on_rest (set_action i (POBJ_ACTION_TYPE_HEAP (off oid) x)) ;;
      ret 0
  end.
Definition pmemobj_tx_free (oid : PMEMoid) : M TW Z :=
  in_work ;;
  if OBJ_OID_IS_NULL oid then ret 0
  else if negb (uuid_lo =? pool_uuid_lo oid) then obj_tx_abort_err EINVAL
  else
    assert_ (OBJ_OID_IS_VALID oid) "OBJ_OID_IS_VALID(pop, oid)" ;;
    let! r := on_rest (get ranges) in
    if negb r then stop (UndefinedBehaviour "tx->ranges")
    else
      let! n := on_tree (ravl_find tx_range_def_cmp max_loops (Range (off oid) 0 0) RAVL_PREDICATE_EQUAL) in
      let! l := on_rest (get actions) in
      match (if n =? 0 then None else find_action (off oid) l) with
      | Some (i, a) =>
          on_tree (ravl_remove 2 max_loops n) ;;
          on_rest (on_heap (palloc_cancel [a])) ;;
          on_rest (upd (λ t, set_actions (VEC_ERASE i (actions t)) (actions_capacity t) t)) ;;
          ret 0
      | None => defer_free oid
      end.
(** Both constructors are [constructor_tx_alloc] in all the calls. *)
Definition tx_realloc_common (oid : PMEMoid) (sz type_num fl : Z) : M TW PMEMoid :=
  if PMEMOBJ_MAX_ALLOC_SIZE <? sz then obj_tx_abort_null ENOMEM
  else if OBJ_OID_IS_NULL oid then tx_alloc_common sz type_num (ALLOC_ARGS fl)
  else
    assert_ (OBJ_OID_IS_VALID oid) "OBJ_OID_IS_VALID(tx->pop, oid)" ;;
    if sz =? 0 then let! v := pmemobj_tx_free oid in ret (if v =? 0 then OID_NULL else oid)
    else
      let ptr := pop + off oid in
      let! old_size := on_rest (on_heap (palloc_usable_size (off oid))) in
      let! new_obj := tx_alloc_common sz type_num (AllocArgs fl ptr (Z.min old_size sz)) in
      if OBJ_OID_IS_NULL new_obj then ret new_obj
      else
        let! v := pmemobj_tx_free oid in
        if negb (v =? 0) then on_rest VEC_POP_BACK ;; ret OID_NULL else ret new_obj.

Definition pmemobj_tx_alloc (sz type_num : Z) : M TW PMEMoid :=
  in_work ;;
  if sz =? 0 then obj_tx_abort_null EINVAL else tx_alloc_common sz type_num (ALLOC_ARGS 0).
Definition pmemobj_tx_zalloc (sz type_num : Z) : M TW PMEMoid :=
  in_work ;;
  if sz =? 0 then obj_tx_abort_null EINVAL else tx_alloc_common sz type_num (ALLOC_ARGS POBJ_FLAG_ZERO).
Definition pmemobj_tx_xalloc (sz type_num fl : Z) : M TW PMEMoid :=
  in_work ;;
  if sz =? 0 then obj_tx_abort_null EINVAL
  else if unknown fl POBJ_TX_XALLOC_VALID_FLAGS then obj_tx_abort_null EINVAL
  else tx_alloc_common sz type_num (ALLOC_ARGS fl).
Definition pmemobj_tx_realloc (oid : PMEMoid) (sz type_num : Z) : M TW PMEMoid :=
  in_work ;; tx_realloc_common oid sz type_num 0.
Definition pmemobj_tx_zrealloc (oid : PMEMoid) (sz type_num : Z) : M TW PMEMoid :=
  in_work ;; tx_realloc_common oid sz type_num POBJ_FLAG_ZERO.
(** A string in memory: [strlen] and [wcslen] with characters of [width] bytes.
    [max_parts] bounds the length. *)
Fixpoint string_length (fuel : nat) (width s n : Z) : M pm Z :=
  match fuel with
  | O => stop OutOfFuel
  | Datatypes.S fuel' =>
      let! c := rd_bytes (s + width * n) width in
      if le c =? 0 then ret n else string_length fuel' width s (n + 1)
  end.
Definition duplicate (width s type_num : Z) : M TW PMEMoid :=
  in_work ;;
  if s =? 0 then obj_tx_abort_null EINVAL
  else
    let! len := on_rest (on_mem (string_length max_parts width s 0)) in
    if len =? 0 then tx_alloc_common width type_num (ALLOC_ARGS POBJ_FLAG_ZERO)
    else tx_alloc_common (u64 ((len + 1) * width)) type_num (AllocArgs 0 s (u64 ((len + 1) * width))).
Definition pmemobj_tx_strdup (s type_num : Z) : M TW PMEMoid := duplicate 1 s type_num.
Definition pmemobj_tx_wcsdup (s type_num : Z) : M TW PMEMoid := duplicate 4 s type_num.

(** [VEC_PUSH_BACK] of each action; the result is not looked at. *)
Fixpoint push_actions (actv : list (pobj_action X)) : M TS unit :=
  match actv with
  | [] => ret tt
  | a :: actv' =>
      let! v := VEC_INC_BACK in
      when (v =? 0) (let! n := get (λ t, length (actions t)) in set_action (n - 1) a) ;;
      push_actions actv'
  end.
Definition pmemobj_tx_publish (actv : list (pobj_action X)) : M TW Z :=
  on_rest ASSERT_TX_STAGE_WORK ;;
  let! n := on_rest (get (λ t, length (actions t))) in
  let entries_size := u64 ((Z.of_nat n + Z.of_nat (length actv)) * sizeof_entry_val) in
  let! v := on_rest (on_tx_external (operation_reserve redo_extend max_logs entries_size)) in
  if negb (v =? 0) then ret (-1) else on_rest (push_actions actv) ;; ret 0.
End ops.

(** ** Parameters *)

Definition TX_DEFAULT_RANGE_CACHE_SIZE : Z := 32768.
(** [struct tx_parameters] and [pop->tx_debug_skip_expensive_checks] *)
Record tx_parameters := TxParams { tx_cache_size : Z; skip_expensive_checks : Z }.
Definition tx_params_new (Malloc_ok : bool) (skip : Z) : option tx_parameters :=
  if Malloc_ok then Some (TxParams TX_DEFAULT_RANGE_CACHE_SIZE skip) else None.
Definition cache_size_read (p : tx_parameters) : Z := tx_cache_size p.
(** [arg] points to a [long long]; the handler reads an [int]. *)
Definition cache_size_write (arg : Z) (p : tx_parameters) : Z * tx_parameters :=
  let arg_in := (arg + 2 ^ 31) `mod` 2 ^ 32 - 2 ^ 31 in
  if (arg_in <? 0) || (PMEMOBJ_MAX_ALLOC_SIZE <? arg_in) then (-1, p)
  else (0, TxParams arg_in (skip_expensive_checks p)).
Definition skip_checks_write (arg : Z) (p : tx_parameters) : Z * tx_parameters := (0, TxParams (tx_cache_size p) arg).
