(* ===== verification/TxRestore.v ===== *)
(** * Aborting a transaction

    What the undo entries of a transaction write back when it is aborted: every
    byte of the entries but those of the locks that the transaction holds. *)
From stdpp Require Import base list strings sets gmap.
From S2P Require Import Prelude Pmem PmemFacts Ulog UlogFacts LogChain Memops MemopsFacts UndoFacts Lane Palloc Ravl TxRanges Tx.
Open Scope Z_scope.
#[local] Set Default Proof Using "Type".

Implicit Types (m : mem) (s : pm) (x : entry) (xs : list entry) (gs : list log) (l : list (Z * Z)) (r : Z * Z) (q : Z).

(** ** Ranges without locks *)

Definition in_range r q : Prop := r.1 ≤ q < r.2.
Definition in_some l q : Prop := ∃ r, r ∈ l ∧ in_range r q.
Lemma in_some_nil q : ¬ in_some [] q.
Proof. by intros (r&?%elem_of_nil&_). Qed.
Lemma in_some_cons r l q : in_some (r :: l) q ↔ in_range r q ∨ in_some l q.
Proof.
  unfold in_some. split.
  - intros (r'&[->|Hr]%elem_of_cons&Hq); [by left|right; by exists r'].
  - intros [Hq|(r'&Hr&Hq)]; [exists r|exists r']; (split; [apply elem_of_cons; auto|done]).
Qed.
Lemma in_some_app l l' q : in_some (l ++ l') q ↔ in_some l q ∨ in_some l' q.
Proof.
  induction l as [|r l IH]; simpl; [pose proof (in_some_nil q); tauto|]. rewrite !in_some_cons, IH. tauto.
Qed.
Lemma in_some_reverse l q : in_some (reverse l) q ↔ in_some l q.
Proof. unfold in_some. by setoid_rewrite elem_of_reverse. Qed.
Definition nonempty_ranges l : Prop := Forall (λ r, r.1 < r.2) l.

Definition locked (locks : list tx_lock_data) q : Prop := ∃ k, k ∈ locks ∧ lock k ≤ q < lock k + POBJ_CL_SIZE.
Global Instance locked_dec locks q : Decision (locked locks q).
Proof.
  refine (cast_if (decide (Exists (λ k, lock k ≤ q < lock k + POBJ_CL_SIZE) locks))).
  - by apply Exists_exists.
  - intros H. by apply n, Exists_exists.
Defined.

Section remove.
Context {X H : Type} {E : TxEnv X H} (malloc_ok : ∀ a b, Malloc_range a b = true).

Lemma remove_from_Ok front kept l (b e : Z) s :
  b < e → nonempty_ranges front → nonempty_ranges kept → nonempty_ranges l →
  ∃ l', remove_from front kept l b e s = Ok l' s ∧ nonempty_ranges l' ∧
    ∀ q, in_some l' q ↔ in_some front q ∨ in_some kept q ∨ in_some l q ∧ ¬ (b ≤ q < e).
Proof using malloc_ok.
  intros Hbe. revert front kept. induction l as [|r l IH]; intros front kept Hf Hk Hl; cbn [remove_from].
  - exists (front ++ reverse kept). split; [done|]. split; [apply Forall_app; split; [done|by apply Forall_reverse]|].
    intros q. rewrite in_some_app, in_some_reverse. pose proof (in_some_nil q). tauto.
  - apply Forall_cons in Hl as [Hr Hl]. destruct ((r.2 <=? b) || (e <? r.1)) eqn:Hout.
    + destruct (IH front (r :: kept) Hf) as (l'&Hrun&Hne&Hq); [by constructor|done|].
      exists l'. split; [done|]. split; [done|]. intros q. rewrite Hq, !in_some_cons. unfold in_range.
      apply orb_true_iff in Hout. destruct Hout as [?%Z.leb_le|?%Z.ltb_lt]; intuition lia.
    + apply orb_false_iff in Hout as [?%Z.leb_gt ?%Z.ltb_ge]. rewrite !malloc_ok. cbn [negb when].
      pose (f1 := if r.1 <? b then (r.1, b) :: front else front).
      erewrite (bind_Ok _ _ s f1); [|unfold f1; by destruct (r.1 <? b)].
      pose (f2 := if e <? r.2 then (e, r.2) :: f1 else f1).
      erewrite (bind_Ok _ _ s f2); [|unfold f2; by destruct (e <? r.2)].
      destruct (IH f2 kept) as (l'&Hrun&Hne&Hq); [|done..|].
      { unfold f2, f1. destruct (Z.ltb_spec r.1 b), (Z.ltb_spec e r.2); repeat (constructor; [simpl; lia|]); done. }
      exists l'. split; [done|]. split; [done|]. intros q. rewrite Hq. unfold f2, f1.
      destruct (Z.ltb_spec r.1 b), (Z.ltb_spec e r.2); rewrite ?in_some_cons; unfold in_range; simpl; intuition lia.
Qed.
Lemma remove_locks_Ok locks l s :
  nonempty_ranges l →
  ∃ l', remove_locks locks l s = Ok l' s ∧ nonempty_ranges l' ∧
    ∀ q, in_some l' q ↔ in_some l q ∧ ¬ locked locks q.
Proof using malloc_ok.
  revert l. induction locks as [|k locks IH]; intros l Hl; cbn [remove_locks].
  - exists l. split; [done|]. split; [done|]. intros q. split; [|by intros [? _]]. intros Hq. split; [done|].
    by intros (k&?%elem_of_nil&_).
  - unfold tx_remove_range. destruct (remove_from_Ok [] [] l (lock k) (lock k + POBJ_CL_SIZE) s) as (l1&Hrun&Hne&Hq1);
      [unfold POBJ_CL_SIZE; lia|constructor|constructor|done|].
    rewrite (bind_Ok _ _ _ _ _ Hrun). destruct (IH l1 Hne) as (l2&Hrun2&Hne2&Hq2). exists l2. split; [done|].
    split; [done|]. intros q. rewrite Hq2, Hq1. pose proof (in_some_nil q). unfold locked. setoid_rewrite elem_of_cons. split.
    + intros [[?|[?|[H1 H2]]] H3]; [done..|]. split; [done|]. intros (k'&[->|Hk]&Hin); [done|]. apply H3. by exists k'.
    + intros [H1 H2]. split; [|intros (k'&Hk&Hin); apply H2; exists k'; auto]. right. right. split; [done|].
      intros Hin. apply H2. exists k. auto.
Qed.
End remove.

(** ** Restoring an entry *)

Lemma lines_room (n : Z) : n + 24 ≤ 64 * lines n.
Proof. unfold lines. pose proof (Z.div_mod (n + 24 + 63) 64). pose proof (Z.mod_pos_bound (n + 24 + 63) 64). lia. Qed.

(** The bytes of an entry outside of the locks. *)
Definition restore_unlocked (b : Z) (locks : list tx_lock_data) x m : mem := λ q,
  if decide (locked locks q) then m q else restore b x m q.
Lemma restore_unlocked_ext b locks x m m' : (∀ q, m q = m' q) → ∀ q, restore_unlocked b locks x m q = restore_unlocked b locks x m' q.
Proof. intros H q. unfold restore_unlocked. case_decide; [apply H|by apply restore_ext]. Qed.
Lemma restore_unlocked_other b locks x m q : ¬ target b x q → restore_unlocked b locks x m q = m q.
Proof. intros H. unfold restore_unlocked. case_decide; [done|by apply restore_other]. Qed.

Section restore.
Context {X H : Type} {E : TxEnv X H} (malloc_ok : ∀ a b, Malloc_range a b = true).

(** One part; [d] are the data of the entry, which is elsewhere. *)
Lemma restore_part_Ok range (dst : Z) (d : list Z) r s :
  load_bytes (bytes s) (range + sizeof_entry_buf) (length d) = d →
  dst ≤ r.1 → r.1 < r.2 → r.2 ≤ dst + Z.of_nat (length d) →
  ∃ s', restore_part range dst r s = Ok tt s' ∧
    ∀ q, (in_range r q → bytes s' q = store_bytes (bytes s) dst d q) ∧ (¬ in_range r q → bytes s' q = bytes s q).
Proof.
  intros Hd H1 H2 H3. unfold restore_part. rewrite (proj2 (Z.leb_le _ _)), (proj2 (Z.leb_le r.1 r.2)) by lia. cbn [assert_].
  erewrite (bind_Ok (ret tt)) by reflexivity. erewrite (bind_Ok (ret tt)) by reflexivity.
  erewrite (bind_Ok (rd_bytes _ _)) by reflexivity. eexists. split; [reflexivity|]. intros q. cbn [bytes].
  set (a := range + sizeof_entry_buf + (r.1 - dst)). set (n := Z.to_nat (r.2 - r.1)).
  assert (length (load_bytes (bytes s) a n) = n) as Hlen by apply load_bytes_length. split; intros Hq; unfold in_range in Hq.
  - pose proof (store_in (bytes s) r.1 (load_bytes (bytes s) a n) (Z.to_nat (q - r.1)) ltac:(lia)) as Hs1.
    rewrite load_bytes_lookup in Hs1 by lia.
    pose proof (store_in (bytes s) dst d (Z.to_nat (q - dst)) ltac:(lia)) as Hs2.
    rewrite <-Hd in Hs2 at 1. rewrite load_bytes_lookup in Hs2 by lia.
    replace (r.1 + Z.of_nat (Z.to_nat (q - r.1))) with q in Hs1 by lia.
    replace (dst + Z.of_nat (Z.to_nat (q - dst))) with q in Hs2 by lia.
    replace (a + Z.of_nat (Z.to_nat (q - r.1))) with (range + sizeof_entry_buf + Z.of_nat (Z.to_nat (q - dst))) in Hs1
      by (unfold a; lia). congruence.
  - apply store_out. lia.
Qed.
Lemma restore_parts_Ok range (dst : Z) (d : list Z) l s :
  load_bytes (bytes s) (range + sizeof_entry_buf) (length d) = d →
  (∀ q, range + sizeof_entry_buf ≤ q < range + sizeof_entry_buf + Z.of_nat (length d) → ¬ dst ≤ q < dst + Z.of_nat (length d)) →
  nonempty_ranges l → (∀ q, in_some l q → dst ≤ q < dst + Z.of_nat (length d)) →
  ∃ s', for_each l (restore_part range dst) s = Ok tt s' ∧
    ∀ q, (in_some l q → bytes s' q = store_bytes (bytes s) dst d q) ∧ (¬ in_some l q → bytes s' q = bytes s q).
Proof.
  intros Hd Hap Hne. revert s Hd. induction Hne as [|r l Hr _ IH]; intros s Hd Hin; cbn [for_each].
  { exists s. split; [done|]. intros q. split; [by intros ?%in_some_nil|done]. }
  assert (dst ≤ r.1 ∧ r.2 ≤ dst + Z.of_nat (length d)) as [Hr1 Hr2].
  { pose proof (Hin r.1) as Ha. pose proof (Hin (r.2 - 1)) as Hb. rewrite in_some_cons in Ha, Hb. unfold in_range in *.
    destruct Ha; [left; lia|]. destruct Hb; [left; lia|]. lia. }
  destruct (restore_part_Ok range dst d r s Hd Hr1 Hr Hr2) as (s1&Hrun&Hq1). rewrite (bind_Ok _ _ _ _ _ Hrun).
  destruct (IH s1) as (s2&Hrun2&Hq2).
  - rewrite <-Hd at 2. apply load_bytes_ext. intros q Hq. apply Hq1. intros Hrq. apply (Hap q Hq). unfold in_range in Hrq. lia.
  - intros q Hq. apply Hin. rewrite in_some_cons. by right.
  - exists s2. split; [done|]. intros q. destruct (Hq1 q) as [Ha Hb]. destruct (Hq2 q) as [Hc Hd'].
    assert (store_bytes (bytes s1) dst d q = store_bytes (bytes s) dst d q ∨ ¬ (dst ≤ q < dst + Z.of_nat (length d))) as Hst.
    { destruct (decide (dst ≤ q < dst + Z.of_nat (length d))) as [Hq|]; [left|by right].
      unfold store_bytes. by rewrite (proj2 (Z.leb_le _ _)), (proj2 (Z.ltb_lt _ _)) by lia. }
    rewrite in_some_cons. split.
    + intros Hq. destruct Hst as [Hst|Hst]; [|destruct Hst; apply Hin; by rewrite in_some_cons].
      destruct (decide (Exists (λ r, r.1 ≤ q < r.2) l)) as [He|He].
      * rewrite Hc; [done|]. by apply Exists_exists in He.
      * assert (¬ in_some l q) as Hn by (intros (r'&?&?); apply He, Exists_exists; by exists r').
        rewrite Hd' by done. apply Ha. by destruct Hq.
    + intros Hn. rewrite Hd' by auto. apply Hb. auto.
Qed.

Lemma undo_entry_apply_Ok locks e x s :
  entry_at (bytes s) e (cpy x.1) x.2 → ok_entry x.1 x.2 → (∃ q, target pop x q ∧ ¬ locked locks q) →
  (∀ q, e ≤ q < e + room x → ¬ target pop x q) →
  ∃ s', tx_undo_entry_apply locks e s = Ok 0 s' ∧
    ∀ q, bytes s' q = restore_unlocked pop locks x (bytes s) q.
Proof using malloc_ok.
  intros He Hok Hfree Hap. destruct (entry_words s e _ _ He Hok) as (H1&_&H3&H4). destruct Hok as [Ho Hl].
  unfold tx_undo_entry_apply. rewrite (bind_Ok _ _ _ _ _ (entry_type_Ok s e _ Ho H1)), Z.eqb_refl. unfold tx_restore_range.
  destruct Hfree as (q0&Hq0&Hq0'). unfold target in Hq0.
  destruct (remove_locks_Ok malloc_ok locks [(pop + x.1, pop + x.1 + Z.of_nat (length x.2))] s) as (l&Hrun&Hne&Hq).
  { constructor; [simpl; lia|constructor]. }
  assert (∀ q, in_some l q ↔ target pop x q ∧ ¬ locked locks q) as Hl'.
  { intros q. rewrite Hq, in_some_cons. pose proof (in_some_nil q). unfold in_range, target. simpl. tauto. }
  destruct (restore_parts_Ok e (pop + x.1) x.2 l s H4) as (s'&Hrun'&Hb); [|done|by intros q Hq'%Hl'; apply Hq'|].
  { intros q Hq'. apply Hap. unfold room, sizeof_entry_buf in *. pose proof (lines_room (Z.of_nat (length x.2))). lia. }
  exists s'. split.
  - erewrite (bind_Ok _ _ s tt s'); [done|]. rewrite (bind_Ok _ _ _ _ _ (entry_offset_Ok s e _ Ho H1)).
    rewrite (bind_Ok _ _ _ _ _ (rd64_Ok s _)), H3, malloc_ok. cbn [negb when]. erewrite (bind_Ok (ret tt)) by reflexivity.
    rewrite (bind_Ok _ _ _ _ _ Hrun). rewrite bool_decide_eq_false_2.
    + cbn [negb assert_]. erewrite (bind_Ok (ret tt)) by reflexivity. done.
    + intros ->. apply (in_some_nil q0), Hl'. done.
  - intros q. destruct (Hb q) as [Ha Hn]. unfold restore_unlocked, restore. case_decide as Hlk.
    + apply Hn. rewrite Hl'. tauto.
    + destruct (decide (pop + x.1 ≤ q < pop + x.1 + Z.of_nat (length x.2))) as [Ht|Ht].
      * apply Ha, Hl'. done.
      * rewrite Hn by (rewrite Hl'; unfold target; tauto). symmetry. apply store_out. lia.
Qed.
End restore.

(** ** Restoring all entries *)

Lemma restore_at b x m m' q : m q = m' q → restore b x m q = restore b x m' q.
Proof. unfold restore, store_bytes. intros H. by case_match. Qed.
Lemma effects_locked b locks xs m q : locked locks q → effects (restore_unlocked b locks) xs m q = m q.
Proof.
  intros Hq. unfold effects. revert m. induction xs as [|x xs IH]; intros m; simpl; [done|]. rewrite IH.
  unfold restore_unlocked. by rewrite decide_True by done.
Qed.
Lemma effects_unlocked b locks xs m m' q :
  ¬ locked locks q → m q = m' q → effects (restore_unlocked b locks) xs m q = restore_all b xs m' q.
Proof.
  intros Hq. unfold effects, restore_all. revert m m'. induction xs as [|x xs IH]; intros m m' Hm; simpl; [done|]. apply IH.
  unfold restore_unlocked. rewrite decide_False by done. by apply restore_at.
Qed.

Section abort.
Context {X H : Type} {E : TxEnv X H} (malloc_ok : ∀ a b, Malloc_range a b = true).

(** Walking over the undo log of an aborted transaction. *)
Lemma abort_walk logs entries locks gs m0 s :
  chain_ok (bytes s) (tx_ops) gs → targets_apart pop (chain_entries gs) gs →
  Forall (holds pop m0) (chain_entries gs) →
  (∀ x, x ∈ chain_entries gs → ∃ q, target pop x q ∧ ¬ locked locks q) →
  (length gs < logs)%nat → Forall (λ g, (length (ents g) < entries)%nat) gs →
  ∃ s', ulog_foreach_entry logs entries (first_addr gs) (tx_undo_entry_apply locks) (tx_ops) s = Ok 0 s' ∧
    (∀ q, covered_by pop (chain_entries gs) q → ¬ locked locks q → bytes s' q = m0 q) ∧
    (∀ q, ¬ covered_by pop (chain_entries gs) q ∨ locked locks q → bytes s' q = bytes s q) ∧
    (∀ q, in_logs gs q → bytes s' q = bytes s q).
Proof using malloc_ok.
  intros Hc Hap Hold Hfree Hlogs Hents.
  destruct (chain_effect (restore_unlocked pop locks) (restore_unlocked_ext pop locks)
    (tx_undo_entry_apply locks) (tx_ops) gs s (λ s', ∀ q, in_logs gs q → bytes s' q = bytes s q) Hc ltac:(auto))
    with (fuel := logs) (entries := entries) (s := s) as (s'&Hrun&Hb&Hs'); [|done..|].
  - intros s1 e x Hs1 Hin He Hok. pose proof (chain_placed_entry _ _ _ Hin) as Hx.
    destruct (undo_entry_apply_Ok malloc_ok locks e x s1 He Hok (Hfree x Hx)) as (s2&Hrun&Hq).
    { intros q Hq Ht. apply (Hap x q Hx Ht). eapply chain_placed_inside; [exact (ch_logs _ _ _ Hc)|done|done]. }
    exists s2. split; [done|]. split; [done|]. intros q Hl. rewrite Hq, restore_unlocked_other; [by apply Hs1|].
    intros Ht. by apply (Hap x q Hx Ht).
  - exists s'. split; [done|]. assert (∀ q, ¬ locked locks q → bytes s' q = restore_all pop (chain_entries gs) (bytes s) q) as Hu.
    { intros q Hq. rewrite Hb. by apply effects_unlocked. }
    split; [|split; [|done]].
    + intros q Hcov Hq. rewrite Hu by done. by apply restore_holds.
    + intros q Hq. destruct (decide (locked locks q)) as [Hl|Hl]; [rewrite Hb; by apply effects_locked|].
      rewrite Hu by done. destruct Hq as [Hq|Hq]; [|done]. by apply (restore_holds pop m0).
Qed.
End abort.
