(* ===== verification/TxFacts.v ===== *)
(** * Transactions: the invariant

    What the environment promises to a transaction, and the state of a
    transaction in its working stage: the undo log of its lane holds the old
    contents of everything that the transaction may change. *)
From stdpp Require Import base list strings sets gmap.
From S2P Require Import Prelude Pmem PmemFacts Ulog UlogFacts LogChain Memops MemopsFacts UndoFacts UndoEnd RedoFacts History Lane Palloc PallocFacts Ravl RavlTree RavlFacts TxRanges TxRangesFacts Tx TxOps TxRestore.
Open Scope Z_scope.
#[local] Set Default Proof Using "Type".

(** ** What operations on a context keep *)

Definition static (c : operation_context) : log_type * pmem_ops * Z * Z * bool :=
  (type c, p_ops c, ulog c, ulog_base_nbytes c, in_progress c).
Section leaves.
Context {B : Type} (π : operation_context → B).
Definition leaves {A} (f : M opst A) : Prop := ∀ s c v s' c', f (s, c) = Ok v (s', c') → π c' = π c.
Lemma leaves_ret {A} (v : A) : leaves (ret v).
Proof. by intros s c v' s' c' [= _ _ ->]. Qed.
Lemma leaves_bind {A C} (f : M opst A) (k : A → M opst C) : leaves f → (∀ v, leaves (k v)) → leaves (bind f k).
Proof.
  intros Hf Hk s c v s' c'. unfold bind. destruct (f (s, c)) as [a [s1 c1]|] eqn:E; [|done]. intros H.
  apply Hk in H. apply Hf in E. congruence.
Qed.
Lemma leaves_pm {A} (f : M pm A) : leaves (on_pm f).
Proof. intros s c v s' c'. unfold on_pm, zoom. simpl. destruct (f s); [|done]. by intros [= _ _ ->]. Qed.
Lemma leaves_ctx {A} (f : operation_context → A) : leaves (ctx f).
Proof. by intros s c v s' c' [= _ _ ->]. Qed.
Lemma leaves_update f : (∀ c, π (f c) = π c) → leaves (update f).
Proof. intros Hf s c v s' c' [= _ _ <-]. apply Hf. Qed.
Lemma leaves_assert b what : leaves (assert_ b what).
Proof. destruct b; [apply leaves_ret|]. by intros s c v s' c' [=]. Qed.
Lemma leaves_if {A} (b : bool) (f g : M opst A) : leaves f → leaves g → leaves (if b then f else g).
Proof. by destruct b. Qed.
End leaves.
Ltac leaves_step :=
  first [ apply leaves_ret | apply leaves_pm | apply leaves_ctx | apply leaves_assert
        | apply leaves_update; intros ?; reflexivity | apply leaves_bind; [|intros ?] | apply leaves_if ].

Lemma reserve_leaves extend logs n : leaves static (operation_reserve extend logs n).
Proof. unfold operation_reserve. destruct extend; repeat leaves_step. Qed.
Lemma add_buffer_leaves extend logs fuel dest src size ty : leaves static (operation_add_buffer extend logs fuel dest src size ty).
Proof.
  revert dest src size. induction fuel as [|fuel IH]; intros dest src size; [by intros s c v s' c' [=]|].
  cbn [operation_add_buffer]. unfold advance_log, add_part.
  repeat (apply reserve_leaves || apply IH || leaves_step).
Qed.
Lemma finish_leaves ulog_free logs entries : leaves ulog (operation_finish ulog_free logs entries).
Proof.
  unfold operation_finish, operation_process, process_single, operation_process_persistent_redo, operation_process_persistent_undo, when.
  repeat leaves_step.
Qed.

(** ** The environment *)

Definition big (n : nat) : Prop := 2 ^ 66 ≤ Z.of_nat n.

(** The application's data are [user]; transient memory does not run out. *)
Class TxLaws {X H} (E : TxEnv X H) (user : Z → Prop) := {
  node_fresh k m p : Malloc_node k m = Some p → p ≠ 0 ∧ m !! p = None;
  range_malloc a b : Malloc_range a b = true;
  tx_malloc s : Malloc_ok s = true;
  tree_malloc s : ravl_new_ok s = true;
  lane_malloc : Malloc sizeof_lane_info = true;
  tls_works : os_tls_set = 0;
  critnib_works : critnib_insert = 0;
  log_heap :: LogHeap user tx_ops undo_extend pfree;
  palloc_laws :: PallocLaws palloc_env;
  (** The transient copies of the redo logs are not in the pool. *)
  scratch : Z → Prop;
  scratch_user q : scratch q → ¬ user q;
  scratch_logs s gs q : heap_ok s gs → in_logs gs q → ¬ scratch q;
  scratch_heap s s' gs : heap_ok s gs → (∀ q, ¬ scratch q → bytes s' q = bytes s q) → heap_ok s' gs;
  pool_pos : 0 < pop;
  pool_size : 0 ≤ heap_offset ∧ 0 ≤ heap_size ∧ heap_offset + heap_size ≤ 2 ^ 60;
  big_logs : big max_logs;
  big_entries : big max_entries;
  big_parts : big max_parts;
  big_loops : big max_loops;
}.

Section facts.
Context {X H : Type} {E : TxEnv X H} {user : Z → Prop} {L : TxLaws E user}.
Abbreviation TW := (txw X H).
Abbreviation TS := (txs X H).
Implicit Types (s : TS) (w : TW) (l : lane) (m : mem) (c : operation_context) (i : Z).
Implicit Types (g : log) (gs pre post : list log) (x : entry) (xs : list entry).

(** *** Steps *)

Definition memory s : mem := bytes (l_pm (w_lanes s)).
Definition lane_at s i : option lane := lanes (desc (w_lanes s)) !! Z.to_nat i.
Lemma rest_Ok {A} (f : M TS A) t s v s' : f s = Ok v s' → on_rest f (t, s) = Ok v (t, s').
Proof. apply on_rest_Ok. Qed.
Lemma get_Ok {A} (f : tx X → A) s : get f s = Ok (f (the_tx s)) s.
Proof. done. Qed.
Lemma lane_of_Ok s i : tx_lane (the_tx s) = Some i → lane_of s = Ok i s.
Proof. intros Hi. unfold lane_of. rewrite (bind_Ok _ _ _ _ _ (get_Ok _ s)), Hi. done. Qed.
(** The state with other memory and another undo context. *)
Definition put_undo i l (p : pm) c s : TS :=
  let d := desc (w_lanes s) in
  Txs (the_tx s)
    (LaneState p (Descriptor (runtime_nlanes d) (next_lane_idx d) (lane_locks d) (<[Z.to_nat i := set_undo c l]> (lanes d)))
       (thread (w_lanes s)))
    (w_heap s) (calls s) (errno s).
Lemma on_undo_Ok {A} (f : M opst A) s i l v p c :
  lane_at s i = Some l → f (l_pm (w_lanes s), undo l) = Ok v (p, c) →
  on_lanes (on_undo i f) s = Ok v (put_undo i l p c s).
Proof.
  intros Hl Hf. unfold on_lanes, zoom, on_undo. rewrite (bind_Ok (gets desc) _ _ (desc (w_lanes s)) (w_lanes s)) by done.
  unfold lane_at in Hl. rewrite Hl. unfold zoom. by rewrite Hf.
Qed.
Lemma on_tx_undo_Ok {A} (f : M opst A) s i l v p c :
  tx_lane (the_tx s) = Some i → lane_at s i = Some l → f (l_pm (w_lanes s), undo l) = Ok v (p, c) →
  on_tx_undo f s = Ok v (put_undo i l p c s).
Proof. intros Hi Hl Hf. unfold on_tx_undo. rewrite (bind_Ok _ _ _ _ _ (lane_of_Ok s i Hi)). by apply on_undo_Ok. Qed.
Lemma put_undo_at i l p c s : lane_at s i = Some l → lane_at (put_undo i l p c s) i = Some (set_undo c l).
Proof. intros Hl. unfold lane_at in *. cbn. apply list_lookup_insert_eq. by eapply lookup_lt_Some. Qed.
(** An operation that leaves the external context and the memory alone. *)
Lemma on_external_same {A} (f : M opst A) s i l v :
  tx_lane (the_tx s) = Some i → lane_at s i = Some l →
  f (l_pm (w_lanes s), external l) = Ok v (l_pm (w_lanes s), external l) → on_tx_external f s = Ok v s.
Proof.
  intros Hi Hl Hf. unfold on_tx_external. rewrite (bind_Ok _ _ _ _ _ (lane_of_Ok s i Hi)).
  unfold on_lanes, zoom, on_external. rewrite (bind_Ok (gets desc) _ _ (desc (w_lanes s)) (w_lanes s)) by done.
  unfold lane_at in Hl. rewrite Hl. unfold zoom. rewrite Hf. cbn [fst snd].
  replace (set_external (external l) l) with l by (by destruct l). rewrite list_insert_id by done.
  by destruct s as [t [p [n nx lk ln] th] h cl e].
Qed.

(** *** The undo log of a transaction *)

(** The redo log of a lane between operations. *)
Record external_ok c : Prop := {
  ex_type : type c = LOG_TYPE_REDO;
  ex_ops : p_ops c = tx_ops;
  ex_idle : in_progress c = false;
  ex_room : sizeof_entry_val ≤ ulog_capacity c;
  ex_capacity : 64 < log_capacity (pshadow_ops c);
  ex_shadow : ∀ q, shadow_entry c ≤ q < shadow_entry c + 24 → scratch q;
}.
(** The first entry of an undo log is in the lanes. *)
Definition in_lanes (u : Z) : Prop := pop ≤ ulog_data u < pop + 2 ^ 61 ∧ OBJ_OFF_IS_VALID (ulog_data u - pop) = true.

(** The entries hold the contents [m0] of what they cover, and whatever they do
    not cover is as in [m0]. *)
Record logged m0 i l pre post s : Prop := {
  lo_lane : tx_lane (the_tx s) = Some i;
  lo_at : lane_at s i = Some l;
  lo_layout : layout_undo (layout l) = ulog (undo l);
  lo_progress : in_progress (undo l) = true;
  lo_undo : undo_ok (l_pm (w_lanes s)) (undo l) pre post;
  lo_first : if first_snapshot (the_tx s) then actions (the_tx s) = [] ∧ entries_of pre = []
             else actions (the_tx s) = [POBJ_ACTION_TYPE_MEM (ulog_data (ulog (undo l))) 0];
  lo_external : external_ok (external l);
  lo_place : in_lanes (ulog (undo l));
  lo_holds : Forall (holds pop m0) (entries_of pre);
  lo_nonempty : Forall (λ x, x.2 ≠ []) (entries_of pre);
  lo_user : ∀ q, covered_by pop (entries_of pre) q → user q;
  lo_kept : ∀ q, user q → ¬ covered_by pop (entries_of pre) q → memory s q = m0 q;
}.
(** The parts of the state that snapshots do not change. *)
Definition fixed (t : tx X) := (tx_pop t, stage t, last_errnum t, tx_lane t, tx_locks t, tx_entries t, ranges t,
                                stage_callback t, stage_callback_arg t).
Definition fixed_desc (d : lane_descriptor) := (runtime_nlanes d, next_lane_idx d, lane_locks d, length (lanes d)).
Record frame s s' : Prop := {
  fr_tx : fixed (the_tx s') = fixed (the_tx s);
  fr_heap : w_heap s' = w_heap s;
  fr_calls : calls s' = calls s;
  fr_errno : errno s' = errno s;
  fr_thread : thread (w_lanes s') = thread (w_lanes s);
  fr_desc : fixed_desc (desc (w_lanes s')) = fixed_desc (desc (w_lanes s));
}.
Global Instance frame_refl : Reflexive frame.
Proof. done. Qed.
Global Instance frame_trans : Transitive frame.
Proof. intros s1 s2 s3 [] []. split; congruence. Qed.
Lemma frame_put_undo i l p c s : lane_at s i = Some l → frame s (put_undo i l p c s).
Proof. intros Hl. split; try done. cbn. unfold fixed_desc. cbn. by rewrite length_insert. Qed.

Lemma reserve_external (n : Z) s i l :
  tx_lane (the_tx s) = Some i → lane_at s i = Some l → n ≤ ulog_capacity (external l) →
  on_tx_external (operation_reserve redo_extend max_logs n) s = Ok 0 s.
Proof.
  intros Hi Hl Hn. eapply on_external_same; [done..|]. unfold operation_reserve.
  rewrite (bind_Ok _ _ _ _ _ (ctx_Ok _ _ _)), (proj2 (Z.ltb_ge _ _)) by done. done.
Qed.
(** The first snapshot adds the action that invalidates the log at commit. *)
Lemma invalidate_Ok m0 i l pre post s :
  logged m0 i l pre post s → ∃ s', invalidate_undo s = Ok 0 s' ∧ logged m0 i l pre post s' ∧ frame s s' ∧ memory s' = memory s ∧
    first_snapshot (the_tx s') = false.
Proof.
  intros Hlog. pose proof Hlog as [Hi Hl Hlay Hp Hu Hf Hr Hpl Hh Hnn Hus Hk]. unfold invalidate_undo. rewrite (bind_Ok _ _ _ _ _ (get_Ok _ s)).
  destruct (first_snapshot (the_tx s)) eqn:Hfirst; [|by exists s].
  destruct Hf as [Hf _].
  set (s1 := Txs (set_actions [POBJ_ACTION_RAW] (if (actions_capacity (the_tx s) =? 0)%nat then VEC_INIT_SIZE else actions_capacity (the_tx s)) (the_tx s))
    (w_lanes s) (w_heap s) (calls s) (errno s)).
  assert (VEC_INC_BACK s = Ok 0 s1) as Hinc.
  { unfold VEC_INC_BACK. rewrite (bind_Ok _ _ _ _ _ (get_Ok _ s)). unfold id. rewrite Hf. cbn [length].
    unfold s1. destruct (actions_capacity (the_tx s) =? 0)%nat; [|done].
    rewrite (bind_Ok (gets Malloc_ok) _ s true s) by (unfold gets; by rewrite tx_malloc). done. }
  assert (tx_action_add s = Ok (Some 0%nat) s1) as Hadd.
  { unfold tx_action_add. rewrite (bind_Ok _ _ _ _ _ (get_Ok _ s)), Hf.
    rewrite (bind_Ok _ _ s 0 s) by (by eapply reserve_external; [..|apply (ex_room _ Hr)]).
    cbn [Z.eqb negb]. by rewrite (bind_Ok _ _ _ _ _ Hinc). }
  rewrite (bind_Ok _ _ _ _ _ Hadd).
  cbv beta iota. unfold first_entry_at.
  erewrite bind_Ok.
  2: { rewrite (bind_Ok _ _ s1 i s1) by (by apply lane_of_Ok). rewrite (bind_Ok (gets _) _ s1 (Some l) s1) by (unfold gets; f_equal; exact Hl).
       reflexivity. }
  eexists. split; [reflexivity|]. split; [|split; done]. split; try done. cbn. by rewrite Hlay.
Qed.

(** A snapshot of data that are as in [m0] is taken, or refused because the log
    cannot be extended. *)
Definition unchanged_data m0 s (r : tx_range_def) : Prop := ∀ o, covers r o → user (pop + o) ∧ memory s (pop + o) = m0 (pop + o).
Lemma snapshot_Ok m0 i l pre post s r :
  logged m0 i l pre post s → ok_range r → offset r + size r ≤ 2 ^ 60 → unchanged_data m0 s r →
  ∃ v s' l' pre' post' xs, pmemobj_tx_add_snapshot r s = Ok v s' ∧ logged m0 i l' pre' post' s' ∧ frame s s' ∧
    (∀ q, user q → memory s' q = memory s q) ∧ entries_of pre' = entries_of pre ++ xs ∧
    (v = 0 → ∀ q, covers r (q - pop) → covered_by pop (entries_of pre') q).
Proof.
  intros Hlog Hr Hend Hdata. destruct (invalidate_Ok _ _ _ _ _ _ Hlog) as (s1&Hinv&Hlog1&Hfr1&Hm1&Hfst).
  unfold pmemobj_tx_add_snapshot. rewrite (bind_Ok _ _ _ _ _ Hinv). cbn [Z.eqb negb].
  pose proof Hlog1 as [Hi Hl Hlay Hp Hu Hf Hro Hpl Hh Hnn Hus Hk]. destruct Hr as [Hr1 Hr2 Hr3].
  pose proof big_logs as Hb1. pose proof big_parts as Hb2. unfold big in Hb1, Hb2. pose proof (un_ops _ _ _ _ Hu) as Hops.
  assert (base (p_ops (undo l)) = pop) as Hbase by (by rewrite Hops).
  destruct (add_buffer_Ok max_logs max_parts _ (undo l) pre post (pop + offset r) (pop + offset r) (Z.to_nat (size r)) Hu)
    as (v&p'&c'&pre'&post'&xs&n&Hrun&Hu'&_&Huser&Hents&Hpie&Hne&Hv); [lia|lia|rewrite Hbase; lia|rewrite Hbase; lia| |lia|].
  { intros q Hq. replace q with (pop + (q - pop)) by lia. apply Hdata. unfold covers. lia. }
  rewrite Z2Nat.id in Hrun by lia. pose proof (add_buffer_leaves _ _ _ _ _ _ _ _ _ _ _ _ Hrun) as Hst. injection Hst as _ _ Hul _ Hpr.
  rewrite (on_tx_undo_Ok _ _ _ _ _ _ _ Hi Hl Hrun). rewrite Hbase in Hpie.
  replace (pop + offset r - pop) with (offset r) in Hpie by lia. destruct (pieces_hold _ _ _ _ _ Hpie) as [Hho Hcov].
  assert (Z.of_nat n ≤ size r) as Hn by (destruct Hv as [[_ ->]|(_&?&_)]; lia).
  assert (∀ q, covered_by pop xs q → user q ∧ memory s q = m0 q) as Hxs.
  { intros q Hq%Hcov. replace q with (pop + (q - pop)) by lia. apply Hdata. unfold covers. lia. }
  assert (∀ q, covered_by pop (entries_of pre') q ↔ covered_by pop (entries_of pre) q ∨ covered_by pop xs q) as Hor.
  { intros q. rewrite Hents. unfold covered_by. setoid_rewrite elem_of_app. split; [intros (y&[?|?]&?); eauto|intros [(y&?&?)|(y&?&?)]; eauto]. }
  assert (Forall (holds pop m0) xs) as Hho0.
  { apply Forall_forall. intros y Hy. rewrite Forall_forall in Hho. unfold holds in *. rewrite (Hho y Hy) at 1.
    apply load_bytes_ext. intros q Hq. assert (covered_by pop xs q) as Hc by (exists y; unfold target; split; [done|lia]).
    change (bytes (l_pm (w_lanes s1)) q) with (memory s1 q). rewrite Hm1. by apply Hxs. }
  exists v, (put_undo i l p' c' s1), (set_undo c' l), pre', post', xs.
  assert (∀ q, user q → memory (put_undo i l p' c' s1) q = memory s q) as Hmem.
  { intros q Hq. unfold memory in *. cbn. rewrite Huser by done. by rewrite Hm1. }
  split; [done|]. split; [|split; [etrans; [exact Hfr1|by apply frame_put_undo]|split; [done|split; [done|]]]].
  - split; cbn [set_undo undo layout external]; try done.
    + by apply put_undo_at.
    + by rewrite Hul.
    + by rewrite Hpr.
    + cbn [put_undo the_tx]. rewrite Hfst, Hul in *. done.
    + by rewrite Hul.
    + rewrite Hents. by apply Forall_app.
    + rewrite Hents. by apply Forall_app.
    + intros q [Hq|Hq]%Hor; [by apply Hus|by apply Hxs].
    + intros q Hq Hn'. rewrite Hmem by done. rewrite Hor in Hn'. rewrite <-Hm1. apply Hk; tauto.
  - intros -> q Hq. rewrite Hor. right. apply Hcov. destruct Hv as [[_ ->]|([=]&_)]. unfold covers in Hq. lia.
Qed.

(** *** A transaction at work *)

Record working m0 i l pre post (x : tree tx_range_def) w : Prop := {
  wk_logged : logged m0 i l pre post w.2;
  wk_stage : stage (the_tx w.2) = TX_STAGE_WORK;
  wk_ranges : ranges (the_tx w.2) = true;
  wk_tree : tree_ok offset w.1 x;
  wk_sorted : ranges_ok (inorder x).*2;
  wk_covered : ∀ q, covered (inorder x).*2 (q - pop) → covered_by pop (entries_of pre) q;
  wk_kept : ∀ q, user q → ¬ covered (inorder x).*2 (q - pop) → memory w.2 q = m0 q;
}.
Lemma ranges_length (rs : list tx_range_def) : ranges_ok rs → Z.of_nat (length rs) ≤ U64.
Proof.
  intros [Hok Hsort]. assert (∀ a : Z, 0 ≤ a → a ≤ U64 → Forall (λ r, a ≤ offset r) rs → Z.of_nat (length rs) ≤ U64 - a) as Hgen.
  { induction Hsort as [|r rs _ IH Hr]; intros a H0 Ha Hall; simpl; [lia|]. apply Forall_cons in Hok as [[H1 H2 H3] Hok].
    apply Forall_cons in Hall as [Hra _]. specialize (IH Hok (offset r + size r)). rewrite Nat2Z.inj_succ.
    assert (Z.of_nat (length rs) ≤ U64 - (offset r + size r)); [apply IH; [lia|lia|exact Hr]|lia]. }
  specialize (Hgen 0). rewrite Z.sub_0_r in Hgen. apply Hgen; [done|done|].
  eapply Forall_impl; [exact Hok|]. intros r [H1 _ _]. exact H1.
Qed.

(** The invariant of the loop over the ranges: [s0] is the state before it. *)
Definition snapshotting m0 i (pre0 : list log) (s0 s : TS) : Prop :=
  ∃ l pre post xs, logged m0 i l pre post s ∧ frame s0 s ∧ (∀ q, user q → memory s q = memory s0 q) ∧
    entries_of pre = entries_of pre0 ++ xs.
(** The bytes that a snapshot may be taken of. *)
Definition loggable_at m0 s0 (o : Z) : Prop := user (pop + o) ∧ memory s0 (pop + o) = m0 (pop + o) ∧ o < 2 ^ 60.
Lemma loggable_range m0 s0 s r :
  ok_range r → (∀ o, covers r o → loggable_at m0 s0 o) → (∀ q, user q → memory s q = memory s0 q) →
  offset r + size r ≤ 2 ^ 60 ∧ unchanged_data m0 s r.
Proof.
  intros [H1 H2 H3] HP Hm. split.
  - destruct (HP (offset r + size r - 1)) as (_&_&?); [unfold covers; lia|lia].
  - intros o Ho. destruct (HP o Ho) as (Hu&<-&_). split; [done|]. by apply Hm.
Qed.
Lemma snapshotting_step m0 i pre0 s0 r s :
  snapshotting m0 i pre0 s0 s → ok_range r → (∀ o, covers r o → loggable_at m0 s0 o) →
  ∃ v s', pmemobj_tx_add_snapshot r s = Ok v s' ∧ snapshotting m0 i pre0 s0 s'.
Proof.
  intros (l&pre&post&xs&Hlog&Hfr&Hm&He) Hr HP. destruct (loggable_range m0 s0 s r Hr HP Hm) as [Hend Hun].
  destruct (snapshot_Ok m0 i l pre post s r Hlog Hr Hend Hun) as (v&s'&l'&pre'&post'&xs'&Hrun&Hlog'&Hfr'&Hm'&He'&_).
  exists v, s'. split; [done|]. exists l', pre', post', (xs ++ xs'). split; [done|]. split; [by etrans|].
  split; [by intros q Hq; rewrite Hm', Hm|]. by rewrite He', He, app_assoc.
Qed.
(** The snapshots of a list of ranges, if all are taken, cover them. *)
Lemma snaps_cover m0 i s0 rs l pre post s s' :
  logged m0 i l pre post s → (∀ q, user q → memory s q = memory s0 q) → Forall ok_range rs →
  (∀ o, covered rs o → loggable_at m0 s0 o) → snaps pmemobj_tx_add_snapshot rs s = Ok 0 s' →
  ∃ l' pre' post' xs, logged m0 i l' pre' post' s' ∧ frame s s' ∧ (∀ q, user q → memory s' q = memory s q) ∧
    entries_of pre' = entries_of pre ++ xs ∧ ∀ q, covered rs (q - pop) → covered_by pop (entries_of pre') q.
Proof.
  intros Hlog Hm Hok. revert l pre post s Hlog Hm. induction Hok as [|r rs Hr _ IH]; intros l pre post s Hlog Hm HP Hrun; simpl in Hrun.
  { injection Hrun as <-. exists l, pre, post, []. rewrite app_nil_r. repeat (split; [done|]). by intros q ?%covered_nil. }
  assert (∀ o, covers r o → loggable_at m0 s0 o) as HPr by (intros o Ho; apply HP; rewrite covered_cons; by left).
  destruct (loggable_range m0 s0 s r Hr HPr Hm) as [Hend Hun].
  destruct (snapshot_Ok m0 i l pre post s r Hlog Hr Hend Hun) as (v&s1&l1&pre1&post1&xs1&Hrun1&Hlog1&Hfr1&Hm1&He1&Hc1).
  rewrite (bind_Ok _ _ _ _ _ Hrun1) in Hrun. destruct (Z.eqb_spec v 0) as [->|Hv]; [|by injection Hrun].
  destruct (IH l1 pre1 post1 s1) as (l2&pre2&post2&xs2&Hlog2&Hfr2&Hm2&He2&Hc2).
  - done.
  - intros q Hq. by rewrite Hm1, Hm.
  - intros o Ho. apply HP. rewrite covered_cons. by right.
  - done.
  - exists l2, pre2, post2, (xs1 ++ xs2). split; [done|]. split; [by etrans|]. split; [by intros q Hq; rewrite Hm2, Hm1|].
    split; [by rewrite He2, He1, app_assoc|]. intros q. rewrite covered_cons. intros [Hq|Hq]; [|by apply Hc2].
    rewrite He2. destruct (Hc1 eq_refl q Hq) as (y&Hy&Ht). exists y. split; [apply elem_of_app; by left|done].
Qed.

Definition add_call (k : trace_call) s : TS := Txs (the_tx s) (w_lanes s) (w_heap s) (k :: calls s) (errno s).
Lemma trace_Ok k s : trace k s = Ok tt (add_call k s).
Proof. done. Qed.
Lemma logged_call m0 i l pre post k s : logged m0 i l pre post s → logged m0 i l pre post (add_call k s).
Proof. intros []. by split. Qed.
Lemma frame_stage s s' : frame s s' → stage (the_tx s') = stage (the_tx s).
Proof. intros [Hf _ _ _ _ _]. unfold fixed in Hf. congruence. Qed.
Lemma frame_ranges s s' : frame s s' → ranges (the_tx s') = ranges (the_tx s).
Proof. intros [Hf _ _ _ _ _]. unfold fixed in Hf. congruence. Qed.

(** The bytes of a range that is valid in the heap are data of the application. *)
Record in_heap (args : tx_range_def) : Prop := {
  ih_low : heap_offset ≤ offset args;
  ih_size : 0 ≤ size args ≤ PMEMOBJ_MAX_ALLOC_SIZE;
  ih_high : offset args + size args ≤ heap_offset + heap_size;
  ih_user : ∀ o, covers args o → user (pop + o);
}.
Lemma in_heap_ok args : in_heap args → size args = 0 ∨ ok_range args.
Proof using L.
  intros [H1 [H2 H2'] H3 _]. pose proof pool_size as (?&?&?).
  destruct (decide (size args = 0)); [by left|right]. split; unfold U64; lia.
Qed.

(** What adding a range gives: the range is covered, or the transaction aborts
    without memory. *)
Definition add_done m0 i (old : list tx_range_def) (args : tx_range_def) w (run : res TW Z) : Prop :=
  ∃ w' l pre post (x : tree tx_range_def), run = Ok 0 w' ∧ working m0 i l pre post x w' ∧ frame w.2 w'.2 ∧
    (∀ q, user q → memory w'.2 q = memory w.2 q) ∧ merged old (inorder x).*2 args.
Definition add_failed m0 i w (run : res TW Z) : Prop :=
  ∃ w' l pre post (x : tree tx_range_def), run = obj_tx_abort_err ENOMEM w' ∧ logged m0 i l pre post w'.2 ∧ frame w.2 w'.2 ∧
    tree_ok offset w'.1 x ∧ Z.of_nat (length (inorder x)) ≤ U64 + 1 .
Lemma add_loop_Ok m0 i l pre post (x : tree tx_range_def) w args :
  working m0 i l pre post x w → in_heap args →
  let run := (let! v := add_ranges Malloc_node pmemobj_tx_add_snapshot max_loops max_loops args args RAVL_PREDICATE_LESS_EQUAL 0 in
              if negb (v =? 0) then obj_tx_abort_err ENOMEM else ret 0) w in
  add_done m0 i (inorder x).*2 args w run ∨ add_failed m0 i w run.
Proof.
  intros Hw Hin. destruct w as [t s]. pose proof Hw as [Hlog Hst Hrg Ht Hso Hcov Hkept]. cbn [fst snd] in *.
  pose proof (ranges_length _ Hso) as Hlen. rewrite length_fmap in Hlen. pose proof big_loops as Hbig. unfold big, U64 in *.
  pose proof pool_size as (?&?&?).
  assert (∀ o, covers args o → ¬ covered (inorder x).*2 o → loggable_at m0 s o) as Hnew.
  { intros o Ho Hn. split; [by apply Hin|]. split; [|destruct Hin; unfold covers in Ho; lia]. apply Hkept; [by apply Hin|].
    by replace (pop + o - pop) with o by lia. }
  destruct (add_first Malloc_node node_fresh pmemobj_tx_add_snapshot (snapshotting m0 i pre s) (loggable_at m0 s)
    (λ r s1 HI Hr HP, snapshotting_step m0 i pre s r s1 HI Hr HP) max_loops max_loops args args t s x Ht Hso (in_heap_ok _ Hin))
    as [(e&t'&x'&s'&rs&Hrun&Ht'&Hsn&HI&Hlen'&Hdone)|(_&t'&x'&Hrun&Ht'&Hlen')].
  - lia.
  - lia.
  - exists l, pre, post, []. rewrite app_nil_r. done.
  - exact Hnew.
  - rewrite (bind_Ok _ _ _ _ _ Hrun). destruct (Z.eqb_spec e 0) as [->|He]; cbn [negb].
    + left. destruct (Hdone eq_refl) as [Hm [He1 _ He3]]. pose proof Hm as [Hm1 Hm2 _].
      destruct (snaps_cover m0 i s rs l pre post s s' Hlog) as (l2&pre2&post2&xs2&Hlog2&Hfr2&Hmem2&He2&Hc2); [done|done| |done|].
      { intros o [Ho1 Ho2]%He3. by apply Hnew. }
      exists (t', s'), l2, pre2, post2, x'. split; [done|]. split; [|by repeat (split; [done|])].
      split; cbn [fst snd]; [done|by rewrite (frame_stage _ _ Hfr2)|by rewrite (frame_ranges _ _ Hfr2)|done|done|..].
      * intros q [Hq|Hq]%Hm2.
        -- rewrite He2. destruct (Hcov q Hq) as (y&Hy&Hty). exists y. split; [apply elem_of_app; by left|done].
        -- destruct (decide (Exists (λ r, offset r ≤ q - pop < offset r + size r) (inorder x).*2)) as [Hex|Hex].
           ++ rewrite He2. apply Exists_exists in Hex. destruct (Hcov q Hex) as (y&Hy&Hty). exists y. split; [apply elem_of_app; by left|done].
           ++ apply Hc2, He3. split; [done|]. intros Hc. by apply Hex, Exists_exists.
      * intros q Hq Hn. rewrite Hmem2 by done. apply Hkept; [done|]. intros Hc. apply Hn, Hm2. by left.
    + right. destruct HI as (l2&pre2&post2&xs2&Hlog2&Hfr2&_&_). exists (t', s'), l2, pre2, post2, x'. repeat (split; [done|]).
      rewrite length_fmap in Hlen'. unfold U64. lia.
  - rewrite (bind_Ok _ _ _ _ _ Hrun). cbn [Z.eqb negb]. right. exists (t', s), l, pre, post, x'. repeat (split; [done|]). rewrite length_fmap in Hlen'. unfold U64. lia.
Qed.
End facts.
