(* ===== verification/TxAbort.v ===== *)
(** * Transactions: aborting

    Aborting the outermost transaction writes the old contents back, empties the
    undo log and releases the lane. *)
From stdpp Require Import base list strings sets gmap.
From S2P Require Import Prelude Pmem PmemFacts Ulog UlogFacts LogChain Memops MemopsFacts UndoFacts UndoEnd Lane LaneFacts LaneHold RedoFacts Palloc Ravl RavlTree RavlFacts TxRanges TxRangesFacts Tx TxOps TxRestore TxFacts.
Open Scope Z_scope.
#[local] Set Default Proof Using "Type".

(** Chains are smaller than the bounds. *)
Lemma ents_length xs : 64 * Z.of_nat (length xs) ≤ used xs.
Proof.
  induction xs as [|x xs IH]; [done|]. rewrite used_cons. simpl. unfold room. pose proof (lines_pos (Z.of_nat (length x.2))). lia.
Qed.
Lemma chain_bounds m ops gs n :
  chain_ok m ops gs → total_cap gs < MAX_LOGS → big n → (length gs < n)%nat ∧ Forall (λ g, (length (ents g) < n)%nat) gs.
Proof.
  intros [Hl _ _] Hsm Hn. unfold big, MAX_LOGS in *.
  assert (64 * Z.of_nat (length gs) ≤ total_cap gs ∧ Forall (λ g, cap g ≤ total_cap gs) gs) as [Hlen Hcap].
  { clear Hsm. induction Hl as [|g gs Hg Hl IH]; simpl; [by split; [|constructor]|]. destruct IH as [IH1 IH2].
    pose proof (total_cap_nonneg _ _ Hl). destruct (lg_cap _ _ Hg). pose proof (lg_lines _ _ Hg) as Hm.
    pose proof (Z.div_mod (cap g) 64 ltac:(done)). split; [lia|]. constructor; [lia|].
    eapply Forall_impl; [exact IH2|]. intros h Hh. simpl in Hh. lia. }
  split; [lia|]. rewrite Forall_forall in *. intros g Hg. specialize (Hcap g Hg). pose proof (lg_used _ _ (Hl g Hg)).
  pose proof (ents_length (ents g)). simpl in *. lia.
Qed.

Section abort.
Context {X H : Type} {E : TxEnv X H} {user : Z → Prop} {L : TxLaws E user}.
Abbreviation TW := (txw X H).
Abbreviation TS := (txs X H).
Implicit Types (s : TS) (w : TW) (l : lane) (m : mem) (c : operation_context) (i : Z).
Implicit Types (g : log) (gs pre post : list log).

(** No snapshot lies inside of the locks that the transaction holds. *)
Definition locks_apart (locks : list tx_lock_data) pre : Prop :=
  ∀ x, x ∈ entries_of pre → ∃ q, target pop x q ∧ ¬ locked locks q.
Lemma on_mem_Ok {A} (f : M pm A) s v p :
  f (l_pm (w_lanes s)) = Ok v p →
  on_mem f s = Ok v (Txs (the_tx s) (LaneState p (desc (w_lanes s)) (thread (w_lanes s))) (w_heap s) (calls s) (errno s)).
Proof. intros Hf. unfold on_mem, on_lanes, on_memory, zoom. by rewrite Hf. Qed.

Lemma on_heap_Ok {A} (f : M (pst H) A) s v p h :
  f (l_pm (w_lanes s), w_heap s) = Ok v (p, h) → on_heap f s = Ok v (Txs (the_tx s) (set_pm p (w_lanes s)) h (calls s) (errno s)).
Proof. intros Hf. unfold on_heap, zoom. by rewrite Hf. Qed.
(** The actions of a transaction that allocates nothing cancel to nothing. *)
Lemma cancel_Ok m0 i l pre post s (p : pst H) : logged m0 i l pre post s → palloc_cancel (actions (the_tx s)) p = Ok tt p.
Proof. intros Hlog. pose proof (lo_first _ _ _ _ _ _ Hlog) as Hf. destruct (first_snapshot (the_tx s)); [by destruct Hf as [-> _]|by rewrite Hf]. Qed.
Lemma on_lanes_Ok {A} (f : M lane_state A) s v ls :
  f (w_lanes s) = Ok v ls → on_lanes f s = Ok v (Txs (the_tx s) ls (w_heap s) (calls s) (errno s)).
Proof. intros Hf. unfold on_lanes, zoom. by rewrite Hf. Qed.

Lemma abort_set_Ok m0 i l pre post s :
  logged m0 i l pre post s → locks_apart (tx_locks (the_tx s)) pre →
  ∃ p c gs, tx_abort_set s = Ok tt (put_undo i l p c s) ∧ ready p c gs ∧ ulog c = ulog (undo l) ∧
    (∀ q, user q → ¬ locked (tx_locks (the_tx s)) q → bytes p q = m0 q) ∧
    (∀ q, user q → locked (tx_locks (the_tx s)) q → bytes p q = memory s q).
Proof.
  intros [Hi Hl Hlay Hp Hu _ _ _ Hh _ Hus Hk] Hap. set (locks := tx_locks (the_tx s)) in *.
  pose proof (visible_filled _ _ (un_filled _ _ _ _ Hu) (un_empty _ _ _ _ Hu)) as Hvis.
  pose proof (un_ops _ _ _ _ Hu) as Hops. pose proof (un_chain _ _ _ _ Hu) as Hc. rewrite Hops in Hc.
  pose proof (un_small _ _ _ _ Hu) as Hsm.
  destruct (chain_bounds _ _ _ _ Hc Hsm big_logs) as [Hlen _]. destruct (chain_bounds _ _ _ _ Hc Hsm big_entries) as [_ Hents].
  destruct (abort_walk range_malloc max_logs max_entries locks (pre ++ post) m0 (l_pm (w_lanes s)) Hc) as (p1&Hrun&Hcov&Hunc&Hlogs);
    rewrite ?Hvis; [|done|done|done|done|].
  { intros x q Hx Hq. apply (un_apart _ _ _ _ Hu). apply Hus. by exists x. }
  rewrite Hvis in Hcov, Hunc.
  assert (undo_ok p1 (undo l) pre post) as Hu1.
  { eapply undo_agree; [exact Hu|]. intros q Hq. apply Hunc. left. intros Hc'. by apply Hq, Hus. }
  destruct (finish_Ok max_logs max_entries p1 (undo l) pre post Hu1 Hp Hlen) as (p2&c2&gs&Hrun2&Hready&_&Hu2).
  exists p2, c2, gs. split; [|split; [done|split; [|split]]].
  - unfold tx_abort_set. rewrite (bind_Ok _ _ _ _ _ (lane_of_Ok s i Hi)), (bind_Ok _ _ _ _ _ (get_Ok _ s)).
    rewrite (bind_Ok (gets _) _ s (Some l) s) by (unfold gets; f_equal; exact Hl).
    rewrite Hlay, <-(un_first _ _ _ _ Hu). rewrite (bind_Ok _ _ _ _ _ (on_mem_Ok _ _ _ _ Hrun)).
    etrans; [eapply on_undo_Ok; [exact Hl|exact Hrun2]|]. done.
  - exact (finish_leaves _ _ _ _ _ _ _ _ Hrun2).
  - intros q Hq Hnl. rewrite Hu2 by done. destruct (decide (Exists (λ x, pop + x.1 ≤ q < pop + x.1 + Z.of_nat (length x.2)) (entries_of pre))) as [He|He].
    + apply Hcov; [|done]. by apply Exists_exists in He.
    + assert (¬ covered_by pop (entries_of pre) q) as Hn by (intros (x&?&?); apply He, Exists_exists; by exists x).
      rewrite Hunc by (by left). by apply Hk.
  - intros q Hq Hlk. rewrite Hu2 by done. apply Hunc. by right.
Qed.

Lemma clean_ranges (rs : list tx_range_def) s : for_each rs tx_clean_range s = Ok tt s.
Proof. induction rs as [|r rs IH]; [done|]. simpl. by erewrite (bind_Ok (tx_clean_range r)) by reflexivity. Qed.
Lemma delete_ranges_Ok f (t : ravl tx_range_def) s s' x :
  tree_ok offset t x → ranges (the_tx s) = true → (length (inorder x) < max_loops)%nat →
  for_each (inorder x).*2 f s = Ok tt s' → ∃ t', delete_ranges f (t, s) = Ok tt (t', s').
Proof.
  intros Ht Hr Hlen Hf. destruct (ok_repr _ _ _ Ht) as (Hat&Hroot&Hnd).
  destruct (clear_node_ok max_loops t 0 x Hat Hnd Hlen) as (t'&Hrun&_). exists t'. unfold delete_ranges.
  rewrite (bind_Ok _ _ _ _ _ (on_rest_Ok _ _ _ _ _ (get_Ok _ s))), Hr. cbn [negb].
  assert (ravl_delete_cb max_loops t = Ok (inorder x).*2 t') as Hdel.
  { unfold ravl_delete_cb. erewrite (bind_Ok (gets root)) by reflexivity. by rewrite Hroot. }
  rewrite (bind_Ok _ _ _ _ _ (on_tree_Ok _ _ s _ _ Hdel)). by rewrite (on_rest_Ok _ _ _ _ _ Hf).
Qed.

(** The transaction's own data after [tx_abort]. *)
Definition dropped (t : tx X) : tx X := set_ranges false (set_actions [] (actions_capacity t) t).
Lemma tx_abort_Ok m0 i l pre post (t : ravl tx_range_def) s x :
  logged m0 i l pre post s → locks_apart (tx_locks (the_tx s)) pre → ranges (the_tx s) = true →
  tree_ok offset t x → (length (inorder x) < max_loops)%nat →
  ∃ t' p c gs, let s1 := put_undo i l p c s in
    tx_abort (t, s) = Ok tt (t', Txs (dropped (the_tx s)) (w_lanes s1) (w_heap s) (calls s) (errno s)) ∧
    ready p c gs ∧ ulog c = ulog (undo l) ∧
    (∀ q, user q → ¬ locked (tx_locks (the_tx s)) q → bytes p q = m0 q) ∧
    (∀ q, user q → locked (tx_locks (the_tx s)) q → bytes p q = memory s q).
Proof.
  intros Hlog Hap Hr Ht Hlen. destruct (abort_set_Ok _ _ _ _ _ _ Hlog Hap) as (p&c&gs&Hrun&Hready&Hul&Hm1&Hm2).
  set (s1 := put_undo i l p c s) in *.
  destruct (delete_ranges_Ok tx_clean_range t s1 s1 x Ht) as (t'&Hdel); [done|done|apply clean_ranges|].
  pose proof (cancel_Ok _ _ _ _ _ _ (l_pm (w_lanes s1), w_heap s1) Hlog) as Hcancel.
  exists t', p, c, gs. split; [|done]. unfold tx_abort. rewrite (bind_Ok _ _ _ _ _ (on_rest_Ok _ _ _ _ _ Hrun)).
  rewrite (bind_Ok _ _ _ _ _ Hdel), (bind_Ok _ _ _ _ _ (on_rest_Ok _ _ _ _ _ (get_Ok _ s1))).
  rewrite (bind_Ok _ _ _ _ _ (on_rest_Ok _ _ _ _ _ (on_heap_Ok (palloc_cancel (actions (the_tx s))) s1 _ _ _ Hcancel))).
  reflexivity.
Qed.

(** The lane after a transaction: its undo log is empty, its lock is free, and
    the thread holds no lane. *)
Record lane_free i s : Prop := {
  lf_ready : ∃ l gs, lane_at s i = Some l ∧ ready (l_pm (w_lanes s)) (undo l) gs ∧ layout_undo (layout l) = ulog (undo l);
  lf_unlocked : lane_locks (desc (w_lanes s)) !! Z.to_nat i = Some 0;
  lf_thread : thread_ok uuid_lo (w_lanes s) ∧ nest_count (default new_info (info_of uuid_lo (w_lanes s))) = 0;
}.
(** The state after the outermost transaction is aborted with the error [e]. *)
Record aborted m0 i (e : Z) s s' : Prop := {
  ab_memory : ∀ q, user q → ¬ locked (tx_locks (the_tx s)) q → memory s' q = m0 q;
  ab_locks : ∀ q, user q → locked (tx_locks (the_tx s)) q → memory s' q = memory s q;
  ab_lane : lane_free i s';
  ab_tx : the_tx s' = set_last_errnum e (set_lane None (dropped (set_stage TX_STAGE_ONABORT (the_tx s))));
  ab_errno : errno s' = e;
  ab_calls : calls s' = calls s;
}.
Lemma holding_same i (ls ls' : lane_state) :
  holding uuid_lo i ls → fixed_desc (desc ls') = fixed_desc (desc ls) → thread ls' = thread ls → holding uuid_lo i ls'.
Proof.
  intros [H1 H2 H3 H4] Hd Ht. unfold fixed_desc in Hd. injection Hd as Hd1 _ Hd3 _.
  split; [congruence|by rewrite Ht|done|by rewrite Hd3].
Qed.
Lemma upd_rest f (t : ravl tx_range_def) s :
  on_rest (upd f) (t, s) = Ok tt (t, Txs (f (the_tx s)) (w_lanes s) (w_heap s) (calls s) (errno s)).
Proof. done. Qed.
Lemma get_rest {A} (f : tx X → A) (t : ravl tx_range_def) s : on_rest (get f) (t, s) = Ok (f (the_tx s)) (t, s).
Proof. done. Qed.
Lemma in_work_Ok (t : ravl tx_range_def) s : stage (the_tx s) = TX_STAGE_WORK → in_work (t, s) = Ok tt (t, s).
Proof.
  intros Hst. unfold in_work, ASSERT_IN_TX, ASSERT_TX_STAGE_WORK.
  assert (∀ b msg, (let! st := get stage in when (b st) (stop (ErrAbort msg))) s = when (b TX_STAGE_WORK) (stop (ErrAbort msg)) s) as Hb.
  { intros b msg. by rewrite (bind_Ok _ _ _ _ _ (get_Ok _ s)), Hst. }
  rewrite (bind_Ok _ _ _ tt (t, s)); apply on_rest_Ok; by rewrite Hb.
Qed.
Lemma no_callback (t : ravl tx_range_def) s : stage_callback (the_tx s) = 0 → obj_tx_callback (t, s) = Ok tt (t, s).
Proof. intros Hc. unfold obj_tx_callback. rewrite (bind_Ok _ _ _ _ _ (get_rest _ t s)). unfold id. by rewrite Hc. Qed.

Definition error_of (errnum : Z) : Z := if errnum =? 0 then ECANCELED else errnum.
Lemma logged_tx m0 i l pre post s t :
  logged m0 i l pre post s → tx_lane t = Some i → first_snapshot t = first_snapshot (the_tx s) → actions t = actions (the_tx s) →
  logged m0 i l pre post (Txs t (w_lanes s) (w_heap s) (calls s) (errno s)).
Proof. intros [] ? Hf Ha. split; try done. cbn. by rewrite Hf, Ha. Qed.
Lemma obj_tx_abort_Ok m0 i l pre post (t : ravl tx_range_def) s x env errnum :
  logged m0 i l pre post s → locks_apart (tx_locks (the_tx s)) pre → ranges (the_tx s) = true →
  tree_ok offset t x → (length (inorder x) < max_loops)%nat → stage (the_tx s) = TX_STAGE_WORK →
  tx_entries (the_tx s) = [env] → stage_callback (the_tx s) = 0 → holding uuid_lo i (w_lanes s) →
  ∃ t' s', obj_tx_abort errnum (t, s) = (if env =? 0 then Ok tt (t', s') else Abort (LongJump env (error_of errnum)) (t', s')) ∧
    aborted m0 i (error_of errnum) s s'.
Proof.
  intros Hlog Hap Hr Ht Hlen Hst Hent Hcb Hhold. unfold obj_tx_abort.
  pose proof (in_work_Ok t s Hst) as Hwork. unfold in_work in Hwork.
  assert (∀ A (k : M TW A), (on_rest ASSERT_IN_TX ;; on_rest ASSERT_TX_STAGE_WORK ;; k) (t, s) = k (t, s)) as Hw.
  { intros A k. unfold bind in *. destruct (on_rest ASSERT_IN_TX (t, s)) as [[] s1|]; [|done]. by rewrite Hwork. }
  rewrite Hw. rewrite (bind_Ok _ _ _ _ _ (get_rest _ t s)). rewrite (lo_lane _ _ _ _ _ _ Hlog), bool_decide_eq_false_2 by done.
  cbn [negb assert_]. erewrite (bind_Ok (ret tt)) by reflexivity. rewrite (bind_Ok _ _ _ _ _ (upd_rest _ t s)).
  set (s1 := Txs (set_stage TX_STAGE_ONABORT (the_tx s)) (w_lanes s) (w_heap s) (calls s) (errno s)).
  rewrite (bind_Ok _ _ (t, s1) (env, true) (t, s1)) by (apply on_rest_Ok; unfold innermost; rewrite (bind_Ok _ _ _ _ _ (get_Ok _ s1)); cbn; by rewrite Hent).
  cbn [fst snd when].
  assert (logged m0 i l pre post s1) as Hlog1 by (apply logged_tx; [done|apply Hlog|done|done]).
  destruct (tx_abort_Ok m0 i l pre post t s1 x Hlog1 Hap Hr Ht Hlen) as (t'&p&c&gs&Hrun&Hready&Hul&Hm1&Hm2).
  set (s2 := Txs (dropped (the_tx s1)) (w_lanes (put_undo i l p c s1)) (w_heap s1) (calls s1) (errno s1)) in *.
  assert (holding uuid_lo i (w_lanes s2)) as Hhold2.
  { eapply holding_same; [exact Hhold|..|done]. unfold fixed_desc. cbn. by rewrite length_insert. }
  destruct (release_Ok Malloc sizeof_lane_info os_tls_set critnib_insert uuid_lo has_remote_replicas _ _ Hhold2)
    as (ls&Hrel&Hpm&Hls&_&Hlk&Hth).
  erewrite bind_Ok.
  2: { rewrite (bind_Ok _ _ _ _ _ Hrun). rewrite (bind_Ok _ _ _ _ _ (on_rest_Ok _ _ _ _ _ (on_lanes_Ok lane_release s2 _ _ Hrel))).
       reflexivity. }
  rewrite (bind_Ok _ _ _ _ _ (upd_rest _ _ _)). erewrite (bind_Ok (on_rest (set_errno _))) by reflexivity.
  erewrite (bind_Ok obj_tx_callback) by (apply no_callback; exact Hcb). fold (error_of errnum).
  eexists t', _. split; [unfold when; destruct (env =? 0); reflexivity|]. split; try done.
  - intros q Hq Hnl. unfold memory. cbn. rewrite Hpm. by apply Hm1.
  - intros q Hq Hlk'. unfold memory. cbn. rewrite Hpm. by apply Hm2.
  - split; [|cbn; rewrite Hlk; apply list_lookup_insert_eq; by eapply lookup_lt_Some, Hhold|done].
    exists (set_undo c l), gs. unfold lane_at. cbn. rewrite Hls, Hpm. split; [|split; [done|by rewrite Hul; apply Hlog]].
    cbn. apply list_lookup_insert_eq. eapply lookup_lt_Some. apply Hlog.
Qed.
End abort.
