(* ===== verification/TxCommit.v ===== *)
(** * Transactions: committing

    Committing the outermost transaction flushes its ranges, invalidates the undo
    log by one store, empties it and releases the lane. *)
From stdpp Require Import base list strings sets gmap.
From S2P Require Import Prelude Pmem PmemFacts Ulog UlogFacts LogChain Memops MemopsFacts UndoFacts UndoEnd Lane LaneFacts LaneHold RedoFacts History Palloc PallocFacts Ravl RavlTree RavlFacts TxRanges TxRangesFacts Tx TxOps TxRestore TxFacts TxAbort.
Open Scope Z_scope.
#[local] Set Default Proof Using "Type".

Section commit.
Context {X H : Type} {E : TxEnv X H} {user : Z → Prop} {L : TxLaws E user}.
Abbreviation TW := (txw X H).
Abbreviation TS := (txs X H).
Implicit Types (s : TS) (w : TW) (l : lane) (m : mem) (c : operation_context) (i : Z).
Implicit Types (g : log) (gs pre post : list log) (rs : list tx_range_def).

Definition pm_events s : list pm_event := events (l_pm (w_lanes s)).
(** The state with more events. *)
Definition add_events (evs : list pm_event) s : TS :=
  Txs (the_tx s) (set_pm (Pm (memory s) (evs ++ pm_events s)) (w_lanes s)) (w_heap s) (calls s) (errno s).
Definition flush_of (r : tx_range_def) : list pm_event :=
  if has (flags r) POBJ_FLAG_NO_FLUSH then [] else [PFlush (pop + offset r) (size r)].
(** The flushes of the ranges, the last one first. *)
Definition flushes rs : list pm_event := reverse (concat (flush_of <$> rs)).

Lemma add_events_nil s : add_events [] s = s.
Proof. by destruct s as [t [[b e] d th] h k en]. Qed.
Lemma flush_run rs s : for_each rs tx_flush_range s = Ok tt (add_events (flushes rs) s).
Proof.
  revert s. induction rs as [|r rs IH]; intros s; [by rewrite add_events_nil|]. cbn [for_each].
  assert (tx_flush_range r s = Ok tt (add_events (flush_of r) s)) as Hr.
  { unfold tx_flush_range, flush_of. destruct (has _ _); [by rewrite add_events_nil|]. reflexivity. }
  rewrite (bind_Ok _ _ _ _ _ Hr), IH.
  assert (flushes (r :: rs) = flushes rs ++ flush_of r) as ->.
  { unfold flushes. rewrite fmap_cons. cbn [concat]. rewrite reverse_app. f_equal. unfold flush_of. by destruct (has _ _). }
  unfold add_events, pm_events, memory. cbn. by rewrite app_assoc.
Qed.
Lemma logged_events m0 i l pre post evs s : logged m0 i l pre post s → logged m0 i l pre post (add_events evs s).
Proof.
  intros []. split; try done. eapply undo_agree; [done|]. done.
Qed.

(** *** The external context *)

Lemma on_tx_external_Ok {A} (f : M opst A) s i l v p c :
  tx_lane (the_tx s) = Some i → lane_at s i = Some l → f (l_pm (w_lanes s), external l) = Ok v (p, c) →
  on_tx_external f s = Ok v
    (Txs (the_tx s) (LaneState p (Descriptor (runtime_nlanes (desc (w_lanes s))) (next_lane_idx (desc (w_lanes s))) (lane_locks (desc (w_lanes s)))
                                   (<[Z.to_nat i := set_external c l]> (lanes (desc (w_lanes s))))) (thread (w_lanes s)))
       (w_heap s) (calls s) (errno s)).
Proof.
  intros Hi Hl Hf. unfold on_tx_external. rewrite (bind_Ok _ _ _ _ _ (lane_of_Ok s i Hi)). unfold on_lanes, zoom, on_external.
  rewrite (bind_Ok (gets desc) _ _ (desc (w_lanes s)) (w_lanes s)) by done. unfold lane_at in Hl. rewrite Hl. unfold zoom. by rewrite Hf.
Qed.
(** The lane with another external context. *)
Definition put_external i l (p : pm) c s : TS :=
  Txs (the_tx s) (LaneState p (Descriptor (runtime_nlanes (desc (w_lanes s))) (next_lane_idx (desc (w_lanes s))) (lane_locks (desc (w_lanes s)))
                                (<[Z.to_nat i := set_external c l]> (lanes (desc (w_lanes s))))) (thread (w_lanes s)))
    (w_heap s) (calls s) (errno s).
Lemma on_external_heap_Ok {A} (f : M (cst H) A) s i l v p c :
  lane_at s i = Some l → f ((l_pm (w_lanes s), external l), w_heap s) = Ok v ((p, c), w_heap s) →
  on_external_heap i f s = Ok v (put_external i l p c s).
Proof.
  intros Hl Hf. unfold on_external_heap. rewrite (bind_Ok (gets _) _ s (desc (w_lanes s)) s) by done. unfold lane_at in Hl. rewrite Hl.
  unfold zoom. by rewrite Hf.
Qed.

(** Starting the redo operation, on the lane's context alone. *)
Lemma external_start (p : pm) c : external_ok c → operation_start (p, c) = Ok tt (p, set_progress true (reset c)).
Proof.
  intros Hc. unfold operation_start, operation_init.
  rewrite (bind_Ok _ _ _ _ _ (update_Ok _ p c)), (bind_Ok _ _ _ _ _ (ctx_Ok _ p _)).
  cbn [reset set_total set_curr set_merge set_log in_progress]. by rewrite (ex_idle _ Hc).
Qed.
Lemma on_pst_p {A} (f : M pm A) (p p' : pm) c (h : heap_rt H) v :
  f p = Ok v p' → on_pst (on_p f) ((p, c), h) = Ok v ((p', c), h).
Proof. intros Hf. unfold on_pst, on_p, zoom. cbn. by rewrite Hf. Qed.
Lemma on_ctx_Ok {A} (f : M opst A) (s s' : opst) (h : heap_rt H) v : f s = Ok v s' → on_ctx f (s, h) = Ok v (s', h).
Proof. intros Hf. unfold on_ctx, zoom. cbn. by rewrite Hf. Qed.

(** Publishing nothing. *)
Lemma publish_nothing (p : pm) c (h : heap_rt H) :
  external_ok c →
  palloc_publish [] ((p, set_progress true (reset c)), h)
    = Ok tt ((Pm (bytes p) (PDrain :: events p), set_progress false (reset c)), h).
Proof.
  intros Hc. unfold palloc_publish, palloc_exec_actions. rewrite (proj1 (Permutation_nil_r _) (qsort_perm [])).
  erewrite (bind_Ok (exec_locked _ _)) by reflexivity.
  rewrite (bind_Ok _ _ _ _ _ (on_pst_p (pmemops_drain heap_ops) p (Pm (bytes p) (PDrain :: events p)) _ h tt eq_refl)).
  set (p1 := Pm (bytes p) (PDrain :: events p)).
  assert (operation_finish pfree max_logs max_entries (p1, set_progress true (reset c)) = Ok tt (p1, set_progress false (reset c))) as Hfin.
  { unfold operation_finish. rewrite (bind_Ok _ _ _ _ _ (ctx_Ok _ p1 _)). erewrite (bind_Ok (assert_ _ _)) by reflexivity.
    rewrite (bind_Ok _ _ _ _ _ (update_Ok _ p1 _)), (bind_Ok _ _ _ _ _ (ctx_Ok id p1 _)). unfold id.
    cbn [set_progress reset set_total set_curr set_merge set_log type pshadow_ops log_offset].
    rewrite (ex_type _ Hc), bool_decide_true by done. cbn [Z.eqb negb andb]. by rewrite bool_decide_false. }
  rewrite (bind_Ok _ _ _ _ _ (on_ctx_Ok _ _ _ h _ Hfin)). by erewrite (bind_Ok (process_locked _ _)) by reflexivity.
Qed.
(** Publishing one word. *)
Definition word_events (e : Z) (sh : Z) (d : list Z) : list pm_event :=
  [PDrain; PFlush e 8; PWrite e (to_le 8 0) false; PDrain; PWrite sh d false].
Lemma publish_word (p : pm) c (h : heap_rt H) e :
  external_ok c → pop ≤ e < pop + 2 ^ 61 → OBJ_OFF_IS_VALID (e - pop) = true →
  ∃ d c', palloc_publish [POBJ_ACTION_TYPE_MEM e 0] ((p, set_progress true (reset c)), h)
      = Ok tt ((Pm (store_bytes (store_bytes (bytes p) (shadow_entry c) d) e (to_le 8 0)) (word_events e (shadow_entry c) d ++ events p), c'), h) ∧
    length d = 24%nat ∧ external_ok c'.
Proof.
  intros Hc He Hvalid. pose proof (ex_ops _ Hc) as Hops. pose proof (ex_capacity _ Hc) as Hcap.
  destruct (add_word Realloc vecq_room garbage p c e 0) as (d&p1&c1&Hadd&Hd&->&Hwl&Hk);
    [apply Hc|lia|by rewrite Hops|by rewrite Hops|done|].
  set (p1 := Pm _ _) in *. set (p2 := Pm (bytes p1) (PDrain :: events p1)). assert (word_loaded p2 c1 e 0) as Hwl2 by (by destruct Hwl; split).
  injection Hk as Hk1 Hk2 Hk3 Hk4 Hk5 Hk6 Hk7 Hk8. rewrite Hops in Hk2.
  destruct (finish_word pfree max_logs max_entries p2 c1 e 0 Hwl2) as (evs&Hfin&->). rewrite Hk2 in Hfin. cbn [persistent tx_ops app] in Hfin.
  exists d, (set_progress false c1). split; [|split; [done|]].
  - unfold palloc_publish, palloc_exec_actions. rewrite (proj1 (Permutation_singleton_r _ _) (qsort_perm [POBJ_ACTION_TYPE_MEM e 0])).
    assert (exec_locked None [POBJ_ACTION_TYPE_MEM e 0] ((p, set_progress true (reset c)), h) = Ok tt ((p1, c1), h)) as Hexec.
    { cbn [exec_locked new_lock lock_of]. unfold new_lock. rewrite bool_decide_false by done. cbn [lock_of Z.eqb orb].
      erewrite (bind_Ok (ret tt)) by reflexivity. unfold exec_action, palloc_mem_action_exec.
      erewrite bind_Ok; [reflexivity|]. by rewrite (bind_Ok _ _ _ _ _ (on_ctx_Ok _ _ _ h _ Hadd)). }
    rewrite (bind_Ok _ _ _ _ _ Hexec), (bind_Ok _ _ _ _ _ (on_pst_p (pmemops_drain heap_ops) p1 p2 _ h tt eq_refl)).
    rewrite (bind_Ok _ _ _ _ _ (on_ctx_Ok _ _ _ h _ Hfin)). reflexivity.
  - split; [by rewrite <-(ex_type _ Hc)|done|done|..]; cbn [set_progress ulog_capacity pshadow_ops]; rewrite ?Hk5, ?Hk7; [apply Hc|done|].
    unfold shadow_entry. cbn [set_progress pshadow_ops]. rewrite Hk8. apply Hc.
Qed.
Lemma put_external_at i l p c s : lane_at s i = Some l → lane_at (put_external i l p c s) i = Some (set_external c l).
Proof. intros Hl. unfold lane_at in *. cbn. apply list_lookup_insert_eq. by eapply lookup_lt_Some. Qed.
Lemma put_external_twice i l p c p' c' s : put_external i (set_external c l) p' c' (put_external i l p c s) = put_external i l p' c' s.
Proof. unfold put_external. cbn. by rewrite list_insert_insert_eq. Qed.

(** What publishing does to memory: the first word of the undo log becomes 0 if
    there is an entry, and otherwise is 0. *)
Record published pre (u : Z) (m m' : mem) : Prop := {
  pb_other : ∀ q, ¬ scratch q → m' q = m q ∨ total_used pre ≠ 0 ∧ ulog_data u ≤ q < ulog_data u + 8;
}.
Lemma publish_memory m0 i l pre post s d :
  logged m0 i l pre post s → length d = 24%nat →
  published pre (ulog (undo l)) (memory s)
    (store_bytes (store_bytes (memory s) (shadow_entry (external l)) d) (ulog_data (ulog (undo l))) (to_le 8 0)).
Proof.
  intros Hlog Hd. pose proof (lo_undo _ _ _ _ _ _ Hlog) as Hu. pose proof (lo_external _ _ _ _ _ _ Hlog) as Hx. split. intros q Hq.
  set (e := ulog_data (ulog (undo l))). assert (store_bytes (memory s) (shadow_entry (external l)) d q = memory s q) as Hsh.
  { apply store_out. rewrite Hd. destruct (decide (shadow_entry (external l) ≤ q < shadow_entry (external l) + 24)) as [Hin|]; [|lia].
    by destruct Hq; apply (ex_shadow _ Hx). }
  destruct (decide (e ≤ q < e + 8)) as [Hin|Hout]; [|left; rewrite store_out by (rewrite to_le_length; lia); done].
  destruct (decide (total_used pre = 0)) as [Hz|]; [left|by right].
  pose proof (un_nonempty _ _ _ _ Hu) as Hne. destruct (pre ++ post) as [|g0 rest] eqn:E0; [done|].
  assert (empty_log g0) as Hg0.
  { pose proof (ended_empty _ Hz) as He. pose proof (un_empty _ _ _ _ Hu) as Hp. assert (Forall empty_log (pre ++ post)) as Hall by (by apply Forall_app).
    rewrite E0 in Hall. by apply Forall_inv in Hall. }
  pose proof (un_first _ _ _ _ Hu) as Hfirst. rewrite E0 in Hfirst. simpl in Hfirst.
  pose proof (un_chain _ _ _ _ Hu) as Hc. rewrite E0 in Hc. pose proof (Forall_inv (ch_logs _ _ _ Hc)) as Hg.
  assert (memory s q = 0) as ->.
  { apply (lg_zero _ _ Hg). unfold free_at. rewrite Hg0, used_nil, Hfirst. destruct (lg_cap _ _ Hg). pose proof (lg_lines _ _ Hg).
    pose proof (Z.div_mod (cap g0) 64 ltac:(done)). unfold e in Hin. lia. }
  pose proof (store_in (store_bytes (memory s) (shadow_entry (external l)) d) e (to_le 8 0) (Z.to_nat (q - e))) as Hs.
  replace (e + Z.of_nat (Z.to_nat (q - e))) with q in Hs by lia. change (to_le 8 0) with (replicate 8 0) in *.
  rewrite length_replicate in Hs. rewrite lookup_replicate_2 in Hs by lia. specialize (Hs ltac:(lia)). congruence.
Qed.

(** The events of publishing: nothing but a fence, or one word. *)
Definition publish_events (first : bool) (e sh : Z) (d : list Z) : list pm_event := if first then [PDrain] else word_events e sh d.
Lemma publish_Ok m0 i l pre post s :
  logged m0 i l pre post s →
  let s0 := put_external i l (l_pm (w_lanes s)) (set_progress true (reset (external l))) s in
  on_tx_external operation_start s = Ok tt s0 ∧
  ∃ p c d, on_external_heap i (palloc_publish (actions (the_tx s))) s0 = Ok tt (put_external i l p c s) ∧ external_ok c ∧
    published pre (ulog (undo l)) (memory s) (bytes p) ∧
    events p = publish_events (first_snapshot (the_tx s)) (ulog_data (ulog (undo l))) (shadow_entry (external l)) d ++ pm_events s.
Proof.
  intros Hlog s0. pose proof Hlog as [Hi Hl Hlay Hp Hu Hf Hx Hpl Hh Hnn Hus Hk]. split.
  { by apply (on_tx_external_Ok operation_start s i l), external_start. }
  set (c0 := set_progress true (reset (external l))) in *. pose proof (put_external_at i l (l_pm (w_lanes s)) c0 s Hl) as Hl0. fold s0 in Hl0.
  destruct (first_snapshot (the_tx s)).
  - destruct Hf as [-> _]. exists (Pm (memory s) (PDrain :: pm_events s)), (set_progress false (reset (external l))), []. split; [|split; [|split; [|done]]].
    + rewrite <-(put_external_twice i l (l_pm (w_lanes s)) c0). apply on_external_heap_Ok; [done|]. by apply publish_nothing.
    + by destruct Hx; split.
    + split. auto.
  - rewrite Hf. destruct Hpl as [Hpl1 Hpl2].
    destruct (publish_word (l_pm (w_lanes s)) (external l) (w_heap s) (ulog_data (ulog (undo l))) Hx Hpl1 Hpl2) as (d&c&Hrun&Hd&Hc).
    eexists _, c, d. split; [|split; [done|]].
    { rewrite <-(put_external_twice i l (l_pm (w_lanes s)) c0). apply on_external_heap_Ok; [done|exact Hrun]. }
    split; [|done]. by apply (publish_memory m0 i l pre post).
Qed.
Lemma first_word_in (p : pm) c pre post q :
  undo_ok p c pre post → ulog_data (ulog c) ≤ q < ulog_data (ulog c) + 8 → in_logs (pre ++ post) q.
Proof.
  intros Hu Hin. pose proof (un_chain _ _ _ _ Hu) as Hc. pose proof (un_first _ _ _ _ Hu) as Hfirst. pose proof (un_nonempty _ _ _ _ Hu) as Hne.
  destruct (pre ++ post) as [|g0 rest]; [done|]. exists g0. split; [apply elem_of_cons; by left|]. simpl in Hfirst.
  pose proof (Forall_inv (ch_logs _ _ _ Hc)) as Hg. destruct (lg_cap _ _ Hg). pose proof (lg_lines _ _ Hg).
  pose proof (Z.div_mod (cap g0) 64 ltac:(done)). unfold inside, SIZEOF_ULOG, sizeof_ulog, ulog_data in *. lia.
Qed.
Lemma published_heap m0 i l pre post s (p : pm) :
  logged m0 i l pre post s → published pre (ulog (undo l)) (memory s) (bytes p) → heap_ok p (pre ++ post).
Proof.
  intros Hlog [Hpub]. pose proof (lo_undo _ _ _ _ _ _ Hlog) as Hu. set (e := ulog_data (ulog (undo l))) in *.
  set (p1 := Pm (λ q, if decide (e ≤ q < e + 8 ∧ total_used pre ≠ 0) then bytes p q else memory s q) []).
  apply (scratch_heap p1).
  - eapply heap_agree; [apply Hu|by apply Forall_Forall2_diag, Forall_true|]. intros q _ Hq. cbn [p1 bytes].
    destruct (decide (e ≤ q < e + 8 ∧ total_used pre ≠ 0)) as [[Hin _]|]; [|done]. destruct Hq. by eapply first_word_in.
  - intros q Hq. cbn [p1 bytes]. destruct (decide _) as [|Hn]; [done|]. destruct (Hpub q Hq) as [?|[??]]; [done|]. by destruct Hn.
Qed.
Lemma set_undo_external i l p c p' c' s :
  put_undo i (set_external c l) p' c' (put_external i l p c s) = put_undo i (set_external c l) p' c' s.
Proof. unfold put_undo, put_external. cbn. by rewrite list_insert_insert_eq. Qed.

(** The undo log is emptied after its first word. *)
Lemma post_commit_Ok m0 i l pre post s (p : pm) c :
  logged m0 i l pre post s → published pre (ulog (undo l)) (memory s) (bytes p) →
  ∃ p' c' gs, tx_post_commit (put_external i l p c s)
      = Ok tt (Txs (set_actions [] (actions_capacity (the_tx s)) (the_tx s)) (w_lanes (put_undo i (set_external c l) p' c' s)) (w_heap s) (calls s) (errno s)) ∧
    ready p' c' gs ∧ ulog c' = ulog (undo l) ∧ (∀ q, user q → bytes p' q = bytes p q) ∧ ∃ evs, events p' = evs ++ events p.
Proof.
  intros Hlog Hpub. pose proof Hlog as [Hi Hl Hlay Hp Hu _ _ _ _ _ _ _]. pose proof (published_heap _ _ _ _ _ _ _ Hlog Hpub) as Hheap.
  pose proof (un_chain _ _ _ _ Hu) as Hc. destruct (chain_bounds _ _ _ _ Hc (un_small _ _ _ _ Hu) big_logs) as [Hlen _].
  destruct (finish_voided max_logs max_entries (l_pm (w_lanes s)) p (undo l) pre post Hu Hheap) as (p'&c'&gs&Hrun&Hr&_&Hus).
  { intros q Hq. apply (pb_other _ _ _ _ Hpub). by eapply scratch_logs. }
  { done. }
  { done. }
  exists p', c', gs. split; [|split; [done|split; [|split; [done|]]]].
  - unfold tx_post_commit. pose proof (on_tx_undo_Ok (operation_finish pfree max_logs max_entries) (put_external i l p c s) i (set_external c l) tt p' c' Hi
      (put_external_at i l p c s Hl) Hrun) as Hfin.
    rewrite (bind_Ok _ _ _ _ _ Hfin), set_undo_external. reflexivity.
  - exact (finish_leaves _ _ _ _ _ _ _ _ Hrun).
  - pose proof (finish_grows pfree max_logs max_entries pfree_grows (p, undo l)) as Ht. by rewrite Hrun in Ht.
Qed.

(** The state after the outermost transaction is committed. *)
Record committed i rs s s' : Prop := {
  co_memory : ∀ q, user q → memory s' q = memory s q;
  co_lane : lane_free i s';
  co_tx : the_tx s' = set_lane None (set_actions [] (actions_capacity (the_tx s)) (set_ranges false (the_tx s)));
  co_events : ∃ evs l d, lane_at s i = Some l ∧
    pm_events s' = evs ++ publish_events (first_snapshot (the_tx s)) (ulog_data (layout_undo (layout l))) (shadow_entry (external l)) d
                     ++ PDrain :: flushes rs ++ pm_events s;
  co_rest : w_heap s' = w_heap s ∧ calls s' = calls s ∧ errno s' = errno s;
}.
Lemma commit_outermost_Ok m0 i l pre post (t : ravl tx_range_def) s x :
  logged m0 i l pre post s → ranges (the_tx s) = true → tree_ok offset t x → (length (inorder x) < max_loops)%nat →
  holding uuid_lo i (w_lanes s) →
  ∃ t' s', commit_outermost (t, s) = Ok tt (t', s') ∧ committed i (inorder x).*2 s s'.
Proof.
  intros Hlog Hr Ht Hlen Hhold. set (rs := (inorder x).*2). set (s1 := add_events (flushes rs) s).
  destruct (delete_ranges_Ok tx_flush_range t s s1 x Ht Hr Hlen (flush_run rs s)) as (t'&Hdel).
  set (s2 := add_events [PDrain] (Txs (set_ranges false (the_tx s1)) (w_lanes s1) (w_heap s1) (calls s1) (errno s1))).
  assert (logged m0 i l pre post s2) as Hlog2.
  { apply logged_events, logged_tx; [by apply logged_events|apply Hlog|done|done]. }
  destruct (publish_Ok m0 i l pre post s2 Hlog2) as (Hstart&p&c&d&Hpub&Hc&Hpb&Hev).
  destruct (post_commit_Ok m0 i l pre post s2 p c Hlog2 Hpb) as (p'&c'&gs&Hpost&Hready&Hul&Hmem&evs&Hevs).
  set (s5 := Txs _ _ _ _ _) in Hpost.
  assert (holding uuid_lo i (w_lanes s5)) as Hhold5.
  { eapply holding_same; [exact Hhold|..|done]. unfold fixed_desc. cbn. by rewrite length_insert. }
  destruct (release_Ok Malloc sizeof_lane_info os_tls_set critnib_insert uuid_lo has_remote_replicas _ _ Hhold5)
    as (ls&Hrel&Hpm&Hls&_&Hlk&Hth).
  exists t'. eexists. split.
  - unfold commit_outermost, tx_pre_commit. erewrite bind_Ok.
    2: { rewrite (bind_Ok _ _ _ _ _ Hdel), upd_rest. reflexivity. }
    erewrite (bind_Ok (on_rest (on_mem (pmemops_drain tx_ops)))) by (apply on_rest_Ok, on_mem_Ok; reflexivity).
    erewrite (bind_Ok (on_rest (on_tx_external operation_start))) by (apply on_rest_Ok; exact Hstart).
    erewrite (bind_Ok (on_rest (get actions))) by reflexivity.
    erewrite (bind_Ok (on_rest lane_of)) by (apply on_rest_Ok, lane_of_Ok; apply Hlog).
    erewrite (bind_Ok (on_rest (on_external_heap _ _))) by (apply on_rest_Ok; exact Hpub).
    erewrite (bind_Ok (on_rest tx_post_commit)) by (apply on_rest_Ok; exact Hpost).
    rewrite (bind_Ok _ _ _ _ _ (on_rest_Ok _ _ _ _ _ (on_lanes_Ok lane_release s5 _ _ Hrel))). reflexivity.
  - assert (l_pm ls = p') as Hp' by exact Hpm. split; [| |done| |done].
    + intros q Hq. unfold memory at 1. cbn. rewrite Hp', Hmem by done. destruct (pb_other _ _ _ _ Hpb q) as [->|[_ Hin]]; [by intros ?%scratch_user|done|].
      destruct (un_apart _ _ _ _ (lo_undo _ _ _ _ _ _ Hlog) q Hq). pose proof (lo_undo _ _ _ _ _ _ Hlog) as Hu. by eapply first_word_in.
    + split; [|cbn; rewrite Hlk; apply list_lookup_insert_eq; by eapply lookup_lt_Some, Hhold|done].
      exists (set_undo c' (set_external c l)), gs. unfold lane_at. cbn. rewrite Hls, Hp'. split; [|split; [done|by rewrite Hul; apply Hlog]].
      cbn. apply list_lookup_insert_eq. eapply lookup_lt_Some. apply Hlog.
    + exists evs, l, d. split; [apply Hlog|]. unfold pm_events at 1. cbn. rewrite Hp', Hevs, Hev, (lo_layout _ _ _ _ _ _ Hlog). done.
Qed.
End commit.
