(* ===== verification/TxSpec.v ===== *)
(** * Transactions: all or nothing

    A transaction as the program runs it: it begins, adds ranges, stores into
    them, and is aborted or interrupted by a crash.  All data of the application
    have their old contents afterwards. *)
From stdpp Require Import base list strings sets gmap.
From S2P Require Import Prelude Pmem PmemFacts Ulog UlogFacts LogChain Memops MemopsFacts UndoFacts UndoEnd UndoRecovery Lane LaneFacts LaneHold RedoFacts Palloc Ravl RavlTree RavlFacts TxRanges TxRangesFacts Tx TxOps TxRestore TxFacts TxAbort TxCommit.
Open Scope Z_scope.
#[local] Set Default Proof Using "Type".

(** The empty tree. *)
Definition no_ranges : tree tx_range_def := RavlTree.E.

Section begin.
Context {X H : Type} {E : TxEnv X H} {user : Z → Prop} {L : TxLaws E user}.
Abbreviation TW := (txw X H).
Abbreviation TS := (txs X H).
Implicit Types (s : TS) (w : TW) (l : lane) (m : mem) (c : operation_context) (i : Z) (t : ravl tx_range_def).
Implicit Types (g : log) (gs pre post : list log).

(** ** Beginning *)

(** A lane whose undo log is empty and whose redo log has room for an entry. *)
Definition lane_ready (p : pm) l : Prop :=
  (∃ gs, ready p (undo l) gs) ∧ layout_undo (layout l) = ulog (undo l) ∧ external_ok (external l) ∧ in_lanes (ulog (undo l)).
(** A thread outside of transactions, in a pool of which some lane gets free. *)
Record idle s : Prop := {
  id_stage : stage (the_tx s) = TX_STAGE_NONE;
  id_callback : stage_callback (the_tx s) = 0;
  id_thread : thread_ok uuid_lo (w_lanes s) ∧ nest_count (default new_info (info_of uuid_lo (w_lanes s))) = 0;
  id_lanes : 0 < runtime_nlanes (desc (w_lanes s)) < 2 ^ 32;
  id_free : lane_available other_threads max_attempts (runtime_nlanes (desc (w_lanes s))) (lane_locks (desc (w_lanes s)));
  id_length : runtime_nlanes (desc (w_lanes s)) ≤ Z.of_nat (length (lanes (desc (w_lanes s))));
  id_ready : Forall (lane_ready (l_pm (w_lanes s))) (lanes (desc (w_lanes s)));
}.
(** The outermost transaction of the thread, at work without locks. *)
Record outermost env i s : Prop := {
  ou_entries : tx_entries (the_tx s) = [env];
  ou_callback : stage_callback (the_tx s) = 0;
  ou_locks : tx_locks (the_tx s) = [];
  ou_holding : holding uuid_lo i (w_lanes s);
  ou_errnum : last_errnum (the_tx s) = 0;
  ou_pop : tx_pop (the_tx s) = pop;
}.
Lemma reset_twice c : reset (reset c) = reset c.
Proof. by destruct c. Qed.
Lemma ready_reset p c gs : ready p c gs → ready p (reset c) gs.
Proof. intros [H1 H2]. split; [by rewrite reset_twice|done]. Qed.
Lemma empty_tree n : tree_ok offset (ravl_new n) no_ranges.
Proof. split; [|constructor|done]. split; [done|]. split; [done|constructor]. Qed.

Lemma begin_outermost_Ok t s :
  idle s → ∃ n i l gs s', begin_outermost (t, s) = Ok tt (ravl_new n, s') ∧
    tx_lane (the_tx s') = Some i ∧ lane_at s' i = Some l ∧ layout_undo (layout l) = ulog (undo l) ∧
    external_ok (external l) ∧ in_lanes (ulog (undo l)) ∧ in_progress (undo l) = true ∧
    undo_ok (l_pm (w_lanes s')) (undo l) [] gs ∧ l_pm (w_lanes s') = l_pm (w_lanes s) ∧
    the_tx s' = set_first_snapshot true (set_pop pop (set_ranges true (set_actions [] 0 (set_entries [] (set_locks [] (set_lane (Some i) (the_tx s))))))) ∧
    holding uuid_lo i (w_lanes s') ∧ calls s' = calls s ∧ errno s' = errno s.
Proof.
  intros [Hst Hcb [Hth Hnest] Hn Hav Hlen Hready].
  destruct (hold_Ok Malloc sizeof_lane_info os_tls_set critnib_insert uuid_lo has_remote_replicas other_threads max_attempts
    lane_malloc tls_works critnib_works (w_lanes s) Hth Hnest Hn Hav Hlen) as (i&l&ls&Hrun&Hl&Hpm&Hls&Hhold).
  rewrite Forall_forall in Hready. destruct (Hready l) as ((gs&Hr)&Hlay&Hroom&Hpl); [by eapply list_elem_of_lookup_2|].
  unfold begin_outermost. rewrite (bind_Ok _ _ _ _ _ (on_rest_Ok _ _ _ _ _ (on_lanes_Ok lane_hold s _ _ Hrun))).
  rewrite (bind_Ok _ _ _ _ _ (upd_rest _ t _)). cbn [the_tx w_lanes w_heap calls errno].
  set (s1 := Txs (set_lane (Some i) (the_tx s)) ls (w_heap s) (calls s) (errno s)).
  assert (lane_at s1 i = Some (reset_lane l)) as Hl1.
  { unfold lane_at. cbn. rewrite Hls. apply list_lookup_insert_eq. by eapply lookup_lt_Some. }
  destruct (start_Ok (l_pm ls) (reset (undo l)) gs) as [Hstart Hu]; [rewrite Hpm; by apply ready_reset|].
  rewrite (bind_Ok _ _ _ _ _ (on_rest_Ok _ _ _ _ _ (on_tx_undo_Ok operation_start s1 i (reset_lane l) _ _ _ eq_refl Hl1 Hstart))).
  rewrite (bind_Ok _ _ _ _ _ (upd_rest _ t _)). cbn [the_tx w_lanes w_heap calls errno put_undo s1].
  erewrite (bind_Ok (on_rest (gets ravl_new_ok))) by (apply on_rest_Ok; unfold gets; rewrite tree_malloc; reflexivity).
  cbn [when]. erewrite (bind_Ok (on_tree _)) by reflexivity.
  eexists (mallocs t), i, (set_undo _ (reset_lane l)), gs, _. split; [reflexivity|].
  split; [done|]. split; [apply (put_undo_at i (reset_lane l) _ _ s1 Hl1)|].
  split; [done|]. split; [by destruct Hroom; split|]. split; [done|]. split; [done|]. split; [exact Hu|]. split; [done|]. split; [done|].
  split; [|done]. eapply holding_same; [exact Hhold|..|done]. unfold fixed_desc. cbn. by rewrite length_insert.
Qed.
Lemma begin_Ok t s env :
  idle s → ∃ t' s' i l gs, pmemobj_tx_begin pop env [] (t, s) = Ok 0 (t', s') ∧
    working (memory s) i l [] gs no_ranges (t', s') ∧ outermost env i s' ∧ memory s' = memory s ∧
    calls s' = pm_trace_tx_begin :: calls s ∧ tx_pop (the_tx s') = pop.
Proof.
  intros Hid. set (s0 := add_call pm_trace_tx_begin s). assert (idle s0) as Hid0 by (destruct Hid; by split).
  destruct (begin_outermost_Ok t s0 Hid0) as (n&i&l&gs&s1&Hrun&Hi&Hl&Hlay&Hroom&Hpl&Hp&Hu&Hpm&Htx&Hhold&Hcalls&_).
  unfold pmemobj_tx_begin. rewrite (bind_Ok _ _ _ _ _ (on_rest_Ok _ _ _ _ _ (trace_Ok _ s))). fold s0.
  rewrite (bind_Ok _ _ _ _ _ (get_rest _ t s0)). unfold id. rewrite (id_stage _ Hid0), Z.eqb_refl. cbn [negb when].
  erewrite (bind_Ok (ret tt)) by reflexivity. rewrite (bind_Ok _ _ _ _ _ Hrun).
  unfold enter_work. erewrite (bind_Ok (on_rest (gets Malloc_ok))) by (apply on_rest_Ok; unfold gets; rewrite tx_malloc; reflexivity).
  cbn [negb]. rewrite (bind_Ok _ _ _ _ _ (upd_rest _ _ _)), (bind_Ok _ _ _ _ _ (upd_rest _ _ _)), (bind_Ok _ _ _ _ _ (upd_rest _ _ _)).
  cbn [handle_params]. erewrite (bind_Ok (on_rest (ret 0))) by reflexivity. cbn [Z.eqb negb].
  eexists (ravl_new n), _, i, l, gs. split; [reflexivity|].
  assert (∀ q, covered_by pop (entries_of []) q → False) as Hnone by (by intros q (y&?%elem_of_nil&_)).
  split; [|split; [|split; [|split]]].
  - split; cbn [fst snd]; try done.
    + split; try done; try (cbn; by rewrite Htx); [by intros q ?%Hnone|].
      intros q _ _. unfold memory. cbn. by rewrite Hpm.
    + cbn. by rewrite Htx.
    + apply empty_tree.
    + split; constructor.
    + by intros q ?%covered_nil.
    + intros q _ _. unfold memory. cbn. by rewrite Hpm.
  - split; cbn; rewrite ?Htx; [done|apply Hid|done|done|done|done].
  - unfold memory. cbn. by rewrite Hpm.
  - cbn. by rewrite Hcalls.
  - cbn. by rewrite Htx.
Qed.
End begin.

(** ** The program of a transaction *)

Inductive tx_act :=
  | AddDirect (ptr sz : Z)
  | XaddDirect (ptr sz fl : Z)
  | AddOid (oid : PMEMoid) (hoff sz : Z)
  | Store (a : Z) (l : list Z).

Section acts.
Context {X H : Type} {E : TxEnv X H} {user : Z → Prop} {L : TxLaws E user}.
Abbreviation TW := (txw X H).
Abbreviation TS := (txs X H).
Implicit Types (s : TS) (w : TW) (l : lane) (m : mem) (i : Z) (t : ravl tx_range_def) (acts : list tx_act).
Implicit Types (g : log) (gs pre post : list log).

Definition run_act (a : tx_act) : M TW unit :=
  match a with
  | AddDirect ptr sz => pmemobj_tx_add_range_direct ptr sz ;; ret tt
  | XaddDirect ptr sz fl => pmemobj_tx_xadd_range_direct ptr sz fl ;; ret tt
  | AddOid oid hoff sz => pmemobj_tx_add_range oid hoff sz ;; ret tt
  | Store a l => on_rest (on_mem (put a l false))
  end.
Definition run_acts acts : M TW unit := for_each acts run_act.

(** The range that an action adds, and the ranges of addresses added so far. *)
Definition added_range (a : tx_act) : option tx_range_def :=
  match a with
  | AddDirect ptr sz => Some (Range (ptr - pop) sz 0)
  | XaddDirect ptr sz fl => Some (Range (ptr - pop) sz fl)
  | AddOid oid hoff sz => Some (Range (u64 (off oid + hoff)) sz 0)
  | Store _ _ => None
  end.
(** A program that adds valid ranges, and stores only into ranges it has added. *)
Fixpoint disciplined (added : list tx_range_def) acts : Prop :=
  match acts with
  | [] => True
  | a :: acts' =>
      match a with
      | AddDirect ptr _ => OBJ_PTR_FROM_POOL ptr = true
      | XaddDirect ptr _ fl => OBJ_PTR_FROM_POOL ptr = true ∧ unknown fl POBJ_XADD_VALID_FLAGS = false
      | AddOid oid _ _ => pool_uuid_lo oid = uuid_lo ∧ OBJ_OID_IS_VALID oid = true
      | Store p l => ∀ q, p ≤ q < p + Z.of_nat (length l) → covered added (q - pop)
      end ∧
      match added_range a with
      | Some r => in_heap (user := user) r ∧ disciplined (r :: added) acts'
      | None => disciplined added acts'
      end
  end.

Lemma add_common_Ok m0 i l pre post x t s args :
  working m0 i l pre post x (t, s) → in_heap (user := user) args →
  let w0 := (t, add_call (pm_trace_tx_addr_add (u64 (offset args + pop)) (size args)) s) in
  add_done (user := user) m0 i (inorder x).*2 args w0 (pmemobj_tx_add_common args (t, s)) ∨ add_failed m0 i w0 (pmemobj_tx_add_common args (t, s)).
Proof.
  intros Hw Hin w0. pose proof pool_size as (Hp1&Hp2&Hp3). pose proof Hin as [Hi1 Hi2 Hi3 _].
  assert (working m0 i l pre post x w0) as Hw0.
  { destruct Hw. split; try done. by apply logged_call. }
  assert (pmemobj_tx_add_common args (t, s)
    = (let! v := add_ranges Malloc_node pmemobj_tx_add_snapshot max_loops max_loops args args RAVL_PREDICATE_LESS_EQUAL 0 in
       if negb (v =? 0) then obj_tx_abort_err ENOMEM else ret 0) w0) as ->; [|by eapply add_loop_Ok].
  unfold pmemobj_tx_add_common. rewrite (bind_Ok _ _ _ _ _ (on_rest_Ok _ _ _ _ _ (trace_Ok _ s))). fold w0.
  rewrite (proj2 (Z.ltb_ge _ _)) by lia. rewrite !u64_small by (unfold U64; lia).
  rewrite (proj2 (Z.ltb_ge (offset args) _)), (proj2 (Z.ltb_ge (heap_offset + heap_size) _)) by lia. cbn [orb].
  rewrite (bind_Ok _ _ w0 true w0) by (unfold w0; rewrite get_rest; by rewrite <-(wk_ranges _ _ _ _ _ _ _ Hw)). done.
Qed.

(** The transaction at work, with the ranges added so far. *)
Definition NO_FLUSH (r : tx_range_def) : Prop := has (flags r) POBJ_FLAG_NO_FLUSH = true.
(** A range of the tree that is not flushed holds a byte of an added range that is
    not to be flushed. *)
Definition flags_from (added : list tx_range_def) (f : tx_range_def) : Prop :=
  NO_FLUSH f → ∃ r q, r ∈ added ∧ NO_FLUSH r ∧ covers r q ∧ covers f q.
Definition at_work m0 env i (added : list tx_range_def) w : Prop :=
  ∃ l pre post x, working m0 i l pre post x w ∧ outermost env i w.2 ∧ (∀ o, covered added o ↔ covered (inorder x).*2 o) ∧
    (∀ f, f ∈ (inorder x).*2 → flags_from added f).
Lemma flags_from_merged (added old new : list tx_range_def) args f :
  (∀ f0, f0 ∈ old → flags_from added f0) → merged old new args → f ∈ new → flags_from (args :: added) f.
Proof.
  intros Hold [_ _ Hfl] [(f0&Hf0&Hff&Hc)|[Hff (q&Hq1&Hq2)]]%Hfl Hnf; unfold NO_FLUSH in Hnf.
  - rewrite <-Hff in Hnf. destruct (Hold f0 Hf0 Hnf) as (r&q&Hr&Hnr&Hrq&Hfq). exists r, q. split; [by right|auto].
  - exists args, q. split; [by left|]. unfold NO_FLUSH. by rewrite <-Hff.
Qed.
(** The transaction was aborted: control is at its [setjmp], the data are as before. *)
Definition jumped m0 env i (r : res TW unit) : Prop :=
  ∃ w' e, r = Abort (LongJump env e) w' ∧ (∀ q, user q → memory w'.2 q = m0 q) ∧ lane_free i w'.2 ∧
    stage (the_tx w'.2) = TX_STAGE_ONABORT ∧ tx_lane (the_tx w'.2) = None ∧ last_errnum (the_tx w'.2) = e.

Lemma outermost_frame env i s s' : outermost env i s → frame s s' → outermost env i s'.
Proof.
  intros [H1 H2 H3 H4 H5 H6] [Hf _ _ _ Ht Hd]. unfold fixed in Hf. split; [congruence..| |congruence|congruence]. by eapply holding_same.
Qed.
Lemma abort_jumps m0 env i l pre post x t s errnum :
  env ≠ 0 → logged m0 i l pre post s → tree_ok offset t x → (length (inorder x) < max_loops)%nat →
  stage (the_tx s) = TX_STAGE_WORK → ranges (the_tx s) = true → outermost env i s →
  jumped m0 env i (obj_tx_abort errnum (t, s)).
Proof.
  intros Henv Hlog Ht Hlen Hst Hr [He Hc Hl Hh _ _].
  assert (∀ q, ¬ locked (tx_locks (the_tx s)) q) as Hnl by (rewrite Hl; by intros q (k&?%elem_of_nil&_)).
  destruct (obj_tx_abort_Ok m0 i l pre post t s x env errnum Hlog) as (t'&s'&Hrun&[Hm _ Hlane Htx _ _]); [|done..|].
  { intros y Hy. pose proof (lo_nonempty _ _ _ _ _ _ Hlog) as Hne. rewrite Forall_forall in Hne. specialize (Hne y Hy).
    exists (pop + y.1). split; [|apply Hnl]. unfold target. destruct y.2; [done|]. simpl. lia. }
  rewrite (proj2 (Z.eqb_neq env 0)) in Hrun by done. exists (t', s'), (error_of errnum). split; [done|]. cbn [snd].
  split; [intros q Hq; by apply Hm|]. split; [done|]. by rewrite Htx.
Qed.
Lemma jumped_bind m0 env i (f : M TW unit) (k : unit → M TW unit) w : jumped m0 env i (f w) → jumped m0 env i (bind f k w).
Proof. intros (w'&e&Hr&Hrest). exists w', e. split; [|done]. unfold bind. by rewrite Hr. Qed.

Lemma add_act m0 env i added t s args :
  env ≠ 0 → at_work m0 env i added (t, s) → in_heap (user := user) args →
  let run := (pmemobj_tx_add_common args ;; ret tt) (t, s) in
  (∃ w', run = Ok tt w' ∧ at_work m0 env i (args :: added) w') ∨ jumped m0 env i run.
Proof.
  intros Henv (l&pre&post&x&Hw&Hout&Hadd&Hnf) Hin run.
  assert (outermost env i (add_call (pm_trace_tx_addr_add (u64 (offset args + pop)) (size args)) s)) as Hout0 by (by destruct Hout; split).
  destruct (add_common_Ok m0 i l pre post x t s args Hw Hin)
    as [(w'&l'&pre'&post'&x'&Hrun&Hw'&Hfr&_&Hm)|(w'&l'&pre'&post'&x'&Hrun&Hlog&Hfr&Ht&Hlen)].
  - left. exists w'. split; [unfold run; by rewrite (bind_Ok _ _ _ _ _ Hrun)|]. exists l', pre', post', x'. split; [done|].
    split; [by eapply outermost_frame|]. split; [|intros f Hf; by eapply flags_from_merged].
    intros o. rewrite covered_cons, (mg_bytes _ _ _ Hm), <-Hadd. tauto.
  - right. destruct w' as [t' s']. cbn [fst snd] in *. pose proof (frame_stage _ _ Hfr) as Hst. pose proof (frame_ranges _ _ Hfr) as Hr.
    assert (run = (obj_tx_abort ENOMEM ;; (ret ENOMEM ;; ret tt)) (t', s')) as ->.
    { unfold run. unfold bind at 1. rewrite Hrun. unfold obj_tx_abort_err, bind. by destruct (obj_tx_abort ENOMEM (t', s')). }
    apply jumped_bind. eapply abort_jumps; [done|exact Hlog|exact Ht| |..|by eapply outermost_frame].
    + pose proof big_loops as Hb. unfold big, U64 in *. lia.
    + rewrite Hst. apply Hw.
    + rewrite Hr. apply Hw.
Qed.

(** A store into ranges of the transaction. *)
Lemma store_act m0 env i added t s a (d : list Z) :
  at_work m0 env i added (t, s) → (∀ q, a ≤ q < a + Z.of_nat (length d) → covered added (q - pop)) →
  ∃ w', on_rest (on_mem (put a d false)) (t, s) = Ok tt w' ∧ at_work m0 env i added w'.
Proof.
  intros (l&pre&post&x&Hw&Hout&Hadd&Hnf) Hd. eexists. split; [apply on_rest_Ok, on_mem_Ok; reflexivity|].
  exists l, pre, post, x. split; [|split; [destruct Hout as [H1 H2 H3 H4 H5 H6]; split; [done..|by eapply holding_same|done|done]|done]].
  pose proof Hw as [[Hi Hl Hlay Hp Hu Hf Hr Hpl Hh Hne Hus Hk] Hst Hrg Ht Hso Hcov Hkept]. cbn [fst snd] in *.
  assert (∀ q, ¬ covered (inorder x).*2 (q - pop) → store_bytes (memory s) a d q = memory s q) as Hout'.
  { intros q Hq. apply store_out. destruct (decide (a ≤ q < a + Z.of_nat (length d))) as [Hq'|]; [|lia].
    destruct Hq. by apply Hadd, Hd. }
  split; cbn [fst snd]; try done.
  - split; try done.
    + eapply undo_agree; [exact Hu|]. intros q Hq. cbn [bytes l_pm w_lanes]. apply Hout'. intros Hc. by apply Hq, Hus, Hcov.
    + intros q Hq Hn. unfold memory at 1. cbn [bytes l_pm w_lanes]. rewrite Hout' by (intros Hc; by apply Hn, Hcov). by apply Hk.
  - intros q Hq Hn. unfold memory at 1. cbn [bytes l_pm w_lanes]. rewrite Hout' by done. by apply Hkept.
Qed.
Lemma work_Ok A (k : M TW A) t s : stage (the_tx s) = TX_STAGE_WORK → (in_work ;; k) (t, s) = k (t, s).
Proof. intros Hst. by rewrite (bind_Ok _ _ _ _ _ (in_work_Ok t s Hst)). Qed.
(** Adding is adding the range. *)
Lemma run_add a r t s :
  stage (the_tx s) = TX_STAGE_WORK → added_range a = Some r → disciplined [] [a] →
  run_act a (t, s) = (pmemobj_tx_add_common r ;; ret tt) (t, s).
Proof.
  intros Hst Hr [Ha _]. unfold bind at 1. destruct a as [ptr sz|ptr sz fl|oid hoff sz|]; [..|done]; injection Hr as <-; cbn [run_act]; unfold bind at 1.
  - unfold pmemobj_tx_add_range_direct. by rewrite (work_Ok _ _ _ _ Hst), Ha.
  - destruct Ha as [Ha1 Ha2]. unfold pmemobj_tx_xadd_range_direct. by rewrite (work_Ok _ _ _ _ Hst), Ha1, Ha2.
  - destruct Ha as [Ha1 Ha2]. unfold pmemobj_tx_add_range. rewrite (work_Ok _ _ _ _ Hst), Ha1, Z.eqb_refl, Ha2. cbn [negb assert_].
    by erewrite (bind_Ok (ret tt)) by reflexivity.
Qed.

Definition added_by acts : list tx_range_def := omap added_range acts.
Lemma at_work_same m0 env i (added added' : list tx_range_def) w :
  (∀ r, r ∈ added ↔ r ∈ added') → at_work m0 env i added w → at_work m0 env i added' w.
Proof.
  intros Hin (l&pre&post&x&Hw&Hout&Hadd&Hnf). exists l, pre, post, x. split; [done|]. split; [done|]. split.
  - intros o. rewrite <-Hadd. unfold covered. by setoid_rewrite Hin.
  - intros f Hf Hn. destruct (Hnf f Hf Hn) as (r&q&Hr&Hrest). exists r, q. by rewrite <-Hin.
Qed.
Lemma acts_Ok m0 env i added acts w :
  env ≠ 0 → at_work m0 env i added w → disciplined added acts →
  (∃ w', run_acts acts w = Ok tt w' ∧ at_work m0 env i (added_by acts ++ added) w') ∨ jumped m0 env i (run_acts acts w).
Proof.
  intros Henv. revert added w. induction acts as [|a acts IH]; intros added [t s] Hw Hd; [left; by exists (t, s)|].
  assert (stage (the_tx s) = TX_STAGE_WORK) as Hst by (destruct Hw as (l&pre&post&x&Hw&_); apply Hw).
  unfold run_acts in *. cbn [for_each]. destruct Hd as [Hv Hrest]. destruct (added_range a) as [r|] eqn:Hr.
  - destruct Hrest as [Hin Hrest]. pose proof (add_act m0 env i added t s r Henv Hw Hin) as Hadd. cbv zeta in Hadd.
    rewrite <-(run_add a r t s Hst Hr) in Hadd.
    2: { simpl. rewrite Hr. split; [|done]. by destruct a. }
    destruct Hadd as [(w'&Hrun&Hw')|Hj]; [|right; by apply jumped_bind].
    rewrite (bind_Ok _ _ _ _ _ Hrun). destruct (IH (r :: added) w' Hw' Hrest) as [(w2&Hrun2&Hw2)|Hj]; [|by right].
    left. exists w2. split; [done|]. eapply at_work_same, Hw2. intros r'. unfold added_by. cbn [omap list_omap]. rewrite Hr.
    cbn [app]. rewrite elem_of_cons, !elem_of_app, elem_of_cons. tauto.
  - destruct a as [| | |p d]; [done..|]. destruct (store_act m0 env i added t s p d Hw Hv) as (w'&Hrun&Hw').
    cbn [run_act]. rewrite (bind_Ok _ _ _ _ _ Hrun). unfold added_by. cbn [omap list_omap added_range]. by apply (IH added).
Qed.
Lemma begin_at_work env w : idle w.2 → ∃ w' i, pmemobj_tx_begin pop env [] w = Ok 0 w' ∧ at_work (memory w.2) env i [] w'.
Proof.
  destruct w as [t s]. intros Hid. destruct (begin_Ok t s env Hid) as (t'&s'&i&l&gs&Hrun&Hw&Hout&_).
  exists (t', s'), i. split; [done|]. exists l, [], gs, no_ranges. split; [done|]. split; [done|]. split; [done|]. by intros f ?%elem_of_nil.
Qed.

(** The log of a transaction at work, whatever the stores into its ranges left. *)
Lemma crash_recovers m0 env i added w p :
  at_work m0 env i added w → (∀ q, ¬ covered added (q - pop) → bytes p q = memory w.2 q) →
  ∃ l gs, lane_at w.2 i = Some l ∧ first_addr gs = layout_undo (layout l) ∧ chain_ok (bytes p) tx_ops gs ∧
    ∀ c, opened p c gs → p_ops c = tx_ops →
      ∃ p' c', recover_lane pfree max_logs max_entries (p, c) = Ok tt (p', c') ∧ ∀ q, user q → bytes p' q = m0 q.
Proof.
  intros (l&pre&post&x&[Hlog _ _ _ _ Hcov Hkept]&_&Hadd&_) Hp. pose proof Hlog as [Hi Hl Hlay _ Hu _ _ _ Hh _ Hus _].
  assert (∀ q, covered added (q - pop) → covered_by pop (entries_of pre) q) as Hin by (intros q Hq; by apply Hcov, Hadd).
  assert (undo_ok p (undo l) pre post) as Hup.
  { eapply undo_agree; [exact Hu|]. intros q Hq. apply Hp. intros Hc. by apply Hq, Hus, Hin. }
  pose proof (un_chain _ _ _ _ Hup) as Hc. pose proof (un_ops _ _ _ _ Hup) as Hops. rewrite Hops in Hc.
  pose proof (visible_filled _ _ (un_filled _ _ _ _ Hu) (un_empty _ _ _ _ Hu)) as Hvis. pose proof (un_small _ _ _ _ Hu) as Hsm.
  destruct (chain_bounds _ _ _ _ Hc Hsm big_logs) as [Hlen _]. destruct (chain_bounds _ _ _ _ Hc Hsm big_entries) as [_ Hents].
  exists l, (pre ++ post). split; [done|]. split; [by rewrite Hlay, (un_first _ _ _ _ Hu)|]. split; [done|]. intros c Ho Hoc.
  destruct (recover_any max_logs max_entries p c (pre ++ post) m0) as (p'&c'&Hrun&H1&H2);
    rewrite ?Hvis; [done|apply Hup|apply Hup|done..|].
  rewrite Hvis in H1, H2. exists p', c'. split; [exact Hrun|]. intros q Hq.
  destruct (decide (Exists (λ x, pop + x.1 ≤ q < pop + x.1 + Z.of_nat (length x.2)) (entries_of pre))) as [He|He].
  - apply H1. by apply Exists_exists in He.
  - assert (¬ covered_by pop (entries_of pre) q) as Hn by (intros (y&?&?); apply He, Exists_exists; by exists y).
    rewrite H2, Hp by auto. apply Hkept; [done|]. auto.
Qed.

(** Once the first entry is invalid there is nothing to recover. *)
Lemma invalid_recovers m0 env i added w l (p : pm) c :
  at_work m0 env i added w → lane_at w.2 i = Some l → type c = LOG_TYPE_UNDO → in_progress c = false →
  ulog c = layout_undo (layout l) → log_capacity (pshadow_ops c) `mod` 64 = 0 →
  le64 (bytes p) (ulog_data (ulog c)) = 0 → le64 (bytes p) (ulog_capacity_at (ulog c)) = le64 (memory w.2) (ulog_capacity_at (ulog c)) →
  ∃ c', recover_lane pfree max_logs max_entries (p, c) = Ok tt (p, c').
Proof.
  intros (l'&pre&post&x&[Hlog _ _ _ _ _ _]&_&_) Hl Hty Hidle Hu Hsh H0 Hcap. rewrite (lo_at _ _ _ _ _ _ Hlog) in Hl. injection Hl as ->.
  rewrite (lo_layout _ _ _ _ _ _ Hlog) in Hu. pose proof (lo_undo _ _ _ _ _ _ Hlog) as Hun.
  pose proof (un_chain _ _ _ _ Hun) as Hc. pose proof (un_first _ _ _ _ Hun) as Hfirst. pose proof (un_nonempty _ _ _ _ Hun) as Hne.
  destruct (pre ++ post) as [|g0 rest]; [done|]. pose proof (Forall_inv (ch_logs _ _ _ Hc)) as Hg. simpl in Hfirst. rewrite <-Hfirst in Hu.
  destruct (lg_cap _ _ Hg). pose proof big_logs as Hb1. pose proof big_entries as Hb2. unfold big in *.
  unfold recover_lane. apply recover_invalid; [done|done|rewrite Hu; apply (lg_nonzero _ _ Hg)|done| |done|lia|lia].
  rewrite Hcap, Hu. unfold memory. by rewrite (lg_field _ _ Hg).
Qed.

(** Byte [o] is in one stretch of added bytes with a byte of a range that was added
    with [POBJ_FLAG_NO_FLUSH].  The ranges of such a stretch may be merged into one
    with the flag. *)
Definition near_no_flush (added : list tx_range_def) (o : Z) : Prop :=
  ∃ r q, r ∈ added ∧ NO_FLUSH r ∧ covers r q ∧ ∀ z, Z.min o q ≤ z ≤ Z.max o q → covered added z.
Definition flushed_by (evs : list pm_event) (a : Z) : Prop := ∃ b n, PFlush b n ∈ evs ∧ b ≤ a < b + n.
Definition is_flush (e : pm_event) : Prop := ∃ b n, e = PFlush b n.
Lemma flushes_all rs : Forall is_flush (flushes rs).
Proof.
  unfold flushes. apply Forall_reverse, Forall_concat, Forall_fmap, Forall_true. intros r. unfold compose, flush_of.
  destruct (has _ _); [done|]. constructor; [|done]. by eexists _, _.
Qed.
Lemma flushes_in rs r o : r ∈ rs → ¬ NO_FLUSH r → covers r o → flushed_by (flushes rs) (pop + o).
Proof.
  intros Hr Hn Ho. exists (pop + offset r), (size r). split; [|unfold covers in Ho; lia].
  unfold flushes. rewrite elem_of_reverse, list_elem_of_In, in_concat. exists (flush_of r).
  rewrite <-!list_elem_of_In. split; [by apply list_elem_of_fmap_2|]. unfold flush_of. unfold NO_FLUSH in Hn.
  destruct (has _ _); [done|]. by left.
Qed.
Lemma far_flushed (added rs : list tx_range_def) o :
  (∀ o, covered added o ↔ covered rs o) → (∀ f, f ∈ rs → flags_from added f) → covered added o → ¬ near_no_flush added o →
  flushed_by (flushes rs) (pop + o).
Proof.
  intros Hc Hfl Ho Hfar. pose proof (proj1 (Hc o) Ho) as (f&Hf&Hfo). apply (flushes_in _ f); [done| |done].
  intros (r&q&Hr&Hnr&Hrq&Hfq)%(Hfl f Hf). apply Hfar. exists r, q. split; [done|]. split; [done|]. split; [done|].
  intros z Hz. apply Hc. exists f. split; [done|]. unfold covers in *. lia.
Qed.

(** The transaction commits and ends. *)
Lemma commit_Ok m0 env i added w :
  at_work m0 env i added w →
  ∃ w' rs, pmemobj_tx_commit w = Ok tt w' ∧ (∀ o, covered added o → ¬ near_no_flush added o → flushed_by (flushes rs) (pop + o)) ∧ ∃ s1, committed i rs w.2 s1 ∧
    w'.2 = Txs (set_stage TX_STAGE_ONCOMMIT (the_tx s1)) (w_lanes s1) (w_heap s1) (calls s1) (errno s1).
Proof.
  destruct w as [t s]. intros (l&pre&post&x&Hw&[He Hcb Hlk Hh Herr Hpop]&Hadd&Hnf). pose proof Hw as [Hlog Hst Hr Ht Hso _ _]. cbn [fst snd] in *.
  pose proof (ranges_length _ Hso) as Hlen. rewrite length_fmap in Hlen.
  destruct (commit_outermost_Ok m0 i l pre post t s x Hlog Hr Ht) as (t'&s1&Hrun&Hco); [pose proof big_loops as Hb; unfold big, U64 in *; lia|done|].
  exists (t', Txs (set_stage TX_STAGE_ONCOMMIT (the_tx s1)) (w_lanes s1) (w_heap s1) (calls s1) (errno s1)), (inorder x).*2.
  split; [|split; [intros o Ho Hfar; by eapply far_flushed|by exists s1]]. unfold pmemobj_tx_commit. pose proof (in_work_Ok t s Hst) as Hwork. unfold in_work in Hwork.
  assert (∀ A (k : M TW A), (on_rest ASSERT_IN_TX ;; on_rest ASSERT_TX_STAGE_WORK ;; k) (t, s) = k (t, s)) as Hin.
  { intros A k. unfold bind in *. destruct (on_rest ASSERT_IN_TX (t, s)) as [[] s2|]; [|done]. by rewrite Hwork. }
  rewrite Hin. rewrite (bind_Ok _ _ _ _ _ (no_callback t s Hcb)), (bind_Ok _ _ _ _ _ (get_rest _ t s)), (lo_lane _ _ _ _ _ _ Hlog).
  rewrite bool_decide_eq_false_2 by done. cbn [negb assert_]. erewrite (bind_Ok (ret tt)) by reflexivity.
  rewrite (bind_Ok _ _ (t, s) (env, true) (t, s)) by (apply on_rest_Ok; unfold innermost; rewrite (bind_Ok _ _ _ _ _ (get_Ok _ s)), He; done).
  cbn [snd when]. rewrite (bind_Ok _ _ _ _ _ Hrun), (bind_Ok _ _ _ _ _ (upd_rest _ t' s1)). apply no_callback. cbn. by rewrite (co_tx _ _ _ _ Hco).
Qed.
Lemma end_Ok env t s :
  stage (the_tx s) ≠ TX_STAGE_WORK → tx_pop (the_tx s) = pop → stage_callback (the_tx s) = 0 → tx_entries (the_tx s) = [env] →
  tx_lane (the_tx s) = None → tx_locks (the_tx s) = [] →
  pmemobj_tx_end (t, s) = Ok (last_errnum (the_tx s))
    (t, Txs (set_actions [] 0 (set_stage TX_STAGE_NONE (set_pop 0 (set_entries [] (the_tx s))))) (w_lanes s) (w_heap s) (pm_trace_tx_end :: calls s) (errno s)).
Proof using L.
  intros Hst Hp Hcb He Hl Hlk. pose proof pool_pos as Hpos. unfold pmemobj_tx_end. rewrite (bind_Ok _ _ _ _ _ (get_rest _ t s)). unfold id.
  rewrite Hp, Hcb, (proj2 (Z.eqb_neq pop 0)) by lia. rewrite bool_decide_eq_false_2 by done. cbn [Z.eqb negb andb].
  erewrite (bind_Ok (when false _)) by reflexivity. erewrite (bind_Ok (when false _)) by reflexivity. erewrite (bind_Ok (when false _)) by reflexivity.
  rewrite (bind_Ok _ _ (t, s) (env, true) (t, s)) by (apply on_rest_Ok; unfold innermost; rewrite (bind_Ok _ _ _ _ _ (get_Ok _ s)), He; done).
  rewrite (bind_Ok _ _ _ _ _ (upd_rest _ t s)), He. cbn [tail]. rewrite (bind_Ok _ _ _ _ _ (get_rest _ t _)). cbn [the_tx set_entries tx_entries].
  rewrite bool_decide_eq_true_2 by done. unfold end_outermost.
  erewrite bind_Ok; [|rewrite (bind_Ok _ _ _ _ _ (get_rest _ t _)); cbn [the_tx tx_lane set_entries]; rewrite Hl;
    erewrite (bind_Ok (assert_ _ _)) by reflexivity; unfold release_and_free_tx_locks;
    erewrite (bind_Ok (on_rest _)) by (apply on_rest_Ok; rewrite (bind_Ok _ _ _ _ _ (get_Ok _ _)); cbn [the_tx tx_locks set_entries]; rewrite Hlk; reflexivity);
    rewrite (bind_Ok _ _ _ _ _ (upd_rest _ t _)), (bind_Ok _ _ _ _ _ (get_rest _ t _)); unfold id; cbn; rewrite Hcb; reflexivity].
  reflexivity.
Qed.
End acts.
