(* ===== verification/TxInstances.v ===== *)
(** * Transactions: a concrete environment

    A pool with one lane and a heap that hands out logs one after the other; all
    parameters of the transactions are given, so that they run. *)
From stdpp Require Import base list strings sets gmap.
From S2P Require Import Prelude Pmem PmemFacts Ulog UlogFacts LogChain Memops MemopsFacts UndoFacts UndoEnd UndoRecovery UndoInstances Lane LaneFacts LaneHold RedoFacts History Palloc PallocFacts PallocSpec Ravl RavlTree RavlFacts TxRanges TxRangesFacts Tx TxOps TxRestore TxFacts TxAbort TxSpec.
Open Scope Z_scope.
#[local] Set Default Proof Using "Type".

(** The next block of the heap, for requests of 192 bytes. *)
Definition bump_construct (dest sz : Z) (constructor : Z → Z → M pm Z) : M pm Z :=
  let! k := rd64 brk in
  if (HEAP_LIMIT <? k) || negb (sz =? 192) then ret (-1)
  else
    let! _ := constructor (65536 + k) 192 in
    wr64 brk (k + 192) ;;
    wr64 dest k ;;
    ret 0.

Lemma load_store_len (m : mem) a l (n : nat) : n = length l → load_bytes (store_bytes m a l) a n = l.
Proof. intros ->. apply load_store. Qed.
(** The header and the data of a new log are stored one after the other. *)
Lemma constructed (m : mem) a :
  load_bytes (store_bytes (store_bytes (store_bytes (store_bytes (store_bytes m
    (a + 16) (to_le 8 128)) a (to_le 8 0)) (a + 8) (to_le 8 0)) (a + 24) (replicate 40 0)) (a + 64) (replicate 128 0)) a 192 = new_log.
Proof.
  change 192%nat with (8 + (8 + (8 + (40 + 128))))%nat. rewrite !load_bytes_app.
  change new_log with (to_le 8 0 ++ to_le 8 0 ++ to_le 8 128 ++ replicate 40 0 ++ replicate 128 0).
  replace (a + Z.of_nat 8) with (a + 8) by lia. replace (a + 8 + Z.of_nat 8) with (a + 16) by lia.
  replace (a + 16 + Z.of_nat 8) with (a + 24) by lia. replace (a + 24 + Z.of_nat 40) with (a + 64) by lia.
  f_equal; [|f_equal; [|f_equal; [|f_equal]]];
    rewrite ?load_store_out by (rewrite ?to_le_length, ?length_replicate; lia); by apply load_store_len.
Qed.
Lemma bump_construct_bumps valid : bumps (lane_undo_extend bump_construct valid 65536 64).
Proof.
  split; unfold lane_undo_extend, bump_construct.
  - intros s dest Hfull. by rewrite (bind_Ok _ _ _ _ _ (rd64_Ok s brk)), (proj2 (Z.ltb_lt _ _)) by done.
  - intros s dest Hk Hlines H1 H2. rewrite (bind_Ok _ _ _ _ _ (rd64_Ok s brk)). set (k := le64 (bytes s) brk) in *.
    unfold HEAP_START, HEAP_LIMIT, brk in *.
    rewrite (proj2 (Z.ltb_ge _ _)) by lia. change (SIZEOF_ALIGNED_ULOG 64) with 192. cbn [Z.eqb Pos.eqb negb orb].
    unfold lane_ulog_constructor. change (ALIGN_DOWN (u64 (192 - sizeof_ulog)) CACHELINE_SIZE) with 128.
    replace (u64 (65536 + k - 65536)) with k by (rewrite u64_small; unfold U64; lia).
    unfold ulog_construct. assert (ulog_by_offset k (pool_ops valid 65536) = 65536 + k) as ->.
    { unfold ulog_by_offset. rewrite (proj2 (Z.eqb_neq k 0)) by lia. by rewrite align_mult by (unfold U64; lia). }
    rewrite (proj2 (Z.eqb_neq (65536 + k) 0)) by lia. eexists. split; [reflexivity|]. cbn [bytes].
    split.
    + intros q Hq1 Hq2 Hq3. unfold ulog_capacity_at, ulog_checksum_at, ulog_next_at, ulog_unused_at, ulog_data, brk in *.
      rewrite !store_out; [done|rewrite ?to_le_length, ?length_replicate; lia..].
    + rewrite !load_store_out by (rewrite to_le_length; unfold brk; lia). apply (constructed (bytes s) (65536 + k)).
    + rewrite le64_store_out by (rewrite to_le_length; unfold brk; lia). apply le64_store. unfold U64. lia.
    + apply le64_store. unfold U64. lia.
Qed.

(** Nodes are placed after all others. *)
Definition next_node (k : nat) (m : gmap Z (ravl_node tx_range_def)) : option Z := Some (map_fold (λ p _ z, Z.max z (p + 1)) 1 m).
Lemma next_node_fresh k m p : next_node k m = Some p → p ≠ 0 ∧ m !! p = None.
Proof.
  intros [= <-]. assert (1 ≤ map_fold (λ p _ z, Z.max z (p + 1)) 1 m ∧ ∀ q, is_Some (m !! q) → q < map_fold (λ p _ z, Z.max z (p + 1)) 1 m) as [H1 H2].
  { apply (map_fold_weak_ind (λ z (m : gmap Z (ravl_node tx_range_def)), 1 ≤ z ∧ ∀ q, is_Some (m !! q) → q < z)).
    - split; [lia|]. intros q [x Hx]. by rewrite lookup_empty in Hx.
    - intros i x m' z _ [IH1 IH2]. split; [lia|]. intros q Hq. destruct (decide (q = i)) as [->|Hne]; [lia|].
      rewrite lookup_insert_ne in Hq by done. specialize (IH2 q Hq). lia. }
  split; [lia|]. apply eq_None_not_Some. intros Hs%H2. lia.
Qed.

(** [fuel] is the bound of all loops. *)
Definition small_env (fuel : nat) : TxEnv unit unit := {|
  Malloc_node := next_node;
  ravl_new_ok _ := true;
  Malloc_ok _ := true;
  Malloc_range _ _ := true;
  Malloc _ := true;
  palloc_env := small_palloc fuel;
  pmalloc_construct := bump_construct;
  pmemobj_mutex_lock _ := ret 0;
  pmemobj_rwlock_wrlock _ := ret 0;
  pmemobj_mutex_unlock _ := ret tt;
  pmemobj_rwlock_unlock _ := ret tt;
  callback _ _ _ _ := ret tt;
  os_tls_set := 0;
  critnib_insert := 0;
  other_threads _ locks := <[0%nat := 0]> locks;
  uuid_lo := 7;
  cache_size := 64;
  has_remote_replicas := false;
  max_parts := fuel;
  max_loops := fuel;
  max_attempts := fuel;
|}.
Lemma enough_exists : { n : nat | big n }.
Proof. exists (Z.to_nat (2 ^ 66)). unfold big. rewrite Z2Nat.id by (apply Z.pow_nonneg; lia). reflexivity. Qed.
Definition enough : nat := proj1_sig enough_exists.
Lemma enough_big : big enough.
Proof. exact (proj2_sig enough_exists). Qed.
Definition small_heap : LogHeap objects (tx_ops (E := small_env enough)) (undo_extend (E := small_env enough)) unlink :=
  bumps_heap _ (bump_construct_bumps _).
Global Instance small_laws : TxLaws (small_env enough) objects.
Proof.
  unshelve refine {| scratch q := 1024 ≤ q < 4096; log_heap := small_heap |};
    try (exact enough_big); try done.
  - intros k m p. apply next_node_fresh.
  - intros q Hq. unfold objects. lia.
  - intros s gs q Hh (g&Hg&Hi) Hq. pose proof (bu_inside _ _ Hh g q Hg Hi). unfold HEAP_START in *. lia.
  - intros s s' gs [H1 H2 H3 H4 H5] Hs. assert (le64 (bytes s') brk = le64 (bytes s) brk) as Hb.
    { apply le64_ext. intros q Hq. apply Hs. unfold brk in Hq. lia. }
    split; by rewrite ?Hb.
Defined.

(** A lane with an empty undo log, and a thread that has not been in a transaction. *)
Definition small_lane : lane :=
  Lane (73728 - 960) fresh_context (OpCtx LOG_TYPE_REDO pool 0 0 0 0 0 640 640 [] false (OpLog 1024 0 1024) (OpLog 1024 0 0) VECQ_EMPTY) fresh_context.
Definition no_tx : tx unit := Tx 0 TX_STAGE_NONE 0 None [] [] false [] 0 0 0 false.
Definition small_lanes : lane_state := LaneState (Pm fresh []) (Descriptor 1 0 [0] [small_lane]) (ThreadInfo None [] None).
Definition small_world : txw unit unit := (ravl_new 0, Txs no_tx small_lanes (HeapRt [] tt) [] 0).
Lemma small_idle : idle (E := small_env enough) small_world.2.
Proof.
  split; try done.
  - split; [intros m l; exact (length_insert l 0 0)| |done]. exists 0%nat, 0. split; [done|]. split; [|by intros m [|x l]].
    pose proof enough_big as H. unfold big in H. change (runtime_nlanes _) with 1. cbn [max_attempts small_env]. lia.
  - constructor; [|constructor]. split; [exists [empty_base]; split; [exact (fresh_ok _ _)|done]|]. split; [done|]. split.
    + split; try done. intros q. change (shadow_entry _) with 1088. cbn. lia.
    + split; [split; vm_compute; congruence|done].
Qed.

(** A program that changes 100 bytes of an object and 8 bytes next to it. *)
Definition small_acts : list tx_act :=
  [AddDirect 69648 100; Store 69648 (replicate 100 7); AddOid (Oid 7 4212) 0 8; Store 69740 (replicate 16 9)].
Lemma small_disciplined : disciplined (E := small_env enough) (user := objects) [] small_acts.
Proof.
  assert (∀ o n, 4096 ≤ o → 0 ≤ n ≤ 4096 → o + n ≤ 7168 → in_heap (E := small_env enough) (user := objects) (Range o n 0)) as Hin.
  { intros o n H1 H2 H3. split; cbn; [done|unfold PMEMOBJ_MAX_ALLOC_SIZE; lia|done|]. unfold covers, objects. cbn. lia. }
  cbn [disciplined small_acts added_range]. split; [done|]. split; [by apply Hin|]. split.
  { intros q Hq. rewrite covered_cons. left. unfold covers. change (Z.of_nat _) with 100 in Hq. cbn [offset size pop palloc_env small_env small_palloc]. lia. }
  split; [done|]. split; [by apply Hin|]. split; [|done].
  intros q Hq. rewrite !covered_cons. unfold covers. change (Z.of_nat _) with 16 in Hq. change (u64 (off _ + 0)) with 4212.
  cbn [offset size pop palloc_env small_env small_palloc]. lia.
Qed.
(** It runs: the snapshots need two extensions of the log, the second range
    is merged with the first, and after the abort the bytes are back. *)
Definition contents (r : res (txw unit unit) unit) : option (list Z * abort_reason) :=
  match r with Ok _ _ => None | Abort e w => Some (load_bytes (memory w.2) 69648 108, e) end.
Definition changed (r : res (txw unit unit) unit) : option (list Z * nat * list Z) :=
  match r with
  | Ok _ w => Some (load_bytes (memory w.2) 69648 108, length (actions (the_tx w.2)), concat ((λ l, next (undo l)) <$> lanes (desc (w_lanes w.2))))
  | Abort _ _ => None
  end.
Example small_run :
  let env := small_env 100 in
  changed ((pmemobj_tx_begin 65536 5 [] ;; run_acts small_acts) small_world)
    = Some (replicate 92 7 ++ replicate 16 9, 1%nat, [8320; 8512]) ∧
  contents ((pmemobj_tx_begin 65536 5 [] ;; run_acts small_acts ;; pmemobj_tx_abort 0) small_world)
    = Some (replicate 108 0, LongJump 5 ECANCELED).
Proof. vm_compute. split; reflexivity. Qed.
