(* ===== verification/TxAtomic.v ===== *)
(** * Transactions: the claims

    A transaction that is aborted or interrupted leaves no trace. *)
From stdpp Require Import base list strings sets gmap.
From S2P Require Import Prelude Pmem PmemFacts Ulog UlogFacts LogChain Memops MemopsFacts UndoFacts UndoEnd UndoRecovery UndoInstances Lane LaneFacts LaneHold RedoFacts Palloc Ravl RavlTree RavlFacts TxRanges TxRangesFacts Tx TxOps TxRestore TxFacts TxAbort TxCommit TxSpec TxInstances.
Open Scope Z_scope.
#[local] Set Default Proof Using "Type".

Section atomic.
Context {X H : Type} {E : TxEnv X H} {user : Z → Prop} {L : TxLaws E user}.
Abbreviation TW := (txw X H).
Implicit Types (w : TW) (i : Z) (acts : list tx_act).

(** C6. An aborted transaction leaves no trace: a thread begins a transaction, adds
    ranges and stores into them in any order, and aborts, or runs out of space in
    the undo log and is aborted.  Control goes to the [setjmp] of the
    transaction, every byte of the application is as it was before, the lane is
    released with an empty undo log, and the stage is [TX_STAGE_ONABORT]. *)
Theorem tx_abort_atomic env acts errnum w :
  idle w.2 → env ≠ 0 → disciplined (user := user) [] acts →
  ∃ i, jumped (user := user) (memory w.2) env i ((pmemobj_tx_begin pop env [] ;; run_acts acts ;; pmemobj_tx_abort errnum) w).
Proof.
  intros Hid Henv Hd. destruct (begin_at_work env w Hid) as (w1&i&Hrun&Hw1). exists i. rewrite (bind_Ok _ _ _ _ _ Hrun).
  destruct (acts_Ok _ _ _ _ _ _ Henv Hw1 Hd) as [(w2&Hrun2&Hw2)|Hj]; [|by apply jumped_bind].
  rewrite (bind_Ok _ _ _ _ _ Hrun2). destruct Hw2 as (l&pre&post&x&Hw2&Hout&_). destruct w2 as [t2 s2].
  pose proof (ranges_length _ (wk_sorted _ _ _ _ _ _ _ Hw2)) as Hlen. rewrite length_fmap in Hlen.
  eapply abort_jumps; [done|apply Hw2|apply Hw2| |apply Hw2|apply Hw2|done].
  pose proof big_loops as Hb. unfold big, U64 in *. lia.
Qed.

(** C5. Whatever part of a transaction's stores reaches the persistent memory, a
    crash between its operations loses nothing.  A thread begins a transaction
    and adds ranges and stores into them; unless it was aborted for want of space,
    the transaction is at work.  Let [p] be any memory that agrees with that of the
    program outside of the added ranges: the undo log of the lane is intact in
    [p], and recovering a context opened on it, as the pool does when it boots,
    gives every byte of the application its contents from before the
    transaction. *)
Theorem tx_crash_atomic env acts w :
  idle w.2 → env ≠ 0 → disciplined (user := user) [] acts →
  let run := (pmemobj_tx_begin pop env [] ;; run_acts acts) w in
  ∃ i, jumped (user := user) (memory w.2) env i run ∨
    ∃ w1, run = Ok tt w1 ∧ tx_lane (the_tx w1.2) = Some i ∧
    ∀ p, (∀ q, ¬ covered (added_by acts) (q - pop) → bytes p q = memory w1.2 q) →
    ∃ l gs, lane_at w1.2 i = Some l ∧ first_addr gs = layout_undo (layout l) ∧ chain_ok (bytes p) tx_ops gs ∧
      ∀ c, opened p c gs → p_ops c = tx_ops →
        ∃ p' c', recover_lane pfree max_logs max_entries (p, c) = Ok tt (p', c') ∧ ∀ q, user q → bytes p' q = memory w.2 q.
Proof.
  intros Hid Henv Hd run. destruct (begin_at_work env w Hid) as (w0&i&Hrun0&Hw0). exists i. unfold run. rewrite (bind_Ok _ _ _ _ _ Hrun0).
  destruct (acts_Ok _ _ _ _ _ _ Henv Hw0 Hd) as [(w2&Hrun2&Hw2)|Hj]; [|by left]. right. rewrite app_nil_r in Hw2.
  exists w2. split; [done|]. split; [by destruct Hw2 as (l&pre&post&x&[[] _ _ _ _ _ _]&_)|]. intros p Hp. by eapply crash_recovers.
Qed.
(** C7. Committing makes a transaction durable.  A thread begins a transaction, adds
    ranges and stores into them, and is aborted for want of space, or commits and
    ends with the result 0: all data of the application stay, the lane is free with
    an empty undo log, the stage is [TX_STAGE_NONE], and the end is traced.  In
    the history of the memory, every byte of the added ranges is flushed, except
    perhaps those that are in one contiguous stretch of added bytes with a byte of a
    range that was added with [POBJ_FLAG_NO_FLUSH]: the tree may have merged the
    ranges of such a stretch, and a merged range has the flags of one of them.  The
    flushes are complete before the single store that invalidates the first entry
    of the undo log, which is persistent before anything that follows; and from any
    memory in which this entry is invalid recovery changes nothing. *)
Theorem tx_commit_durable env acts w :
  idle w.2 → env ≠ 0 → disciplined (user := user) [] acts →
  let run := (pmemobj_tx_begin pop env [] ;; run_acts acts) w in
  ∃ i, jumped (user := user) (memory w.2) env i run ∨
    ∃ w1 w2 fls evs l d, run = Ok tt w1 ∧ (pmemobj_tx_commit ;; pmemobj_tx_end) w1 = Ok 0 w2 ∧
      (∀ q, user q → memory w2.2 q = memory w1.2 q) ∧ lane_free i w2.2 ∧ stage (the_tx w2.2) = TX_STAGE_NONE ∧
      calls w2.2 = pm_trace_tx_end :: calls w1.2 ∧ Forall is_flush fls ∧
      (∀ o, covered (added_by acts) o → ¬ near_no_flush (added_by acts) o → flushed_by fls (pop + o)) ∧
      lane_at w1.2 i = Some l ∧
      pm_events w2.2 = evs ++ publish_events (first_snapshot (the_tx w1.2)) (ulog_data (layout_undo (layout l))) (shadow_entry (external l)) d
                         ++ PDrain :: fls ++ pm_events w1.2 ∧
      ∀ p c, type c = LOG_TYPE_UNDO → in_progress c = false → ulog c = layout_undo (layout l) → log_capacity (pshadow_ops c) `mod` 64 = 0 →
        le64 (bytes p) (ulog_data (ulog c)) = 0 → le64 (bytes p) (ulog_capacity_at (ulog c)) = le64 (memory w1.2) (ulog_capacity_at (ulog c)) →
        ∃ c', recover_lane pfree max_logs max_entries (p, c) = Ok tt (p, c').
Proof.
  intros Hid Henv Hd run. destruct (begin_at_work env w Hid) as (w0&i&Hrun0&Hw0). exists i. unfold run. rewrite (bind_Ok _ _ _ _ _ Hrun0).
  destruct (acts_Ok _ _ _ _ _ _ Henv Hw0 Hd) as [(w1&Hrun1&Hw1)|Hj]; [|by left]. right. rewrite app_nil_r in Hw1.
  destruct (commit_Ok _ _ _ _ _ Hw1) as ([t2 s2]&rs&Hcom&Hrs&s1&Hco&Hs2). cbn [snd] in Hs2.
  pose proof Hw1 as (l&pre&post&x&_&[He Hcb Hlk _ Herr Hp]&_). pose proof Hco as [Hmem Hlane Htx (evs&l0&d&Hl0&Hev) (_&Hcalls&_)].
  assert (last_errnum (the_tx s2) = 0) as Herr2 by (by rewrite Hs2; cbn; rewrite Htx).
  pose proof (end_Ok env t2 s2) as Hend. rewrite Herr2 in Hend.
  exists w1. eexists. exists (flushes rs), evs, l0, d. split; [done|]. split.
  { rewrite (bind_Ok _ _ _ _ _ Hcom). apply Hend; rewrite Hs2; cbn; rewrite ?Htx; done. }
  rewrite Hs2. cbn [snd]. split; [exact Hmem|]. split; [by destruct Hlane; split|]. split; [done|]. split; [cbn; by rewrite Hcalls|]. split; [apply flushes_all|]. split; [done|]. split; [done|].
  split; [exact Hev|]. intros p c. by apply (invalid_recovers (memory w.2) env i (added_by acts) w1 l0).
Qed.
End atomic.

(** ** Concrete runs *)

Example tx_abort_atomic_witness :
  let env := small_env enough in
  ∃ i, jumped (user := objects) fresh 5 i
    ((pmemobj_tx_begin 65536 5 [] ;; run_acts small_acts ;; pmemobj_tx_abort 0) small_world).
Proof. apply (tx_abort_atomic (L := small_laws) 5 small_acts 0 small_world); [exact small_idle|done|exact small_disciplined]. Defined.
Example tx_crash_atomic_witness :
  let env := small_env enough in
  let run := (pmemobj_tx_begin 65536 5 [] ;; run_acts small_acts) small_world in
  ∃ i, jumped (user := objects) fresh 5 i run ∨
    ∃ w1, run = Ok tt w1 ∧ tx_lane (the_tx w1.2) = Some i ∧
    ∀ p, (∀ q, ¬ covered (added_by small_acts) (q - 65536) → bytes p q = memory w1.2 q) →
    ∃ l gs, lane_at w1.2 i = Some l ∧ first_addr gs = layout_undo (layout l) ∧ chain_ok (bytes p) pool gs ∧
      ∀ c, opened p c gs → p_ops c = pool →
        ∃ p' c', recover_lane unlink enough enough (p, c) = Ok tt (p', c') ∧ ∀ q, objects q → bytes p' q = fresh q.
Proof. apply (tx_crash_atomic (L := small_laws) 5 small_acts small_world); [exact small_idle|done|exact small_disciplined]. Defined.
Example tx_commit_durable_witness :
  let env := small_env enough in
  let run := (pmemobj_tx_begin 65536 5 [] ;; run_acts small_acts) small_world in
  ∃ i, jumped (user := objects) fresh 5 i run ∨
    ∃ w1 w2 fls evs l d, run = Ok tt w1 ∧ (pmemobj_tx_commit ;; pmemobj_tx_end) w1 = Ok 0 w2 ∧
      (∀ q, objects q → memory w2.2 q = memory w1.2 q) ∧ lane_free i w2.2 ∧ stage (the_tx w2.2) = TX_STAGE_NONE ∧
      calls w2.2 = pm_trace_tx_end :: calls w1.2 ∧ Forall is_flush fls ∧
      (∀ o, covered (added_by small_acts) o → ¬ near_no_flush (added_by small_acts) o → flushed_by fls (65536 + o)) ∧
      lane_at w1.2 i = Some l ∧
      pm_events w2.2 = evs ++ publish_events (first_snapshot (the_tx w1.2)) (ulog_data (layout_undo (layout l))) (shadow_entry (external l)) d
                         ++ PDrain :: fls ++ pm_events w1.2 ∧
      ∀ p c, type c = LOG_TYPE_UNDO → in_progress c = false → ulog c = layout_undo (layout l) → log_capacity (pshadow_ops c) `mod` 64 = 0 →
        le64 (bytes p) (ulog_data (ulog c)) = 0 → le64 (bytes p) (ulog_capacity_at (ulog c)) = le64 (memory w1.2) (ulog_capacity_at (ulog c)) →
        ∃ c', recover_lane unlink enough enough (p, c) = Ok tt (p, c').
Proof. apply (tx_commit_durable (L := small_laws) 5 small_acts small_world); [exact small_idle|done|exact small_disciplined]. Defined.
(** A range that is added with [POBJ_FLAG_NO_FLUSH], and the next 8 bytes without:
    the second range is merged into the first, and the commit flushes neither.  In
    the other order it flushes both. *)
Definition flushes_of_objects (r : res (txw unit unit) Z) : option (list (Z * Z)) :=
  match r with
  | Ok _ w => Some (omap (λ e, match e with PFlush a n => if (69632 <=? a) && (a <? 72704) then Some (a, n) else None | _ => None end) (pm_events w.2))
  | Abort _ _ => None
  end.
Example no_flush_run :
  let env := small_env 100 in
  let run acts := flushes_of_objects ((pmemobj_tx_begin 65536 5 [] ;; run_acts acts ;; pmemobj_tx_commit ;; pmemobj_tx_end) small_world) in
  run [XaddDirect 69648 8 POBJ_FLAG_NO_FLUSH; AddDirect 69656 8; Store 69656 (replicate 8 9)] = Some [] ∧
  run [AddDirect 69656 8; XaddDirect 69648 8 POBJ_FLAG_NO_FLUSH; Store 69656 (replicate 8 9)] = Some [(69648, 16)].
Proof. vm_compute. split; reflexivity. Qed.
