(* ===== verification/TxMoves.v ===== *)
(** * Transactions: what calls change

    The calls on a transaction leave its stage, its nesting and its lane alone, or
    abort it; and only an abort jumps. *)
From stdpp Require Import base list strings gmap.
From S2P Require Import Prelude Pmem Ulog Memops History Lane Palloc PallocFacts Ravl TxRanges Tx TxOps.
Open Scope Z_scope.

(** ** What a computation that returns or jumps has not changed *)

Definition is_jump (e : abort_reason) : bool := match e with LongJump _ _ => true | _ => false end.
Section moves.
Context {S : Type} (R : S → S → Prop).
Definition moves {A} (f : M S A) : Prop := ∀ s, wpe f (λ _, R s) (λ e s', is_jump e = true → R s s') s.
Lemma moves_zoom {T A} (get : S → T) put (f : M T A) : (∀ s t, R s (put t s)) → moves (zoom get put f).
Proof. intros HR s. apply wpe_zoom. unfold wpe. destruct (f (get s)); eauto. Qed.
Lemma moves_modify f : (∀ s, R s (f s)) → moves (modify f).
Proof. intros HR s. apply HR. Qed.
Context `{!PreOrder R}.
Lemma moves_ret {A} (v : A) : moves (ret v).
Proof. intros s. by apply wpe_ret. Qed.
Lemma moves_gets {A} (f : S → A) : moves (gets f).
Proof. intros s. by apply wpe_gets. Qed.
Lemma moves_stop {A} e : moves (A := A) (stop e).
Proof. intros s. by apply wpe_stop. Qed.
Lemma moves_assert b what : moves (assert_ b what).
Proof. destruct b; [apply moves_ret|apply moves_stop]. Qed.
Lemma moves_bind {A C} (f : M S A) (k : A → M S C) : moves f → (∀ v, moves (k v)) → moves (bind f k).
Proof.
  intros Hf Hk s. apply wpe_bind. eapply wpe_mono; [apply Hf| |done]. intros v s1 H1.
  eapply wpe_mono; [apply Hk|cbn; intros v2 s2 H2; exact (transitivity H1 H2)|]. cbn. intros e s2 H2 Hj. exact (transitivity H1 (H2 Hj)).
Qed.
Lemma moves_when b f : moves f → moves (when b f).
Proof. intros Hf. destruct b; [done|apply moves_ret]. Qed.
Lemma moves_for_each {A} (l : list A) f : (∀ a, moves (f a)) → moves (for_each l f).
Proof. intros Hf. induction l as [|a l IH]; [apply moves_ret|]. by apply moves_bind. Qed.
End moves.
Lemma moves_impl {S A} (R R' : S → S → Prop) (f : M S A) : (∀ s s', R s s' → R' s s') → moves R f → moves R' f.
Proof. intros HR Hf s. eapply wpe_mono; [apply Hf|..]; cbn; eauto. Qed.

Create HintDb moves discriminated.
(** One step through the structure of a program. *)
Ltac moves_step :=
  first [ solve [auto with moves nocore] | apply moves_ret; apply _ | apply moves_gets; apply _ | apply moves_stop; apply _
        | apply moves_assert; apply _ | apply moves_when; [apply _|] | apply moves_for_each; [apply _|intros ?]
        | apply moves_bind; [apply _| |intros ?] ].
Ltac moves_all := repeat (moves_step || case_match).

(** ** Computations that do not jump *)

Section lands.
Context {S : Type}.
Definition lands {A} (f : M S A) : Prop := ∀ s, wpe f (λ _ _, True) (λ e _, is_jump e = false) s.
Lemma lands_ret {A} (v : A) : lands (ret v).
Proof. by intros s. Qed.
Lemma lands_gets {A} (f : S → A) : lands (gets f).
Proof. by intros s. Qed.
Lemma lands_modify f : lands (modify f).
Proof. by intros s. Qed.
Lemma lands_stop {A} e : is_jump e = false → lands (A := A) (stop e).
Proof. by intros He s. Qed.
Lemma lands_assert b what : lands (assert_ b what).
Proof. by destruct b. Qed.
Lemma lands_bind {A C} (f : M S A) (k : A → M S C) : lands f → (∀ v, lands (k v)) → lands (bind f k).
Proof. intros Hf Hk s. apply wpe_bind. eapply wpe_mono; [apply Hf| |done]. intros v s1 _. apply Hk. Qed.
Lemma lands_when b f : lands f → lands (when b f).
Proof. intros Hf. by destruct b. Qed.
Lemma lands_for_each {A} (l : list A) f : (∀ a, lands (f a)) → lands (for_each l f).
Proof. intros Hf. induction l as [|a l IH]; [apply lands_ret|]. by apply lands_bind. Qed.
Lemma stray_jump e : stray e = false → is_jump e = false.
Proof. by destruct e. Qed.
Lemma quiet_lands {A} (f : M S A) : quiet f → lands f.
Proof. intros Hf s. specialize (Hf s). unfold wpe. destruct (f s); [done|]. by apply stray_jump. Qed.
End lands.
Lemma lands_zoom {S T A} (get : S → T) put (f : M T A) : lands f → lands (zoom get put f).
Proof. intros Hf s. apply wpe_zoom. apply Hf. Qed.
(** Both at once. *)
Definition silent {S A} (R : S → S → Prop) (f : M S A) : Prop := ∀ s, wpe f (λ _, R s) (λ e _, is_jump e = false) s.
Lemma silent_moves {S A} (R : S → S → Prop) (f : M S A) : silent R f → moves R f.
Proof. intros Hf s. eapply wpe_mono; [apply Hf|done|]. by intros e s' ->. Qed.
Lemma silent_lands {S A} (R : S → S → Prop) (f : M S A) : silent R f → lands f.
Proof. intros Hf s. by eapply wpe_mono; [apply Hf|..]. Qed.
Lemma moves_lands {S A} (R : S → S → Prop) (f : M S A) : moves R f → lands f → silent R f.
Proof. intros Hm Hl s. specialize (Hm s). specialize (Hl s). unfold wpe in *. by destruct (f s). Qed.
Create HintDb lands discriminated.
Ltac lands_step :=
  first [ solve [auto with lands nocore] | apply lands_ret | apply lands_gets | apply lands_modify | apply lands_stop; reflexivity
        | apply lands_assert | apply lands_when | apply lands_for_each; intros ? | apply lands_bind; [|intros ?] | apply lands_zoom ].
Ltac lands_all := repeat (lands_step || case_match).

Section stage.
Context {X H : Type} {E : TxEnv X H}.
Abbreviation TW := (txw X H).
Abbreviation TS := (txs X H).
Implicit Types (t : tx X) (s : TS) (w : TW).

(** ** What the operations do to the stage *)

(** Nothing: *)
Record calm_tx t t' : Prop := {
  ct_stage : stage t' = stage t;
  ct_entries : tx_entries t' = tx_entries t;
  ct_lane : tx_lane t' = tx_lane t;
  ct_pop : tx_pop t' = tx_pop t;
  ct_errnum : last_errnum t' = last_errnum t;
}.
Global Instance calm_tx_pre : PreOrder calm_tx.
Proof. split; [by intros t; split|]. intros t1 t2 t3 [] []. split; congruence. Qed.
(** or an abort: *)
Record abandoned t t' : Prop := {
  an_work : stage t = TX_STAGE_WORK;
  an_stage : stage t' = TX_STAGE_ONABORT;
  an_entries : tx_entries t' = tx_entries t;
  an_held : tx_lane t ≠ None;
  an_lane : tx_lane t' = if (length (tx_entries t) =? 1)%nat then None else tx_lane t;
  an_depth : tx_entries t ≠ [];
  an_pop : tx_pop t' = tx_pop t;
  an_errnum : last_errnum t' ≠ 0;
}.
Definition works t t' : Prop := calm_tx t t' ∨ abandoned t t'.
Global Instance works_pre : PreOrder works.
Proof.
  split; [by left|]. intros t1 t2 t3 [H1|H1] [H2|H2]; [left; by etrans|right|right|exfalso].
  - destruct H1 as [Hs He Hl Hp Hn], H2. rewrite He, Hl in *. split; congruence.
  - destruct H1, H2. split; congruence.
  - destruct H1, H2. congruence.
Qed.
Definition on_s (R : tx X → tx X → Prop) s s' : Prop := R (the_tx s) (the_tx s').
Definition on_w (R : tx X → tx X → Prop) w w' : Prop := on_s R w.2 w'.2.
Global Instance on_s_pre R : PreOrder R → PreOrder (on_s R).
Proof. intros HR. split; [intros s; red; reflexivity|intros s1 s2 s3; unfold on_s; by etrans]. Qed.
Global Instance on_w_pre R : PreOrder R → PreOrder (on_w R).
Proof. intros HR. split; [intros w; red; reflexivity|intros w1 w2 w3; unfold on_w; by etrans]. Qed.


(** What a transaction is given (callbacks, locks) does not use the transaction
    and does not jump. *)
Class TxCalm := {
  callback_silent cb p st a : silent (on_w calm_tx) (callback cb p st a);
  mutex_lock_silent k : silent (on_s calm_tx) (pmemobj_mutex_lock k);
  rwlock_wrlock_silent k : silent (on_s calm_tx) (pmemobj_rwlock_wrlock k);
  mutex_unlock_silent k : silent (on_s calm_tx) (pmemobj_mutex_unlock k);
  rwlock_unlock_silent k : silent (on_s calm_tx) (pmemobj_rwlock_unlock k);
}.

Lemma rest_moves R {A} (f : M TS A) : moves (on_s R) f → moves (on_w R) (on_rest f).
Proof. intros Hf w. apply wpe_zoom. apply Hf. Qed.
Lemma tree_moves R `{!PreOrder R} {A} (f : M (ravl tx_range_def) A) : moves (on_w R) (on_tree f).
Proof. apply moves_zoom. intros w t. red. reflexivity. Qed.
Lemma lanes_moves R `{!PreOrder R} {A} (f : M lane_state A) : moves (on_s R) (on_lanes f).
Proof. apply moves_zoom. intros s t. red. reflexivity. Qed.
Lemma heap_moves R `{!PreOrder R} {A} (f : M (pst H) A) : moves (on_s R) (on_heap f).
Proof. apply moves_zoom. intros s t. red. reflexivity. Qed.
Lemma get_moves R `{!PreOrder R} {A} (f : tx X → A) : moves (on_s R) (get f).
Proof. apply moves_gets, _. Qed.
Lemma upd_moves R (f : tx X → tx X) : (∀ t, R t (f t)) → moves (on_s R) (upd f).
Proof. intros HR. apply moves_modify. intros s. apply HR. Qed.
Lemma trace_moves R `{!PreOrder R} c : moves (on_s R) (trace c).
Proof. apply moves_modify. intros s. red. reflexivity. Qed.
Lemma errno_moves R `{!PreOrder R} e : moves (on_s R) (set_errno e).
Proof. apply moves_modify. intros s. red. reflexivity. Qed.
Lemma zoom_moves R `{!PreOrder R} {T A} (get : TS → T) (put : T → TS → TS) (f : M T A) :
  (∀ s (x : T), the_tx (put x s) = the_tx s) → moves (on_s R) (zoom get put f).
Proof. intros Hp. apply moves_zoom. intros s t. unfold on_s. rewrite Hp. reflexivity. Qed.
End stage.
Global Arguments TxCalm {X H} E.
Ltac tx_step :=
  first [ moves_step | apply rest_moves | apply tree_moves; apply _ | apply lanes_moves; apply _ | apply heap_moves; apply _
        | apply get_moves; apply _ | apply trace_moves; apply _ | apply errno_moves; apply _
        | apply upd_moves; intros ?; by split | apply upd_moves; intros ?; left; by split | apply zoom_moves; [apply _|done] ].
Ltac tx_moves := repeat (tx_step || case_match).

Section calls.
Context {X H : Type} {E : TxEnv X H}.
Abbreviation TW := (txw X H).
Abbreviation TS := (txs X H).
Abbreviation on_s := (on_s (X := X) (H := H)).
Abbreviation on_w := (on_w (X := X) (H := H)).
Implicit Types (t : tx X) (s : TS) (w : TW).
Context {C : TxCalm E}.

Section preorder.
Context (R : tx X → tx X → Prop) `{!PreOrder R} (HR : ∀ t t', calm_tx t t' → R t t').
Lemma calm_s {A} (f : M TS A) : moves (on_s calm_tx) f → moves (on_s R) f.
Proof. apply moves_impl. intros s s'. apply HR. Qed.
Lemma calm_w {A} (f : M TW A) : moves (on_w calm_tx) f → moves (on_w R) f.
Proof. apply moves_impl. intros s s'. apply HR. Qed.
End preorder.

Lemma lane_of_calm : moves (on_s calm_tx) lane_of.
Proof. unfold lane_of. tx_moves. Qed.
#[local] Hint Resolve lane_of_calm : moves.
Lemma tx_undo_calm {A} (f : M opst A) : moves (on_s calm_tx) (on_tx_undo f).
Proof. unfold on_tx_undo. tx_moves. Qed.
Lemma tx_external_calm {A} (f : M opst A) : moves (on_s calm_tx) (on_tx_external f).
Proof. unfold on_tx_external. tx_moves. Qed.
Lemma external_heap_calm i {A} (f : M (cst H) A) : moves (on_s calm_tx) (on_external_heap i f).
Proof. unfold on_external_heap. tx_moves. Qed.
#[local] Hint Resolve tx_undo_calm tx_external_calm external_heap_calm : moves.
Lemma abort_set_calm : moves (on_s calm_tx) tx_abort_set.
Proof. unfold tx_abort_set. tx_moves. Qed.
Lemma delete_ranges_calm f : (∀ r, moves (on_s calm_tx) (f r)) → moves (on_w calm_tx) (delete_ranges f).
Proof. intros Hf. unfold delete_ranges. tx_moves. Qed.
#[local] Hint Resolve abort_set_calm delete_ranges_calm : moves.
Lemma pre_commit_calm : moves (on_w calm_tx) tx_pre_commit.
Proof. unfold tx_pre_commit, tx_flush_range. tx_moves. Qed.
Lemma clear_actions_calm : moves (on_s calm_tx) clear_actions.
Proof. unfold clear_actions. tx_moves. Qed.
#[local] Hint Resolve pre_commit_calm clear_actions_calm : moves.
Lemma tx_abort_calm : moves (on_w calm_tx) tx_abort.
Proof. unfold tx_abort. tx_moves. Qed.
Lemma post_commit_calm : moves (on_s calm_tx) tx_post_commit.
Proof. unfold tx_post_commit. tx_moves. Qed.
Lemma add_lock_calm ty k : moves (on_s calm_tx) (add_to_tx_and_lock ty k).
Proof. unfold add_to_tx_and_lock. tx_moves; apply silent_moves, C. Qed.
Lemma release_locks_calm l : moves (on_s calm_tx) (release_locks l).
Proof. induction l as [|k l IH]; cbn [release_locks]; tx_moves; apply silent_moves, C. Qed.
#[local] Hint Resolve tx_abort_calm post_commit_calm add_lock_calm release_locks_calm : moves.
Lemma handle_params_calm l : moves (on_s calm_tx) (handle_params l).
Proof. induction l as [|[] l IH]; cbn [handle_params]; unfold set_tx_callback; tx_moves. Qed.
Lemma obj_callback_calm : moves (on_w calm_tx) obj_tx_callback.
Proof. unfold obj_tx_callback, innermost. tx_moves. apply silent_moves, C. Qed.
#[local] Hint Resolve handle_params_calm obj_callback_calm : moves.

(** *** Jumps *)

Context {L : PallocLaws palloc_env}.
Lemma pm_lands {A} (f : M pm A) : grows_pm f → lands f.
Proof. intros Hf. eapply quiet_lands, grows_quiet, Hf. Qed.
Lemma finish_lands : lands (operation_finish pfree max_logs max_entries).
Proof. eapply quiet_lands, grows_quiet. apply finish_grows, pfree_grows. Qed.
#[local] Hint Resolve finish_lands : lands.
Lemma remove_from_grows front kept l a b : grows_pm (remove_from front kept l a b).
Proof. revert front kept. induction l as [|x l IH]; intros front kept; cbn [remove_from]; grows_all. Qed.
Lemma undo_apply_grows locks e : grows_pm (tx_undo_entry_apply locks e).
Proof.
  assert (∀ l, grows_pm (remove_locks locks l)).
  { induction locks as [|k locks IH]; intros l; cbn [remove_locks]; [grows_all|]. apply grows_bind; [apply remove_from_grows|done]. }
  unfold tx_undo_entry_apply, tx_restore_range, restore_part. grows_all.
Qed.
Lemma abort_set_lands : lands tx_abort_set.
Proof.
  unfold tx_abort_set, lane_of. lands_all; try apply finish_lands. apply pm_lands, foreach_log_grows. intros e. apply undo_apply_grows.
Qed.
Lemma clear_node_lands fuel n : lands (ravl_clear_node (D := tx_range_def) fuel n).
Proof.
  revert n. induction fuel as [|fuel IH]; intros n; cbn [ravl_clear_node]; [by apply lands_stop|].
  unfold deref, Free. lands_all.
Qed.
Lemma delete_ranges_lands f : (∀ r, lands (f r)) → lands (delete_ranges f).
Proof.
  intros Hf. unfold delete_ranges, ravl_delete_cb. lands_all. apply clear_node_lands.
Qed.
Lemma cancel_lands l : lands (on_heap (palloc_cancel l) : M TS unit).
Proof. lands_step. intros t. pose proof (cancel_steady l t) as Hc. unfold wpe. destruct (palloc_cancel l t); [done|]. by apply stray_jump. Qed.
Lemma lane_release_lands : lands (on_lanes lane_release : M TS unit).
Proof. unfold lane_release, Lane.lane_release, the_info, set_info, unlock_lane, set_desc. lands_all. Qed.
#[local] Hint Resolve clear_node_lands abort_set_lands delete_ranges_lands cancel_lands lane_release_lands : lands.
Lemma tx_abort_lands : lands tx_abort.
Proof. unfold tx_abort. lands_all. Qed.
Lemma obj_callback_lands : lands obj_tx_callback.
Proof. unfold obj_tx_callback, innermost. lands_all. eapply silent_lands, C. Qed.

Lemma add_lock_lands ty k : lands (add_to_tx_and_lock ty k).
Proof. unfold add_to_tx_and_lock. lands_all; eapply silent_lands, C. Qed.
#[local] Hint Resolve add_lock_lands : lands.
Lemma release_locks_lands l : lands (release_locks l).
Proof. induction l as [|k l IH]; cbn [release_locks]; lands_all; eapply silent_lands, C. Qed.
Lemma handle_params_lands l : lands (handle_params l).
Proof. induction l as [|[] l IH]; cbn [handle_params]; unfold set_tx_callback; lands_all. Qed.
Lemma start_lands : lands operation_start.
Proof. unfold operation_start, operation_init. lands_all. Qed.
#[local] Hint Resolve start_lands release_locks_lands handle_params_lands : lands.
Lemma lane_hold_lands : lands (on_lanes lane_hold : M TS Z).
Proof.
  assert (∀ fuel n m, lands (get_lane_from other_threads n fuel m)) as Hg.
  { intros fuel n. induction fuel as [|fuel IH]; intros m; cbn [get_lane_from]; unfold try_lane; lands_all. }
  unfold lane_hold, Lane.lane_hold, hold_begin, hold_end, get_lane, get_lane_start, get_lane_info_record, lane_info_ht_boot, add_info, first_lane, reinitialize, on_locks, the_info, set_info, set_thread, set_desc.
  lands_all.
Qed.
Lemma exec_actions_lands l : lands (palloc_exec_actions l).
Proof.
  assert (∀ prev l, lands (exec_locked prev l)) as H1.
  { intros prev l0. revert prev. induction l0 as [|a l0 IH]; intros prev; cbn [exec_locked]; [lands_all|]. unfold util_mutex_lock. lands_all.
    all: intros s; pose proof (exec_steady a s) as Hs; unfold wpe; destruct (exec_action a s); [done|by apply stray_jump]. }
  assert (∀ prev l, lands (process_locked prev l)) as H2.
  { intros prev l0. revert prev. induction l0 as [|a l0 IH]; intros prev; cbn [process_locked]; [lands_all|]. unfold util_mutex_unlock. lands_all.
    all: intros s; pose proof (on_process_steady a s) as Hs; unfold wpe; destruct (on_process a s); [done|by apply stray_jump]. }
  unfold palloc_exec_actions. lands_all.
  intros s. match goal with |- wpe (on_unlock ?a) _ _ _ => pose proof (on_unlock_steady a s) as Hs; unfold wpe; destruct (on_unlock a s); [done|by apply stray_jump] end.
Qed.
#[local] Hint Resolve lane_hold_lands exec_actions_lands : lands.
Lemma commit_lands : lands commit_outermost.
Proof.
  unfold commit_outermost, tx_pre_commit, tx_flush_range, on_tx_external, on_external_heap, on_external, on_tx_undo, on_undo, tx_post_commit, lane_of, palloc_publish, clear_actions.
  lands_all.
Qed.

(** *** Aborting *)

(** The outermost transaction gives its lane back. *)
Lemma close_lane (b : bool) w :
  wpe (when b (tx_abort ;; on_rest (on_lanes lane_release) ;; on_rest (upd (set_lane None))))
    (λ _ w', calm_tx (if b then set_lane None (the_tx w.2) else the_tx w.2) (the_tx w'.2)) (λ e _, is_jump e = false) w.
Proof.
  destruct b; [|done]. apply wpe_bind. eapply wpe_mono; [apply moves_lands; [apply tx_abort_calm|apply tx_abort_lands]| |done].
  intros [] w1 H1. apply wpe_bind. eapply wpe_mono; [apply moves_lands; [|apply lands_zoom, lane_release_lands]| |done].
  { apply (rest_moves calm_tx). tx_moves. }
  intros [] w2 H2. pose proof (transitivity H1 H2) as []. by split.
Qed.
Lemma calm_then {A D} (f : M TW A) (k : A → M TW D) Q t w :
  calm_tx t (the_tx w.2) → moves (on_w calm_tx) f → (∀ v w', calm_tx t (the_tx w'.2) → wlp (k v) Q w') → wlp (bind f k) Q w.
Proof. intros Ht Hf Hk. apply wpe_bind. eapply wpe_mono; [apply Hf| |done]. intros v w' Hw. apply Hk. exact (transitivity Ht Hw). Qed.
Lemma close_commit (b : bool) w :
  wpe (when b commit_outermost)
    (λ _ w', calm_tx (if b then set_lane None (the_tx w.2) else the_tx w.2) (the_tx w'.2)) (λ e _, is_jump e = false) w.
Proof.
  destruct b; [|done]. cbn [when]. pose proof (commit_lands w) as Hl. revert Hl. unfold wpe.
  assert (wlp commit_outermost (λ _ w', calm_tx (set_lane None (the_tx w.2)) (the_tx w'.2)) w) as Hw.
  { unfold commit_outermost. assert (calm_tx (the_tx w.2) (the_tx w.2)) as Ht by done. revert Ht. generalize w at 2 4. intros w0 Ht.
    do 8 (eapply calm_then; [exact Ht|tx_moves|clear w0 Ht; intros ? w0 Ht]). destruct Ht. by split. }
  unfold wlp, wpe in Hw. by destruct (commit_outermost w).
Qed.
(** Steps of the code on the transaction. *)
Lemma wpe_get {A D} (f : tx X → A) (k : A → M TW D) Q J w :
  wpe (k (f (the_tx w.2))) Q J w → wpe (bind (on_rest (get f)) k) Q J w.
Proof. by destruct w. Qed.
Definition put_tx t w : TW := (w.1, Txs t (w_lanes w.2) (w_heap w.2) (calls w.2) (errno w.2)).
Lemma wpe_upd_tx {D} (f : tx X → tx X) (k : unit → M TW D) Q J w :
  wpe (k tt) Q J (put_tx (f (the_tx w.2)) w) → wpe (bind (on_rest (upd f)) k) Q J w.
Proof. done. Qed.
Lemma wpe_set_errno {D} e (k : unit → M TW D) Q J w :
  (∀ w', the_tx w'.2 = the_tx w.2 → wpe (k tt) Q J w') → wpe (bind (on_rest (set_errno e)) k) Q J w.
Proof. intros Hk. by apply (Hk (w.1, Txs (the_tx w.2) (w_lanes w.2) (w_heap w.2) (calls w.2) e)). Qed.
Lemma wpe_calm {A D} (f : M TW A) (k : A → M TW D) Q J w :
  moves (on_w calm_tx) f → lands f → (∀ e w', is_jump e = false → J e w') →
  (∀ v w', calm_tx (the_tx w.2) (the_tx w'.2) → wpe (k v) Q J w') → wpe (bind f k) Q J w.
Proof. intros Hm Hl HJ Hk. apply wpe_bind. eapply wpe_mono; [by apply moves_lands|by apply Hk|by apply HJ]. Qed.
Lemma wpe_assert_work {A} (k : M TW A) Q J w :
  (stage (the_tx w.2) = TX_STAGE_WORK → wpe k Q J w) →
  (stage (the_tx w.2) ≠ TX_STAGE_WORK → ∀ m, J (ErrAbort m) w) →
  wpe (on_rest ASSERT_IN_TX ;; on_rest ASSERT_TX_STAGE_WORK ;; k) Q J w.
Proof.
  intros Hk HJ. destruct w as [r s]. cbn [snd] in *. apply wpe_bind, wpe_zoom, wpe_bind, wpe_gets, wpe_when; cbn.
  { intros Hn%bool_decide_eq_true. apply HJ. congruence. }
  intros _. apply wpe_bind, wpe_zoom, wpe_bind, wpe_gets, wpe_when; cbn; intros Hn.
  - apply HJ. by apply negb_true_iff, bool_decide_eq_false in Hn.
  - apply Hk. by apply negb_false_iff, bool_decide_eq_true in Hn.
Qed.
Lemma wpe_innermost {D} (k : Z * bool → M TW D) Q J w :
  (∀ env l, tx_entries (the_tx w.2) = env :: l → wpe (k (env, (length (tx_entries (the_tx w.2)) =? 1)%nat)) Q J w) →
  (∀ m, J (UndefinedBehaviour m) w) → wpe (bind (on_rest innermost) k) Q J w.
Proof.
  intros Hk HJ. destruct w as [r s]. cbn [snd] in *. apply wpe_bind, wpe_zoom, wpe_bind, wpe_gets. cbn.
  destruct (tx_entries (the_tx s)) as [|env l]; [apply HJ|]. specialize (Hk env l eq_refl). apply wpe_ret. cbn.
  destruct l; exact Hk.
Qed.
Lemma abort_aborts errnum : moves (on_w abandoned) (obj_tx_abort errnum).
Proof.
  intros w. unfold obj_tx_abort. apply wpe_assert_work; [|done]. intros Hst. apply wpe_get, wpe_bind, wpe_assert; [|done].
  intros Hl%negb_true_iff%bool_decide_eq_false. apply wpe_upd_tx, wpe_innermost; [|done]. cbn. intros env l He.
  apply wpe_bind. eapply wpe_mono; [apply close_lane| |by intros ?? ->]. cbn. intros [] w1 H1. apply wpe_upd_tx, wpe_set_errno. cbn. intros w2 H2.
  apply wpe_calm; [apply obj_callback_calm|apply obj_callback_lands|by intros ?? ->|]. cbn. intros [] w3 H3.
  assert (abandoned (the_tx w.2) (the_tx w3.2)) as Hw.
  { destruct H3 as [Ha Hb Hc Hd Hf]. rewrite H2 in *. destruct H1 as [H1a H1b H1c H1d H1f]. destruct (_ =? 1)%nat eqn:Hlen; cbn in *.
    all: split; rewrite ?Ha, ?Hb, ?Hc, ?Hd, ?Hf, ?H1a, ?H1b, ?H1c, ?H1d, ?H1f, ?Hlen; cbn; try done; try congruence.
    all: destruct (errnum =? 0) eqn:?; [done|lia]. }
  apply wpe_when; intros _; [intros _; exact Hw|exact Hw].
Qed.
Lemma abort_works errnum : moves (on_w works) (obj_tx_abort errnum).
Proof. eapply moves_impl, abort_aborts. by right. Qed.

(** *** Working *)

Lemma work_s {A} (f : M TS A) : moves (on_s calm_tx) f → moves (on_s works) f.
Proof. apply calm_s. by left. Qed.
Lemma work_w {A} (f : M TW A) : moves (on_w calm_tx) f → moves (on_w works) f.
Proof. apply calm_w. by left. Qed.
#[local] Hint Resolve abort_works work_s work_w : moves.
Lemma abort_err_works e : moves (on_w works) (obj_tx_abort_err e).
Proof. unfold obj_tx_abort_err. tx_moves. Qed.
Lemma abort_null_works e : moves (on_w works) (obj_tx_abort_null e).
Proof. unfold obj_tx_abort_null. tx_moves. Qed.
#[local] Hint Resolve abort_err_works abort_null_works : moves.
Lemma action_add_calm : moves (on_s calm_tx) tx_action_add.
Proof. unfold tx_action_add, VEC_INC_BACK. tx_moves. Qed.
#[local] Hint Resolve action_add_calm : moves.
Lemma add_snapshot_calm r : moves (on_s calm_tx) (pmemobj_tx_add_snapshot r).
Proof. unfold pmemobj_tx_add_snapshot, invalidate_undo, first_entry_at, palloc_set_value, set_action. tx_moves. Qed.
#[local] Hint Resolve add_snapshot_calm : moves.
Lemma insert_def_calm r : moves (on_w calm_tx) (tx_lane_ranges_insert_def Malloc_node max_loops r).
Proof. unfold tx_lane_ranges_insert_def. tx_moves. Qed.
#[local] Hint Resolve insert_def_calm : moves.
Lemma add_ranges_calm fuel args r p n : moves (on_w calm_tx) (add_ranges Malloc_node pmemobj_tx_add_snapshot fuel max_loops args r p n).
Proof.
  revert r p n. induction fuel as [|fuel IH]; intros r p n; cbn [add_ranges]; [by apply moves_stop, _|].
  unfold add_rest, extend_left, ravl_data. tx_moves.
Qed.
#[local] Hint Resolve add_ranges_calm : moves.
Lemma in_work_calm : moves (on_w calm_tx) in_work.
Proof. unfold in_work, ASSERT_IN_TX, ASSERT_TX_STAGE_WORK. tx_moves. Qed.
Lemma add_common_works r : moves (on_w works) (pmemobj_tx_add_common r).
Proof. unfold pmemobj_tx_add_common. tx_moves. Qed.
#[local] Hint Resolve in_work_calm add_common_works : moves.
Lemma action_remove_calm : moves (on_s calm_tx) tx_action_remove.
Proof. unfold tx_action_remove, VEC_POP_BACK. tx_moves. Qed.
#[local] Hint Resolve action_remove_calm : moves.
Lemma alloc_works n ty args : moves (on_w works) (tx_alloc_common n ty args).
Proof. unfold tx_alloc_common, err_oom, set_action. tx_moves. Qed.
Lemma free_works oid : moves (on_w works) (pmemobj_tx_free oid).
Proof. unfold pmemobj_tx_free, defer_free, set_action. tx_moves. Qed.
#[local] Hint Resolve alloc_works free_works : moves.
Lemma realloc_works oid n ty fl : moves (on_w works) (tx_realloc_common oid n ty fl).
Proof. unfold tx_realloc_common, VEC_POP_BACK. tx_moves. Qed.
#[local] Hint Resolve realloc_works : moves.
End calls.
#[export] Hint Resolve lane_of_calm tx_undo_calm tx_external_calm external_heap_calm abort_set_calm delete_ranges_calm pre_commit_calm clear_actions_calm tx_abort_calm post_commit_calm add_lock_calm release_locks_calm handle_params_calm obj_callback_calm abort_works work_s work_w abort_err_works abort_null_works action_add_calm add_snapshot_calm insert_def_calm add_ranges_calm in_work_calm add_common_works action_remove_calm alloc_works free_works realloc_works : moves.
#[export] Hint Resolve finish_lands clear_node_lands abort_set_lands delete_ranges_lands cancel_lands lane_release_lands add_lock_lands start_lands release_locks_lands handle_params_lands lane_hold_lands exec_actions_lands obj_callback_lands tx_abort_lands commit_lands : lands.
