(* ===== verification/TxLocks.v ===== *)
(** * Transactions: restoring around locks

    Locks that a transaction holds may lie in the ranges of its snapshots. *)
From stdpp Require Import base list strings sets gmap.
From S2P Require Import Prelude Pmem PmemFacts Ulog UlogFacts LogChain Memops MemopsFacts UndoInstances Lane Palloc Ravl TxRanges Tx TxRestore TxInstances.
Open Scope Z_scope.

Section locks.
Context {X H : Type} {E : TxEnv X H} (malloc_ok : ∀ a b, Malloc_range a b = true).

(** Nothing is left of a snapshot in which every byte belongs to a lock. *)
Lemma nothing_spared locks e x s :
  entry_at (bytes s) e (cpy x.1) x.2 → ok_entry x.1 x.2 → x.2 ≠ [] → (∀ q, target pop x q → locked locks q) →
  tx_undo_entry_apply locks e s = Abort (AssertFailed "!PMDK_SLIST_EMPTY(&tx_ranges)") s.
Proof using malloc_ok.
  intros He Hok Hne Hall. destruct (entry_words s e _ _ He Hok) as (H1&_&H3&_). destruct Hok as [Ho _].
  assert (0 < Z.of_nat (length x.2)) as Hlen by (destruct x.2; [done|cbn; lia]).
  destruct (remove_locks_Ok malloc_ok locks [(pop + x.1, pop + x.1 + Z.of_nat (length x.2))] s) as (l&Hrun&Hnr&Hq).
  { constructor; [simpl; lia|constructor]. }
  assert (l = []) as ->.
  { destruct Hnr as [|r l Hr _]; [done|]. exfalso. assert (in_some (r :: l) r.1) as [Hin Hn]%Hq by (apply in_some_cons; left; unfold in_range; lia).
    apply Hn, Hall. rewrite in_some_cons in Hin. destruct Hin as [Hin|Hin%in_some_nil]; [|done]. exact Hin. }
  unfold tx_undo_entry_apply. rewrite (bind_Ok _ _ _ _ _ (entry_type_Ok s e _ Ho H1)), Z.eqb_refl. unfold tx_restore_range, bind at 1.
  rewrite (bind_Ok _ _ _ _ _ (entry_offset_Ok s e _ Ho H1)), (bind_Ok _ _ _ _ _ (rd64_Ok s _)), H3, malloc_ok. cbn [negb when].
  erewrite (bind_Ok (ret tt)) by reflexivity. by rewrite (bind_Ok _ _ _ _ _ Hrun).
Qed.

(** C10. Aborting a transaction with locks, in the debug build of the library, which is
    the one that the driver links, and with memory for the parts of the range.
    Applying an entry of the undo log restores the bytes of the snapshot except for
    those of locks that the transaction holds, which stay as they are, as does
    everything else, as long as some byte of the snapshot is in no lock.  A snapshot
    that lies within held locks fails the assertion that some part is left to
    restore, and the abort with it.  The entry is one that the log holds, not empty,
    and does not overlap what it restores. *)
Theorem restore_around_locks locks e x s :
  entry_at (bytes s) e (cpy x.1) x.2 → ok_entry x.1 x.2 → x.2 ≠ [] → (∀ q, e ≤ q < e + room x → ¬ target pop x q) →
  ((∃ q, target pop x q ∧ ¬ locked locks q) →
    ∃ s', tx_undo_entry_apply locks e s = Ok 0 s' ∧
      ∀ q, (target pop x q → ¬ locked locks q → bytes s' q = nth (Z.to_nat (q - (pop + x.1))) x.2 0) ∧
           (¬ target pop x q ∨ locked locks q → bytes s' q = bytes s q)) ∧
  ((∀ q, target pop x q → locked locks q) →
    tx_undo_entry_apply locks e s = Abort (AssertFailed "!PMDK_SLIST_EMPTY(&tx_ranges)") s).
Proof using malloc_ok.
  intros He Hok Hne Hap. split; [|by eapply nothing_spared].
  intros Hfree. destruct (undo_entry_apply_Ok malloc_ok locks e x s He Hok Hfree Hap) as (s'&Hrun&Hs'). exists s'. split; [done|].
  intros q. rewrite Hs'. unfold restore_unlocked. split.
  - intros Ht Hl. rewrite decide_False by done. unfold restore, store_bytes. unfold target in Ht.
    by rewrite (proj2 (Z.leb_le _ _)), (proj2 (Z.ltb_lt _ _)) by lia.
  - intros Hq. case_decide; [done|]. apply restore_other. by destruct Hq.
Qed.
End locks.

(** The first entry of a log: the snapshot of three bytes of which a lock covers
    the first. *)
Definition half_locked : list tx_lock_data := [TxLock 69585 MUTEX].
Example restore_around_locks_witness :
  let env := small_env 40 in let s := Pm logged [] in
  ∃ s', tx_undo_entry_apply half_locked 73792 s = Ok 0 s' ∧ bytes s' 69648 = bytes s 69648 ∧ bytes s' 69650 = 3.
Proof.
  destruct (restore_around_locks (E := small_env 40) (λ _ _, eq_refl) half_locked 73792 first_entry (Pm logged [])) as [(s'&Hrun&Hs') _].
  - vm_compute. reflexivity.
  - pose proof two_ok as Ht. by inversion Ht.
  - done.
  - intros q Hq. change (room first_entry) with 64 in Hq. unfold target. cbn. lia.
  - exists 69650. split; [unfold target; cbn; lia|]. intros (k&Hk%list_elem_of_singleton&Hq). subst k. cbn in Hq. unfold POBJ_CL_SIZE in Hq. lia.
  - exists s'. split; [exact Hrun|]. split; [apply Hs'; right; exists (TxLock 69585 MUTEX); split; [by left|unfold POBJ_CL_SIZE; cbn; lia]|].
    apply (Hs' 69650); [unfold target; cbn; lia|]. intros (k&Hk%list_elem_of_singleton&Hq). subst k. cbn in Hq. unfold POBJ_CL_SIZE in Hq. lia.
Defined.
