(* ===== verification/TxStage.v ===== *)
(** * Transactions: the stages

    The calls of a thread as a machine on its stage and the depth of its
    transactions, and the proof that the code follows it: a call in the wrong stage
    does not return, and the thread holds a lane exactly while its outermost
    transaction is open. *)
From stdpp Require Import base list strings gmap.
From S2P Require Import Prelude Pmem Ulog Memops History Lane Palloc PallocFacts Ravl TxRanges Tx TxOps TxMoves PallocSpec TxInstances.
Open Scope Z_scope.

(** ** The machine *)

Inductive tx_call :=
  | CBegin (pool env : Z) (params : list pobj_tx_param)
  | CLock (ty : lock_kind) (lockp : Z)
  | CAbort (errnum : Z)
  | CCommit
  | CProcess
  | CEnd
  | CAddRangeDirect (ptr sz : Z)
  | CXaddRangeDirect (ptr sz fl : Z)
  | CAddRange (oid : PMEMoid) (hoff sz : Z)
  | CXaddRange (oid : PMEMoid) (hoff sz fl : Z)
  | CAlloc (sz type_num : Z)
  | CZalloc (sz type_num : Z)
  | CXalloc (sz type_num fl : Z)
  | CRealloc (oid : PMEMoid) (sz type_num : Z)
  | CZrealloc (oid : PMEMoid) (sz type_num : Z)
  | CStrdup (s type_num : Z)
  | CWcsdup (s type_num : Z)
  | CFree (oid : PMEMoid).
(** The calls that work inside of a transaction and may abort it. *)
Definition is_work (c : tx_call) : bool :=
  match c with CBegin _ _ _ | CLock _ _ | CAbort _ | CCommit | CProcess | CEnd => false | _ => true end.

(** The stage, the number of open transactions of the thread, and whether the
    thread is outside of transactions with a lane that it did not give back. *)
Definition tx_view : Type := pobj_tx_stage * nat * bool.
Inductive tx_step : tx_call → tx_view → tx_view → Prop :=
  | step_begin p e l n b : tx_step (CBegin p e l) (TX_STAGE_NONE, n, b) (TX_STAGE_WORK, 1%nat, false)
  | step_begin_fails p e l n b : tx_step (CBegin p e l) (TX_STAGE_NONE, n, b) (TX_STAGE_ONABORT, 1%nat, false)
  | step_begin_no_memory p e l n b : tx_step (CBegin p e l) (TX_STAGE_NONE, n, b) (TX_STAGE_ONABORT, O, true)
  | step_nested p e l n : tx_step (CBegin p e l) (TX_STAGE_WORK, n, false) (TX_STAGE_WORK, S n, false)
  | step_nested_fails p e l n : tx_step (CBegin p e l) (TX_STAGE_WORK, n, false) (TX_STAGE_ONABORT, S n, false)
  | step_nested_refused p e l n : tx_step (CBegin p e l) (TX_STAGE_WORK, n, false) (TX_STAGE_ONABORT, n, false)
  | step_lock ty k n : tx_step (CLock ty k) (TX_STAGE_WORK, n, false) (TX_STAGE_WORK, n, false)
  | step_work c n : is_work c = true → tx_step c (TX_STAGE_WORK, n, false) (TX_STAGE_WORK, n, false)
  | step_work_fails c n : is_work c = true → tx_step c (TX_STAGE_WORK, n, false) (TX_STAGE_ONABORT, n, false)
  | step_abort e n : tx_step (CAbort e) (TX_STAGE_WORK, n, false) (TX_STAGE_ONABORT, n, false)
  | step_commit c n : c = CCommit ∨ c = CProcess → tx_step c (TX_STAGE_WORK, n, false) (TX_STAGE_ONCOMMIT, n, false)
  | step_finally st n b : st = TX_STAGE_ONCOMMIT ∨ st = TX_STAGE_ONABORT → tx_step CProcess (st, n, b) (TX_STAGE_FINALLY, n, b)
  | step_none n b : tx_step CProcess (TX_STAGE_FINALLY, n, b) (TX_STAGE_NONE, n, b)
  | step_end st : st ≠ TX_STAGE_WORK → tx_step CEnd (st, 1%nat, false) (TX_STAGE_NONE, O, false)
  | step_resume st n : st ≠ TX_STAGE_WORK → tx_step CEnd (st, S (S n), false) (TX_STAGE_WORK, S n, false)
  | step_fall st n : st ≠ TX_STAGE_WORK → tx_step CEnd (st, S (S n), false) (TX_STAGE_ONABORT, S n, false).
Fixpoint tx_path (cs : list tx_call) (v v' : tx_view) : Prop :=
  match cs with [] => v = v' | c :: cs' => ∃ v1, tx_step c v v1 ∧ tx_path cs' v1 v' end.

Section stage.
Context {X H : Type} {E : TxEnv X H}.
Abbreviation TW := (txw X H).
Abbreviation TS := (txs X H).
Abbreviation on_s := (on_s (X := X) (H := H)).
Abbreviation on_w := (on_w (X := X) (H := H)).
Implicit Types (t : tx X) (s : TS) (w : TW).

Definition stranded t : bool := bool_decide (tx_entries t = []) && bool_decide (tx_lane t ≠ None).
Definition view t : tx_view := (stage t, length (tx_entries t), stranded t).
(** The lane is held while the outermost transaction is open. *)
Definition shaped t : Prop :=
  if bool_decide (stage t = TX_STAGE_WORK) then tx_lane t ≠ None ∧ tx_entries t ≠ []
  else tx_entries t ≠ [] → tx_lane t = None ↔ length (tx_entries t) = 1%nat.

Definition run_call (c : tx_call) : M TW unit :=
  match c with
  | CBegin p e l => pmemobj_tx_begin p e l ;; ret tt
  | CLock ty k => on_rest (pmemobj_tx_lock ty k) ;; ret tt
  | CAbort e => pmemobj_tx_abort e
  | CCommit => pmemobj_tx_commit
  | CProcess => pmemobj_tx_process
  | CEnd => pmemobj_tx_end ;; ret tt
  | CAddRangeDirect p n => pmemobj_tx_add_range_direct p n ;; ret tt
  | CXaddRangeDirect p n fl => pmemobj_tx_xadd_range_direct p n fl ;; ret tt
  | CAddRange o h n => pmemobj_tx_add_range o h n ;; ret tt
  | CXaddRange o h n fl => pmemobj_tx_xadd_range o h n fl ;; ret tt
  | CAlloc n ty => pmemobj_tx_alloc n ty ;; ret tt
  | CZalloc n ty => pmemobj_tx_zalloc n ty ;; ret tt
  | CXalloc n ty fl => pmemobj_tx_xalloc n ty fl ;; ret tt
  | CRealloc o n ty => pmemobj_tx_realloc o n ty ;; ret tt
  | CZrealloc o n ty => pmemobj_tx_zrealloc o n ty ;; ret tt
  | CStrdup p ty => pmemobj_tx_strdup p ty ;; ret tt
  | CWcsdup p ty => pmemobj_tx_wcsdup p ty ;; ret tt
  | CFree o => pmemobj_tx_free o ;; ret tt
  end.
(** A call that jumps is followed by the next one too, which the program makes
    where the jump goes. *)
Definition after (c : tx_call) w : option TW :=
  match run_call c w with Ok _ w' => Some w' | Abort e w' => if is_jump e then Some w' else None end.
Fixpoint run_calls (cs : list tx_call) w : option TW :=
  match cs with [] => Some w | c :: cs' => after c w ≫= run_calls cs' end.

(** ** The code follows the machine *)

Context {C : TxCalm E} {L : PallocLaws palloc_env}.
Lemma work_works c : is_work c = true → moves (on_w works) (run_call c).
Proof.
  destruct c; cbn [is_work run_call]; intros [=]; unfold pmemobj_tx_strdup, pmemobj_tx_wcsdup, duplicate; tx_moves.
Qed.

(** A call and the state of the transaction that it may leave, by returning or by a
    jump. *)
Definition follows {A} (f : M TW A) (c : tx_call) : Prop := ∀ w, shaped (the_tx w.2) →
  wpe f (λ _ w', shaped (the_tx w'.2) ∧ tx_step c (view (the_tx w.2)) (view (the_tx w'.2)))
    (λ e w', is_jump e = true → shaped (the_tx w'.2) ∧ tx_step c (view (the_tx w.2)) (view (the_tx w'.2))) w.
Lemma follows_ret {A} (f : M TW A) c : follows f c → follows (f ;; ret tt) c.
Proof. intros Hf w Hw. apply wpe_bind. eapply wpe_mono; [by apply Hf| |done]. intros v w' Hw'. exact Hw'. Qed.
Lemma calm_shaped t t' : shaped t → calm_tx t t' → shaped t'.
Proof. unfold shaped. by intros Hs [-> -> -> _ _]. Qed.
Lemma calm_view t t' : calm_tx t t' → view t' = view t.
Proof. unfold view, stranded. by intros [-> -> -> _ _]. Qed.
Lemma inside t : tx_entries t ≠ [] → view t = (stage t, length (tx_entries t), false).
Proof. intros Hne. unfold view, stranded. by rewrite bool_decide_eq_false_2. Qed.
Lemma abandoned_shaped t t' : abandoned t t' → shaped t'.
Proof.
  intros []. unfold shaped. rewrite an_stage, an_entries, an_lane. rewrite bool_decide_eq_false_2 by done.
  destruct (tx_entries t) as [|x [|y l]]; cbn; [done|done|]. split; [done|lia].
Qed.
Lemma abandoned_view t t' : abandoned t t' → view t = (TX_STAGE_WORK, length (tx_entries t), false) ∧ view t' = (TX_STAGE_ONABORT, length (tx_entries t), false).
Proof. intros [Hw Hs He _ _ Hne _ _]. rewrite !inside by (rewrite ?He; done). by rewrite Hw, Hs, He. Qed.
Lemma working_view t : shaped t → stage t = TX_STAGE_WORK → view t = (TX_STAGE_WORK, length (tx_entries t), false).
Proof. unfold shaped. intros Hs Hw. rewrite bool_decide_eq_true_2 in Hs by done. rewrite inside by apply Hs. by rewrite Hw. Qed.

Lemma in_work_stops {A} (k : M TW A) w : stage (the_tx w.2) ≠ TX_STAGE_WORK → ∃ m, (in_work ;; k) w = Abort (ErrAbort m) w.
Proof.
  intros Hst. assert (wpe (on_rest ASSERT_IN_TX ;; on_rest ASSERT_TX_STAGE_WORK ;; ret tt) (λ _ _, False) (λ e w', w' = w ∧ ∃ m, e = ErrAbort m) w) as Hw.
  { apply wpe_assert_work; [done|]. intros _ m. split; eauto. }
  assert (wpe in_work (λ _ _, False) (λ e w', w' = w ∧ ∃ m, e = ErrAbort m) w) as Hf.
  { unfold in_work, wpe, bind in *. destruct (on_rest ASSERT_IN_TX w) as [[] w1|]; [|done].
    destruct (on_rest ASSERT_TX_STAGE_WORK w1); [done|done]. }
  unfold wpe, bind in *. destruct (in_work w); [done|]. destruct Hf as (->&m&->). eauto.
Qed.
Lemma work_stops c w : is_work c = true → stage (the_tx w.2) ≠ TX_STAGE_WORK → ∃ m, run_call c w = Abort (ErrAbort m) w.
Proof.
  intros Hc Hst. assert (∀ A (k : M TW A), ∃ m, ((in_work ;; k) ;; ret tt) w = Abort (ErrAbort m) w) as Hs.
  { intros A k. destruct (in_work_stops k w Hst) as [m Hm]. exists m. unfold bind at 1. by rewrite Hm. }
  destruct c; cbn [is_work] in Hc; try discriminate Hc; apply Hs.
Qed.
Lemma work_follows c : is_work c = true → follows (run_call c) c.
Proof.
  intros Hc w Hw. destruct (decide (stage (the_tx w.2) = TX_STAGE_WORK)) as [Hst|Hst].
  2:{ destruct (work_stops c w Hc Hst) as [m Hm]. unfold wpe. by rewrite Hm. }
  assert (∀ w', on_w works w w' → shaped (the_tx w'.2) ∧ tx_step c (view (the_tx w.2)) (view (the_tx w'.2))) as Hk.
  { intros w' [Hk|Hk].
    - split; [by eapply calm_shaped|]. rewrite (calm_view _ _ Hk), working_view by done. by constructor.
    - split; [by eapply abandoned_shaped|]. destruct (abandoned_view _ _ Hk) as [-> ->]. by constructor. }
  eapply wpe_mono; [by apply work_works|..]; cbn; eauto.
Qed.
Lemma abort_follows e : follows (run_call (CAbort e)) (CAbort e).
Proof.
  intros w Hw. assert (∀ w', on_w abandoned w w' → shaped (the_tx w'.2) ∧ tx_step (CAbort e) (view (the_tx w.2)) (view (the_tx w'.2))) as Hk.
  { intros w' Hk. split; [by eapply abandoned_shaped|]. destruct (abandoned_view _ _ Hk) as [-> ->]. by constructor. }
  eapply wpe_mono; [by apply abort_aborts|..]; cbn; eauto.
Qed.
Lemma lock_follows ty k : follows (run_call (CLock ty k)) (CLock ty k).
Proof.
  apply follows_ret. intros w Hw.
  assert (wpe (on_rest (pmemobj_tx_lock ty k)) (λ _ w', stage (the_tx w.2) = TX_STAGE_WORK ∧ on_w calm_tx w w') (λ e _, is_jump e = false) w) as Hl.
  { apply wpe_zoom. unfold pmemobj_tx_lock, ASSERT_IN_TX, ASSERT_TX_STAGE_WORK. apply wpe_bind, wpe_bind, wpe_gets, wpe_when; [done|]. intros _.
    apply wpe_bind, wpe_bind, wpe_gets, wpe_when; [done|]. intros Hst%negb_false_iff%bool_decide_eq_true.
    eapply wpe_mono; [apply (moves_lands _ _ (add_lock_calm ty k) (add_lock_lands ty k))| |done]. intros v s' Hs. split; [done|]. exact Hs. }
  eapply wpe_mono; [exact Hl|..]; cbn; [|by intros ?? ->]. intros v w' [Hst Hc]. split; [by eapply calm_shaped|].
  rewrite (calm_view _ _ Hc), working_view by done. constructor.
Qed.
Lemma commit_follows c : c = CCommit ∨ c = CProcess → follows pmemobj_tx_commit c.
Proof.
  intros Hc w Hw. unfold pmemobj_tx_commit. apply wpe_assert_work; [|done]. intros Hst.
  apply wpe_calm; [apply obj_callback_calm|apply obj_callback_lands|by intros ?? ->|]. intros [] w1 H1.
  apply wpe_get, wpe_bind, wpe_assert; [|done]. intros Hl%negb_true_iff%bool_decide_eq_false.
  apply wpe_innermost; [|done]. cbn. intros env l He.
  apply wpe_bind. eapply wpe_mono; [apply close_commit| |by intros ?? ->]. cbn. intros [] w2 H2. apply wpe_upd_tx.
  assert (∀ w', calm_tx (set_stage TX_STAGE_ONCOMMIT (the_tx w2.2)) (the_tx w'.2) →
    shaped (the_tx w'.2) ∧ tx_step c (view (the_tx w.2)) (view (the_tx w'.2))) as Hk.
  { intros w' Hw'. rewrite (calm_view _ _ Hw'). destruct H1 as [Ha Hb Hd Hf Hg]. assert (tx_entries (the_tx w2.2) = tx_entries (the_tx w.2)) as Hen.
    { destruct H2 as [_ H2b _ _ _]. rewrite H2b, <-Hb. by destruct (_ =? 1)%nat. }
    split.
    - eapply calm_shaped, Hw'. unfold shaped. cbn. destruct H2 as [_ _ H2c _ _]. rewrite H2c, Hen, <-Hb, He. cbn.
      destruct l; cbn; [done|]. split; [done|lia].
    - rewrite (working_view _ Hw Hst), inside by (cbn; by rewrite Hen, <-Hb, He). cbn. rewrite Hen. by constructor. }
  eapply wpe_mono; [apply (moves_lands _ _ obj_callback_calm obj_callback_lands)|..]; cbn; [intros [] w'; apply Hk|by intros ?? ->].
Qed.
Lemma process_follows : follows (run_call CProcess) CProcess.
Proof.
  intros w Hw. cbn [run_call]. unfold pmemobj_tx_process. apply wpe_bind, wpe_zoom, wpe_bind, wpe_gets, wpe_when; [done|].
  cbn. intros Hn%bool_decide_eq_false. destruct w as [r s]. cbn [fst snd] in *. apply wpe_get. cbn [snd].
  assert (∀ w', calm_tx (set_stage TX_STAGE_FINALLY (the_tx s)) (the_tx w'.2) → stage (the_tx s) = TX_STAGE_ONCOMMIT ∨ stage (the_tx s) = TX_STAGE_ONABORT →
    shaped (the_tx w'.2) ∧ tx_step CProcess (view (the_tx s)) (view (the_tx w'.2))) as Hk.
  { intros w' Hw' Hst. rewrite (calm_view _ _ Hw'). split.
    - eapply calm_shaped, Hw'. unfold shaped in *. cbn. by destruct Hst as [Hst|Hst]; rewrite Hst in Hw.
    - unfold view. cbn. by constructor. }
  destruct (stage (the_tx s)) eqn:Hst; [done|apply (commit_follows CProcess); [by right|done]|..].
  3:{ split; [|unfold view; cbn; rewrite Hst; constructor]. unfold shaped in *. cbn. by rewrite Hst in Hw. }
  all: apply wpe_upd_tx; eapply wpe_mono; [apply (moves_lands _ _ obj_callback_calm obj_callback_lands)|..]; cbn;
    [intros [] w' Hw'; apply Hk; [exact Hw'|auto]|by intros ?? ->].
Qed.

(** *** Beginning and ending *)

Definition entered (env : Z) t : tx X := set_stage TX_STAGE_WORK (set_entries (env :: tx_entries t) (set_last_errnum 0 t)).
(** Without memory for the new transaction the outer one is aborted, or there is
    none. *)
Definition entering (env : Z) t t' : Prop :=
  works (entered env t) t' ∨ abandoned t t' ∨ stage t ≠ TX_STAGE_WORK ∧ t' = set_stage TX_STAGE_ONABORT t.
Lemma enter_works env params w :
  wpe (enter_work env params) (λ _ w', entering env (the_tx w.2) (the_tx w'.2))
    (λ e w', is_jump e = true → entering env (the_tx w.2) (the_tx w'.2)) w.
Proof.
  unfold enter_work. apply wpe_bind, wpe_zoom, wpe_gets. destruct w as [r s]. cbn [fst snd]. apply wpe_if; intros _.
  { apply wpe_bind, wpe_zoom, wpe_gets. unfold err_abort. apply wpe_get. cbn [snd]. apply wpe_bind, wpe_if.
    - intros _. eapply wpe_mono; [apply abort_aborts|..]; [intros [] w' Hw'; right; by left|intros e w' Hw' Hj; right; left; by apply Hw'].
    - intros Hst%bool_decide_eq_false. right. by right. }
  apply wpe_upd_tx, wpe_upd_tx, wpe_upd_tx. apply wpe_bind, wpe_zoom.
  eapply wpe_mono; [apply (moves_lands _ _ (handle_params_calm params) (handle_params_lands params))| |by intros ?? ->].
  cbn. intros err s1 H1. unfold TxMoves.on_s in H1. cbn in H1. apply wpe_if; intros He; [|apply wpe_ret; left; by left].
  unfold err_abort. apply wpe_get. cbn. rewrite bool_decide_eq_true_2 by apply H1.
  assert (∀ w', works (the_tx s1) (the_tx w'.2) → entering env (the_tx s) (the_tx w'.2)) as Hk.
  { intros w' Hw'. left. revert Hw'. apply transitivity. by left. }
  apply wpe_bind. eapply wpe_mono; [apply abort_works|..]; [intros [] w' Hw'; exact (Hk _ Hw')|intros e w' Hw' Hj; exact (Hk _ (Hw' Hj))].
Qed.
Lemma begin_outermost_lane w :
  wpe begin_outermost (λ _ w', tx_lane (the_tx w'.2) ≠ None ∧ tx_entries (the_tx w'.2) = [] ∧ stage (the_tx w'.2) = stage (the_tx w.2))
    (λ e _, is_jump e = false) w.
Proof.
  unfold begin_outermost. apply wpe_calm; [tx_moves|apply lands_zoom, lane_hold_lands|by intros ?? ->|]. intros i w1 [H1 _ _ _ _].
  apply wpe_upd_tx. apply wpe_calm; [tx_moves|unfold on_tx_undo, lane_of, on_undo; lands_all|by intros ?? ->|].
  intros [] w2 H2. apply wpe_upd_tx. apply wpe_bind, wpe_zoom, wpe_gets. apply wpe_calm; [tx_moves|lands_all|by intros ?? ->|].
  intros [] w3 H3. cbn in *. destruct H2 as [H2' _ H2 _ _], H3 as [H3'' H3 H3' _ _]. cbn in *. by rewrite H3', H2, H3, H3'', H2', H1.
Qed.
(** What a begun transaction leaves, with [n] open ones before. *)
Lemma entered_view e n t t' :
  length (tx_entries t) = n → tx_lane t ≠ None → works (entered e t) t' →
  shaped t' ∧ (view t' = (TX_STAGE_WORK, S n, false) ∨ view t' = (TX_STAGE_ONABORT, S n, false)).
Proof.
  intros Hn Hl [Hc|Ha].
  - split; [|left; rewrite (calm_view _ _ Hc), inside by done; cbn; by rewrite Hn]. eapply calm_shaped, Hc. unfold shaped. by cbn.
  - split; [by eapply abandoned_shaped|right]. destruct (abandoned_view _ _ Ha) as [_ ->]. cbn. by rewrite Hn.
Qed.
Lemma begin_follows p e l : follows (run_call (CBegin p e l)) (CBegin p e l).
Proof.
  apply follows_ret. intros w Hw. unfold pmemobj_tx_begin. apply wpe_bind, wpe_zoom, wpe_modify, wpe_get. cbn [fst snd the_tx]. unfold id.
  destruct (stage (the_tx w.2)) eqn:Hst; try done.
  - apply wpe_bind, wpe_when; [done|]. intros _. apply wpe_bind. eapply wpe_mono; [apply begin_outermost_lane| |by intros ?? ->].
    cbn [snd the_tx]. rewrite Hst. intros [] w1 (Hl&He&Hst1). assert (∀ w', entering e (the_tx w1.2) (the_tx w'.2) →
      shaped (the_tx w'.2) ∧ tx_step (CBegin p e l) (view (the_tx w.2)) (view (the_tx w'.2))) as Hs.
    { intros w' Hw'. unfold view at 1. rewrite Hst. destruct Hw' as [Hw'|[Ha|[_ ->]]].
      - destruct (entered_view e O (the_tx w1.2) (the_tx w'.2)) as [? Hv]; [by rewrite He|done|done|]. split; [done|].
        destruct Hv as [-> | ->]; constructor.
      - destruct Ha. congruence.
      - assert (view (set_stage TX_STAGE_ONABORT (the_tx w1.2)) = (TX_STAGE_ONABORT, O, true)) as ->.
        { unfold view, stranded. cbn. rewrite He. by rewrite !bool_decide_eq_true_2. }
        split; [|constructor]. unfold shaped. cbn. by rewrite He. }
    eapply wpe_mono; [apply enter_works|..]; [intros v w'; apply Hs|intros e' w' H' Hj; apply Hs, H', Hj].
  - pose proof (working_view _ Hw Hst) as Hv. unfold shaped in Hw. rewrite Hst, bool_decide_eq_true_2 in Hw by done. destruct Hw as [Hl He].
    assert (∀ w', abandoned (the_tx w.2) (the_tx w'.2) → shaped (the_tx w'.2) ∧ tx_step (CBegin p e l) (view (the_tx w.2)) (view (the_tx w'.2))) as Ha.
    { intros w' Ha. split; [by eapply abandoned_shaped|]. destruct (abandoned_view _ _ Ha) as [-> ->]. constructor. }
    apply wpe_bind, wpe_assert; [|done]. intros _. apply wpe_if; intros Hp.
    + apply wpe_bind. eapply wpe_mono; [apply abort_aborts|..]; [intros [] w'; apply Ha|intros e' w' H' Hj; apply Ha, H', Hj].
    + set (w0 := (_, Txs _ _ _ _ _)). assert (∀ w', entering e (the_tx w.2) (the_tx w'.2) →
        shaped (the_tx w'.2) ∧ tx_step (CBegin p e l) (view (the_tx w.2)) (view (the_tx w'.2))) as Hs.
      { intros w' [Hw'|[Hw'|[Hno _]]]; [|by apply Ha|done].
        destruct (entered_view e _ (the_tx w.2) (the_tx w'.2) eq_refl Hl Hw') as [? Hv']. split; [done|]. rewrite Hv.
        destruct Hv' as [-> | ->]; constructor. }
      eapply wpe_mono; [apply (enter_works e l w0)|..]; [intros v w'; apply Hs|intros e' w' H' Hj; apply Hs, H', Hj].
Qed.
Lemma end_outermost_none w :
  tx_entries (the_tx w.2) = [] →
  wpe end_outermost (λ _ w', shaped (the_tx w'.2) ∧ view (the_tx w'.2) = (TX_STAGE_NONE, O, false)) (λ e _, is_jump e = false) w.
Proof.
  intros He. unfold end_outermost. apply wpe_get, wpe_bind, wpe_assert; [|done]. intros Hl%bool_decide_eq_true.
  apply wpe_calm; [|unfold release_and_free_tx_locks; lands_all|by intros ?? ->|].
  { apply rest_moves. unfold release_and_free_tx_locks. tx_moves. }
  intros [] w1 H1. apply wpe_upd_tx, wpe_get.
  assert (∀ w', calm_tx (set_stage TX_STAGE_NONE (set_pop 0 (the_tx w1.2))) (the_tx w'.2) →
    shaped (the_tx w'.2) ∧ view (the_tx w'.2) = (TX_STAGE_NONE, O, false)) as Hk.
  { intros w' Hw'. rewrite (calm_view _ _ Hw'). destruct H1 as [_ H1 H1' _ _]. split.
    - eapply calm_shaped, Hw'. unfold shaped. cbn. by rewrite H1, He.
    - unfold view, stranded. cbn. by rewrite H1, H1', He, Hl. }
  apply wpe_when; intros Hcb; [|by apply Hk]. apply wpe_upd_tx.
  eapply wpe_mono; [apply callback_silent|..]; [|done]. intros [] w' Hw'. apply Hk. destruct Hw'. by split.
Qed.
Lemma end_nested_works w n :
  length (tx_entries (the_tx w.2)) = S n → tx_lane (the_tx w.2) ≠ None →
  let Q w' := shaped (the_tx w'.2) ∧ (view (the_tx w'.2) = (TX_STAGE_WORK, S n, false) ∨ view (the_tx w'.2) = (TX_STAGE_ONABORT, S n, false)) in
  wpe end_nested (λ _, Q) (λ e w', is_jump e = true → Q w') w.
Proof.
  intros Hn Hl Q. unfold end_nested. apply wpe_upd_tx, wpe_get. set (w1 := put_tx _ w).
  assert (∀ w', works (the_tx w1.2) (the_tx w'.2) → Q w') as Hk.
  { intros w' [Hc|Ha].
    - assert (tx_entries (the_tx w.2) ≠ []) as Hne by (by intros He; rewrite He in Hn).
      split; [|left; rewrite (calm_view _ _ Hc), inside by done; cbn; by rewrite Hn]. eapply calm_shaped, Hc. unfold shaped. by cbn.
    - split; [by eapply abandoned_shaped|right]. destruct (abandoned_view _ _ Ha) as [_ ->]. cbn. by rewrite Hn. }
  apply wpe_when; intros _; [|apply Hk; by left].
  eapply wpe_mono; [apply abort_works|..]; [intros [] w'; apply Hk|intros e w' H' Hj; apply Hk, H', Hj].
Qed.
Lemma end_follows : follows (run_call CEnd) CEnd.
Proof.
  apply follows_ret. intros w Hw. unfold pmemobj_tx_end. apply wpe_get. unfold id.
  apply wpe_bind, wpe_when; [done|]. intros Hst%bool_decide_eq_false. apply wpe_bind, wpe_when; [done|]. intros _.
  apply wpe_bind. eapply (wpe_mono _ (λ _ w1, tx_entries (the_tx w1.2) = tx_entries (the_tx w.2) ∧ tx_lane (the_tx w1.2) = tx_lane (the_tx w.2)) _ (λ e _, is_jump e = false));
    [| |by intros ?? ->].
  { apply wpe_when; intros _; [|done]. apply wpe_upd_tx.
    eapply wpe_mono; [apply (moves_lands _ _ obj_callback_calm obj_callback_lands)| |done]. intros [] w1 [_ He Hl _ _]. exact (conj He Hl). }
  intros [] w1 [He1 Hl1]. apply wpe_innermost; [|done]. intros env l He. apply wpe_upd_tx, wpe_get. cbn [snd put_tx the_tx]. rewrite He.
  rewrite He1 in He. cbn [tail tx_entries set_entries].
  assert (∀ w', shaped (the_tx w'.2) ∧ (view (the_tx w'.2)) = (TX_STAGE_NONE, O, false) → l = [] →
    shaped (the_tx w'.2) ∧ tx_step CEnd (view (the_tx w.2)) (view (the_tx w'.2))) as Hk.
  { intros w' [? ->] ->. split; [done|]. rewrite inside, He by (by rewrite He). by constructor. }
  set (w2 := put_tx _ w1). assert (tx_entries (the_tx w2.2) = l) as He2 by done.
  unfold shaped in Hw. rewrite bool_decide_eq_false_2, He in Hw by done. destruct l as [|env' l].
  - rewrite bool_decide_eq_true_2 by done. apply wpe_bind. eapply wpe_mono; [by apply end_outermost_none| |by intros ?? ->].
    intros [] w3 H3. by apply (Hk w3).
  - rewrite bool_decide_eq_false_2 by done. apply wpe_bind.
    assert (∀ w', shaped (the_tx w'.2) ∧ (view (the_tx w'.2) = (TX_STAGE_WORK, S (length l), false) ∨ view (the_tx w'.2) = (TX_STAGE_ONABORT, S (length l), false)) →
      shaped (the_tx w'.2) ∧ tx_step CEnd (view (the_tx w.2)) (view (the_tx w'.2))) as Hk2.
    { intros w' [? Hv]. split; [done|]. rewrite (inside (the_tx w.2)), He by (by rewrite He). by destruct Hv as [-> | ->]; constructor. }
    eapply wpe_mono; [apply (end_nested_works w2 (length l)); [done|]|..].
    { cbn. rewrite Hl1. intros Hl. apply Hw in Hl; [|done]. cbn in Hl. lia. }
    + intros [] w3 H3. by apply (Hk2 w3).
    + intros e w3 H3 Hj. by apply Hk2, H3.
Qed.
Lemma call_follows c : follows (run_call c) c.
Proof.
  destruct (is_work c) eqn:Hc; [by apply work_follows|]. destruct c; try discriminate Hc.
  - apply begin_follows.
  - apply lock_follows.
  - apply abort_follows.
  - apply commit_follows. by left.
  - apply process_follows.
  - apply end_follows.
Qed.

(** C8. The calls of a thread follow the stages.  Let a thread, outside of transactions
    or inside of them, make any sequence of calls, in the right or in the wrong
    stages, where a call that jumps is followed by the next one too, and memory may
    run out.  As long as they return or jump, stage and nesting change as in the
    machine [tx_step] (so a call in a stage that it does not admit does not return).
    After each call, the [lane] of the transaction is set if the thread is at
    work; a thread that has left the work of its transactions has its lane set
    exactly if more than one of them has not ended; and a thread without an open
    transaction has it set exactly after a [pmemobj_tx_begin] that found no memory
    for the transaction (the third component), which leaves the thread in
    [TX_STAGE_ONABORT] with the lane.  The callbacks and the functions that take and
    release the locks are assumed not to use the transaction themselves and not to
    jump ([TxCalm]). *)
Theorem tx_typestate cs w w' :
  shaped (the_tx w.2) → run_calls cs w = Some w' →
  shaped (the_tx w'.2) ∧ tx_path cs (view (the_tx w.2)) (view (the_tx w'.2)).
Proof.
  revert w. induction cs as [|c cs IH]; intros w Hw Hrun; [by injection Hrun as <-|].
  cbn [run_calls] in Hrun. apply bind_Some in Hrun as (w1&Hc&Hrun).
  assert (shaped (the_tx w1.2) ∧ tx_step c (view (the_tx w.2)) (view (the_tx w1.2))) as [H1 H2].
  { pose proof (call_follows c w Hw) as Hf. unfold wpe in Hf. unfold after in Hc. destruct (run_call c w) as [[] w2|e w2]; [by injection Hc as <-|].
    destruct (is_jump e) eqn:Hj; [|done]. injection Hc as <-. by apply Hf. }
  destruct (IH w1 H1 Hrun) as [H3 H4]. split; [done|]. by exists (view (the_tx w1.2)).
Qed.
End stage.

(** ** A concrete run *)

Global Instance small_calm fuel : TxCalm (small_env fuel).
Proof. by split. Qed.
(** A transaction inside of another one is abandoned, and the outer one with it. *)
Definition nested_calls : list tx_call :=
  [CBegin 65536 5 []; CAddRangeDirect 69648 16; CBegin 65536 6 [TX_PARAM_MUTEX 70016]; CAbort 0; CProcess; CProcess; CEnd; CProcess; CProcess; CEnd].
Definition nested_end : option tx_view :=
  (λ w : txw unit unit, view (the_tx w.2)) <$> run_calls (E := small_env 40) nested_calls small_world.
Lemma nested_run : nested_end = Some (TX_STAGE_NONE, O, false).
Proof. vm_compute. reflexivity. Qed.
Example tx_typestate_witness :
  ∃ w', run_calls (E := small_env 40) nested_calls small_world = Some w' ∧ view (the_tx w'.2) = (TX_STAGE_NONE, O, false) ∧
    shaped (the_tx w'.2) ∧ tx_path nested_calls (TX_STAGE_NONE, O, false) (view (the_tx w'.2)).
Proof.
  destruct (proj1 (fmap_Some _ _ _) nested_run) as (w'&Hrun&Hv). exists w'. split; [exact Hrun|]. split; [symmetry; exact Hv|].
  apply (tx_typestate (E := small_env 40) (C := small_calm 40) (L := small_palloc_laws 40) nested_calls small_world w'); [|exact Hrun].
  by intros [].
Defined.
