(* ===== verification/TxNested.v ===== *)
(** * Nested transactions and the detector

    A transaction that is aborted inside of another one: the calls that PMDK traces
    and what the detector makes of them. *)
From stdpp Require Import base list strings sets gmap.
From S2P Require Import Prelude Trace Icl ShadowPM ShadowFacts Detector ByteSpec Refinement SegList Scenarios PinRun Instances.
From S2P Require Import Pmem PmemFacts Ulog UlogFacts LogChain Memops MemopsFacts UndoFacts UndoEnd UndoRecovery UndoInstances Lane LaneFacts LaneHold RedoFacts Palloc Ravl RavlTree RavlFacts TxRanges TxRangesFacts Tx TxOps TxRestore TxFacts TxAbort TxCommit TxSpec TxMoves TxInstances.
Open Scope Z_scope.
#[local] Set Default Proof Using "Type".

(** ** The entries of traced calls *)

Definition call_name (c : trace_call) : string * list Z :=
  match c with
  | pm_trace_tx_begin => ("pm_trace_tx_begin"%string, [])
  | pm_trace_tx_end => ("pm_trace_tx_end"%string, [])
  | pm_trace_tx_addr_add a n => ("pm_trace_tx_addr_add"%string, [a; n])
  end.
(** The event of a call: [ev] with another function and arguments. *)
Definition call_event (ev : event) (c : trace_call) : event :=
  let f := call_name c in
  Event f.1 (ev_return_ip ev) (ev_tid ev) f.2 (ev_result ev) (ev_ip ev) (ev_ea ev) (ev_read_size ev) (ev_write_size ev) (ev_deref ev).
Definition traced (ev : event) (cs : list trace_call) : list trace_entry_t := concat (map (λ c, call_entries (call_event ev c)) cs).

Section level.
Context {imap : Type → Type} {IM : IntervalMap imap} {iset : Type} {IS : IntervalSet iset}.
Context {IML : IntervalMapLaws imap} {ISL : IntervalSetLaws iset}.
Implicit Types (d : dstate imap iset).

(** Two begins and one end. *)
Lemma unbalanced_level ev d n :
  sh_wf (shadow (Detector.mem d)) → arr_ref (tx_level (shadow (Detector.mem d))) (ev_tid ev) = Some n → 0 ≤ n → n + 2 ≤ INT_MAX →
  ∃ d', update_all PRE_FAILURE (traced ev [pm_trace_tx_begin; pm_trace_tx_begin; pm_trace_tx_end]) d = Ok tt d' ∧
    arr_ref (tx_level (shadow (Detector.mem d'))) (ev_tid ev) = Some (n + 1).
Proof using IML ISL.
  intros Hwf Hn H0 H2. set (e o := TraceEntry o false (ev_tid ev) 0 0 0 (ev_return_ip ev) 0).
  change (traced ev _) with [e PM_TRACE_TX_BEGIN; e PM_TRACE_TX_BEGIN; e PM_TRACE_TX_END].
  pose proof (run_refines PRE_FAILURE [e PM_TRACE_TX_BEGIN; e PM_TRACE_TX_BEGIN; e PM_TRACE_TX_END] d Hwf) as Href.
  assert (∃ b, ref_run PRE_FAILURE [e PM_TRACE_TX_BEGIN; e PM_TRACE_TX_BEGIN; e PM_TRACE_TX_END] (abs (shadow (Detector.mem d))) = Some (b, []) ∧
    b_tx b (ev_tid ev) = Some (n + 1)) as (b&Hb&Hlev).
  { cbn [ref_run ref_step e operation func_ret tid]. unfold ref_tx_end. cbn. rewrite Hn. cbn. rewrite (proj2 (Z.eqb_neq n INT_MAX)) by lia. cbn.
    unfold fupd. rewrite !Z.eqb_refl. cbn. rewrite (proj2 (Z.eqb_neq (n + 1) INT_MAX)) by lia. cbn. rewrite !Z.eqb_refl. cbn.
    rewrite (proj2 (Z.leb_gt (n + 1 + 1) 0)), (proj2 (Z.eqb_neq (n + 1 + 1) 1)) by lia. cbn. eexists. split; [reflexivity|]. cbn.
    rewrite Z.eqb_refl. f_equal. lia. }
  assert (Forall entry_ok [e PM_TRACE_TX_BEGIN; e PM_TRACE_TX_BEGIN; e PM_TRACE_TX_END]) as Hok by repeat constructor.
  specialize (Href Hok). unfold wpe in Href. destruct (update_all _ _ d) as [[] d'|]; [|congruence].
  destruct Href as (b'&bad&Hb'&Habs&_). exists d'. split; [done|]. rewrite Hb in Hb'. injection Hb' as <- <-. rewrite <-Hlev. apply Habs.
Qed.
End level.

(** ** The blocks *)

Section nested.
Context {X H : Type} {E : TxEnv X H} {user : Z → Prop} {L : TxLaws E user}.
Abbreviation TW := (txw X H).
Abbreviation TS := (txs X H).
Implicit Types (s : TS) (w : TW) (t : ravl tx_range_def).

Lemma wpe_catch env (c h : M TW unit) (Q : unit → TW → Prop) J w :
  wpe c Q (λ e w', match e with LongJump b v => if b =? env then wpe h Q J w' else J e w' | _ => J e w' end) w → wpe (catch env c h) Q J w.
Proof. unfold wpe, catch. destruct (c w) as [|e w']; [done|]. destruct e; try done. by destruct (_ =? env). Qed.
Lemma wpe_no_callback (Q : unit → TW → Prop) J w : stage_callback (the_tx w.2) = 0 → Q tt w → wpe obj_tx_callback Q J w.
Proof. destruct w as [t s]. intros Hc Hk. unfold wpe. by rewrite (no_callback t s Hc). Qed.

(** A block that has come to an end without the program's doing: the parts that
    are left out. *)
Definition empty_parts (f : M TW unit) : tx_parts := Parts f (ret tt) (ret tt) (ret tt).
Definition nested_block (fuel : nat) (env1 env2 errnum : Z) : M TW unit :=
  tx_block fuel pop env1 [] (empty_parts (tx_block fuel pop env2 [] (empty_parts (pmemobj_tx_abort errnum)))).

Lemma loop_turn fuel env f (Q : unit → TW → Prop) J w :
  stage (the_tx w.2) = TX_STAGE_ONABORT ∨ stage (the_tx w.2) = TX_STAGE_FINALLY → stage_callback (the_tx w.2) = 0 →
  wpe (tx_loop fuel env (empty_parts f)) Q J
    (put_tx (set_stage (if bool_decide (stage (the_tx w.2) = TX_STAGE_ONABORT) then TX_STAGE_FINALLY else TX_STAGE_NONE) (the_tx w.2)) w) →
  wpe (tx_loop (S fuel) env (empty_parts f)) Q J w.
Proof.
  intros Hst Hcb Hk. cbn [tx_loop]. apply wpe_bind, wpe_zoom, wpe_gets. destruct w as [t s]. cbn [snd fst] in *.
  rewrite bool_decide_eq_false_2 by (cbn; destruct Hst as [Hst|Hst]; by rewrite Hst).
  apply wpe_bind, wpe_catch, wpe_bind. assert (part_of (empty_parts f) (stage (the_tx s)) = ret tt) as -> by (by destruct Hst as [-> | ->]).
  apply wpe_ret. unfold pmemobj_tx_process. apply wpe_bind, wpe_zoom, wpe_bind, wpe_gets, wpe_when.
  { cbn. intros Hn%bool_decide_eq_true. destruct Hst as [Hst|Hst]; by rewrite Hst in Hn. }
  intros _. apply wpe_get. cbn [snd]. destruct Hst as [Hst|Hst]; rewrite Hst in *.
  - apply wpe_upd_tx, wpe_no_callback; [done|]. rewrite bool_decide_eq_true_2 in Hk by done. exact Hk.
  - rewrite bool_decide_eq_false_2 in Hk by done. exact Hk.
Qed.
Lemma loop_end fuel env f (Q : unit → TW → Prop) J w :
  stage (the_tx w.2) = TX_STAGE_NONE → Q tt w → wpe (tx_loop (S fuel) env (empty_parts f)) Q J w.
Proof.
  intros Hst HQ. cbn [tx_loop]. apply wpe_bind, wpe_zoom, wpe_gets. destruct w as [t s]. cbn [snd fst] in *. rewrite bool_decide_eq_true_2 by done. exact HQ.
Qed.
(** An aborted block runs down to the stage [TX_STAGE_NONE]. *)
Lemma loop_down fuel env f (Q : unit → TW → Prop) J w :
  (3 ≤ fuel)%nat → stage (the_tx w.2) = TX_STAGE_ONABORT → stage_callback (the_tx w.2) = 0 →
  Q tt (put_tx (set_stage TX_STAGE_NONE (the_tx w.2)) w) → wpe (tx_loop fuel env (empty_parts f)) Q J w.
Proof.
  intros Hf Hst Hcb HQ. destruct fuel as [|[|[|fuel]]]; [lia..|]. apply loop_turn; [by left|done|]. rewrite Hst, bool_decide_eq_true_2 by done.
  apply loop_turn; [by right|done|]. cbn [put_tx snd the_tx stage set_stage]. rewrite bool_decide_eq_false_2 by done.
  apply loop_end; [done|]. exact HQ.
Qed.

(** Beginning inside of a transaction. *)
Lemma nested_begin env (Q : Z → TW → Prop) J w :
  stage (the_tx w.2) = TX_STAGE_WORK → tx_lane (the_tx w.2) ≠ None → tx_pop (the_tx w.2) = pop →
  Q 0 (put_tx (set_stage TX_STAGE_WORK (set_entries (env :: tx_entries (the_tx w.2)) (set_last_errnum 0 (the_tx w.2)))) (w.1, add_call pm_trace_tx_begin w.2)) →
  wpe (pmemobj_tx_begin pop env []) Q J w.
Proof using L.
  destruct w as [t s]. cbn [fst snd]. intros Hst Hl Hp HQ. unfold pmemobj_tx_begin. apply wpe_bind, wpe_zoom, wpe_modify, wpe_get. cbn [fst snd the_tx]. unfold id.
  rewrite Hst, Hp, Z.eqb_refl. apply wpe_bind, wpe_assert; [|intros Hb%negb_false_iff%bool_decide_eq_true; congruence]. intros _. cbn [negb].
  unfold enter_work. apply wpe_bind, wpe_zoom, wpe_gets. rewrite tx_malloc. cbn [negb]. apply wpe_upd_tx, wpe_upd_tx, wpe_upd_tx. exact HQ.
Qed.
(** Aborting it does not touch the log: control goes to its [setjmp]. *)
Lemma nested_abort env env' l errnum (Q : unit → TW → Prop) J w :
  stage (the_tx w.2) = TX_STAGE_WORK → tx_lane (the_tx w.2) ≠ None → tx_entries (the_tx w.2) = env :: env' :: l → stage_callback (the_tx w.2) = 0 → env ≠ 0 →
  J (LongJump env (error_of errnum))
    (w.1, Txs (set_last_errnum (error_of errnum) (set_stage TX_STAGE_ONABORT (the_tx w.2))) (w_lanes w.2) (w_heap w.2) (calls w.2) (error_of errnum)) →
  wpe (obj_tx_abort errnum) Q J w.
Proof.
  intros Hst Hl He Hcb Henv HJ. unfold obj_tx_abort. apply wpe_assert_work; [intros _|done]. apply wpe_get, wpe_bind, wpe_assert;
    [|intros Hb%negb_false_iff%bool_decide_eq_true; congruence]. intros _. apply wpe_upd_tx. unfold innermost.
  apply wpe_bind, wpe_zoom, wpe_bind, wpe_gets. cbn [snd put_tx the_tx tx_entries set_stage]. rewrite He. apply wpe_ret.
  rewrite bool_decide_eq_false_2 by done. cbn [snd fst when]. apply wpe_bind, wpe_ret, wpe_upd_tx. apply wpe_bind, wpe_zoom, wpe_modify.
  apply wpe_bind, wpe_no_callback; [done|]. rewrite (proj2 (Z.eqb_neq env 0)) by done. exact HJ.
Qed.
Lemma nested_end env env' l (Q : Z → TW → Prop) J w :
  stage (the_tx w.2) ≠ TX_STAGE_WORK → tx_pop (the_tx w.2) = pop → stage_callback (the_tx w.2) = 0 → tx_entries (the_tx w.2) = env :: env' :: l →
  last_errnum (the_tx w.2) ≠ 0 →
  wpe (obj_tx_abort (last_errnum (the_tx w.2))) (λ _, wpe (on_rest (trace pm_trace_tx_end) ;; on_rest (get last_errnum)) Q J) J
    (put_tx (set_stage TX_STAGE_WORK (set_entries (env' :: l) (the_tx w.2))) w) →
  wpe pmemobj_tx_end Q J w.
Proof using L.
  intros Hst Hp Hcb He Hn Hk. pose proof pool_pos as Hpos. unfold pmemobj_tx_end. apply wpe_get. unfold id.
  rewrite bool_decide_eq_false_2, Hp, (proj2 (Z.eqb_neq pop 0)), Hcb by (done || lia). cbn [Z.eqb negb andb when].
  apply wpe_bind, wpe_ret, wpe_bind, wpe_ret, wpe_bind, wpe_ret. unfold innermost. apply wpe_bind, wpe_zoom, wpe_bind, wpe_gets. rewrite He.
  apply wpe_ret, wpe_upd_tx, wpe_get. destruct w as [t s]. cbn [fst snd put_tx the_tx tx_entries set_entries] in *. rewrite He. cbn [tail].
  rewrite bool_decide_eq_false_2 by done. unfold end_nested. apply wpe_bind, wpe_upd_tx, wpe_get. cbn [snd fst put_tx the_tx last_errnum set_stage set_entries].
  rewrite (proj2 (Z.eqb_neq _ 0)) by done. exact Hk.
Qed.
Lemma wpe_Ok {S A} (f : M S A) Q J (s s' : S) v : f s = Ok v s' → Q v s' → wpe f Q J s.
Proof. unfold wpe. by intros ->. Qed.
Lemma error_nonzero e : error_of e ≠ 0.
Proof. unfold error_of. destruct (Z.eqb_spec e 0); [done|done]. Qed.

Lemma error_twice e : error_of (error_of e) = error_of e.
Proof. unfold error_of at 1. by rewrite (proj2 (Z.eqb_neq _ 0) (error_nonzero e)). Qed.

(** The state of the inner transaction when it is aborted. *)
Lemma inner_block fuel env1 env2 errnum (Q : unit → TW → Prop) J t s :
  (4 ≤ fuel)%nat → stage (the_tx s) = TX_STAGE_WORK → tx_lane (the_tx s) ≠ None → tx_pop (the_tx s) = pop → stage_callback (the_tx s) = 0 →
  tx_entries (the_tx s) = [env1] → env2 ≠ 0 →
  (∀ x, x = set_last_errnum (error_of errnum) (the_tx s) →
    wpe (obj_tx_abort (error_of errnum)) (λ _ _, False) J (t, Txs x (w_lanes s) (w_heap s) (pm_trace_tx_begin :: calls s) (error_of errnum))) →
  wpe (tx_block fuel pop env2 [] (empty_parts (pmemobj_tx_abort errnum))) Q J (t, s).
Proof using L.
  intros Hf Hst Hl Hp Hcb He Henv Hk. unfold tx_block. apply wpe_bind, wpe_catch, wpe_bind, nested_begin; [done..|]. cbn [fst snd].
  apply wpe_zoom, wpe_when; [done|intros _]. set (w1 := (_, _)).
  assert (the_tx w1.2 = set_stage TX_STAGE_WORK (set_entries (env2 :: tx_entries (the_tx s)) (set_last_errnum 0 (the_tx s)))) as Hw1 by done.
  apply wpe_bind. destruct fuel as [|fuel]; [lia|]. cbn [tx_loop]. apply wpe_bind, wpe_zoom, wpe_gets.
  rewrite bool_decide_eq_false_2 by (cbn; congruence). apply wpe_bind, wpe_catch, wpe_bind.
  change (part_of _ _) with (pmemobj_tx_abort errnum). apply (nested_abort env2 env1 []); cbn; try done; [by rewrite He|].
  rewrite Z.eqb_refl. apply loop_down; cbn; try done; [lia|]. apply wpe_bind, (nested_end env2 env1 []); cbn; try done; [by rewrite He|apply error_nonzero|].
  eapply wpe_mono; [apply Hk|done..]. destruct s as [x]. cbn in *. destruct x. cbn in *. by subst.
Qed.

Lemma nested_abort_run fuel env1 env2 errnum w :
  idle w.2 → env1 ≠ 0 → env2 ≠ 0 → (4 ≤ fuel)%nat →
  ∃ w', nested_block fuel env1 env2 errnum w = Ok tt w' ∧ stage (the_tx w'.2) = TX_STAGE_NONE ∧ last_errnum (the_tx w'.2) = error_of errnum ∧
    (∀ q, user q → memory w'.2 q = memory w.2 q) ∧ calls w'.2 = [pm_trace_tx_end; pm_trace_tx_begin; pm_trace_tx_begin] ++ calls w.2.
Proof using L.
  intros Hid H1 H2 Hf. destruct w as [t s]. cbn [snd] in *.
  destruct (begin_Ok t s env1 Hid) as (t1&s1&i&l&gs&Hb&[Hlog Hst Hr Ht Hso Hcov Hkept]&[He Hcb Hlk Hh Hen Hp]&Hm&Hc&_). cbn [fst snd] in *.
  set (P w' := stage (the_tx w'.2) = TX_STAGE_NONE ∧ last_errnum (the_tx w'.2) = error_of errnum ∧
    (∀ q, user q → memory w'.2 q = memory s q) ∧ calls w'.2 = [pm_trace_tx_end; pm_trace_tx_begin; pm_trace_tx_begin] ++ calls s).
  assert (wpe (nested_block fuel env1 env2 errnum) (λ _, P) (λ _ _, False) (t, s)) as Hrun.
  2:{ unfold wpe in Hrun. destruct (nested_block fuel env1 env2 errnum (t, s)) as [[] w'|]; [|done]. by exists w'. }
  unfold nested_block, tx_block at 1. apply wpe_bind, wpe_catch, wpe_bind. eapply wpe_Ok; [exact Hb|]. apply wpe_zoom, wpe_when; [done|intros _]. cbn [fst snd].
  apply wpe_bind. destruct fuel as [|fuel]; [lia|]. cbn [tx_loop]. apply wpe_bind, wpe_zoom, wpe_gets. cbn [fst snd]. rewrite Hst, bool_decide_eq_false_2 by done.
  apply wpe_bind, wpe_catch, wpe_bind. cbn [part_of empty_parts work].
  apply (inner_block _ env1); try done; [by rewrite (lo_lane _ _ _ _ _ _ Hlog)|]. intros x ->.
  set (s2 := Txs (set_last_errnum (error_of errnum) (the_tx s1)) (w_lanes s1) (w_heap s1) (pm_trace_tx_begin :: calls s1) (error_of errnum)).
  assert (logged (memory s) i l [] gs s2) as Hlog2 by (destruct Hlog; by split).
  destruct (obj_tx_abort_Ok (memory s) i l [] gs t1 s2 no_ranges env1 (error_of errnum) Hlog2) as (t3&s3&Hab&[Hm3 _ _ Htx _ Hc3]); try done.
  { intros y Hy. by apply elem_of_nil in Hy. }
  { pose proof big_loops as Hbig. unfold big in Hbig. cbn. lia. }
  unfold wpe at 1. rewrite Hab, (proj2 (Z.eqb_neq env1 0)) by done. rewrite Z.eqb_refl.
  assert (∀ q, ¬ locked (tx_locks (the_tx s2)) q) as Hnl by (cbn; rewrite Hlk; by intros q (k&?%elem_of_nil&_)).
  apply wpe_bind, wpe_zoom, wpe_gets, wpe_zoom, wpe_modify. cbn [fst snd]. apply loop_down; cbn; rewrite ?Htx; try done; [lia|].
  apply wpe_bind. eapply wpe_Ok; [apply (end_Ok env1); cbn; rewrite ?Htx; cbn; done|]. apply wpe_zoom. cbn.
  unfold set_errno_if. apply wpe_when; intros _; [apply wpe_modify|]; (split; [done|]; split; [exact (error_twice errnum)|]; split; [intros q Hq; by apply Hm3|]);
    cbn; rewrite Hc3; cbn; by rewrite Hc.
Qed.
End nested.

Section composition.
Context {X H : Type} {E : TxEnv X H} {user : Z → Prop} {L : TxLaws E user}.
Context {imap : Type → Type} {IM : IntervalMap imap} {iset : Type} {IS : IntervalSet iset}.
Context {IML : IntervalMapLaws imap} {ISL : IntervalSetLaws iset}.

(** C9. An abort inside of a nested transaction leaves the detector inside of a
    transaction.  A thread runs a block in a block; the inner one aborts, which
    aborts the outer one too.  Both blocks end, the data of the application are as
    before, and no transaction is open; but PMDK has traced two begins and one end,
    since the abort jumps out of [pmemobj_tx_end] of the inner transaction.  From
    then on the detector, fed with the entries that the Pin tool sends for these
    calls, counts the thread as inside of one more transaction. *)
Theorem nested_abort_unbalanced fuel env1 env2 errnum (w : txw X H) ev (d : dstate imap iset) n :
  idle w.2 → env1 ≠ 0 → env2 ≠ 0 → (4 ≤ fuel)%nat →
  sh_wf (shadow (Detector.mem d)) → arr_ref (tx_level (shadow (Detector.mem d))) (ev_tid ev) = Some n → 0 ≤ n → n + 2 ≤ INT_MAX →
  ∃ w' cs d', nested_block fuel env1 env2 errnum w = Ok tt w' ∧ Tx.stage (the_tx w'.2) = TX_STAGE_NONE ∧
    (∀ q, user q → memory w'.2 q = memory w.2 q) ∧ Tx.calls w'.2 = cs ++ Tx.calls w.2 ∧
    update_all PRE_FAILURE (traced ev (reverse cs)) d = Ok tt d' ∧ arr_ref (tx_level (shadow (Detector.mem d'))) (ev_tid ev) = Some (n + 1).
Proof using L IML ISL.
  intros Hid H1 H2 Hf Hwf Hn H0 Hmax. destruct (nested_abort_run fuel env1 env2 errnum w Hid H1 H2 Hf) as (w'&Hrun&Hst&_&Hm&Hc).
  destruct (unbalanced_level ev d n Hwf Hn H0 Hmax) as (d'&Hd&Hlev). by exists w', [pm_trace_tx_end; pm_trace_tx_begin; pm_trace_tx_begin], d'.
Qed.
End composition.

Definition quiet_event : event := Event EmptyString 0 0 [] 0 0 (λ _, 0) 0 0 (λ _, 0).
Lemma dstate0_wf : sh_wf (shadow (Detector.mem dstate0)).
Proof. vm_compute. tauto. Qed.
Example nested_abort_unbalanced_witness :
  let env := small_env enough in
  ∃ w' cs (d' : dstate _ _), nested_block 4 5 6 0 small_world = Ok tt w' ∧ Tx.stage (the_tx w'.2) = TX_STAGE_NONE ∧
    (∀ q, objects q → memory w'.2 q = fresh q) ∧ Tx.calls w'.2 = cs ++ [] ∧
    update_all PRE_FAILURE (traced quiet_event (reverse cs)) dstate0 = Ok tt d' ∧
    arr_ref (tx_level (shadow (Detector.mem d'))) 0 = Some 1.
Proof.
  apply (nested_abort_unbalanced (E := small_env enough) (L := small_laws) 4 5 6 0 small_world quiet_event dstate0 0);
    [exact small_idle|done|done|lia|exact dstate0_wf|done|lia|vm_compute; congruence].
Defined.
