(* ===== verification/Critnib.v ===== *)
(** * Critnib trees

    [src/pmdk/src/libpmemobj/critnib.c]: radix trees over 64-bit keys, four bits at
    a time, without the nodes that would have a single child.  They map the
    pools of a thread to its lanes and unit sizes to allocation classes.

    Removed nodes and leaves go to pools of the structure, after a grace period in
    which readers of other threads may still look at them.  Changes are made under
    a mutex; one thread runs here, so that the mutex is left out. *)
From stdpp Require Import base list strings gmap.
From S2P Require Import Prelude.
Open Scope Z_scope.

Definition DELETED_LIFE : Z := 16.
Definition SLICE : Z := 4.
Definition NIB : Z := 15.
Definition SLNODES : nat := 16.
Definition EEXIST : Z := 17.
Definition ENOMEM : Z := 12.

(** A [struct critnib_node *] whose lowest bit says that it is a leaf. *)
Inductive ptr := PNull | PLeaf (a : Z) | PNode (a : Z).
Global Instance ptr_eq_dec : EqDecision ptr.
Proof. solve_decision. Defined.
Record critnib_node := CNode { child : list ptr; path : Z; shift : Z }.
Record critnib_leaf := CLeaf { key : Z; value : Z }.
(** [nodes] and [leaves] is the memory of the structure; 0 is [NULL]. *)
Record critnib := Critnib {
  nodes : gmap Z critnib_node;
  leaves : gmap Z critnib_leaf;
  root : ptr;
  deleted_node : Z;
  deleted_leaf : Z;
  pending_del_nodes : list Z;
  pending_del_leaves : list Z;
  remove_count : Z;
}.
Definition set_nodes x c := Critnib x (leaves c) (root c) (deleted_node c) (deleted_leaf c) (pending_del_nodes c) (pending_del_leaves c) (remove_count c).
Definition set_leaves x c := Critnib (nodes c) x (root c) (deleted_node c) (deleted_leaf c) (pending_del_nodes c) (pending_del_leaves c) (remove_count c).
Definition set_root x c := Critnib (nodes c) (leaves c) x (deleted_node c) (deleted_leaf c) (pending_del_nodes c) (pending_del_leaves c) (remove_count c).
Definition set_deleted_node x c := Critnib (nodes c) (leaves c) (root c) x (deleted_leaf c) (pending_del_nodes c) (pending_del_leaves c) (remove_count c).
Definition set_deleted_leaf x c := Critnib (nodes c) (leaves c) (root c) (deleted_node c) x (pending_del_nodes c) (pending_del_leaves c) (remove_count c).
Definition set_pending x y c := Critnib (nodes c) (leaves c) (root c) (deleted_node c) (deleted_leaf c) x y (remove_count c).
Definition set_count x c := Critnib (nodes c) (leaves c) (root c) (deleted_node c) (deleted_leaf c) (pending_del_nodes c) (pending_del_leaves c) x.

Definition is_leaf (n : ptr) : bool := match n with PLeaf _ => true | _ => false end.
Definition path_mask (sh : Z) : Z := u64 (Z.shiftl (U64 - 1 - NIB) sh).
Definition slice_index (k sh : Z) : nat := Z.to_nat (Z.land (Z.shiftr k sh) NIB).
Definition util_mssb_index64 (v : Z) : Z := Z.log2 v.

(** [Zalloc] is whether there is memory for the structure. *)
Definition critnib_new (Zalloc : bool) : option critnib :=
  if Zalloc then Some (Critnib ∅ ∅ PNull 0 0 (replicate 16 0) (replicate 16 0) 0) else None.

(** The blocks that [Malloc] returns, [None] without memory. *)
Class NibMalloc := {
  Malloc_node : gmap Z critnib_node → option Z;
  Malloc_leaf : gmap Z critnib_leaf → option Z;
}.

Section critnib.
Context {E : NibMalloc}.
Abbreviation C := (M critnib).

Definition deref_node (a : Z) : C critnib_node :=
  let! m := gets nodes in
  match m !! a with Some n => ret n | None => stop (UndefinedBehaviour "struct critnib_node *") end.
Definition deref_leaf (a : Z) : C critnib_leaf :=
  let! m := gets leaves in
  match m !! a with Some k => ret k | None => stop (UndefinedBehaviour "struct critnib_leaf *") end.
Definition put_node (a : Z) (n : critnib_node) : C unit := deref_node a ;; modify (λ c, set_nodes (<[a := n]> (nodes c)) c).
Definition put_leaf (a : Z) (k : critnib_leaf) : C unit := deref_leaf a ;; modify (λ c, set_leaves (<[a := k]> (leaves c)) c).
Definition child_at (n : critnib_node) (i : nat) : ptr := default PNull (child n !! i).
Definition set_child (i : nat) (q : ptr) (n : critnib_node) : critnib_node := CNode (<[i := q]> (child n)) (path n) (shift n).
(** A [struct critnib_node **]. *)
Inductive node_ref := RootRef | ChildRef (a : Z) (i : nat).
Definition store (r : node_ref) (q : ptr) : C unit :=
  match r with
  | RootRef => modify (set_root q)
  | ChildRef a i => let! n := deref_node a in put_node a (set_child i q n)
  end.

(** ** The pools *)

(** [next] at [child[0]] and at [value] *)
Definition free_node (a : Z) : C unit :=
  when (negb (a =? 0))
    (let! n := deref_node a in
     let! d := gets deleted_node in
     put_node a (set_child 0 (if d =? 0 then PNull else PNode d) n) ;;
     modify (set_deleted_node a)).
(** A new block, whose contents are not defined, or the first of the pool; 0 without
    memory. *)
Definition alloc_node : C Z :=
  let! d := gets deleted_node in
  if d =? 0 then
    let! m := gets nodes in
    match Malloc_node m with
    | None => ret 0
    | Some a => modify (set_nodes (<[a := CNode (replicate SLNODES PNull) 0 0]> m)) ;; ret a
    end
  else
    let! n := deref_node d in
    match child_at n 0 with
    | PNull => modify (set_deleted_node 0) ;; ret d
    | PNode a => modify (set_deleted_node a) ;; ret d
    | PLeaf _ => stop (UndefinedBehaviour "c->deleted_node")
    end.
Definition free_leaf (a : Z) : C unit :=
  when (negb (a =? 0))
    (let! k := deref_leaf a in
     let! d := gets deleted_leaf in
     put_leaf a (CLeaf (key k) d) ;;
     modify (set_deleted_leaf a)).
Definition alloc_leaf : C Z :=
  let! d := gets deleted_leaf in
  if d =? 0 then
    let! m := gets leaves in
    match Malloc_leaf m with
    | None => ret 0
    | Some a => modify (set_leaves (<[a := CLeaf 0 0]> m)) ;; ret a
    end
  else
    let! k := deref_leaf d in
    modify (set_deleted_leaf (value k)) ;;
    ret d.

(** ** Inserting *)

(** [n], [parent] and [prev] at the end of the loop.  [fuel] bounds the levels. *)
Fixpoint descend (fuel : nat) (k : Z) (n : ptr) (parent : node_ref) (prev : ptr) : C (ptr * node_ref * ptr) :=
  match n with
  | PNode a =>
      match fuel with
      | O => stop OutOfFuel
      | S fuel' =>
          let! nd := deref_node a in
          if Z.land k (path_mask (shift nd)) =? path nd then
            let i := slice_index k (shift nd) in
            descend fuel' k (child_at nd i) (ChildRef a i) (PNode a)
          else ret (n, parent, prev)
      end
  | _ => ret (n, parent, prev)
  end.
Definition path_of (n : ptr) : C Z :=
  match n with
  | PNull => stop (UndefinedBehaviour "n->path")
  | PLeaf a => let! k := deref_leaf a in ret (key k)
  | PNode a => let! nd := deref_node a in ret (path nd)
  end.
(** The subtree [n] and the leaf [kn] differ: a new node over both. *)
Definition split_at (k : Z) (l : Z) (n : ptr) (parent : node_ref) : C Z :=
  let! p := path_of n in
  let at_ := Z.lxor p k in
  if at_ =? 0 then
    assert_ (is_leaf n) "is_leaf(n)" ;;
    free_leaf l ;;
    ret EEXIST
  else
    let sh := Z.land (util_mssb_index64 at_) (255 - (SLICE - 1)) in
    let! m := alloc_node in
    if m =? 0 then free_leaf l ;; ret ENOMEM
    else
      put_node m (CNode (<[slice_index p sh := n]> (<[slice_index k sh := PLeaf l]> (replicate SLNODES PNull)))
                    (Z.land k (path_mask sh)) sh) ;;
      store parent (PNode m) ;;
      ret 0.
Definition critnib_insert (fuel : nat) (k v : Z) : C Z :=
  let! l := alloc_leaf in
  if l =? 0 then ret ENOMEM
  else
    put_leaf l (CLeaf k v) ;;
    let! r := gets root in
    match r with
    | PNull => modify (set_root (PLeaf l)) ;; ret 0
    | _ =>
        let! d := descend fuel k r RootRef r in
        match d.1.1 with
        | PNull =>
            match d.2 with
            | PNode a =>
                let! nd := deref_node a in
                store (ChildRef a (slice_index k (shift nd))) (PLeaf l) ;;
                ret 0
            | _ => stop (UndefinedBehaviour "prev->child")
            end
        | n => split_at k l n d.1.2
        end
    end.

(** ** Removing *)

(** [kn], [k_parent], [n] and [n_parent]; a missing child ends the loop. *)
Fixpoint descend_to (fuel : nat) (k : Z) (kn : ptr) (k_parent : node_ref) (n : ptr) (n_parent : node_ref)
    : C (ptr * node_ref * ptr * node_ref) :=
  match kn with
  | PNode a =>
      match fuel with
      | O => stop OutOfFuel
      | S fuel' =>
          let! nd := deref_node a in
          let i := slice_index k (shift nd) in
          descend_to fuel' k (child_at nd i) (ChildRef a i) kn k_parent
      end
  | _ => ret (kn, k_parent, n, n_parent)
  end.
(** The children that are left: none, one, or more. *)
Definition only_child (n : critnib_node) : option (list ptr) :=
  match filter (λ q, q ≠ PNull) (child n) with
  | [] => Some []
  | [q] => Some [q]
  | _ => None
  end.
Definition put_pending_node (del : nat) (a : Z) : C unit :=
  modify (λ c, set_pending (<[del := a]> (pending_del_nodes c)) (pending_del_leaves c) c).
Definition put_pending_leaf (del : nat) (a : Z) : C unit :=
  modify (λ c, set_pending (pending_del_nodes c) (<[del := a]> (pending_del_leaves c)) c).
(** [del_leaf] *)
Definition del_leaf (del : nat) (a : Z) : C Z :=
  let! k := deref_leaf a in
  put_pending_leaf del a ;;
  ret (value k).
(** The slot of the grace period, emptied into the pools. *)
Definition next_del : C nat :=
  let! count := gets remove_count in
  modify (set_count (u64 (count + 1))) ;;
  let del := Z.to_nat (count `mod` DELETED_LIFE) in
  let! pn := gets (λ c, default 0 (pending_del_nodes c !! del)) in
  let! pl := gets (λ c, default 0 (pending_del_leaves c !! del)) in
  free_node pn ;;
  free_leaf pl ;;
  put_pending_node del 0 ;;
  put_pending_leaf del 0 ;;
  ret del.
Definition remove_below (del : nat) (fuel : nat) (k : Z) (r : ptr) : C Z :=
  let! d := descend_to fuel k r RootRef r RootRef in
  let '(kn, _, n, n_parent) := d in
  match kn, n with
  | PLeaf a, PNode b =>
      let! lf := deref_leaf a in
      if negb (key lf =? k) then ret 0
      else
        let! nd := deref_node b in
        store (ChildRef b (slice_index k (shift nd))) PNull ;;
        let! nd' := deref_node b in
        match only_child nd' with
        | None => del_leaf del a
        | Some [] => stop (AssertFailed "ochild != -1")
        | Some (q :: _) =>
            store n_parent q ;;
            put_pending_node del b ;;
            del_leaf del a
        end
  | _, _ => ret 0
  end.
Definition critnib_remove (fuel : nat) (k : Z) : C Z :=
  let! r := gets root in
  match r with
  | PNull => ret 0
  | PLeaf a =>
      let! del := next_del in
      let! lf := deref_leaf a in
      if key lf =? k then modify (set_root PNull) ;; del_leaf del a else ret 0
  | PNode _ => let! del := next_del in remove_below del fuel k r
  end.

(** ** Searching *)

Fixpoint dive (fuel : nat) (k : Z) (n : ptr) : C ptr :=
  match n with
  | PNode a =>
      match fuel with
      | O => stop OutOfFuel
      | S fuel' => let! nd := deref_node a in dive fuel' k (child_at nd (slice_index k (shift nd)))
      end
  | _ => ret n
  end.
Definition get_once (fuel : nat) (k : Z) : C Z :=
  let! r := gets root in
  let! n := dive fuel k r in
  match n with
  | PLeaf a => let! lf := deref_leaf a in ret (if key lf =? k then value lf else 0)
  | _ => ret 0
  end.
(** A reader starts again when there were too many removals meanwhile; [turns]
    bounds that. *)
Fixpoint stable (turns : nat) (f : C Z) : C Z :=
  match turns with
  | O => stop OutOfFuel
  | S turns' =>
      let! wrs1 := gets remove_count in
      let! res := f in
      let! wrs2 := gets remove_count in
      if u64 (wrs1 + DELETED_LIFE) <=? wrs2 then stable turns' f else ret res
  end.
Definition critnib_get (turns fuel : nat) (k : Z) : C Z := stable turns (get_once fuel k).

(** The last child before [nib] that is not [NULL]. *)
Definition last_child (nib : nat) (n : critnib_node) : ptr := default PNull (last (filter (λ q, q ≠ PNull) (take nib (child n)))).
Fixpoint find_successor (fuel : nat) (n : critnib_node) : C Z :=
  match last_child SLNODES n with
  | PNull => ret 0
  | PLeaf a => let! lf := deref_leaf a in ret (value lf)
  | PNode a =>
      match fuel with
      | O => stop OutOfFuel
      | S fuel' => let! nd := deref_node a in find_successor fuel' nd
      end
  end.
Fixpoint find_le (fuel : nat) (n : ptr) (k : Z) : C Z :=
  match n with
  | PNull => ret 0
  | PLeaf a => let! lf := deref_leaf a in ret (if key lf <=? k then value lf else 0)
  | PNode a =>
      match fuel with
      | O => stop OutOfFuel
      | S fuel' =>
          let! nd := deref_node a in
          if negb (Z.land (Z.shiftr (Z.lxor k (path nd)) (shift nd)) (U64 - 1 - NIB) =? 0) then
            if path nd <? k then find_successor fuel' nd else ret 0
          else
            let nib := slice_index k (shift nd) in
            let! v := find_le fuel' (child_at nd nib) k in
            if negb (v =? 0) then ret v
            else
              match last_child nib nd with
              | PNull => ret 0
              | PLeaf b => let! lf := deref_leaf b in ret (value lf)
              | PNode b => let! nd' := deref_node b in find_successor fuel' nd'
              end
      end
  end.
Definition find_le_once (fuel : nat) (k : Z) : C Z := let! r := gets root in find_le fuel r k.
Definition critnib_find_le (turns fuel : nat) (k : Z) : C Z := stable turns (find_le_once fuel k).

(** ** Deleting *)

(** [Free]: of [NULL] nothing, of a block that is not allocated undefined. *)
Definition Free_node (a : Z) : C unit :=
  when (negb (a =? 0)) (deref_node a ;; modify (λ c, set_nodes (delete a (nodes c)) c)).
Definition Free_leaf (a : Z) : C unit :=
  when (negb (a =? 0)) (deref_leaf a ;; modify (λ c, set_leaves (delete a (leaves c)) c)).
Fixpoint delete_node (fuel : nat) (n : ptr) : C unit :=
  match n with
  | PNull => stop (UndefinedBehaviour "n->child")
  | PLeaf a => Free_leaf a
  | PNode a =>
      match fuel with
      | O => stop OutOfFuel
      | S fuel' =>
          for_each (seq 0 SLNODES) (λ i,
            let! nd := deref_node a in
            when (bool_decide (child_at nd i ≠ PNull)) (delete_node fuel' (child_at nd i))) ;;
          Free_node a
      end
  end.
(** The pools; [fuel] is more than their length. *)
Fixpoint delete_nodes (fuel : nat) (a : Z) : C unit :=
  if a =? 0 then ret tt
  else
    match fuel with
    | O => stop OutOfFuel
    | S fuel' =>
        let! n := deref_node a in
        Free_node a ;;
        match child_at n 0 with
        | PNull => ret tt
        | PNode b => delete_nodes fuel' b
        | PLeaf _ => stop (UndefinedBehaviour "m->child[0]")
        end
    end.
Fixpoint delete_leaves (fuel : nat) (a : Z) : C unit :=
  if a =? 0 then ret tt
  else
    match fuel with
    | O => stop OutOfFuel
    | S fuel' =>
        let! k := deref_leaf a in
        Free_leaf a ;;
        delete_leaves fuel' (value k)
    end.
(** The structure itself goes last; the blocks left are leaked. *)
Definition critnib_delete (fuel pool : nat) : C unit :=
  let! r := gets root in
  when (bool_decide (r ≠ PNull)) (delete_node fuel r) ;;
  let! dn := gets deleted_node in
  delete_nodes pool dn ;;
  let! dl := gets deleted_leaf in
  delete_leaves pool dl ;;
  for_each (seq 0 (Z.to_nat DELETED_LIFE)) (λ i,
    let! n := gets (λ c, default 0 (pending_del_nodes c !! i)) in
    Free_node n ;;
    let! k := gets (λ c, default 0 (pending_del_leaves c !! i)) in
    Free_leaf k).
End critnib.
