(* ===== verification/CritnibTree.v ===== *)
(** * Critnib trees as trees

    The trees that the blocks of a [critnib] form: what makes one well formed, the
    elements it holds, and how both change with the subtree at a place. *)
From stdpp Require Import base list gmap sorting.
From S2P Require Import Prelude Critnib.
Open Scope Z_scope.

(** ** Nibbles of a key *)

Definition shift_ok (s : Z) : Prop := ∃ j, s = 4 * j ∧ 0 ≤ j ≤ 15.
Definition key_ok (k : Z) : Prop := 0 ≤ k < U64.
(** [p] has no bits below those of a node's path *)
Definition aligned (p s : Z) : Prop := Z.shiftl (Z.shiftr p (s + 4)) (s + 4) = p.

Lemma shift_ok_range s : shift_ok s → 0 ≤ s ≤ 60.
Proof. intros (j&->&?). lia. Qed.
Lemma key_bits k i : key_ok k → 64 ≤ i → Z.testbit k i = false.
Proof.
  intros [Hk Hlt] Hi. destruct (decide (k = 0)) as [->|Hne]; [apply Z.testbit_0_l|].
  apply Z.bits_above_log2; [done|]. apply Z.log2_lt_pow2; [lia|]. apply Z.lt_le_trans with (1 := Hlt).
  apply Z.pow_le_mono_r; lia.
Qed.
Lemma high_mask_bits i : 0 ≤ i → Z.testbit (U64 - 1 - NIB) i = bool_decide (4 ≤ i < 64).
Proof.
  intros Hi. change (U64 - 1 - NIB) with (Z.shiftl (Z.ones 60) 4). rewrite Z.shiftl_spec by done.
  destruct (decide (i < 4)) as [Hlt|Hge].
  - rewrite Z.testbit_neg_r by lia. symmetry. apply bool_decide_eq_false. lia.
  - destruct (decide (i < 64)).
    + rewrite Z.ones_spec_low by lia. symmetry. apply bool_decide_eq_true. lia.
    + rewrite Z.ones_spec_high by lia. symmetry. apply bool_decide_eq_false. lia.
Qed.
Lemma path_mask_bits s i : shift_ok s → 0 ≤ i < 64 → Z.testbit (path_mask s) i = bool_decide (s + 4 ≤ i).
Proof.
  intros Hs%shift_ok_range Hi. unfold path_mask, u64, U64. rewrite Z.mod_pow2_bits_low by lia. fold U64.
  rewrite Z.shiftl_spec by lia. destruct (decide (i < s)).
  - rewrite Z.testbit_neg_r by lia. symmetry. apply bool_decide_eq_false. lia.
  - rewrite high_mask_bits by lia. apply bool_decide_ext. lia.
Qed.
Lemma path_mask_land k s : shift_ok s → key_ok k →
  Z.land k (path_mask s) = Z.shiftl (Z.shiftr k (s + 4)) (s + 4).
Proof.
  intros Hs Hk. pose proof (shift_ok_range s Hs). apply Z.bits_inj'. intros i Hi.
  rewrite Z.land_spec, Z.shiftl_spec by done. destruct (decide (i < 64)).
  - rewrite path_mask_bits by (done || lia). case_bool_decide.
    + rewrite Z.shiftr_spec by lia. rewrite andb_true_r. f_equal. lia.
    + rewrite andb_false_r, Z.testbit_neg_r by lia. done.
  - rewrite Z.shiftr_spec by lia. replace (i - (s + 4) + (s + 4)) with i by lia. rewrite key_bits by (done || lia). done.
Qed.
Lemma path_match k p s : shift_ok s → key_ok k → aligned p s →
  Z.land k (path_mask s) = p ↔ Z.shiftr k (s + 4) = Z.shiftr p (s + 4).
Proof.
  intros Hs Hk Hp. pose proof (shift_ok_range s Hs). rewrite path_mask_land by done. unfold aligned in Hp. split; [|by intros ->].
  intros <-. rewrite Z.shiftr_shiftl_l, Z.sub_diag, Z.shiftl_0_r by lia. done.
Qed.
Lemma path_aligned k s : shift_ok s → key_ok k → aligned (Z.land k (path_mask s)) s.
Proof.
  intros Hs Hk. pose proof (shift_ok_range s Hs). unfold aligned. rewrite path_mask_land by done.
  rewrite Z.shiftr_shiftl_l, Z.sub_diag, Z.shiftl_0_r by lia. done.
Qed.
Lemma path_top k s : shift_ok s → key_ok k → Z.shiftr (Z.land k (path_mask s)) (s + 4) = Z.shiftr k (s + 4).
Proof.
  intros Hs Hk. pose proof (shift_ok_range s Hs). rewrite path_mask_land by done.
  rewrite Z.shiftr_shiftl_l, Z.sub_diag, Z.shiftl_0_r by lia. done.
Qed.

Lemma shiftr_nib x s : 0 ≤ s → Z.shiftr x (s + 4) = Z.shiftr x s / 16.
Proof. intros. rewrite <-Z.shiftr_shiftr by lia. rewrite (Z.shiftr_div_pow2 (Z.shiftr x s)) by lia. done. Qed.
Lemma slice_index_mod k s : slice_index k s = Z.to_nat (Z.shiftr k s `mod` 16).
Proof. unfold slice_index, NIB. change 15 with (Z.ones 4). by rewrite Z.land_ones. Qed.
Lemma slice_index_lt k s : (slice_index k s < SLNODES)%nat.
Proof. rewrite slice_index_mod. unfold SLNODES. pose proof (Z.mod_pos_bound (Z.shiftr k s) 16). lia. Qed.
(** A key is in the child [i] of a node when its upper bits are the node's path and [i]. *)
Definition lies (p s : Z) (i : nat) (k : Z) : Prop := Z.shiftr k s = Z.shiftr p s + Z.of_nat i.
Lemma aligned_mod p s : 0 ≤ s → aligned p s → Z.shiftr p s = 16 * Z.shiftr p (s + 4).
Proof.
  unfold aligned. intros Hs Hp. rewrite <-Hp at 1. rewrite (Z.shiftl_mul_pow2 _ (s + 4)), Z.shiftr_div_pow2 by lia.
  rewrite Z.pow_add_r by lia. replace (Z.shiftr p (s + 4) * (2 ^ s * 2 ^ 4)) with (16 * Z.shiftr p (s + 4) * 2 ^ s) by lia.
  apply Z.div_mul. lia.
Qed.
Lemma lies_iff p s i k : 0 ≤ s → aligned p s → (i < SLNODES)%nat →
  lies p s i k ↔ Z.shiftr k (s + 4) = Z.shiftr p (s + 4) ∧ slice_index k s = i.
Proof.
  intros Hs Hp Hi. unfold lies, SLNODES in *. rewrite slice_index_mod, (aligned_mod p s), (shiftr_nib k) by done.
  pose proof (Z.div_mod (Z.shiftr k s) 16). pose proof (Z.mod_pos_bound (Z.shiftr k s) 16). lia.
Qed.
Lemma lies_slice p s i k : 0 ≤ s → aligned p s → (i < SLNODES)%nat → lies p s i k → slice_index k s = i.
Proof. intros. by apply (lies_iff p s i k). Qed.
Lemma shiftr_coarser x y s s' : 0 ≤ s ≤ s' → Z.shiftr x s = Z.shiftr y s → Z.shiftr x s' = Z.shiftr y s'.
Proof. intros Hs H. replace s' with (s + (s' - s)) by lia. rewrite <-!Z.shiftr_shiftr by lia. by rewrite H. Qed.
Lemma shiftr_lt x y s : 0 ≤ s → Z.shiftr x s < Z.shiftr y s → x < y.
Proof.
  intros Hs H. rewrite !Z.shiftr_div_pow2 in H by done. destruct (decide (x < y)); [done|].
  pose proof (Z.div_le_mono y x (2 ^ s)). lia.
Qed.
Lemma shiftr_le x y s : 0 ≤ s → x ≤ y → Z.shiftr x s ≤ Z.shiftr y s.
Proof. intros. rewrite !Z.shiftr_div_pow2 by done. apply Z.div_le_mono; lia. Qed.
Lemma outside_path k p s : shift_ok s → key_ok k → key_ok p →
  Z.land (Z.shiftr (Z.lxor k p) s) (U64 - 1 - NIB) = 0 ↔ Z.shiftr k (s + 4) = Z.shiftr p (s + 4).
Proof.
  intros Hs%shift_ok_range Hk Hp. split; intros H; apply Z.bits_inj'; intros i Hi.
  - pose proof (f_equal (λ x, Z.testbit x (i + 4)) H) as Hb. cbn beta in Hb.
    rewrite Z.land_spec, high_mask_bits, Z.shiftr_spec, Z.lxor_spec, Z.testbit_0_l in Hb by lia. rewrite !Z.shiftr_spec by lia.
    replace (i + (s + 4)) with (i + 4 + s) by lia. case_bool_decide.
    + rewrite andb_true_r in Hb. destruct (Z.testbit k _), (Z.testbit p _); done.
    + rewrite !key_bits by (done || lia). done.
  - rewrite Z.land_spec, high_mask_bits, Z.shiftr_spec, Z.lxor_spec, Z.testbit_0_l by lia. case_bool_decide; [|apply andb_false_r].
    pose proof (f_equal (λ x, Z.testbit x (i - 4)) H) as Hb. cbn beta in Hb. rewrite !Z.shiftr_spec in Hb by lia.
    replace (i - 4 + (s + 4)) with (i + s) in Hb by lia. rewrite Hb, xorb_nilpotent. done.
Qed.

(** The shift of the node over two keys that differ. *)
Definition split_shift (x y : Z) : Z := Z.land (util_mssb_index64 (Z.lxor x y)) (255 - (SLICE - 1)).
Lemma shiftr_lxor_0 x y s : Z.shiftr x s = Z.shiftr y s ↔ Z.shiftr (Z.lxor x y) s = 0.
Proof. rewrite Z.shiftr_lxor. apply iff_sym, Z.lxor_eq_0_iff. Qed.
Lemma lxor_pos x y : key_ok x → key_ok y → x ≠ y → 0 < Z.lxor x y < U64.
Proof.
  intros Hx Hy Hne. assert (Z.lxor x y ≠ 0) by (by rewrite Z.lxor_eq_0_iff).
  assert (0 ≤ Z.lxor x y) by (apply Z.lxor_nonneg; unfold key_ok in *; lia). split; [lia|].
  destruct (decide (Z.lxor x y < U64)) as [|Hge]; [done|]. exfalso.
  assert (Hl : 64 ≤ Z.log2 (Z.lxor x y)) by (apply Z.log2_le_pow2; unfold U64 in *; lia).
  pose proof (Z.bit_log2 (Z.lxor x y)) as Hb. rewrite Z.lxor_spec, !key_bits in Hb by done. discriminate Hb. lia.
Qed.
Lemma shiftr_0_log2 v s : 0 < v → 0 ≤ s → Z.shiftr v s = 0 ↔ Z.log2 v < s.
Proof. intros Hv Hs. rewrite Z.shiftr_eq_0_iff. lia. Qed.
Lemma land_252 a : 0 ≤ a < 64 → Z.land a 252 = 4 * (a / 4).
Proof.
  intros Ha. change 252 with (Z.shiftl (Z.ones 6) 2). rewrite <-(Z.mod_small a (2 ^ 8)) at 1 by lia.
  rewrite <-Z.land_ones, <-Z.land_assoc by lia. change (Z.land (Z.ones 8) (Z.shiftl (Z.ones 6) 2)) with (Z.ldiff (Z.ones 8) (Z.ones 2)).
  change (Z.ldiff (Z.ones 8) (Z.ones 2)) with (Z.land (Z.ones 8) (Z.lnot (Z.ones 2))). rewrite Z.land_assoc, Z.land_ones, Z.mod_small by lia.
  change (Z.land a (Z.lnot (Z.ones 2))) with (Z.land a (Z.lnot (Z.ones 2))). rewrite <-Z.ldiff_land, Z.ldiff_ones_r by lia.
  rewrite Z.shiftl_mul_pow2, Z.shiftr_div_pow2 by lia. change (2 ^ 2) with 4. lia.
Qed.
Lemma split_shift_spec x y : key_ok x → key_ok y → x ≠ y →
  shift_ok (split_shift x y) ∧ Z.shiftr x (split_shift x y) ≠ Z.shiftr y (split_shift x y) ∧
  Z.shiftr x (split_shift x y + 4) = Z.shiftr y (split_shift x y + 4).
Proof.
  intros Hx Hy Hne. pose proof (lxor_pos x y Hx Hy Hne) as Hp. pose proof (Z.log2_nonneg (Z.lxor x y)).
  assert (Z.log2 (Z.lxor x y) < 64) by (apply Z.log2_lt_pow2; unfold U64 in *; lia).
  unfold split_shift, util_mssb_index64. change (255 - (SLICE - 1)) with 252. rewrite land_252 by lia.
  pose proof (Z.div_mod (Z.log2 (Z.lxor x y)) 4). pose proof (Z.mod_pos_bound (Z.log2 (Z.lxor x y)) 4).
  split_and!; [exists (Z.log2 (Z.lxor x y) / 4); lia| |].
  - rewrite shiftr_lxor_0, shiftr_0_log2 by lia. lia.
  - rewrite shiftr_lxor_0, shiftr_0_log2 by lia. lia.
Qed.
Lemma split_shift_below x y s : key_ok x → key_ok y → x ≠ y → shift_ok s →
  Z.shiftr x s = Z.shiftr y s → split_shift x y < s.
Proof.
  intros Hx Hy Hne Hs E. destruct (split_shift_spec x y) as (Hsh&Hd&_); [done..|]. destruct (decide (split_shift x y < s)); [done|].
  destruct Hd. apply (shiftr_coarser x y s); [|done]. apply shift_ok_range in Hs. lia.
Qed.
Lemma split_shift_above x y s : key_ok x → key_ok y → x ≠ y → shift_ok s →
  Z.shiftr x (s + 4) ≠ Z.shiftr y (s + 4) → s < split_shift x y.
Proof.
  intros Hx Hy Hne Hs D. destruct (split_shift_spec x y) as (Hsh&_&Ee); [done..|]. destruct (decide (s < split_shift x y)); [done|].
  destruct D. apply (shiftr_coarser x y (split_shift x y + 4)); [|done]. apply shift_ok_range in Hsh. lia.
Qed.

(** ** Trees *)

(** Leaves and nodes carry the addresses of their blocks. *)
Inductive ct := Emp | L (a k v : Z) | N (a p s : Z) (cs : list ct).
Section ct_ind.
Context (P : ct → Prop) (HE : P Emp) (HL : ∀ a k v, P (L a k v)) (HN : ∀ a p s cs, Forall P cs → P (N a p s cs)).
Fixpoint ct_ind' (t : ct) : P t :=
  match t with
  | Emp => HE
  | L a k v => HL a k v
  | N a p s cs => HN a p s cs
      ((fix go (l : list ct) : Forall P l :=
          match l with [] => List.Forall_nil _ | t' :: l' => List.Forall_cons _ t' l' (ct_ind' t') (go l') end) cs)
  end.
End ct_ind.
Definition ptr_of (t : ct) : ptr := match t with Emp => PNull | L a _ _ => PLeaf a | N a _ _ _ => PNode a end.
Fixpoint elems (t : ct) : list (Z * Z) :=
  match t with Emp => [] | L _ k v => [(k, v)] | N _ _ _ cs => concat (elems <$> cs) end.
Fixpoint naddrs (t : ct) : list Z :=
  match t with N a _ _ cs => a :: concat (naddrs <$> cs) | _ => [] end.
Fixpoint laddrs (t : ct) : list Z :=
  match t with Emp => [] | L a _ _ => [a] | N _ _ _ cs => concat (laddrs <$> cs) end.
Definition keys (t : ct) : list Z := (elems t).*1.
Definition contents (t : ct) : gmap Z Z := list_to_map (elems t).
Definition full (t : ct) : bool := bool_decide (ptr_of t ≠ PNull).
(** The shifts fall towards the leaves. *)
Definition below (s : Z) (t : ct) : Prop := match t with N _ _ s' _ => s' < s | _ => True end.
Fixpoint wf (t : ct) : Prop :=
  match t with
  | Emp => True
  | L _ k _ => key_ok k
  | N _ p s cs =>
      shift_ok s ∧ aligned p s ∧ length cs = SLNODES ∧ foldr (λ t, and (wf t)) True cs ∧
      (∀ i t, cs !! i = Some t → below s t ∧ Forall (lies p s i) (keys t)) ∧
      (2 ≤ length (filter full cs))%nat
  end.
Lemma wf_children cs : foldr (λ t, and (wf t)) True cs ↔ Forall wf cs.
Proof. induction cs as [|t cs IH]; [done|]. cbn. rewrite Forall_cons, IH. done. Qed.
Lemma wf_node a p s cs : wf (N a p s cs) ↔
  shift_ok s ∧ aligned p s ∧ length cs = SLNODES ∧ Forall wf cs ∧
  (∀ i t, cs !! i = Some t → below s t ∧ Forall (lies p s i) (keys t)) ∧ (2 ≤ length (filter full cs))%nat.
Proof. cbn [wf]. by rewrite wf_children. Qed.

Lemma elem_of_concat_fmap {A B} (f : A → list B) (l : list A) x : x ∈ concat (f <$> l) ↔ ∃ i t, l !! i = Some t ∧ x ∈ f t.
Proof.
  rewrite list_elem_of_In, in_concat. setoid_rewrite <-list_elem_of_In. split.
  - intros (l'&(t&->&Ht)%list_elem_of_fmap&Hx). apply list_elem_of_lookup in Ht as [i Hi]. by exists i, t.
  - intros (i&t&Hi%list_elem_of_lookup_2&Hx). exists (f t). split; [|done]. by apply list_elem_of_fmap_2.
Qed.
Lemma elem_of_keys t k : k ∈ keys t ↔ ∃ v, (k, v) ∈ elems t.
Proof.
  unfold keys. rewrite list_elem_of_fmap. split; [intros ([k' v]&->&?); by exists v|intros [v Hv]; by exists (k, v)].
Qed.
Lemma keys_node a p s cs k : k ∈ keys (N a p s cs) ↔ ∃ i t, cs !! i = Some t ∧ k ∈ keys t.
Proof.
  rewrite elem_of_keys. cbn [elems]. setoid_rewrite elem_of_concat_fmap. setoid_rewrite elem_of_keys. naive_solver.
Qed.
(** A subtree that is there holds a key. *)
Lemma wf_inhabited t : wf t → t ≠ Emp → ∃ k, k ∈ keys t.
Proof.
  induction t as [|a k v|a p s cs IH] using ct_ind'; [done| |].
  - intros _ _. exists k. by apply list_elem_of_here.
  - intros (Hs&Hp&Hl&Hcs&Hch&H2)%wf_node _. destruct (filter full cs) as [|t l] eqn:Hf; [cbn in H2; lia|].
    assert (Ht : t ∈ filter full cs) by (rewrite Hf; by apply list_elem_of_here).
    apply list_elem_of_filter in Ht as [Hfull Hin]. rewrite Forall_forall in IH, Hcs.
    destruct (IH t Hin (Hcs t Hin)) as [k Hk]; [by intros ->|]. apply list_elem_of_lookup in Hin as [i Hi].
    exists k. apply keys_node. by exists i, t.
Qed.
Lemma key_in_node a p s cs i t k : wf (N a p s cs) → cs !! i = Some t → k ∈ keys t → lies p s i k.
Proof. intros (?&?&?&?&Hch&?)%wf_node Hi Hk. destruct (Hch i t Hi) as [_ Hf]. by apply (Forall_forall (lies p s i) (keys t)). Qed.
Lemma node_slot a p s cs i t : wf (N a p s cs) → cs !! i = Some t → (i < SLNODES)%nat.
Proof. intros (?&?&Hl&_)%wf_node Hi%lookup_lt_Some. by rewrite <-Hl. Qed.
Lemma key_slot a p s cs i t k : wf (N a p s cs) → cs !! i = Some t → k ∈ keys t → slice_index k s = i.
Proof.
  intros Hwf Hi Hk. pose proof (node_slot _ _ _ _ _ _ Hwf Hi). pose proof (key_in_node _ _ _ _ _ _ _ Hwf Hi Hk).
  apply wf_node in Hwf as (Hs&?&_). apply (lies_slice p); [by apply shift_ok_range|done..].
Qed.
Lemma key_top a p s cs k : wf (N a p s cs) → k ∈ keys (N a p s cs) → Z.shiftr k (s + 4) = Z.shiftr p (s + 4).
Proof.
  intros Hwf (i&t&Hi&Hk)%keys_node. pose proof (node_slot _ _ _ _ _ _ Hwf Hi). pose proof (key_in_node _ _ _ _ _ _ _ Hwf Hi Hk) as Hlies.
  apply wf_node in Hwf as (Hs&?&_). by apply lies_iff in Hlies as [? _]; [|apply shift_ok_range|..].
Qed.
Lemma wf_key_ok t k : wf t → k ∈ keys t → key_ok k.
Proof.
  induction t as [|a k' v|a p s cs IH] using ct_ind'.
  - by intros _ ?%elem_of_nil.
  - intros Hk ->%list_elem_of_singleton. exact Hk.
  - intros (Hs&Hp&Hl&Hcs&_)%wf_node (i&t&Hi%list_elem_of_lookup_2&Hk)%keys_node. rewrite Forall_forall in IH, Hcs. eauto.
Qed.
Lemma path_key_ok a p s cs : wf (N a p s cs) → key_ok p.
Proof.
  intros Hwf. destruct (wf_inhabited _ Hwf) as [k Hk]; [done|]. pose proof (wf_key_ok _ _ Hwf Hk) as Hok.
  pose proof (key_top _ _ _ _ _ Hwf Hk) as E. apply wf_node in Hwf as (Hs%shift_ok_range&Hp&_). unfold aligned in Hp.
  rewrite <-E in Hp. unfold key_ok in *. rewrite <-Hp, Z.shiftl_mul_pow2, Z.shiftr_div_pow2 by lia.
  pose proof (Z.mul_div_le k (2 ^ (s + 4))). pose proof (Z.div_pos k (2 ^ (s + 4))). nia.
Qed.

(** No key twice. *)
Lemma keys_NoDup t : wf t → NoDup (keys t).
Proof.
  induction t as [|a k v|a p s cs IH] using ct_ind'; intros Hwf; [by apply NoDup_nil|by apply NoDup_singleton|].
  assert (Hd : ∀ i j t u k, cs !! i = Some t → cs !! j = Some u → k ∈ keys t → k ∈ keys u → i = j).
  { intros i j t u k Hi Hj Ht Hu. rewrite <-(key_slot _ _ _ _ _ _ _ Hwf Hi Ht). by apply (key_slot _ _ _ _ _ _ _ Hwf Hj). }
  apply wf_node in Hwf as (_&_&_&Hcs&_). unfold keys. cbn [elems]. clear a p s. induction cs as [|t cs IHcs]; [by apply NoDup_nil|].
  apply Forall_cons in IH as [IHt IH], Hcs as [Ht Hcs]. cbn [fmap list_fmap concat]. rewrite fmap_app. apply NoDup_app. split_and!; [by apply IHt| |].
  - intros k Hk Hk'. assert (Hin : k ∈ keys (N 0 0 0 cs)) by done. apply keys_node in Hin as (j&u&Hj&Hu).
    discriminate (Hd O (S j) t u k eq_refl Hj Hk Hu).
  - apply IHcs; [done..|]. intros i j t' u k Hi Hj Hk Hk'. enough (S i = S j) by lia. by apply (Hd (S i) (S j) t' u k).
Qed.

(** ** Places *)

(** A place in a tree is the path of nodes above it, the lowest first. *)
Record frame := Frame { fa : Z; fp : Z; fs : Z; fl : list ct; fr : list ct }.
Definition fill1 (f : frame) (t : ct) : ct := N (fa f) (fp f) (fs f) (fl f ++ t :: fr f).
Fixpoint fill (K : list frame) (t : ct) : ct := match K with [] => t | f :: K' => fill K' (fill1 f t) end.
Definition ref_of (K : list frame) : node_ref := match K with [] => RootRef | f :: _ => ChildRef (fa f) (length (fl f)) end.
Definition inside (K : list frame) (k : Z) : Prop := Forall (λ f, lies (fp f) (fs f) (length (fl f)) k) K.
Definition guided (k : Z) (K : list frame) : Prop := Forall (λ f, slice_index k (fs f) = length (fl f)) K.
Definition below_ctx (K : list frame) (t : ct) : Prop := match K with [] => True | f :: _ => below (fs f) t end.
(** What is beside a place. *)
Definition around {A} (g : ct → list A) (K : list frame) : list A := concat ((λ f, concat (g <$> fl f) ++ concat (g <$> fr f)) <$> K).

Lemma ptr_of_fill f K t t' : ptr_of (fill (f :: K) t) = ptr_of (fill (f :: K) t').
Proof. revert f t t'. induction K as [|f' K IH]; intros f t t'; [done|]. apply IH. Qed.
Lemma concat_fill {A} (g : ct → list A) l t r : concat (g <$> l ++ t :: r) ≡ₚ g t ++ concat (g <$> l) ++ concat (g <$> r).
Proof. rewrite fmap_app, concat_app. cbn. rewrite Permutation_app_swap_app. done. Qed.
Lemma elems_fill K t : elems (fill K t) ≡ₚ elems t ++ around elems K.
Proof.
  revert t. induction K as [|f K IH]; intros t; [by rewrite app_nil_r|]. cbn [fill]. rewrite IH. cbn [fill1 elems].
  rewrite concat_fill, <-app_assoc. done.
Qed.
Lemma laddrs_fill K t : laddrs (fill K t) ≡ₚ laddrs t ++ around laddrs K.
Proof.
  revert t. induction K as [|f K IH]; intros t; [by rewrite app_nil_r|]. cbn [fill]. rewrite IH. cbn [fill1 laddrs].
  rewrite concat_fill, <-app_assoc. done.
Qed.
Lemma naddrs_fill K t : naddrs (fill K t) ≡ₚ naddrs t ++ (fa <$> K) ++ around naddrs K.
Proof.
  revert t. induction K as [|f K IH]; intros t; [by rewrite app_nil_r|]. cbn [fill]. rewrite IH. cbn [fill1 naddrs fmap list_fmap].
  rewrite concat_fill. unfold around. cbn [fmap list_fmap concat]. solve_Permutation.
Qed.
Lemma keys_fill K t k : k ∈ keys (fill K t) ↔ k ∈ keys t ∨ k ∈ (around elems K).*1.
Proof. unfold keys. rewrite elems_fill, fmap_app. apply elem_of_app. Qed.
Lemma contents_perm t l : wf t → elems t ≡ₚ l → contents t = list_to_map l.
Proof. intros Hwf Hp. apply list_to_map_proper; [by apply keys_NoDup|done]. Qed.

Lemma count_full l t r : length (filter full (l ++ t :: r)) = ((if full t then 1 else 0) + length (filter full (l ++ r)))%nat.
Proof.
  rewrite !filter_app, !length_app, filter_cons. destruct (full t) eqn:Ht.
  - rewrite decide_True by done. cbn. lia.
  - rewrite decide_False by (intros []). lia.
Qed.
Lemma wf_fill1 f t t' : wf (fill1 f t) → wf t' → below (fs f) t' → Forall (lies (fp f) (fs f) (length (fl f))) (keys t') →
  (2 ≤ length (filter full (fl f ++ t' :: fr f)))%nat → wf (fill1 f t').
Proof.
  intros (Hs&Hp&Hl&Hcs&Hch&_)%wf_node Ht' Hb Hk H2. apply wf_node. split_and!; [done..| | | |done].
  - rewrite length_app in *. done.
  - rewrite Forall_app, Forall_cons in *. tauto.
  - intros i u Hi. destruct (decide (i = length (fl f))) as [->|Hne].
    + rewrite list_lookup_middle in Hi by done. by simplify_eq.
    + apply Hch. rewrite lookup_app in *. case_match; [done|]. destruct (i - length (fl f))%nat eqn:Hd; [|done].
      apply lookup_ge_None in H. lia.
Qed.
Lemma fill1_hole f t : wf (fill1 f t) → wf t ∧ below (fs f) t ∧ Forall (lies (fp f) (fs f) (length (fl f))) (keys t).
Proof.
  intros (_&_&_&Hcs&Hch&_)%wf_node. apply Forall_app in Hcs as [_ [Ht _]%Forall_cons]. split; [done|].
  apply Hch, list_lookup_middle. done.
Qed.
Lemma keys_fill1 f t k : k ∈ keys (fill1 f t) ↔ k ∈ keys t ∨ k ∈ (around elems [f]).*1.
Proof. apply (keys_fill [f] t k). Qed.
Lemma wf_fill_hole K t : wf (fill K t) → wf t ∧ below_ctx K t ∧ Forall (inside K) (keys t).
Proof.
  revert t. induction K as [|f K IH]; intros t Hwf; [split_and!; [done..|]; apply Forall_forall; by constructor|].
  destruct (IH _ Hwf) as (H1&_&H3). destruct (fill1_hole f t H1) as (Ht&Hb&Hk). split_and!; [done..|].
  apply Forall_forall. intros k Hin. constructor.
  - rewrite Forall_forall in Hk. by apply Hk.
  - rewrite Forall_forall in H3. apply H3, keys_fill1. by left.
Qed.
(** Another subtree at a place. *)
Lemma wf_fill K t t' : wf (fill K t) → wf t' → (full t → full t') → below_ctx K t' → Forall (inside K) (keys t') → wf (fill K t').
Proof.
  revert t t'. induction K as [|f K IH]; intros t t' Hwf Ht' Hfull Hb Hk; [done|]. cbn [fill] in *.
  destruct (wf_fill_hole K _ Hwf) as (H1&H2&H3). apply (IH (fill1 f t)); [done| |done| |].
  - apply (wf_fill1 f t); [done..| |].
    + eapply Forall_impl; [exact Hk|]. by intros k [? ?]%Forall_cons.
    + apply wf_node in H1 as (_&_&_&_&_&H1). rewrite count_full in *. destruct (full t), (full t'); try lia. by destruct Hfull.
  - destruct K; [done|]. exact H2.
  - rewrite Forall_forall in *. intros k [Hin|Hin]%keys_fill1.
    + specialize (Hk k Hin). by apply Forall_cons in Hk as [_ ?].
    + apply H3, keys_fill1. by right.
Qed.
(** A key is where its nibbles lead. *)
Lemma guided_key K t k : wf (fill K t) → guided k K → k ∈ keys (fill K t) → k ∈ keys t.
Proof.
  revert t. induction K as [|f K IH]; intros t Hwf Hg Hk; [done|]. apply Forall_cons in Hg as [Hf Hg].
  destruct (wf_fill_hole K _ Hwf) as (H1&_). specialize (IH _ Hwf Hg Hk). apply keys_node in IH as (i&u&Hi&Hu).
  rewrite <-(key_slot _ _ _ _ _ _ _ H1 Hi Hu), Hf, list_lookup_middle in Hi by done. by simplify_eq.
Qed.
Lemma inside_guided K t k : wf (fill K t) → inside K k → guided k K.
Proof.
  revert t. induction K as [|f K IH]; intros t Hwf Hin; [constructor|]. apply Forall_cons in Hin as [Hf Hin].
  destruct (wf_fill_hole K _ Hwf) as (H1&_). constructor; [|by eapply IH].
  assert (length (fl f) < SLNODES)%nat by (apply (node_slot _ _ _ _ _ t H1), list_lookup_middle; done).
  apply wf_node in H1 as (Hs%shift_ok_range&Hp&_). apply (lies_slice (fp f)); [lia|done..].
Qed.

(** ** A new key *)

Lemma concat_insert {A} (g : ct → list A) (cs : list ct) i t : g Emp = [] → cs !! i = Some Emp →
  concat (g <$> <[i := t]> cs) ≡ₚ g t ++ concat (g <$> cs).
Proof.
  intros Hg Hi. rewrite <-(take_drop_middle cs i Emp) at 2 by done. rewrite insert_take_drop by (by apply lookup_lt_Some in Hi).
  rewrite !concat_fill, Hg. done.
Qed.
Lemma concat_Emp {A} (g : ct → list A) n : g Emp = [] → concat (g <$> replicate n Emp) = [].
Proof. intros Hg. induction n; [done|]. cbn. by rewrite Hg. Qed.
Definition pair_node (a p s : Z) (i : nat) (t : ct) (j : nat) (u : ct) : ct := N a p s (<[i := t]> (<[j := u]> (replicate SLNODES Emp))).
Lemma pair_node_gather {A} (g : ct → list A) i t j u : g Emp = [] → i ≠ j → (i < SLNODES)%nat → (j < SLNODES)%nat →
  concat (g <$> <[i := t]> (<[j := u]> (replicate SLNODES Emp))) ≡ₚ g t ++ g u.
Proof.
  intros Hg Hne Hi Hj. rewrite concat_insert; [|done|].
  - rewrite concat_insert, concat_Emp, app_nil_r; [done..|]. by apply lookup_replicate_2.
  - rewrite list_lookup_insert_ne by done. by apply lookup_replicate_2.
Qed.
Lemma full_two cs i j t u : cs !! i = Some t → cs !! j = Some u → i ≠ j → full t → full u → (2 ≤ length (filter full cs))%nat.
Proof.
  intros Hi Hj Hne Ht Hu. rewrite <-(take_drop_middle cs i t) by done. rewrite count_full.
  assert (Hin : u ∈ take i cs ++ drop (S i) cs).
  { apply elem_of_app. destruct (decide (j < i)%nat).
    - left. apply (list_elem_of_lookup_2 _ j). by rewrite lookup_take_lt.
    - right. apply (list_elem_of_lookup_2 _ (j - S i)). rewrite lookup_drop. rewrite <-Hj. f_equal. lia. }
  apply list_elem_of_split in Hin as (l1&l2&->). rewrite count_full. destruct (full t), (full u); try done. lia.
Qed.
(** [k] and the keys of [t], which go with [p], differ first at the nibble of
    [split_shift p k]. *)
Lemma wf_pair a l p k v t : wf t → full t → key_ok p → key_ok k → p ≠ k →
  below (split_shift p k) t → Forall (λ x, Z.shiftr x (split_shift p k) = Z.shiftr p (split_shift p k)) (keys t) →
  wf (pair_node a (Z.land k (path_mask (split_shift p k))) (split_shift p k)
        (slice_index p (split_shift p k)) t (slice_index k (split_shift p k)) (L l k v)) ∧
  slice_index p (split_shift p k) ≠ slice_index k (split_shift p k).
Proof.
  intros Ht Hfull Hp Hk Hne Hb Hkeys. destruct (split_shift_spec p k) as (Hsh&Hd&He); [done..|].
  remember (split_shift p k) as s eqn:Es. pose proof (shift_ok_range s Hsh) as Hr. pose proof (path_aligned k s Hsh Hk) as Hal.
  assert (Hlk : ∀ x, Z.shiftr x (s + 4) = Z.shiftr k (s + 4) → lies (Z.land k (path_mask s)) s (slice_index x s) x).
  { intros x Hx. apply lies_iff; [lia|done|apply slice_index_lt|]. by rewrite path_top. }
  assert (Hij : slice_index p s ≠ slice_index k s).
  { intros E. apply Hd. pose proof (Hlk p He) as H1. pose proof (Hlk k eq_refl) as H2. unfold lies in *. rewrite E in H1. lia. }
  split; [|done]. pose proof (slice_index_lt p s) as Hi. pose proof (slice_index_lt k s) as Hj. apply wf_node. split_and!; [done|done| | | |].
  - by rewrite !length_insert, length_replicate.
  - apply Forall_insert; [|done]. apply Forall_insert; [|done]. by apply Forall_replicate.
  - intros i u Hu. destruct (decide (i = slice_index p s)) as [->|Hn1].
    { rewrite list_lookup_insert_eq in Hu by (by rewrite length_insert, length_replicate). simplify_eq. split; [done|].
      eapply Forall_impl; [exact Hkeys|]. intros x Hx. unfold lies. rewrite Hx. by apply Hlk. }
    rewrite list_lookup_insert_ne in Hu by done. destruct (decide (i = slice_index k s)) as [->|Hn2].
    { rewrite list_lookup_insert_eq in Hu by (by rewrite length_replicate). simplify_eq. split; [done|]. apply Forall_singleton. by apply Hlk. }
    rewrite list_lookup_insert_ne in Hu by done. apply lookup_replicate in Hu as [-> _]. split; [done|constructor].
  - apply (full_two _ (slice_index p s) (slice_index k s) t (L l k v)); [| |done..].
    + apply list_lookup_insert_eq. by rewrite length_insert, length_replicate.
    + rewrite list_lookup_insert_ne by done. apply list_lookup_insert_eq. by rewrite length_replicate.
Qed.

(** ** A key less *)

Lemma gather_full {A} (g : ct → list A) cs : g Emp = [] → concat (g <$> filter full cs) = concat (g <$> cs).
Proof.
  intros Hg. induction cs as [|t cs IH]; [done|]. rewrite filter_cons. case_decide as Ht; cbn; [by rewrite IH|].
  rewrite IH. destruct t; [by rewrite Hg|by destruct Ht..].
Qed.
(** The one child that is left holds what the node held. *)
Lemma gather_only {A} (g : ct → list A) f q : g Emp = [] → filter full (fl f ++ Emp :: fr f) = [q] →
  concat (g <$> fl f) ++ concat (g <$> fr f) = g q.
Proof.
  intros Hg Hf. pose proof (gather_full g (fl f ++ Emp :: fr f) Hg) as E. rewrite Hf, fmap_app, concat_app in E. cbn in E.
  rewrite Hg, app_nil_r in E. by rewrite E.
Qed.
Lemma ptr_full (cs : list ct) : filter (λ q, q ≠ PNull) (ptr_of <$> cs) = ptr_of <$> filter full cs.
Proof.
  induction cs as [|t cs IH]; [done|]. rewrite filter_cons. cbn [fmap list_fmap]. rewrite filter_cons, IH.
  destruct t; [rewrite !decide_False by (by intros ?)|rewrite !decide_True by done..]; done.
Qed.
Lemma not_alone f t : wf (fill1 f t) → filter full (fl f ++ Emp :: fr f) ≠ [].
Proof.
  intros (_&_&_&_&_&H2)%wf_node E. pose proof (count_full (fl f) Emp (fr f)) as H. rewrite E in H. rewrite count_full in H2.
  cbn in H. destruct (full t); lia.
Qed.
Lemma wf_only f K t q : wf (fill (f :: K) t) → filter full (fl f ++ Emp :: fr f) = [q] → full q ∧ wf (fill K q).
Proof.
  intros Hwf Hf. cbn [fill] in Hwf. destruct (wf_fill_hole K _ Hwf) as (H1&H2&H3).
  assert (Hq : q ∈ filter full (fl f ++ Emp :: fr f)) by (rewrite Hf; apply list_elem_of_here).
  apply list_elem_of_filter in Hq as [Hfull Hq]. split; [done|].
  assert (Hin : ∃ i, (fl f ++ t :: fr f) !! i = Some q).
  { apply elem_of_app in Hq as [Hq|[->|Hq]%elem_of_cons]; [| by destruct Hfull |]; apply list_elem_of_lookup, elem_of_app; [by left|right; by right]. }
  destruct Hin as [i Hi]. pose proof H1 as (_&_&_&Hcs&Hch&_)%wf_node. apply (wf_fill K (fill1 f t)); [done| |done| |].
  - rewrite Forall_forall in Hcs. by eapply Hcs, list_elem_of_lookup_2.
  - destruct K as [|f' K]; [done|]. destruct (Hch i q Hi) as [Hb _]. cbn in *. destruct q; cbn in *; lia.
  - rewrite Forall_forall in *. intros k Hk. apply H3, keys_node. by exists i, q.
Qed.
Lemma wf_less f K t : wf (fill (f :: K) t) → (2 ≤ length (filter full (fl f ++ Emp :: fr f)))%nat → wf (fill (f :: K) Emp).
Proof.
  intros Hwf H2. cbn [fill] in *. destruct (wf_fill_hole K _ Hwf) as (H1&Hb&H3). apply (wf_fill K (fill1 f t)); [done| |done| |].
  - by apply (wf_fill1 f t).
  - by destruct K.
  - rewrite Forall_forall in *. intros k [Hk%elem_of_nil|Hk]%keys_fill1; [done|]. apply H3, keys_fill1. by right.
Qed.

(** ** The order of the keys *)

Lemma keys_ordered a p s cs i j t u x y : wf (N a p s cs) → cs !! i = Some t → cs !! j = Some u → (i < j)%nat →
  x ∈ keys t → y ∈ keys u → x < y.
Proof.
  intros Hwf Hi Hj Hij Hx Hy. pose proof (key_in_node _ _ _ _ _ _ _ Hwf Hi Hx) as H1. pose proof (key_in_node _ _ _ _ _ _ _ Hwf Hj Hy) as H2.
  apply wf_node in Hwf as (Hs%shift_ok_range&_). unfold lies in *. apply (shiftr_lt x y s); lia.
Qed.
(** [v] is the value of the greatest key, or of the greatest one up to [k]; [0]
    when there is none. *)
Definition greatest (l : list (Z * Z)) (v : Z) : Prop := ∃ x, (x, v) ∈ l ∧ ∀ y w, (y, w) ∈ l → y ≤ x.
Definition floor (k : Z) (l : list (Z * Z)) (v : Z) : Prop :=
  (v = 0 ∧ ∀ y w, (y, w) ∈ l → k < y) ∨ ∃ x, (x, v) ∈ l ∧ x ≤ k ∧ ∀ y w, (y, w) ∈ l → y ≤ k → y ≤ x.
Definition last_full (n : nat) (cs : list ct) : option ct := last (filter full (take n cs)).
Lemma ptr_last n cs : default PNull (last (filter (λ q, q ≠ PNull) (take n (ptr_of <$> cs)))) = ptr_of (default Emp (last_full n cs)).
Proof. rewrite <-fmap_take, ptr_full, fmap_last. unfold last_full. by destruct (last _). Qed.
Lemma last_full_None n cs : last_full n cs = None → ∀ i t, cs !! i = Some t → (i < n)%nat → t = Emp.
Proof.
  intros H%last_None i t Hi Hn. destruct (decide (full t)) as [Ht|Ht]; [|destruct t; [done|by destruct Ht..]].
  assert (Hin : t ∈ filter full (take n cs)).
  { apply list_elem_of_filter. split; [done|]. apply (list_elem_of_lookup_2 _ i). by rewrite lookup_take_lt. }
  rewrite H in Hin. by apply elem_of_nil in Hin.
Qed.
Lemma last_full_Some n cs t : last_full n cs = Some t →
  ∃ j, cs !! j = Some t ∧ (j < n)%nat ∧ full t ∧ ∀ i u, cs !! i = Some u → (j < i)%nat → (i < n)%nat → u = Emp.
Proof.
  revert n. induction cs as [|u cs IH]; intros n H; [by destruct n|]. destruct n as [|n]; [done|].
  unfold last_full in H. cbn [take] in H. rewrite filter_cons in H. destruct (last_full n cs) as [w|] eqn:Hw.
  - assert (w = t) as ->.
    { unfold last_full in Hw. case_decide; [|by simplify_eq]. rewrite last_cons, Hw in H. by simplify_eq. }
    destruct (IH n Hw) as (j&Hj&Hlt&Hf&Hr). exists (S j). split_and!; [done|lia|done|].
    intros [|i] u'; [lia|]. intros Hi ??. apply (Hr i); [done|lia..].
  - pose proof (last_full_None n cs Hw) as Hr. unfold last_full in Hw. case_decide as Hu; [|by rewrite Hw in H].
    rewrite last_cons, Hw in H. simplify_eq. exists O. split_and!; [done|lia|done|]. intros [|i] u'; [lia|]. intros Hi ??. apply (Hr i); [done|lia].
Qed.
Lemma elem_of_node a p s cs x v : (x, v) ∈ elems (N a p s cs) ↔ ∃ i t, cs !! i = Some t ∧ (x, v) ∈ elems t.
Proof. cbn [elems]. apply elem_of_concat_fmap. Qed.
Lemma elem_key t x v : (x, v) ∈ elems t → x ∈ keys t.
Proof. intros H. apply elem_of_keys. by exists v. Qed.
Lemma greatest_node a p s cs t v : wf (N a p s cs) → last_full SLNODES cs = Some t → greatest (elems t) v →
  greatest (elems (N a p s cs)) v.
Proof.
  intros Hwf (j&Hj&_&Hf&Hr)%last_full_Some (x&Hx&Hm). exists x. split; [apply elem_of_node; by exists j, t|].
  intros y w (i&u&Hi&Hu)%elem_of_node. destruct (Nat.lt_trichotomy i j) as [Hlt|[->|Hlt]].
  - pose proof (keys_ordered _ _ _ _ _ _ _ _ y x Hwf Hi Hj Hlt). rewrite !elem_of_keys in *. enough (y < x) by lia. eauto.
  - simplify_eq. by apply (Hm y w).
  - rewrite (Hr i u Hi Hlt) in Hu by (by eapply node_slot). by apply elem_of_nil in Hu.
Qed.
(** The floor of a key on the path of a node: in its child, or the greatest
    before. *)
Lemma floor_node_child a p s cs i t k v : wf (N a p s cs) → cs !! i = Some t → slice_index k s = i →
  Z.shiftr k (s + 4) = Z.shiftr p (s + 4) → floor k (elems t) v → v ≠ 0 → floor k (elems (N a p s cs)) v.
Proof.
  intros Hwf Hi Hsl Htop [[-> _]|(x&Hx&Hle&Hm)] Hv; [done|]. right. exists x. split_and!; [apply elem_of_node; by exists i, t|done|].
  intros y w (j&u&Hj&Hu)%elem_of_node Hy. destruct (Nat.lt_trichotomy i j) as [Hlt|[->|Hlt]].
  - pose proof (key_in_node _ _ _ _ _ _ _ Hwf Hj (elem_key _ _ _ Hu)) as H1. pose proof (node_slot _ _ _ _ _ _ Hwf Hi).
    apply wf_node in Hwf as (Hs%shift_ok_range&Hp&_). assert (H2 : lies p s i k) by (apply lies_iff; [lia|done..]).
    unfold lies in *. pose proof (shiftr_le y k s). lia.
  - simplify_eq. by apply (Hm y w).
  - pose proof (keys_ordered _ _ _ _ _ _ _ _ _ _ Hwf Hj Hi Hlt (elem_key _ _ _ Hu) (elem_key _ _ _ Hx)). lia.
Qed.
Lemma above_slot a p s cs i j u k y w : wf (N a p s cs) → (i < SLNODES)%nat → slice_index k s = i → Z.shiftr k (s + 4) = Z.shiftr p (s + 4) →
  cs !! j = Some u → (y, w) ∈ elems u → ((i < j)%nat → k < y) ∧ ((j < i)%nat → y < k).
Proof.
  intros Hwf Hi Hsl Htop Hj Hu. pose proof (key_in_node _ _ _ _ _ _ _ Hwf Hj (elem_key _ _ _ Hu)) as H1.
  apply wf_node in Hwf as (Hs%shift_ok_range&Hp&_). assert (H2 : lies p s i k) by (apply lies_iff; [lia|done..]).
  unfold lies in *. split; intros ?; [apply (shiftr_lt k y s)|apply (shiftr_lt y k s)]; lia.
Qed.
Lemma floor_node_left a p s cs i t u k v : wf (N a p s cs) → cs !! i = Some t → slice_index k s = i →
  Z.shiftr k (s + 4) = Z.shiftr p (s + 4) → (∀ y w, (y, w) ∈ elems t → k < y) →
  last_full i cs = Some u → greatest (elems u) v → floor k (elems (N a p s cs)) v.
Proof.
  intros Hwf Hi Hsl Htop Hnone (j&Hj&Hji&_&Hr)%last_full_Some (x&Hx&Hm). pose proof (node_slot _ _ _ _ _ _ Hwf Hi) as His. right. exists x.
  split_and!; [apply elem_of_node; by exists j, u|pose proof (above_slot _ _ _ _ _ _ _ _ _ _ Hwf His Hsl Htop Hj Hx); lia|].
  intros y w (j'&u'&Hj'&Hu')%elem_of_node Hy. pose proof (above_slot _ _ _ _ _ _ _ _ _ _ Hwf His Hsl Htop Hj' Hu').
  destruct (Nat.lt_trichotomy j' j) as [Hlt|[->|Hlt]].
  - pose proof (keys_ordered _ _ _ _ _ _ _ _ _ _ Hwf Hj' Hj Hlt (elem_key _ _ _ Hu') (elem_key _ _ _ Hx)). lia.
  - simplify_eq. by apply (Hm y w).
  - destruct (Nat.lt_trichotomy j' i) as [Hlt'|[->|Hlt']]; [|simplify_eq; specialize (Hnone y w Hu'); lia|lia].
    rewrite (Hr j' u' Hj' Hlt Hlt') in Hu'. by apply elem_of_nil in Hu'.
Qed.
Lemma floor_node_none a p s cs i t k : wf (N a p s cs) → cs !! i = Some t → slice_index k s = i →
  Z.shiftr k (s + 4) = Z.shiftr p (s + 4) → (∀ y w, (y, w) ∈ elems t → k < y) → last_full i cs = None → floor k (elems (N a p s cs)) 0.
Proof.
  intros Hwf Hi Hsl Htop Hnone Hr. pose proof (node_slot _ _ _ _ _ _ Hwf Hi) as His. left. split; [done|].
  intros y w (j&u&Hj&Hu)%elem_of_node. pose proof (above_slot _ _ _ _ _ _ _ _ _ _ Hwf His Hsl Htop Hj Hu).
  destruct (Nat.lt_trichotomy j i) as [Hlt|[->|Hlt]]; [|simplify_eq; by eapply Hnone|lia].
  rewrite (last_full_None i cs Hr j u Hj Hlt) in Hu. by apply elem_of_nil in Hu.
Qed.
(** Off the path, the node is before the key or after it. *)
Lemma floor_off_path a p s cs k v : wf (N a p s cs) → Z.shiftr k (s + 4) ≠ Z.shiftr p (s + 4) →
  (if p <? k then greatest (elems (N a p s cs)) v else v = 0) → floor k (elems (N a p s cs)) v.
Proof.
  intros Hwf Hne Hv. assert (Ht : ∀ y w, (y, w) ∈ elems (N a p s cs) → Z.shiftr y (s + 4) = Z.shiftr p (s + 4)).
  { intros y w Hy. apply (key_top a p s cs); [done|]. by eapply elem_key. }
  apply wf_node in Hwf as (Hs%shift_ok_range&_). destruct (Z.ltb_spec p k) as [Hlt|Hge].
  - destruct Hv as (x&Hx&Hm). right. exists x. split_and!; [done| |by intros; eapply Hm].
    pose proof (Ht x v Hx). pose proof (shiftr_le p k (s + 4)). enough (x < k) by lia. apply (shiftr_lt x k (s + 4)); lia.
  - left. split; [done|]. intros y w Hy. pose proof (Ht y w Hy). pose proof (shiftr_le k p (s + 4)). apply (shiftr_lt k y (s + 4)); lia.
Qed.

(** ** Going down *)

Definition frame_at (a p s : Z) (cs : list ct) (i : nat) : frame := Frame a p s (take i cs) (drop (S i) cs).
Lemma fill_frame_at a p s cs i t : cs !! i = Some t → fill1 (frame_at a p s cs i) t = N a p s cs ∧ length (take i cs) = i.
Proof.
  intros Hi. split; [unfold fill1; cbn; by rewrite take_drop_middle|]. apply lookup_lt_Some in Hi. rewrite length_take. lia.
Qed.
(** [n] levels are enough. *)
Definition deep (n : nat) (t : ct) : Prop := below (4 * Z.of_nat n) t.
Lemma wf_deep t n : wf t → (16 ≤ n)%nat → deep n t.
Proof. destruct t as [|a k v|a p s cs]; [done..|]. intros ((j&->&?)&_)%wf_node ?. unfold deep. cbn. lia. Qed.
Lemma child_deep a p s cs i t n : wf (N a p s cs) → deep (S n) (N a p s cs) → cs !! i = Some t → wf t ∧ deep n t.
Proof.
  intros ((j&->&?)&_&_&Hcs&Hch&_)%wf_node Hd Hi. rewrite Forall_lookup in Hcs. pose proof (Hcs i t Hi) as Ht. split; [done|].
  destruct (Hch i t Hi) as [Hb _]. destruct t as [|a' k v|a' p' s' cs']; [done..|]. apply wf_node in Ht as ((j'&->&?)&_). unfold deep in *. cbn in *. lia.
Qed.
Lemma not_deep a p s cs : wf (N a p s cs) → ¬ deep 0 (N a p s cs).
Proof. intros (Hs%shift_ok_range&_)%wf_node. unfold deep. cbn. lia. Qed.
Lemma node_child a p s cs k : wf (N a p s cs) → ∃ t, cs !! slice_index k s = Some t.
Proof. intros (_&_&Hl&_)%wf_node. apply lookup_lt_is_Some_2. rewrite Hl. apply slice_index_lt. Qed.
Lemma guided_frame a p s cs k t : cs !! slice_index k s = Some t → slice_index k s = length (fl (frame_at a p s cs (slice_index k s))).
Proof. intros H. destruct (fill_frame_at a p s cs _ _ H) as [_ E]. by rewrite <-E at 1. Qed.
Lemma inside_frame a p s cs k t : wf (N a p s cs) → cs !! slice_index k s = Some t → Z.shiftr k (s + 4) = Z.shiftr p (s + 4) →
  lies p s (length (fl (frame_at a p s cs (slice_index k s)))) k.
Proof.
  intros (Hs%shift_ok_range&Hp&_)%wf_node Ht Hk. rewrite <-(guided_frame a p s cs k t Ht). apply lies_iff; [lia|done|apply slice_index_lt|done].
Qed.

(** The key or the path of a subtree, where it differs from a key [k] that belongs
    in its place. *)
Definition tpath (t : ct) : Z := match t with Emp => 0 | L _ k _ => k | N _ p _ _ => p end.
Definition off_path (k : Z) (t : ct) : Prop := match t with N _ p s _ => Z.shiftr k (s + 4) ≠ Z.shiftr p (s + 4) | _ => True end.
Lemma off_path_ne k a p s cs : off_path k (N a p s cs) → p ≠ k.
Proof. by intros H ->. Qed.
Lemma tpath_ok t : wf t → full t → key_ok (tpath t).
Proof. destruct t; [by intros _ []|done|]. intros H _. by eapply path_key_ok. Qed.
Lemma split_facts t k : wf t → full t → off_path k t → key_ok k → tpath t ≠ k →
  below (split_shift (tpath t) k) t ∧ Forall (λ x, Z.shiftr x (split_shift (tpath t) k) = Z.shiftr (tpath t) (split_shift (tpath t) k)) (keys t).
Proof.
  intros Hwf Hf Hoff Hk Hne. pose proof (tpath_ok t Hwf Hf) as Hp. destruct t as [|a x v|a p s cs]; [by destruct Hf| |].
  - split; [done|]. by apply Forall_singleton.
  - cbn [tpath] in *. pose proof Hwf as (Hs&_)%wf_node. pose proof (shift_ok_range s Hs).
    assert (Hlt : s < split_shift p k) by (apply split_shift_above; [done..|]; intros E; by apply Hoff). split; [done|].
    destruct (split_shift_spec p k) as ((j&Ej&?)&_); [done..|]. destruct Hs as (j'&Ej'&?).
    apply Forall_forall. intros y Hy. apply (shiftr_coarser y p (s + 4)); [lia|]. by apply (key_top a p s cs).
Qed.
Lemma split_below K t k : wf (fill K t) → full t → inside K k → off_path k t → key_ok k → tpath t ≠ k →
  match K with [] => True | f :: _ => split_shift (tpath t) k < fs f end.
Proof.
  intros Hwf Hf Hin Hoff Hk Hne. destruct K as [|f K]; [done|]. destruct (wf_fill_hole _ _ Hwf) as (Ht&Hb&Hkeys).
  cbn [fill] in Hwf. destruct (wf_fill_hole K _ Hwf) as (H1&_). apply wf_node in H1 as (Hs&_). pose proof (shift_ok_range _ Hs).
  apply split_shift_below; [by apply tpath_ok|done..|]. apply Forall_cons in Hin as [Hin _]. rewrite Forall_forall in Hkeys.
  assert (Hx : ∃ x, x ∈ keys t ∧ Z.shiftr x (fs f) = Z.shiftr (tpath t) (fs f)).
  { destruct (wf_inhabited t Ht) as [x Hx]; [by intros ->|]. exists x. split; [done|].
    destruct t as [|a y v|a p s cs]; [by destruct Hf|by apply list_elem_of_singleton in Hx as ->|]. cbn [below_ctx below tpath] in *.
    pose proof (key_top _ _ _ _ _ Ht Hx). apply wf_node in Ht as ((j&->&?)&_). destruct Hs as (j'&Ej&?).
    apply (shiftr_coarser x p (4 * j + 4)); [lia|done]. }
  destruct Hx as (x&Hx&<-). specialize (Hkeys x Hx). apply Forall_cons in Hkeys as [Hx' _]. unfold lies in *. lia.
Qed.
Lemma contents_lookup t k v : wf t → contents t !! k = Some v ↔ (k, v) ∈ elems t.
Proof. intros Hwf. symmetry. apply elem_of_list_to_map, keys_NoDup. done. Qed.
Lemma contents_None t k : contents t !! k = None ↔ k ∉ keys t.
Proof. symmetry. apply not_elem_of_list_to_map. Qed.
Lemma contents_new t t' k v : wf t' → elems t' ≡ₚ (k, v) :: elems t → contents t' = <[k := v]> (contents t).
Proof. intros Hwf Hp. by rewrite (contents_perm _ _ Hwf Hp). Qed.
Lemma contents_less t t' k v : wf t → elems t ≡ₚ (k, v) :: elems t' → contents t' = delete k (contents t).
Proof.
  intros Hwf Hp. rewrite (contents_perm _ _ Hwf Hp). cbn. symmetry. apply delete_insert_id. apply contents_None.
  pose proof (keys_NoDup t Hwf) as Hnd. unfold keys in Hnd. rewrite Hp in Hnd. by apply NoDup_cons in Hnd as [? _].
Qed.
