(* ===== verification/CritnibFacts.v ===== *)
(** * The blocks of a critnib

    How the blocks of memory represent a tree and the pools, and what the
    operations do to them: every block is in the tree, in a pool, or waiting for the
    end of its grace period, and in one of them only. *)
From stdpp Require Import base list gmap.
From S2P Require Import Prelude Critnib CritnibTree.
Open Scope Z_scope.

Fixpoint rep (c : critnib) (t : ct) : Prop :=
  match t with
  | Emp => True
  | L a k v => leaves c !! a = Some (CLeaf k v)
  | N a p s cs => nodes c !! a = Some (CNode (ptr_of <$> cs) p s) ∧ foldr (λ t, and (rep c t)) True cs
  end.
Lemma rep_children c cs : foldr (λ t, and (rep c t)) True cs ↔ Forall (rep c) cs.
Proof. induction cs as [|t cs IH]; [done|]. cbn. rewrite Forall_cons, IH. done. Qed.
Lemma rep_node c a p s cs : rep c (N a p s cs) ↔ nodes c !! a = Some (CNode (ptr_of <$> cs) p s) ∧ Forall (rep c) cs.
Proof. cbn [rep]. by rewrite rep_children. Qed.
(** The blocks of [ns] and [ls] are the same. *)
Definition same_at (ns ls : list Z) (c c' : critnib) : Prop :=
  (∀ a, a ∈ ns → nodes c' !! a = nodes c !! a) ∧ (∀ a, a ∈ ls → leaves c' !! a = leaves c !! a).
Lemma rep_frame c c' t : same_at (naddrs t) (laddrs t) c c' → rep c t → rep c' t.
Proof.
  induction t as [|a k v|a p s cs IH] using ct_ind'; intros [Hn Hl]; [done| |].
  - cbn. rewrite Hl; [done|]. apply list_elem_of_here.
  - rewrite !rep_node. intros [Ha Hcs]. split; [rewrite Hn; [done|apply list_elem_of_here]|].
    rewrite Forall_forall in *. intros t Ht. apply IH; [done| |by apply Hcs]. apply list_elem_of_lookup in Ht as [i Hi].
    split; intros b Hb; [apply Hn; right|apply Hl]; apply elem_of_concat_fmap; by exists i, t.
Qed.

Lemma rep_list_frame c c' cs : same_at (concat (naddrs <$> cs)) (concat (laddrs <$> cs)) c c' → Forall (rep c) cs → Forall (rep c') cs.
Proof.
  intros [Hn Hl]. rewrite !Forall_lookup. intros H i t Hi. apply (rep_frame c); [|by apply (H i)].
  split; intros b Hb; [apply Hn|apply Hl]; apply elem_of_concat_fmap; by exists i, t.
Qed.

(** The nodes above a place, with [q] in the place. *)
Fixpoint rep_ctx (c : critnib) (K : list frame) (q : ptr) : Prop :=
  match K with
  | [] => True
  | f :: K' =>
      nodes c !! fa f = Some (CNode ((ptr_of <$> fl f) ++ q :: (ptr_of <$> fr f)) (fp f) (fs f)) ∧
      Forall (rep c) (fl f) ∧ Forall (rep c) (fr f) ∧ rep_ctx c K' (PNode (fa f))
  end.
Lemma rep_fill c K t : rep c (fill K t) ↔ rep c t ∧ rep_ctx c K (ptr_of t).
Proof.
  revert t. induction K as [|f K IH]; intros t; [cbn; tauto|]. cbn [fill rep_ctx]. rewrite IH. unfold fill1 at 1. rewrite rep_node.
  rewrite fmap_app, Forall_app, Forall_cons. cbn [fmap list_fmap fill1 ptr_of]. tauto.
Qed.
Lemma rep_ctx_frame c c' K q : same_at ((fa <$> K) ++ around naddrs K) (around laddrs K) c c' → rep_ctx c K q → rep_ctx c' K q.
Proof.
  revert q. induction K as [|f K IH]; intros q [Hn Hl]; [done|]. cbn [rep_ctx]. intros (Ha&H1&H2&HK).
  unfold around in Hn, Hl. cbn in Hn, Hl. split_and!.
  - rewrite Hn; [done|]. apply list_elem_of_here.
  - apply (rep_list_frame c); [|done]. split; intros b Hb; [apply Hn|apply Hl]; rewrite ?elem_of_cons, !elem_of_app; tauto.
  - apply (rep_list_frame c); [|done]. split; intros b Hb; [apply Hn|apply Hl]; rewrite ?elem_of_cons, !elem_of_app; tauto.
  - apply IH; [|done]. split; intros b Hb.
    + apply Hn. rewrite elem_of_app in Hb. unfold around in Hb. rewrite elem_of_cons, !elem_of_app. tauto.
    + apply Hl. rewrite elem_of_app. by right.
Qed.

(** ** Ownership *)

(** The blocks of a memory are those of the list, each once. *)
Definition covers {B} (m : gmap Z B) (l : list Z) : Prop := NoDup l ∧ 0 ∉ l ∧ ∀ a, is_Some (m !! a) ↔ a ∈ l.
Lemma covers_perm {B} (m : gmap Z B) l l' : l ≡ₚ l' → covers m l → covers m l'.
Proof. intros Hp (H1&H2&H3). split_and!; [by rewrite <-Hp..|]. intros a. by rewrite H3, Hp. Qed.
Lemma covers_in {B} (m : gmap Z B) l a : covers m l → a ∈ l → ∃ b, m !! a = Some b.
Proof. intros (_&_&H) Ha. by apply H. Qed.
Lemma covers_nonzero {B} (m : gmap Z B) l a : covers m l → a ∈ l → a ≠ 0.
Proof. intros (_&H&_) Ha ->. done. Qed.
Lemma covers_update {B} (m : gmap Z B) l a b : covers m l → a ∈ l → covers (<[a := b]> m) l.
Proof.
  intros (H1&H2&H3) Ha. split_and!; [done..|]. intros a'. destruct (decide (a' = a)) as [->|].
  - rewrite lookup_insert_eq. split; [done|by eexists].
  - by rewrite lookup_insert_ne.
Qed.
Lemma covers_new {B} (m : gmap Z B) l a b : covers m l → m !! a = None → a ≠ 0 → covers (<[a := b]> m) (a :: l).
Proof.
  intros (H1&H2&H3) Ha Hz. split_and!.
  - apply NoDup_cons. split; [|done]. intros [? H]%H3. congruence.
  - rewrite elem_of_cons. intros [?|?]; congruence.
  - intros a'. rewrite elem_of_cons, <-H3. destruct (decide (a' = a)) as [->|].
    + rewrite lookup_insert_eq. split; [by left|by eexists].
    + rewrite lookup_insert_ne by done. naive_solver.
Qed.

(** The pools: [next] is in [child[0]] and in [value]. *)
Definition link (d : Z) : ptr := if d =? 0 then PNull else PNode d.
Fixpoint nchain (c : critnib) (d : Z) (l : list Z) : Prop :=
  match l with
  | [] => d = 0
  | a :: l' => d = a ∧ ∃ n d', nodes c !! a = Some n ∧ child_at n 0 = link d' ∧ nchain c d' l'
  end.
Fixpoint lchain (c : critnib) (d : Z) (l : list Z) : Prop :=
  match l with
  | [] => d = 0
  | a :: l' => d = a ∧ ∃ k, leaves c !! a = Some k ∧ lchain c (value k) l'
  end.
Lemma nchain_frame c c' d l : (∀ a, a ∈ l → nodes c' !! a = nodes c !! a) → nchain c d l → nchain c' d l.
Proof.
  revert d. induction l as [|a l IH]; intros d H; [done|]. intros (->&n&d'&Hn&Hc&Hl). split; [done|]. exists n, d'.
  split_and!; [by rewrite H by apply list_elem_of_here|done|]. apply IH; [|done]. intros b Hb. apply H. by right.
Qed.
Lemma lchain_frame c c' d l : (∀ a, a ∈ l → leaves c' !! a = leaves c !! a) → lchain c d l → lchain c' d l.
Proof.
  revert d. induction l as [|a l IH]; intros d H; [done|]. intros (->&k&Hk&Hl). split; [done|]. exists k.
  split; [by rewrite H by apply list_elem_of_here|]. apply IH; [|done]. intros b Hb. apply H. by right.
Qed.
(** [t] is the tree, [pn] and [pl] are the pools, [xn] and [xl] the other blocks. *)
Record core (c : critnib) (t : ct) (pn pl xn xl : list Z) : Prop := Core {
  core_rep : rep c t;
  core_root : root c = ptr_of t;
  core_pn : nchain c (deleted_node c) pn;
  core_pl : lchain c (deleted_leaf c) pl;
  core_nodes : covers (nodes c) (naddrs t ++ pn ++ xn);
  core_leaves : covers (leaves c) (laddrs t ++ pl ++ xl);
  core_slots : map_Forall (λ _ n, length (child n) = SLNODES) (nodes c);
}.
(** What waits, and the count of removals. *)
Definition aside (c : critnib) := (pending_del_nodes c, pending_del_leaves c, remove_count c).
Lemma core_perm c t pn pl xn xl xn' xl' : xn ≡ₚ xn' → xl ≡ₚ xl' → core c t pn pl xn xl → core c t pn pl xn' xl'.
Proof.
  intros Hn Hl []. split; [done..| | |done]; (eapply covers_perm; [|done]); [by rewrite Hn|by rewrite Hl].
Qed.
Lemma core_aside c c' t pn pl xn xl :
  nodes c' = nodes c → leaves c' = leaves c → root c' = root c → deleted_node c' = deleted_node c → deleted_leaf c' = deleted_leaf c →
  core c t pn pl xn xl → core c' t pn pl xn xl.
Proof.
  intros Hn Hl Hr Hdn Hdl []. split; rewrite ?Hn, ?Hl, ?Hr, ?Hdn, ?Hdl; [|done| | |done..].
  - eapply rep_frame; [|done]. split; intros; by rewrite ?Hn, ?Hl.
  - eapply nchain_frame; [|done]. intros. by rewrite Hn.
  - eapply lchain_frame; [|done]. intros. by rewrite Hl.
Qed.
Lemma covers_disjoint {B} (m : gmap Z B) l1 l2 l3 a : covers m (l1 ++ l2 ++ l3) → a ∈ l3 → a ∉ l1 ∧ a ∉ l2.
Proof.
  intros (Hnd&_) Ha. apply NoDup_app in Hnd as (_&H1&Hnd). apply NoDup_app in Hnd as (_&H2&_). split; intros H.
  - apply (H1 a H), elem_of_app. by right.
  - by apply (H2 a).
Qed.
Lemma same_at_refl ns ls c : same_at ns ls c c.
Proof. done. Qed.

(** ** The pools *)

(** What the code relies on of [Malloc]: a block is new. *)
Class NibMallocLaws (E : NibMalloc) : Prop := {
  Malloc_node_new m a : Malloc_node m = Some a → m !! a = None ∧ a ≠ 0;
  Malloc_leaf_new m a : Malloc_leaf m = Some a → m !! a = None ∧ a ≠ 0;
}.
Lemma deref_node_Ok c a n : nodes c !! a = Some n → deref_node a c = Ok n c.
Proof. intros H. unfold deref_node, bind, gets. by rewrite H. Qed.
Lemma deref_leaf_Ok c a k : leaves c !! a = Some k → deref_leaf a c = Ok k c.
Proof. intros H. unfold deref_leaf, bind, gets. by rewrite H. Qed.

Section owned.
Context {E : NibMalloc} {EL : NibMallocLaws E}.
Implicit Types (c : critnib) (t : ct) (pn pl xn xl : list Z).

(** A block of one's own can be written. *)
Lemma put_leaf_core c t pn pl xn xl l k : core c t pn pl xn (l :: xl) →
  ∃ c', put_leaf l k c = Ok tt c' ∧ core c' t pn pl xn (l :: xl) ∧ leaves c' = <[l := k]> (leaves c) ∧ nodes c' = nodes c ∧ aside c' = aside c.
Proof.
  intros []. destruct (covers_disjoint _ _ _ _ l core_leaves0) as [H1 H2]; [apply list_elem_of_here|].
  destruct (covers_in _ _ l core_leaves0) as [k0 Hk0]; [rewrite !elem_of_app; do 2 right; apply list_elem_of_here|].
  exists (set_leaves (<[l := k]> (leaves c)) c). unfold put_leaf. rewrite (bind_Ok _ _ _ _ _ (deref_leaf_Ok _ _ _ Hk0)).
  split; [done|]. split; [|done]. split; [|done| | |done| |done].
  - eapply rep_frame; [|done]. split; [done|]. intros a Ha. cbn. rewrite lookup_insert_ne; [done|]. by intros ->.
  - eapply nchain_frame; [|done]. done.
  - eapply lchain_frame; [|done]. intros a Ha. cbn. rewrite lookup_insert_ne; [done|]. by intros ->.
  - apply covers_update; [done|]. rewrite !elem_of_app. do 2 right. apply list_elem_of_here.
Qed.
Lemma put_node_core c t pn pl xn xl m n : core c t pn pl (m :: xn) xl → length (child n) = SLNODES →
  ∃ c', put_node m n c = Ok tt c' ∧ core c' t pn pl (m :: xn) xl ∧ nodes c' = <[m := n]> (nodes c) ∧ leaves c' = leaves c ∧ aside c' = aside c.
Proof.
  intros [] Hlen. destruct (covers_disjoint _ _ _ _ m core_nodes0) as [H1 H2]; [apply list_elem_of_here|].
  destruct (covers_in _ _ m core_nodes0) as [n0 Hn0]; [rewrite !elem_of_app; do 2 right; apply list_elem_of_here|].
  exists (set_nodes (<[m := n]> (nodes c)) c). unfold put_node. rewrite (bind_Ok _ _ _ _ _ (deref_node_Ok _ _ _ Hn0)).
  split; [done|]. split; [|done]. split; [|done| | | |done|].
  - eapply rep_frame; [|done]. split; [|done]. intros a Ha. cbn. rewrite lookup_insert_ne; [done|]. by intros ->.
  - eapply nchain_frame; [|done]. intros a Ha. cbn. rewrite lookup_insert_ne; [done|]. by intros ->.
  - eapply lchain_frame; [|done]. done.
  - apply covers_update; [done|]. rewrite !elem_of_app. do 2 right. apply list_elem_of_here.
  - by apply map_Forall_insert_2.
Qed.
Lemma alloc_leaf_core c t pn pl xn xl : core c t pn pl xn xl →
  (alloc_leaf c = Ok 0 c ∧ Malloc_leaf (leaves c) = None) ∨
  ∃ l pl' c', alloc_leaf c = Ok l c' ∧ l ≠ 0 ∧ core c' t pn pl' xn (l :: xl) ∧ aside c' = aside c.
Proof using EL.
  intros Hc. destruct pl as [|a pl].
  - assert (Hd : deleted_leaf c = 0) by exact (core_pl _ _ _ _ _ _ Hc).
    assert (Hrun : alloc_leaf c = match Malloc_leaf (leaves c) with None => Ok 0 c | Some l => Ok l (set_leaves (<[l := CLeaf 0 0]> (leaves c)) c) end).
    { unfold alloc_leaf, bind, gets. rewrite Hd. cbn. by destruct (Malloc_leaf _). }
    rewrite Hrun. clear Hrun. destruct (Malloc_leaf (leaves c)) as [l|] eqn:Hm; [right|by left].
    apply Malloc_leaf_new in Hm as [Hnew Hz]. destruct Hc. exists l, [], (set_leaves (<[l := CLeaf 0 0]> (leaves c)) c).
    split_and!; [done..| |done]. split; [|done| |done|done| |done].
    + eapply rep_frame; [|done]. split; [done|]. intros a Ha. cbn. rewrite lookup_insert_ne; [done|]. intros ->.
      destruct (covers_in _ _ a core_leaves0) as [? ?]; [apply elem_of_app; by left|congruence].
    + eapply nchain_frame; [|done]. done.
    + eapply covers_perm; [|exact (covers_new _ _ l _ core_leaves0 Hnew Hz)]. cbn. solve_Permutation.
  - right. destruct Hc. destruct core_pl0 as (Hd&k&Hk&Hl). unfold alloc_leaf. rewrite (bind_Ok _ _ _ _ _ (eq_refl : gets deleted_leaf c = _)), Hd.
    assert (Ha : a ≠ 0) by (eapply covers_nonzero; [exact core_leaves0|rewrite !elem_of_app; right; left; apply list_elem_of_here]).
    rewrite (proj2 (Z.eqb_neq a 0) Ha), (bind_Ok _ _ _ _ _ (deref_leaf_Ok _ _ _ Hk)).
    exists a, pl, (set_deleted_leaf (value k) c). split_and!; [done..| |done].
    split; [|done| | |done| |done].
    + eapply rep_frame; [|done]. done.
    + eapply nchain_frame; [|done]. done.
    + eapply lchain_frame; [|done]. done.
    + eapply covers_perm; [|done]. solve_Permutation.
Qed.
Lemma link_cases d : link d = PNull ∧ d = 0 ∨ link d = PNode d ∧ d ≠ 0.
Proof. unfold link. destruct (Z.eqb_spec d 0); [by left|by right]. Qed.
Lemma alloc_node_core c t pn pl xn xl : core c t pn pl xn xl →
  (alloc_node c = Ok 0 c ∧ Malloc_node (nodes c) = None) ∨
  ∃ m pn' c', alloc_node c = Ok m c' ∧ m ≠ 0 ∧ core c' t pn' pl (m :: xn) xl ∧ leaves c' = leaves c ∧ aside c' = aside c.
Proof using EL.
  intros Hc. destruct pn as [|a pn].
  - assert (Hd : deleted_node c = 0) by exact (core_pn _ _ _ _ _ _ Hc).
    assert (Hrun : alloc_node c = match Malloc_node (nodes c) with None => Ok 0 c | Some m => Ok m (set_nodes (<[m := CNode (replicate SLNODES PNull) 0 0]> (nodes c)) c) end).
    { unfold alloc_node, bind, gets. rewrite Hd. cbn. by destruct (Malloc_node _). }
    rewrite Hrun. clear Hrun. destruct (Malloc_node (nodes c)) as [m|] eqn:Hm; [right|by left].
    apply Malloc_node_new in Hm as [Hnew Hz]. destruct Hc. exists m, [], (set_nodes (<[m := CNode (replicate SLNODES PNull) 0 0]> (nodes c)) c).
    split_and!; [done..| |done|done]. split; [|done|done| | |done|].
    + eapply rep_frame; [|done]. split; [|done]. intros a Ha. cbn. rewrite lookup_insert_ne; [done|]. intros ->.
      destruct (covers_in _ _ a core_nodes0) as [? ?]; [apply elem_of_app; by left|congruence].
    + eapply lchain_frame; [|done]. done.
    + eapply covers_perm; [|exact (covers_new _ _ m _ core_nodes0 Hnew Hz)]. cbn. solve_Permutation.
    + by apply map_Forall_insert_2.
  - right. destruct Hc. destruct core_pn0 as (Hd&n&d'&Hn&Hlink&Hl). unfold alloc_node. rewrite (bind_Ok _ _ _ _ _ (eq_refl : gets deleted_node c = _)), Hd.
    assert (Ha : a ≠ 0) by (eapply covers_nonzero; [exact core_nodes0|rewrite !elem_of_app; right; left; apply list_elem_of_here]).
    rewrite (proj2 (Z.eqb_neq a 0) Ha), (bind_Ok _ _ _ _ _ (deref_node_Ok _ _ _ Hn)), Hlink.
    exists a, pn, (set_deleted_node d' c). split_and!; [by destruct (link_cases d') as [[-> ->]|[-> _]]|done| |done|done].
    split; [|done| | | |done|done].
    + eapply rep_frame; [|done]. done.
    + eapply nchain_frame; [|done]. done.
    + eapply lchain_frame; [|done]. done.
    + eapply covers_perm; [|done]. solve_Permutation.
Qed.
Lemma free_leaf_core c t pn pl xn xl l : core c t pn pl xn (l :: xl) →
  ∃ c', free_leaf l c = Ok tt c' ∧ core c' t pn (l :: pl) xn xl ∧ aside c' = aside c.
Proof.
  intros Hc. pose proof (core_leaves _ _ _ _ _ _ Hc) as Hcov. assert (Hin : l ∈ laddrs t ++ pl ++ l :: xl) by (rewrite !elem_of_app; do 2 right; apply list_elem_of_here).
  destruct (covers_in _ _ l Hcov Hin) as [k Hk]. unfold free_leaf. rewrite (proj2 (Z.eqb_neq l 0) (covers_nonzero _ _ _ Hcov Hin)). cbn [negb when].
  rewrite (bind_Ok _ _ _ _ _ (deref_leaf_Ok _ _ _ Hk)). unfold bind at 1, gets.
  destruct (put_leaf_core _ _ _ _ _ _ l (CLeaf (key k) (deleted_leaf c)) Hc) as (c1&Hput&Hc1&Hl1&_&Ha1). rewrite (bind_Ok _ _ _ _ _ Hput).
  exists (set_deleted_leaf l c1). split; [done|]. split; [|done]. assert (Hdl : deleted_leaf c1 = deleted_leaf c).
  { unfold put_leaf in Hput. rewrite (bind_Ok _ _ _ _ _ (deref_leaf_Ok _ _ _ Hk)) in Hput. injection Hput as <-. done. }
  destruct Hc1. split; [|done| | |done| |done].
  - eapply rep_frame; [|done]. done.
  - eapply nchain_frame; [|done]. done.
  - cbn. split; [done|]. exists (CLeaf (key k) (deleted_leaf c)). split; [by rewrite Hl1, lookup_insert_eq|].
    eapply lchain_frame; [|cbn; rewrite <-Hdl; exact core_pl0]. done.
  - eapply covers_perm; [|done]. cbn. solve_Permutation.
Qed.
Lemma free_node_core c t pn pl xn xl m : core c t pn pl (m :: xn) xl →
  ∃ c', free_node m c = Ok tt c' ∧ core c' t (m :: pn) pl xn xl ∧ aside c' = aside c.
Proof.
  intros Hc. pose proof (core_nodes _ _ _ _ _ _ Hc) as Hcov. assert (Hin : m ∈ naddrs t ++ pn ++ m :: xn) by (rewrite !elem_of_app; do 2 right; apply list_elem_of_here).
  destruct (covers_in _ _ m Hcov Hin) as [n Hn]. unfold free_node. rewrite (proj2 (Z.eqb_neq m 0) (covers_nonzero _ _ _ Hcov Hin)). cbn [negb when].
  rewrite (bind_Ok _ _ _ _ _ (deref_node_Ok _ _ _ Hn)). unfold bind at 1, gets. pose proof (core_slots _ _ _ _ _ _ Hc m n Hn) as Hlen.
  change (if deleted_node c =? 0 then PNull else PNode (deleted_node c)) with (link (deleted_node c)).
  destruct (put_node_core _ _ _ _ _ _ m (set_child 0 (link (deleted_node c)) n) Hc) as (c1&Hput&Hc1&Hn1&_&Ha1); [by cbn; rewrite length_insert|].
  rewrite (bind_Ok _ _ _ _ _ Hput). exists (set_deleted_node m c1). split; [done|]. split; [|done].
  assert (Hdn : deleted_node c1 = deleted_node c).
  { unfold put_node in Hput. rewrite (bind_Ok _ _ _ _ _ (deref_node_Ok _ _ _ Hn)) in Hput. injection Hput as <-. done. }
  destruct Hc1. split; [|done| | | |done|done].
  - eapply rep_frame; [|done]. done.
  - cbn. split; [done|]. exists (set_child 0 (link (deleted_node c)) n), (deleted_node c). split_and!.
    + by rewrite Hn1, lookup_insert_eq.
    + unfold child_at. cbn. rewrite list_lookup_insert_eq; [done|]. rewrite Hlen. unfold SLNODES. lia.
    + eapply nchain_frame; [|rewrite <-Hdn; exact core_pn0]. done.
  - eapply lchain_frame; [|done]. done.
  - eapply covers_perm; [|done]. cbn. solve_Permutation.
Qed.
End owned.
