(* ===== verification/CritnibSpec.v ===== *)
(** * Critnib trees are finite maps

    Inserting, removing and searching do to the tree what the operations of a finite
    map do to the map, and deleting the tree frees every block once. *)
From stdpp Require Import base list gmap.
From S2P Require Import Prelude Critnib CritnibTree CritnibFacts.
Open Scope Z_scope.

Section spec.
Context {E : NibMalloc} {EL : NibMallocLaws E}.
Implicit Types (c : critnib) (t u : ct) (pn pl xn xl : list Z) (K : list frame).

(** ** A subtree for another *)

Lemma store_core K u u' c pn pl xn xl xn' xl' : core c (fill K u) pn pl xn xl → rep c u' →
  naddrs u ++ xn ≡ₚ naddrs u' ++ xn' → laddrs u ++ xl ≡ₚ laddrs u' ++ xl' →
  ∃ c', store (ref_of K) (ptr_of u') c = Ok tt c' ∧ core c' (fill K u') pn pl xn' xl' ∧ leaves c' = leaves c ∧ aside c' = aside c.
Proof.
  intros [Hrep Hroot Hpn Hpl Hcn0 Hcl0 Hsl] Hu' Hn Hl. apply rep_fill in Hrep as [Hu HK].
  assert (Hcl : covers (leaves c) (laddrs (fill K u') ++ pl ++ xl')).
  { eapply covers_perm; [|exact Hcl0]. rewrite !laddrs_fill. transitivity ((laddrs u ++ xl) ++ around laddrs K ++ pl); [solve_Permutation|].
    rewrite Hl. solve_Permutation. }
  assert (Hcn : covers (nodes c) (naddrs (fill K u') ++ pn ++ xn')).
  { eapply covers_perm; [|exact Hcn0]. rewrite !naddrs_fill. transitivity ((naddrs u ++ xn) ++ (fa <$> K) ++ around naddrs K ++ pn); [solve_Permutation|].
    rewrite Hn. solve_Permutation. }
  destruct K as [|f K]; cbn [ref_of store].
  { exists (set_root (ptr_of u') c). split_and!; [done| |done|done]. split; [|done| | |done|done|done].
    - eapply rep_frame; [|exact Hu']. done.
    - eapply nchain_frame; [|done]. done.
    - eapply lchain_frame; [|done]. done. }
  cbn [rep_ctx] in HK. destruct HK as (Hf&H1&H2&HK). rewrite (bind_Ok _ _ _ _ _ (deref_node_Ok _ _ _ Hf)).
  unfold put_node. rewrite (bind_Ok _ _ _ _ _ (deref_node_Ok _ _ _ Hf)). unfold set_child. cbn [child path shift].
  rewrite <-(length_fmap ptr_of (fl f)), insert_app_r_alt, Nat.sub_diag by done. cbn [insert list_insert].
  remember (CNode ((ptr_of <$> fl f) ++ ptr_of u' :: (ptr_of <$> fr f)) (fp f) (fs f)) as n' eqn:En.
  eexists. split; [done|]. assert (Hfresh : fa f ∉ naddrs u' ++ (fa <$> K) ++ around naddrs (f :: K) ++ pn).
  { destruct Hcn as (Hnd&_). rewrite naddrs_fill in Hnd. cbn [fmap list_fmap] in Hnd.
    assert (Hp : (naddrs u' ++ (fa f :: (fa <$> K)) ++ around naddrs (f :: K)) ++ pn ++ xn' ≡ₚ fa f :: (naddrs u' ++ (fa <$> K) ++ around naddrs (f :: K) ++ pn) ++ xn') by solve_Permutation.
    rewrite Hp in Hnd. apply NoDup_cons in Hnd as [Hnot _]. rewrite elem_of_app in Hnot. tauto. }
  unfold around in Hfresh. cbn [fmap list_fmap concat] in Hfresh. rewrite !elem_of_app in Hfresh.
  assert (Hne : ∀ a (l : list Z), a ∈ l → fa f ∉ l → nodes (set_nodes (<[fa f:=n']> (nodes c)) c) !! a = nodes c !! a).
  { intros a l Ha Hnot. cbn. rewrite lookup_insert_ne; [done|]. by intros <-. }
  split; [|done]. split; [|cbn; rewrite Hroot; apply ptr_of_fill| | | |exact Hcl|].
  - apply rep_fill. split; [eapply rep_frame; [|exact Hu']; split; [|done]; intros a Ha; apply (Hne a _ Ha); tauto|].
    cbn [rep_ctx]. split_and!.
    + cbn. rewrite lookup_insert_eq. by rewrite En.
    + apply (rep_list_frame c); [|done]. split; [|done]. intros a Ha. apply (Hne a _ Ha). tauto.
    + apply (rep_list_frame c); [|done]. split; [|done]. intros a Ha. apply (Hne a _ Ha). tauto.
    + apply (rep_ctx_frame c); [|done]. split; [|done]. intros a Ha. apply (Hne a _ Ha). rewrite elem_of_app. tauto.
  - eapply nchain_frame; [|done]. intros a Ha. apply (Hne a _ Ha). tauto.
  - eapply lchain_frame; [|done]. done.
  - apply covers_update; [done|]. rewrite naddrs_fill. cbn. rewrite !elem_of_app, elem_of_cons. tauto.
  - cbn. apply map_Forall_insert_2; [|done]. pose proof (Hsl _ _ Hf) as Hlen. cbn in Hlen. subst n'. cbn [child].
    rewrite length_app in *. exact Hlen.
Qed.

(** ** Going down *)

Lemma child_at_fmap cs p s i t : cs !! i = Some t → child_at (CNode (ptr_of <$> cs) p s) i = ptr_of t.
Proof. intros Hi. unfold child_at. cbn. by rewrite list_lookup_fmap, Hi. Qed.
Definition prev_of K (d : ptr) : ptr := match K with [] => d | f :: _ => PNode (fa f) end.
Definition above_of K (d : node_ref) : node_ref := match K with [] => d | _ :: K' => ref_of K' end.
(** The place below, on the way of [k]. *)
Lemma go_down c a p s cs k K : wf (fill K (N a p s cs)) → rep c (fill K (N a p s cs)) →
  ∃ t, deref_node a c = Ok (CNode (ptr_of <$> cs) p s) c ∧ cs !! slice_index k s = Some t ∧
    child_at (CNode (ptr_of <$> cs) p s) (slice_index k s) = ptr_of t ∧
    fill (frame_at a p s cs (slice_index k s) :: K) t = fill K (N a p s cs) ∧
    ref_of (frame_at a p s cs (slice_index k s) :: K) = ChildRef a (slice_index k s).
Proof.
  intros Hwf [Hrep _]%rep_fill. destruct (wf_fill_hole K _ Hwf) as (H1&_). destruct (node_child _ _ _ _ k H1) as [t Ht].
  apply rep_node in Hrep as [Ha _]. exists t. destruct (fill_frame_at a p s cs _ _ Ht) as [E1 E2].
  split_and!; [by apply deref_node_Ok|done|by apply child_at_fmap|cbn [fill]; by rewrite E1|cbn; by rewrite E2].
Qed.
Lemma descend_Ok c k d fuel t K0 : deep fuel t → wf (fill K0 t) → rep c (fill K0 t) → inside K0 k → key_ok k →
  ∃ K1 u, let K := K1 ++ K0 in descend fuel k (ptr_of t) (ref_of K0) (prev_of K0 d) c = Ok (ptr_of u, ref_of K, prev_of K d) c ∧
    fill K u = fill K0 t ∧ inside K k ∧ off_path k u ∧ (K1 = [] → u = t).
Proof.
  revert t K0. induction fuel as [|fuel IH]; intros t K0 Hd Hwf Hrep Hin Hk.
  { exists [], t. destruct t; [split_and!; done..|]. destruct (wf_fill_hole K0 _ Hwf) as (H1&_). by destruct (not_deep _ _ _ _ H1). }
  destruct t as [|a x v|a p s cs]; [exists [], Emp; split_and!; done|exists [], (L a x v); split_and!; done|].
  destruct (go_down c a p s cs k K0 Hwf Hrep) as (t&Hderef&Ht&Hchild&Hfill&Href). cbn [descend ptr_of]. rewrite (bind_Ok _ _ _ _ _ Hderef).
  cbn [shift path]. destruct (wf_fill_hole K0 _ Hwf) as (H1&_). pose proof H1 as (Hs&Hp&_)%wf_node.
  destruct (Z.eqb_spec (Z.land k (path_mask s)) p) as [Hm|Hm]; rewrite path_match in Hm by done.
  - rewrite Hchild, <-Href. change (PNode a) with (prev_of (frame_at a p s cs (slice_index k s) :: K0) d). rewrite <-Hfill in *.
    destruct (child_deep _ _ _ _ _ _ fuel H1 Hd Ht) as [_ Hd'].
    destruct (IH t (frame_at a p s cs (slice_index k s) :: K0)) as (K&u&Hrun&E1&E2&E3&_); [done..| |done|].
    { constructor; [|done]. by apply (inside_frame a p s cs k t). }
    exists (K ++ [frame_at a p s cs (slice_index k s)]), u. cbn zeta. rewrite <-app_assoc. split_and!; [done..|]. by intros [_ ?]%app_nil.
  - exists [], (N a p s cs). split_and!; done.
Qed.
Lemma dive_Ok c k fuel t K0 : deep fuel t → wf (fill K0 t) → rep c (fill K0 t) → guided k K0 →
  ∃ K u, dive fuel k (ptr_of t) c = Ok (ptr_of u) c ∧ fill K u = fill K0 t ∧ guided k K ∧ deep 0 u.
Proof.
  revert t K0. induction fuel as [|fuel IH]; intros t K0 Hd Hwf Hrep Hg.
  { exists K0, t. destruct t; [split_and!; done..|]. destruct (wf_fill_hole K0 _ Hwf) as (H1&_). by destruct (not_deep _ _ _ _ H1). }
  destruct t as [|a x v|a p s cs]; [exists K0, Emp; split_and!; done|exists K0, (L a x v); split_and!; done|].
  destruct (go_down c a p s cs k K0 Hwf Hrep) as (t&Hderef&Ht&Hchild&Hfill&_). cbn [dive ptr_of]. rewrite (bind_Ok _ _ _ _ _ Hderef).
  cbn [shift path]. rewrite Hchild, <-Hfill in *. destruct (wf_fill_hole _ _ Hwf) as (_&_). destruct (wf_fill_hole K0 (N a p s cs)) as (H1&_).
  { by rewrite <-Hfill. }
  destruct (child_deep _ _ _ _ _ _ fuel H1 Hd Ht) as [_ Hd']. apply IH; [done..|]. constructor; [by apply (guided_frame a p s cs k t)|done].
Qed.
Lemma descend_to_Ok c k d d' fuel t K0 : deep fuel t → wf (fill K0 t) → rep c (fill K0 t) → guided k K0 →
  ∃ K1 u, let K := K1 ++ K0 in descend_to fuel k (ptr_of t) (ref_of K0) (prev_of K0 d) (above_of K0 d') c = Ok (ptr_of u, ref_of K, prev_of K d, above_of K d') c ∧
    fill K u = fill K0 t ∧ guided k K ∧ deep 0 u ∧ (K1 = [] → u = t).
Proof.
  revert t K0. induction fuel as [|fuel IH]; intros t K0 Hd Hwf Hrep Hg.
  { exists [], t. destruct t; [split_and!; done..|]. destruct (wf_fill_hole K0 _ Hwf) as (H1&_). by destruct (not_deep _ _ _ _ H1). }
  destruct t as [|a x v|a p s cs]; [exists [], Emp; split_and!; done|exists [], (L a x v); split_and!; done|].
  destruct (go_down c a p s cs k K0 Hwf Hrep) as (t&Hderef&Ht&Hchild&Hfill&Href). cbn [descend_to ptr_of]. rewrite (bind_Ok _ _ _ _ _ Hderef).
  cbn [shift path]. destruct (wf_fill_hole K0 (N a p s cs)) as (H1&_); [done|].
  destruct (child_deep _ _ _ _ _ _ fuel H1 Hd Ht) as [_ Hd']. rewrite Hchild, <-Href.
  change (PNode a) with (prev_of (frame_at a p s cs (slice_index k s) :: K0) d).
  change (ref_of K0) with (above_of (frame_at a p s cs (slice_index k s) :: K0) d'). rewrite <-Hfill in *.
  destruct (IH t (frame_at a p s cs (slice_index k s) :: K0)) as (K&u&Hrun&E1&E2&E3&_); [done..| |].
  { constructor; [by apply (guided_frame a p s cs k t)|done]. }
  exists (K ++ [frame_at a p s cs (slice_index k s)]), u. cbn zeta. rewrite <-app_assoc. split_and!; [done..|]. by intros [_ ?]%app_nil.
Qed.

(** ** Searching *)

Definition tree_at c t : Prop := rep c t ∧ root c = ptr_of t ∧ wf t.
Lemma found_key c t k K u : wf t → rep c t → fill K u = t → guided k K → deep 0 u →
  match u with L a x v => leaves c !! a = Some (CLeaf x v) ∧ contents t !! k = (if x =? k then Some v else None) | _ => u = Emp ∧ contents t !! k = None end.
Proof.
  intros Hwf Hrep <- Hg Hd. pose proof (guided_key K u k Hwf Hg) as Hkey. destruct (wf_fill_hole K u Hwf) as (Hu&_).
  destruct u as [|a x v|a p s cs]; [| |by destruct (not_deep _ _ _ _ Hu)].
  - split; [done|]. apply contents_None. intros H%Hkey. by apply elem_of_nil in H.
  - apply rep_fill in Hrep as [Ha _]. split; [done|]. destruct (Z.eqb_spec x k) as [->|Hne].
    + apply contents_lookup; [done|]. rewrite elems_fill. apply elem_of_app. left. apply list_elem_of_here.
    + apply contents_None. intros H%Hkey%list_elem_of_singleton. by cbn in H.
Qed.
Lemma get_once_Ok c t k fuel : tree_at c t → (16 ≤ fuel)%nat → get_once fuel k c = Ok (default 0 (contents t !! k)) c.
Proof.
  intros (Hrep&Hroot&Hwf) Hfuel. unfold get_once. rewrite (bind_Ok _ _ _ _ _ (eq_refl : gets root c = _)), Hroot.
  destruct (dive_Ok c k fuel t []) as (K&u&Hrun&HK&Hg&Hd); [by apply wf_deep|done|done|constructor|]. rewrite (bind_Ok _ _ _ _ _ Hrun).
  pose proof (found_key c t k K u Hwf Hrep HK Hg Hd) as Hu. destruct u as [|a x v|a p s cs]; [by destruct Hu as [_ ->]| |by destruct Hu].
  destruct Hu as [Ha ->]. cbn [ptr_of]. rewrite (bind_Ok _ _ _ _ _ (deref_leaf_Ok _ _ _ Ha)). cbn. by destruct (x =? k).
Qed.
Lemma stable_Ok c f v turns : f c = Ok v c → 0 ≤ remove_count c < U64 - DELETED_LIFE → (1 ≤ turns)%nat → stable turns f c = Ok v c.
Proof.
  intros Hf Hc Ht. destruct turns as [|turns]; [lia|]. cbn [stable]. unfold bind, gets. rewrite Hf. cbn.
  unfold u64. rewrite Z.mod_small by (unfold DELETED_LIFE in *; lia). destruct (Z.leb_spec (remove_count c + DELETED_LIFE) (remove_count c)); [unfold DELETED_LIFE in *; lia|done].
Qed.

Lemma last_child_fmap n cs p s : last_child n (CNode (ptr_of <$> cs) p s) = ptr_of (default Emp (last_full n cs)).
Proof. apply ptr_last. Qed.
Lemma last_full_child c a p s cs n t fuel : wf (N a p s cs) → rep c (N a p s cs) → deep (S fuel) (N a p s cs) → last_full n cs = Some t →
  full t ∧ wf t ∧ rep c t ∧ deep fuel t.
Proof.
  intros Hwf Hrep Hd (j&Hj&_&Hf&_)%last_full_Some. destruct (child_deep _ _ _ _ _ _ fuel Hwf Hd Hj) as [Ht Hdt].
  apply rep_node in Hrep as [_ Hcs]. rewrite Forall_lookup in Hcs. split_and!; [done..|by apply (Hcs j)|done].
Qed.
Lemma greatest_leaf x v : greatest [(x, v)] v.
Proof. exists x. split; [apply list_elem_of_here|]. intros y w H%list_elem_of_singleton. simplify_eq. done. Qed.
Lemma find_successor_Ok c fuel a p s cs : wf (N a p s cs) → rep c (N a p s cs) → deep (S fuel) (N a p s cs) →
  ∃ v, find_successor fuel (CNode (ptr_of <$> cs) p s) c = Ok v c ∧ greatest (elems (N a p s cs)) v.
Proof.
  revert a p s cs. induction fuel as [|fuel IH]; intros a p s cs Hwf Hrep Hd; cbn [find_successor]; rewrite last_child_fmap;
    (destruct (last_full SLNODES cs) as [t|] eqn:Hl;
     [|destruct (wf_inhabited _ Hwf) as (k&(i&t&Hi&Hk)%keys_node); [done|];
       rewrite (last_full_None _ _ Hl i t Hi) in Hk by (by eapply node_slot); by apply elem_of_nil in Hk]);
    destruct (last_full_child _ _ _ _ _ _ _ _ Hwf Hrep Hd Hl) as (Hf&Ht&Hrt&Hdt); cbn [from_option id];
    destruct t as [|b x v|b p' s' cs']; try (by destruct Hf); cbn [ptr_of].
  - rewrite (bind_Ok _ _ _ _ _ (deref_leaf_Ok _ _ _ Hrt)). exists v. split; [done|]. eapply greatest_node; [done|exact Hl|]. apply greatest_leaf.
  - by destruct (not_deep _ _ _ _ Ht).
  - rewrite (bind_Ok _ _ _ _ _ (deref_leaf_Ok _ _ _ Hrt)). exists v. split; [done|]. eapply greatest_node; [done|exact Hl|]. apply greatest_leaf.
  - pose proof Hrt as [Hb _]%rep_node. rewrite (bind_Ok _ _ _ _ _ (deref_node_Ok _ _ _ Hb)). destruct (IH b p' s' cs' Ht Hrt Hdt) as (v&Hv&Hg).
    exists v. split; [done|]. by eapply greatest_node.
Qed.
Lemma floor_zero k (l : list (Z * Z)) : (∀ x v, (x, v) ∈ l → v ≠ 0) → floor k l 0 → ∀ y w, (y, w) ∈ l → k < y.
Proof. intros Hnz [[_ H]|(x&Hx&_)]; [done|]. by destruct (Hnz x 0 Hx). Qed.
(** The greatest key of the subtrees before the place of [k]. *)
Lemma left_of_Ok c fuel a p s cs n t : wf (N a p s cs) → rep c (N a p s cs) → deep (S fuel) (N a p s cs) → last_full n cs = Some t →
  ∃ v, match ptr_of t with
       | PNull => ret 0
       | PLeaf b => let! lf := deref_leaf b in ret (value lf)
       | PNode b => let! nd' := deref_node b in find_successor fuel nd'
       end c = Ok v c ∧ greatest (elems t) v.
Proof.
  intros Hwf Hrep Hd Hl. destruct (last_full_child _ _ _ _ _ _ _ _ Hwf Hrep Hd Hl) as (Hf&Ht&Hrt&Hdt).
  destruct t as [|b x v|b p' s' cs']; [by destruct Hf| |]; cbn [ptr_of].
  - rewrite (bind_Ok _ _ _ _ _ (deref_leaf_Ok _ _ _ Hrt)). exists v. split; [done|]. apply greatest_leaf.
  - pose proof Hrt as [Hb _]%rep_node. rewrite (bind_Ok _ _ _ _ _ (deref_node_Ok _ _ _ Hb)). apply find_successor_Ok; [done..|].
    unfold deep in *. cbn in *. lia.
Qed.
Lemma find_le_Ok c k fuel t : wf t → rep c t → deep fuel t → key_ok k → (∀ x v, (x, v) ∈ elems t → v ≠ 0) →
  ∃ v, find_le fuel (ptr_of t) k c = Ok v c ∧ floor k (elems t) v.
Proof.
  revert t. induction fuel as [|fuel IH]; intros t Hwf Hrep Hd Hk Hnz.
  all: destruct t as [|a x v|a p s cs]; [exists 0; split; [done|left; split; [done|by intros ?? ?%elem_of_nil]]| |].
  1,3: cbn [find_le ptr_of]; rewrite (bind_Ok _ _ _ _ _ (deref_leaf_Ok _ _ _ Hrep)); cbn [key value];
    eexists; split; [done|]; destruct (Z.leb_spec x k); [right; exists x; split_and!; [apply list_elem_of_here|done|]|left; split; [done|]];
    intros y w H'%list_elem_of_singleton; simplify_eq; done.
  { by destruct (not_deep _ _ _ _ Hwf). }
  cbn [find_le ptr_of]. pose proof Hrep as [Ha Hcs]%rep_node. rewrite (bind_Ok _ _ _ _ _ (deref_node_Ok _ _ _ Ha)). cbn [path shift].
  pose proof Hwf as (Hs&_)%wf_node. pose proof (path_key_ok _ _ _ _ Hwf) as Hp.
  destruct (Z.eqb_spec (Z.land (Z.shiftr (Z.lxor k p) s) (U64 - 1 - NIB)) 0) as [Hin|Hout]; rewrite outside_path in * by done; cbn [negb].
  - destruct (node_child _ _ _ _ k Hwf) as [t Ht]. rewrite (child_at_fmap _ _ _ _ t) by done. destruct (child_deep _ _ _ _ _ _ fuel Hwf Hd Ht) as [Hwt Hdt].
    assert (Hnt : ∀ x v, (x, v) ∈ elems t → v ≠ 0) by (intros x v Hx; apply (Hnz x v), elem_of_node; by exists (slice_index k s), t).
    destruct (IH t Hwt) as (v&Hv&Hfl); [rewrite Forall_lookup in Hcs; by eapply Hcs|done..|]. rewrite (bind_Ok _ _ _ _ _ Hv).
    destruct (Z.eqb_spec v 0) as [->|Hv0]; cbn [negb].
    + pose proof (floor_zero _ _ Hnt Hfl) as Hnone. rewrite last_child_fmap. destruct (last_full (slice_index k s) cs) as [u|] eqn:Hl; cbn [from_option id].
      * destruct (left_of_Ok c fuel a p s cs _ u Hwf Hrep Hd Hl) as (v&Hrun&Hg). exists v. split; [exact Hrun|]. by eapply floor_node_left.
      * exists 0. split; [done|]. by eapply floor_node_none.
    + exists v. split; [done|]. by eapply floor_node_child.
  - destruct (p <? k) eqn:Hlt.
    + destruct (find_successor_Ok c fuel a p s cs Hwf Hrep Hd) as (v&Hv&Hg). exists v. split; [done|]. apply floor_off_path; [done..|]. by rewrite Hlt.
    + exists 0. split; [done|]. apply floor_off_path; [done..|]. by rewrite Hlt.
Qed.
End spec.
