(* ===== verification/CritnibMap.v ===== *)
(** * Critnib trees are finite maps

    Every sequence of insertions, removals and searches answers as the operations
    of a finite map would, and deleting the tree frees each of its blocks once. *)
From stdpp Require Import base list gmap strings.
From S2P Require Import Prelude Critnib CritnibTree CritnibFacts CritnibSpec.
Open Scope Z_scope.

Definition waiting (l : list Z) : list Z := filter (λ a, a ≠ 0) l.
(** The blocks of [c] are the tree [t], the pools, and what waits. *)
Record critnib_at (c : critnib) (t : ct) : Prop := At {
  at_core : ∃ pn pl, core c t pn pl (waiting (pending_del_nodes c)) (waiting (pending_del_leaves c));
  at_wf : wf t;
  at_nodes : length (pending_del_nodes c) = 16%nat;
  at_leaves : length (pending_del_leaves c) = 16%nat;
}.

Section map.
Context {E : NibMalloc} {EL : NibMallocLaws E}.
Implicit Types (c : critnib) (t u : ct) (pn pl xn xl : list Z) (K : list frame).

(** ** Inserting *)

Definition refuses : Prop := (∃ m, Malloc_leaf m = None) ∨ (∃ m, Malloc_node m = None).
Lemma at_aside c c' t pn pl : critnib_at c t → ∀ t', aside c' = aside c → wf t' →
  core c' t' pn pl (waiting (pending_del_nodes c)) (waiting (pending_del_leaves c)) → critnib_at c' t'.
Proof.
  intros [_ _ H1 H2] t' Ha Hwf Hc. injection Ha as E1 E2 _. split; [|done|by rewrite E1|by rewrite E2]. exists pn, pl. by rewrite E1, E2.
Qed.
Lemma path_of_Ok c t : rep c t → full t → path_of (ptr_of t) c = Ok (tpath t) c.
Proof.
  destruct t as [|a k v|a p s cs]; [by intros _ []| |]; intros Hrep _; cbn [path_of ptr_of].
  - by rewrite (bind_Ok _ _ _ _ _ (deref_leaf_Ok _ _ _ Hrep)).
  - apply rep_node in Hrep as [Ha _]. by rewrite (bind_Ok _ _ _ _ _ (deref_node_Ok _ _ _ Ha)).
Qed.
(** The new node has the subtree and the leaf below it. *)
Definition graft (m l k v : Z) (u : ct) : ct :=
  let s := split_shift (tpath u) k in
  pair_node m (Z.land k (path_mask s)) s (slice_index (tpath u) s) u (slice_index k s) (L l k v).
Lemma graft_wf K u m l k v : wf (fill K u) → full u → inside K k → off_path k u → key_ok k → tpath u ≠ k →
  wf (fill K (graft m l k v u)) ∧ slice_index (tpath u) (split_shift (tpath u) k) ≠ slice_index k (split_shift (tpath u) k).
Proof.
  intros Hwf Hf Hin Hoff Hk Hne. destruct (wf_fill_hole K u Hwf) as (Hu&_&Hkeys). destruct (split_facts u k Hu Hf Hoff Hk Hne) as [Hb Hs].
  destruct (wf_pair m l (tpath u) k v u Hu Hf (tpath_ok u Hu Hf) Hk Hne Hb Hs) as [Hg Hij]. split; [|done].
  apply (wf_fill K u); [done..| |].
  - pose proof (split_below K u k Hwf Hf Hin Hoff Hk Hne) as Hlt. destruct K; [done|]. exact Hlt.
  - rewrite Forall_forall in *. intros x Hx. unfold keys, graft, pair_node in Hx. cbn [elems] in Hx.
    rewrite pair_node_gather in Hx; [|done|done|apply slice_index_lt..]. rewrite fmap_app, elem_of_app in Hx.
    destruct Hx as [Hx|Hx%list_elem_of_singleton]; [by apply Hkeys|]. cbn in Hx. by subst x.
Qed.
Lemma graft_rep c m l k v u : rep c u → leaves c !! l = Some (CLeaf k v) →
  (let s := split_shift (tpath u) k in
   nodes c !! m = Some (CNode (<[slice_index (tpath u) s := ptr_of u]> (<[slice_index k s := PLeaf l]> (replicate SLNODES PNull))) (Z.land k (path_mask s)) s)) →
  rep c (graft m l k v u).
Proof.
  cbn zeta. intros Hu Hl Hm. apply rep_node. split.
  - rewrite Hm, !list_fmap_insert, fmap_replicate. done.
  - apply Forall_insert; [|done]. apply Forall_insert; [|done]. by apply Forall_replicate.
Qed.
Lemma split_at_Ok c K u k l v pn pl xn xl : core c (fill K u) pn pl xn (l :: xl) → leaves c !! l = Some (CLeaf k v) →
  wf (fill K u) → full u → inside K k → off_path k u → key_ok k →
  ∃ r c', split_at k l (ptr_of u) (ref_of K) c = Ok r c' ∧ aside c' = aside c ∧
    ((r = EEXIST ∧ k ∈ keys u ∧ ∃ pl', core c' (fill K u) pn pl' xn xl) ∨
     (r = ENOMEM ∧ refuses ∧ ∃ pl', core c' (fill K u) pn pl' xn xl) ∨
     (r = 0 ∧ tpath u ≠ k ∧ ∃ m pn', core c' (fill K (graft m l k v u)) pn' pl xn xl)).
Proof using EL.
  intros Hc Hl Hwf Hf Hin Hoff Hk. pose proof (core_rep _ _ _ _ _ _ Hc) as [Hru _]%rep_fill. unfold split_at.
  rewrite (bind_Ok _ _ _ _ _ (path_of_Ok c u Hru Hf)). destruct (Z.eqb_spec (Z.lxor (tpath u) k) 0) as [Hx|Hx].
  - apply Z.lxor_eq in Hx. destruct u as [|a x w|a p s cs]; [by destruct Hf| |by destruct (off_path_ne _ _ _ _ _ Hoff)].
    cbn [ptr_of is_leaf]. destruct (free_leaf_core _ _ _ _ _ _ _ Hc) as (c'&Hrun&Hc'&Ha). rewrite (bind_Ok _ _ _ _ _ (eq_refl : assert_ true _ c = Ok tt c)).
    rewrite (bind_Ok _ _ _ _ _ Hrun). exists EEXIST, c'. split_and!; [done..|]. left. split_and!; [done| |by eexists].
    apply list_elem_of_singleton. by rewrite <-Hx.
  - assert (Hne : tpath u ≠ k) by (intros Hne; apply Hx; rewrite Hne; apply Z.lxor_nilpotent).
    change (Z.land (util_mssb_index64 (Z.lxor (tpath u) k)) (255 - (SLICE - 1))) with (split_shift (tpath u) k).
    destruct (alloc_node_core _ _ _ _ _ _ Hc) as [[Hrun Hm]|(m&pn'&c1&Hrun&Hm&Hc1&Hl1&Ha1)]; rewrite (bind_Ok _ _ _ _ _ Hrun).
    + cbn [Z.eqb]. destruct (free_leaf_core _ _ _ _ _ _ _ Hc) as (c'&Hfree&Hc'&Ha). rewrite (bind_Ok _ _ _ _ _ Hfree). exists ENOMEM, c'.
      split_and!; [done..|]. right. left. split_and!; [done|right; by eexists|by eexists].
    + rewrite (proj2 (Z.eqb_neq m 0) Hm). destruct (put_node_core _ _ _ _ _ _ m (CNode (<[slice_index (tpath u) (split_shift (tpath u) k) := ptr_of u]>
        (<[slice_index k (split_shift (tpath u) k) := PLeaf l]> (replicate SLNODES PNull))) (Z.land k (path_mask (split_shift (tpath u) k))) (split_shift (tpath u) k)) Hc1)
        as (c2&Hput&Hc2&Hn2&Hl2&Ha2); [by cbn; rewrite !length_insert|]. rewrite (bind_Ok _ _ _ _ _ Hput).
      destruct (graft_wf K u m l k v Hwf Hf Hin Hoff Hk Hne) as [_ Hij]. pose proof (core_rep _ _ _ _ _ _ Hc2) as [Hru2 _]%rep_fill.
      destruct (store_core K u (graft m l k v u) c2 pn' pl (m :: xn) (l :: xl) xn xl Hc2) as (c'&Hst&Hc'&_&Ha').
      * apply graft_rep; [done|by rewrite Hl2, Hl1|]. cbn zeta. by rewrite Hn2, lookup_insert_eq.
      * unfold graft, pair_node. cbn [naddrs]. rewrite pair_node_gather; [|done|done|apply slice_index_lt..]. cbn [naddrs]. solve_Permutation.
      * unfold graft, pair_node. cbn [laddrs]. rewrite pair_node_gather; [|done|done|apply slice_index_lt..]. cbn [laddrs]. solve_Permutation.
      * change (PNode m) with (ptr_of (graft m l k v u)). rewrite (bind_Ok _ _ _ _ _ Hst). exists 0, c'. split; [done|].
        split; [by rewrite Ha', Ha2, Ha1|]. right. right. split_and!; [done..|by eexists _, _].
Qed.
Lemma elems_graft K u m l k v : slice_index (tpath u) (split_shift (tpath u) k) ≠ slice_index k (split_shift (tpath u) k) →
  elems (fill K (graft m l k v u)) ≡ₚ (k, v) :: elems (fill K u).
Proof.
  intros Hij. rewrite !elems_fill. unfold graft, pair_node. cbn [elems]. rewrite pair_node_gather; [|done|done|apply slice_index_lt..].
  cbn [elems]. solve_Permutation.
Qed.
(** A key that its place does not hold is not in the tree. *)
Lemma absent K u k : wf (fill K u) → inside K k → k ∉ keys u → contents (fill K u) !! k = None.
Proof. intros Hwf Hin Hk. apply contents_None. intros H. apply Hk. apply (guided_key K u k Hwf); [by eapply inside_guided|done]. Qed.
Lemma off_path_absent u k : wf u → full u → off_path k u → tpath u ≠ k → k ∉ keys u.
Proof.
  intros Hwf Hf Hoff Hne Hk. destruct u as [|a x w|a p s cs]; [by destruct Hf| |].
  - apply list_elem_of_singleton in Hk. by cbn in *.
  - apply Hoff. by apply (key_top a p s cs).
Qed.
(** A leaf at an empty place. *)
Lemma fill_leaf K l k v : wf (fill K Emp) → inside K k → key_ok k →
  wf (fill K (L l k v)) ∧ contents (fill K Emp) !! k = None ∧ contents (fill K (L l k v)) = <[k := v]> (contents (fill K Emp)).
Proof.
  intros Hwf Hin Hk. assert (Hwf' : wf (fill K (L l k v))).
  { apply (wf_fill K Emp); [done..|by destruct K|]. by apply Forall_singleton. }
  split_and!; [done|apply absent; [done..|by intros ?%elem_of_nil]|]. apply contents_new; [done|]. rewrite !elems_fill. done.
Qed.
Lemma store_leaf K c k v l pn pl xn xl : core c (fill K Emp) pn pl xn (l :: xl) → leaves c !! l = Some (CLeaf k v) →
  ∃ c', store (ref_of K) (PLeaf l) c = Ok tt c' ∧ core c' (fill K (L l k v)) pn pl xn xl ∧ aside c' = aside c.
Proof.
  intros Hc Hl. destruct (store_core K Emp (L l k v) c pn pl xn (l :: xl) xn xl Hc) as (c'&Hst&Hc'&_&Ha'); [done..|]. by exists c'.
Qed.
Definition inserted (k v : Z) (t : ct) (r : Z) (t' : ct) : Prop :=
  (r = 0 ∧ contents t !! k = None ∧ contents t' = <[k := v]> (contents t)) ∨
  (r = EEXIST ∧ is_Some (contents t !! k) ∧ t' = t) ∨ (r = ENOMEM ∧ refuses ∧ t' = t).
(** Below the root: the rest of [critnib_insert]. *)
Lemma insert_below c t k v l fuel pn pl xn xl : core c t pn pl xn (l :: xl) → leaves c !! l = Some (CLeaf k v) →
  wf t → full t → key_ok k → (16 ≤ fuel)%nat →
  ∃ r c' t' pn' pl',
    (let! d := descend fuel k (ptr_of t) RootRef (ptr_of t) in
     match d.1.1 with
     | PNull =>
         match d.2 with
         | PNode a => let! nd := deref_node a in store (ChildRef a (slice_index k (shift nd))) (PLeaf l) ;; ret 0
         | _ => stop (UndefinedBehaviour "prev->child")
         end
     | n => split_at k l n d.1.2
     end) c = Ok r c' ∧ aside c' = aside c ∧ wf t' ∧ inserted k v t r t' ∧ core c' t' pn' pl' xn xl.
Proof using EL.
  intros Hc Hl Hwf Hf Hk Hfuel. pose proof (core_rep _ _ _ _ _ _ Hc) as Hrep.
  destruct (descend_Ok c k (ptr_of t) fuel t []) as (K&u&Hrun&HK&Hin&Hoff&Hnil); [by apply wf_deep|done|done|constructor|done|].
  rewrite app_nil_r in *. cbn [ref_of prev_of fill] in *. rewrite (bind_Ok _ _ _ _ _ Hrun). cbn [fst snd]. subst t.
  destruct (decide (full u)) as [Hfu|Hfu].
  - destruct (split_at_Ok c K u k l v pn pl xn xl) as (r&c'&Hsp&Ha&Hr); [done..|].
    assert (Hrun' : ∀ x : M critnib Z, match ptr_of u with PNull => x | n => split_at k l n (ref_of K) end c = Ok r c') by (by destruct u; [destruct Hfu|..]).
    exists r, c'. destruct Hr as [(->&Hku&pl'&Hc')|[(->&Hrf&pl'&Hc')|(->&Hne&m&pn'&Hc')]].
    + exists (fill K u), pn, pl'. split_and!; [exact (Hrun' _)|done|done| |done]. right. left. split_and!; [done| |done].
      apply elem_of_keys in Hku as [w Hw]. exists w. apply contents_lookup; [done|]. rewrite elems_fill. apply elem_of_app. by left.
    + exists (fill K u), pn, pl'. split_and!; [exact (Hrun' _)|done|done| |done]. right. right. done.
    + destruct (graft_wf K u m l k v) as [Hg Hij]; [done..|]. exists (fill K (graft m l k v u)), pn', pl. split_and!; [exact (Hrun' _)|done|done| |done].
      left. split_and!; [done| |by apply contents_new, elems_graft]. apply absent; [done..|]. destruct (wf_fill_hole K u Hwf) as (Hu&_). by apply off_path_absent.
  - assert (u = Emp) as -> by (destruct u; [done|by destruct Hfu..]). cbn [ptr_of]. destruct K as [|f K]; [by rewrite <-Hnil in Hf|].
    cbn [prev_of]. pose proof Hrep as [_ HKr]%rep_fill. cbn [rep_ctx] in HKr. destruct HKr as (Hfa&_). rewrite (bind_Ok _ _ _ _ _ (deref_node_Ok _ _ _ Hfa)).
    cbn [shift]. pose proof (inside_guided _ _ _ Hwf Hin) as [Hsl _]%Forall_cons. rewrite Hsl. change (ChildRef (fa f) (length (fl f))) with (ref_of (f :: K)).
    destruct (store_leaf (f :: K) c k v l pn pl xn xl Hc Hl) as (c'&Hst&Hc'&Ha). rewrite (bind_Ok _ _ _ _ _ Hst).
    destruct (fill_leaf (f :: K) l k v Hwf Hin Hk) as (H1&H2&H3). exists 0, c', (fill (f :: K) (L l k v)), pn, pl. split_and!; [done..| |done]. by left.
Qed.
Lemma critnib_insert_Ok c t k v fuel : critnib_at c t → key_ok k → (16 ≤ fuel)%nat →
  ∃ r c' t', critnib_insert fuel k v c = Ok r c' ∧ critnib_at c' t' ∧ remove_count c' = remove_count c ∧ inserted k v t r t'.
Proof using EL.
  intros Hat Hk Hfuel. pose proof Hat as [(pn&pl&Hc) Hwf _ _]. unfold critnib_insert.
  destruct (alloc_leaf_core _ _ _ _ _ _ Hc) as [[Hrun Hm]|(l&pl1&c1&Hrun&Hl&Hc1&Ha1)]; rewrite (bind_Ok _ _ _ _ _ Hrun).
  { exists ENOMEM, c, t. split_and!; [done..|]. right. right. split_and!; [done| |done]. left. by eexists. }
  rewrite (proj2 (Z.eqb_neq l 0) Hl). destruct (put_leaf_core _ _ _ _ _ _ l (CLeaf k v) Hc1) as (c2&Hput&Hc2&Hl2&_&Ha2). rewrite (bind_Ok _ _ _ _ _ Hput).
  rewrite (bind_Ok _ _ _ _ _ (eq_refl : gets root c2 = Ok (root c2) c2)), (core_root _ _ _ _ _ _ Hc2).
  assert (Hleaf : leaves c2 !! l = Some (CLeaf k v)) by (by rewrite Hl2, lookup_insert_eq).
  destruct (decide (full t)) as [Hf|Hf].
  - destruct (insert_below c2 t k v l fuel pn pl1 _ _ Hc2 Hleaf Hwf Hf Hk Hfuel) as (r&c'&t'&pn'&pl'&Hrun'&Ha'&Hwf'&Hins&Hc').
    exists r, c', t'. split_and!; [by destruct t; [destruct Hf|..]| | |done].
    + eapply (at_aside c); [done| |done|done]. by rewrite Ha', Ha2, Ha1.
    + assert (Ha : aside c' = aside c) by (by rewrite Ha', Ha2, Ha1). by injection Ha.
  - assert (t = Emp) as -> by (destruct t; [done|by destruct Hf..]). cbn [ptr_of].
    destruct (store_leaf [] c2 k v l _ _ _ _ Hc2 Hleaf) as (c'&Hst&Hc'&Ha'). cbn [ref_of store] in Hst. rewrite (bind_Ok _ _ _ _ _ Hst).
    destruct (fill_leaf [] l k v Hwf) as (H1&H2&H3); [constructor|done|]. assert (Ha : aside c' = aside c) by (by rewrite Ha', Ha2, Ha1).
    exists 0, c', (L l k v). split_and!; [done|by eapply (at_aside c)|by injection Ha|]. by left.
Qed.

(** ** Removing *)

Lemma waiting_slot l (i : nat) a : l !! i = Some a → waiting l ≡ₚ waiting [a] ++ waiting (<[i := 0]> l).
Proof.
  intros Hi. rewrite <-(take_drop_middle l i a Hi) at 1. rewrite insert_take_drop by (by apply lookup_lt_Some in Hi).
  unfold waiting. rewrite !filter_app, !filter_cons. rewrite (decide_False (P := 0 ≠ 0)) by (by intros H; apply H). case_decide; cbn; solve_Permutation.
Qed.
Lemma waiting_put l (i : nat) a : l !! i = Some 0 → a ≠ 0 → waiting (<[i := a]> l) ≡ₚ a :: waiting l.
Proof.
  intros Hi Ha. rewrite (waiting_slot (<[i := a]> l) i a) by (apply list_lookup_insert_eq; by apply lookup_lt_Some in Hi).
  rewrite list_insert_insert_eq, (list_insert_id l i 0) by done. unfold waiting at 1. rewrite filter_cons_True by done. done.
Qed.
Lemma free_node_any c t pn pl xn xl a : core c t pn pl (waiting [a] ++ xn) xl →
  ∃ pn' c', free_node a c = Ok tt c' ∧ core c' t pn' pl xn xl ∧ aside c' = aside c.
Proof.
  intros Hc. unfold waiting in Hc. rewrite filter_cons in Hc. case_decide as Ha.
  - destruct (free_node_core _ _ _ _ _ _ _ Hc) as (c'&?&?&?). by exists (a :: pn), c'.
  - subst a. by exists pn, c.
Qed.
Lemma free_leaf_any c t pn pl xn xl a : core c t pn pl xn (waiting [a] ++ xl) →
  ∃ pl' c', free_leaf a c = Ok tt c' ∧ core c' t pn pl' xn xl ∧ aside c' = aside c.
Proof.
  intros Hc. unfold waiting in Hc. rewrite filter_cons in Hc. case_decide as Ha.
  - destruct (free_leaf_core _ _ _ _ _ _ _ Hc) as (c'&?&?&?). by exists (a :: pl), c'.
  - subst a. by exists pl, c.
Qed.
Lemma next_del_Ok c t : critnib_at c t → ∃ del c', next_del c = Ok del c' ∧ critnib_at c' t ∧
  remove_count c' = u64 (remove_count c + 1) ∧ pending_del_nodes c' !! del = Some 0 ∧ pending_del_leaves c' !! del = Some 0.
Proof.
  intros [(pn&pl&Hc) Hwf H1 H2]. remember (Z.to_nat (remove_count c `mod` DELETED_LIFE)) as del eqn:Edel.
  assert (Hdel : (del < 16)%nat) by (subst del; pose proof (Z.mod_pos_bound (remove_count c) DELETED_LIFE); unfold DELETED_LIFE in *; lia).
  destruct (lookup_lt_is_Some_2 (pending_del_nodes c) del) as [a Ha]; [lia|]. destruct (lookup_lt_is_Some_2 (pending_del_leaves c) del) as [b Hb]; [lia|].
  apply (core_aside c (set_count (u64 (remove_count c + 1)) c)) in Hc; [|done..].
  eapply core_perm in Hc; [|by apply waiting_slot|by apply waiting_slot].
  destruct (free_node_any _ _ _ _ _ _ _ Hc) as (pn'&c1&Hrun1&Hc1&Ha1). destruct (free_leaf_any _ _ _ _ _ _ _ Hc1) as (pl'&c2&Hrun2&Hc2&Ha2).
  assert (Ha' : aside c2 = (pending_del_nodes c, pending_del_leaves c, u64 (remove_count c + 1))) by (by rewrite Ha2, Ha1). injection Ha' as E1 E2 E3.
  exists del, (set_pending (<[del := 0]> (pending_del_nodes c)) (<[del := 0]> (pending_del_leaves c)) c2). split.
  { unfold next_del. rewrite (bind_Ok _ _ _ _ _ (eq_refl : gets remove_count c = _)), (bind_Ok _ _ _ _ _ (eq_refl : modify _ c = Ok tt (set_count (u64 (remove_count c + 1)) c))).
    rewrite <-Edel. unfold bind at 1, gets at 1. cbn [pending_del_nodes set_count]. rewrite Ha. cbn [from_option id].
    unfold bind at 1, gets at 1. cbn [pending_del_leaves set_count]. rewrite Hb. cbn [from_option id]. rewrite (bind_Ok _ _ _ _ _ Hrun1), (bind_Ok _ _ _ _ _ Hrun2).
    unfold put_pending_node, put_pending_leaf, bind, modify, ret. cbn. by rewrite E1, E2. }
  split_and!; [|by cbn|by cbn; apply list_lookup_insert_eq; lia|by cbn; apply list_lookup_insert_eq; lia].
  split; [|done|by cbn; rewrite length_insert|by cbn; rewrite length_insert]. exists pn', pl'. cbn. by eapply core_aside; [..|exact Hc2].
Qed.
Lemma del_leaf_Ok c a k v del : leaves c !! a = Some (CLeaf k v) →
  del_leaf del a c = Ok v (set_pending (pending_del_nodes c) (<[del := a]> (pending_del_leaves c)) c).
Proof. intros Ha. unfold del_leaf. by rewrite (bind_Ok _ _ _ _ _ (deref_leaf_Ok _ _ _ Ha)). Qed.
(** The removed leaf, and the node that goes with it, wait. *)
Lemma at_pending c c' t t' pn pl del (b : option Z) a : critnib_at c t → wf t' →
  pending_del_nodes c !! del = Some 0 → pending_del_leaves c !! del = Some 0 → aside c' = aside c → a ≠ 0 → b ≠ Some 0 →
  core c' t' pn pl (option_list b ++ waiting (pending_del_nodes c)) (a :: waiting (pending_del_leaves c)) →
  critnib_at (set_pending (match b with Some n => <[del := n]> (pending_del_nodes c') | None => pending_del_nodes c' end) (<[del := a]> (pending_del_leaves c')) c') t'.
Proof.
  intros [_ _ H1 H2] Hwf Hn Hl Ha Hza Hzb Hc. injection Ha as E1 E2 E3. rewrite E1, E2.
  split; [|done|cbn; destruct b; by rewrite ?length_insert|cbn; by rewrite length_insert]. exists pn, pl. cbn.
  eapply core_perm; [| |eapply core_aside; [..|exact Hc]; done].
  - destruct b as [n|]; [|done]. cbn. rewrite waiting_put; [done..|congruence].
  - by rewrite waiting_put.
Qed.
Lemma leaf_owned c K a k v pn pl xn xl : core c (fill K (L a k v)) pn pl xn xl → leaves c !! a = Some (CLeaf k v) ∧ a ≠ 0.
Proof.
  intros []. apply rep_fill in core_rep as [Ha _]. split; [done|]. eapply covers_nonzero; [done|]. rewrite laddrs_fill, !elem_of_app. do 2 left. apply list_elem_of_here.
Qed.
Lemma contents_leaf K a k v : wf (fill K (L a k v)) → contents (fill K (L a k v)) !! k = Some v.
Proof. intros Hwf. apply contents_lookup; [done|]. rewrite elems_fill. apply elem_of_app. left. apply list_elem_of_here. Qed.
(** The leaf [a] in the node [f]: the slot is emptied, and a node with one child
    left is replaced by it. *)
Lemma unlink_Ok c t f K a k v del : critnib_at c t → t = fill (f :: K) (L a k v) → guided k (f :: K) →
  pending_del_nodes c !! del = Some 0 → pending_del_leaves c !! del = Some 0 →
  ∃ c' t', (let! nd := deref_node (fa f) in
    store (ChildRef (fa f) (slice_index k (shift nd))) PNull ;;
    let! nd' := deref_node (fa f) in
    match only_child nd' with
    | None => del_leaf del a
    | Some [] => stop (AssertFailed "ochild != -1")
    | Some (q :: _) => store (ref_of K) q ;; put_pending_node del (fa f) ;; del_leaf del a
    end) c = Ok v c' ∧ critnib_at c' t' ∧ contents t' = delete k (contents t) ∧ remove_count c' = remove_count c.
Proof.
  intros Hat Et Hg Hpn Hpl. pose proof Hat as [(pn&pl&Hc) Hwf _ _]. subst t. apply Forall_cons in Hg as [Hsl _].
  destruct (leaf_owned _ _ _ _ _ _ _ _ _ Hc) as [Ha Hza]. pose proof (core_rep _ _ _ _ _ _ Hc) as [_ (Hfa&_)]%rep_fill.
  rewrite (bind_Ok _ _ _ _ _ (deref_node_Ok _ _ _ Hfa)). cbn [shift]. rewrite Hsl. change (ChildRef (fa f) (length (fl f))) with (ref_of (f :: K)).
  destruct (store_core (f :: K) (L a k v) Emp c pn pl _ _ (waiting (pending_del_nodes c)) (a :: waiting (pending_del_leaves c)) Hc)
    as (c1&Hst&Hc1&Hl1&Ha1); [done..|]. rewrite (bind_Ok _ _ _ _ _ Hst).
  pose proof (core_rep _ _ _ _ _ _ Hc1) as [_ (Hfa1&_)]%rep_fill. rewrite (bind_Ok _ _ _ _ _ (deref_node_Ok _ _ _ Hfa1)).
  unfold only_child. cbn [child]. change ((ptr_of <$> fl f) ++ ptr_of Emp :: (ptr_of <$> fr f)) with ((ptr_of <$> fl f) ++ (ptr_of <$> Emp :: fr f)).
  rewrite <-fmap_app, ptr_full. cbn [fill] in Hwf. destruct (wf_fill_hole K _ Hwf) as (H1&_). pose proof (not_alone f _ H1) as Hna.
  assert (Hel : elems (fill (f :: K) (L a k v)) ≡ₚ (k, v) :: elems (fill (f :: K) Emp)) by (rewrite !elems_fill; done).
  assert (Haside : remove_count c1 = remove_count c) by (by injection Ha1). rewrite <-Hl1 in Ha.
  destruct (filter full (fl f ++ Emp :: fr f)) as [|q [|q' l]] eqn:Hfilter; cbn [fmap list_fmap]; [done| |].
  - destruct (wf_only f K _ q Hwf Hfilter) as [Hfq Hwq].
    destruct (store_core K (fill1 f Emp) q c1 pn pl _ _ (fa f :: waiting (pending_del_nodes c)) (a :: waiting (pending_del_leaves c)) Hc1) as (c2&Hst2&Hc2&Hl2&Ha2).
    { pose proof (core_rep _ _ _ _ _ _ Hc1) as [Hr _]%(rep_fill c1 K (fill1 f Emp)). apply rep_node in Hr as [_ Hr]. rewrite Forall_forall in Hr. apply Hr.
      assert (Hin : q ∈ filter full (fl f ++ Emp :: fr f)) by (rewrite Hfilter; apply list_elem_of_here). by apply list_elem_of_filter in Hin as [_ ?]. }
    { unfold fill1. cbn [naddrs]. rewrite concat_fill, (gather_only naddrs f q) by done. cbn [naddrs]. solve_Permutation. }
    { unfold fill1. cbn [laddrs]. rewrite concat_fill, (gather_only laddrs f q) by done. done. }
    rewrite (bind_Ok _ _ _ _ _ Hst2). unfold put_pending_node. rewrite (bind_Ok _ _ _ _ _ (eq_refl : modify _ c2 = Ok tt _)).
    rewrite <-Hl2 in Ha. rewrite (del_leaf_Ok _ a k v) by done.
    assert (Hzf : fa f ≠ 0). { eapply covers_nonzero; [apply (core_nodes _ _ _ _ _ _ Hc1)|]. rewrite naddrs_fill. cbn. apply list_elem_of_here. }
    eexists _, (fill K q). split_and!; [done|eapply (at_pending c c2 _ _ _ _ del (Some (fa f))); [done..|by rewrite Ha2|done|congruence|exact Hc2]| |].
    + apply (contents_less (fill (f :: K) (L a k v)) _ k v); [done|]. rewrite Hel, !elems_fill. unfold around at 1. cbn [fmap list_fmap concat].
      rewrite (gather_only elems f q) by done. done.
    + injection Ha2 as _ _ E3. cbn. by rewrite E3.
  - rewrite (del_leaf_Ok _ a k v) by done. eexists _, (fill (f :: K) Emp).
    assert (Hwe : wf (fill (f :: K) Emp)) by (apply (wf_less f K (L a k v)); [done|rewrite Hfilter; cbn; lia]).
    split_and!; [done|by apply (at_pending c c1 _ (fill (f :: K) Emp) pn pl del None a Hat)|by apply (contents_less (fill (f :: K) (L a k v)) _ k v)|done].
Qed.
Lemma critnib_remove_Ok c t k fuel : critnib_at c t → (16 ≤ fuel)%nat →
  ∃ c' t', critnib_remove fuel k c = Ok (default 0 (contents t !! k)) c' ∧ critnib_at c' t' ∧ contents t' = delete k (contents t) ∧
    (remove_count c' = remove_count c ∨ remove_count c' = u64 (remove_count c + 1)).
Proof.
  intros Hat Hfuel. unfold critnib_remove. pose proof Hat as [(pn0&pl0&Hc0) Hwf _ _].
  rewrite (bind_Ok _ _ _ _ _ (eq_refl : gets root c = Ok (root c) c)), (core_root _ _ _ _ _ _ Hc0).
  destruct (next_del_Ok c t Hat) as (del&c1&Hnd&Hat1&Hcnt&Hsn&Hsl). pose proof Hat1 as [(pn&pl&Hc) _ _ _].
  assert (Hmiss : contents t !! k = None → ∃ c' t', Ok 0 c1 = Ok (default 0 (contents t !! k)) c' ∧ critnib_at c' t' ∧
    contents t' = delete k (contents t) ∧ (remove_count c' = remove_count c ∨ remove_count c' = u64 (remove_count c + 1))).
  { intros Hk. exists c1, t. rewrite Hk. split_and!; [done..| |by right]. by rewrite delete_id. }
  destruct t as [|a x v|a p s cs].
  - exists c, Emp. split_and!; [done..|]. by left.
  - cbn [ptr_of]. destruct (leaf_owned _ [] _ _ _ _ _ _ _ Hc) as [Ha Hza]. rewrite (bind_Ok _ _ _ _ _ Hnd), (bind_Ok _ _ _ _ _ (deref_leaf_Ok _ _ _ Ha)). cbn [key].
    destruct (Z.eqb_spec x k) as [->|Hne].
    + destruct (store_core [] (L a k v) Emp c1 pn pl _ _ (waiting (pending_del_nodes c1)) (a :: waiting (pending_del_leaves c1)) Hc) as (c2&Hst&Hc2&Hl2&Ha2); [done..|].
      cbn [ref_of store ptr_of] in Hst. rewrite (bind_Ok _ _ _ _ _ Hst). rewrite <-Hl2 in Ha. rewrite (del_leaf_Ok _ a k v) by done.
      eexists _, Emp. split_and!; [by rewrite (contents_leaf [] a k v Hwf : contents (L a k v) !! k = Some v)|by apply (at_pending c1 c2 _ Emp pn pl del None a Hat1)| |right; injection Ha2 as _ _ E3; cbn; congruence].
      by apply (contents_less (L a k v) Emp k v).
    + apply Hmiss. apply contents_None. intros H%list_elem_of_singleton. by cbn in H.
  - cbn [ptr_of]. rewrite (bind_Ok _ _ _ _ _ Hnd). unfold remove_below. pose proof (core_rep _ _ _ _ _ _ Hc) as Hrep.
    destruct (descend_to_Ok c1 k (PNode a) RootRef fuel (N a p s cs) []) as (K&u&Hrun&HK&Hg&Hd&Hnil); [by apply wf_deep|done..|constructor|].
    rewrite app_nil_r in *. cbn [ref_of prev_of above_of ptr_of fill] in Hrun, HK. rewrite (bind_Ok _ _ _ _ _ Hrun).
    pose proof (found_key c1 _ k K u Hwf Hrep HK Hg Hd) as Hu. destruct u as [|b x v|b p' s' cs']; [destruct Hu as [_ Hu]; by apply Hmiss| |by destruct Hu].
    destruct Hu as [Hb Hu]. cbn [ptr_of]. destruct K as [|f K]; [by discriminate Hnil|]. cbn [prev_of above_of]. rewrite (bind_Ok _ _ _ _ _ (deref_leaf_Ok _ _ _ Hb)). cbn [key].
    destruct (Z.eqb_spec x k) as [->|Hne]; cbn [negb]; [|by apply Hmiss].
    destruct (unlink_Ok c1 _ f K b k v del Hat1 (eq_sym HK) Hg Hsn Hsl) as (c'&t'&Hun&Hat'&Hct&Hcnt'). exists c', t'. rewrite Hu.
    split_and!; [exact Hun|done..|]. right. by rewrite Hcnt'.
Qed.

(** ** Sequences of operations *)

Inductive nib_op := OInsert (k v : Z) | ORemove (k : Z) | OGet (k : Z) | OFindLe (k : Z).
Definition op_ok (o : nib_op) : Prop :=
  match o with OInsert k v => key_ok k ∧ v ≠ 0 | ORemove k | OGet k | OFindLe k => key_ok k end.
Definition run_op (turns fuel : nat) (o : nib_op) : M critnib Z :=
  match o with
  | OInsert k v => critnib_insert fuel k v
  | ORemove k => critnib_remove fuel k
  | OGet k => critnib_get turns fuel k
  | OFindLe k => critnib_find_le turns fuel k
  end.
Fixpoint run_ops (turns fuel : nat) (l : list nib_op) : M critnib (list Z) :=
  match l with
  | [] => ret []
  | o :: l' => let! r := run_op turns fuel o in let! rs := run_ops turns fuel l' in ret (r :: rs)
  end.
(** What a finite map of the values answers, and the map after it; [ENOMEM] only
    where [Malloc] fails. *)
Definition map_floor (k : Z) (m : gmap Z Z) (r : Z) : Prop :=
  (r = 0 ∧ ∀ y w, m !! y = Some w → k < y) ∨ ∃ x, m !! x = Some r ∧ x ≤ k ∧ ∀ y w, m !! y = Some w → y ≤ k → y ≤ x.
Definition map_answer (o : nib_op) (m : gmap Z Z) (r : Z) (m' : gmap Z Z) : Prop :=
  match o with
  | OInsert k v =>
      (r = 0 ∧ m !! k = None ∧ m' = <[k := v]> m) ∨ (r = EEXIST ∧ is_Some (m !! k) ∧ m' = m) ∨ (r = ENOMEM ∧ refuses ∧ m' = m)
  | ORemove k => r = default 0 (m !! k) ∧ m' = delete k m
  | OGet k => r = default 0 (m !! k) ∧ m' = m
  | OFindLe k => map_floor k m r ∧ m' = m
  end.
Inductive map_answers : list nib_op → gmap Z Z → list Z → gmap Z Z → Prop :=
  | answers_nil m : map_answers [] m [] m
  | answers_cons o l m r m1 rs m2 : map_answer o m r m1 → map_answers l m1 rs m2 → map_answers (o :: l) m (r :: rs) m2.

(** The map that a [critnib] stands for. *)
Definition is_map (c : critnib) (m : gmap Z Z) : Prop := ∃ t, critnib_at c t ∧ contents t = m ∧ map_Forall (λ _ v, v ≠ 0) m.
Lemma run_op_Ok c m o turns fuel : is_map c m → op_ok o → (1 ≤ turns)%nat → (16 ≤ fuel)%nat → 0 ≤ remove_count c < U64 - DELETED_LIFE →
  ∃ r c' m', run_op turns fuel o c = Ok r c' ∧ map_answer o m r m' ∧ is_map c' m' ∧ remove_count c ≤ remove_count c' ≤ remove_count c + 1.
Proof using EL.
  intros (t&Hat&<-&Hnz) Ho Hturns Hfuel Hcnt.
  assert (Hta : tree_at c t) by (destruct Hat as [(pn&pl&Hc) Hwf _ _]; by destruct Hc).
  destruct o as [k v|k|k|k]; cbn [run_op map_answer].
  - destruct Ho as [Hk Hv]. destruct (critnib_insert_Ok c t k v fuel Hat Hk Hfuel) as (r&c'&t'&Hrun&Hat'&Hc&Hins). exists r, c', (contents t').
    split_and!; [done| | |lia..].
    + destruct Hins as [(?&?&?)|[(?&?&->)|(?&?&->)]]; tauto.
    + exists t'. split_and!; [done..|]. destruct Hins as [(_&_&->)|[(_&_&->)|(_&_&->)]]; [by apply map_Forall_insert_2|done..].
  - destruct (critnib_remove_Ok c t k fuel Hat Hfuel) as (c'&t'&Hrun&Hat'&Hct&Hc). exists (default 0 (contents t !! k)), c', (contents t').
    split_and!; [done..| | |].
    + exists t'. split_and!; [done..|]. rewrite Hct. by apply map_Forall_delete.
    + unfold u64 in Hc. rewrite Z.mod_small in Hc by (unfold DELETED_LIFE in *; lia). lia.
    + unfold u64 in Hc. rewrite Z.mod_small in Hc by (unfold DELETED_LIFE in *; lia). lia.
  - exists (default 0 (contents t !! k)), c, (contents t). split_and!; [|done|done|by exists t|lia..].
    apply stable_Ok; [by apply get_once_Ok|done..].
  - destruct Hta as (Hrep&Hroot&Hwf). destruct (find_le_Ok c k fuel t) as (v&Hrun&Hfl); [done|done|by apply wf_deep|done| |].
    { intros x v Hx%contents_lookup; [|done]. by apply (Hnz x v). }
    exists v, c, (contents t). split_and!; [apply stable_Ok; [|done..]; unfold find_le_once, bind, gets; by rewrite Hroot| |done|by exists t|lia..].
    destruct Hfl as [[-> Hfl]|(x&Hx&Hle&Hfl)]; [left; split; [done|]; intros y w Hy%contents_lookup; eauto|].
    right. exists x. split_and!; [by apply contents_lookup|done|]. intros y w Hy%contents_lookup; eauto.
Qed.
Lemma run_ops_Ok l c m turns fuel : is_map c m → Forall op_ok l → (1 ≤ turns)%nat → (16 ≤ fuel)%nat →
  0 ≤ remove_count c → remove_count c + Z.of_nat (length l) ≤ U64 - DELETED_LIFE →
  ∃ rs c' m', run_ops turns fuel l c = Ok rs c' ∧ map_answers l m rs m' ∧ is_map c' m'.
Proof using EL.
  revert c m. induction l as [|o l IH]; intros c m Hm Hl Hturns Hfuel H0 Hcnt; [exists [], c, m; split_and!; [done|constructor|done]|].
  apply Forall_cons in Hl as [Ho Hl]. cbn [length] in Hcnt.
  destruct (run_op_Ok c m o turns fuel Hm Ho Hturns Hfuel) as (r&c1&m1&Hrun&Hans&Hm1&Hc1); [lia|].
  destruct (IH c1 m1 Hm1 Hl Hturns Hfuel) as (rs&c2&m2&Hruns&Hanss&Hm2); [lia..|]. exists (r :: rs), c2, m2. cbn [run_ops].
  rewrite (bind_Ok _ _ _ _ _ Hrun), (bind_Ok _ _ _ _ _ Hruns). split_and!; [done|by econstructor|done].
Qed.
Lemma new_is_map c : critnib_new true = Some c → is_map c ∅.
Proof.
  intros [= <-]. exists Emp. split_and!; [|done|by apply map_Forall_empty]. split; [|done..]. exists [], [].
  change (waiting (pending_del_nodes _)) with (@nil Z). change (waiting (pending_del_leaves _)) with (@nil Z).
  assert (Hcov : ∀ B, covers (∅ : gmap Z B) []).
  { intros B. split_and!; [constructor|by intros ?%elem_of_nil|]. intros a. rewrite lookup_empty. split; [by intros []|by intros ?%elem_of_nil]. }
  split; [done..|apply Hcov|apply Hcov|by apply map_Forall_empty].
Qed.
(** C25. A critnib tree refines a finite map from keys to pointers: every sequence of
    [critnib_insert], [critnib_remove], [critnib_get] and [critnib_find_le] on a new
    tree returns, and answers as the map does.  An insertion adds a key that is not
    there, changes nothing with [EEXIST] when it is there, and with [ENOMEM] when
    [Malloc] fails; a removal returns the value; the last search returns the value
    of the greatest key up to its argument.  Sixteen levels are enough, and a
    search does not start again before the counter of removals overflows. *)
Theorem critnib_refines l c turns fuel : critnib_new true = Some c → Forall op_ok l → (1 ≤ turns)%nat → (16 ≤ fuel)%nat →
  Z.of_nat (length l) ≤ U64 - DELETED_LIFE →
  ∃ rs c' m, run_ops turns fuel l c = Ok rs c' ∧ map_answers l ∅ rs m ∧ is_map c' m.
Proof using EL.
  intros Hnew Hl Hturns Hfuel Hlen. apply run_ops_Ok; [by apply new_is_map|done..| |]; injection Hnew as <-; cbn; lia.
Qed.
End map.
