(* ===== verification/CritnibFree.v ===== *)
(** * Deleting a critnib tree

    [critnib_delete] frees the blocks of the tree, of the pools and of the grace
    period: each once, and none is left. *)
From stdpp Require Import base list gmap strings.
From S2P Require Import Prelude Critnib CritnibTree CritnibFacts CritnibSpec CritnibMap.
Open Scope Z_scope.

(** From [c] to [c'] the blocks [ns] and [ls] were freed. *)
Record freed (ns ls : list Z) (c c' : critnib) : Prop := Freed {
  freed_nodes a : nodes c' !! a = if decide (a ∈ ns) then None else nodes c !! a;
  freed_leaves a : leaves c' !! a = if decide (a ∈ ls) then None else leaves c !! a;
  freed_rest : (deleted_node c', deleted_leaf c', aside c') = (deleted_node c, deleted_leaf c, aside c);
}.
Lemma freed_nil c : freed [] [] c c.
Proof. split; [intros a; by rewrite decide_False by apply not_elem_of_nil..|done]. Qed.
Lemma freed_app n1 l1 n2 l2 c c1 c2 : freed n1 l1 c c1 → freed n2 l2 c1 c2 → freed (n1 ++ n2) (l1 ++ l2) c c2.
Proof.
  intros [A1 B1 C1] [A2 B2 C2]. split; [| |by rewrite C2, C1].
  - intros a. rewrite A2, A1. destruct (decide (a ∈ n1 ++ n2)) as [H|H]; rewrite elem_of_app in H.
    + case_decide; [done|]. rewrite decide_True; [done|]. tauto.
    + rewrite !decide_False by tauto. done.
  - intros a. rewrite B2, B1. destruct (decide (a ∈ l1 ++ l2)) as [H|H]; rewrite elem_of_app in H.
    + case_decide; [done|]. rewrite decide_True; [done|]. tauto.
    + rewrite !decide_False by tauto. done.
Qed.
Lemma freed_same ns ls ns' ls' c c' : freed ns ls c c' → (∀ a, a ∈ ns' → a ∉ ns) → (∀ a, a ∈ ls' → a ∉ ls) → same_at ns' ls' c c'.
Proof. intros [A B _] Hn Hl. split; intros a Ha; [rewrite A|rewrite B]; rewrite decide_False by auto; done. Qed.
(** Lists of different blocks, none of them [NULL] *)
Definition blocks (l : list Z) : Prop := NoDup l ∧ 0 ∉ l.
Lemma blocks_app l1 l2 : blocks (l1 ++ l2) → blocks l1 ∧ blocks l2 ∧ ∀ a, a ∈ l2 → a ∉ l1.
Proof.
  intros [(H1&H2&H3)%NoDup_app Hz]. rewrite elem_of_app in Hz. split_and!; [split; [done|tauto]..|]. intros a Ha Ha'. by apply (H2 a).
Qed.
Lemma Free_node_Ok c a n : nodes c !! a = Some n → a ≠ 0 → ∃ c', Free_node a c = Ok tt c' ∧ freed [a] [] c c'.
Proof.
  intros Ha Hz. unfold Free_node. rewrite (proj2 (Z.eqb_neq a 0) Hz). cbn [negb when]. rewrite (bind_Ok _ _ _ _ _ (deref_node_Ok _ _ _ Ha)).
  eexists. split; [done|]. split; [| |done].
  - intros b. cbn. case_decide as Hb; [apply list_elem_of_singleton in Hb as ->; apply lookup_delete_eq|]. apply lookup_delete_ne.
    intros ->. apply Hb, list_elem_of_here.
  - intros b. by rewrite decide_False by apply not_elem_of_nil.
Qed.
Lemma Free_leaf_Ok c a k : leaves c !! a = Some k → a ≠ 0 → ∃ c', Free_leaf a c = Ok tt c' ∧ freed [] [a] c c'.
Proof.
  intros Ha Hz. unfold Free_leaf. rewrite (proj2 (Z.eqb_neq a 0) Hz). cbn [negb when]. rewrite (bind_Ok _ _ _ _ _ (deref_leaf_Ok _ _ _ Ha)).
  eexists. split; [done|]. split; [| |done].
  - intros b. by rewrite decide_False by apply not_elem_of_nil.
  - intros b. cbn. case_decide as Hb; [apply list_elem_of_singleton in Hb as ->; apply lookup_delete_eq|]. apply lookup_delete_ne.
    intros ->. apply Hb, list_elem_of_here.
Qed.

(** ** The tree *)

Definition frees (fuel : nat) (t : ct) : Prop := ∀ c, deep fuel t → wf t → rep c t → full t → blocks (naddrs t) → blocks (laddrs t) →
  ∃ c', delete_node fuel (ptr_of t) c = Ok tt c' ∧ freed (naddrs t) (laddrs t) c c'.
(** The loop over the children of [a], from the ones of [l] on. *)
Lemma delete_children fuel a p s cs0 l c : (∀ t, frees fuel t) → Forall (deep fuel) l → Forall wf l → Forall (rep c) l →
  nodes c !! a = Some (CNode (ptr_of <$> cs0 ++ l) p s) → blocks (a :: concat (naddrs <$> l)) → blocks (concat (laddrs <$> l)) →
  ∃ c', for_each (seq (length cs0) (length l)) (λ i, let! nd := deref_node a in
      when (bool_decide (child_at nd i ≠ PNull)) (delete_node fuel (child_at nd i))) c = Ok tt c' ∧
    freed (concat (naddrs <$> l)) (concat (laddrs <$> l)) c c'.
Proof.
  intros Hfrees. revert cs0 c. induction l as [|t l IH]; intros cs0 c Hd Hwf Hrep Ha Hbn Hbl; [exists c; split; [done|apply freed_nil]|].
  apply Forall_cons in Hd as [Hdt Hd], Hwf as [Hwt Hwf], Hrep as [Hrt Hrep]. cbn [fmap list_fmap concat] in Hbn, Hbl.
  assert (Hb' : blocks ([a] ++ naddrs t ++ concat (naddrs <$> l))) by exact Hbn. apply blocks_app in Hb' as (Hba&Hb'&Hnot).
  apply blocks_app in Hb' as (Hbt&Hbr&Hdis). apply blocks_app in Hbl as (Hlt&Hlr&Hldis).
  assert (Hstep : ∃ c1, (let! nd := deref_node a in when (bool_decide (child_at nd (length cs0) ≠ PNull)) (delete_node fuel (child_at nd (length cs0)))) c = Ok tt c1 ∧
    freed (naddrs t) (laddrs t) c c1).
  { rewrite (bind_Ok _ _ _ _ _ (deref_node_Ok _ _ _ Ha)), (child_at_fmap _ _ _ _ t) by (by apply list_lookup_middle).
    destruct (decide (full t)) as [Hf|Hf]; [|destruct t; [|by destruct Hf..]].
    - rewrite bool_decide_eq_true_2 by (by destruct t; [destruct Hf|..]). cbn [when]. by apply Hfrees.
    - exists c. split; [done|apply freed_nil]. }
  destruct Hstep as (c1&Hrun1&Hf1). assert (Hna : a ∉ naddrs t).
  { intros Hin. apply (Hnot a); [apply elem_of_app; by left|apply list_elem_of_here]. }
  destruct (IH (cs0 ++ [t]) c1) as (c2&Hrun2&Hf2); [done..| | | |done|].
  - apply (rep_list_frame c); [|done]. by eapply freed_same.
  - rewrite <-app_assoc. cbn [app]. rewrite (freed_nodes _ _ _ _ Hf1), decide_False by done. done.
  - destruct Hbn as [Hnd Hz]. cbn in Hnd, Hz. rewrite elem_of_cons, elem_of_app in Hz. apply NoDup_cons in Hnd as [Hn Hnd]. rewrite elem_of_app in Hn.
    apply NoDup_app in Hnd as (_&_&Hnd). split; [apply NoDup_cons; tauto|rewrite elem_of_cons; tauto].
  - exists c2. split; [|cbn [fmap list_fmap concat]; by eapply freed_app]. cbn [length seq for_each]. rewrite (bind_Ok _ _ _ _ _ Hrun1).
    rewrite length_app, Nat.add_1_r in Hrun2. exact Hrun2.
Qed.
Lemma delete_node_Ok fuel t : frees fuel t.
Proof.
  revert t. induction fuel as [|fuel IH]; intros t c Hd Hwf Hrep Hf Hbn Hbl; (destruct t as [|a k v|a p s cs]; [by destruct Hf| |]).
  1,3: cbn [ptr_of delete_node]; eapply Free_leaf_Ok; [exact Hrep|]; intros ->; destruct Hbl as [_ Hz]; apply Hz, list_elem_of_here.
  { by destruct (not_deep _ _ _ _ Hwf). }
  pose proof Hrep as [Ha Hcs]%rep_node. pose proof Hwf as (_&_&Hlen&Hwcs&_)%wf_node.
  assert (Hdc : Forall (deep fuel) cs) by (apply Forall_lookup; intros i t Hi; by destruct (child_deep _ _ _ _ _ _ fuel Hwf Hd Hi)).
  destruct (delete_children fuel a p s [] cs c IH Hdc Hwcs Hcs Ha Hbn Hbl) as (c1&Hrun1&Hf1).
  assert (Ha1 : nodes c1 !! a = Some (CNode (ptr_of <$> cs) p s)).
  { rewrite (freed_nodes _ _ _ _ Hf1), decide_False; [done|]. destruct Hbn as [Hnd _]. by apply NoDup_cons in Hnd as [? _]. }
  destruct (Free_node_Ok c1 a _ Ha1) as (c2&Hrun2&Hf2); [intros ->; destruct Hbn as [_ Hz]; apply Hz, list_elem_of_here|].
  exists c2. split; [|pose proof (freed_app _ _ _ _ _ _ _ Hf1 Hf2) as Hf12]; cbn [ptr_of delete_node].
  - cbn [length] in Hrun1. rewrite Hlen in Hrun1. rewrite (bind_Ok _ _ _ _ _ Hrun1). exact Hrun2.
  - rewrite app_nil_r in Hf12. destruct Hf12 as [A B C]. split; [|exact B|exact C]. intros b. rewrite A. cbn [naddrs].
    assert (Hiff : b ∈ concat (naddrs <$> cs) ++ [a] ↔ b ∈ a :: concat (naddrs <$> cs)) by (rewrite elem_of_app, list_elem_of_singleton, elem_of_cons; tauto).
    destruct (decide (b ∈ a :: concat (naddrs <$> cs))); [rewrite decide_True by tauto|rewrite decide_False by tauto]; done.
Qed.

(** ** The pools and what waits *)

Lemma delete_nodes_Ok pool c d l : nchain c d l → blocks l → (length l ≤ pool)%nat →
  ∃ c', delete_nodes pool d c = Ok tt c' ∧ freed l [] c c'.
Proof.
  revert c d l. induction pool as [|pool IH]; intros c d l Hc Hb Hlen; (destruct l as [|a l]; [cbn in Hc; subst d; exists c; split; [done|apply freed_nil]|]).
  { cbn in Hlen. lia. }
  destruct Hc as (->&n&d'&Hn&Hlink&Hl). assert (Hb' : blocks ([a] ++ l)) by exact Hb. apply blocks_app in Hb' as (Hba&Hbl&Hdis).
  assert (Hz : a ≠ 0) by (intros ->; destruct Hba as [_ Hz]; apply Hz, list_elem_of_here).
  cbn [delete_nodes]. rewrite (proj2 (Z.eqb_neq a 0) Hz), (bind_Ok _ _ _ _ _ (deref_node_Ok _ _ _ Hn)).
  destruct (Free_node_Ok c a n Hn Hz) as (c1&Hrun1&Hf1). rewrite (bind_Ok _ _ _ _ _ Hrun1), Hlink.
  destruct (IH c1 d' l) as (c2&Hrun2&Hf2); [|done|cbn in Hlen; lia|].
  { apply (nchain_frame c); [|done]. intros b Hin. rewrite (freed_nodes _ _ _ _ Hf1), decide_False; [done|]. by apply Hdis. }
  exists c2. split; [|exact (freed_app _ _ _ _ _ _ _ Hf1 Hf2)]. destruct (link_cases d') as [[-> ->]|[-> _]]; [|done].
  destruct l as [|b l]; [|destruct Hl as [<- _]; destruct Hbl as [_ H0]; destruct H0; apply list_elem_of_here]. by destruct pool.
Qed.
Lemma delete_leaves_Ok pool c d l : lchain c d l → blocks l → (length l ≤ pool)%nat →
  ∃ c', delete_leaves pool d c = Ok tt c' ∧ freed [] l c c'.
Proof.
  revert c d l. induction pool as [|pool IH]; intros c d l Hc Hb Hlen; (destruct l as [|a l]; [cbn in Hc; subst d; exists c; split; [done|apply freed_nil]|]).
  { cbn in Hlen. lia. }
  destruct Hc as (->&k&Hk&Hl). assert (Hb' : blocks ([a] ++ l)) by exact Hb. apply blocks_app in Hb' as (Hba&Hbl&Hdis).
  assert (Hz : a ≠ 0) by (intros ->; destruct Hba as [_ Hz]; apply Hz, list_elem_of_here).
  cbn [delete_leaves]. rewrite (proj2 (Z.eqb_neq a 0) Hz), (bind_Ok _ _ _ _ _ (deref_leaf_Ok _ _ _ Hk)).
  destruct (Free_leaf_Ok c a k Hk Hz) as (c1&Hrun1&Hf1). rewrite (bind_Ok _ _ _ _ _ Hrun1).
  destruct (IH c1 (value k) l) as (c2&Hrun2&Hf2); [|done|cbn in Hlen; lia|].
  { apply (lchain_frame c); [|done]. intros b Hin. rewrite (freed_leaves _ _ _ _ Hf1), decide_False; [done|]. by apply Hdis. }
  exists c2. split; [done|exact (freed_app _ _ _ _ _ _ _ Hf1 Hf2)].
Qed.
Lemma waiting_cons a l : waiting (a :: l) = waiting [a] ++ waiting l.
Proof. unfold waiting. rewrite !filter_cons. by case_decide. Qed.
Lemma Free_node_any c a : (∀ b, b ∈ waiting [a] → is_Some (nodes c !! b)) → ∃ c', Free_node a c = Ok tt c' ∧ freed (waiting [a]) [] c c'.
Proof.
  unfold waiting. rewrite filter_cons. case_decide as Ha; intros H; [|subst a; exists c; split; [done|apply freed_nil]].
  destruct (H a (list_elem_of_here _ _)) as [n Hn]. by apply (Free_node_Ok c a n).
Qed.
Lemma Free_leaf_any c a : (∀ b, b ∈ waiting [a] → is_Some (leaves c !! b)) → ∃ c', Free_leaf a c = Ok tt c' ∧ freed [] (waiting [a]) c c'.
Proof.
  unfold waiting. rewrite filter_cons. case_decide as Ha; intros H; [|subst a; exists c; split; [done|apply freed_nil]].
  destruct (H a (list_elem_of_here _ _)) as [n Hn]. by apply (Free_leaf_Ok c a n).
Qed.
Lemma delete_waiting n i c : length (pending_del_nodes c) = (i + n)%nat → length (pending_del_leaves c) = (i + n)%nat →
  blocks (waiting (drop i (pending_del_nodes c))) → blocks (waiting (drop i (pending_del_leaves c))) →
  (∀ a, a ∈ waiting (drop i (pending_del_nodes c)) → is_Some (nodes c !! a)) →
  (∀ a, a ∈ waiting (drop i (pending_del_leaves c)) → is_Some (leaves c !! a)) →
  ∃ c', for_each (seq i n) (λ j, let! n := gets (λ c, default 0 (pending_del_nodes c !! j)) in Free_node n ;;
      let! k := gets (λ c, default 0 (pending_del_leaves c !! j)) in Free_leaf k) c = Ok tt c' ∧
    freed (waiting (drop i (pending_del_nodes c))) (waiting (drop i (pending_del_leaves c))) c c'.
Proof.
  revert i c. induction n as [|n IH]; intros i c Hn Hl Hbn Hbl Hin Hil.
  { exists c. rewrite !drop_ge by lia. split; [done|apply freed_nil]. }
  destruct (lookup_lt_is_Some_2 (pending_del_nodes c) i) as [a Ha]; [lia|]. destruct (lookup_lt_is_Some_2 (pending_del_leaves c) i) as [b Hb]; [lia|].
  rewrite (drop_S _ _ _ Ha), (drop_S _ _ _ Hb), (waiting_cons a), (waiting_cons b) in *.
  apply blocks_app in Hbn as (_&Hbn&Hdn), Hbl as (_&Hbl&Hdl). setoid_rewrite elem_of_app in Hin. setoid_rewrite elem_of_app in Hil.
  destruct (Free_node_any c a) as (c1&Hrun1&Hf1); [auto|]. assert (Hr1 := freed_rest _ _ _ _ Hf1). injection Hr1 as _ _ E1 E2 _.
  destruct (Free_leaf_any c1 b) as (c2&Hrun2&Hf2).
  { intros x Hx. rewrite (freed_leaves _ _ _ _ Hf1), decide_False by apply not_elem_of_nil. auto. }
  assert (Hf12 := freed_app _ _ _ _ _ _ _ Hf1 Hf2). rewrite app_nil_r in Hf12. cbn [app] in Hf12. assert (Hr := freed_rest _ _ _ _ Hf12). injection Hr as _ _ E3 E4 _.
  destruct (IH (S i) c2) as (c3&Hrun3&Hf3); rewrite ?E3, ?E4; [lia|lia|done|done| | |].
  - intros x Hx. rewrite (freed_nodes _ _ _ _ Hf12), decide_False; [auto|]. by apply Hdn.
  - intros x Hx. rewrite (freed_leaves _ _ _ _ Hf12), decide_False; [auto|]. by apply Hdl.
  - exists c3. split; [|rewrite E3, E4 in Hf3; by eapply freed_app]. cbn [seq for_each].
    assert (Hstep : (let! n := gets (λ c, default 0 (pending_del_nodes c !! i)) in Free_node n ;;
      let! k := gets (λ c, default 0 (pending_del_leaves c !! i)) in Free_leaf k) c = Ok tt c2).
    { unfold bind at 1, gets at 1. rewrite Ha. cbn [from_option id]. rewrite (bind_Ok _ _ _ _ _ Hrun1). unfold bind, gets. rewrite E2, Hb. exact Hrun2. }
    by rewrite (bind_Ok _ _ _ _ _ Hstep).
Qed.

(** ** All of it *)

Lemma blocks_size {B} (m : gmap Z B) l : NoDup l → (∀ a, a ∈ l → is_Some (m !! a)) → (length l ≤ size m)%nat.
Proof.
  intros Hnd Hin. rewrite <-size_dom. rewrite <-(size_list_to_set (C := gset Z) l) by done. apply subseteq_size.
  intros a Ha%elem_of_list_to_set. by apply elem_of_dom, Hin.
Qed.
Lemma covers_blocks {B} (m : gmap Z B) l1 l2 l3 : covers m (l1 ++ l2 ++ l3) →
  (blocks l1 ∧ blocks l2 ∧ blocks l3) ∧ ((∀ a, a ∈ l2 → a ∉ l1) ∧ (∀ a, a ∈ l3 → a ∉ l1 ++ l2)) ∧
  (length l2 ≤ size m)%nat ∧ (∀ a, a ∈ l3 → is_Some (m !! a)).
Proof.
  intros (Hnd&Hz&Hin). assert (Hb : blocks ((l1 ++ l2) ++ l3)) by (rewrite <-app_assoc; done). apply blocks_app in Hb as (H12&H3&Hd3).
  apply blocks_app in H12 as (H1&H2&Hd2). split_and!; [done..| |].
  - apply blocks_size; [by destruct H2|]. intros a Ha. apply Hin. rewrite !elem_of_app. tauto.
  - intros a Ha. apply Hin. rewrite !elem_of_app. tauto.
Qed.
Lemma freed_all {B} (m m' : gmap Z B) l : covers m l → (∀ a, m' !! a = if decide (a ∈ l) then None else m !! a) → m' = ∅.
Proof.
  intros (_&_&Hin) H. apply map_eq. intros a. rewrite H, lookup_empty. case_decide as Ha; [done|].
  destruct (m !! a) eqn:E; [|done]. destruct Ha. apply Hin. by eexists.
Qed.
Lemma critnib_delete_Ok c t fuel pool : critnib_at c t → (16 ≤ fuel)%nat → (size (nodes c) ≤ pool)%nat → (size (leaves c) ≤ pool)%nat →
  ∃ c', critnib_delete fuel pool c = Ok tt c' ∧ nodes c' = ∅ ∧ leaves c' = ∅.
Proof.
  intros [(pn&pl&[Hrep Hroot Hpn Hpl Hcn Hcl _]) Hwf Hln Hll] Hfuel Hn Hl.
  destruct (covers_blocks _ _ _ _ Hcn) as ((Bn1&Bn2&Bn3)&(Dn2&Dn3)&Sn&In3). destruct (covers_blocks _ _ _ _ Hcl) as ((Bl1&Bl2&Bl3)&(Dl2&Dl3)&Sl&Il3).
  assert (Htree : ∃ c1, when (bool_decide (root c ≠ PNull)) (delete_node fuel (root c)) c = Ok tt c1 ∧ freed (naddrs t) (laddrs t) c c1).
  { rewrite Hroot. destruct (decide (full t)) as [Hf|Hf].
    - rewrite bool_decide_eq_true_2 by (by destruct t; [destruct Hf|..]). apply delete_node_Ok; [by apply wf_deep|done..].
    - destruct t; [|by destruct Hf..]. exists c. split; [done|apply freed_nil]. }
  destruct Htree as (c1&Hrun1&Hf1). assert (R1 := freed_rest _ _ _ _ Hf1). injection R1 as E1 E2 E3 E4 _.
  destruct (delete_nodes_Ok pool c1 (deleted_node c1) pn) as (c2&Hrun2&Hf2); [rewrite E1|done|lia|].
  { apply (nchain_frame c); [|done]. by apply (freed_same _ _ pn [] _ _ Hf1); [|intros ? ?%elem_of_nil]. }
  assert (Hf12 := freed_app _ _ _ _ _ _ _ Hf1 Hf2). assert (R2 := freed_rest _ _ _ _ Hf12). injection R2 as E5 E6 E7 E8 _. rewrite app_nil_r in Hf12.
  destruct (delete_leaves_Ok pool c2 (deleted_leaf c2) pl) as (c3&Hrun3&Hf3); [rewrite E6|done|lia|].
  { apply (lchain_frame c); [|done]. by apply (freed_same _ _ [] pl _ _ Hf12); [intros ? ?%elem_of_nil|]. }
  assert (Hf13 := freed_app _ _ _ _ _ _ _ Hf12 Hf3). rewrite app_nil_r in Hf13. assert (R3 := freed_rest _ _ _ _ Hf13). injection R3 as _ _ E9 E10 _.
  destruct (freed_same _ _ (waiting (pending_del_nodes c)) (waiting (pending_del_leaves c)) _ _ Hf13 Dn3 Dl3) as [Sn3 Sl3].
  destruct (delete_waiting 16 0 c3) as (c4&Hrun4&Hf4); rewrite ?E9, ?E10, ?drop_0; [done..| | |].
  { intros a Ha. rewrite Sn3 by done. auto. }
  { intros a Ha. rewrite Sl3 by done. auto. }
  rewrite E9, E10, !drop_0 in Hf4. destruct (freed_app _ _ _ _ _ _ _ Hf13 Hf4) as [An Al _]. rewrite <-app_assoc in An, Al. exists c4. split_and!.
  - unfold critnib_delete. rewrite (bind_Ok _ _ _ _ _ (eq_refl : gets root c = _)), (bind_Ok _ _ _ _ _ Hrun1), (bind_Ok _ _ _ _ _ (eq_refl : gets deleted_node c1 = _)).
    rewrite (bind_Ok _ _ _ _ _ Hrun2), (bind_Ok _ _ _ _ _ (eq_refl : gets deleted_leaf c2 = _)), (bind_Ok _ _ _ _ _ Hrun3). exact Hrun4.
  - by apply (freed_all (nodes c) _ (naddrs t ++ pn ++ waiting (pending_del_nodes c))).
  - by apply (freed_all (leaves c) _ (laddrs t ++ pl ++ waiting (pending_del_leaves c))).
Qed.

(** C26. No block is lost or freed twice: after every sequence of operations on a new
    tree, [critnib_delete] returns and leaves no block allocated, those in the pools
    and in the grace period included. *)
Theorem critnib_no_leak {E : NibMalloc} {EL : NibMallocLaws E} l c turns fuel : critnib_new true = Some c → Forall op_ok l → (1 ≤ turns)%nat → (16 ≤ fuel)%nat →
  Z.of_nat (length l) ≤ U64 - DELETED_LIFE →
  ∃ rs c1, run_ops turns fuel l c = Ok rs c1 ∧
    ∀ pool, (size (nodes c1) ≤ pool)%nat → (size (leaves c1) ≤ pool)%nat →
      ∃ c2, critnib_delete fuel pool c1 = Ok tt c2 ∧ nodes c2 = ∅ ∧ leaves c2 = ∅.
Proof.
  intros Hnew Hl Hturns Hfuel Hlen. destruct (run_ops_Ok l c ∅ turns fuel) as (rs&c1&m&Hrun&_&(t&Hat&_)); [by apply new_is_map|done..| | |].
  { injection Hnew as <-. done. }
  { injection Hnew as <-. cbn. lia. }
  exists rs, c1. split; [done|]. intros pool Hn Hs. by apply (critnib_delete_Ok c1 t).
Qed.

(** ** A run *)

(** Addresses in rising order, as long as there are fewer than [limit] blocks. *)
Definition top_address {B} (m : gmap Z B) : Z := map_fold (λ a _ top, Z.max a top) 0 m.
Lemma top_address_max {B} (m : gmap Z B) a : 0 ≤ top_address m ∧ (is_Some (m !! a) → a ≤ top_address m).
Proof.
  unfold top_address. revert a. apply (map_fold_weak_ind (λ r m, ∀ a, 0 ≤ r ∧ (is_Some (m !! a) → a ≤ r))).
  - intros a. split; [done|]. rewrite lookup_empty. by intros [].
  - intros i x m' r Hi IH a. destruct (IH a) as [H0 H1]. split; [lia|]. destruct (decide (a = i)) as [->|Hne]; [lia|].
    rewrite lookup_insert_ne by done. intros H%H1. lia.
Qed.
Definition next_address {B} (limit : nat) (m : gmap Z B) : option Z := if decide (size m < limit)%nat then Some (top_address m + 16) else None.
Lemma next_address_new {B} limit (m : gmap Z B) a : next_address limit m = Some a → m !! a = None ∧ a ≠ 0.
Proof.
  unfold next_address. case_decide; [|done]. intros [= <-]. destruct (top_address_max m (top_address m + 16)) as [H0 H1]. split; [|lia].
  destruct (m !! (top_address m + 16)) eqn:Em; [|done]. enough (top_address m + 16 ≤ top_address m) by lia. apply H1. by eexists.
Qed.
Definition bump (limit : nat) : NibMalloc := {| Malloc_node := next_address limit; Malloc_leaf := next_address limit |}.
Lemma bump_laws limit : NibMallocLaws (bump limit).
Proof. split; apply next_address_new. Qed.
#[local] Existing Instance bump_laws.
(** Five leaves: the sixth is refused until one comes out of its grace period. *)
Definition few_ops : list nib_op :=
  [OInsert 4660 7; OInsert 4661 8; OInsert 4660 9; OInsert 1152921504606846976 10; OGet 4661; OFindLe 4659; OFindLe 9999; ORemove 4660; OFindLe 4660;
   OInsert 5000 11; OInsert 6000 12; OInsert 7000 13; OGet 4660; ORemove 1].
Definition few_answers : list Z := [0; 0; 17; 0; 8; 0; 8; 7; 0; 0; 0; 12; 0; 0].
Lemma few_ops_ok : Forall op_ok few_ops.
Proof. unfold few_ops. repeat constructor; unfold key_ok; cbn; try lia; try done. Qed.
Definition answers {S A} (r : res S A) : option A := match r with Ok a _ => Some a | Abort _ _ => None end.
Lemma few_answers_run : answers (run_ops (E := bump 5) 1 16 few_ops (Critnib ∅ ∅ PNull 0 0 (replicate 16 0) (replicate 16 0) 0)) = Some few_answers.
Proof. vm_compute. reflexivity. Qed.
Lemma critnib_refines_witness : ∃ c' m, run_ops (E := bump 5) 1 16 few_ops (Critnib ∅ ∅ PNull 0 0 (replicate 16 0) (replicate 16 0) 0) = Ok few_answers c' ∧
  map_answers (E := bump 5) few_ops ∅ few_answers m ∧ is_map c' m.
Proof.
  destruct (critnib_refines (E := bump 5) (EL := bump_laws 5) few_ops _ 1 16 eq_refl few_ops_ok) as (rs&c'&m&Hrun&Hans&Hmap);
    [lia|lia|by vm_compute|].
  pose proof few_answers_run as H. rewrite Hrun in H. injection H as ->. exists c', m. split_and!; assumption.
Defined.
Lemma critnib_no_leak_witness : ∃ c1 c2, run_ops (E := bump 5) 1 16 few_ops (Critnib ∅ ∅ PNull 0 0 (replicate 16 0) (replicate 16 0) 0) = Ok few_answers c1 ∧
  critnib_delete 16 (size (nodes c1) + size (leaves c1)) c1 = Ok tt c2 ∧ nodes c2 = ∅ ∧ leaves c2 = ∅.
Proof.
  destruct (critnib_no_leak (E := bump 5) (EL := bump_laws 5) few_ops _ 1 16 eq_refl few_ops_ok) as (rs&c1&Hrun&Hdel);
    [lia|lia|by vm_compute|].
  pose proof few_answers_run as H. rewrite Hrun in H. injection H as ->.
  destruct (Hdel (size (nodes c1) + size (leaves c1))%nat) as (c2&H1&H2&H3); [lia|lia|]. exists c1, c2. split_and!; assumption.
Defined.
