(* ===== verification/AllocClass.v ===== *)
(** * Allocation classes

    [src/pmdk/src/libpmemobj/alloc_class.c] and what it uses of [heap_layout.h],
    [bucket.h] and [memblock.c]: the layout of a run, the classes of a pool and the
    choice of a class for a size; from [pmalloc.c], the handlers with which a program
    creates a class of its own and reads one.

    A class is a block of transient memory; [NULL] is 0.  One thread runs, so that a
    compare-and-swap is a test and a store. *)
From stdpp Require Import base list strings gmap.
From S2P Require Import Prelude Pmem Critnib.
Open Scope Z_scope.

Definition u16 (x : Z) : Z := x `mod` 2 ^ 16.
Definition u8 (x : Z) : Z := x `mod` 2 ^ 8.
Definition SIZE_MAX : Z := U64 - 1.
Definition UINT16_MAX : Z := 2 ^ 16 - 1.
Definition UINT32_MAX : Z := 2 ^ 32 - 1.
Definition EINVAL : Z := 22.
Definition ERANGE : Z := 34.
Definition ENOENT : Z := 2.

(** ** Layout *)

Definition CHUNKSIZE : Z := 1024 * 256.
Definition RUN_BITS_PER_VALUE : Z := 64.
Definition RUN_BASE_METADATA_VALUES : Z := 2.
Definition RUN_BASE_METADATA_SIZE : Z := 16.
Definition RUN_CONTENT_SIZE : Z := CHUNKSIZE - RUN_BASE_METADATA_SIZE.
Definition RUN_CONTENT_SIZE_BYTES (size_idx : Z) : Z := RUN_CONTENT_SIZE + u32 (size_idx - 1) * CHUNKSIZE.
Definition RUN_DEFAULT_METADATA_VALUES : Z := 40.
Definition RUN_DEFAULT_BITMAP_VALUES : Z := RUN_DEFAULT_METADATA_VALUES - RUN_BASE_METADATA_VALUES.
Definition RUN_DEFAULT_BITMAP_SIZE : Z := 8 * RUN_DEFAULT_BITMAP_VALUES.
Definition RUN_DEFAULT_BITMAP_NBITS : Z := RUN_BITS_PER_VALUE * RUN_DEFAULT_BITMAP_VALUES.
Definition RUN_DEFAULT_SIZE : Z := CHUNKSIZE - RUN_BASE_METADATA_SIZE - RUN_DEFAULT_BITMAP_SIZE.
Definition RUN_DEFAULT_SIZE_BYTES (size_idx : Z) : Z := RUN_DEFAULT_SIZE + u32 (size_idx - 1) * CHUNKSIZE.
Definition CHUNK_ALIGN_UP (value : Z) : Z := Z.land (u64 (value + (CHUNKSIZE - 1))) (U64 - CHUNKSIZE).
Definition CHUNK_FLAG_ALIGNED : Z := 4.
Definition CHUNK_FLAG_FLEX_BITMAP : Z := 8.
Inductive header_type := HEADER_LEGACY | HEADER_COMPACT | HEADER_NONE.
Global Instance header_type_eq_dec : EqDecision header_type.
Proof. solve_decision. Defined.
Definition header_type_to_size (h : header_type) : Z := match h with HEADER_LEGACY => 64 | HEADER_COMPACT => 16 | HEADER_NONE => 0 end.
Definition header_type_to_flag (h : header_type) : Z := match h with HEADER_LEGACY => 0 | HEADER_COMPACT => 1 | HEADER_NONE => 2 end.
Definition CALC_SIZE_IDX (unit_size size : Z) : Z := if size =? 0 then 0 else u32 ((size - 1) `div` unit_size + 1).
Definition util_div_ceil (a b : Z) : Z := u32 ((a + b - 1) `div` b).
(** [ALIGN_UP] of an [unsigned] *)
Definition align_up8 (x : Z) : Z := Z.land (u32 (x + 8 - 1)) (2 ^ 32 - 8).

Record run_bitmap := RunBitmap { nvalues : Z; nbits : Z; bitmap_size : Z }.
(** The branch for flexible bitmaps *)
Definition flex_bitmap (size_idx unit_size alignment : Z) : run_bitmap :=
  let content_size := RUN_CONTENT_SIZE_BYTES size_idx in
  let nbits0 := u32 (content_size `div` unit_size) in
  let nvalues0 := util_div_ceil nbits0 RUN_BITS_PER_VALUE in
  let nvalues1 := u32 (align_up8 (u32 (nvalues0 + RUN_BASE_METADATA_VALUES)) - RUN_BASE_METADATA_VALUES) in
  let size := nvalues1 * 8 in
  let nbits := u32 (u32 (u64 (content_size - size) `div` unit_size) - (if alignment =? 0 then 0 else 1)) in
  let unused_bits := u32 (u32 (nvalues1 * RUN_BITS_PER_VALUE) - nbits) in
  let unused_values := unused_bits `div` RUN_BITS_PER_VALUE in
  RunBitmap (u32 (nvalues1 - unused_values)) nbits size.
(** [*size_idx] and [nallocs] after the loop *)
Fixpoint shrink_run (fuel : nat) (size_idx unit_size nallocs : Z) : Z * Z :=
  match fuel with
  | O => (size_idx, nallocs)
  | S fuel' =>
      if RUN_DEFAULT_BITMAP_NBITS <? nallocs then
        if 1 <? size_idx then shrink_run fuel' (size_idx - 1) unit_size (u32 (RUN_DEFAULT_SIZE_BYTES (size_idx - 1) `div` unit_size))
        else shrink_run fuel' size_idx unit_size RUN_DEFAULT_BITMAP_NBITS
      else (size_idx, nallocs)
  end.
Definition memblock_run_default_nallocs (size_idx unit_size alignment : Z) : Z * Z :=
  let r := shrink_run (S (S (Z.to_nat size_idx))) size_idx unit_size (u32 (RUN_DEFAULT_SIZE_BYTES size_idx `div` unit_size)) in
  (r.1, u32 (r.2 - (if alignment =? 0 then 0 else 1))).
(** [*size_idx] and [*b]; [b->values] is [content]. *)
Definition memblock_run_bitmap {S} (size_idx flags unit_size alignment : Z) : M S (Z * run_bitmap) :=
  assert_ (negb (size_idx =? 0)) "*size_idx != 0" ;;
  when (unit_size =? 0) (stop (UndefinedBehaviour "division by unit_size")) ;;
  if negb (Z.land flags CHUNK_FLAG_FLEX_BITMAP =? 0) then ret (size_idx, flex_bitmap size_idx unit_size alignment)
  else
    let '(size_idx', n) := memblock_run_default_nallocs size_idx unit_size alignment in
    let unused_values := u32 (RUN_DEFAULT_BITMAP_NBITS - n) `div` RUN_BITS_PER_VALUE in
    ret (size_idx', RunBitmap (u32 (RUN_DEFAULT_BITMAP_VALUES - unused_values)) n RUN_DEFAULT_BITMAP_SIZE).

(** ** Classes *)

Definition MAX_ALLOCATION_CLASSES : Z := 255.
Definition DEFAULT_ALLOC_CLASS_ID : Z := 0.
Definition RUN_UNIT_MAX : Z := RUN_BITS_PER_VALUE.
Definition ACLASS_RESERVED : Z := 4294967295.
Definition MAX_RUN_SIZE : Z := CHUNKSIZE * 10.
Definition MAX_RUN_WASTED_BYTES : Z := 1024.
Definition FIRST_GENERATED_CLASS_SIZE : Z := 128.
Definition ALLOC_BLOCK_SIZE_GEN : Z := 64.
Definition MIN_UNIT_SIZE : Z := 128.
Definition RUN_UNIT_MAX_ALLOC : Z := 8.
Definition ALLOC_BLOCK_SIZE : Z := 16.
Definition SIZE_TO_CLASS_MAP_INDEX (s g : Z) : Z := u64 (1 + u64 (s - 1) `div` g).
Definition RUN_MIN_NALLOCS : Z := 200.
Definition RUN_SIZE_IDX_CAP : Z := 16.
Definition ALLOC_CLASS_DEFAULT_FLAGS : Z := CHUNK_FLAG_FLEX_BITMAP.
Definition RUN_CLASS_KEY_PACK (map_idx_s flags_s size_idx_s : Z) : Z :=
  Z.lor (Z.lor (Z.shiftl map_idx_s 32) (Z.shiftl flags_s 16)) size_idx_s.

Inductive alloc_class_type := CLASS_UNKNOWN | CLASS_HUGE | CLASS_RUN.
Global Instance alloc_class_type_eq_dec : EqDecision alloc_class_type.
Proof. solve_decision. Defined.
Record run_data := RunData { size_idx : Z; alignment : Z; nallocs : Z }.
(** [run] is not set in a huge class. *)
Record alloc_class := AClass {
  class_id : Z;
  flags : Z;
  unit_size : Z;
  htype : header_type;
  type : alloc_class_type;
  run : option run_data;
}.
(** [classes] is the memory that holds classes; [class_map_by_alloc_size] is [None]
    before it is allocated. *)
Record alloc_class_collection := Collection {
  granularity : Z;
  aclasses : list Z;
  last_run_max_size : Z;
  class_map_by_alloc_size : option (list Z);
  class_map_by_unit_size : option critnib;
  fail_on_missing_class : bool;
  autogenerate_on_missing_class : bool;
  classes : gmap Z alloc_class;
}.
Definition set_aclasses x a := Collection (granularity a) x (last_run_max_size a) (class_map_by_alloc_size a) (class_map_by_unit_size a) (fail_on_missing_class a) (autogenerate_on_missing_class a) (classes a).
Definition set_last x a := Collection (granularity a) (aclasses a) x (class_map_by_alloc_size a) (class_map_by_unit_size a) (fail_on_missing_class a) (autogenerate_on_missing_class a) (classes a).
Definition set_alloc_map x a := Collection (granularity a) (aclasses a) (last_run_max_size a) x (class_map_by_unit_size a) (fail_on_missing_class a) (autogenerate_on_missing_class a) (classes a).
Definition set_unit_map x a := Collection (granularity a) (aclasses a) (last_run_max_size a) (class_map_by_alloc_size a) x (fail_on_missing_class a) (autogenerate_on_missing_class a) (classes a).
Definition set_classes x a := Collection (granularity a) (aclasses a) (last_run_max_size a) (class_map_by_alloc_size a) (class_map_by_unit_size a) (fail_on_missing_class a) (autogenerate_on_missing_class a) x.

(** [Malloc] for a class, for the map of sizes, for a critnib tree and for a
    collection *)
Class ClassMalloc := {
  Malloc_class : gmap Z alloc_class → option Z;
  Malloc_map : bool;
  Zalloc_critnib : bool;
  Zalloc_collection : bool;
}.

Section classes.
Context {E : NibMalloc} {A : ClassMalloc}.
Abbreviation C := (M alloc_class_collection).

Definition deref (p : Z) : C alloc_class :=
  let! m := gets classes in
  match m !! p with Some c => ret c | None => stop (UndefinedBehaviour "struct alloc_class *") end.
Definition Free_class (p : Z) : C unit := deref p ;; modify (λ a, set_classes (delete p (classes a)) a).
Definition run_of (c : alloc_class) : C run_data :=
  match run c with Some r => ret r | None => stop (UndefinedBehaviour "c->run") end.
Definition slot (n : Z) : C Z :=
  let! l := gets aclasses in
  match l !! Z.to_nat n with Some p => ret p | None => stop (UndefinedBehaviour "ac->aclasses[]") end.
Definition set_slot (n p : Z) : C unit := slot n ;; modify (λ a, set_aclasses (<[Z.to_nat n := p]> (aclasses a)) a).
(** [util_bool_compare_and_swap64] of a slot *)
Definition cas_slot (n old new : Z) : C bool :=
  let! p := slot n in
  if p =? old then set_slot n new ;; ret true else ret false.
Definition on_unit_map {B} (c : M critnib B) : C B := λ a,
  match class_map_by_unit_size a with
  | None => Abort (UndefinedBehaviour "ac->class_map_by_unit_size") a
  | Some m => match c m with Ok x m' => Ok x (set_unit_map (Some m') a) | Abort e m' => Abort e (set_unit_map (Some m') a) end
  end.

Fixpoint free_slot_from (l : list nat) : C (option Z) :=
  match l with
  | [] => ret None
  | n :: l' =>
      let! ok := cas_slot (Z.of_nat n) 0 ACLASS_RESERVED in
      if ok : bool then ret (Some (Z.of_nat n)) else free_slot_from l'
  end.
Definition alloc_class_find_first_free_slot : C (option Z) := free_slot_from (seq 0 (Z.to_nat MAX_ALLOCATION_CLASSES)).
Definition alloc_class_reserve (id : Z) : C Z :=
  let! ok := cas_slot id 0 ACLASS_RESERVED in ret (if ok : bool then 0 else -1).
Definition alloc_class_reservation_clear (id : Z) : C unit :=
  let! ok := cas_slot id ACLASS_RESERVED 0 in assert_ ok "ret".

Definition class_key (ac_granularity unit_size flags size_idx : Z) : Z :=
  RUN_CLASS_KEY_PACK (u32 (SIZE_TO_CLASS_MAP_INDEX unit_size ac_granularity)) (u16 flags) (u16 size_idx).
(** [error_class_alloc] *)
Definition error_class_alloc (id : Z) : C Z :=
  when (0 <=? id) (alloc_class_reservation_clear id) ;; ret 0.
(** [ac->aclasses[c->id] = c], after all fields of [c] *)
Definition publish_class (p : Z) (c : alloc_class) : C Z :=
  modify (λ a, set_classes (<[p := c]> (classes a)) a) ;;
  set_slot (class_id c) p ;;
  ret p.
Definition class_flags (h : header_type) (alignment : Z) : Z :=
  Z.lor (u16 (Z.lor (header_type_to_flag h) (if alignment =? 0 then 0 else CHUNK_FLAG_ALIGNED))) ALLOC_CLASS_DEFAULT_FLAGS.
(** The class [p] of type [CLASS_RUN]; [fuel] is for the critnib tree. *)
Definition new_run (fuel : nat) (p id : Z) (h : header_type) (unit_size alignment size_idx : Z) : C Z :=
  let fl := class_flags h alignment in
  let! b := memblock_run_bitmap size_idx fl unit_size alignment in
  let size_idx' := b.1 in
  let! slot := (if id <? 0 then alloc_class_find_first_free_slot else ret (Some (u8 id))) in
  match slot with
  | None => error_class_alloc id
  | Some n =>
      let! g := gets granularity in
      assert_ (SIZE_TO_CLASS_MAP_INDEX unit_size g <=? UINT32_MAX) "map_idx <= UINT32_MAX" ;;
      let! r := on_unit_map (critnib_insert fuel (class_key g unit_size fl size_idx') p) in
      if negb (r =? 0) then Free_class p ;; error_class_alloc n
      else publish_class p (AClass (u8 n) fl unit_size h CLASS_RUN (Some (RunData size_idx' alignment (nbits b.2))))
  end.
(** What a new block holds is not defined; all of it is set before it is read. *)
Definition alloc_class_new (fuel : nat) (id : Z) (t : alloc_class_type) (h : header_type) (unit_size alignment size_idx : Z) : C Z :=
  let! m := gets classes in
  match Malloc_class m with
  | None => error_class_alloc id
  | Some p =>
      modify (set_classes (<[p := AClass 0 0 0 HEADER_LEGACY CLASS_HUGE None]> m)) ;;
      match t with
      | CLASS_HUGE => publish_class p (AClass DEFAULT_ALLOC_CLASS_ID (class_flags h alignment) unit_size h CLASS_HUGE None)
      | CLASS_RUN => new_run fuel p id h unit_size alignment size_idx
      | CLASS_UNKNOWN => stop (AssertFailed "alloc_class_new")
      end
  end.
Definition alloc_class_delete (p : Z) : C unit :=
  let! c := deref p in
  set_slot (class_id c) 0 ;;
  Free_class p.

(** The first class of the list, [NULL] left out, for which [test] holds; 0 if none *)
Fixpoint find_class (l : list Z) (test : alloc_class → C bool) : C Z :=
  match l with
  | [] => ret 0
  | p :: l' =>
      if p =? 0 then find_class l' test
      else
        let! c := deref p in
        let! ok := test c in
        if ok : bool then ret p else find_class l' test
  end.
Definition divides (n : Z) (c : alloc_class) : bool :=
  (n `mod` unit_size c =? 0) && (n `div` unit_size c <=? RUN_UNIT_MAX_ALLOC).
(** The unit size with little waste at the end of a run; a loop of [fuel] turns *)
Fixpoint fit_run (fuel : nat) (required_size_idx n runsize_bytes : Z) : C Z :=
  match fuel with
  | O => stop OutOfFuel
  | S fuel' =>
      let n' := if runsize_bytes =? 0 then n else u64 (n + ALLOC_BLOCK_SIZE_GEN) in
      let! b := memblock_run_bitmap required_size_idx ALLOC_CLASS_DEFAULT_FLAGS n' 0 in
      let runsize := u64 (RUN_CONTENT_SIZE_BYTES b.1 - bitmap_size b.2) in
      if MAX_RUN_WASTED_BYTES <? runsize `mod` n' then fit_run fuel' required_size_idx n' runsize else ret n'
  end.
Definition required_idx (n : Z) : Z :=
  let required_size_bytes := u64 (n * RUN_MIN_NALLOCS) in
  if RUN_DEFAULT_SIZE <? required_size_bytes then
    Z.min (u32 (1 + CALC_SIZE_IDX CHUNKSIZE (required_size_bytes - RUN_DEFAULT_SIZE))) RUN_SIZE_IDX_CAP
  else 1.
Definition alloc_class_find_or_create (turns fuel : nat) (n : Z) : C Z :=
  let required_size_idx := required_idx n in
  let! l := gets aclasses in
  let! p := find_class (reverse l) (λ c,
    if bool_decide (type c = CLASS_HUGE) then ret false
    else let! r := run_of c in ret (negb (size_idx r <? required_size_idx) && divides n c)) in
  if negb (p =? 0) then ret p
  else
    let! n' := fit_run turns required_size_idx n 0 in
    let! q := find_class (tail l) (λ c,
      if bool_decide (type c = CLASS_HUGE) then ret false else ret (divides n' c || (unit_size c =? n'))) in
    if negb (q =? 0) then ret q
    else alloc_class_new fuel (-1) CLASS_RUN HEADER_COMPACT n' 0 required_size_idx.

(** *** The class with the least waste *)

(** The bytes left at the end of a run, for each of its units *)
Definition run_waste (c : alloc_class) (units waste : Z) : C Z :=
  if bool_decide (type c = CLASS_RUN) then
    let! r := run_of c in
    when ((units =? 0) || (nallocs r =? 0)) (stop (UndefinedBehaviour "division by zero")) ;;
    let wasted_units := nallocs r `mod` units in
    let wasted_bytes := u64 (wasted_units * unit_size c) in
    ret (u64 (waste + wasted_bytes `div` nallocs r))
  else ret waste.
(** [best_c] and [lowest_waste] *)
Fixpoint min_frag (l : list Z) (n best_c lowest_waste : Z) : C Z :=
  match l with
  | [] => ret best_c
  | p :: l' =>
      if p =? 0 then min_frag l' n best_c lowest_waste
      else
        let! c := deref p in
        let real_size := u64 (n + header_type_to_size (htype c)) in
        let units := CALC_SIZE_IDX (unit_size c) real_size in
        if bool_decide (htype c = HEADER_NONE) then min_frag l' n best_c lowest_waste
        else if bool_decide (type c = CLASS_RUN) && (RUN_UNIT_MAX_ALLOC <? units) then min_frag l' n best_c lowest_waste
        else if u64 (unit_size c * units) =? real_size then ret p
        else
          let! waste := run_waste c units (u64 (unit_size c * units - real_size)) in
          if (best_c =? 0) || (waste <? lowest_waste) then min_frag l' n p waste
          else min_frag l' n best_c lowest_waste
  end.
Definition alloc_class_find_min_frag (n : Z) : C Z :=
  assert_ (negb (n =? 0)) "n != 0" ;;
  let! l := gets aclasses in
  let! best_c := min_frag (reverse l) n 0 SIZE_MAX in
  assert_ (negb (best_c =? 0)) "best_c != NULL" ;;
  ret best_c.

(** ** Looking up *)

Definition map_at (i : Z) : C Z :=
  let! m := gets class_map_by_alloc_size in
  match m ≫= (.!! Z.to_nat i) with Some x => ret x | None => stop (UndefinedBehaviour "ac->class_map_by_alloc_size[]") end.
Definition set_map_at (i x : Z) : C unit :=
  map_at i ;; modify (λ a, set_alloc_map (insert (Z.to_nat i) x <$> class_map_by_alloc_size a) a).
Definition alloc_class_assign_by_size (size : Z) : C Z :=
  let! g := gets granularity in
  let class_map_index := SIZE_TO_CLASS_MAP_INDEX size g in
  let! p := alloc_class_find_min_frag (u64 (class_map_index * g)) in
  assert_ (negb (p =? 0)) "c != NULL" ;;
  let! c := deref p in
  let! x := map_at class_map_index in
  when (x =? MAX_ALLOCATION_CLASSES) (set_map_at class_map_index (class_id c)) ;;
  ret p.
Definition alloc_class_by_alloc_size (size : Z) : C Z :=
  let! a := gets (λ a, a) in
  if size <? last_run_max_size a then
    let! class_id := map_at (SIZE_TO_CLASS_MAP_INDEX size (granularity a)) in
    if class_id =? MAX_ALLOCATION_CLASSES then
      if fail_on_missing_class a then ret 0
      else if autogenerate_on_missing_class a then alloc_class_assign_by_size size
      else slot DEFAULT_ALLOC_CLASS_ID
    else slot class_id
  else slot DEFAULT_ALLOC_CLASS_ID.
Definition alloc_class_by_run (turns fuel : nat) (unit_size flags size_idx : Z) : C Z :=
  let! g := gets granularity in
  assert_ (SIZE_TO_CLASS_MAP_INDEX unit_size g <=? UINT32_MAX) "map_idx <= UINT32_MAX" ;;
  assert_ (size_idx <=? UINT16_MAX) "size_idx <= UINT16_MAX" ;;
  on_unit_map (critnib_get turns fuel (class_key g unit_size flags size_idx)).
Definition alloc_class_by_id (id : Z) : C Z := slot id.
Definition alloc_class_calc_size_idx (p size : Z) : C Z :=
  let! c := deref p in
  let size_idx := CALC_SIZE_IDX (unit_size c) (u64 (size + header_type_to_size (htype c))) in
  if bool_decide (type c = CLASS_RUN) then
    let! r := run_of c in
    if bool_decide (htype c = HEADER_NONE) && negb (size_idx =? 1) then ret (-1)
    else if RUN_UNIT_MAX <? size_idx then ret (-1)
    else if nallocs r <? size_idx then ret (-1)
    else ret size_idx
  else ret size_idx.

(** ** A collection *)

(** [float]: an integer rounded to 24 bits, to the nearest one, half to even.  A
    step of 0.05f is 13421773 / 2^28. *)
Definition round24 (x : Z) : Z :=
  if x <? 2 ^ 24 then x
  else
    let u := 2 ^ (Z.log2 x - 23) in
    let q := x `div` u in
    let r := x `mod` u in
    (if (u <? 2 * r) || ((u =? 2 * r) && Z.odd q) then q + 1 else q) * u.
Definition STEP : Z := 13421773.
Definition categories : list (Z * Z) :=
  [(FIRST_GENERATED_CLASS_SIZE, STEP); (1024, STEP); (2048, STEP); (4096, STEP); (8192, STEP); (16384, STEP);
   (32768, STEP); (131072, STEP); (393216, STEP)].
(** [stepf], in units of 2^-28; [FLT_EPSILON] is 2^-23, and the difference is exact. *)
Definition next_size (n step : Z) : Z :=
  let stepf := round24 (round24 n * step) in
  let stepi := stepf `div` 2 ^ 28 in
  let stepi := if stepf - stepi * 2 ^ 28 <? 2 ^ 5 then stepi else stepi + 1 in
  u64 (n + Z.land (u64 (stepi + (ALLOC_BLOCK_SIZE_GEN - 1))) (U64 - ALLOC_BLOCK_SIZE_GEN)).
(** The classes of a category; false without memory *)
Fixpoint generate (gen turns fuel : nat) (n size step : Z) : C bool :=
  match gen with
  | O => stop OutOfFuel
  | S gen' =>
      let! p := alloc_class_find_or_create turns fuel n in
      if p =? 0 then ret false
      else
        let n' := next_size n step in
        if n' <=? size then generate gen' turns fuel n' size step else ret true
  end.
Fixpoint generate_all (gen turns fuel : nat) (prev : Z) (l : list (Z * Z)) : C bool :=
  match l with
  | [] => ret true
  | (size, step) :: l' =>
      let! ok := generate gen turns fuel (prev + ALLOC_BLOCK_SIZE_GEN) size step in
      if ok : bool then generate_all gen turns fuel size l' else ret false
  end.
(** The slot of the largest class *)
Fixpoint largest_from (n : nat) : C nat :=
  match n with
  | O => ret O
  | S n' => let! p := slot (Z.of_nat n) in if p =? 0 then largest_from n' else ret n
  end.
Definition run_threshold : C unit :=
  let! n := largest_from (Z.to_nat (MAX_ALLOCATION_CLASSES - 1)) in
  let! p := slot (Z.of_nat n) in
  let! c := deref p in
  let! r := run_of c in
  let real_unit_max := if nallocs r <? RUN_UNIT_MAX_ALLOC then nallocs r else RUN_UNIT_MAX_ALLOC in
  let theoretical_run_max_size := u64 (unit_size c * real_unit_max) in
  modify (set_last (if theoretical_run_max_size <? MAX_RUN_SIZE then theoretical_run_max_size else MAX_RUN_SIZE)).
(** Each class of runs is found by its runs. *)
Definition verify_classes (fuel : nat) : C unit :=
  for_each (seq 0 (Z.to_nat MAX_ALLOCATION_CLASSES)) (λ i,
    let! p := slot (Z.of_nat i) in
    if p =? 0 then ret tt
    else
      let! c := deref p in
      when (bool_decide (type c = CLASS_RUN))
        (assert_ (Z.of_nat i =? class_id c) "i == c->id" ;;
         let! r := run_of c in
         let! q := alloc_class_by_run 1 fuel (unit_size c) (flags c) (size_idx r) in
         assert_ (q =? p) "alloc_class_by_run(...) == c")).
(** Every class, the trees and the maps; the collection itself goes last. *)
Definition alloc_class_collection_delete (fuel pool : nat) : C unit :=
  for_each (seq 0 (Z.to_nat MAX_ALLOCATION_CLASSES)) (λ i,
    let! p := slot (Z.of_nat i) in
    when (negb (p =? 0)) (alloc_class_delete p)) ;;
  let! m := gets class_map_by_unit_size in
  when (bool_decide (is_Some m)) (on_unit_map (critnib_delete fuel pool)) ;;
  modify (λ a, set_alloc_map None (set_unit_map None a)).
Definition zeroed : alloc_class_collection :=
  Collection 0 (replicate (Z.to_nat MAX_ALLOCATION_CLASSES) 0) 0 None None false false ∅.
(** All but the first allocation; false leads to [error]. *)
Definition fill_collection (gen turns fuel : nat) : C bool :=
  modify (λ a, Collection ALLOC_BLOCK_SIZE (aclasses a) MAX_RUN_SIZE (class_map_by_alloc_size a) (class_map_by_unit_size a) false true (classes a)) ;;
  if negb Malloc_map then ret false
  else
    let maps_size := MAX_RUN_SIZE `div` ALLOC_BLOCK_SIZE + 1 in
    modify (set_alloc_map (Some (replicate (Z.to_nat maps_size) 0))) ;;
    match critnib_new Zalloc_critnib with
    | None => ret false
    | Some t =>
        modify (set_unit_map (Some t)) ;;
        modify (set_alloc_map (Some (replicate (Z.to_nat maps_size) 255))) ;;
        let! huge := alloc_class_new fuel (-1) CLASS_HUGE HEADER_COMPACT CHUNKSIZE 0 1 in
        if huge =? 0 then ret false
        else
          let! p := alloc_class_new fuel (-1) CLASS_RUN HEADER_COMPACT MIN_UNIT_SIZE 0 1 in
          if p =? 0 then ret false
          else
            let! predefined := deref p in
            for_each (seq 0 (Z.to_nat (FIRST_GENERATED_CLASS_SIZE `div` ALLOC_BLOCK_SIZE))) (λ i, set_map_at (Z.of_nat i) (class_id predefined)) ;;
            let! ok := generate_all gen turns fuel FIRST_GENERATED_CLASS_SIZE (tail categories) in
            if ok : bool then run_threshold ;; verify_classes fuel ;; ret true else ret false
    end.
(** From zeroed memory; true for the collection, false for [NULL] *)
Definition alloc_class_collection_new (gen turns fuel pool : nat) : C bool :=
  if negb Zalloc_collection then ret false
  else
    let! ok := fill_collection gen turns fuel in
    if ok : bool then ret true else alloc_class_collection_delete fuel pool ;; ret false.

(** ** Classes of the program's own *)

Inductive pobj_header_type := POBJ_HEADER_LEGACY | POBJ_HEADER_COMPACT | POBJ_HEADER_NONE | MAX_POBJ_HEADER_TYPES.
Record pobj_alloc_class_desc := Desc {
  d_unit_size : Z;
  d_alignment : Z;
  d_units_per_block : Z;
  d_header_type : pobj_header_type;
  d_class_id : Z;
}.
Definition lib_htype (h : pobj_header_type) : option header_type :=
  match h with
  | POBJ_HEADER_LEGACY => Some HEADER_LEGACY
  | POBJ_HEADER_COMPACT => Some HEADER_COMPACT
  | POBJ_HEADER_NONE => Some HEADER_NONE
  | MAX_POBJ_HEADER_TYPES => None
  end.
Definition user_htype (h : header_type) : pobj_header_type :=
  match h with HEADER_LEGACY => POBJ_HEADER_LEGACY | HEADER_COMPACT => POBJ_HEADER_COMPACT | HEADER_NONE => POBJ_HEADER_NONE end.
(** The slot that a description gets: the first one that is free, or the one that
    the query names. *)
Definition desc_slot (index : option Z) : C (Z + Z) :=
  match index with
  | None =>
      let! n := alloc_class_find_first_free_slot in
      match n with Some n => ret (inr n) | None => ret (inl EINVAL) end
  | Some i =>
      if (i <? 0) || (MAX_ALLOCATION_CLASSES <=? i) then ret (inl ERANGE)
      else
        let! r := alloc_class_reserve i in
        if negb (r =? 0) then ret (inl EEXIST) else ret (inr i)
  end.
Definition desc_size_idx (p : pobj_alloc_class_desc) : Z :=
  let runsize_bytes := CHUNK_ALIGN_UP (u64 (u64 (d_units_per_block p * d_unit_size p) + RUN_BASE_METADATA_SIZE)) in
  let runsize_bytes := u64 (runsize_bytes + d_alignment p) in
  Z.min (u32 (runsize_bytes `div` CHUNKSIZE)) UINT16_MAX.
(** [CTL_WRITE_HANDLER(desc)]: an error number, or the description with the class
    and the number of its units.  [buckets] is [None] when
    [heap_create_alloc_class_buckets] of [heap.c] succeeds, and the [errno] that it
    leaves when it fails. *)
Definition desc_write (fuel : nat) (buckets : option Z) (index : option Z) (p : pobj_alloc_class_desc) : C (Z + pobj_alloc_class_desc) :=
  if (d_unit_size p <=? 0) || (PMEMOBJ_MAX_ALLOC_SIZE <? d_unit_size p) || (d_units_per_block p <=? 0) then ret (inl EINVAL)
  else if negb (d_alignment p =? 0) && negb (d_unit_size p `mod` d_alignment p =? 0) then ret (inl EINVAL)
  else if 2 ^ 20 * 2 <? d_alignment p then ret (inl EINVAL)
  else
    match lib_htype (d_header_type p) with
    | None => ret (inl EINVAL)
    | Some h =>
        let! id := desc_slot index in
        match id with
        | inl e => ret (inl e)
        | inr id =>
            let! c := alloc_class_new fuel id CLASS_RUN h (d_unit_size p) (d_alignment p) (desc_size_idx p) in
            if c =? 0 then ret (inl EINVAL)
            else
              match buckets with
              | Some e => alloc_class_delete c ;; ret (inl e)
              | None =>
                  let! k := deref c in
                  let! r := run_of k in
                  ret (inr (Desc (d_unit_size p) (d_alignment p) (nallocs r) (d_header_type p) (class_id k)))
              end
        end
    end.
(** [CTL_READ_HANDLER(desc)] *)
Definition desc_read (index : Z) : C (Z + pobj_alloc_class_desc) :=
  if (index <? 0) || (MAX_ALLOCATION_CLASSES <=? index) then ret (inl ERANGE)
  else
    let! p := alloc_class_by_id index in
    if p =? 0 then ret (inl ENOENT)
    else
      let! c := deref p in
      match type c with
      | CLASS_HUGE => ret (inr (Desc (unit_size c) 0 0 (user_htype (htype c)) (class_id c)))
      | _ =>
          let! r := run_of c in
          ret (inr (Desc (unit_size c) (if Z.land (flags c) CHUNK_FLAG_ALIGNED =? 0 then 0 else alignment r)
                      (nallocs r) (user_htype (htype c)) (class_id c)))
      end.
End classes.
