(* ===== verification/AllocClassFacts.v ===== *)
(** * The choice of an allocation class

    The layout of a run: its bitmap and its units fit, and the bitmap has a bit for
    every unit.  The class for a size: it wastes the least, and the size fits into
    it.  A new class is found again by the unit size of its runs. *)
From stdpp Require Import base list strings gmap.
From S2P Require Import Prelude Pmem Critnib CritnibTree CritnibFacts CritnibSpec CritnibMap CritnibFree AllocClass.
Open Scope Z_scope.

(** ** Runs *)

Lemma u32_small x : 0 ≤ x < 2 ^ 32 → u32 x = x.
Proof. apply Z.mod_small. Qed.
Lemma align_up8_spec x : 0 ≤ x < 2 ^ 32 - 8 → align_up8 x = 8 * ((x + 7) `div` 8).
Proof.
  intros Hx. unfold align_up8. replace (x + 8 - 1) with (x + 7) by lia. rewrite u32_small by lia.
  change (2 ^ 32 - 8) with (Z.ldiff (Z.ones 32) (Z.ones 3)). rewrite Z.ldiff_land, Z.land_assoc, Z.land_ones, Z.mod_small by lia.
  rewrite <-Z.ldiff_land, Z.ldiff_ones_r, Z.shiftl_mul_pow2, Z.shiftr_div_pow2 by lia. change (2 ^ 3) with 8. lia.
Qed.
(** The values of the bitmap for [n] bits, with the header a multiple of a cache line *)
Definition padded_values (n : Z) : Z := 8 * (((n + 63) `div` 64 + 2 + 7) `div` 8) - 2.
Lemma padded_values_spec n : 0 ≤ n → n ≤ 64 * padded_values n ∧ 8 * padded_values n ≤ n `div` 8 + 64 ∧ (16 + 8 * padded_values n) `mod` 64 = 0 ∧ 6 ≤ padded_values n.
Proof.
  intros Hn. unfold padded_values. pose proof (Z.div_mod (n + 63) 64). pose proof (Z.mod_pos_bound (n + 63) 64).
  pose proof (Z.div_mod ((n + 63) `div` 64 + 2 + 7) 8). pose proof (Z.mod_pos_bound ((n + 63) `div` 64 + 2 + 7) 8).
  pose proof (Z.div_mod n 8). pose proof (Z.mod_pos_bound n 8). split_and!; [lia|lia| |lia].
  replace (16 + 8 * (8 * (((n + 63) `div` 64 + 2 + 7) `div` 8) - 2)) with (((n + 63) `div` 64 + 2 + 7) `div` 8 * 64) by lia. apply Z.mod_mul. lia.
Qed.
Definition spare (alignment : Z) : Z := if alignment =? 0 then 0 else 1.
Lemma spare_range alignment : 0 ≤ spare alignment ≤ 1.
Proof. unfold spare. case_match; lia. Qed.
Lemma content_range size_idx : 1 ≤ size_idx ≤ UINT16_MAX → 262128 ≤ RUN_CONTENT_SIZE_BYTES size_idx < 2 ^ 40.
Proof.
  intros Hs. unfold RUN_CONTENT_SIZE_BYTES, UINT16_MAX in *. rewrite u32_small by lia. unfold RUN_CONTENT_SIZE, CHUNKSIZE, RUN_BASE_METADATA_SIZE. lia.
Qed.
(** The values of the bitmap, and the units that fit beside it *)
Definition bitmap_values (size_idx unit_size : Z) : Z := padded_values (RUN_CONTENT_SIZE_BYTES size_idx `div` unit_size).
Definition beside (size_idx unit_size : Z) : Z := (RUN_CONTENT_SIZE_BYTES size_idx - 8 * bitmap_values size_idx unit_size) `div` unit_size.
Lemma bitmap_values_spec size_idx unit_size :
  let content := RUN_CONTENT_SIZE_BYTES size_idx in let v := bitmap_values size_idx unit_size in let q := beside size_idx unit_size in
  1 ≤ size_idx ≤ UINT16_MAX → 1 ≤ unit_size → content ≤ 2 ^ 31 * unit_size →
  (16 + 8 * v) `mod` 64 = 0 ∧ 6 ≤ v < 2 ^ 26 ∧ 8 * v ≤ content ∧ 0 ≤ q ≤ 2 ^ 31 ∧ q ≤ 64 * v ∧ unit_size * q ≤ content - 8 * v < unit_size * q + unit_size.
Proof.
  cbn zeta. intros Hs Hu Hc. pose proof (content_range size_idx Hs) as Hcont. unfold beside, bitmap_values. set (content := RUN_CONTENT_SIZE_BYTES size_idx) in *.
  assert (Hn0 : 0 ≤ content `div` unit_size ≤ 2 ^ 31) by (split; [apply Z.div_pos; lia|apply Z.div_le_upper_bound; lia]).
  assert (Hle : content `div` unit_size ≤ content) by (apply Z.div_le_upper_bound; nia).
  destruct (padded_values_spec (content `div` unit_size)) as (P1&P2&P3&P4); [lia|].
  assert (Hd8 : content `div` unit_size `div` 8 * 8 ≤ content `div` unit_size) by (pose proof (Z.mul_div_le (content `div` unit_size) 8); lia).
  assert (H64 : padded_values (content `div` unit_size) < 2 ^ 26) by (unfold padded_values; pose proof (Z.div_mod (content `div` unit_size + 63) 64); pose proof (Z.mod_pos_bound (content `div` unit_size + 63) 64);
    pose proof (Z.mul_div_le ((content `div` unit_size + 63) `div` 64 + 2 + 7) 8); lia).
  set (v := padded_values (content `div` unit_size)) in *. assert (Hpos : 8 * v ≤ content) by lia.
  pose proof (Z.div_mod (content - 8 * v) unit_size). pose proof (Z.mod_pos_bound (content - 8 * v) unit_size).
  assert (Hq : 0 ≤ (content - 8 * v) `div` unit_size) by (apply Z.div_pos; lia).
  assert (Hqn : (content - 8 * v) `div` unit_size ≤ content `div` unit_size) by (apply Z.div_le_mono; lia).
  split_and!; [done|lia..].
Qed.
Lemma flex_bitmap_gen size_idx unit_size alignment :
  let v := bitmap_values size_idx unit_size in let n := u32 (beside size_idx unit_size - spare alignment) in
  1 ≤ size_idx ≤ UINT16_MAX → 1 ≤ unit_size → RUN_CONTENT_SIZE_BYTES size_idx ≤ 2 ^ 31 * unit_size →
  flex_bitmap size_idx unit_size alignment = RunBitmap (u32 (v - u32 (64 * v - n) `div` 64)) n (8 * v).
Proof.
  cbn zeta. intros Hs Hu Hc. destruct (bitmap_values_spec size_idx unit_size Hs Hu Hc) as (_&Hv&Hv8&Hq&_&_). pose proof (content_range size_idx Hs) as Hcont.
  unfold flex_bitmap, beside, bitmap_values in *. fold (spare alignment). set (content := RUN_CONTENT_SIZE_BYTES size_idx) in *. set (n0 := content `div` unit_size) in *.
  assert (Hn0 : 0 ≤ n0 ≤ 2 ^ 31) by (subst n0; split; [apply Z.div_pos; lia|apply Z.div_le_upper_bound; lia]).
  rewrite (u32_small n0) by lia. unfold util_div_ceil, RUN_BITS_PER_VALUE, RUN_BASE_METADATA_VALUES.
  assert (H64 : 0 ≤ (n0 + 63) `div` 64 ≤ 2 ^ 26) by (split; [apply Z.div_pos; lia|apply Z.div_le_upper_bound; lia]).
  replace (n0 + 64 - 1) with (n0 + 63) by lia. rewrite (u32_small ((n0 + 63) `div` 64)) by lia.
  rewrite (u32_small ((n0 + 63) `div` 64 + 2)), align_up8_spec by lia. change (8 * (((n0 + 63) `div` 64 + 2 + 7) `div` 8) - 2) with (padded_values n0).
  rewrite (u32_small (padded_values n0)) by lia. set (v := padded_values n0) in *. replace (v * 8) with (8 * v) by lia. replace (v * 64) with (64 * v) by lia.
  rewrite (u64_small (content - 8 * v)) by (unfold U64; lia). by rewrite (u32_small ((content - 8 * v) `div` unit_size)), (u32_small (64 * v)) by lia.
Qed.
Lemma flex_bitmap_eq size_idx unit_size alignment :
  let n := beside size_idx unit_size - spare alignment in
  1 ≤ size_idx ≤ UINT16_MAX → 1 ≤ unit_size → RUN_CONTENT_SIZE_BYTES size_idx ≤ 2 ^ 31 * unit_size → 0 ≤ n →
  flex_bitmap size_idx unit_size alignment = RunBitmap ((n + 63) `div` 64) n (8 * bitmap_values size_idx unit_size).
Proof.
  cbn zeta. intros Hs Hu Hc Hn. rewrite flex_bitmap_gen by done. destruct (bitmap_values_spec size_idx unit_size Hs Hu Hc) as (_&Hv&_&Hq&Hqv&_).
  pose proof (spare_range alignment) as Hsp. set (v := bitmap_values size_idx unit_size) in *. set (n := beside size_idx unit_size - spare alignment) in *.
  rewrite (u32_small n), (u32_small (64 * v - n)) by lia. f_equal.
  pose proof (Z.div_mod (64 * v - n) 64). pose proof (Z.mod_pos_bound (64 * v - n) 64). pose proof (Z.div_mod (n + 63) 64). pose proof (Z.mod_pos_bound (n + 63) 64).
  rewrite u32_small; lia.
Qed.
(** Without room for the unit that the alignment costs, the count wraps around. *)
Lemma flex_bitmap_wraps size_idx unit_size alignment :
  1 ≤ size_idx ≤ UINT16_MAX → 1 ≤ unit_size → RUN_CONTENT_SIZE_BYTES size_idx ≤ 2 ^ 31 * unit_size → beside size_idx unit_size < spare alignment →
  flex_bitmap size_idx unit_size alignment = RunBitmap 0 (2 ^ 32 - 1) (8 * bitmap_values size_idx unit_size).
Proof.
  intros Hs Hu Hc Hn. rewrite flex_bitmap_gen by done. destruct (bitmap_values_spec size_idx unit_size Hs Hu Hc) as (_&Hv&_&Hq&_&_).
  pose proof (spare_range alignment) as Hsp. set (v := bitmap_values size_idx unit_size) in *.
  assert (u32 (beside size_idx unit_size - spare alignment) = 2 ^ 32 - 1) as -> by (replace (beside size_idx unit_size - spare alignment) with (-1) by lia; done).
  assert (u32 (64 * v - (2 ^ 32 - 1)) = 64 * v + 1) as -> by (symmetry; apply (Z.mod_unique_pos _ _ (-1)); lia).
  f_equal. replace ((64 * v + 1) `div` 64) with v by (apply (Z.div_unique_pos _ _ v 1); lia). by rewrite Z.sub_diag.
Qed.
(** C34. The layout of a run with a flexible bitmap, for runs of 1 to 65535 chunks and units
    of which at most [2^31] would fill the run: the data starts at a cache line, and the
    bitmap with its padding fits into the run.  If there is also room for the unit
    that an alignment costs, the bitmap has a bit for each unit and no value too many,
    bitmap and units fit into the run, with the spare unit, and no other unit would
    fit.  If there is no such room, the number of units wraps around: the run is said
    to have [2^32 - 1] units, and its bitmap no value. *)
Theorem run_bitmap_bounds size_idx unit_size alignment :
  let content := RUN_CONTENT_SIZE_BYTES size_idx in
  let b := flex_bitmap size_idx unit_size alignment in
  1 ≤ size_idx ≤ UINT16_MAX → 1 ≤ unit_size → content ≤ 2 ^ 31 * unit_size →
  (RUN_BASE_METADATA_SIZE + bitmap_size b) `mod` 64 = 0 ∧ bitmap_size b ≤ content ∧
  (bitmap_size b + spare alignment * unit_size ≤ content →
    8 * nvalues b ≤ bitmap_size b ∧ nbits b ≤ RUN_BITS_PER_VALUE * nvalues b < nbits b + RUN_BITS_PER_VALUE ∧ 0 ≤ nbits b < 2 ^ 32 ∧
    bitmap_size b + (nbits b + spare alignment) * unit_size ≤ content < bitmap_size b + (nbits b + spare alignment + 1) * unit_size) ∧
  (content < bitmap_size b + spare alignment * unit_size → nbits b = 2 ^ 32 - 1 ∧ nvalues b = 0).
Proof.
  cbn zeta. intros Hs Hu Hc. destruct (bitmap_values_spec size_idx unit_size Hs Hu Hc) as (H1&Hv&H2&Hq&Hqv&Hfit). pose proof (spare_range alignment) as Hsp.
  assert (Hbs : bitmap_size (flex_bitmap size_idx unit_size alignment) = 8 * bitmap_values size_idx unit_size) by (by rewrite flex_bitmap_gen).
  rewrite Hbs. split; [exact H1|]. split; [exact H2|]. split; intros Hroom.
  - assert (spare alignment ≤ beside size_idx unit_size) by nia. rewrite flex_bitmap_eq by (done || lia). cbn [nvalues nbits].
    set (n := beside size_idx unit_size - spare alignment). pose proof (Z.div_mod (n + 63) 64). pose proof (Z.mod_pos_bound (n + 63) 64).
    unfold RUN_BITS_PER_VALUE. split_and!; [lia..|nia|nia].
  - rewrite flex_bitmap_wraps by (done || nia). done.
Qed.

(** ** Units *)

Definition units (c : alloc_class) (n : Z) : Z := (n + header_type_to_size (htype c) - 1) `div` unit_size c + 1.
Lemma header_range h : 0 ≤ header_type_to_size h ≤ 64.
Proof. destruct h; cbn; lia. Qed.
Lemma units_spec c n : 1 ≤ unit_size c → 1 ≤ n →
  1 ≤ units c n ∧ n + header_type_to_size (htype c) ≤ unit_size c * units c n < n + header_type_to_size (htype c) + unit_size c.
Proof.
  intros Hu Hn. unfold units. pose proof (header_range (htype c)) as Hh. set (s := n + header_type_to_size (htype c)) in *.
  pose proof (Z.div_mod (s - 1) (unit_size c)). pose proof (Z.mod_pos_bound (s - 1) (unit_size c)).
  assert (0 ≤ (s - 1) `div` unit_size c) by (apply Z.div_pos; lia). split; [lia|]. rewrite Z.mul_add_distr_l. lia.
Qed.
Lemma units_mono c n n' : 1 ≤ unit_size c → n ≤ n' → units c n ≤ units c n'.
Proof. intros Hu Hn. unfold units. enough ((n + header_type_to_size (htype c) - 1) `div` unit_size c ≤ (n' + header_type_to_size (htype c) - 1) `div` unit_size c) by lia. apply Z.div_le_mono; lia. Qed.
(** Sizes for which [uint32_t] is wide enough for the number of units *)
Definition small_size (n : Z) : Prop := 1 ≤ n ≤ 2 ^ 30.
Lemma calc_units c n : 1 ≤ unit_size c → 1 ≤ n ≤ 2 ^ 40 → n + 64 < 2 ^ 31 * unit_size c →
  CALC_SIZE_IDX (unit_size c) (u64 (n + header_type_to_size (htype c))) = units c n ∧ units c n < 2 ^ 32.
Proof.
  intros Hu Hn Hw. pose proof (header_range (htype c)). rewrite u64_small by (unfold U64; lia). unfold CALC_SIZE_IDX.
  rewrite (proj2 (Z.eqb_neq _ 0)) by lia. fold (units c n). assert (units c n < 2 ^ 32).
  { unfold units. enough ((n + header_type_to_size (htype c) - 1) `div` unit_size c < 2 ^ 32 - 1) by lia. apply Z.div_lt_upper_bound; lia. }
  split; [|done]. apply u32_small. pose proof (units_spec c n). lia.
Qed.

(** ** The least waste *)

(** A class as [alloc_class_new] makes it *)
Definition class_good (c : alloc_class) : Prop :=
  1 ≤ unit_size c ≤ PMEMOBJ_MAX_ALLOC_SIZE ∧
  match type c with
  | CLASS_UNKNOWN => False
  | CLASS_HUGE => unit_size c = CHUNKSIZE
  | CLASS_RUN => match run c with Some r => RUN_UNIT_MAX_ALLOC ≤ nallocs r < 2 ^ 32 | None => False end
  end.
(** The bytes wasted per object of [n] bytes: around the object and at the end of the
    run.  [None] for a class that does not take such objects by default. *)
Definition frag (c : alloc_class) (n : Z) : option Z :=
  let real_size := n + header_type_to_size (htype c) in
  let waste := unit_size c * units c n - real_size in
  if bool_decide (htype c = HEADER_NONE) then None
  else
    match type c, run c with
    | CLASS_RUN, Some r =>
        if RUN_UNIT_MAX_ALLOC <? units c n then None
        else Some (if waste =? 0 then 0 else waste + (nallocs r `mod` units c n * unit_size c) `div` nallocs r)
    | _, _ => Some waste
    end.
Lemma frag_nonneg c n w : class_good c → small_size n → frag c n = Some w → 0 ≤ w.
Proof.
  intros [Hu Ht] Hn. unfold frag. pose proof (units_spec c n) as Hs. unfold small_size in Hn. case_bool_decide; [done|].
  destruct (type c); [done|intros [= <-]; lia|]. destruct (run c) as [r|]; [|done]. case_match; [done|]. intros [= <-]. case_match; [lia|].
  unfold RUN_UNIT_MAX_ALLOC in Ht.
  assert (0 ≤ (nallocs r `mod` units c n * unit_size c) `div` nallocs r); [|lia]. apply Z.div_pos; [|lia]. pose proof (Z.mod_pos_bound (nallocs r) (units c n)). nia.
Qed.

Section choice.
Context {E : NibMalloc} {A : ClassMalloc}.
Implicit Types (a : alloc_class_collection) (l : list Z).

Lemma class_deref_Ok a p c : classes a !! p = Some c → deref p a = Ok c a.
Proof. intros H. unfold deref, bind, gets. by rewrite H. Qed.
Lemma run_waste_Ok a c n : class_good c → small_size n → htype c ≠ HEADER_NONE →
  (type c = CLASS_RUN → units c n ≤ RUN_UNIT_MAX_ALLOC) → unit_size c * units c n ≠ n + header_type_to_size (htype c) →
  ∃ w, run_waste c (units c n) (unit_size c * units c n - (n + header_type_to_size (htype c))) a = Ok w a ∧ frag c n = Some w.
Proof.
  intros [Hu Ht] Hn Hh Hr Hne. destruct (units_spec c n) as (Hu1&Hu2); [lia|unfold small_size in Hn; lia|]. unfold run_waste, frag.
  rewrite (bool_decide_eq_false_2 (htype c = HEADER_NONE)) by done. destruct (type c) eqn:Hty; [done| |].
  - rewrite bool_decide_eq_false_2 by done. by eexists.
  - rewrite bool_decide_eq_true_2 by done. unfold run_of. destruct (run c) as [r|]; [|done]. unfold RUN_UNIT_MAX_ALLOC in *. specialize (Hr eq_refl).
    rewrite (proj2 (Z.ltb_ge _ _)) by lia. unfold bind, ret, when. rewrite (proj2 (Z.eqb_neq (units c n) 0)), (proj2 (Z.eqb_neq (nallocs r) 0)) by lia. cbn [orb].
    rewrite (proj2 (Z.eqb_neq (unit_size c * units c n - _) 0)) by lia. pose proof (Z.mod_pos_bound (nallocs r) (units c n)) as Hm. unfold PMEMOBJ_MAX_ALLOC_SIZE in *.
    rewrite (u64_small (nallocs r `mod` units c n * unit_size c)) by (unfold U64; nia).
    assert (0 ≤ (nallocs r `mod` units c n * unit_size c) `div` nallocs r ≤ nallocs r `mod` units c n * unit_size c).
    { split; [apply Z.div_pos; nia|]. apply Z.div_le_upper_bound; [lia|]. nia. }
    rewrite u64_small by (unfold U64, small_size in *; nia). by eexists.
Qed.
(** Slots that are [NULL] or hold a class *)
Definition slots_good a l : Prop := ∀ p, p ∈ l → p ≠ 0 → ∃ c, classes a !! p = Some c ∧ class_good c.
Definition least a l (n p w : Z) : Prop := ∀ q c w', q ∈ l → q ≠ 0 → classes a !! q = Some c → frag c n = Some w' → w ≤ w'.
Lemma least_cons a l n p w q c : classes a !! q = Some c → (∀ w', frag c n = Some w' → w ≤ w') → least a l n p w → least a (q :: l) n p w.
Proof. intros Hq Hw Hl q' c' w' [->|Hin]%elem_of_cons Hz Hc Hf; [simplify_eq; by apply Hw|by apply (Hl q' c' w')]. Qed.
Lemma least_null a l n p w : least a l n p w → least a (0 :: l) n p w.
Proof. intros Hl q' c' w' [->|Hin]%elem_of_cons Hz Hc Hf; [done|by apply (Hl q' c' w')]. Qed.
(** The result of the loop: the class so far or one of the list, with the least waste
    of these *)
Definition chosen a l (n best low p : Z) : Prop :=
  (p = 0 → best = 0 ∧ ∀ q c, q ∈ l → q ≠ 0 → classes a !! q = Some c → frag c n = None) ∧
  (p ≠ 0 → (p = best ∨ p ∈ l) ∧ ∃ c w, classes a !! p = Some c ∧ frag c n = Some w ∧ (best ≠ 0 → w ≤ low) ∧ least a l n p w).
Lemma chosen_skip a l n best low p q c : classes a !! q = Some c → (∀ w, frag c n = Some w → best ≠ 0 ∧ low ≤ w) →
  chosen a l n best low p → chosen a (q :: l) n best low p.
Proof.
  intros Hq Hf [H0 H1]. split.
  - intros Hp. destruct (H0 Hp) as [-> Hn]. split; [done|]. intros q' c' [->|Hin]%elem_of_cons Hz Hc; [|by apply (Hn q')].
    simplify_eq. destruct (frag c n) as [w|] eqn:Ef; [|done]. by destruct (Hf w eq_refl).
  - intros Hp. destruct (H1 Hp) as (Hin&c'&w&Hc&Hw&Hb&Hl). split; [destruct Hin; [by left|right; by right]|]. exists c', w. split_and!; [done..|].
    apply (least_cons a l n p w q c); [done| |done]. intros w' Hw'. destruct (Hf w' Hw') as [Hb0 Hle]. specialize (Hb Hb0). lia.
Qed.
Lemma min_frag_Ok a l n best low : slots_good a l → small_size n →
  (best ≠ 0 → ∃ c, classes a !! best = Some c ∧ class_good c ∧ frag c n = Some low) →
  ∃ p, min_frag l n best low a = Ok p a ∧ chosen a l n best low p.
Proof.
  revert best low. induction l as [|q l IH]; intros best low Hl Hn Hb.
  { exists best. split; [done|]. split; [intros ->; split; [done|by intros ?? ?%elem_of_nil]|]. intros Hp. destruct (Hb Hp) as (c&Hc&_&Hf).
    split; [by left|]. exists c, low. split_and!; [done..|]. by intros ??? ?%elem_of_nil. }
  assert (Hl' : slots_good a l) by (intros p Hp; apply Hl; by right). cbn [min_frag]. destruct (Z.eqb_spec q 0) as [->|Hq].
  { destruct (IH best low Hl' Hn Hb) as (p&Hrun&H0&H1). exists p. split; [done|]. split.
    - intros Hp. destruct (H0 Hp) as [? Hnone]. split; [done|]. intros q' c' [->|?]%elem_of_cons; [done|by apply Hnone].
    - intros Hp. destruct (H1 Hp) as (Hin&c&w&?&?&?&?). split; [destruct Hin; [by left|right; by right]|]. exists c, w. split_and!; [done..|]. by apply least_null. }
  destruct (Hl q (list_elem_of_here _ _) Hq) as (c&Hc&Hgood). rewrite (bind_Ok _ _ _ _ _ (class_deref_Ok _ _ _ Hc)). pose proof Hgood as [Hu Ht].
  destruct (calc_units c n) as [Hcalc Hlt]; [lia|unfold small_size in Hn; lia..|]. rewrite Hcalc. destruct (units_spec c n) as (Hu1&Hu2); [lia|unfold small_size in Hn; lia|].
  pose proof (header_range (htype c)) as Hh. rewrite (u64_small (n + _)) by (unfold U64, small_size in *; lia).
  assert (Hskip : frag c n = None → ∃ p, min_frag l n best low a = Ok p a ∧ chosen a (q :: l) n best low p).
  { intros Hf. destruct (IH best low Hl' Hn Hb) as (p&Hrun&Hch). exists p. split; [done|]. eapply chosen_skip; [done| |done]. intros w Hw. congruence. }
  case_bool_decide as Hnone; [apply Hskip; unfold frag; by rewrite bool_decide_eq_true_2|].
  destruct (bool_decide (type c = CLASS_RUN) && (RUN_UNIT_MAX_ALLOC <? units c n)) eqn:Hmany.
  { apply andb_true_iff in Hmany as [Hty%bool_decide_eq_true Hun]. apply Hskip. unfold frag. rewrite bool_decide_eq_false_2 by done. rewrite Hty in *.
    destruct (run c); [|done]. by rewrite Hun. }
  assert (Hr : type c = CLASS_RUN → units c n ≤ RUN_UNIT_MAX_ALLOC).
  { intros Hty. rewrite bool_decide_eq_true_2 in Hmany by done. cbn [andb] in Hmany. by apply Z.ltb_ge. }
  rewrite (u64_small (unit_size c * units c n)) by (unfold U64, small_size, PMEMOBJ_MAX_ALLOC_SIZE in *; lia).
  destruct (Z.eqb_spec (unit_size c * units c n) (n + header_type_to_size (htype c))) as [Heq|Hneq].
  - exists q. split; [done|]. split; [done|]. intros _. split; [right; apply list_elem_of_here|]. assert (Hf0 : frag c n = Some 0).
    { unfold frag. rewrite bool_decide_eq_false_2 by done. rewrite Heq, Z.sub_diag. destruct (type c); [done..|]. destruct (run c); [|done]. by rewrite (proj2 (Z.ltb_ge _ _)) by auto. }
    exists c, 0. split_and!; [done..| |].
    + intros Hb0. destruct (Hb Hb0) as (c'&Hc'&Hg'&Hf'). by apply (frag_nonneg c' n).
    + intros q' c' w' Hin Hz Hc' Hf'. destruct (Hl q' Hin Hz) as (c''&?&?). simplify_eq. by eapply frag_nonneg.
  - rewrite (u64_small (unit_size c * units c n - _)) by (unfold U64, small_size, PMEMOBJ_MAX_ALLOC_SIZE in *; lia).
    destruct (run_waste_Ok a c n Hgood Hn Hnone Hr Hneq) as (w&Hw&Hf). rewrite (bind_Ok _ _ _ _ _ Hw).
    destruct ((best =? 0) || (w <? low)) eqn:Hbetter.
    + destruct (IH q w Hl' Hn) as (p&Hrun&H0&H1); [by exists c|]. exists p. split; [done|]. split; [intros Hp; by destruct (H0 Hp)|]. intros Hp.
      destruct (H1 Hp) as (Hin&c'&w'&Hc'&Hf'&Hle&Hleast). specialize (Hle Hq). split.
      { right. destruct Hin as [->|?]; [apply list_elem_of_here|by right]. }
      exists c', w'. split_and!; [done..| |].
      * intros Hb0. apply orb_true_iff in Hbetter as [?%Z.eqb_eq|?%Z.ltb_lt]; [done|lia].
      * apply (least_cons a l n p w' q c); [done| |done]. intros w'' Hw''. simplify_eq. done.
    + apply orb_false_iff in Hbetter as [Hb0%Z.eqb_neq Hge%Z.ltb_ge]. destruct (IH best low Hl' Hn Hb) as (p&Hrun&Hch). exists p. split; [done|].
      eapply chosen_skip; [done| |done]. intros w' Hw'. simplify_eq. done.
Qed.

(** ** The class for a size *)

(** A collection whose runs have at least [RUN_UNIT_MAX_ALLOC] units, and in which the
    map of sizes names classes that take objects of these sizes *)
Record coll_ok a : Prop := CollOk {
  co_granularity : granularity a = ALLOC_BLOCK_SIZE;
  co_last : last_run_max_size a ≤ MAX_RUN_SIZE;
  co_fail : fail_on_missing_class a = false;
  co_auto : autogenerate_on_missing_class a = true;
  co_slots : ∀ i p, aclasses a !! i = Some p → p ≠ 0 →
    ∃ c, classes a !! p = Some c ∧ class_good c ∧ class_id c = Z.of_nat i ∧ (i < 255)%nat;
  co_huge : ∃ p c, aclasses a !! O = Some p ∧ p ≠ 0 ∧ classes a !! p = Some c ∧ type c = CLASS_HUGE ∧ htype c = HEADER_COMPACT;
  co_map : ∃ l, class_map_by_alloc_size a = Some l ∧ length l = Z.to_nat (MAX_RUN_SIZE `div` ALLOC_BLOCK_SIZE + 1) ∧
    ∀ i x, l !! i = Some x → i ≠ O → x ≠ MAX_ALLOCATION_CLASSES →
      ∃ p c, aclasses a !! Z.to_nat x = Some p ∧ p ≠ 0 ∧ classes a !! p = Some c ∧ is_Some (frag c (ALLOC_BLOCK_SIZE * Z.of_nat i));
}.
Lemma coll_slots_good a : coll_ok a → slots_good a (reverse (aclasses a)).
Proof. intros Hok p Hin Hp. rewrite elem_of_reverse in Hin. apply list_elem_of_lookup in Hin as [i Hi]. destruct (co_slots a Hok i p Hi Hp) as (c&?&?&_). by exists c. Qed.
Lemma find_min_frag_Ok a n : coll_ok a → small_size n →
  ∃ p c w i, alloc_class_find_min_frag n a = Ok p a ∧ p ≠ 0 ∧ aclasses a !! i = Some p ∧ classes a !! p = Some c ∧ class_good c ∧ class_id c = Z.of_nat i ∧
    (i < 255)%nat ∧ frag c n = Some w ∧ least a (reverse (aclasses a)) n p w.
Proof.
  intros Hok Hn. unfold alloc_class_find_min_frag. rewrite (proj2 (Z.eqb_neq n 0)) by (unfold small_size in Hn; lia).
  rewrite (bind_Ok _ _ _ _ _ (eq_refl : assert_ true _ a = Ok tt a)), (bind_Ok _ _ _ _ _ (eq_refl : gets aclasses a = _)).
  destruct (min_frag_Ok a (reverse (aclasses a)) n 0 SIZE_MAX) as (p&Hrun&H0&H1); [by apply coll_slots_good|done|done|]. rewrite (bind_Ok _ _ _ _ _ Hrun).
  destruct (decide (p = 0)) as [->|Hp].
  { destruct (H0 eq_refl) as [_ Hnone]. destruct (co_huge a Hok) as (q&c&Hq&Hqz&Hc&Hty&Hh).
    specialize (Hnone q c (proj2 (elem_of_reverse _ _) (list_elem_of_lookup_2 _ _ _ Hq)) Hqz Hc). unfold frag in Hnone.
    rewrite Hty, Hh in Hnone. by rewrite bool_decide_eq_false_2 in Hnone. }
  rewrite (proj2 (Z.eqb_neq p 0) Hp). destruct (H1 Hp) as ([->|Hin]&c&w&Hc&Hf&_&Hl); [done|]. rewrite elem_of_reverse in Hin. apply list_elem_of_lookup in Hin as [i Hi].
  destruct (co_slots a Hok i p Hi Hp) as (c'&Hc'&Hg&Hid&Hlt). simplify_eq. exists p, c, w, i. split_and!; done.
Qed.
(** The entry of the map for a size, and the size up to which it is meant *)
Definition map_index (size : Z) : Z := 1 + (size - 1) `div` ALLOC_BLOCK_SIZE.
Lemma map_index_spec size : 1 ≤ size ≤ 2 ^ 40 →
  SIZE_TO_CLASS_MAP_INDEX size ALLOC_BLOCK_SIZE = map_index size ∧ 1 ≤ map_index size ∧ size ≤ ALLOC_BLOCK_SIZE * map_index size < size + ALLOC_BLOCK_SIZE.
Proof.
  intros Hs. unfold map_index, ALLOC_BLOCK_SIZE. pose proof (Z.div_mod (size - 1) 16). pose proof (Z.mod_pos_bound (size - 1) 16).
  split; [|lia]. unfold SIZE_TO_CLASS_MAP_INDEX. rewrite (u64_small (size - 1)) by (unfold U64; lia). apply u64_small. unfold U64. lia.
Qed.
(** [c] takes [size] bytes in [k] units. *)
Definition takes c (size k : Z) : Prop :=
  1 ≤ k ∧ size + header_type_to_size (htype c) ≤ unit_size c * k < size + header_type_to_size (htype c) + unit_size c ∧
  (type c = CLASS_RUN → ∃ r, run c = Some r ∧ k ≤ RUN_UNIT_MAX_ALLOC ∧ k ≤ nallocs r).
Lemma frag_units c n w : frag c n = Some w → htype c ≠ HEADER_NONE ∧ (∀ r, type c = CLASS_RUN → run c = Some r → units c n ≤ RUN_UNIT_MAX_ALLOC).
Proof.
  unfold frag. case_bool_decide; [done|]. intros Hf. split; [done|]. intros r Hty Hr. rewrite Hty, Hr in Hf. case_match; [done|]. by apply Z.ltb_ge.
Qed.
Lemma calc_size_idx_Ok a p c n size w : classes a !! p = Some c → class_good c → 1 ≤ size ≤ n → n ≤ PMEMOBJ_MAX_ALLOC_SIZE + 64 → (type c = CLASS_RUN → small_size n) →
  frag c n = Some w → alloc_class_calc_size_idx p size a = Ok (units c size) a ∧ takes c size (units c size).
Proof.
  intros Hp [Hu Ht] Hs Hn Hsmall Hf. destruct (frag_units c n w Hf) as [Hh Hr]. destruct (units_spec c size) as (U1&U2); [lia..|].
  unfold PMEMOBJ_MAX_ALLOC_SIZE in *. destruct (calc_units c size) as [Hcalc Hlt]; [lia|lia| |].
  { destruct (type c); [done|rewrite Ht; unfold CHUNKSIZE; lia|]. specialize (Hsmall eq_refl). unfold small_size in Hsmall. lia. }
  unfold alloc_class_calc_size_idx. rewrite (bind_Ok _ _ _ _ _ (class_deref_Ok _ _ _ Hp)), Hcalc. destruct (type c) eqn:Hty; [done| |].
  - rewrite bool_decide_eq_false_2 by done. split; [done|]. unfold takes. split_and!; [lia..|]. by rewrite Hty.
  - rewrite bool_decide_eq_true_2 by done. unfold run_of. destruct (run c) as [r|] eqn:Hrun; [|done]. specialize (Hr r eq_refl eq_refl).
    assert (Hk : units c size ≤ RUN_UNIT_MAX_ALLOC) by (pose proof (units_mono c size n); lia). unfold RUN_UNIT_MAX_ALLOC in *.
    unfold bind, ret. rewrite bool_decide_eq_false_2 by done. cbn [andb]. unfold RUN_UNIT_MAX, RUN_BITS_PER_VALUE.
    rewrite (proj2 (Z.ltb_ge 64 _)), (proj2 (Z.ltb_ge (nallocs r) _)) by lia. split; [done|]. unfold takes. split_and!; [lia..|]. intros _. exists r. split_and!; [done|done|lia].
Qed.
Lemma slot_Ok a n p : aclasses a !! Z.to_nat n = Some p → slot n a = Ok p a.
Proof. intros H. unfold slot, bind, gets. by rewrite H. Qed.
Lemma huge_frag c n : type c = CLASS_HUGE → htype c = HEADER_COMPACT → is_Some (frag c n).
Proof. intros Ht Hh. unfold frag. rewrite Ht, Hh. rewrite bool_decide_eq_false_2 by done. by eexists. Qed.
Lemma assign_by_size_Ok a size l : coll_ok a → 1 ≤ size ≤ MAX_RUN_SIZE → class_map_by_alloc_size a = Some l → l !! Z.to_nat (map_index size) = Some MAX_ALLOCATION_CLASSES →
  ∃ p c w a', alloc_class_assign_by_size size a = Ok p a' ∧ coll_ok a' ∧ classes a' = classes a ∧ classes a !! p = Some c ∧ class_good c ∧
    frag c (ALLOC_BLOCK_SIZE * map_index size) = Some w ∧ least a (reverse (aclasses a)) (ALLOC_BLOCK_SIZE * map_index size) p w.
Proof.
  intros Hok Hs Hl Hx. unfold MAX_RUN_SIZE, CHUNKSIZE in Hs. destruct (map_index_spec size) as (Hmi&Hm1&Hm2); [lia|]. unfold alloc_class_assign_by_size.
  rewrite (bind_Ok _ _ _ _ _ (eq_refl : gets granularity a = _)), (co_granularity a Hok), Hmi. remember (map_index size) as i eqn:Ei. clear Ei. unfold ALLOC_BLOCK_SIZE in *.
  rewrite u64_small by (unfold U64; lia). replace (i * 16) with (16 * i) by lia.
  destruct (find_min_frag_Ok a (16 * i) Hok) as (p&c&w&j&Hrun&Hp&Hj&Hc&Hg&Hid&Hj255&Hf&Hleast); [unfold small_size; lia|].
  rewrite (bind_Ok _ _ _ _ _ Hrun), (proj2 (Z.eqb_neq p 0) Hp), (bind_Ok _ _ _ _ _ (eq_refl : assert_ true _ a = Ok tt a)), (bind_Ok _ _ _ _ _ (class_deref_Ok _ _ _ Hc)).
  assert (Hat : map_at i a = Ok MAX_ALLOCATION_CLASSES a) by (unfold map_at, bind, gets; rewrite Hl; cbn; by rewrite Hx).
  rewrite (bind_Ok _ _ _ _ _ Hat). exists p, c, w, (set_alloc_map (Some (<[Z.to_nat i := class_id c]> l)) a). split; [|split; [|split_and!; done]].
  - rewrite Z.eqb_refl. cbn [when]. unfold set_map_at, bind at 1. rewrite (bind_Ok _ _ _ _ _ Hat). unfold modify, ret. by rewrite Hl.
  - destruct Hok. destruct co_map0 as (l'&Hl'&Hlen&Hmap). rewrite Hl in Hl'. injection Hl' as <-. split; [done..|]. eexists. split_and!; [done|by rewrite length_insert|].
    intros k x Hk Hk0 Hx'. cbn in *. destruct (decide (k = Z.to_nat i)) as [->|Hne].
    + rewrite list_lookup_insert_eq in Hk by (by apply lookup_lt_Some in Hx). injection Hk as <-. rewrite Hid, Nat2Z.id. exists p, c. split_and!; [done..|].
      rewrite Z2Nat.id by lia. by exists w.
    + rewrite list_lookup_insert_ne in Hk by done. by apply (Hmap k x).
Qed.
(** C33. In a collection whose runs are large enough, every size that an allocation can have
    gets a class that takes it: [alloc_class_calc_size_idx] does not fail, its units
    hold the object with its header and none is in vain, and they are at most
    [RUN_UNIT_MAX_ALLOC] and not more than a run has.  What the map remembers keeps
    this true for later sizes. *)
Theorem by_alloc_size_suitable a size : coll_ok a → 1 ≤ size ≤ PMEMOBJ_MAX_ALLOC_SIZE →
  ∃ p c a' k, alloc_class_by_alloc_size size a = Ok p a' ∧ coll_ok a' ∧ classes a' = classes a ∧ classes a !! p = Some c ∧
    alloc_class_calc_size_idx p size a' = Ok k a' ∧ takes c size k.
Proof.
  intros Hok Hs. pose proof Hok as [Hg Hlast Hfail Hauto Hslots (p0&c0&Hp0&Hz0&Hc0&Ht0&Hh0) (l&Hl&Hlen&Hmap)].
  assert (Hhuge : slot DEFAULT_ALLOC_CLASS_ID a = Ok p0 a ∧ ∃ k, alloc_class_calc_size_idx p0 size a = Ok k a ∧ takes c0 size k).
  { split; [by apply slot_Ok|]. destruct (huge_frag c0 size Ht0 Hh0) as [w Hw]. destruct (Hslots O p0 Hp0 Hz0) as (c&Hc&Hgood&_). rewrite Hc0 in Hc. injection Hc as <-.
    exists (units c0 size). apply (calc_size_idx_Ok a p0 c0 size size w); [done..|lia|lia|by rewrite Ht0|done]. }
  destruct Hhuge as (Hslot0&k0&Hk0&Htk0). unfold alloc_class_by_alloc_size. rewrite (bind_Ok _ _ _ _ _ (eq_refl : gets (λ a, a) a = Ok a a)), Hg, Hfail, Hauto.
  destruct (Z.ltb_spec size (last_run_max_size a)) as [Hlt|Hge]; [|by exists p0, c0, a, k0].
  unfold MAX_RUN_SIZE, CHUNKSIZE in Hlast. destruct (map_index_spec size) as (Hmi&Hm1&Hm2); [lia|]. rewrite Hmi. unfold ALLOC_BLOCK_SIZE in *.
  destruct (lookup_lt_is_Some_2 l (Z.to_nat (map_index size))) as [x Hx]; [rewrite Hlen; change (MAX_RUN_SIZE `div` 16 + 1) with 163841; lia|].
  assert (Hat : map_at (map_index size) a = Ok x a) by (unfold map_at, bind, gets; rewrite Hl; cbn; by rewrite Hx). rewrite (bind_Ok _ _ _ _ _ Hat).
  destruct (Z.eqb_spec x MAX_ALLOCATION_CLASSES) as [->|Hne].
  - destruct (assign_by_size_Ok a size l Hok) as (p&c&w&a'&Hrun&Hok'&Hcl&Hc&Hgood&Hf&_); [unfold MAX_RUN_SIZE, CHUNKSIZE; lia|done..|].
    exists p, c, a', (units c size). do 4 (split; [done|]). rewrite <-Hcl in Hc. apply (calc_size_idx_Ok a' p c (ALLOC_BLOCK_SIZE * map_index size) size w); [done..| | | |done]; unfold ALLOC_BLOCK_SIZE, PMEMOBJ_MAX_ALLOC_SIZE, small_size in *; lia.
  - destruct (Hmap _ x Hx) as (p&c&Hp&Hpz&Hc&w&Hw); [lia|done|]. destruct (Hslots _ p Hp Hpz) as (c'&Hc'&Hgood&_). rewrite Hc in Hc'. injection Hc' as <-.
    exists p, c, a, (units c size). split; [by apply slot_Ok|]. do 3 (split; [done|]). rewrite Z2Nat.id in Hw by lia.
    apply (calc_size_idx_Ok a p c (16 * map_index size) size w); [done..| | | |done]; unfold PMEMOBJ_MAX_ALLOC_SIZE, small_size in *; lia.
Qed.
(** [alloc_class_find_min_frag] chooses the class that wastes the fewest bytes for an
    object, around it and at the end of the run, of all classes that have a header
    and take the object in at most [RUN_UNIT_MAX_ALLOC] units. *)
Theorem find_min_frag_least a n : coll_ok a → small_size n →
  ∃ p c w, alloc_class_find_min_frag n a = Ok p a ∧ p ∈ aclasses a ∧ classes a !! p = Some c ∧ frag c n = Some w ∧
    ∀ q c' w', q ∈ aclasses a → q ≠ 0 → classes a !! q = Some c' → frag c' n = Some w' → w ≤ w'.
Proof.
  intros Hok Hn. destruct (find_min_frag_Ok a n Hok Hn) as (p&c&w&i&Hrun&_&Hi&Hc&_&_&_&Hf&Hleast). exists p, c, w.
  split_and!; [done|by eapply list_elem_of_lookup_2|done..|]. intros q c' w' Hq. apply Hleast. by rewrite elem_of_reverse.
Qed.
End choice.
