(* ===== verification/AllocClassMap.v ===== *)
(** * New allocation classes

    A class that [alloc_class_new] creates is found again by the unit size, the flags
    and the size of its runs, through the critnib tree.  The collection that a pool
    starts with, and two classes of a program that break the choice of classes. *)
From stdpp Require Import base list strings gmap.
From S2P Require Import Prelude Pmem Critnib CritnibTree CritnibFacts CritnibSpec CritnibMap CritnibFree AllocClass AllocClassFacts.
Open Scope Z_scope.

(** What the code relies on of [Malloc]: a block is new, and not at the address that
    marks a reserved slot. *)
Class ClassMallocLaws (A : ClassMalloc) : Prop := {
  Malloc_class_new m p : Malloc_class m = Some p → m !! p = None ∧ p ≠ 0 ∧ p ≠ ACLASS_RESERVED;
}.

Section new.
Context {E : NibMalloc} {EL : NibMallocLaws E} {A : ClassMalloc} {AL : ClassMallocLaws A}.
Implicit Types (a : alloc_class_collection) (m : gmap Z Z).

(** The map from keys to classes that the tree of the collection stands for *)
Definition registered a m : Prop :=
  ∃ t, class_map_by_unit_size a = Some t ∧ is_map t m ∧ 0 ≤ remove_count t < U64 - DELETED_LIFE.
Lemma on_unit_map_Ok {B} (c : M critnib B) a t x t' : class_map_by_unit_size a = Some t → c t = Ok x t' → on_unit_map c a = Ok x (set_unit_map (Some t') a).
Proof. intros H1 H2. unfold on_unit_map. by rewrite H1, H2. Qed.
Lemma set_unit_map_id a t : class_map_by_unit_size a = Some t → set_unit_map (Some t) a = a.
Proof. destruct a. cbn. by intros <-. Qed.
Lemma cas_slot_Ok a n old new p : aclasses a !! Z.to_nat n = Some p →
  cas_slot n old new a = if p =? old then Ok true (set_aclasses (<[Z.to_nat n := new]> (aclasses a)) a) else Ok false a.
Proof.
  intros H. unfold cas_slot. rewrite (bind_Ok _ _ _ _ _ (slot_Ok a n p H)). destruct (p =? old); [|done].
  unfold set_slot, bind at 1. by rewrite (bind_Ok _ _ _ _ _ (slot_Ok a n p H)).
Qed.
Lemma set_slot_Ok a n p q : aclasses a !! Z.to_nat n = Some q → set_slot n p a = Ok tt (set_aclasses (<[Z.to_nat n := p]> (aclasses a)) a).
Proof. intros H. unfold set_slot. by rewrite (bind_Ok _ _ _ _ _ (slot_Ok a n q H)). Qed.
Lemma free_slot_from_Ok a k n : (k + n ≤ length (aclasses a))%nat →
  (free_slot_from (seq k n) a = Ok None a ∧ ∀ i, (k ≤ i < k + n)%nat → aclasses a !! i ≠ Some 0) ∨
  ∃ i, (i < k + n)%nat ∧ aclasses a !! i = Some 0 ∧ free_slot_from (seq k n) a = Ok (Some (Z.of_nat i)) (set_aclasses (<[i := ACLASS_RESERVED]> (aclasses a)) a).
Proof.
  revert k. induction n as [|n IH]; intros k Hlen; [left; split; [done|lia]|]. cbn [seq free_slot_from].
  destruct (lookup_lt_is_Some_2 (aclasses a) k) as [p Hp]; [lia|]. pose proof (cas_slot_Ok a (Z.of_nat k) 0 ACLASS_RESERVED p) as Hcas. rewrite Nat2Z.id in Hcas.
  specialize (Hcas Hp). destruct (Z.eqb_spec p 0) as [->|Hne]; rewrite (bind_Ok _ _ _ _ _ Hcas).
  - right. exists k. split_and!; [lia|done|done].
  - destruct (IH (S k)) as [[Hrun Hno]|(i&Hi&H0&Hrun)]; [lia| |].
    + left. split; [done|]. intros i Hi. destruct (decide (i = k)) as [->|]; [congruence|]. apply Hno. lia.
    + right. exists i. split_and!; [lia|done..].
Qed.
Lemma class_flags_flex h al : negb (Z.land (class_flags h al) CHUNK_FLAG_FLEX_BITMAP =? 0) = true ∧ 0 ≤ class_flags h al < 2 ^ 16.
Proof. unfold class_flags. destruct h, (al =? 0); vm_compute; done. Qed.

(** The class of runs that [alloc_class_new] makes *)
Definition run_class (n : Z) (h : header_type) (u al s : Z) : alloc_class :=
  AClass n (class_flags h al) u h CLASS_RUN (Some (RunData s al (nbits (flex_bitmap s u al)))).
Definition key_of (u : Z) (h : header_type) (al s : Z) : Z := class_key ALLOC_BLOCK_SIZE u (class_flags h al) s.
Lemma size_index_ok u : 1 ≤ u ≤ PMEMOBJ_MAX_ALLOC_SIZE → SIZE_TO_CLASS_MAP_INDEX u ALLOC_BLOCK_SIZE <=? UINT32_MAX = true ∧ 0 ≤ SIZE_TO_CLASS_MAP_INDEX u ALLOC_BLOCK_SIZE < 2 ^ 32.
Proof.
  unfold PMEMOBJ_MAX_ALLOC_SIZE. intros Hu. destruct (map_index_spec u) as (->&H1&H2); [lia|]. unfold ALLOC_BLOCK_SIZE, UINT32_MAX in *. lia.
Qed.
Lemma lor_bound x y n : 0 < n → 0 ≤ x < 2 ^ n → 0 ≤ y < 2 ^ n → 0 ≤ Z.lor x y < 2 ^ n.
Proof.
  intros Hn Hx Hy. assert (0 ≤ Z.lor x y) by (apply Z.lor_nonneg; lia). split; [done|]. destruct (decide (Z.lor x y = 0)) as [->|]; [lia|].
  apply Z.log2_lt_pow2; [lia|]. rewrite Z.log2_lor by lia. apply Z.max_lub_lt.
  - destruct (decide (x = 0)) as [->|]; [cbn; lia|apply Z.log2_lt_pow2; lia].
  - destruct (decide (y = 0)) as [->|]; [cbn; lia|apply Z.log2_lt_pow2; lia].
Qed.
Lemma class_key_ok g u f s : key_ok (class_key g u f s).
Proof.
  unfold class_key, RUN_CLASS_KEY_PACK, key_ok, U64. pose proof (Z.mod_pos_bound (SIZE_TO_CLASS_MAP_INDEX u g) (2 ^ 32)) as H1.
  pose proof (Z.mod_pos_bound f (2 ^ 16)) as H2. pose proof (Z.mod_pos_bound s (2 ^ 16)) as H3. unfold u32, u16.
  rewrite !Z.shiftl_mul_pow2 by lia. apply lor_bound; [lia| |lia]. apply lor_bound; lia.
Qed.

(** The slot: the one that was reserved, or the first that is free *)
Lemma take_slot_Ok a id : length (aclasses a) = 255%nat → id = -1 ∨ (0 ≤ id < 255 ∧ aclasses a !! Z.to_nat id = Some ACLASS_RESERVED) →
  ((if id <? 0 then alloc_class_find_first_free_slot else ret (Some (u8 id))) a = Ok None a ∧ id = -1 ∧ ∀ i, aclasses a !! i ≠ Some 0) ∨
  ∃ n, (if id <? 0 then alloc_class_find_first_free_slot else ret (Some (u8 id))) a = Ok (Some n) (set_aclasses (<[Z.to_nat n := ACLASS_RESERVED]> (aclasses a)) a) ∧
    0 ≤ n < 255 ∧ (if id <? 0 then aclasses a !! Z.to_nat n = Some 0 else n = id).
Proof.
  intros Hlen [->|[Hid Hr]].
  - cbn [Z.ltb Z.compare]. unfold alloc_class_find_first_free_slot.
    destruct (free_slot_from_Ok a 0 (Z.to_nat MAX_ALLOCATION_CLASSES)) as [[Hrun Hno]|(i&Hi&H0&Hrun)]; [rewrite Hlen; change (Z.to_nat MAX_ALLOCATION_CLASSES) with 255%nat; lia| |].
    + left. split_and!; [done..|]. intros i Hi. apply (Hno i); [|done]. apply lookup_lt_Some in Hi. rewrite Hlen in Hi. change (0 + Z.to_nat MAX_ALLOCATION_CLASSES)%nat with 255%nat. lia.
    + right. exists (Z.of_nat i). rewrite Nat2Z.id. change (0 + Z.to_nat MAX_ALLOCATION_CLASSES)%nat with 255%nat in Hi. split_and!; [done|lia|lia|done].
  - rewrite (proj2 (Z.ltb_ge id 0)) by lia. right. exists id. unfold u8. rewrite Z.mod_small by lia. rewrite list_insert_id by done. split_and!; [by destruct a|lia|lia|done].
Qed.
Lemma clear_Ok a n : 0 ≤ n → aclasses a !! Z.to_nat n = Some ACLASS_RESERVED → error_class_alloc n a = Ok 0 (set_aclasses (<[Z.to_nat n := 0]> (aclasses a)) a).
Proof.
  intros Hn H. unfold error_class_alloc. rewrite (proj2 (Z.leb_le 0 n) Hn). cbn [when]. unfold alloc_class_reservation_clear, bind.
  by rewrite (cas_slot_Ok a n ACLASS_RESERVED 0 ACLASS_RESERVED H), Z.eqb_refl.
Qed.
(** What [alloc_class_new] did: [p] is the class, or 0 *)
Definition created a m id h u al s p a' : Prop :=
  (p = 0 → registered a' m ∧ aclasses a' = (if id <? 0 then aclasses a else <[Z.to_nat id := 0]> (aclasses a)) ∧
     (classes a' = classes a ∨ ((∀ i, aclasses a !! i ≠ Some 0) ∧ size (classes a') = S (size (classes a))))) ∧
  (p ≠ 0 → m !! key_of u h al s = None ∧ registered a' (<[key_of u h al s := p]> m) ∧
     ∃ n, 0 ≤ n < 255 ∧ (if id <? 0 then aclasses a !! Z.to_nat n = Some 0 else n = id) ∧ aclasses a' = <[Z.to_nat n := p]> (aclasses a) ∧
       classes a !! p = None ∧ classes a' = <[p := run_class n h u al s]> (classes a)).
Lemma new_run_Ok fuel a m p0 id h u al s :
  granularity a = ALLOC_BLOCK_SIZE → length (aclasses a) = 255%nat → registered a m → (16 ≤ fuel)%nat → 1 ≤ s ≤ UINT16_MAX → 1 ≤ u ≤ PMEMOBJ_MAX_ALLOC_SIZE →
  id = -1 ∨ (0 ≤ id < 255 ∧ aclasses a !! Z.to_nat id = Some ACLASS_RESERVED) → classes a !! p0 = None → p0 ≠ 0 →
  ∃ p a', new_run fuel p0 id h u al s (set_classes (<[p0 := AClass 0 0 0 HEADER_LEGACY CLASS_HUGE None]> (classes a)) a) = Ok p a' ∧ created a m id h u al s p a' ∧ granularity a' = ALLOC_BLOCK_SIZE.
Proof using EL.
  intros Hg Hlen Hreg Hfuel Hs Hu Hid Hp0 Hz. set (a1 := set_classes _ a). unfold new_run. destruct (class_flags_flex h al) as [Hflex Hfl].
  assert (Hbm : memblock_run_bitmap s (class_flags h al) u al a1 = Ok (s, flex_bitmap s u al) a1).
  { unfold memblock_run_bitmap. rewrite (proj2 (Z.eqb_neq s 0)), (proj2 (Z.eqb_neq u 0)), Hflex by lia. done. }
  rewrite (bind_Ok _ _ _ _ _ Hbm). cbn [fst snd].
  destruct (take_slot_Ok a1 id) as [(Hrun&->&Hno)|(n&Hrun&Hn&Hn')]; [done|done| |]; rewrite (bind_Ok _ _ _ _ _ Hrun).
  { exists 0, a1. split; [done|]. split; [|done]. split; [|done]. intros _. split_and!; [done..|]. right. split; [done|]. cbn. by rewrite map_size_insert_None. }
  set (a2 := set_aclasses _ a1). rewrite (bind_Ok _ _ _ _ _ (eq_refl : gets granularity a2 = Ok (granularity a) a2)), Hg. destruct (size_index_ok u Hu) as [-> _].
  rewrite (bind_Ok _ _ _ _ _ (eq_refl : assert_ true _ a2 = Ok tt a2)). destruct Hreg as (t&Ht&(T&Hat&Hct&Hnz)&Hcount).
  destruct (critnib_insert_Ok t T (key_of u h al s) p0 fuel Hat (class_key_ok _ _ _ _) Hfuel) as (r&t'&T'&Hins&Hat'&Hcount'&Hres).
  rewrite (bind_Ok _ _ _ _ _ (on_unit_map_Ok (critnib_insert fuel (key_of u h al s) p0) a2 t r t' Ht Hins)). set (a3 := set_unit_map (Some t') a2).
  assert (Hslot : aclasses a3 !! Z.to_nat n = Some ACLASS_RESERVED) by (cbn; apply list_lookup_insert_eq; rewrite Hlen; lia).
  assert (Hfail : r ≠ 0 → T' = T → ∃ p a', (Free_class p0 ;; error_class_alloc n) a3 = Ok p a' ∧ created a m id h u al s p a' ∧ granularity a' = ALLOC_BLOCK_SIZE).
  { intros _ ->. unfold Free_class, bind at 1. rewrite (bind_Ok _ _ _ _ _ (class_deref_Ok a3 p0 _ (lookup_insert_eq _ _ _))).
    set (a4 := set_classes (delete p0 (classes a3)) a3). exists 0, (set_aclasses (<[Z.to_nat n := 0]> (aclasses a4)) a4).
    split; [by apply (clear_Ok a4 n); [lia|]|]. split; [|done]. split; [|done]. intros _. split_and!.
    - exists t'. split_and!; [done|by exists T|rewrite Hcount'; lia..].
    - cbn. rewrite list_insert_insert_eq. destruct (id <? 0); [by apply list_insert_id|by rewrite Hn'].
    - left. cbn. apply delete_insert_id. exact Hp0. }
  destruct Hres as [(->&Hnone&Hct')|[(->&_&HT)|(->&_&HT)]]; [|by apply Hfail..].
  cbn [Z.eqb negb]. unfold publish_class. rewrite (bind_Ok _ _ _ _ _ (eq_refl : modify _ a3 = Ok tt _)). unfold u8. rewrite (Z.mod_small n) by lia.
  fold (run_class n h u al s). set (a4 := set_classes _ a3). rewrite (bind_Ok _ _ _ _ _ (set_slot_Ok a4 n p0 ACLASS_RESERVED Hslot)). eexists p0, _. split; [done|].
  split; [|done]. split; [done|]. intros _. rewrite <-Hct. split_and!; [done| |].
  - exists t'. rewrite <-Hct'. split_and!; [done| |rewrite Hcount'; lia..]. exists T'. split_and!; [done..|]. rewrite Hct', Hct. by apply map_Forall_insert_2.
  - exists n. split_and!; [lia|lia|done| |done|]; cbn; [by rewrite list_insert_insert_eq|by rewrite insert_insert_eq].
Qed.
Lemma by_run_Ok turns fuel a m u f s : granularity a = ALLOC_BLOCK_SIZE → registered a m → (1 ≤ turns)%nat → (16 ≤ fuel)%nat →
  1 ≤ u ≤ PMEMOBJ_MAX_ALLOC_SIZE → s ≤ UINT16_MAX →
  alloc_class_by_run turns fuel u f s a = Ok (default 0 (m !! class_key ALLOC_BLOCK_SIZE u f s)) a.
Proof.
  intros Hg (t&Ht&(T&[(pn&pl&Hc) Hwf _ _]&Hct&_)&Hcount) Hturns Hfuel Hu Hs. unfold alloc_class_by_run.
  rewrite (bind_Ok _ _ _ _ _ (eq_refl : gets granularity a = _)), Hg. destruct (size_index_ok u Hu) as [-> _]. rewrite (bind_Ok _ _ _ _ _ (eq_refl : assert_ true _ a = Ok tt a)).
  rewrite (proj2 (Z.leb_le s UINT16_MAX) Hs), (bind_Ok _ _ _ _ _ (eq_refl : assert_ true _ a = Ok tt a)).
  assert (Hta : tree_at t T) by (by destruct Hc).
  erewrite on_unit_map_Ok; [|exact Ht|apply stable_Ok; [apply (get_once_Ok t T); [exact Hta|exact Hfuel]|done|done]]. by rewrite Hct, set_unit_map_id.
Qed.
(** C35. [alloc_class_new] and [alloc_class_by_run] go together: a new class of runs takes a
    free slot, or the one reserved for it, and from then on it is found by its unit
    size, flags and run size, as are all classes before it.  When it cannot be
    created, because there is no memory, no slot, or a class with the same key,
    nothing is registered and the slot is free again; the block is then freed, except
    when there was no slot. *)
Theorem alloc_class_registered fuel a m id h u al s :
  granularity a = ALLOC_BLOCK_SIZE → length (aclasses a) = 255%nat → registered a m → (16 ≤ fuel)%nat → 1 ≤ s ≤ UINT16_MAX → 1 ≤ u ≤ PMEMOBJ_MAX_ALLOC_SIZE →
  id = -1 ∨ (0 ≤ id < 255 ∧ aclasses a !! Z.to_nat id = Some ACLASS_RESERVED) →
  ∃ p a', alloc_class_new fuel id CLASS_RUN h u al s a = Ok p a' ∧ created a m id h u al s p a' ∧
    (p ≠ 0 → alloc_class_by_run 1 fuel u (class_flags h al) s a' = Ok p a') ∧
    (∀ u' f' s' q, 1 ≤ u' ≤ PMEMOBJ_MAX_ALLOC_SIZE → s' ≤ UINT16_MAX → q ≠ 0 →
       alloc_class_by_run 1 fuel u' f' s' a = Ok q a → alloc_class_by_run 1 fuel u' f' s' a' = Ok q a').
Proof using EL AL.
  intros Hg Hlen Hreg Hfuel Hs Hu Hid.
  assert (Hnew : ∃ p a', alloc_class_new fuel id CLASS_RUN h u al s a = Ok p a' ∧ created a m id h u al s p a' ∧ granularity a' = ALLOC_BLOCK_SIZE).
  { unfold alloc_class_new. rewrite (bind_Ok _ _ _ _ _ (eq_refl : gets classes a = _)). destruct (Malloc_class (classes a)) as [p0|] eqn:Hm.
    - apply Malloc_class_new in Hm as (Hp0&Hz&_). rewrite (bind_Ok _ _ _ _ _ (eq_refl : modify _ a = Ok tt _)).
      destruct (new_run_Ok fuel a m p0 id h u al s) as (p&a'&Hrun&Hcr&Hgr); [done..|]. by exists p, a'.
    - destruct Hid as [->|[Hid Hr]].
      + exists 0, a. split; [done|]. split; [|done]. split; [|done]. intros _. split_and!; [done..|]. by left.
      + exists 0, (set_aclasses (<[Z.to_nat id := 0]> (aclasses a)) a). split; [by apply clear_Ok; [lia|]|]. split; [|done]. split; [|done]. intros _.
        split_and!; [done| |by left]. rewrite (proj2 (Z.ltb_ge id 0)) by lia. done. }
  destruct Hnew as (p&a'&Hrun&Hcr&Hg'). exists p, a'. split; [done|]. split; [done|]. destruct Hcr as [Hc0 Hc1]. split.
  - intros Hp. destruct (Hc1 Hp) as (_&Hr&_). rewrite (by_run_Ok 1 fuel a' _ u _ s Hg' Hr) by (done || lia). unfold key_of. by rewrite lookup_insert_eq.
  - intros u' f' s' q Hu' Hs' Hq. rewrite (by_run_Ok 1 fuel a m u' f' s' Hg Hreg) by (done || lia). intros [= Hm].
    destruct (decide (p = 0)) as [->|Hp].
    + destruct (Hc0 eq_refl) as (Hr&_). rewrite (by_run_Ok 1 fuel a' m u' f' s' Hg' Hr) by (done || lia). by rewrite Hm.
    + destruct (Hc1 Hp) as (Hnone&Hr&_). rewrite (by_run_Ok 1 fuel a' _ u' f' s' Hg' Hr) by (done || lia).
      rewrite lookup_insert_ne; [by rewrite Hm|]. intros Heq. rewrite <-Heq, Hnone in Hm. by destruct Hq.
Qed.
End new.

(** ** The collection of a pool *)

(** Checks that run *)
Definition class_goodb (c : alloc_class) : bool :=
  (1 <=? unit_size c) && (unit_size c <=? PMEMOBJ_MAX_ALLOC_SIZE) &&
  match type c with
  | CLASS_UNKNOWN => false
  | CLASS_HUGE => unit_size c =? CHUNKSIZE
  | CLASS_RUN => match run c with Some r => (RUN_UNIT_MAX_ALLOC <=? nallocs r) && (nallocs r <? 2 ^ 32) | None => false end
  end.
Fixpoint slots_okb (m : gmap Z alloc_class) (i : nat) (l : list Z) : bool :=
  match l with
  | [] => true
  | p :: l' =>
      ((p =? 0) || match m !! p with Some c => class_goodb c && (class_id c =? Z.of_nat i) && (i <? 255)%nat | None => false end) && slots_okb m (S i) l'
  end.
Definition entry_okb (a : alloc_class_collection) (i x : Z) : bool :=
  (i =? 0) || (x =? MAX_ALLOCATION_CLASSES) ||
  match aclasses a !! Z.to_nat x with
  | Some p => negb (p =? 0) && match classes a !! p with Some c => match frag c (ALLOC_BLOCK_SIZE * i) with Some _ => true | None => false end | None => false end
  | None => false
  end.
Fixpoint entries_okb (a : alloc_class_collection) (i : Z) (l : list Z) : bool :=
  match l with [] => true | x :: l' => entry_okb a i x && entries_okb a (i + 1) l' end.
Definition hugeb (a : alloc_class_collection) : bool :=
  match aclasses a !! O with
  | Some p => negb (p =? 0) && match classes a !! p with Some c => bool_decide (type c = CLASS_HUGE) && bool_decide (htype c = HEADER_COMPACT) | None => false end
  | None => false
  end.
Definition coll_okb (a : alloc_class_collection) : bool :=
  (granularity a =? ALLOC_BLOCK_SIZE) && (last_run_max_size a <=? MAX_RUN_SIZE) && negb (fail_on_missing_class a) && autogenerate_on_missing_class a &&
  slots_okb (classes a) 0 (aclasses a) && hugeb a &&
  match class_map_by_alloc_size a with
  | Some l => (Z.of_nat (length l) =? MAX_RUN_SIZE `div` ALLOC_BLOCK_SIZE + 1) && entries_okb a 0 l
  | None => false
  end.
Lemma class_goodb_ok c : class_goodb c = true → class_good c.
Proof.
  unfold class_goodb, class_good. intros [[H1 H2]%andb_true_iff H3]%andb_true_iff. split; [lia|]. destruct (type c); [done|lia|].
  destruct (run c); [lia|done].
Qed.
Lemma slots_okb_ok m k l : slots_okb m k l = true → ∀ i p, l !! i = Some p → p ≠ 0 →
  ∃ c, m !! p = Some c ∧ class_good c ∧ class_id c = Z.of_nat (k + i) ∧ (k + i < 255)%nat.
Proof.
  revert k. induction l as [|q l IH]; intros k H i p Hi Hp; [done|]. cbn [slots_okb] in H. apply andb_true_iff in H as [Hq H]. destruct i as [|i].
  - injection Hi as ->. apply orb_true_iff in Hq as [?%Z.eqb_eq|Hq]; [done|]. destruct (m !! p) as [c|]; [|done].
    apply andb_true_iff in Hq as [[Hg%class_goodb_ok Hid]%andb_true_iff Hlt]. exists c. rewrite Nat.add_0_r. apply Z.eqb_eq in Hid. apply Nat.ltb_lt in Hlt. done.
  - rewrite <-Nat.add_succ_comm. by apply (IH (S k)).
Qed.
Lemma entries_okb_ok a k l : entries_okb a k l = true → ∀ i x, l !! i = Some x → entry_okb a (k + Z.of_nat i) x = true.
Proof.
  revert k. induction l as [|y l IH]; intros k H i x Hi; [done|]. cbn [entries_okb] in H. apply andb_true_iff in H as [Hy H]. destruct i as [|i].
  - injection Hi as ->. by rewrite Z.add_0_r.
  - replace (k + Z.of_nat (S i)) with (k + 1 + Z.of_nat i) by lia. by apply IH.
Qed.
Lemma coll_okb_ok a : coll_okb a = true → coll_ok a.
Proof.
  unfold coll_okb. rewrite !andb_true_iff. intros ((((((Hg&Hl)&Hf)&Ha)&Hs)&Hh)&Hm). split; [lia|lia|by destruct (fail_on_missing_class a)|done| | |].
  - intros i p. by apply (slots_okb_ok (classes a) 0 (aclasses a)).
  - unfold hugeb in Hh. destruct (aclasses a !! O) as [p|] eqn:Hp; [|done]. apply andb_true_iff in Hh as [Hz Hh]. destruct (classes a !! p) as [c|] eqn:Hc; [|done].
    apply andb_true_iff in Hh as [H1%bool_decide_eq_true H2%bool_decide_eq_true]. exists p, c. split_and!; [done|lia|done..].
  - destruct (class_map_by_alloc_size a) as [l|]; [|done]. apply andb_true_iff in Hm as [Hlen Hm]. exists l. split_and!; [done|lia|].
    intros i x Hi Hi0 Hx. pose proof (entries_okb_ok a 0 l Hm i x Hi) as He. unfold entry_okb in He. rewrite Z.add_0_l in He.
    rewrite (proj2 (Z.eqb_neq (Z.of_nat i) 0)), (proj2 (Z.eqb_neq x MAX_ALLOCATION_CLASSES)) in He by (done || lia). cbn [orb] in He.
    destruct (aclasses a !! Z.to_nat x) as [p|] eqn:Hp; [|done]. apply andb_true_iff in He as [Hz He]. destruct (classes a !! p) as [c|] eqn:Hc; [|done].
    exists p, c. split_and!; [done|lia|done|]. by destruct (frag c _).
Qed.

(** Memory for everything, at rising addresses *)
Definition rising : ClassMalloc :=
  {| Malloc_class m := Some (ACLASS_RESERVED + 16 + top_address m); Malloc_map := true; Zalloc_critnib := true; Zalloc_collection := true |}.
Lemma rising_laws : ClassMallocLaws rising.
Proof.
  split. intros m p [= <-]. destruct (top_address_max m (ACLASS_RESERVED + 16 + top_address m)) as [H0 H1]. unfold ACLASS_RESERVED in *. split_and!; [|lia|lia].
  destruct (m !! _) eqn:Em; [|done]. enough (4294967295 + 16 + top_address m ≤ top_address m) by lia. apply H1. by eexists.
Qed.
Definition plenty : NibMalloc := bump 1000.
Definition left_by {S B} (r : res S B) : S := match r with Ok _ s | Abort _ s => s end.
Definition pool_classes : alloc_class_collection := left_by (alloc_class_collection_new (E := plenty) (A := rising) 100 5000 16 1000 zeroed).
Lemma pool_classes_ok : coll_ok pool_classes.
Proof. apply coll_okb_ok. vm_compute. reflexivity. Qed.
Lemma by_alloc_size_suitable_witness :
  ∃ p c a' k, alloc_class_by_alloc_size 200 pool_classes = Ok p a' ∧ coll_ok a' ∧ classes a' = classes pool_classes ∧ classes pool_classes !! p = Some c ∧
    alloc_class_calc_size_idx p 200 a' = Ok k a' ∧ takes c 200 k.
Proof. apply (by_alloc_size_suitable pool_classes 200 pool_classes_ok). unfold PMEMOBJ_MAX_ALLOC_SIZE. lia. Defined.
Lemma find_min_frag_least_witness :
  ∃ p c w, alloc_class_find_min_frag 208 pool_classes = Ok p pool_classes ∧ p ∈ aclasses pool_classes ∧ classes pool_classes !! p = Some c ∧ frag c 208 = Some w ∧
    ∀ q c' w', q ∈ aclasses pool_classes → q ≠ 0 → classes pool_classes !! q = Some c' → frag c' 208 = Some w' → w ≤ w'.
Proof. apply (find_min_frag_least pool_classes 208 pool_classes_ok). unfold small_size. lia. Defined.
Lemma run_bitmap_bounds_witness :
  304 + 2045 * 128 ≤ RUN_CONTENT_SIZE_BYTES 1 ∧ nbits (flex_bitmap 1 (CHUNKSIZE - RUN_BASE_METADATA_SIZE) 16) = 2 ^ 32 - 1.
Proof.
  assert (Hb : flex_bitmap 1 128 0 = RunBitmap 32 2045 304) by (vm_compute; reflexivity). split.
  - destruct (run_bitmap_bounds 1 128 0) as (_&_&H&_); [unfold UINT16_MAX; lia|lia|by vm_compute|].
    destruct H as (_&_&_&H&_); rewrite Hb in *; [by vm_compute|exact H].
  - destruct (run_bitmap_bounds 1 (CHUNKSIZE - RUN_BASE_METADATA_SIZE) 16) as (_&_&_&H); [unfold UINT16_MAX; lia|by vm_compute|by vm_compute|].
    apply H. vm_compute. reflexivity.
Defined.
(** An empty collection with its tree *)
Definition no_classes : alloc_class_collection :=
  Collection ALLOC_BLOCK_SIZE (replicate 255 0) MAX_RUN_SIZE None (critnib_new true) false true ∅.
Lemma alloc_class_registered_witness :
  ∃ p a', alloc_class_new (E := plenty) (A := rising) 16 (-1) CLASS_RUN HEADER_COMPACT 128 0 1 no_classes = Ok p a' ∧
    (p ≠ 0 → alloc_class_by_run 1 16 128 (class_flags HEADER_COMPACT 0) 1 a' = Ok p a').
Proof.
  assert (Hreg : registered no_classes ∅).
  { eexists. split; [reflexivity|]. split; [by apply new_is_map|]. cbn. unfold U64, DELETED_LIFE. lia. }
  destruct (alloc_class_registered (E := plenty) (EL := bump_laws 1000) (A := rising) (AL := rising_laws) 16 no_classes ∅ (-1) HEADER_COMPACT 128 0 1)
    as (p&a'&H1&_&H2&_); [reflexivity|reflexivity|exact Hreg|lia|unfold UINT16_MAX; lia|unfold PMEMOBJ_MAX_ALLOC_SIZE; lia|by left|].
  exists p, a'. split; assumption.
Defined.

(** ** Classes of a program that break the choice *)

Section unitless.
Context {E : NibMalloc} {A : ClassMalloc} {AL : ClassMallocLaws A}.
Implicit Types (a : alloc_class_collection) (l : list Z).

(** What creating a class leaves alone *)
Record same_rest a a' : Prop := {
  sr_granularity : granularity a' = granularity a;
  sr_last : last_run_max_size a' = last_run_max_size a;
  sr_map : class_map_by_alloc_size a' = class_map_by_alloc_size a;
  sr_fail : fail_on_missing_class a' = fail_on_missing_class a;
  sr_auto : autogenerate_on_missing_class a' = autogenerate_on_missing_class a;
}.
Lemma same_rest_trans a1 a2 a3 : same_rest a1 a2 → same_rest a2 a3 → same_rest a1 a3.
Proof. intros [] []. split; congruence. Qed.

End unitless.

(** What [CTL_WRITE_HANDLER(desc)] answers, in the collection of a pool *)
Definition own_class (p : pobj_alloc_class_desc) : res alloc_class_collection (Z + pobj_alloc_class_desc) :=
  desc_write (E := plenty) (A := rising) 16 None None p pool_classes.
(** With one unit per block where two are needed, a size that two units would hold
    exactly gets this class, for which [alloc_class_calc_size_idx] fails. *)
Example undersized_class :
  answers (own_class (Desc 1048576 0 1 POBJ_HEADER_COMPACT 0)) = Some (inr (Desc 1048576 0 1 POBJ_HEADER_COMPACT 54)) ∧
  answers ((let! p := alloc_class_by_alloc_size 2097136 in alloc_class_calc_size_idx p 2097136)
             (left_by (own_class (Desc 1048576 0 1 POBJ_HEADER_COMPACT 0)))) = Some (-1).
Proof. split; vm_compute; reflexivity. Qed.
